(* ===== verification/_CoqProject ===== *)
-Q . S2P
Prelude.v
GoTime.v
CommonTypes.v
BitVec.v
Locks.v
LevelDB.v
PttDB.v
MerkleNode.v
Merkle.v
OplogSign.v
Oplog.v
HandleOplogs.v
OplogList.v
RaftStorage.v
Block.v
Object.v
ObjectLogs.v
Leaves.v
SyncOplog.v
Netutil.v
Discover.v
KadTable.v
KadLookup.v
NodeDB.v
Dial.v
P2PServer.v
PeerProto.v
RlpxFrame.v
RlpxHandshake.v
UdpLoop.v
Udp.v
PttPeer.v
Router.v
Identify.v
Envelope.v
OpKeys.v
Join.v
