(* ===== verification/Prelude.v ===== *)
(** * go-pttai-core: a verification development

    go-pttai-core is a library for shared spaces without servers: nodes that
    belong to the same space ("entity") exchange signed operation logs
    ("oplogs"), compare what they have by a merkle tree over time, and apply
    the logs to objects whose content travels in blocks.  Underneath are a
    database layer on goleveldb and a peer-to-peer network derived from
    go-ethereum's devp2p.  This library is a shallow embedding of the parts
    of that program that decide something: pure functions are Rocq functions,
    stateful code passes its state, concurrent code is a step relation, and
    a call that can fail returns an [outcome] (a value, an error value, or a
    run-time panic).

    ** The files

    This file: error values, [outcome], the integers of Go at their width
    ([u8], [u64], [i64]: wrap-around written out), slices and indexing with
    their panics, big-endian encodings, the order of byte strings, tactics.

    Basic types.
    - [GoTime]: [common/types/timestamp.go], with the calendar of Go's [time];
      the hour, day, month and year of a timestamp.
    - [CommonTypes]: [common/*.go], [common/types/ptt_id.go], [types.go],
      [salt.go], [utils.go], [bool.go]; the classes [Crypto] and [Base58].
    - [BitVec]: [common/types/bit_vector.go].
    - [Locks]: [common/types/lock_map.go], [lock.go], [chan.go].

    The database.
    - [LevelDB]: what goleveldb promises, as a class, and an instance of it.
    - [PttDB]: [pttdb/ldb_database.go], [index.go], [utils.go], [types.go]:
      records with index keys, puts guarded by update times, key locks,
      iteration by prefix.

    Oplogs.
    - [MerkleNode]: [service/merkle_node.go], [service/merkle_utils.go]:
      encoding of nodes, comparison of two trees.
    - [Merkle]: [service/merkle.go]: the tree of an oplog in the database.
    - [OplogSign]: signing, verification and merging of signatures of
      [service/oplog.go], [oplog_utils.go], [utils.go], [key_types.go].
    - [Oplog]: storage of oplogs, [service/oplog.go], [oplog_utils.go].
    - [HandleOplogs], [OplogList]: [service/protocol_handle_oplogs.go],
      [protocol_manager_utils_oplog.go], lists of [oplog_utils.go].
    - [Leaves]: the leaves of the tree and the oplogs stored, together.
    - [SyncOplog]: the messages that synchronise oplogs,
      [service/protocol_sync_oplog*.go], [protocol_force_sync_oplog*.go].
    - [RaftStorage]: [me/raft_storage.go], the raft log of a user's nodes.

    Objects and their content.
    - [Block]: [service/block.go], [block_info.go], [block_utils.go],
      [protocol_manager_utils_block.go], [protocol_sync_block.go], [media.go].
    - [Object]: [service/object.go], [object_utils.go], [sync_info.go].
    - [ObjectLogs]: the handlers of [service/protocol_*_object*.go],
      [protocol_sync_*_ack.go], [protocol_log_utils.go].

    The network.
    - [Netutil]: [p2p/netutil/net.go].
    - [Discover], [KadTable], [KadLookup], [NodeDB]: [p2p/discover]: node
      identifiers and distances, the node table, lookups, the node database.
    - [Dial], [P2PServer], [PeerProto]: [p2p/dial.go], [p2p/server.go],
      [p2p/peer.go] and [protocol.go]: scheduling of dials, the main loop with
      its limits, subprotocols of a connection.
    - [RlpxFrame], [RlpxHandshake]: [p2p/rlpx.go], [p2p/message.go]: frames with
      their MACs, the encryption and protocol handshakes.
    - [UdpLoop], [Udp]: [p2p/discover/udp.go]: requests that wait for replies,
      the signed packets of discovery and their handlers.

    Peers.
    - [PttPeer]: [service/ptt_peer.go], [ptt_peer_set.go], [dial_history.go].
    - [Router]: [service/router_utils_peer.go], [router_utils_entity.go],
      [protocol_manager_utils_peer.go]: the peers of the node and of its
      entities.
    - [Identify]: [service/protocol_identify_peer*.go]: who is behind a
      connection.
    - [Envelope]: [service/router_utils.go], [router_utils_handle_message.go],
      [protocol_manager_utils.go], [protocol_manager_utils_handle_message.go]:
      encrypted messages between entities and who may send them.
    - [OpKeys]: [service/protocol_manager_utils_op_key.go],
      [protocol_create_op_key.go]: the keys the messages are encrypted with.
    - [Join]: [service/protocol_join*.go], [protocol_approve_join.go],
      [protocol_manager_utils_join_key.go], [me/protocol_join_*.go]: how a
      person becomes part of an entity.

    A definition has the name of the Go function or method it translates, with
    a short prefix when two types share a method name ([bv_Get], [oplog_Get],
    [ob_Save]); a record has the fields of the struct that the code looks at.
    Fields of an interface, or functions passed to a handler (the callbacks of
    the concrete kinds of objects), are class fields or section variables.

    ** How the parts interact

    [Oplog] and [Merkle] write to one database of [PttDB], [PttDB] to any
    instance of [LevelDB] and takes its key locks from [Locks].  [HandleOplogs]
    calls [OplogSign] to verify, [Oplog] to store and, by its callbacks, the
    handlers of [ObjectLogs], which use [Object] and, for content, [Block].
    [SyncOplog] reads the tree of [Merkle] and hands what it receives to
    [HandleOplogs], of which it assumes what the lemmas of [Leaves] show of
    storing a list of oplogs.
    [KadTable] counts addresses with [Netutil] and keeps nodes of [Discover];
    [KadLookup] searches it, [NodeDB] seeds it; [Dial] reads it through the
    promise [read_ok], which [table_read_ok] proves of [ReadRandomNodes];
    [P2PServer] runs [Dial] in its loop.  [RlpxHandshake] makes the secrets
    that [RlpxFrame] works with.  [Udp] runs [UdpLoop] with the callbacks of its
    requests and writes to [KadTable] and [NodeDB].  [Router] keeps one set of
    [PttPeer] per entity; [Identify] finds the user of a connection and hands
    it to [Router]; [Envelope] finds the entity of a message and asks [Router]
    what its sender is.  [OpKeys] keeps the keys that [Envelope] looks up by
    their hash, and the router's table of them; the messages of [Join] travel in
    [Envelope] under keys of their own.

    ** What the theorems show

    - Oplogs: a signed oplog verifies, and verification accepts only what was
      signed; a list that passes preprocessing is verified, ordered, and
      starts after what is known; of two valid oplogs for one object both
      sides keep the same; storing one stores record, index and merkle leaf;
      a pending oplog never replaces a valid one.
    - Synchronisation: the pieces an acknowledgement is sent in partition the
      leaves from its hour on; after the three messages of an exchange both
      sides have the oplogs of the piece that either had.
    - Objects: deletion is final; two nodes that saw the same deletions in
      either order agree; an update waits for its content and completes when
      the content has come.
    - Content: what is split, sent, accepted and joined is what it was;
      nothing is accepted that the object does not list.
    - Merkle tree: the levels the code saves are those of the reference
      definition, equal leaves give equal trees, the comparison finds exactly
      the differences, the set of hours to update survives a restart.
    - Database: batches refine a map with index; update times do not
      decrease; iteration by prefix gives exactly the keys of the prefix;
      locks exclude.
    - Raft log: [Append] refines the replacement of a suffix, and a restart
      finds the log again.
    - Network: the node table keeps its shape and its subnet limits; lookups
      end with the nearest nodes that were heard of; the dialer hands out only
      dials it may make and does not fall asleep; the server keeps within its
      limits; both ends of a connection agree on message codes.
    - Transport: both sides of a handshake agree on the secrets; a frame is
      read as it was written, and accepted only with the tags over all that was
      read before it.
    - Discovery: every request is answered once, and while requests wait the
      timer is set for one of them; a packet is decoded to what was encoded
      and to its signer; a ping that is answered makes a bond; only nodes with
      a bond get neighbors, in packets that fit the limit.
    - Peers: a set of peers refines a map from nodes to one connection and
      type; the maps of the router are those of the live connections by type,
      whatever operations ran; limits and users are respected on admission; a
      user is known only from a signed answer to the challenge that was sent;
      a message is understood by the node it is for, and handled as its sender
      may.
    - Keys and joining: the key for new messages is the newest that is fresh,
      and there is one whenever a registered key is fresh; who has a join key
      joins, in the four messages of the exchange; a request goes on only on an
      answer that carries its challenge under its key.

    ** Fuel and bounds

    Recursion is structural wherever the code loops over a list.  Loops of
    another kind take fuel that is provably enough: iterators the number of
    records they see, [ReadRandomNodes] the number of free places, the varints
    ten bytes, the ciphers the length of their input, the count of neighbors in
    a packet its limit in bytes.  Lookups and the server loop are step relations; that every
    lookup ends is a theorem, with a bound on the number of answers.

    ** Parameters

    goleveldb, JSON, RLP, secp256k1 with Keccak-256 and BIP32 derivation, ECIES,
    AES (one block), Snappy, base58, etcd's [raftpb], the Reed-Solomon code, libp2p's identifiers.  Each
    is a class whose laws are documented behaviour (encodings read back,
    signatures verify, an error leaves the store alone); each class that a
    theorem assumes has an instance the witnesses run on.  The clock,
    randomness, the iteration order of Go maps and what the network sends are
    arguments, so the theorems hold for whatever they are.

    ** Assumptions

    The pointers the code dereferences without a check (the identifier and
    creator of an oplog) are not [nil]; a slice that is appended to has no
    spare capacity shared with another; an empty and a [nil] slice are the
    same unless the code tells them apart; a slice that comes out of a message
    has no capacity beyond its length; handlers receive objects of their
    own; methods under a mutex are atomic ([RaftStorage], the node table);
    [container/heap] is the sorted list the code sees of it.

    ** Not modelled

    Sockets, timers and goroutines around the modelled operations (the tickers
    of the discovery loop, the [Meter] of the database, the loop that reads the
    messages of a peer, queues of what is to be sent, the timers that start the
    merkle tree or the renewal of a key, starting and stopping of services,
    libp2p and webrtc), the RPC interfaces and configuration ([node], [rpc],
    [cmd]), logging, the end-to-end tests and examples: they are input and
    output or decide nothing about the state.

    Masters, members, persons, accounts, profiles, cards, nodes of a user and
    friends, and the objects that operation keys are stored as, are instances
    of the object and oplog layers: a type of data, its operations as numbers,
    and calls of the handlers that are modelled.  They are not modelled one by
    one; what the layers ask of them (who is a master, what a callback does
    with an object, what an entity approves a person with) is an argument.
    [pttdb]'s database in memory and prefixed table, and the node records of
    [p2p/enr], are not used by the program.  Code under [vendor] is a parameter
    where it is used. *)

From stdpp Require Export base gmap list strings sorting.
From Stdlib Require Export ZArith Lia.
From Stdlib Require Import Strings.Byte.
From Stdlib Require Export Init.Byte.

Set Default Goal Selector "!".

Declare Scope ptt_scope.
Delimit Scope ptt_scope with ptt.

(** ** Errors

    The error values of [common/types/errors.go], [pttdb/errors.go],
    [service/errors.go], [me/errors.go], of goleveldb and of etcd's raft that
    the modelled code returns or compares.  Two packages that declare a
    variable of the same name declare two different values. *)
Inductive GoErr :=
  | ErrInvalidID | ErrInvalidTimestamp | ErrInvalidBitVector
  | ErrLock | ErrUnlock | ErrClose | ErrLockClosed
  | ErrBusy | ErrInvalidLock
  | ErrNotBool | ErrNotBoolDAry
  | DBErrInvalidPrefix | DBErrInvalidDBable | DBErrInvalidUpdateTS
  | DBErrInvalidLock | DBErrBusy | DBErrInvalidKeys
  | LDBErrNotFound | LDBErrClosed | MemErrNotFound
  | SvcErrInvalidOplog | SvcErrInvalidData | SvcErrOplogAlreadyExists
  | SvcErrInvalidKey | SvcErrInvalidMerkle | SvcErrBusy
  | SvcErrSkipOplog | SvcErrNewerOplog | SvcErrNotFound | SvcErrClosed
  | SvcErrAlreadyRegistered | SvcErrNotRegistered | SvcErrToClose | SvcErrInvalidStatus
  | SvcErrInvalidPreLog | SvcErrAlreadyPending | SvcErrNotAlive | SvcErrInvalidFunc
  | ErrAlreadyPending | ErrInvalidStatus
  | SvcErrNoPeer | SvcErrInvalidBlock | SvcErrInvalidObject | SvcErrFileTooLarge
  | MeErrInvalidEntry | RaftErrSnapOutOfDate
  | P2PErrPlainMessageTooLarge | P2PErrMessageTooBig | P2PErrBadHeaderMAC | P2PErrBadFrameMAC
  | P2PErrReadSize | ErrEOF | ErrShortWrite
  | ErrAlreadyExists | ErrAlreadyDeleted | SvcErrInvalidMsgCode | SvcErrMsgTooLarge | SvcErrPeerUserID
  | SvcErrInvalidEntity | P2PDiscTooManyPeers | P2PDiscQuitting | SvcErrNotSent | SvcErrInvalidKeyInfo
  | SvcErrInvalidMsg | SvcErrAlreadyMyNode | MeErrInvalidMe | MeErrAlreadyMyNode
  | ErrDecode | ErrRand | ErrExternal.

#[global] Instance GoErr_eq_dec : EqDecision GoErr.
Proof. solve_decision. Defined.

(** ** Outcomes

    A Go call that returns [(v, nil)], one that returns an error, or one that
    panics (an index or slice expression out of range, a division by zero, an
    explicit [panic]). *)
Inductive outcome (A : Type) :=
  | Ok (a : A)
  | Err (e : GoErr)
  | Panic.
Arguments Ok {A} a.
Arguments Err {A} e.
Arguments Panic {A}.

#[global] Instance outcome_ret : MRet outcome := λ A a, Ok a.
#[global] Instance outcome_bind : MBind outcome := λ A B k m,
  match m with Ok a => k a | Err e => Err e | Panic => Panic end.

#[global] Instance Ok_inj A : Inj eq eq (@Ok A).
Proof. intros x y E. by injection E. Qed.

(** The result of indexing: [None] is the run-time panic. *)
Definition or_panic {A} (o : option A) : outcome A :=
  match o with Some a => Ok a | None => Panic end.

Definition is_ok {A} (o : outcome A) : bool :=
  match o with Ok _ => true | _ => false end.

(** ** Machine integers

    A Go integer is a [Z] in the range of its type; the conversions and the
    arithmetic that can leave the range wrap explicitly. *)
Definition u64 (z : Z) : Z := (z mod 2 ^ 64)%Z.
Definition u32 (z : Z) : Z := (z mod 2 ^ 32)%Z.
Definition i64 (z : Z) : Z := ((z + 2 ^ 63) mod 2 ^ 64 - 2 ^ 63)%Z.

Definition in_u64 (z : Z) : Prop := (0 ≤ z < 2 ^ 64)%Z.
Definition in_u32 (z : Z) : Prop := (0 ≤ z < 2 ^ 32)%Z.
Definition in_i64 (z : Z) : Prop := (- 2 ^ 63 ≤ z < 2 ^ 63)%Z.

(** [word] proves range facts about constants of the machine widths. *)
Ltac word :=
  unfold in_u64, in_u32, in_i64, u64, u32, i64 in *;
  change (2 ^ 64)%Z with 18446744073709551616%Z in *;
  change (2 ^ 63)%Z with 9223372036854775808%Z in *;
  change (2 ^ 32)%Z with 4294967296%Z in *;
  Z.to_euclidean_division_equations; lia.

Lemma u64_small z : in_u64 z → u64 z = z.
Proof. intros. apply Z.mod_small. done. Qed.

Lemma u32_small z : in_u32 z → u32 z = z.
Proof. intros. apply Z.mod_small. done. Qed.

Lemma i64_small z : in_i64 z → i64 z = z.
Proof. word. Qed.

Lemma u64_range z : in_u64 (u64 z).
Proof. word. Qed.

Lemma i64_range z : in_i64 (i64 z).
Proof. word. Qed.

Lemma i64_u64 z : in_i64 z → i64 (u64 z) = z.
Proof. word. Qed.

Create HintDb ptt discriminated.
Create Rewrite HintDb ptt.
#[export] Hint Rewrite u64_small u32_small i64_small using (word || done) : ptt.
#[export] Hint Resolve u64_range i64_range : ptt.

(** ** Bytes

    [[]byte] is [list byte]; [nil] and the empty slice are distinguished only
    where the code compares with [nil], with an [option]. *)
Abbreviation bytes := (list byte).

#[global] Instance byte_eq_dec : EqDecision byte := Byte.byte_eq_dec.
#[global] Instance byte_countable : Countable byte :=
  inj_countable Byte.to_N Byte.of_N Byte.of_to_N.

Definition byteZ (b : byte) : Z := Z.of_N (Byte.to_N b).
Definition byte_of_Z (z : Z) : byte :=
  default x00 (Byte.of_N (Z.to_N (z mod 256)%Z)).

Lemma byteZ_range b : (0 ≤ byteZ b < 256)%Z.
Proof. unfold byteZ. pose proof (Byte.to_N_bounded b). lia. Qed.

Lemma byteZ_inj b1 b2 : byteZ b1 = byteZ b2 → b1 = b2.
Proof.
  unfold byteZ. intros H%N2Z.inj.
  pose proof (Byte.of_to_N b1) as E1. rewrite H, Byte.of_to_N in E1. congruence.
Qed.

Lemma byteZ_of_Z z : byteZ (byte_of_Z z) = (z mod 256)%Z.
Proof.
  unfold byteZ, byte_of_Z. pose proof (Z.mod_pos_bound z 256 ltac:(lia)) as Hm.
  destruct (Byte.of_N (Z.to_N (z mod 256))) as [b|] eqn:E; simpl.
  - apply Byte.to_of_N in E. rewrite E. lia.
  - apply Byte.of_N_None_iff in E. lia.
Qed.

Lemma byte_of_Z_byteZ b : byte_of_Z (byteZ b) = b.
Proof.
  apply byteZ_inj. rewrite byteZ_of_Z. apply Z.mod_small, byteZ_range.
Qed.

(** [bytes.Compare], the order of goleveldb's default comparer as well. *)
Fixpoint bytes_compare (a b : bytes) : comparison :=
  match a, b with
  | [], [] => Eq
  | [], _ :: _ => Lt
  | _ :: _, [] => Gt
  | x :: a', y :: b' =>
    match Z.compare (byteZ x) (byteZ y) with
    | Eq => bytes_compare a' b'
    | c => c
    end
  end.

Definition bytes_ltb (a b : bytes) : bool :=
  match bytes_compare a b with Lt => true | _ => false end.
Definition bytes_leb (a b : bytes) : bool :=
  match bytes_compare a b with Gt => false | _ => true end.
Definition bytes_lt (a b : bytes) : Prop := bytes_compare a b = Lt.
Definition bytes_le (a b : bytes) : Prop := bytes_compare a b ≠ Gt.

Lemma bytes_compare_refl a : bytes_compare a a = Eq.
Proof. induction a as [|x a IH]; simpl; [done|]. by rewrite Z.compare_refl. Qed.

Lemma bytes_compare_eq a b : bytes_compare a b = Eq ↔ a = b.
Proof.
  split; [|intros ->; apply bytes_compare_refl].
  revert b. induction a as [|x a IH]; intros [|y b]; simpl; try done.
  destruct (Z.compare_spec (byteZ x) (byteZ y)) as [Hxy|?|?]; try done.
  intros ?%IH. by rewrite (byteZ_inj _ _ Hxy); f_equal.
Qed.

Lemma bytes_compare_antisym a b : bytes_compare b a = CompOpp (bytes_compare a b).
Proof.
  revert b. induction a as [|x a IH]; intros [|y b]; simpl; try done.
  rewrite (Z.compare_antisym (byteZ x) (byteZ y)).
  destruct (Z.compare (byteZ x) (byteZ y)); simpl; auto.
Qed.

Lemma bytes_lt_trans a b c : bytes_lt a b → bytes_lt b c → bytes_lt a c.
Proof.
  unfold bytes_lt. revert b c.
  induction a as [|x a IH]; intros [|y b] [|z c]; simpl; try done.
  destruct (Z.compare_spec (byteZ x) (byteZ y)) as [Hxy|Hxy|?],
    (Z.compare_spec (byteZ y) (byteZ z)) as [Hyz|Hyz|?],
    (Z.compare_spec (byteZ x) (byteZ z)) as [Hxz|Hxz|Hxz]; try done; try lia; eauto.
Qed.

Lemma bytes_lt_irrefl a : ¬ bytes_lt a a.
Proof. unfold bytes_lt. by rewrite bytes_compare_refl. Qed.

Lemma bytes_lt_spec a b : bytes_ltb a b = true ↔ bytes_lt a b.
Proof. unfold bytes_ltb, bytes_lt. destruct (bytes_compare a b); naive_solver. Qed.

Lemma bytes_le_spec a b : bytes_leb a b = true ↔ bytes_le a b.
Proof. unfold bytes_leb, bytes_le. destruct (bytes_compare a b); naive_solver. Qed.

Lemma bytes_le_lteq a b : bytes_le a b ↔ bytes_lt a b ∨ a = b.
Proof.
  unfold bytes_le, bytes_lt. rewrite <- bytes_compare_eq.
  destruct (bytes_compare a b); naive_solver.
Qed.

Lemma bytes_lt_not_le a b : bytes_lt a b ↔ ¬ bytes_le b a.
Proof.
  unfold bytes_lt, bytes_le. rewrite (bytes_compare_antisym a b).
  destruct (bytes_compare a b); naive_solver.
Qed.

#[global] Instance bytes_le_dec : RelDecision bytes_le.
Proof. intros a b. refine (cast_if (decide (bytes_leb a b = true))); by rewrite <- bytes_le_spec. Defined.
#[global] Instance bytes_lt_dec : RelDecision bytes_lt.
Proof. intros a b. refine (cast_if (decide (bytes_ltb a b = true))); by rewrite <- bytes_lt_spec. Defined.

#[global] Instance bytes_le_trans : Transitive bytes_le.
Proof.
  intros a b c. rewrite !bytes_le_lteq.
  intros [?| ->] [?| ->]; eauto using bytes_lt_trans.
Qed.
#[global] Instance bytes_le_refl : Reflexive bytes_le.
Proof. intros a. rewrite bytes_le_lteq. by right. Qed.
#[global] Instance bytes_le_total : Total bytes_le.
Proof.
  intros a b. destruct (decide (bytes_le a b)); [by left|right].
  rewrite bytes_le_lteq. left. by apply bytes_lt_not_le.
Qed.
#[global] Instance bytes_le_antisymm : AntiSymm (=) bytes_le.
Proof.
  intros a b. rewrite !bytes_le_lteq. intros [H1|?] [H2|?]; try done.
  exfalso. by eapply bytes_lt_irrefl, bytes_lt_trans.
Qed.

(** A common prefix does not change the order. *)
Lemma bytes_compare_app p a b : bytes_compare (p ++ a) (p ++ b) = bytes_compare a b.
Proof. induction p as [|x p IH]; simpl; [done|]. by rewrite Z.compare_refl. Qed.

Lemma bytes_compare_app_same_len a1 a2 b1 b2 :
  length a1 = length b1 →
  bytes_compare (a1 ++ a2) (b1 ++ b2) =
    match bytes_compare a1 b1 with Eq => bytes_compare a2 b2 | c => c end.
Proof.
  revert b1. induction a1 as [|x a1 IH]; intros [|y b1]; simpl; intros; try done.
  destruct (Z.compare (byteZ x) (byteZ y)); auto.
Qed.

(** The exclusive or of two bytes. *)
Definition byte_xor (a b : byte) : byte := byte_of_Z (Z.lxor (byteZ a) (byteZ b)).

Lemma lxor_range k x y : (0 ≤ k → 0 ≤ x < 2 ^ k → 0 ≤ y < 2 ^ k → 0 ≤ Z.lxor x y < 2 ^ k)%Z.
Proof.
  intros Hk Hx Hy. split; [apply Z.lxor_nonneg; lia|].
  destruct (Z.eq_dec (Z.lxor x y) 0) as [->|Hne]; [lia|].
  assert (0 ≤ Z.lxor x y)%Z by (apply Z.lxor_nonneg; lia).
  apply Z.log2_lt_pow2; [lia|].
  destruct (Z.eq_dec x 0) as [->|Hx0]; [rewrite Z.lxor_0_l in *; apply Z.log2_lt_pow2; lia|].
  destruct (Z.eq_dec y 0) as [->|Hy0]; [rewrite Z.lxor_0_r in *; apply Z.log2_lt_pow2; lia|].
  assert (Z.log2 x < k)%Z by (apply Z.log2_lt_pow2; lia).
  assert (Z.log2 y < k)%Z by (apply Z.log2_lt_pow2; lia).
  pose proof (Z.log2_lxor x y ltac:(lia) ltac:(lia)). lia.
Qed.

Lemma byteZ_xor a b : byteZ (byte_xor a b) = Z.lxor (byteZ a) (byteZ b).
Proof.
  unfold byte_xor. rewrite byteZ_of_Z. apply Z.mod_small.
  apply (lxor_range 8); [lia|apply byteZ_range..].
Qed.

Lemma byte_xor_cancel a b : byte_xor (byte_xor a b) b = a.
Proof.
  apply byteZ_inj. rewrite !byteZ_xor, Z.lxor_assoc, Z.lxor_nilpotent. apply Z.lxor_0_r.
Qed.

(** ** Big-endian integers, [encoding/binary.BigEndian] *)

(** [PutUint64]/[PutUint32]: [n] bytes, most significant first. *)
Fixpoint be_enc (n : nat) (z : Z) : bytes :=
  match n with
  | O => []
  | S n' => byte_of_Z (Z.shiftr z (8 * Z.of_nat n')) :: be_enc n' z
  end.

(** [Uint64]/[Uint32] of exactly the bytes given. *)
Definition be_dec (bs : bytes) : Z := foldl (λ acc b, acc * 256 + byteZ b)%Z 0%Z bs.

(** [binary.BigEndian.Uint64(b)] reads the first eight bytes and panics on a
    shorter slice; [Uint32] likewise with four. *)
Definition be_uint (n : nat) (bs : bytes) : outcome Z :=
  if decide (n ≤ length bs)%nat then Ok (be_dec (take n bs)) else Panic.

Lemma be_enc_length n z : length (be_enc n z) = n.
Proof. induction n; simpl; auto. Qed.

Lemma be_dec_snoc bs b : be_dec (bs ++ [b]) = (be_dec bs * 256 + byteZ b)%Z.
Proof. unfold be_dec. by rewrite foldl_app. Qed.

Lemma be_dec_acc bs acc :
  foldl (λ acc b, acc * 256 + byteZ b)%Z acc bs = (acc * 256 ^ Z.of_nat (length bs) + be_dec bs)%Z.
Proof.
  unfold be_dec. revert acc. induction bs as [|b bs IH]; intros acc; simpl foldl; [simpl; lia|].
  rewrite IH, (IH (0 * 256 + byteZ b)%Z). simpl length.
  rewrite Nat2Z.inj_succ, Z.pow_succ_r by lia. ring.
Qed.

Lemma be_dec_cons b bs :
  be_dec (b :: bs) = (byteZ b * 256 ^ Z.of_nat (length bs) + be_dec bs)%Z.
Proof. unfold be_dec at 1. simpl. by rewrite be_dec_acc. Qed.

Lemma be_dec_range bs : (0 ≤ be_dec bs < 256 ^ Z.of_nat (length bs))%Z.
Proof.
  induction bs as [|b bs IH]; [simpl; done|]. rewrite be_dec_cons.
  pose proof (byteZ_range b). simpl length.
  rewrite Nat2Z.inj_succ, Z.pow_succ_r by lia. nia.
Qed.

Lemma be_dec_enc n z : be_dec (be_enc n z) = (z mod 256 ^ Z.of_nat n)%Z.
Proof.
  induction n as [|n IH]; [by rewrite Z.mod_1_r|].
  simpl be_enc. rewrite be_dec_cons, be_enc_length, IH, byteZ_of_Z.
  rewrite Z.shiftr_div_pow2 by lia.
  replace (2 ^ (8 * Z.of_nat n))%Z with (256 ^ Z.of_nat n)%Z
    by (rewrite Z.pow_mul_r by lia; done).
  rewrite Nat2Z.inj_succ, Z.pow_succ_r by lia.
  pose proof (Z.pow_pos_nonneg 256 (Z.of_nat n) ltac:(lia) ltac:(lia)).
  rewrite (Z.mul_comm 256), Z.rem_mul_r by lia. ring.
Qed.

Lemma be_dec_inj a b : length a = length b → be_dec a = be_dec b → a = b.
Proof.
  revert b. induction a as [|x a IH]; intros [|y b] Hl; try done.
  rewrite !be_dec_cons. simpl in Hl.
  assert (length a = length b) as Hl' by lia. rewrite Hl'. intros E.
  pose proof (be_dec_range a) as Ha. pose proof (be_dec_range b) as Hb.
  rewrite Hl' in Ha.
  assert (byteZ x = byteZ y) as Hxy by nia.
  f_equal; [by apply byteZ_inj|]. apply IH; [done|]. nia.
Qed.

Lemma be_enc_dec bs : be_enc (length bs) (be_dec bs) = bs.
Proof.
  apply be_dec_inj; [by rewrite be_enc_length|].
  rewrite be_dec_enc. apply Z.mod_small, be_dec_range.
Qed.

Lemma bytes_compare_be_dec a b :
  length a = length b → bytes_compare a b = Z.compare (be_dec a) (be_dec b).
Proof.
  revert b. induction a as [|x a IH]; intros [|y b] Hl; try done.
  simpl in Hl. assert (length a = length b) as Hl' by lia. clear Hl.
  simpl. rewrite !be_dec_cons, IH by done.
  pose proof (be_dec_range a) as Ha. pose proof (be_dec_range b) as Hb.
  rewrite <- Hl' in *.
  destruct (Z.compare_spec (byteZ x) (byteZ y)) as [->|?|?]; symmetry.
  - destruct (Z.compare_spec (be_dec a) (be_dec b));
      [apply Z.compare_eq_iff|apply Z.compare_lt_iff|apply Z.compare_gt_iff]; lia.
  - apply Z.compare_lt_iff. nia.
  - apply Z.compare_gt_iff. nia.
Qed.

(** The encoding of unsigned values is order preserving: that is what makes
    time-stamped keys iterate in time order. *)
Lemma bytes_compare_be_enc n x y :
  (0 ≤ x < 256 ^ Z.of_nat n)%Z → (0 ≤ y < 256 ^ Z.of_nat n)%Z →
  bytes_compare (be_enc n x) (be_enc n y) = Z.compare x y.
Proof.
  intros. rewrite bytes_compare_be_dec by (by rewrite !be_enc_length).
  by rewrite !be_dec_enc, !Z.mod_small.
Qed.

Lemma be_uint_enc_app n z rest :
  be_uint n (be_enc n z ++ rest) = Ok (z mod 256 ^ Z.of_nat n)%Z.
Proof.
  unfold be_uint. rewrite decide_True by (rewrite length_app, be_enc_length; lia).
  by rewrite take_app_length', be_dec_enc by (by rewrite be_enc_length).
Qed.

#[export] Hint Rewrite be_enc_length : ptt.

(** ** Slices *)

(** [copy(dst, src)]: overwrites [dst] from its start with as much of [src] as
    fits; the number of bytes copied is [go_copy_n]. *)
Definition go_copy {A} (dst src : list A) : list A :=
  take (length dst) src ++ drop (length src) dst.
Definition go_copy_n {A} (dst src : list A) : nat := min (length dst) (length src).

(** [s[i:]] and [s[i:j]] for a slice whose capacity is its length. *)
Definition slice_from {A} (i : nat) (s : list A) : outcome (list A) :=
  if decide (i ≤ length s)%nat then Ok (drop i s) else Panic.
Definition slice {A} (i j : nat) (s : list A) : outcome (list A) :=
  if decide (i ≤ j ∧ j ≤ length s)%nat then Ok (take (j - i) (drop i s)) else Panic.

Lemma go_copy_length {A} (dst src : list A) : length (go_copy dst src) = length dst.
Proof. unfold go_copy. rewrite length_app, length_take, length_drop. lia. Qed.

Lemma go_copy_full {A} (dst src : list A) : length src = length dst → go_copy dst src = src.
Proof.
  intros H. unfold go_copy. rewrite take_ge, drop_ge by lia. apply app_nil_r.
Qed.

Lemma slice_from_app {A} (a b : list A) n : n = length a → slice_from n (a ++ b) = Ok b.
Proof.
  intros ->. unfold slice_from. rewrite decide_True by (rewrite length_app; lia).
  by rewrite drop_app_length.
Qed.

Lemma slice_app {A} (a b c : list A) i j :
  i = length a → j = (length a + length b)%nat → slice i j (a ++ b ++ c) = Ok b.
Proof.
  intros -> ->. unfold slice. rewrite decide_True by (rewrite !length_app; lia).
  rewrite drop_app_length. by rewrite take_app_length' by lia.
Qed.

(** ** [sort.Search]

    Binary search over [[i, j)]; each round halves the interval, so [j - i]
    rounds are enough. *)
Fixpoint search_loop (fuel : nat) (f : nat → bool) (i j : nat) : nat :=
  match fuel with
  | O => i
  | S k =>
    if decide (i < j)%nat then
      let h := Nat.div2 (i + j) in
      if f h then search_loop k f i h else search_loop k f (S h) j
    else i
  end.
Definition sort_search (n : nat) (f : nat → bool) : nat := search_loop n f 0 n.

Definition search_mono (n : nat) (f : nat → bool) : Prop :=
  ∀ i j, (i ≤ j)%nat → (j < n)%nat → f i = true → f j = true.

Lemma search_loop_spec fuel f n i j :
  search_mono n f → (i ≤ j ≤ n)%nat → (j - i ≤ fuel)%nat →
  (∀ k, k < i → f k = false)%nat → (∀ k, j ≤ k < n → f k = true)%nat →
  (i ≤ search_loop fuel f i j ≤ j)%nat ∧
  (∀ k, k < search_loop fuel f i j → f k = false)%nat ∧
  (∀ k, search_loop fuel f i j ≤ k < n → f k = true)%nat.
Proof.
  intros Hm. revert i j. induction fuel as [|fuel IH]; intros i j Hij Hf Hlo Hhi; simpl.
  { assert (i = j) as -> by lia. done. }
  case_decide as Hlt; [|assert (i = j) as -> by lia; done].
  pose proof (Nat.div2_div (i + j)) as Hd.
  assert (i ≤ Nat.div2 (i + j) < j)%nat as Hh.
  { rewrite Hd. split; [apply Nat.div_le_lower_bound|apply Nat.Div0.div_lt_upper_bound]; lia. }
  destruct (f (Nat.div2 (i + j))) eqn:Ef.
  - destruct (IH i (Nat.div2 (i + j))) as (?&?&?); try lia; try done; [|split_and!; auto; lia].
    intros k ?. apply (Hm (Nat.div2 (i + j))); [lia..|done].
  - destruct (IH (S (Nat.div2 (i + j))) j) as (?&?&?); try lia; try done; [|split_and!; auto; lia].
    intros k ?. destruct (f k) eqn:Ek; [|done].
    rewrite (Hm k (Nat.div2 (i + j))) in Ef; [done|lia..|done].
Qed.

(** [sort.Search(n, f)] is the least index where a monotone [f] holds. *)
Lemma sort_search_spec n f :
  search_mono n f →
  (sort_search n f ≤ n)%nat ∧ (∀ k, k < sort_search n f → f k = false)%nat ∧
  (∀ k, sort_search n f ≤ k < n → f k = true)%nat.
Proof.
  intros Hm. destruct (search_loop_spec n f n 0 n) as (?&?&?); [done|lia..|].
  split_and!; [unfold sort_search; lia|done..].
Qed.

Lemma sort_search_le n f : (sort_search n f ≤ n)%nat.
Proof.
  unfold sort_search.
  assert (∀ fuel i j, (i ≤ j)%nat → (i ≤ search_loop fuel f i j ≤ j)%nat) as H.
  { induction fuel as [|fuel IH]; intros i j Hij; simpl; [lia|]. case_decide as Hlt; [|lia].
    pose proof (Nat.div2_div (i + j)) as Hd.
    assert (i ≤ Nat.div2 (i + j) < j)%nat as Hh.
    { rewrite Hd. split; [apply Nat.div_le_lower_bound|apply Nat.Div0.div_lt_upper_bound]; lia. }
    destruct (f _); [specialize (IH i (Nat.div2 (i + j)))|specialize (IH (S (Nat.div2 (i + j))) j)]; lia. }
  apply H. lia.
Qed.

(** ** Go's [map] iteration, loops and small lists *)

(** The loop [for _, x := range l { s = f s x }]. *)
Abbreviation for_range := (λ f l s, foldl f s l).

(** A unit of proof automation for [outcome]: splits the matches of a
    hypothesis [H : _ = Ok _] produced by monadic code. *)
Ltac ok_inv H :=
  repeat match type of H with
  | context [match ?x with _ => _ end] => destruct x eqn:?; simpl in H; try discriminate H
  end; try injection H as <-; simplify_eq/=.

Lemma filter_ext_elem {A} (P Q : A → Prop) `{!∀ x, Decision (P x), !∀ x, Decision (Q x)} (l : list A) :
  (∀ x, x ∈ l → P x ↔ Q x) → filter P l = filter Q l.
Proof.
  induction l as [|x l IH]; intros Hl; [done|]. rewrite !filter_cons.
  rewrite IH by (intros y ?; apply Hl; by right). pose proof (Hl x ltac:(by left)).
  repeat case_decide; done || tauto.
Qed.

Lemma StronglySorted_filter {A} (R : relation A) (P : A → Prop) `{!∀ x, Decision (P x)} (l : list A) :
  StronglySorted R l → StronglySorted R (filter P l).
Proof.
  induction 1 as [|x l _ IH Hx]; [constructor|]. rewrite filter_cons. case_decide; [|done].
  constructor; [done|]. apply Forall_forall. intros y [_ Hy]%list_elem_of_filter.
  by apply (proj1 (Forall_forall _ _) Hx).
Qed.

Lemma filter_fmap_comm {A B} (f : A → B) (P : B → Prop) `{!∀ x, Decision (P x)} (l : list A) :
  filter P (f <$> l) = f <$> filter (λ x, P (f x)) l.
Proof.
  induction l as [|x l IH]; [done|]. csimpl. rewrite !filter_cons. case_decide; csimpl; by rewrite IH.
Qed.

(** ** A concrete codec

    Any countable type as bytes, one per binary digit; the witnesses use it
    where the code relies on a serialiser of the standard library. *)

Fixpoint pos_bytes (p : positive) : bytes :=
  match p with xH => [] | xO p => x00 :: pos_bytes p | xI p => x01 :: pos_bytes p end.
Fixpoint bytes_pos (b : bytes) : option positive :=
  match b with
  | [] => Some xH
  | x00 :: b => xO <$> bytes_pos b
  | x01 :: b => xI <$> bytes_pos b
  | _ => None
  end.

Definition codec_enc {A} `{Countable A} (a : A) : bytes := pos_bytes (encode a).
Definition codec_dec {A} `{Countable A} (b : bytes) : option A := bytes_pos b ≫= decode.

Lemma codec_dec_enc `{Countable A} (a : A) : codec_dec (codec_enc a) = Some a.
Proof.
  unfold codec_dec, codec_enc.
  assert (∀ p, bytes_pos (pos_bytes p) = Some p) as ->.
  { induction p as [p IH|p IH|]; csimpl; by rewrite ?IH. }
  apply decode_encode.
Qed.

(** ** State and errors

    A method that mutates a state and returns a value or an error; an error
    keeps the changes made so far. *)

Definition stm (S A : Type) : Type := S → S * outcome A.

#[global] Instance stm_ret S : MRet (stm S) := λ A a s, (s, Ok a).
#[global] Instance stm_bind S : MBind (stm S) := λ A B k m s,
  match m s with
  | (s, Ok a) => k a s
  | (s, Err e) => (s, Err e)
  | (s, Panic) => (s, Panic)
  end.

Definition st_get {S} : stm S S := λ s, (s, Ok s).
Definition st_mod {S} (f : S → S) : stm S unit := λ s, (f s, Ok tt).
Definition st_lift {S A} (r : outcome A) : stm S A := λ s, (s, r).

(** [v, err := m()] with the error kept as a value. *)
Definition st_try {S A} (m : stm S A) : stm S (A + GoErr) := λ s,
  match m s with
  | (s, Ok a) => (s, Ok (inl a))
  | (s, Err e) => (s, Ok (inr e))
  | (s, Panic) => (s, Panic)
  end.

(** [defer f()] before [m]: [f] runs when [m] has returned or panicked. *)
Definition st_defer {S A} (f : S → S) (m : stm S A) : stm S A := λ s, let '(s, r) := m s in (f s, r).

Section stm.
Context {S : Type}.

Lemma stm_bind_ok {A B} (m : stm S A) (k : A → stm S B) s s' a : m s = (s', Ok a) → (m ≫= k) s = k a s'.
Proof. intros E. unfold mbind, stm_bind. by rewrite E. Qed.
Lemma stm_bind_err {A B} (m : stm S A) (k : A → stm S B) s s' e : m s = (s', Err e) → (m ≫= k) s = (s', Err e).
Proof. intros E. unfold mbind, stm_bind. by rewrite E. Qed.
Lemma stm_bind_ok2 {A B C} (m : stm S A) (f : A → stm S B) (k : B → stm S C) s s' b :
  (m ≫= f) s = (s', Ok b) → (a ← m; b ← f a; k b) s = k b s'.
Proof. unfold mbind, stm_bind. destruct (m s) as [s1 [a|e|]]; [|done..]. by intros ->. Qed.
Lemma stm_bind_inv {A B} (m : stm S A) (k : A → stm S B) s s' b :
  (m ≫= k) s = (s', Ok b) → ∃ s1 a, m s = (s1, Ok a) ∧ k a s1 = (s', Ok b).
Proof. unfold mbind, stm_bind. destruct (m s) as [s1 [a|e|]]; [by eauto|done..]. Qed.
Lemma st_try_ok {A} (m : stm S A) s s' a : m s = (s', Ok a) → st_try m s = (s', Ok (inl a)).
Proof. intros E. unfold st_try. by rewrite E. Qed.
Lemma st_try_err {A} (m : stm S A) s s' e : m s = (s', Err e) → st_try m s = (s', Ok (inr e)).
Proof. intros E. unfold st_try. by rewrite E. Qed.
Lemma st_defer_eq {A} (f : S → S) (m : stm S A) s s' r : m s = (s', r) → st_defer f m s = (f s', r).
Proof. intros E. unfold st_defer. by rewrite E. Qed.
Lemma st_get_bind {A} (k : S → stm S A) s : (st_get ≫= k) s = k s s.
Proof. done. Qed.
Lemma st_mod_bind {A} (f : S → S) (k : unit → stm S A) s : (st_mod f ≫= k) s = k tt (f s).
Proof. done. Qed.
Lemma st_lift_bind {A B} (a : A) (k : A → stm S B) s : (st_lift (Ok a) ≫= k) s = k a s.
Proof. done. Qed.
Lemma st_ret_bind {A B} (a : A) (k : A → stm S B) s : ((mret a : stm S A) ≫= k) s = k a s.
Proof. done. Qed.
End stm.

Create Rewrite HintDb stm.
#[export] Hint Rewrite @st_get_bind @st_mod_bind @st_lift_bind @st_ret_bind : stm.
