(* ===== verification/GoTime.v ===== *)
(** * Timestamps: [common/types/timestamp.go] and the part of Go's [time]
    package it uses

    [Timestamp] with its comparisons, its twelve-byte encoding and the hour,
    day, month and year intervals that the levels of the merkle tree are built
    on.  The calendar is the proleptic Gregorian calendar in UTC, which is what
    [time.Unix(..).UTC().Date()] and [time.Date] implement. *)

From S2P Require Import Prelude.

Set Default Goal Selector "!".
Local Open Scope Z_scope.

(** ** The calendar *)

Definition secs_per_day : Z := 86400.

(** Days since 1970-01-01 of a civil date. *)
Definition days_from_civil (y m d : Z) : Z :=
  let y' := if m <=? 2 then y - 1 else y in
  let era := y' / 400 in
  let yoe := y' mod 400 in
  let doy := (153 * (if 2 <? m then m - 3 else m + 9) + 2) / 5 + d - 1 in
  era * 146097 + (yoe * 365 + yoe / 4 - yoe / 100 + doy) - 719468.

(** Year, month and day of a day number. *)
Definition civil_from_days (n : Z) : Z * Z * Z :=
  let z := n + 719468 in
  let era := z / 146097 in
  let doe := z mod 146097 in
  let yoe := (doe - doe / 1460 + doe / 36524 - doe / 146096) / 365 in
  let doy := doe - (365 * yoe + yoe / 4 - yoe / 100) in
  let mp := (5 * doy + 2) / 153 in
  let d := doy - (153 * mp + 2) / 5 + 1 in
  let m := if mp <? 10 then mp + 3 else mp - 9 in
  let y := yoe + era * 400 + (if m <=? 2 then 1 else 0) in
  (y, m, d).

(** [time.Date(y, m, 1, 0, ...)] followed by [AddDate(0, 1, 0)]: a month of 13
    is normalised to January of the next year. *)
Definition next_month (y m : Z) : Z * Z := if m =? 12 then (y + 1, 1) else (y, m + 1).

(** ** [Timestamp] *)

Record Timestamp := MkTs { Ts : Z; NanoTs : Z }.

#[global] Instance Timestamp_eq_dec : EqDecision Timestamp.
Proof. solve_decision. Defined.
#[global] Instance Timestamp_countable : Countable Timestamp :=
  inj_countable' (λ t, (Ts t, NanoTs t)) (λ p, MkTs p.1 p.2) (λ t, match t with MkTs _ _ => eq_refl end).

(** The values a Go [Timestamp{Ts int64; NanoTs uint32}] can have. *)
Definition ts_wf (t : Timestamp) : Prop := in_i64 (Ts t) ∧ in_u32 (NanoTs t).

Definition ZeroTimestamp : Timestamp := MkTs 0 0.
Definition MaxTimestamp : Timestamp := MkTs 99999999999999999 999999999.

Definition MILLION : Z := 1000000.
Definition BILLION : Z := 1000000000.
Definition SizeTimestamp : nat := 12.
Definition HRSeconds : Z := 3600.
Definition DaySeconds : Z := 86400.

(** [TimeToTimestamp] for a time given by its Unix seconds and nanoseconds;
    [OffsetSecond] is the package variable it adds. *)
Definition TimeToTimestamp (OffsetSecond unix nsec : Z) : Timestamp :=
  MkTs (i64 (unix + OffsetSecond)) nsec.

Definition ToMilli (t : Timestamp) : Timestamp :=
  MkTs (Ts t) (NanoTs t / MILLION * MILLION).

(** Go's [%] truncates towards zero, as [Z.rem] does. *)
Definition ToHRTimestamp (t : Timestamp) : Timestamp * Timestamp :=
  let ts := Ts t - Z.rem (Ts t) HRSeconds in
  (MkTs ts 0, MkTs (i64 (ts + HRSeconds)) 0).

Definition ToDayTimestamp (t : Timestamp) : Timestamp * Timestamp :=
  let ts := Ts t - Z.rem (Ts t) DaySeconds in
  (MkTs ts 0, MkTs (i64 (ts + DaySeconds)) 0).

Definition ToMonthTimestamp (OffsetSecond : Z) (t : Timestamp) : Timestamp * Timestamp :=
  let '(y, m, _) := civil_from_days (Ts t / secs_per_day) in
  let '(y', m') := next_month y m in
  (TimeToTimestamp OffsetSecond (days_from_civil y m 1 * secs_per_day) 0,
   TimeToTimestamp OffsetSecond (days_from_civil y' m' 1 * secs_per_day) 0).

Definition ToYearTimestamp (OffsetSecond : Z) (t : Timestamp) : Timestamp * Timestamp :=
  let '(y, _, _) := civil_from_days (Ts t / secs_per_day) in
  (TimeToTimestamp OffsetSecond (days_from_civil y 1 1 * secs_per_day) 0,
   TimeToTimestamp OffsetSecond (days_from_civil (y + 1) 1 1 * secs_per_day) 0).

Definition IsEqMilli (t t2 : Timestamp) : bool :=
  (Ts t =? Ts t2) && (NanoTs t / MILLION =? NanoTs t2 / MILLION).

(** [Timestamp.Marshal]: an [int64] and a [uint32], big-endian. *)
Definition ts_marshal (t : Timestamp) : bytes :=
  be_enc 8 (u64 (Ts t)) ++ be_enc 4 (NanoTs t).

Definition NextHourTS (t : Timestamp) : Timestamp := MkTs (i64 (Ts t + 3600)) (NanoTs t).

Definition UnmarshalTimestamp (theBytes : bytes) : outcome Timestamp :=
  b8 ← slice 0 8 theBytes;
  ts ← be_uint 8 b8;
  rest ← slice_from 8 theBytes;
  nanoTs ← be_uint 4 rest;
  if BILLION <=? nanoTs then Err ErrInvalidTimestamp
  else Ok (MkTs (i64 ts) nanoTs).

Definition IsEqual (t t2 : Timestamp) : bool := (Ts t =? Ts t2) && (NanoTs t =? NanoTs t2).

Definition IsLess (t t2 : Timestamp) : bool :=
  if Ts t <? Ts t2 then true
  else if Ts t2 <? Ts t then false
  else if NanoTs t <? NanoTs t2 then true
  else if NanoTs t2 <? NanoTs t then false
  else false.

Definition IsLessEqual (t t2 : Timestamp) : bool :=
  if Ts t <? Ts t2 then true
  else if Ts t2 <? Ts t then false
  else if NanoTs t <? NanoTs t2 then true
  else if NanoTs t2 <? NanoTs t then false
  else true.

Definition MinTimestamp (a b : Timestamp) : Timestamp := if IsLess a b then a else b.

(** ** Order *)

Definition ts_lt (a b : Timestamp) : Prop :=
  Ts a < Ts b ∨ Ts a = Ts b ∧ NanoTs a < NanoTs b.
Definition ts_le (a b : Timestamp) : Prop := ts_lt a b ∨ a = b.

Lemma IsLess_spec a b : IsLess a b = true ↔ ts_lt a b.
Proof.
  unfold IsLess, ts_lt. repeat case_match; lia.
Qed.

Lemma IsLessEqual_spec a b : IsLessEqual a b = true ↔ ts_le a b.
Proof.
  destruct a as [a1 a2], b as [b1 b2]. unfold IsLessEqual, ts_le, ts_lt; simpl.
  repeat case_match; simpl; split; intros H'; try done; try lia;
    try (destruct H' as [?|[= -> ->]]; lia).
  right. f_equal; lia.
Qed.

Lemma IsLessEqual_IsLess a b : IsLessEqual a b = negb (IsLess b a).
Proof. unfold IsLessEqual, IsLess. repeat case_match; simpl; lia. Qed.

Lemma IsEqual_spec a b : IsEqual a b = true ↔ a = b.
Proof.
  destruct a, b. unfold IsEqual; simpl. rewrite andb_true_iff, !Z.eqb_eq.
  split; [intros [-> ->]|intros [= -> ->]]; done.
Qed.

Lemma ts_lt_irrefl a : ¬ ts_lt a a.
Proof. unfold ts_lt. lia. Qed.
Lemma ts_lt_trans a b c : ts_lt a b → ts_lt b c → ts_lt a c.
Proof. unfold ts_lt. lia. Qed.
Lemma ts_lt_trichotomy a b : ts_lt a b ∨ a = b ∨ ts_lt b a.
Proof.
  destruct a as [a1 a2], b as [b1 b2]. unfold ts_lt; simpl.
  destruct (Z.lt_trichotomy a1 b1) as [?|[->|?]]; [tauto| |tauto].
  destruct (Z.lt_trichotomy a2 b2) as [?|[->|?]]; tauto.
Qed.

#[global] Instance ts_lt_dec : RelDecision ts_lt.
Proof. intros a b. refine (cast_if (decide (IsLess a b = true))); by rewrite <- IsLess_spec. Defined.
#[global] Instance ts_le_dec : RelDecision ts_le.
Proof. intros a b. refine (cast_if (decide (IsLessEqual a b = true))); by rewrite <- IsLessEqual_spec. Defined.
#[global] Instance ts_le_refl : Reflexive ts_le.
Proof. by right. Qed.
#[global] Instance ts_le_trans : Transitive ts_le.
Proof. intros a b c [?| ->] [?| ->]; [left; by eapply ts_lt_trans|left; done..|by right]. Qed.
#[global] Instance ts_le_antisymm : AntiSymm (=) ts_le.
Proof.
  intros a b [H1|?] [H2|?]; try done. exfalso. by eapply ts_lt_irrefl, ts_lt_trans.
Qed.
#[global] Instance ts_le_total : Total ts_le.
Proof. intros a b. destruct (ts_lt_trichotomy a b) as [?|[->|?]]; [left|left|right]; by (left + right). Qed.

Lemma ts_lt_not_le a b : ts_lt a b ↔ ¬ ts_le b a.
Proof.
  rewrite <- IsLess_spec, <- IsLessEqual_spec, IsLessEqual_IsLess.
  destruct (IsLess a b); naive_solver.
Qed.

Lemma ts_le_lt_trans a b c : ts_le a b → ts_lt b c → ts_lt a c.
Proof. intros [?| ->] ?; [by eapply ts_lt_trans|done]. Qed.
Lemma ts_lt_le_trans a b c : ts_lt a b → ts_le b c → ts_lt a c.
Proof. intros ? [?| <-]; [by eapply ts_lt_trans|done]. Qed.

#[export] Hint Resolve ts_lt_trans ts_le_lt_trans ts_lt_le_trans : ptt.

(** ** Encoding *)

Lemma ts_marshal_length t : length (ts_marshal t) = SizeTimestamp.
Proof. done. Qed.

(** What [UnmarshalTimestamp] makes of an encoding followed by other bytes. *)
Lemma unmarshal_marshal_app t rest :
  ts_wf t →
  UnmarshalTimestamp (ts_marshal t ++ rest) =
    if BILLION <=? NanoTs t then Err ErrInvalidTimestamp else Ok t.
Proof.
  intros [H1 H2]. unfold UnmarshalTimestamp, ts_marshal.
  rewrite <- app_assoc.
  rewrite (slice_app [] (be_enc 8 (u64 (Ts t))) (be_enc 4 (NanoTs t) ++ rest)) by done. cbn [mbind outcome_bind].
  rewrite <- (app_nil_r (be_enc 8 (u64 (Ts t)))) at 1. rewrite be_uint_enc_app. cbn [mbind outcome_bind].
  rewrite slice_from_app by done. cbn [mbind outcome_bind]. rewrite be_uint_enc_app. cbn [mbind outcome_bind].
  change (256 ^ Z.of_nat 8) with (2 ^ 64). change (256 ^ Z.of_nat 4) with (2 ^ 32).
  rewrite (Z.mod_small (NanoTs t)) by done.
  rewrite (Z.mod_small (u64 (Ts t))) by apply u64_range.
  rewrite i64_u64 by done. by destruct t.
Qed.

(** On timestamps at or after the epoch the encodings compare as the
    timestamps do. *)
Lemma ts_marshal_compare a b :
  ts_wf a → ts_wf b → 0 ≤ Ts a → 0 ≤ Ts b →
  bytes_compare (ts_marshal a) (ts_marshal b) = Lt ↔ ts_lt a b.
Proof.
  intros [Ha1 Ha2] [Hb1 Hb2] Ha Hb. unfold ts_marshal, ts_lt.
  rewrite bytes_compare_app_same_len by done.
  rewrite !u64_small by word.
  rewrite !bytes_compare_be_enc; try (split; [word|]; change (256 ^ Z.of_nat 8) with (2 ^ 64); change (256 ^ Z.of_nat 4) with (2 ^ 32); word).
  destruct (Z.compare_spec (Ts a) (Ts b)); [|split; intros; try done; lia..].
  rewrite Z.compare_lt_iff. lia.
Qed.

Lemma ts_marshal_inj a b : ts_wf a → ts_wf b → ts_marshal a = ts_marshal b → a = b.
Proof.
  intros [Ha1 Ha2] [Hb1 Hb2] E.
  apply app_inj_1 in E as [E1 E2]; [|done].
  apply (f_equal be_dec) in E1, E2. rewrite !be_dec_enc in E1, E2.
  change (256 ^ Z.of_nat 8) with (2 ^ 64) in E1. change (256 ^ Z.of_nat 4) with (2 ^ 32) in E2.
  destruct a, b; simpl in *. f_equal; word.
Qed.

(** ** Hours and days *)

Lemma hr_bracket t :
  ts_wf t → 0 ≤ Ts t → Ts t + HRSeconds < 2 ^ 63 →
  Ts (ToHRTimestamp t).1 ≤ Ts t < Ts (ToHRTimestamp t).2 ∧
  Ts (ToHRTimestamp t).2 = Ts (ToHRTimestamp t).1 + HRSeconds ∧
  Ts (ToHRTimestamp t).1 = HRSeconds * (Ts t / HRSeconds).
Proof.
  intros [Hw _] H0 H1. unfold ToHRTimestamp; simpl. rewrite Z.rem_mod_nonneg by (unfold HRSeconds; lia).
  unfold HRSeconds in *. rewrite i64_small by word. Z.to_euclidean_division_equations; lia.
Qed.

Lemma day_bracket t :
  ts_wf t → 0 ≤ Ts t → Ts t + DaySeconds < 2 ^ 63 →
  Ts (ToDayTimestamp t).1 ≤ Ts t < Ts (ToDayTimestamp t).2 ∧
  Ts (ToDayTimestamp t).2 = Ts (ToDayTimestamp t).1 + DaySeconds ∧
  Ts (ToDayTimestamp t).1 = DaySeconds * (Ts t / DaySeconds).
Proof.
  intros [Hw _] H0 H1. unfold ToDayTimestamp; simpl. rewrite Z.rem_mod_nonneg by (unfold DaySeconds; lia).
  unfold DaySeconds in *. rewrite i64_small by word. Z.to_euclidean_division_equations; lia.
Qed.

(** ** Months and years

    A year of the computation starts on March 1st; [ystart y] is the number of
    days before it, [mstart k] the number of days of such a year before its
    [k]-th month. *)

Definition ystart (y : Z) : Z := 365 * y + y / 4 - y / 100 + y / 400.
Definition mstart (k : Z) : Z := (153 * k + 2) / 5.

Lemma ystart_succ y : ystart y + 365 <= ystart (y + 1) <= ystart y + 366.
Proof. unfold ystart. Z.to_euclidean_division_equations; lia. Qed.

Lemma days_from_civil_early y m d :
  m <= 2 → days_from_civil y m d = ystart (y - 1) + mstart (m + 9) + d - 1 - 719468.
Proof.
  intros Hm. unfold days_from_civil. rewrite (proj2 (Z.leb_le m 2)) by lia.
  rewrite (proj2 (Z.ltb_ge 2 m)) by lia.
  unfold ystart, mstart. Z.to_euclidean_division_equations; lia.
Qed.

Lemma days_from_civil_late y m d :
  2 < m → days_from_civil y m d = ystart y + mstart (m - 3) + d - 1 - 719468.
Proof.
  intros Hm. unfold days_from_civil. rewrite (proj2 (Z.leb_gt m 2)) by lia.
  rewrite (proj2 (Z.ltb_lt 2 m)) by lia.
  unfold ystart, mstart. Z.to_euclidean_division_equations; lia.
Qed.

(** The year of a day within a cycle of 146097 days. *)
Lemma yoe_bounds doe :
  0 <= doe < 146097 →
  let yoe := (doe - doe / 1460 + doe / 36524 - doe / 146096) / 365 in
  0 <= yoe < 400 ∧ 365 * yoe + yoe / 4 - yoe / 100 <= doe < ystart (yoe + 1).
Proof. intros H. cbv zeta. unfold ystart. Z.to_euclidean_division_equations; lia. Qed.

Lemma month_bounds doy :
  0 <= doy <= 365 →
  let mp := (5 * doy + 2) / 153 in
  0 <= mp <= 11 ∧ mstart mp <= doy < mstart (mp + 1).
Proof. intros H. cbv zeta. unfold mstart. Z.to_euclidean_division_equations; lia. Qed.

(** Every day number is the [d]-th day of the [mp]-th month of a March year. *)
Lemma civil_from_days_spec n y m d :
  civil_from_days n = (y, m, d) →
  ∃ Y mp, 0 <= mp <= 11 ∧ 1 <= d ∧ n + 719468 = ystart Y + mstart mp + d - 1 ∧
    n + 719468 < ystart Y + mstart (mp + 1) ∧ n + 719468 < ystart (Y + 1) ∧
    (mp < 10 ∧ m = mp + 3 ∧ y = Y ∨ 10 <= mp ∧ m = mp - 9 ∧ y = Y + 1).
Proof.
  unfold civil_from_days. cbv zeta. set (z := n + 719468). set (doe := z mod 146097).
  set (era := z / 146097).
  assert (z = 146097 * era + doe) as Hz by (apply Z.div_mod; lia).
  pose proof (Z.mod_pos_bound z 146097 ltac:(lia)) as Hdoe. fold doe in Hdoe.
  pose proof (yoe_bounds doe Hdoe) as Hy.
  set (yoe := (doe - doe / 1460 + doe / 36524 - doe / 146096) / 365) in *. cbv zeta in Hy.
  clearbody z doe era yoe.
  set (doy := doe - (365 * yoe + yoe / 4 - yoe / 100)) in *.
  assert (ystart (yoe + era * 400) = 146097 * era + (365 * yoe + yoe / 4 - yoe / 100)) as Es
    by (unfold ystart; Z.to_euclidean_division_equations; lia).
  assert (ystart (yoe + 1 + era * 400) = 146097 * era + ystart (yoe + 1)) as Es1
    by (unfold ystart; Z.to_euclidean_division_equations; lia).
  pose proof (ystart_succ (yoe + era * 400)) as Hs.
  replace (yoe + era * 400 + 1) with (yoe + 1 + era * 400) in Hs by ring.
  pose proof (month_bounds doy ltac:(lia)) as Hm. cbv zeta in Hm.
  set (mp := (5 * doy + 2) / 153) in *. change ((153 * mp + 2) / 5) with (mstart mp).
  clearbody mp. intros [= Hy1 Hm1 Hd1].
  exists (yoe + era * 400), mp.
  replace (yoe + era * 400 + 1) with (yoe + 1 + era * 400) by ring.
  repeat case_match; lia.
Qed.

Lemma mstart_values :
  mstart 0 = 0 ∧ mstart 9 = 275 ∧ mstart 10 = 306 ∧ mstart 11 = 337.
Proof. done. Qed.

Lemma mstart_le k : 0 <= k <= 11 → 0 <= mstart k <= 337.
Proof. unfold mstart. intros. Z.to_euclidean_division_equations; lia. Qed.

Definition month_start (y m : Z) : Z := days_from_civil y m 1.
Definition next_month_start (y m : Z) : Z :=
  let '(y', m') := next_month y m in days_from_civil y' m' 1.

(** A day lies in its month, and its month in its year, which has at most 366
    days. *)
Lemma calendar_bracket n y m d :
  civil_from_days n = (y, m, d) →
  1 <= m <= 12 ∧ days_from_civil y m d = n ∧
  month_start y m <= n < next_month_start y m ∧
  days_from_civil y 1 1 <= month_start y m ∧
  next_month_start y m <= days_from_civil (y + 1) 1 1 ∧
  days_from_civil (y + 1) 1 1 <= days_from_civil y 1 1 + 366.
Proof.
  intros (Y & mp & Hmp & Hd & Hn & Hn1 & Hn2 & Hc)%civil_from_days_spec.
  pose proof (ystart_succ Y). pose proof (ystart_succ (Y - 1)) as Hp.
  replace (Y - 1 + 1) with Y in Hp by ring.
  destruct mstart_values as (H0 & H9 & H10 & H11).
  pose proof (mstart_le mp ltac:(lia)).
  unfold month_start, next_month_start, next_month.
  rewrite !(days_from_civil_early _ 1) by lia.
  change (1 + 9) with 10. rewrite H10.
  replace (y + 1 - 1) with y by ring.
  destruct Hc as [(? & -> & ->)|(? & -> & ->)].
  - rewrite !days_from_civil_late by lia. replace (mp + 3 - 3) with mp by ring.
    destruct (Z.eqb_spec (mp + 3) 12).
    + assert (mp = 9) as -> by lia. rewrite days_from_civil_early by lia.
      change (1 + 9) with 10. change (9 + 1) with 10 in *. replace (Y + 1 - 1) with Y by ring. lia.
    + rewrite days_from_civil_late by lia. replace (mp + 3 + 1 - 3) with (mp + 1) by ring.
      assert (mstart (mp + 1) <= 306) by (unfold mstart; Z.to_euclidean_division_equations; lia). lia.
  - rewrite !(days_from_civil_early _ (mp - 9)) by lia.
    replace (mp - 9 + 9) with mp by ring. replace (Y + 1 - 1) with Y by ring.
    destruct (Z.eqb_spec (mp - 9) 12); [lia|].
    assert (mp = 10 ∨ mp = 11) as [-> | ->] by lia.
    + rewrite days_from_civil_early by lia. replace (Y + 1 - 1) with Y by ring.
      change (10 - 9 + 1 + 9) with 11. change (10 + 1) with 11 in *. lia.
    + rewrite days_from_civil_late by lia. change (11 - 9 + 1 - 3) with 0. lia.
Qed.

Lemma ystart_mono a b : a <= b → ystart a <= ystart b.
Proof. unfold ystart. intros. Z.to_euclidean_division_equations; lia. Qed.

Lemma mstart_mono a b : a <= b → mstart a <= mstart b.
Proof. unfold mstart. intros. Z.to_euclidean_division_equations; lia. Qed.

(** A month of the civil year as a month of a March year. *)
Lemma month_start_march y m :
  1 <= m <= 12 →
  ∃ Y k, 0 <= k <= 11 ∧ 12 * Y + k = 12 * y + m - 3 ∧
    month_start y m = ystart Y + mstart k - 719468 ∧
    next_month_start y m <= ystart Y + (if k =? 11 then 366 else mstart (k + 1)) - 719468 ∧
    next_month_start y m = (if k =? 11 then ystart (Y + 1) else ystart Y + mstart (k + 1)) - 719468.
Proof.
  intros Hm. unfold month_start, next_month_start, next_month.
  destruct (Z.leb_spec m 2).
  - exists (y - 1), (m + 9). pose proof (ystart_succ (y - 1)) as Hs.
    rewrite !(days_from_civil_early _ m) by lia.
    replace (y - 1 + 1) with y in * by ring.
    destruct (Z.eqb_spec m 12); [lia|]. destruct (Z.eqb_spec (m + 9) 11).
    + assert (m = 2) as -> by lia. rewrite days_from_civil_late by lia. change (mstart (2 + 1 - 3)) with 0. lia.
    + rewrite days_from_civil_early by lia. replace (m + 1 + 9) with (m + 9 + 1) by ring. lia.
  - exists y, (m - 3). rewrite !(days_from_civil_late _ m) by lia.
    destruct (Z.eqb_spec (m - 3) 11); [lia|]. destruct (Z.eqb_spec m 12).
    + assert (m = 12) as -> by lia. rewrite days_from_civil_early by lia.
      replace (y + 1 - 1) with y by ring. change (1 + 9) with (12 - 3 + 1). lia.
    + rewrite days_from_civil_late by lia. replace (m + 1 - 3) with (m - 3 + 1) by ring. lia.
Qed.

(** Months do not overlap. *)
Lemma months_disjoint y m y2 m2 :
  1 <= m <= 12 → 1 <= m2 <= 12 → 12 * y + m < 12 * y2 + m2 →
  next_month_start y m <= month_start y2 m2.
Proof.
  intros Hm Hm2 Hlt.
  destruct (month_start_march y m Hm) as (Y & k & Hk & E & _ & _ & ->).
  destruct (month_start_march y2 m2 Hm2) as (Y2 & k2 & Hk2 & E2 & -> & _ & _).
  pose proof (mstart_le k2 ltac:(lia)).
  destruct (Z.eqb_spec k 11).
  - pose proof (ystart_mono (Y + 1) Y2 ltac:(lia)). lia.
  - destruct (decide (Y = Y2)) as [->|].
    + pose proof (mstart_mono (k + 1) k2 ltac:(lia)). lia.
    + pose proof (ystart_mono (Y + 1) Y2 ltac:(lia)). pose proof (ystart_succ Y).
      pose proof (mstart_le (k + 1) ltac:(lia)). lia.
Qed.

(** Hence the month of a day is determined by the interval it lies in. *)
Lemma civil_month_unique n y m y2 m2 d2 :
  1 <= m <= 12 → month_start y m <= n < next_month_start y m →
  civil_from_days n = (y2, m2, d2) → y2 = y ∧ m2 = m.
Proof.
  intros Hm Hn Hc. destruct (calendar_bracket _ _ _ _ Hc) as (Hm2 & _ & Hn2 & _).
  destruct (Z.lt_trichotomy (12 * y + m) (12 * y2 + m2)) as [Hlt|[?|Hlt]]; [|lia|].
  - pose proof (months_disjoint y m y2 m2 Hm Hm2 Hlt). lia.
  - pose proof (months_disjoint y2 m2 y m Hm2 Hm Hlt). lia.
Qed.

Lemma jan1_mono y y2 : y < y2 → days_from_civil (y + 1) 1 1 <= days_from_civil y2 1 1.
Proof.
  intros. rewrite !days_from_civil_early by lia.
  pose proof (ystart_mono (y + 1 - 1) (y2 - 1) ltac:(lia)). lia.
Qed.

Lemma civil_year_unique n y y2 m2 d2 :
  days_from_civil y 1 1 <= n < days_from_civil (y + 1) 1 1 →
  civil_from_days n = (y2, m2, d2) → y2 = y.
Proof.
  intros Hn Hc. destruct (calendar_bracket _ _ _ _ Hc) as (_ & _ & Hn2 & Hs & He & _).
  destruct (Z.lt_trichotomy y y2) as [Hlt|[?|Hlt]]; [|done|].
  - pose proof (jan1_mono y y2 Hlt). lia.
  - pose proof (jan1_mono y2 y Hlt). lia.
Qed.

(** ** The four intervals of a timestamp *)

(** [t] lies in the half-open interval [iv]. *)
Definition ts_in (t : Timestamp) (iv : Timestamp * Timestamp) : Prop :=
  ts_le iv.1 t ∧ ts_lt t iv.2.

#[global] Instance ts_in_dec t iv : Decision (ts_in t iv).
Proof. unfold ts_in. apply _. Defined.

Definition iv_sub (iv iv2 : Timestamp * Timestamp) : Prop :=
  ts_le iv2.1 iv.1 ∧ ts_le iv.2 iv2.2.

(** The timestamps the program works with: from the epoch to [MaxTimestamp]. *)
Definition ts_ok (t : Timestamp) : Prop := ts_wf t ∧ 0 <= Ts t <= Ts MaxTimestamp.

#[global] Instance ts_ok_dec t : Decision (ts_ok t).
Proof. unfold ts_ok, ts_wf, in_i64, in_u32. apply _. Defined.

(** An interval whose ends are whole seconds. *)
Lemma ts_in_secs t a b : 0 <= NanoTs t → ts_in t (MkTs a 0, MkTs b 0) ↔ a <= Ts t < b.
Proof.
  destruct t as [s n]. unfold ts_in, ts_le, ts_lt; simpl. intros Hn. split.
  - intros [[?|[= -> ->]] ?]; lia.
  - intros [? ?]. split; [|lia]. destruct (decide (a = s)) as [->|]; [|lia].
    destruct (decide (n = 0)) as [->|]; [by right|lia].
Qed.

Lemma iv_sub_secs a b a2 b2 :
  a2 <= a → b <= b2 → iv_sub (MkTs a 0, MkTs b 0) (MkTs a2 0, MkTs b2 0).
Proof.
  intros. split; apply IsLessEqual_spec; unfold IsLessEqual; simpl; repeat case_match; lia.
Qed.

Lemma hr_eq t :
  ts_ok t → ToHRTimestamp t = (MkTs (3600 * (Ts t / 3600)) 0, MkTs (3600 * (Ts t / 3600) + 3600) 0).
Proof.
  intros [Hw Ht]. unfold MaxTimestamp in Ht; simpl in Ht.
  destruct (hr_bracket t Hw ltac:(lia) ltac:(unfold HRSeconds; lia)) as (_ & E2 & E1).
  unfold ToHRTimestamp, HRSeconds in *; simpl in *. by rewrite E2, E1.
Qed.

Lemma day_eq t :
  ts_ok t → ToDayTimestamp t = (MkTs (86400 * (Ts t / 86400)) 0, MkTs (86400 * (Ts t / 86400) + 86400) 0).
Proof.
  intros [Hw Ht]. unfold MaxTimestamp in Ht; simpl in Ht.
  destruct (day_bracket t Hw ltac:(lia) ltac:(unfold DaySeconds; lia)) as (_ & E2 & E1).
  unfold ToDayTimestamp, DaySeconds in *; simpl in *. by rewrite E2, E1.
Qed.

Lemma month_eq t y m d :
  ts_ok t → civil_from_days (Ts t / 86400) = (y, m, d) →
  ToMonthTimestamp 0 t = (MkTs (month_start y m * 86400) 0, MkTs (next_month_start y m * 86400) 0).
Proof.
  intros [Hw Ht] Hc. unfold MaxTimestamp in Ht; simpl in Ht.
  pose proof (calendar_bracket _ _ _ _ Hc) as (Hm & _ & Hn & Hs & He & Hy).
  unfold ToMonthTimestamp, secs_per_day. rewrite Hc.
  unfold month_start, next_month_start in *. destruct (next_month y m) as [y' m'].
  unfold TimeToTimestamp. rewrite !Z.add_0_r, !i64_small by word. done.
Qed.

Lemma year_eq t y m d :
  ts_ok t → civil_from_days (Ts t / 86400) = (y, m, d) →
  ToYearTimestamp 0 t = (MkTs (days_from_civil y 1 1 * 86400) 0, MkTs (days_from_civil (y + 1) 1 1 * 86400) 0).
Proof.
  intros [Hw Ht] Hc. unfold MaxTimestamp in Ht; simpl in Ht.
  pose proof (calendar_bracket _ _ _ _ Hc) as (Hm & _ & Hn & Hs & He & Hy).
  unfold ToYearTimestamp, secs_per_day. rewrite Hc.
  unfold TimeToTimestamp. rewrite !Z.add_0_r, !i64_small by word. done.
Qed.

Lemma ts_ok_nano t : ts_ok t → 0 <= NanoTs t.
Proof. intros [[_ H] _]. word. Qed.
#[export] Hint Resolve ts_ok_nano : ptt.

(** The intervals contain the timestamp and are nested. *)
Lemma levels_nested t :
  ts_ok t →
  ts_in t (ToHRTimestamp t) ∧ iv_sub (ToHRTimestamp t) (ToDayTimestamp t) ∧
  iv_sub (ToDayTimestamp t) (ToMonthTimestamp 0 t) ∧
  iv_sub (ToMonthTimestamp 0 t) (ToYearTimestamp 0 t).
Proof.
  intros Hok. destruct (civil_from_days (Ts t / 86400)) as [[y m] d] eqn:Hc.
  pose proof (calendar_bracket _ _ _ _ Hc) as (Hm & _ & Hn & Hs & He & Hy).
  rewrite hr_eq, day_eq, (month_eq t y m d), (year_eq t y m d) by done.
  split_and!; [apply ts_in_secs; [auto with ptt|]|apply iv_sub_secs..];
    try lia; Z.to_euclidean_division_equations; lia.
Qed.

(** Two timestamps have the same interval as soon as one lies in the interval
    of the other: the intervals of a level partition the time line. *)
Lemma levels_partition t t2 :
  ts_ok t → ts_ok t2 →
  (ts_in t2 (ToHRTimestamp t) → ToHRTimestamp t2 = ToHRTimestamp t) ∧
  (ts_in t2 (ToDayTimestamp t) → ToDayTimestamp t2 = ToDayTimestamp t) ∧
  (ts_in t2 (ToMonthTimestamp 0 t) → ToMonthTimestamp 0 t2 = ToMonthTimestamp 0 t) ∧
  (ts_in t2 (ToYearTimestamp 0 t) → ToYearTimestamp 0 t2 = ToYearTimestamp 0 t).
Proof.
  intros Hok Hok2.
  destruct (civil_from_days (Ts t / 86400)) as [[y m] d] eqn:Hc.
  destruct (civil_from_days (Ts t2 / 86400)) as [[y2 m2] d2] eqn:Hc2.
  pose proof (calendar_bracket _ _ _ _ Hc) as (Hm & _).
  rewrite !hr_eq, !day_eq, (month_eq t y m d), (year_eq t y m d),
    (month_eq t2 y2 m2 d2), (year_eq t2 y2 m2 d2) by done.
  rewrite !ts_in_secs by auto with ptt. split_and!; intros Hin.
  - replace (Ts t2 / 3600) with (Ts t / 3600); [done|]. Z.to_euclidean_division_equations; lia.
  - replace (Ts t2 / 86400) with (Ts t / 86400); [done|]. Z.to_euclidean_division_equations; lia.
  - destruct (civil_month_unique (Ts t2 / 86400) y m y2 m2 d2) as [-> ->]; try done.
    Z.to_euclidean_division_equations; lia.
  - rewrite (civil_year_unique (Ts t2 / 86400) y y2 m2 d2); try done.
    Z.to_euclidean_division_equations; lia.
Qed.

(** The timestamps that are stored in keys: not before the epoch. *)
Definition ts_pos (t : Timestamp) : Prop := ts_wf t ∧ 0 <= Ts t.

Lemma ts_ok_pos t : ts_ok t → ts_pos t.
Proof. intros [? [? ?]]. done. Qed.

Lemma ts_secs_pos s : 0 <= s < 2 ^ 63 → ts_pos (MkTs s 0).
Proof. intros ?. unfold ts_pos, ts_wf. simpl. split; [split; word|lia]. Qed.

Lemma ts_marshal_lt a b : ts_pos a → ts_pos b → bytes_lt (ts_marshal a) (ts_marshal b) ↔ ts_lt a b.
Proof. intros [??] [??]. by apply ts_marshal_compare. Qed.

Lemma ts_marshal_le a b : ts_pos a → ts_pos b → bytes_le (ts_marshal a) (ts_marshal b) ↔ ts_le a b.
Proof.
  intros Ha Hb. pose proof (ts_marshal_lt b a Hb Ha) as Hlt. rewrite bytes_lt_not_le, ts_lt_not_le in Hlt.
  destruct (decide (bytes_le (ts_marshal a) (ts_marshal b))), (decide (ts_le a b)); tauto.
Qed.

(** The year of a day after the epoch starts after the epoch. *)
Lemma year_start_pos n y : 0 <= n < days_from_civil (y + 1) 1 1 → 0 <= days_from_civil y 1 1.
Proof.
  intros Hn. assert (days_from_civil 1970 1 1 = 0) as E by done.
  assert (days_from_civil (1970 + 1) 1 1 = 365) as E2 by done.
  destruct (Z.lt_trichotomy y 1970) as [Hy|[->|Hy]]; [|lia|].
  - pose proof (jan1_mono y 1970 Hy). lia.
  - pose proof (jan1_mono 1970 y Hy). lia.
Qed.

Lemma intervals_pos t :
  ts_ok t →
  (ts_pos (ToHRTimestamp t).1 ∧ ts_pos (ToHRTimestamp t).2) ∧
  (ts_pos (ToDayTimestamp t).1 ∧ ts_pos (ToDayTimestamp t).2) ∧
  (ts_pos (ToMonthTimestamp 0 t).1 ∧ ts_pos (ToMonthTimestamp 0 t).2) ∧
  (ts_pos (ToYearTimestamp 0 t).1 ∧ ts_pos (ToYearTimestamp 0 t).2).
Proof.
  intros Hok. pose proof Hok as [_ Hr]. unfold MaxTimestamp in Hr; simpl in Hr.
  destruct (civil_from_days (Ts t / 86400)) as [[y m] d] eqn:Hc.
  pose proof (calendar_bracket _ _ _ _ Hc) as (Hm & _ & Hn & Hs & He & Hy).
  pose proof (year_start_pos (Ts t / 86400) y ltac:(Z.to_euclidean_division_equations; lia)).
  rewrite hr_eq, day_eq, (month_eq t y m d), (year_eq t y m d) by done. cbn [fst snd].
  split_and!; apply ts_secs_pos; Z.to_euclidean_division_equations; lia.
Qed.

(** ** The claims *)

(** For every timestamp from the epoch to [MaxTimestamp], the hour, day,
    month and year the code computes contain it and are nested, and another
    timestamp that falls in one of them has the same one: each level
    partitions the time line. *)
Theorem time_levels_partition t t2 :
  ts_ok t → ts_ok t2 →
  (ts_in t (ToHRTimestamp t) ∧ iv_sub (ToHRTimestamp t) (ToDayTimestamp t) ∧
   iv_sub (ToDayTimestamp t) (ToMonthTimestamp 0 t) ∧
   iv_sub (ToMonthTimestamp 0 t) (ToYearTimestamp 0 t)) ∧
  (ts_in t2 (ToHRTimestamp t) → ToHRTimestamp t2 = ToHRTimestamp t) ∧
  (ts_in t2 (ToDayTimestamp t) → ToDayTimestamp t2 = ToDayTimestamp t) ∧
  (ts_in t2 (ToMonthTimestamp 0 t) → ToMonthTimestamp 0 t2 = ToMonthTimestamp 0 t) ∧
  (ts_in t2 (ToYearTimestamp 0 t) → ToYearTimestamp 0 t2 = ToYearTimestamp 0 t).
Proof. intros. split; [by apply levels_nested|by apply levels_partition]. Qed.

Lemma time_levels_partition_witness : ts_in (MkTs 1551398400 5) (ToHRTimestamp (MkTs 1551398400 5)).
Proof.
  apply (time_levels_partition (MkTs 1551398400 5) (MkTs 1551398400 5));
    apply (bool_decide_unpack _); vm_compute; exact I.
Defined.

(** Decoding what [Timestamp.Marshal] wrote gives the timestamp back, and
    the byte order of two encodings is the order of the timestamps, so that
    database keys sort by time. *)
Theorem timestamp_marshal_order a b rest :
  ts_pos a → ts_pos b → NanoTs a < BILLION →
  UnmarshalTimestamp (ts_marshal a ++ rest) = Ok a ∧
  (bytes_lt (ts_marshal a) (ts_marshal b) ↔ IsLess a b = true) ∧
  (bytes_le (ts_marshal a) (ts_marshal b) ↔ IsLessEqual a b = true).
Proof.
  intros Ha Hb Hn. split_and!.
  - rewrite unmarshal_marshal_app by apply Ha. by rewrite (proj2 (Z.leb_gt _ _)).
  - rewrite IsLess_spec. by apply ts_marshal_lt.
  - rewrite IsLessEqual_spec. by apply ts_marshal_le.
Qed.

Lemma timestamp_marshal_order_witness : bytes_lt (ts_marshal (MkTs 5 999)) (ts_marshal (MkTs 6 0)).
Proof.
  apply (timestamp_marshal_order (MkTs 5 999) (MkTs 6 0) []).
  - repeat split; simpl; lia.
  - repeat split; simpl; lia.
  - simpl. unfold BILLION. lia.
  - reflexivity.
Defined.

(** With an [OffsetSecond] other than zero (the API can set it) the month
    of a timestamp need not contain it, so the levels no longer nest. *)
Theorem offset_breaks_month :
  let t := MkTs 1551398405 0 in
  ts_ok t ∧ ¬ ts_in t (ToMonthTimestamp 10 t) ∧ ts_in t (ToMonthTimestamp 0 t).
Proof.
  split_and!.
  - apply (bool_decide_unpack _). vm_compute. exact I.
  - intros [H _]. vm_compute in H. destruct H as [[H|[H _]]|H]; discriminate H.
  - apply (bool_decide_unpack _). vm_compute. exact I.
Qed.
