(* ===== verification/CommonTypes.v ===== *)
(** * Basic types: [common/*.go], [common/types/{ptt_id,types,bool,salt,utils}.go]

    Byte helpers, identifiers and their text encodings, the status lattice of
    entities, objects and oplogs, and the compact boolean arrays of block
    information.  [base58] and [crypto] are third-party packages and therefore
    classes with laws. *)

From S2P Require Import Prelude.

Set Default Goal Selector "!".

(** ** [common]: concatenation, integer helpers *)

(** [Concat]: sums the lengths, allocates, then copies slice after slice; a
    [nil] slice is [None] and skipped. *)
Definition Concat_len (slices : list (option bytes)) : nat :=
  foldl (λ n s, match s with None => n | Some s => n + length s end) 0 slices.
Definition Concat (slices : list (option bytes)) : bytes :=
  (foldl (λ '(tmp, i) s,
     match s with
     | None => (tmp, i)
     | Some s => (take i tmp ++ go_copy (drop i tmp) s, i + go_copy_n (drop i tmp) s)
     end) (replicate (Concat_len slices) x00, 0) slices).1.

Definition Uint64Minus (a b : Z) : Z := if (a <? b)%Z then 0%Z else (a - b)%Z.
Definition MinInt (a b : Z) : Z := if (a <? b)%Z then a else b.
Definition MaxInt (a b : Z) : Z := if (b <? a)%Z then a else b.
Definition MaxUint64 (a b : Z) : Z := if (b <? a)%Z then a else b.

(** [Bzero]: the loop writes zero at the head of ever shorter suffixes. *)
Fixpoint Bzero (buf : bytes) : bytes :=
  match buf with [] => [] | _ :: rest => x00 :: Bzero rest end.

Definition CloneBytes (b : bytes) : bytes := go_copy (replicate (length b) x00) b.

(** [Shuffle] with the permutation [rand.Perm] drew. *)
Definition Shuffle {A} (perm : list nat) (dflt : A) (src : list A) : list A :=
  foldl (λ dest '(i, v), <[v := nth i src dflt]> dest)
    (replicate (length src) dflt) (zip (seq 0 (length perm)) perm).

Definition opt_concat (slices : list (option bytes)) : bytes := concat (default [] <$> slices).

Lemma Concat_len_acc slices n :
  foldl (λ n s, match s with None => n | Some s => n + length s end) n slices
  = n + length (opt_concat slices).
Proof.
  revert n. induction slices as [|[s|] slices IH]; intros n; unfold opt_concat in *; csimpl.
  - lia.
  - rewrite IH, length_app. lia.
  - apply IH.
Qed.

Lemma Concat_copy_loop slices done rest :
  length rest = length (opt_concat slices) →
  (foldl (λ '(tmp, i) s,
     match s with
     | None => (tmp, i)
     | Some s => (take i tmp ++ go_copy (drop i tmp) s, i + go_copy_n (drop i tmp) s)
     end) (done ++ rest, length done) slices).1 = done ++ opt_concat slices.
Proof.
  revert done rest. induction slices as [|[s|] slices IH]; intros done rest Hl;
    unfold opt_concat in *; csimpl in *.
  - by apply nil_length_inv in Hl as ->.
  - rewrite length_app in Hl.
    rewrite take_app_length, drop_app_length.
    replace (go_copy rest s) with (s ++ drop (length s) rest)
      by (unfold go_copy; rewrite take_ge by lia; done).
    replace (length done + go_copy_n rest s) with (length (done ++ s))
      by (unfold go_copy_n; rewrite length_app; lia).
    rewrite app_assoc, IH by (rewrite length_drop; lia). by rewrite <- app_assoc.
  - by apply IH.
Qed.

(** The copying loop computes the concatenation. *)
Lemma Concat_spec slices : Concat slices = opt_concat slices.
Proof.
  unfold Concat, Concat_len. rewrite Concat_len_acc. simpl.
  apply (Concat_copy_loop slices [] (replicate _ x00)). by rewrite length_replicate.
Qed.

Lemma Concat_Some l : Concat (Some <$> l) = concat l.
Proof.
  rewrite Concat_spec. unfold opt_concat. f_equal.
  induction l as [|x l IH]; simpl; [done|]. f_equal. apply IH.
Qed.

Lemma CloneBytes_id b : CloneBytes b = b.
Proof. unfold CloneBytes. apply go_copy_full. by rewrite length_replicate. Qed.

Lemma Bzero_spec buf : Bzero buf = replicate (length buf) x00.
Proof. induction buf; simpl; f_equal; auto. Qed.

(** ** Sizes *)

Definition AddressLength : nat := 20.
Definition SizePostfix : nat := AddressLength.
Definition SizePttID : nat := AddressLength + SizePostfix.
Definition SizeSalt : nat := 32.
Definition OffsetHash : nat := 12.

(** [PttID] is an array of forty bytes; a [*PttID] that may be [nil] is an
    [option]. *)
Abbreviation PttID := bytes (only parsing).
Definition pttid_wf (p : PttID) : Prop := length p = SizePttID.
Definition EmptyID : PttID := replicate SizePttID x00.
Definition MaxID : PttID := replicate SizePttID xff.

(** ** Third-party encodings and cryptography

    [github.com/shengdoushi/base58]: a byte string is encoded over an alphabet
    without the double quote, no shorter than the input, and decoding an
    encoding gives the input back. *)
Definition quote : byte := x22.

Class Base58 := {
  b58_encode : bytes → bytes;
  b58_decode : bytes → outcome bytes;
  b58_decode_encode b : b58_decode (b58_encode b) = Ok b;
  b58_no_quote b : quote ∉ b58_encode b;
  b58_length b : length b ≤ length (b58_encode b);
}.

(** go-ethereum's [crypto]: the address of a public key has twenty bytes, a
    Keccak-256 digest thirty-two. *)
Class Crypto := {
  PubKey : Type;
  PubkeyToAddress : PubKey → bytes;
  Keccak256 : bytes → bytes;
  PubkeyToAddress_length k : length (PubkeyToAddress k) = AddressLength;
  Keccak256_length b : length (Keccak256 b) = 32;
}.

(** ** [PttID] *)

(** A call of [RandRead] on a slice of [n] bytes: what it wrote, the count it
    reports and its error. *)
Record RandResult := MkRand { rr_bytes : bytes; rr_n : nat; rr_err : option GoErr }.

Section PttID.
Context `{Base58, Crypto}.
Variable RandRead : nat → RandResult.

(** [NewPttID]: a short read without an error returns [nil, nil]. *)
Definition NewPttID : outcome (option PttID) :=
  let r := RandRead SizePttID in
  match rr_err r with
  | Some e => Err e
  | None => if decide (rr_n r = SizePttID) then Ok (Some (rr_bytes r)) else Ok None
  end.

Definition NewPttIDWithPostifx (postfix : bytes) : outcome (option PttID) :=
  if decide (length postfix ≤ SizePttID) then
    let lenRand := SizePttID - length postfix in
    let r := RandRead lenRand in
    match rr_err r with
    | Some e => Err e
    | None =>
      if decide (rr_n r = lenRand) then
        Ok (Some (rr_bytes r ++ go_copy (replicate (length postfix) x00) postfix))
      else Ok None
    end
  else Panic.

Definition NewPttIDFromAddrPostfix (addr postfix : bytes) : outcome PttID :=
  let p := EmptyID in
  if decide (go_copy_n p addr ≠ AddressLength) then Err ErrInvalidID else
  let p := go_copy p addr in
  let tl := drop AddressLength p in
  if decide (go_copy_n tl postfix ≠ AddressLength) then Err ErrInvalidID else
  Ok (take AddressLength p ++ go_copy tl postfix).

Definition NewPttIDFromPubkeyPostfix (key : PubKey) (postfix : bytes) : outcome PttID :=
  NewPttIDFromAddrPostfix (PubkeyToAddress key) postfix.

Definition NewPttIDFromKey (key : PubKey) : outcome PttID :=
  let p := EmptyID in
  let addr := PubkeyToAddress key in
  if decide (go_copy_n p addr ≠ AddressLength) then Err ErrInvalidID else
  let p := go_copy p addr in
  let r := RandRead (SizePttID - AddressLength) in
  match rr_err r with
  | Some _ => Err ErrInvalidID
  | None => if decide (rr_n r ≠ AddressLength) then Err ErrInvalidID
            else Ok (take AddressLength p ++ rr_bytes r)
  end.

Definition NewPttIDWithPubkeyAndRefID (key : PubKey) (refID : PttID) : outcome PttID :=
  NewPttIDFromPubkeyPostfix key (take AddressLength refID).

(** [MarshalJSON]/[UnmarshalJSON]; [UnmarshalJSON] returns the new value of
    the receiver. *)
Definition id_MarshalJSON (p : bytes) : bytes :=
  Concat [Some [quote]; Some (b58_encode p); Some [quote]].

Definition id_UnmarshalJSON (size : nat) (p b : bytes) : outcome bytes :=
  if decide (length b < 2) then Err ErrInvalidID else
  let b := if decide (head b = Some quote) then take (length b - 2) (drop 1 b) else b in
  decoded ← b58_decode b;
  if decide (length decoded ≠ size) then Err ErrInvalidID
  else Ok (go_copy p decoded).

(** [MarshalText] strips the quotes of [MarshalJSON]. *)
Definition id_MarshalText (p : bytes) : bytes :=
  let pBytes := id_MarshalJSON p in take (length pBytes - 2) (drop 1 pBytes).

Definition UnmarshalTextPttID (b : bytes) (isAllowNil : bool) : outcome (option PttID) :=
  if decide (length b = 0) then if isAllowNil then Ok None else Err ErrInvalidID
  else p ← id_UnmarshalJSON SizePttID EmptyID b; Ok (Some p).

(** [Unmarshal] of the raw bytes. *)
Definition id_Unmarshal (p theIDStr : bytes) : outcome PttID :=
  if decide (length theIDStr ≠ SizePttID) then Err ErrInvalidID else Ok (go_copy p theIDStr).

Definition IsSamePubKey (p : PttID) (key : PubKey) : bool :=
  bool_decide (take AddressLength p = PubkeyToAddress key).
Definition IsSameKeyWithPttID (p : PttID) (p2 : option PttID) : bool :=
  match p2 with
  | None => false
  | Some p2 => bool_decide (take AddressLength p = take AddressLength p2)
  end.
Definition IsSameKeyWithNodeID (p : PttID) (n : option bytes) : bool :=
  match n with
  | None => false
  | Some n => bool_decide (take AddressLength p = take AddressLength n)
  end.
Definition id_Clone (p : PttID) : PttID := go_copy EmptyID p.

(** [Salt] shares the text encoding; only the size differs. *)
Definition salt_MarshalJSON := id_MarshalJSON.
Definition salt_UnmarshalJSON := id_UnmarshalJSON SizeSalt.

(** [Hash], [Addr] and [HashToAddr] of [utils.go]. *)
Definition HashToAddr (theBytes : bytes) : outcome bytes :=
  slice OffsetHash (OffsetHash + AddressLength) theBytes.
Definition Addr (theBytes : bytes) : bytes :=
  take AddressLength (drop OffsetHash (Keccak256 theBytes)).
Definition Hash := Addr.

Lemma id_MarshalJSON_eq p : id_MarshalJSON p = quote :: b58_encode p ++ [quote].
Proof.
  unfold id_MarshalJSON. change [Some [quote]; Some (b58_encode p); Some [quote]]
    with (Some <$> [[quote]; b58_encode p; [quote]]).
  by rewrite Concat_Some.
Qed.

Lemma strip_quotes (e : bytes) : take (length (quote :: e ++ [quote]) - 2) (drop 1 (quote :: e ++ [quote])) = e.
Proof. simpl. rewrite length_app; simpl. apply take_app_length'. lia. Qed.

Lemma id_MarshalText_eq p : id_MarshalText p = b58_encode p.
Proof. unfold id_MarshalText. rewrite id_MarshalJSON_eq. apply strip_quotes. Qed.

(** Decoding what [MarshalJSON] or [MarshalText] wrote restores the bytes. *)
Lemma id_json_roundtrip size p q :
  length p = size → length q = size → id_UnmarshalJSON size q (id_MarshalJSON p) = Ok p.
Proof.
  intros Hp Hq. rewrite id_MarshalJSON_eq. unfold id_UnmarshalJSON.
  rewrite decide_False by (simpl; rewrite length_app; simpl; lia).
  rewrite (decide_True (P := head (quote :: b58_encode p ++ [quote]) = Some quote)) by done.
  rewrite strip_quotes, b58_decode_encode. simpl.
  rewrite decide_False by auto. f_equal. apply go_copy_full. lia.
Qed.

Lemma id_text_roundtrip size p q :
  2 ≤ size → length p = size → length q = size → id_UnmarshalJSON size q (id_MarshalText p) = Ok p.
Proof.
  intros Hs Hp Hq. rewrite id_MarshalText_eq. unfold id_UnmarshalJSON.
  pose proof (b58_length p). rewrite decide_False by lia.
  rewrite decide_False.
  - rewrite b58_decode_encode. simpl. rewrite decide_False by auto. f_equal. apply go_copy_full. lia.
  - intros Hh. apply (b58_no_quote p). destruct (b58_encode p); simplify_eq/=. by left.
Qed.

Lemma NewPttIDFromAddrPostfix_spec addr postfix :
  length addr = AddressLength →
  NewPttIDFromAddrPostfix addr postfix =
    if decide (length postfix < AddressLength) then Err ErrInvalidID
    else Ok (addr ++ take AddressLength postfix).
Proof.
  intros Ha. unfold NewPttIDFromAddrPostfix, go_copy_n. 
  rewrite decide_False by (rewrite Ha; intros Hx; by apply Hx).
  assert (go_copy EmptyID addr = addr ++ replicate AddressLength x00) as ->.
  { unfold go_copy. rewrite take_ge by (rewrite Ha; unfold EmptyID, SizePttID; rewrite length_replicate; lia).
    by rewrite Ha. }
  rewrite drop_app_length', take_app_length', length_replicate by (by rewrite Ha).
  repeat case_decide; try (unfold AddressLength in *; lia); [done|].
  f_equal. f_equal. unfold go_copy. rewrite length_replicate, drop_ge; [apply app_nil_r|].
  rewrite length_replicate. lia.
Qed.

(** An identifier built from a key is recognised as that key's. *)
Lemma NewPttIDFromPubkey_same key postfix p :
  NewPttIDFromPubkeyPostfix key postfix = Ok p → pttid_wf p ∧ IsSamePubKey p key = true.
Proof.
  unfold NewPttIDFromPubkeyPostfix. rewrite NewPttIDFromAddrPostfix_spec by apply PubkeyToAddress_length.
  case_decide as Hd; [done|]. intros [= <-]. unfold pttid_wf, IsSamePubKey.
  split.
  - rewrite length_app, length_take, PubkeyToAddress_length. unfold SizePttID, SizePostfix. lia.
  - apply bool_decide_eq_true. apply take_app_length'. by rewrite PubkeyToAddress_length.
Qed.

End PttID.

(** ** Status, [types.go] *)

Inductive Status :=
  | StatusInvalid | StatusInit | StatusInternalSync | StatusInternalPending
  | StatusPending | StatusSync | StatusToBeSynced | StatusAlive | StatusFailed
  | StatusInternalDeleted | StatusInternalRevoke | StatusInternalTransfer
  | StatusInternalMigrate | StatusInternalTerminal
  | StatusPendingDeleted | StatusPendingRevoke | StatusPendingTransfer
  | StatusPendingMigrate | StatusPendingTerminal
  | StatusDeleted | StatusRevoked | StatusTransferred | StatusMigrated | StatusTerminal.

#[global] Instance Status_eq_dec : EqDecision Status.
Proof. solve_decision. Defined.

(** The [iota] value: statuses are compared as integers. *)
Definition Status_num (s : Status) : Z :=
  match s with
  | StatusInvalid => 0 | StatusInit => 1 | StatusInternalSync => 2 | StatusInternalPending => 3
  | StatusPending => 4 | StatusSync => 5 | StatusToBeSynced => 6 | StatusAlive => 7 | StatusFailed => 8
  | StatusInternalDeleted => 9 | StatusInternalRevoke => 10 | StatusInternalTransfer => 11
  | StatusInternalMigrate => 12 | StatusInternalTerminal => 13
  | StatusPendingDeleted => 14 | StatusPendingRevoke => 15 | StatusPendingTransfer => 16
  | StatusPendingMigrate => 17 | StatusPendingTerminal => 18
  | StatusDeleted => 19 | StatusRevoked => 20 | StatusTransferred => 21
  | StatusMigrated => 22 | StatusTerminal => 23
  end.

Definition StatusToDeleteStatus (status internalPendingStatus pendingStatus aliveStatus : Status) : Status :=
  match status with
  | StatusInternalPending => internalPendingStatus
  | StatusPending => pendingStatus
  | StatusAlive => aliveStatus
  | _ => status
  end.

Inductive StatusClass :=
  | StatusClassInvalid | StatusClassInternalPendingAlive | StatusClassPendingAlive
  | StatusClassAlive | StatusClassFailed | StatusClassInternalDelete | StatusClassPendingDelete
  | StatusClassInternalTerminal | StatusClassPendingTerminal | StatusClassDeleted | StatusClassTerminal.

#[global] Instance StatusClass_eq_dec : EqDecision StatusClass.
Proof. solve_decision. Defined.

Definition StatusToStatusClass (status : Status) : StatusClass :=
  match status with
  | StatusInvalid => StatusClassInvalid
  | StatusInit | StatusInternalSync | StatusInternalPending => StatusClassInternalPendingAlive
  | StatusPending | StatusSync => StatusClassPendingAlive
  | StatusToBeSynced | StatusAlive => StatusClassAlive
  | StatusFailed => StatusClassFailed
  | StatusInternalDeleted | StatusInternalRevoke | StatusInternalTransfer => StatusClassInternalDelete
  | StatusInternalMigrate | StatusInternalTerminal => StatusClassInternalTerminal
  | StatusPendingDeleted | StatusPendingRevoke | StatusPendingTransfer => StatusClassPendingDelete
  | StatusPendingMigrate | StatusPendingTerminal => StatusClassPendingTerminal
  | StatusDeleted | StatusRevoked | StatusTransferred => StatusClassDeleted
  | StatusMigrated | StatusTerminal => StatusClassTerminal
  end.

Lemma Status_num_inj s s2 : Status_num s = Status_num s2 → s = s2.
Proof. destruct s, s2; done. Qed.

(** ** Booleans, [bool.go] *)

Definition bool_MarshalJSON (b : bool) : bytes := if b then [x31] else [x30].
Definition bool_UnmarshalJSON (theByte : bytes) : outcome bool :=
  match theByte with
  | [c] => Ok (bool_decide (byteZ c = 49%Z))
  | _ => Err ErrNotBool
  end.

Definition BoolDoubleArray := list (list bool).

(** One round of the inner loop of [MarshalJSON]: [out[idx] = ...; idx++]. *)
Definition bda_put (st : outcome (bytes * nat)) (b : bool) : outcome (bytes * nat) :=
  '(out, idx) ← st;
  if decide (idx < length out) then Ok (<[idx := if b then x31 else x30]> out, S idx) else Panic.

(** [BoolDoubleArray.MarshalJSON]; [None] is the [nil] slice. *)
Definition bda_MarshalJSON (bary2 : BoolDoubleArray) : outcome (option bytes) :=
  let n := length bary2 in
  if decide (n = 0) then Ok None else
  let m := length (default [] (head bary2)) in
  if decide (m = 0) then Ok None else
  let out := <[0 := byte_of_Z (Z.of_nat m + 48)]> (replicate (m * n + 1) x00) in
  st ← foldl (foldl bda_put) (Ok (out, 1)) bary2;
  Ok (Some st.1).

(** Reading [m] booleans from the head of the remaining bytes. *)
Fixpoint bda_row (m : nat) (pBytes : bytes) : outcome (list bool * bytes) :=
  match m with
  | O => Ok ([], pBytes)
  | S m' =>
    match pBytes with
    | [] => Panic
    | c :: rest =>
      '(bs, rest) ← bda_row m' rest;
      Ok (negb (bool_decide (byteZ c = 48%Z)) :: bs, rest)
    end
  end.
Fixpoint bda_rows (n m : nat) (pBytes : bytes) : outcome BoolDoubleArray :=
  match n with
  | O => Ok []
  | S n' =>
    '(row, rest) ← bda_row m pBytes;
    rows ← bda_rows n' m rest;
    Ok (row :: rows)
  end.

(** [BoolDoubleArray.UnmarshalJSON]; [None] leaves the receiver unchanged.
    The division by [m] comes before the test [m == 0]. *)
Definition bda_UnmarshalJSON (theBytes : bytes) : outcome (option BoolDoubleArray) :=
  match theBytes with
  | [] => Err ErrNotBoolDAry
  | c :: pBytes =>
    let m := (byteZ c - 48)%Z in
    if (m <? 0)%Z then Err ErrNotBoolDAry else
    if (10 <? m)%Z then Err ErrNotBoolDAry else
    if (m =? 0)%Z then Panic else
    let n := length pBytes / Z.to_nat m in
    if decide (n = 0) then Ok None else
    rows ← bda_rows n (Z.to_nat m) pBytes;
    Ok (Some rows)
  end.

Definition bda_bits (l : list bool) : bytes := (λ b : bool, if b then x31 else x30) <$> l.

Lemma bda_put_loop l done rest :
  length l ≤ length rest →
  foldl bda_put (Ok (done ++ rest, length done)) l =
    Ok (done ++ bda_bits l ++ drop (length l) rest, length done + length l).
Proof.
  revert done rest. induction l as [|b l IH]; intros done rest Hl; simpl.
  { by rewrite Nat.add_0_r. }
  destruct rest as [|r rest]; simpl in Hl; [lia|].
  rewrite decide_True by (rewrite length_app; simpl; lia).
  assert (<[length done := (if b then x31 else x30)]> (done ++ r :: rest) =
    (done ++ [if b then x31 else x30]) ++ rest) as ->.
  { rewrite insert_app_r_alt by lia. rewrite Nat.sub_diag. simpl. by rewrite <- app_assoc. }
  replace (S (length done)) with (length (done ++ [if b then x31 else x30])) by (rewrite length_app; simpl; lia).
  rewrite IH by lia. rewrite length_app, <- app_assoc; simpl. do 2 f_equal. lia.
Qed.

Lemma bda_put_rows rows done rest :
  length (concat rows) ≤ length rest →
  foldl (foldl bda_put) (Ok (done ++ rest, length done)) rows =
    Ok (done ++ bda_bits (concat rows) ++ drop (length (concat rows)) rest,
        length done + length (concat rows)).
Proof.
  revert done rest. induction rows as [|r rows IH]; intros done rest Hl; simpl in *.
  { by rewrite Nat.add_0_r. }
  rewrite length_app in *. rewrite bda_put_loop by lia.
  rewrite (app_assoc done).
  replace (length done + length r) with (length (done ++ bda_bits r))
    by (rewrite length_app; unfold bda_bits; rewrite length_fmap; done).
  rewrite IH by (rewrite length_drop; lia).
  rewrite length_app. unfold bda_bits. rewrite fmap_app, length_fmap, drop_drop, <- !app_assoc.
  do 2 f_equal. lia.
Qed.

(** The encoding of a rectangular array. *)
Lemma bda_MarshalJSON_rect rows m :
  rows ≠ [] → (0 < m) → Forall (λ r, length r = m) rows →
  bda_MarshalJSON rows = Ok (Some (byte_of_Z (Z.of_nat m + 48) :: bda_bits (concat rows))).
Proof.
  intros Hne Hm Hr. unfold bda_MarshalJSON.
  rewrite decide_False by (by destruct rows).
  assert (length (default [] (head rows)) = m) as ->.
  { destruct rows; [done|]. by inversion Hr. }
  rewrite decide_False by lia.
  assert (length (concat rows) = m * length rows) as Hlen.
  { clear Hne. induction Hr; simpl; [lia|]. rewrite length_app. lia. }
  replace (m * length rows + 1) with (S (length (concat rows))) by lia. simpl.
  pose proof (bda_put_rows rows [byte_of_Z (Z.of_nat m + 48)] (replicate (length (concat rows)) x00)) as Hp.
  simpl in Hp. rewrite Hp by (by rewrite length_replicate). clear Hp.
  simpl. rewrite drop_ge by (rewrite length_replicate; lia). by rewrite app_nil_r.
Qed.

Lemma bda_row_bits row rest :
  bda_row (length row) (bda_bits row ++ rest) = Ok (row, rest).
Proof.
  induction row as [|b row IH]; simpl; [done|]. fold (bda_bits row). rewrite IH. simpl. by destruct b.
Qed.

Lemma bda_rows_bits rows m :
  Forall (λ r, length r = m) rows → bda_rows (length rows) m (bda_bits (concat rows)) = Ok rows.
Proof.
  induction 1 as [|r rows Hr _ IH]; simpl; [done|].
  unfold bda_bits in *. rewrite fmap_app. fold (bda_bits r). rewrite <- Hr, bda_row_bits. simpl.
  rewrite Hr, IH. done.
Qed.

(** Decoding restores a rectangular array of one to ten columns. *)
Lemma bda_roundtrip_lemma rows m :
  rows ≠ [] → 0 < m ≤ 10 → Forall (λ r, length r = m) rows →
  (b ← bda_MarshalJSON rows; bda_UnmarshalJSON (default [] b)) = Ok (Some rows).
Proof.
  intros Hne Hm Hr. rewrite (bda_MarshalJSON_rect rows m) by (done || lia). simpl.
  rewrite byteZ_of_Z, Z.mod_small by lia.
  replace (Z.of_nat m + 48 - 48)%Z with (Z.of_nat m) by lia.
  rewrite (proj2 (Z.ltb_ge _ 0)), (proj2 (Z.ltb_ge 10 _)), (proj2 (Z.eqb_neq _ 0)), Nat2Z.id by lia.
  assert (length (bda_bits (concat rows)) = length rows * m) as ->.
  { unfold bda_bits. rewrite length_fmap. clear Hne. induction Hr; simpl; [lia|]. rewrite length_app. lia. }
  rewrite Nat.div_mul by lia. rewrite decide_False by (by destruct rows).
  by rewrite bda_rows_bits.
Qed.

(** ** A concrete encoding for the [Base58] interface

    Two hexadecimal digits per byte: used where a statement over the interface
    is evaluated. *)
Definition hex_digits : bytes :=
  [x30; x31; x32; x33; x34; x35; x36; x37; x38; x39; x61; x62; x63; x64; x65; x66].
Definition hex_digit (z : Z) : byte := nth (Z.to_nat z) hex_digits x30.
Definition hex_value (b : byte) : option Z :=
  let z := byteZ b in
  if (48 <=? z)%Z && (z <=? 57)%Z then Some (z - 48)%Z
  else if (97 <=? z)%Z && (z <=? 102)%Z then Some (z - 87)%Z else None.
Definition hex_encode (b : bytes) : bytes :=
  b ≫= λ c, [hex_digit (byteZ c / 16); hex_digit (byteZ c mod 16)].
Fixpoint hex_decode (b : bytes) : outcome bytes :=
  match b with
  | [] => Ok []
  | h :: l :: rest =>
    match hex_value h, hex_value l with
    | Some x, Some y => r ← hex_decode rest; Ok (byte_of_Z (16 * x + y) :: r)
    | _, _ => Err ErrDecode
    end
  | _ => Err ErrDecode
  end.

Lemma hex_byte_ok c :
  hex_value (hex_digit (byteZ c / 16)) = Some (byteZ c / 16)%Z ∧
  hex_value (hex_digit (byteZ c mod 16)) = Some (byteZ c mod 16)%Z ∧
  quote ≠ hex_digit (byteZ c / 16) ∧ quote ≠ hex_digit (byteZ c mod 16).
Proof. by destruct c. Qed.

#[global, program] Instance hex_base58 : Base58 := {|
  b58_encode := hex_encode; b58_decode := hex_decode |}.
Next Obligation.
  intros b. induction b as [|c b IH]; [done|]. unfold hex_encode in *. cbn -[hex_value hex_digit].
  destruct (hex_byte_ok c) as (-> & -> & _). rewrite IH. simpl.
  rewrite <- Z.div_mod by lia. by rewrite byte_of_Z_byteZ.
Qed.
Next Obligation.
  intros b. induction b as [|c b IH]; unfold hex_encode in *; simpl; [apply not_elem_of_nil|].
  destruct (hex_byte_ok c) as (_ & _ & ? & ?). rewrite !not_elem_of_cons. done.
Qed.
Next Obligation.
  intros b. induction b as [|c b IH]; [done|]. change (hex_encode (c :: b)) with
    ([hex_digit (byteZ c / 16); hex_digit (byteZ c mod 16)] ++ hex_encode b).
  rewrite length_app. simpl in *. lia.
Qed.

(** ** A concrete hash, for the witnesses: the first 32 bytes, padded. *)

Definition toy_hash (n : nat) (b : bytes) : bytes := take n (b ++ replicate n x00).
Lemma toy_hash_length n b : length (toy_hash n b) = n.
Proof. unfold toy_hash. rewrite length_take, length_app, length_replicate. lia. Qed.

#[global] Instance toy_crypto : Crypto := {|
  PubKey := bytes;
  PubkeyToAddress := toy_hash AddressLength;
  Keccak256 b := toy_hash 32 (replicate OffsetHash x00 ++ b);
  PubkeyToAddress_length := toy_hash_length AddressLength;
  Keccak256_length b := toy_hash_length 32 _ |}.

(** ** Claims *)

(** An identifier made from a public key has forty bytes, belongs to that
    key, and reading back what [MarshalJSON] or [MarshalText] wrote of it,
    into whatever identifier, gives it again. *)
Theorem id_roundtrip `{Base58, Crypto} key postfix p q :
  NewPttIDFromPubkeyPostfix key postfix = Ok p → pttid_wf q →
  pttid_wf p ∧ IsSamePubKey p key = true ∧
  id_UnmarshalJSON SizePttID q (id_MarshalJSON p) = Ok p ∧
  id_UnmarshalJSON SizePttID q (id_MarshalText p) = Ok p.
Proof.
  intros E Hq. destruct (NewPttIDFromPubkey_same key postfix p E) as [Hp Hs].
  split; [done|]. split; [done|]. split; [by apply id_json_roundtrip|].
  apply id_text_roundtrip; [|done..]. unfold SizePttID, AddressLength. lia.
Qed.

Lemma id_roundtrip_witness :
  ∃ p, NewPttIDFromPubkeyPostfix [x07] (replicate 20 x03) = Ok p ∧
    id_UnmarshalJSON SizePttID EmptyID (id_MarshalJSON p) = Ok p.
Proof.
  eexists. split; [vm_compute; reflexivity|].
  eapply (id_roundtrip (H0 := toy_crypto) [x07] (replicate 20 x03)); vm_compute; reflexivity.
Defined.

(** A rectangular array of one to ten columns is read back from its JSON
    form; a form that announces no columns makes [UnmarshalJSON] divide by
    zero. *)
Theorem bda_roundtrip rows m rest :
  rows ≠ [] → 0 < m ≤ 10 → Forall (λ r, length r = m) rows →
  (b ← bda_MarshalJSON rows; bda_UnmarshalJSON (default [] b)) = Ok (Some rows) ∧
  bda_UnmarshalJSON (x30 :: rest) = Panic.
Proof. intros Hne Hm Hr. split; [by eapply bda_roundtrip_lemma|done]. Qed.

Lemma bda_roundtrip_witness :
  (b ← bda_MarshalJSON [[true; false]; [false; false]]; bda_UnmarshalJSON (default [] b)) =
    Ok (Some [[true; false]; [false; false]]).
Proof. apply (bda_roundtrip _ 2 []); [done|lia|by repeat constructor]. Defined.
