(* ===== verification/BitVec.v ===== *)
(** * Bit vectors, [common/types/bit_vector.go]

    A vector of 64-bit words; the abstract view is the set of positions whose
    bit is one. *)

From S2P Require Import Prelude.

Set Default Goal Selector "!".
Local Open Scope Z_scope.

Abbreviation BitVector := (list Z).

(** Every word is a [uint64]. *)
Definition bv_wf (b : BitVector) : Prop := Forall in_u64 b.

(** [NewBitVector(L)] allocates [1+((L-1)>>6)] words, the subtraction in
    [uint64]: for [L = 0] that is more than can be allocated. *)
Definition NewBitVector (L : Z) : outcome BitVector :=
  if L =? 0 then Panic
  else Ok (replicate (Z.to_nat (1 + Z.shiftr (u64 (L - 1)) 6)) 0).

Definition bv_word (b : BitVector) (N : Z) : option Z := b !! Z.to_nat (Z.shiftr N 6).
Definition bv_mask (N : Z) : Z := Z.shiftl 1 (Z.land N 63).

(** [b[N>>6] |= 1 << (N & 63)] *)
Definition bv_Set (b : BitVector) (N : Z) : outcome BitVector :=
  w ← or_panic (bv_word b N);
  Ok (<[Z.to_nat (Z.shiftr N 6) := Z.lor w (bv_mask N)]> b).

(** The test compares the masked word with [1]. *)
Definition SetWithIsNew (b : BitVector) (N : Z) : outcome (BitVector * bool) :=
  w ← or_panic (bv_word b N);
  if Z.land w (bv_mask N) =? 1 then Ok (b, false)
  else b' ← bv_Set b N; Ok (b', true).

Definition bv_Get (b : BitVector) (N : Z) : outcome Z :=
  w ← or_panic (bv_word b N);
  Ok (Z.land (Z.shiftr w (Z.land N 63)) 1).

Definition bv_Clear (b : BitVector) (N : Z) : outcome BitVector :=
  w ← or_panic (bv_word b N);
  Ok (<[Z.to_nat (Z.shiftr N 6) := Z.ldiff w (bv_mask N)]> b).

(** The word of [PopCount]'s loop, in wrapping 64-bit arithmetic. *)
Definition popcount_word (word : Z) : Z :=
  let word := u64 (word - Z.land (Z.shiftr word 1) 0x5555555555555555) in
  let word := u64 (Z.land word 0x3333333333333333 + Z.land (Z.shiftr word 2) 0x3333333333333333) in
  let word := Z.land (u64 (word + Z.shiftr word 4)) 0x0F0F0F0F0F0F0F0F in
  let word := u64 (word + Z.shiftr word 8) in
  let word := u64 (word + Z.shiftr word 16) in
  let word := u64 (word + Z.shiftr word 32) in
  Z.land word 255.
Definition PopCount (b : BitVector) : Z := foldl (λ total word, u64 (total + popcount_word word)) 0 b.

Definition bv_Marshal (b : BitVector) : bytes := b ≫= be_enc 8.

(** The decoding loop: eight bytes per word. *)
Fixpoint bv_read (n : nat) (pByte : bytes) : outcome BitVector :=
  match n with
  | O => Ok []
  | S n' =>
    w ← be_uint 8 pByte;
    rest ← slice_from 8 pByte;
    ws ← bv_read n' rest;
    Ok (w :: ws)
  end.
Definition UnmarshalBitVector (theBytes : bytes) : outcome BitVector :=
  let lenBytes := length theBytes in
  if decide ((lenBytes mod 8)%nat ≠ 0%nat) then Err ErrInvalidBitVector
  else bv_read (lenBytes / 8)%nat theBytes.

(** ** The abstract view *)

(** Position [N] is set. *)
Definition bv_test (b : BitVector) (N : Z) : bool :=
  match bv_word b N with Some w => Z.testbit w (N mod 64) | None => false end.

Definition in_bounds (b : BitVector) (N : Z) : Prop :=
  0 ≤ N ∧ (Z.to_nat (N / 64) < length b)%nat.

Lemma shiftr6 N : Z.shiftr N 6 = N / 64.
Proof. by rewrite Z.shiftr_div_pow2. Qed.

Lemma land63 N : Z.land N 63 = N mod 64.
Proof. change 63 with (Z.ones 6). by rewrite Z.land_ones. Qed.

Lemma mask_testbit N i : 0 ≤ i → Z.testbit (bv_mask N) i = (i =? N mod 64).
Proof.
  intros. unfold bv_mask. rewrite land63. pose proof (Z.mod_pos_bound N 64 ltac:(lia)).
  rewrite Z.shiftl_1_l, Z.pow2_bits_eqb by lia. apply Z.eqb_sym.
Qed.

Lemma in_bounds_word b N : in_bounds b N → ∃ w, bv_word b N = Some w.
Proof.
  intros [? Hl]. unfold bv_word. rewrite shiftr6.
  by apply lookup_lt_is_Some_2 in Hl as [w ?]; exists w.
Qed.

Lemma not_in_bounds_word b N : 0 ≤ N → ¬ in_bounds b N → bv_word b N = None.
Proof.
  intros ? Hn. unfold bv_word. rewrite shiftr6. apply lookup_ge_None.
  unfold in_bounds in Hn. lia.
Qed.

(** Replacing the word of [N] changes the bits of that word only. *)
Lemma bv_test_insert b N w' M :
  in_bounds b N → 0 ≤ M →
  bv_test (<[Z.to_nat (Z.shiftr N 6) := w']> b) M =
    if decide (M / 64 = N / 64) then Z.testbit w' (M mod 64) else bv_test b M.
Proof.
  intros [HN Hl] HM. unfold bv_test, bv_word. rewrite !shiftr6.
  case_decide as Hd.
  - rewrite Hd, list_lookup_insert_eq by done. done.
  - rewrite list_lookup_insert_ne; [done|].
    intros E. apply Hd. apply Z2Nat.inj; [apply Z.div_pos; lia..|done].
Qed.

Lemma same_pos M N : M / 64 = N / 64 → M mod 64 = N mod 64 → M = N.
Proof. intros. rewrite (Z.div_mod M 64), (Z.div_mod N 64) by lia. lia. Qed.

(** [Set] makes exactly position [N] one, [Clear] makes it zero, [Get] reads
    it. *)
Lemma bv_Set_spec b N :
  in_bounds b N →
  ∃ b', bv_Set b N = Ok b' ∧ length b' = length b ∧
    ∀ M, 0 ≤ M → bv_test b' M = bool_decide (M = N) || bv_test b M.
Proof.
  intros Hb. destruct (in_bounds_word b N Hb) as [w Hw]. unfold bv_Set. rewrite Hw. simpl.
  eexists. split; [done|]. split; [apply length_insert|]. intros M HM.
  rewrite bv_test_insert by done. case_decide as Hd.
  - rewrite Z.lor_spec, mask_testbit by (apply Z.mod_pos_bound; lia).
    unfold bv_test, bv_word in *. rewrite shiftr6 in *. rewrite Hd, Hw.
    destruct (Z.eqb_spec (M mod 64) (N mod 64)) as [E|E].
    + rewrite (same_pos M N), bool_decide_eq_true_2 by done. apply orb_true_r.
    + rewrite bool_decide_eq_false_2 by (by intros ->). by rewrite orb_false_r.
  - rewrite bool_decide_eq_false_2 by (by intros ->). done.
Qed.

Lemma bv_Clear_spec b N :
  in_bounds b N →
  ∃ b', bv_Clear b N = Ok b' ∧ length b' = length b ∧
    ∀ M, 0 ≤ M → bv_test b' M = negb (bool_decide (M = N)) && bv_test b M.
Proof.
  intros Hb. destruct (in_bounds_word b N Hb) as [w Hw]. unfold bv_Clear. rewrite Hw. simpl.
  eexists. split; [done|]. split; [apply length_insert|]. intros M HM.
  rewrite bv_test_insert by done. case_decide as Hd.
  - rewrite Z.ldiff_spec, mask_testbit by (apply Z.mod_pos_bound; lia).
    unfold bv_test, bv_word in *. rewrite shiftr6 in *. rewrite Hd, Hw.
    destruct (Z.eqb_spec (M mod 64) (N mod 64)) as [E|E].
    + rewrite (same_pos M N), bool_decide_eq_true_2 by done. apply andb_false_r.
    + rewrite bool_decide_eq_false_2 by (by intros ->). apply andb_true_r.
  - rewrite bool_decide_eq_false_2 by (by intros ->). done.
Qed.

Lemma bv_Get_spec b N : in_bounds b N → bv_Get b N = Ok (Z.b2z (bv_test b N)).
Proof.
  intros Hb. destruct (in_bounds_word b N Hb) as [w Hw]. unfold bv_Get, bv_test. rewrite Hw. simpl.
  rewrite land63. f_equal. rewrite Z.testbit_spec' by (apply Z.mod_pos_bound; lia).
  rewrite Z.shiftr_div_pow2 by (apply Z.mod_pos_bound; lia).
  change 1 with (Z.ones 1) at 1. by rewrite Z.land_ones.
Qed.

(** ** Population count

    The reference counts the bits one by one; the loop body works on eight
    bytes in parallel.  Both are compared through the little-endian bytes of
    the word. *)

Fixpoint count_bits (n : nat) (w : Z) : Z :=
  match n with O => 0 | S n' => w mod 2 + count_bits n' (w / 2) end.

Fixpoint le_split (n : nat) (w : Z) : list Z :=
  match n with O => [] | S n' => (w mod 256) :: le_split n' (w / 256) end.
Fixpoint le_val (cs : list Z) : Z :=
  match cs with [] => 0 | c :: cs' => c + 256 * le_val cs' end.

Abbreviation all_byte := (Forall (λ c, 0 ≤ c < 256)).

Lemma le_val_split n w : le_val (le_split n w) = w mod 256 ^ Z.of_nat n.
Proof.
  revert w. induction n as [|n IH]; intros w; [by rewrite Z.mod_1_r|]. simpl le_split. simpl le_val.
  rewrite IH, Nat2Z.inj_succ, Z.pow_succ_r, Z.rem_mul_r by lia. done.
Qed.

Lemma le_split_byte n w : all_byte (le_split n w).
Proof.
  revert w. induction n; intros w; simpl; constructor; [apply Z.mod_pos_bound; lia|done].
Qed.

Lemma le_val_nonneg cs : all_byte cs → 0 ≤ le_val cs.
Proof. induction 1; simpl; lia. Qed.

(** Bits below and above position eight. *)
Lemma testbit_split x y i :
  0 ≤ x < 256 → 0 ≤ i →
  Z.testbit (x + 256 * y) i = if i <? 8 then Z.testbit x i else Z.testbit y (i - 8).
Proof.
  intros Hx Hi. destruct (Z.ltb_spec i 8).
  - rewrite <- (Z.mod_pow2_bits_low _ 8) by lia. f_equal. change (2 ^ 8) with 256.
    rewrite Z.mul_comm, Z.mod_add by lia. by apply Z.mod_small.
  - replace i with (i - 8 + 8) at 1 by lia. rewrite <- Z.div_pow2_bits by lia. f_equal.
    change (2 ^ 8) with 256. Z.to_euclidean_division_equations; lia.
Qed.

Lemma land_byte x m : 0 ≤ x < 256 → 0 ≤ Z.land x m < 256.
Proof.
  intros Hx. assert (Z.land x m = Z.land x m mod 256) as ->; [|apply Z.mod_pos_bound; lia].
  change 256 with (2 ^ 8). rewrite <- Z.land_ones by lia.
  rewrite <- Z.land_assoc, (Z.land_comm m), Z.land_assoc, Z.land_ones by lia.
  by rewrite (Z.mod_small x).
Qed.

(** Splitting a conjunction of bit patterns at bit eight. *)
Lemma land_split x y m M :
  0 ≤ x < 256 → 0 ≤ m < 256 →
  Z.land (x + 256 * y) (m + 256 * M) = Z.land x m + 256 * Z.land y M.
Proof.
  intros Hx Hm. apply Z.bits_inj'. intros i Hi.
  rewrite Z.land_spec, !testbit_split by (try apply land_byte; lia).
  destruct (i <? 8); by rewrite Z.land_spec.
Qed.

(** A shift by [s] followed by a mask that clears the bits shifted in from the
    next byte acts on every byte separately. *)
Lemma land_shift_bytes s m cs :
  0 ≤ s ≤ 8 → 0 ≤ m < 2 ^ (8 - s) → all_byte cs →
  Z.land (Z.shiftr (le_val cs) s) (le_val (replicate (length cs) m)) =
    le_val ((λ c, Z.land (Z.shiftr c s) m) <$> cs).
Proof.
  intros Hs Hm Hcs.
  assert (2 ^ (8 - s) * 2 ^ s = 256) as Hp.
  { rewrite <- Z.pow_add_r by lia. by replace (8 - s + s) with 8 by lia. }
  pose proof (Z.pow_pos_nonneg 2 s ltac:(lia) ltac:(lia)) as Hs2.
  pose proof (Z.pow_pos_nonneg 2 (8 - s) ltac:(lia) ltac:(lia)) as Hs3.
  induction Hcs as [|c cs Hc Hcs IH]; [apply Z.land_0_r|]. csimpl.
  rewrite <- IH. set (w := le_val cs). clearbody w.
  assert (Z.shiftr (c + 256 * w) s =
    (Z.shiftr c s + 2 ^ (8 - s) * (w mod 2 ^ s)) + 256 * Z.shiftr w s) as ->.
  { rewrite !Z.shiftr_div_pow2 by lia. rewrite <- Hp at 1.
    replace (c + 2 ^ (8 - s) * 2 ^ s * w) with (c + 2 ^ (8 - s) * w * 2 ^ s) by ring.
    rewrite Z.div_add by lia. rewrite (Z.div_mod w (2 ^ s)) at 1 by lia. rewrite <- Hp. ring. }
  assert (0 ≤ Z.shiftr c s < 2 ^ (8 - s)) as Hc'.
  { rewrite Z.shiftr_div_pow2 by lia. split; [apply Z.div_pos; lia|].
    apply Z.div_lt_upper_bound; lia. }
  pose proof (Z.mod_pos_bound w (2 ^ s) Hs2) as Hw.
  rewrite land_split by nia. f_equal. apply Z.bits_inj'. intros i Hi. rewrite !Z.land_spec.
  destruct (Z.ltb_spec i (8 - s)).
  - f_equal. rewrite Z.mul_comm, <- (Z.mod_pow2_bits_low _ (8 - s)) by lia.
    rewrite Z.mod_add, Z.mod_small by lia. done.
  - assert (Z.testbit m i = false) as ->; [|by rewrite !andb_false_r].
    rewrite <- (Z.mod_small m (2 ^ (8 - s))) by lia. apply Z.mod_pow2_bits_high. lia.
Qed.

Lemma le_val_map2 (op : Z → Z → Z) (f g : Z → Z) cs :
  (∀ a b c d, op a b + 256 * op c d = op (a + 256 * c) (b + 256 * d)) → op 0 0 = 0 →
  op (le_val (f <$> cs)) (le_val (g <$> cs)) = le_val ((λ c, op (f c) (g c)) <$> cs).
Proof.
  intros Hop H0. induction cs as [|c cs IH]; csimpl; [done|]. by rewrite <- IH, <- Hop.
Qed.

(** The three masked steps on one byte. *)
Definition pc1 (c : Z) : Z := c - Z.land (Z.shiftr c 1) 0x55.
Definition pc2 (c : Z) : Z := Z.land c 0x33 + Z.land (Z.shiftr c 2) 0x33.
Definition pc3 (c : Z) : Z := Z.land (c + Z.shiftr c 4) 0x0F.

Lemma byte_check (P : Z → bool) :
  forallb P (seqZ 0 256) = true → ∀ c, 0 ≤ c < 256 → P c = true.
Proof.
  intros Hf c Hc. rewrite forallb_forall in Hf. apply Hf.
  apply list_elem_of_In, elem_of_seqZ. lia.
Qed.

(** On one byte the steps count its bits without leaving the byte. *)
Lemma pc_byte c :
  0 ≤ c < 256 →
  0 ≤ pc1 c < 256 ∧ 0 ≤ pc2 (pc1 c) ≤ 0x44 ∧ pc2 (pc1 c) mod 16 ≤ 4 ∧
  pc3 (pc2 (pc1 c)) = count_bits 8 c ∧ 0 ≤ count_bits 8 c ≤ 8.
Proof.
  intros Hc.
  pose proof (byte_check (λ c, (0 <=? pc1 c) && (pc1 c <? 256) && (0 <=? pc2 (pc1 c)) &&
    (pc2 (pc1 c) <=? 0x44) && (pc2 (pc1 c) mod 16 <=? 4) && (pc3 (pc2 (pc1 c)) =? count_bits 8 c) &&
    (0 <=? count_bits 8 c) && (count_bits 8 c <=? 8)) ltac:(vm_compute; reflexivity) c Hc) as H.
  cbv beta in H. lia.
Qed.

(** The third step adds the nibbles; no sum of nibbles carries. *)
Lemma pc3_bytes cs :
  Forall (λ c, 0 ≤ c ≤ 0x44 ∧ c mod 16 ≤ 4) cs →
  Z.land (le_val cs + Z.shiftr (le_val cs) 4) (le_val (replicate (length cs) 0x0F)) =
    le_val (pc3 <$> cs).
Proof.
  assert (∀ l, Forall (λ c, 0 ≤ c ≤ 0x44 ∧ c mod 16 ≤ 4) l → le_val l mod 16 ≤ 4) as Hmod.
  { intros l [|c l' Hc _]; simpl; [done|]. Z.to_euclidean_division_equations; lia. }
  induction 1 as [|c cs Hc Hcs IH]; [apply Z.land_0_r|]. csimpl. rewrite <- IH.
  specialize (Hmod cs Hcs). set (w := le_val cs) in *. clearbody w.
  assert (c + 256 * w + Z.shiftr (c + 256 * w) 4 =
    (c + Z.shiftr c 4 + 16 * (w mod 16)) + 256 * (w + Z.shiftr w 4)) as ->.
  { rewrite !Z.shiftr_div_pow2 by lia. change (2 ^ 4) with 16. Z.to_euclidean_division_equations; lia. }
  pose proof (Z.mod_pos_bound w 16 ltac:(lia)).
  assert (0 ≤ Z.shiftr c 4 ≤ 4) as H4.
  { rewrite Z.shiftr_div_pow2 by lia. change (2 ^ 4) with 16. Z.to_euclidean_division_equations; lia. }
  rewrite land_split by lia. f_equal. unfold pc3. change 0x0F with (Z.ones 4).
  rewrite !Z.land_ones by lia. change (2 ^ 4) with 16. rewrite Z.mul_comm. by apply Z.mod_add.
Qed.

Fixpoint sumZ (l : list Z) : Z := match l with [] => 0 | x :: l' => x + sumZ l' end.

Lemma count_bits_app a b w : count_bits (a + b) w = count_bits a w + count_bits b (w / 2 ^ Z.of_nat a).
Proof.
  revert w. induction a as [|a IH]; intros w; [simpl; by rewrite Z.div_1_r|].
  cbn [count_bits Nat.add]. rewrite IH, Nat2Z.inj_succ, Z.pow_succ_r, Z.div_div by lia. ring.
Qed.

Lemma count_bits_mod n w : count_bits n (w mod 2 ^ Z.of_nat n) = count_bits n w.
Proof.
  revert w. induction n as [|n IH]; intros w; [done|]. cbn [count_bits].
  rewrite Nat2Z.inj_succ, Z.pow_succ_r by lia.
  pose proof (Z.pow_pos_nonneg 2 (Z.of_nat n) ltac:(lia) ltac:(lia)).
  rewrite Z.rem_mul_r by lia. rewrite <- (IH (w / 2)).
  f_equal.
  - rewrite Z.mul_comm, Z.mod_add, Z.mod_mod by lia. done.
  - f_equal. rewrite Z.mul_comm, Z.div_add by lia.
    rewrite (Z.div_small (w mod 2)) by (apply Z.mod_pos_bound; lia). lia.
Qed.

Lemma count_bits_bytes n w : count_bits (8 * n) w = sumZ (count_bits 8 <$> le_split n w).
Proof.
  revert w. induction n as [|n IH]; intros w; [done|].
  replace (8 * S n)%nat with (8 + 8 * n)%nat by lia. rewrite count_bits_app.
  cbn [le_split fmap list_fmap sumZ]. change (2 ^ Z.of_nat 8) with 256.
  rewrite IH, <- (count_bits_mod 8 w). done.
Qed.

(** Folding the eight byte counts: the low byte of the last word is their sum. *)
Lemma popcount_fold a b c d e f g h :
  Forall (λ x, 0 ≤ x ≤ 8) [a; b; c; d; e; f; g; h] →
  let word := le_val [a; b; c; d; e; f; g; h] in
  let word := u64 (word + Z.shiftr word 8) in
  let word := u64 (word + Z.shiftr word 16) in
  let word := u64 (word + Z.shiftr word 32) in
  Z.land word 255 = sumZ [a; b; c; d; e; f; g; h].
Proof.
  rewrite !Forall_cons. intros (Ha & Hb & Hc & Hd & He & Hf & Hg & Hh & _).
  cbn [le_val sumZ]. cbv zeta. rewrite !Z.shiftr_div_pow2 by lia.
  change 255 with (Z.ones 8). rewrite Z.land_ones by lia.
  set (w0 := a + _).
  assert (u64 (w0 + w0 / 2 ^ 8) = (a + b) + 256 * ((b + c) + 256 * ((c + d) + 256 * ((d + e) +
    256 * ((e + f) + 256 * ((f + g) + 256 * ((g + h) + 256 * h))))))) as ->.
  { assert (w0 / 2 ^ 8 = b + 256 * (c + 256 * (d + 256 * (e + 256 * (f + 256 * (g + 256 * h)))))) as ->.
    { subst w0. change (2 ^ 8) with 256. rewrite (Z.mul_comm 256), Z.div_add, Z.div_small by lia. lia. }
    rewrite u64_small; [subst w0; ring|]. subst w0. word. }
  set (w1 := a + b + _).
  assert (u64 (w1 + w1 / 2 ^ 16) = (a + b + c + d) + 256 * ((b + c + d + e) + 256 * ((c + d + e + f) + 256 *
    ((d + e + f + g) + 256 * ((e + f + g + h) + 256 * ((f + g + h) + 256 * ((g + h) + 256 * h))))))) as ->.
  { assert (w1 / 2 ^ 16 = (c + d) + 256 * ((d + e) + 256 * ((e + f) + 256 * ((f + g) + 256 * ((g + h) + 256 * h))))) as ->.
    { subst w1. symmetry. apply Z.div_unique with ((a + b) + 256 * (b + c)); lia. }
    rewrite u64_small; [subst w1; ring|]. subst w1. word. }
  set (w2 := a + b + c + d + _).
  assert (w2 / 2 ^ 32 = (e + f + g + h) + 256 * ((f + g + h) + 256 * ((g + h) + 256 * h))) as ->.
  { subst w2. symmetry. apply Z.div_unique with ((a + b + c + d) + 256 * ((b + c + d + e) + 256 * ((c + d + e + f) + 256 *
    (d + e + f + g)))); lia. }
  rewrite u64_small by (subst w2; word). subst w2. change (2 ^ 8) with 256.
  symmetry. apply Z.mod_unique with ((b + c + d + e) + 256 * ((c + d + e + f) + 256 *
    ((d + e + f + g) + 256 * ((e + f + g + h) + 256 * ((f + g + h) + 256 * ((g + h) + 256 * h))))) +
    ((f + g + h) + 256 * ((g + h) + 256 * h))); lia.
Qed.

Lemma le_val_bound cs k :
  Forall (λ c, 0 ≤ c ≤ k) cs → 0 ≤ k < 256 → 0 ≤ le_val cs < 256 ^ Z.of_nat (length cs).
Proof.
  intros H Hk. induction H as [|c cs Hc _ IH]; [done|]. simpl length. simpl le_val.
  rewrite Nat2Z.inj_succ, Z.pow_succ_r by lia. lia.
Qed.

(** A pointwise property of bytes, mapped. *)
Lemma all_byte_map (f : Z → Z) (Q : Z → Prop) cs :
  (∀ c, 0 ≤ c < 256 → Q (f c)) → all_byte cs → Forall Q (f <$> cs).
Proof. intros Hf Hcs. apply Forall_fmap. eapply Forall_impl; [exact Hcs|]. exact Hf. Qed.

Section popcount_steps.
Context (cs : list Z) (Hcs : all_byte cs) (Hlen : length cs = 8%nat).

Lemma le_val_map_u64 (f : Z → Z) k :
  (∀ c, 0 ≤ c < 256 → 0 ≤ f c ≤ k) → 0 ≤ k < 256 → in_u64 (le_val (f <$> cs)).
Proof.
  intros Hf Hk. pose proof (le_val_bound (f <$> cs) k) as Hb.
  rewrite length_fmap, Hlen in Hb. apply Hb; [|done]. by apply all_byte_map.
Qed.

Lemma popcount_step1 :
  u64 (le_val cs - Z.land (Z.shiftr (le_val cs) 1) 0x5555555555555555) = le_val (pc1 <$> cs).
Proof.
  change 0x5555555555555555 with (le_val (replicate 8 0x55)).
  rewrite <- Hlen at 1. rewrite (land_shift_bytes 1 0x55 cs) by (done || lia).
  rewrite <- (list_fmap_id cs) at 1.
  rewrite (le_val_map2 Z.sub id) by (intros; lia).
  apply u64_small. apply (le_val_map_u64 _ 255); [|lia].
  intros c Hc. pose proof (pc_byte c Hc). unfold pc1 in *. simpl. lia.
Qed.

Lemma popcount_step2 :
  let word := le_val (pc1 <$> cs) in
  u64 (Z.land word 0x3333333333333333 + Z.land (Z.shiftr word 2) 0x3333333333333333) =
  le_val (pc2 ∘ pc1 <$> cs).
Proof.
  cbv zeta. change 0x3333333333333333 with (le_val (replicate 8 0x33)).
  assert (Hl1 : length (pc1 <$> cs) = 8%nat) by (by rewrite length_fmap).
  assert (Hb1 : all_byte (pc1 <$> cs)).
  { apply all_byte_map; [|done]. intros c Hc. apply (pc_byte c Hc). }
  rewrite <- Hl1. rewrite <- (Z.shiftr_0_r (le_val (pc1 <$> cs))) at 1.
  rewrite (land_shift_bytes 0 0x33), (land_shift_bytes 2 0x33) by (done || lia).
  rewrite (le_val_map2 Z.add (λ c, Z.land (Z.shiftr c 0) 0x33)) by (intros; lia).
  rewrite <- list_fmap_compose. apply u64_small, (le_val_map_u64 _ 0x44); [|lia].
  intros c Hc. apply (pc_byte c Hc).
Qed.

Lemma popcount_step3 :
  let word := le_val (pc2 ∘ pc1 <$> cs) in
  Z.land (u64 (word + Z.shiftr word 4)) 0x0F0F0F0F0F0F0F0F = le_val (count_bits 8 <$> cs).
Proof.
  cbv zeta. change 0x0F0F0F0F0F0F0F0F with (le_val (replicate 8 0x0F)).
  assert (Hb2 : Forall (λ c, 0 ≤ c ≤ 0x44 ∧ c mod 16 ≤ 4) (pc2 ∘ pc1 <$> cs)).
  { apply all_byte_map; [|done]. intros c Hc. pose proof (pc_byte c Hc). simpl. lia. }
  rewrite u64_small.
  - replace 8%nat with (length (pc2 ∘ pc1 <$> cs)) at 1 by (by rewrite length_fmap).
    rewrite pc3_bytes by done. rewrite <- list_fmap_compose. f_equal.
    apply list_fmap_ext. intros i c Hc%(Forall_lookup_1 _ _ _ _ Hcs). simpl. by apply pc_byte.
  - assert (length (pc2 ∘ pc1 <$> cs) = 8%nat) as Hl by (by rewrite length_fmap).
    destruct (pc2 ∘ pc1 <$> cs) as [|? [|? [|? [|? [|? [|? [|? [|? [|??]]]]]]]]]; try done.
    rewrite !Forall_cons in Hb2. rewrite Z.shiftr_div_pow2 by lia. cbn [le_val] in *. word.
Qed.

Lemma popcount_steps : popcount_word (le_val cs) = sumZ (count_bits 8 <$> cs).
Proof.
  unfold popcount_word. rewrite popcount_step1, popcount_step2, popcount_step3.
  assert (Forall (λ x, 0 ≤ x ≤ 8) (count_bits 8 <$> cs)) as H8.
  { apply all_byte_map; [|done]. intros c Hc. apply (pc_byte c Hc). }
  destruct cs as [|? [|? [|? [|? [|? [|? [|? [|? [|??]]]]]]]]]; try done.
  by apply popcount_fold.
Qed.
End popcount_steps.

(** The parallel count of a word is the number of its bits. *)
Lemma popcount_word_spec w : in_u64 w → popcount_word w = count_bits 64 w.
Proof.
  intros Hw. change 64%nat with (8 * 8)%nat. rewrite count_bits_bytes, <- popcount_steps.
  - f_equal. rewrite le_val_split. symmetry. by apply Z.mod_small.
  - apply le_split_byte.
  - done.
Qed.

(** The positions that are one. *)
Definition bv_ones (b : BitVector) : list Z :=
  filter (λ N, bv_test b N = true) (seqZ 0 (64 * Z.of_nat (length b))).

Lemma count_bits_filter n w :
  count_bits n w = Z.of_nat (length (filter (λ i, Z.testbit w i = true) (seqZ 0 (Z.of_nat n)))).
Proof.
  induction n as [|n IH]; [done|].
  replace (S n) with (n + 1)%nat by lia. rewrite count_bits_app, IH, Nat2Z.inj_add. cbn [count_bits].
  rewrite seqZ_app, filter_app, length_app, Nat2Z.inj_add by lia. f_equal.
  rewrite Z.add_0_r. change (seqZ (0 + Z.of_nat n) (Z.of_nat 1)) with [Z.of_nat n].
  rewrite filter_cons, filter_nil, <- Z.testbit_spec' by lia.
  case_decide as Hd; [by rewrite Hd|]. by apply not_true_is_false in Hd as ->.
Qed.

Lemma bv_test_app_l b w N :
  0 ≤ N < 64 * Z.of_nat (length b) → bv_test (b ++ [w]) N = bv_test b N.
Proof.
  intros. unfold bv_test, bv_word. rewrite shiftr6, lookup_app_l; [done|].
  apply Nat2Z.inj_lt. rewrite Z2Nat.id by (apply Z.div_pos; lia). apply Z.div_lt_upper_bound; lia.
Qed.

Lemma bv_test_app_r b w i :
  0 ≤ i < 64 → bv_test (b ++ [w]) (64 * Z.of_nat (length b) + i) = Z.testbit w i.
Proof.
  intros. unfold bv_test, bv_word. rewrite shiftr6, Z.mul_comm, Z.div_add_l, Z.div_small, Z.add_0_r, Nat2Z.id by lia.
  rewrite lookup_app_r, Nat.sub_diag by lia. simpl.
  rewrite Z.add_comm, Z.mod_add, Z.mod_small by lia. done.
Qed.

Lemma bv_ones_snoc b w :
  Z.of_nat (length (bv_ones (b ++ [w]))) = Z.of_nat (length (bv_ones b)) + count_bits 64 w.
Proof.
  unfold bv_ones. rewrite length_app. cbn [length].
  replace (64 * Z.of_nat (length b + 1)) with (64 * Z.of_nat (length b) + 64) by lia.
  rewrite seqZ_app, filter_app, length_app, Nat2Z.inj_add by lia. f_equal.
  - f_equal. f_equal. apply filter_ext_elem. intros N HN%elem_of_seqZ.
    by rewrite bv_test_app_l.
  - rewrite (count_bits_filter 64), Z.add_0_l.
    replace (seqZ (64 * Z.of_nat (length b)) 64) with (Z.add (64 * Z.of_nat (length b)) <$> seqZ 0 64).
    2: { rewrite fmap_add_seqZ. f_equal. lia. }
    rewrite filter_fmap_comm, length_fmap. do 2 f_equal. apply filter_ext_elem.
    intros i Hi%elem_of_seqZ. simpl. by rewrite bv_test_app_r by lia.
Qed.

Lemma count_bits_range n w : 0 ≤ count_bits n w ≤ Z.of_nat n.
Proof.
  revert w. induction n as [|n IH]; intros w; cbn [count_bits]; [lia|].
  specialize (IH (w / 2)). pose proof (Z.mod_pos_bound w 2 ltac:(lia)). lia.
Qed.

Lemma bv_ones_le b : Z.of_nat (length (bv_ones b)) ≤ 64 * Z.of_nat (length b).
Proof.
  induction b as [|w b IH] using rev_ind; [done|].
  rewrite bv_ones_snoc, length_app. pose proof (count_bits_range 64 w). cbn [length]. lia.
Qed.

Lemma PopCount_ones b :
  bv_wf b → 64 * Z.of_nat (length b) < 2 ^ 64 → PopCount b = Z.of_nat (length (bv_ones b)).
Proof.
  induction b as [|w b IH] using rev_ind; [done|]. intros [Hb Hw]%Forall_app Hl.
  rewrite length_app in Hl; cbn [length] in Hl. unfold PopCount in *. rewrite foldl_snoc.
  rewrite IH by (done || lia). rewrite popcount_word_spec by (by inversion Hw).
  rewrite bv_ones_snoc. pose proof (bv_ones_le b). pose proof (count_bits_range 64 w).
  apply u64_small. unfold in_u64. lia.
Qed.

(** ** Encoding *)

Lemma bv_Marshal_cons w b : bv_Marshal (w :: b) = be_enc 8 w ++ bv_Marshal b.
Proof. done. Qed.

Lemma bv_Marshal_length b : length (bv_Marshal b) = (8 * length b)%nat.
Proof. induction b as [|w b IH]; [done|]. rewrite bv_Marshal_cons, length_app, IH, be_enc_length. simpl. lia. Qed.

Lemma bv_read_marshal b rest : bv_wf b → bv_read (length b) (bv_Marshal b ++ rest) = Ok b.
Proof.
  induction 1 as [|w b Hw Hb IH]; [done|]. rewrite bv_Marshal_cons, <- app_assoc. cbn [bv_read length].
  rewrite be_uint_enc_app. cbn [mbind outcome_bind]. rewrite slice_from_app by (by rewrite be_enc_length).
  cbn [mbind outcome_bind]. rewrite IH. cbn [mbind outcome_bind]. by rewrite Z.mod_small.
Qed.

Lemma bv_unmarshal_marshal b : bv_wf b → UnmarshalBitVector (bv_Marshal b) = Ok b.
Proof.
  intros Hb. unfold UnmarshalBitVector. rewrite bv_Marshal_length.
  rewrite decide_False by (rewrite Nat.mul_comm, Nat.Div0.mod_mul; auto).
  rewrite Nat.mul_comm, Nat.div_mul by lia. rewrite <- (app_nil_r (bv_Marshal b)). by apply bv_read_marshal.
Qed.

Lemma SetWithIsNew_spec b N :
  bv_wf b → in_bounds b N →
  ∃ b', SetWithIsNew b N = Ok (b', negb (bv_test b N && (N mod 64 =? 0))) ∧ 
    ∀ M, 0 ≤ M → bv_test b' M = bool_decide (M = N) || bv_test b M.
Proof.
  intros Hwf Hb. destruct (in_bounds_word b N Hb) as [w Hw].
  pose proof (Z.mod_pos_bound N 64 ltac:(lia)) as Hm.
  assert (Z.land w (bv_mask N) = Z.b2z (bv_test b N) * 2 ^ (N mod 64)) as Hland.
  { unfold bv_test. rewrite Hw. apply Z.bits_inj'. intros i Hi.
    rewrite Z.land_spec, mask_testbit, Z.mul_pow2_bits by lia.
    destruct (Z.eqb_spec i (N mod 64)) as [->|Hne].
    - rewrite Z.sub_diag, Z.b2z_bit0. apply andb_true_r.
    - rewrite andb_false_r. destruct (Z.testbit w (N mod 64)); [|by rewrite Z.bits_0].
      destruct (Z.ltb_spec i (N mod 64)); [by rewrite Z.testbit_neg_r by lia|].
      symmetry. apply Z.bits_above_log2; [done|]. simpl. lia. }
  unfold SetWithIsNew. rewrite Hw. cbn [mbind outcome_bind or_panic]. rewrite Hland.
  destruct (bv_Set_spec b N Hb) as (b' & -> & _ & Hv). cbn [mbind outcome_bind].
  destruct (bv_test b N) eqn:Ht; cbn [Z.b2z andb]; [|exists b'; done].
  rewrite Z.mul_1_l. destruct (Z.eqb_spec (2 ^ (N mod 64)) 1) as [E|E].
  - assert (N mod 64 = 0) as -> by (destruct (decide (N mod 64 = 0)); [done|];
      pose proof (Z.pow_gt_1 2 (N mod 64) ltac:(lia)); lia).
    exists b. split; [done|]. intros M HM.
    destruct (decide (M = N)) as [->|]; [by rewrite bool_decide_eq_true_2, Ht|by rewrite bool_decide_eq_false_2].
  - rewrite (proj2 (Z.eqb_neq _ 0)) by (intros E0; by rewrite E0 in E). exists b'. done.
Qed.

(** ** The bit vector as a finite set of positions *)

(** A bit vector is a set of positions below its capacity: [Get] is
    membership, [Set] and [Clear] add and remove exactly one position,
    [PopCount] is the number of members, and decoding what [Marshal] wrote
    gives the vector back.  [SetWithIsNew] adds the position as well, but calls
    it new also when it was set already, unless it is a multiple of 64. *)
Theorem bit_vector_is_a_set b N :
  bv_wf b → in_bounds b N → 64 * Z.of_nat (length b) < 2 ^ 64 →
  bv_Get b N = Ok (Z.b2z (bv_test b N)) ∧
  (∃ b', bv_Set b N = Ok b' ∧ length b' = length b ∧
     ∀ M, 0 ≤ M → bv_test b' M = bool_decide (M = N) || bv_test b M) ∧
  (∃ b', bv_Clear b N = Ok b' ∧ length b' = length b ∧
     ∀ M, 0 ≤ M → bv_test b' M = negb (bool_decide (M = N)) && bv_test b M) ∧
  (∃ b', SetWithIsNew b N = Ok (b', negb (bv_test b N && (N mod 64 =? 0))) ∧
     ∀ M, 0 ≤ M → bv_test b' M = bool_decide (M = N) || bv_test b M) ∧
  PopCount b = Z.of_nat (length (bv_ones b)) ∧ UnmarshalBitVector (bv_Marshal b) = Ok b.
Proof.
  intros Hwf Hb Hl. split; [by apply bv_Get_spec|]. split; [|split; [|split; [|split]]].
  - destruct (bv_Set_spec b N Hb) as (b' & ? & ? & ?). by exists b'.
  - destruct (bv_Clear_spec b N Hb) as (b' & ? & ? & ?). by exists b'.
  - by apply SetWithIsNew_spec.
  - by apply PopCount_ones.
  - by apply bv_unmarshal_marshal.
Qed.

Lemma bit_vector_is_a_set_witness :
  bv_Get [5; 1] 64 = Ok 1 ∧ PopCount [5; 1] = 3 ∧ (∃ b', SetWithIsNew [5; 1] 2 = Ok (b', true)).
Proof.
  destruct (bit_vector_is_a_set [5; 1] 64) as (Hg & _ & _ & _ & Hp & _).
  - repeat constructor; word.
  - split; [lia|vm_compute; lia].
  - vm_compute. reflexivity.
  - split; [exact Hg|]. split; [exact Hp|].
    destruct (bit_vector_is_a_set [5; 1] 2) as (_ & _ & _ & (b' & H & _) & _); 
      [repeat constructor; word|split; [lia|vm_compute; lia]|vm_compute; reflexivity|].
    by exists b'.
Defined.
