(* ===== verification/Locks.v ===== *)
(** * Locks: [common/types/{lock_map,lock,chan}.go]

    [LockMap] is a readers-writer lock per identifier: [-1] for a writer, the
    number of readers otherwise, no entry when free.  The database keeps the
    same table for its keys, so the protocol is stated once, for any
    implementation of the four operations, and proved by induction on the
    steps of its clients. *)

From S2P Require Import Prelude.

Set Default Goal Selector "!".
Local Open Scope Z_scope.

Abbreviation locktab := (gmap bytes Z).

(** ** Interface *)

(** What a per-key readers-writer lock promises on the states its clients can
    produce. *)
Class RWLock := {
  rw_tryLock : locktab → bytes → outcome locktab;
  rw_unlock : locktab → bytes → outcome locktab;
  rw_tryRLock : locktab → bytes → outcome locktab;
  rw_rUnlock : locktab → bytes → outcome locktab;
  rw_busy : GoErr;
  rw_tryLock_free l k : l !! k = None → rw_tryLock l k = Ok (<[k := -1]> l);
  rw_tryLock_busy l k v : l !! k = Some v → rw_tryLock l k = Err rw_busy;
  rw_unlock_held l k : l !! k = Some (-1) → rw_unlock l k = Ok (delete k l);
  rw_tryRLock_free l k : l !! k = None → rw_tryRLock l k = Ok (<[k := 1]> l);
  rw_tryRLock_shared l k v : l !! k = Some v → 0 ≤ v → rw_tryRLock l k = Ok (<[k := v + 1]> l);
  rw_tryRLock_busy l k v : l !! k = Some v → v < 0 → rw_tryRLock l k = Err rw_busy;
  rw_rUnlock_last l k : l !! k = Some 1 → rw_rUnlock l k = Ok (delete k l);
  rw_rUnlock_held l k v : l !! k = Some v → 1 < v → rw_rUnlock l k = Ok (<[k := v - 1]> l);
}.

(** ** Clients *)

Inductive lmode := LRead | LWrite.
#[global] Instance lmode_eq_dec : EqDecision lmode.
Proof. solve_decision. Defined.

(** The grants in force: who holds which key how. *)
Abbreviation grants := (list (nat * bytes * lmode)).
Definition holds (k : bytes) (m : lmode) (g : nat * bytes * lmode) : Prop :=
  g.1.2 = k ∧ g.2 = m.
#[global] Instance holds_dec k m g : Decision (holds k m g).
Proof. unfold holds. apply _. Defined.
Definition nheld (k : bytes) (m : lmode) (gs : grants) : nat := length (filter (holds k m) gs).

Section clients.
Context `{RWLock}.

(** A client calls an operation; a grant is recorded when it succeeds, and only
    the holder of a grant releases it. *)
Inductive rw_step : locktab * grants → locktab * grants → Prop :=
  | step_lock l l' gs t k :
      rw_tryLock l k = Ok l' → rw_step (l, gs) (l', (t, k, LWrite) :: gs)
  | step_lock_busy l gs k e : rw_tryLock l k = Err e → rw_step (l, gs) (l, gs)
  | step_unlock l l' gs1 gs2 t k :
      rw_unlock l k = Ok l' → rw_step (l, gs1 ++ (t, k, LWrite) :: gs2) (l', gs1 ++ gs2)
  | step_rlock l l' gs t k :
      rw_tryRLock l k = Ok l' → rw_step (l, gs) (l', (t, k, LRead) :: gs)
  | step_rlock_busy l gs k e : rw_tryRLock l k = Err e → rw_step (l, gs) (l, gs)
  | step_runlock l l' gs1 gs2 t k :
      rw_rUnlock l k = Ok l' → rw_step (l, gs1 ++ (t, k, LRead) :: gs2) (l', gs1 ++ gs2).

(** The table says exactly what the grants say. *)
Definition rw_inv (s : locktab * grants) : Prop :=
  ∀ k, match s.1 !! k with
       | None => nheld k LWrite s.2 = 0%nat ∧ nheld k LRead s.2 = 0%nat
       | Some v =>
         v = -1 ∧ nheld k LWrite s.2 = 1%nat ∧ nheld k LRead s.2 = 0%nat ∨
         0 < v ∧ nheld k LWrite s.2 = 0%nat ∧ Z.of_nat (nheld k LRead s.2) = v
       end.

Lemma nheld_cons k m t k' m' gs :
  nheld k m ((t, k', m') :: gs) =
    (if decide (k' = k ∧ m' = m) then S (nheld k m gs) else nheld k m gs).
Proof.
  unfold nheld. rewrite filter_cons. unfold holds at 1; simpl.
  repeat case_decide; unfold holds in *; simpl in *; tauto || done.
Qed.

Lemma nheld_mid k m t k' m' gs1 gs2 :
  nheld k m (gs1 ++ (t, k', m') :: gs2) =
    (if decide (k' = k ∧ m' = m) then S (nheld k m (gs1 ++ gs2)) else nheld k m (gs1 ++ gs2)).
Proof.
  pose proof (nheld_cons k m t k' m' gs2) as Hc. unfold nheld in *.
  rewrite !filter_app, !length_app, Hc. case_decide; lia.
Qed.

Lemma rw_inv_init : rw_inv (∅, []).
Proof. intros k. simpl. by rewrite lookup_empty. Qed.

(** Rewrites the counts and the table of one step; [k] is the key acted on. *)
Ltac rw_key k k0 Hinv :=
  specialize (Hinv k0); simpl in *;
  rewrite ?nheld_cons, ?nheld_mid in *;
  destruct (decide (k = k0)) as [->|];
  [ rewrite ?lookup_insert_eq, ?lookup_delete_eq
  | rewrite ?lookup_insert_ne, ?lookup_delete_ne by done ];
  repeat case_decide; destruct_and?; repeat case_match; simplify_eq; try tauto; try lia.

Lemma rw_inv_lock l gs t k l' :
  rw_inv (l, gs) → rw_tryLock l k = Ok l' → rw_inv (l', (t, k, LWrite) :: gs).
Proof.
  intros Hinv Hl. destruct (l !! k) as [v|] eqn:E.
  { by erewrite rw_tryLock_busy in Hl. }
  rewrite rw_tryLock_free in Hl by done. injection Hl as <-.
  intros k0. rw_key k k0 Hinv.
Qed.

Lemma rw_inv_rlock l gs t k l' :
  rw_inv (l, gs) → rw_tryRLock l k = Ok l' → rw_inv (l', (t, k, LRead) :: gs).
Proof.
  intros Hinv Hl. destruct (l !! k) as [v|] eqn:E.
  - destruct (decide (v < 0)); [by erewrite rw_tryRLock_busy in Hl|].
    erewrite rw_tryRLock_shared in Hl by (done || lia). injection Hl as <-.
    intros k0. rw_key k k0 Hinv.
  - rewrite rw_tryRLock_free in Hl by done. injection Hl as <-. intros k0. rw_key k k0 Hinv.
Qed.

(** A holder's release succeeds. *)
Lemma rw_unlock_succeeds l gs1 gs2 t k :
  rw_inv (l, gs1 ++ (t, k, LWrite) :: gs2) → rw_unlock l k = Ok (delete k l) ∧ l !! k = Some (-1).
Proof.
  intros Hinv. specialize (Hinv k). simpl in Hinv. rewrite !nheld_mid in Hinv.
  rewrite decide_True in Hinv by done.
  assert (l !! k = Some (-1)) as E by (destruct (l !! k); naive_solver lia).
  split; [by apply rw_unlock_held|done].
Qed.

Lemma rw_runlock_succeeds l gs1 gs2 t k :
  rw_inv (l, gs1 ++ (t, k, LRead) :: gs2) →
  ∃ v, 0 < v ∧ l !! k = Some v ∧
    rw_rUnlock l k = Ok (if decide (v = 1) then delete k l else <[k := v - 1]> l).
Proof.
  intros Hinv. specialize (Hinv k). simpl in Hinv. rewrite !nheld_mid in Hinv.
  rewrite (decide_True (P := k = k ∧ LRead = LRead)) in Hinv by done.
  rewrite !(decide_False (P := k = k ∧ LRead = LWrite)) in Hinv by naive_solver.
  destruct (l !! k) as [v|] eqn:E; [|lia].
  exists v. assert (0 < v) by lia. split_and!; [done..|]. case_decide; subst.
  - by apply rw_rUnlock_last.
  - apply rw_rUnlock_held; [done|lia].
Qed.

Lemma rw_inv_unlock l gs1 gs2 t k :
  rw_inv (l, gs1 ++ (t, k, LWrite) :: gs2) → rw_inv (delete k l, gs1 ++ gs2).
Proof. intros Hinv k0. rw_key k k0 Hinv. Qed.

Lemma rw_inv_runlock l gs1 gs2 t k v :
  l !! k = Some v → 0 < v →
  rw_inv (l, gs1 ++ (t, k, LRead) :: gs2) →
  rw_inv (if decide (v = 1) then delete k l else <[k := v - 1]> l, gs1 ++ gs2).
Proof.
  intros E Hv Hinv. destruct (decide (v = 1)) as [->|]; intros k0; rw_key k k0 Hinv.
Qed.

Lemma rw_inv_step s s' : rw_inv s → rw_step s s' → rw_inv s'.
Proof.
  intros Hinv Hs.
  destruct Hs as [? l' ? ? ? Hl|?|l l' gs1 gs2 t k Hl|? l' ? ? ? Hl|?|l l' gs1 gs2 t k Hl]; try done.
  - by eapply rw_inv_lock.
  - destruct (rw_unlock_succeeds _ _ _ _ _ Hinv) as [E _]. rewrite E in Hl. injection Hl as <-.
    by apply (rw_inv_unlock l gs1 gs2 t k).
  - by eapply rw_inv_rlock.
  - destruct (rw_runlock_succeeds _ _ _ _ _ Hinv) as (v & Hv & E & E').
    rewrite E' in Hl. injection Hl as <-. by apply (rw_inv_runlock l gs1 gs2 t k v).
Qed.

Definition rw_reachable (s : locktab * grants) : Prop := rtc rw_step (∅, []) s.

Lemma rw_reachable_inv s : rw_reachable s → rw_inv s.
Proof.
  unfold rw_reachable. intros Hr. remember (∅, []) as s0 eqn:E0 in Hr. assert (rw_inv s0) as H0 by (subst; apply rw_inv_init).
  clear E0. induction Hr as [|s1 s2 s3 Hst _ IH]; [done|]. apply IH. by eapply rw_inv_step.
Qed.

End clients.

(** ** [LockMap] *)

Definition NIterLock : nat := 100.

Section LockMap.
Implicit Types (l : locktab) (id : option bytes).

(** Each operation first ignores a [nil] identifier; the table is guarded by a
    mutex, so an operation is one atomic step. *)
Definition TryLock l id : outcome locktab :=
  match id with
  | None => Ok l
  | Some k => match l !! k with Some _ => Err ErrBusy | None => Ok (<[k := -1]> l) end
  end.

Definition Unlock l id : outcome locktab :=
  match id with
  | None => Ok l
  | Some k =>
    match l !! k with
    | None => Err ErrInvalidLock
    | Some val => if 0 <=? val then Err ErrInvalidLock else Ok (delete k l)
    end
  end.

Definition TryRLock l id : outcome locktab :=
  match id with
  | None => Ok l
  | Some k =>
    match l !! k with
    | Some val => if val <? 0 then Err ErrBusy else Ok (<[k := val + 1]> l)
    | None => Ok (<[k := 0 + 1]> (<[k := 0]> l))
    end
  end.

Definition RUnlock l id : outcome locktab :=
  match id with
  | None => Ok l
  | Some k =>
    match l !! k with
    | None => Err ErrInvalidLock
    | Some val =>
      if val <=? 0 then Err ErrInvalidLock
      else let l := <[k := val - 1]> l in Ok (if val =? 1 then delete k l else l)
    end
  end.

(** [Lock] and [RLock]: up to [NIterLock] attempts; between two attempts the
    caller sleeps and the other goroutines change the table by [env i]. *)
Fixpoint retry (try : locktab → outcome locktab) (env : nat → locktab → locktab)
    (n : nat) (i : nat) (l : locktab) (last : option GoErr) : locktab * option GoErr :=
  match n with
  | O => (l, last)
  | S n' =>
    match try l with
    | Ok l' => (l', None)
    | Err e => retry try env n' (S i) (env i l) (Some e)
    | Panic => (l, last)
    end
  end.
Definition Lock (env : nat → locktab → locktab) l id : locktab * option GoErr :=
  match id with
  | None => (l, None)
  | Some _ => retry (λ l, TryLock l id) env NIterLock 0 l None
  end.
Definition RLock (env : nat → locktab → locktab) l id : locktab * option GoErr :=
  match id with
  | None => (l, None)
  | Some _ => retry (λ l, TryRLock l id) env NIterLock 0 l None
  end.

(** On a free identifier the first attempt succeeds. *)
Lemma retry_first try env n i l last l' : try l = Ok l' → retry try env (S n) i l last = (l', None).
Proof. intros E. cbn. by rewrite E. Qed.
Lemma Lock_free env l k : l !! k = None → Lock env l (Some k) = (<[k := -1]> l, None).
Proof. intros E. apply retry_first. simpl. by rewrite E. Qed.
Lemma RLock_free env l k : l !! k = None → RLock env l (Some k) = (<[k := 0 + 1]> (<[k := 0]> l), None).
Proof. intros E. apply retry_first. simpl. by rewrite E. Qed.

(** [MustLock] calls [Lock] until it succeeds; [fuel] bounds the calls. *)
Fixpoint MustLock (fuel : nat) (env : nat → nat → locktab → locktab) l id : option locktab :=
  match fuel with
  | O => None
  | S f =>
    match Lock (env f) l id with
    | (l', None) => Some l'
    | (l', Some _) => MustLock f env l' id
    end
  end.

(** The table an attempt of the retry loop sees. *)
Fixpoint env_run (env : nat → locktab → locktab) (n i : nat) (l : locktab) : locktab :=
  match n with O => l | S n' => env_run env n' (S i) (env i l) end.

Lemma retry_outcome try env b n i l last l' e :
  (∀ l, try l ≠ Panic) → (∀ l er, try l = Err er → er = b) →
  retry try env n i l last = (l', e) →
  (∃ m, (m < n)%nat ∧ e = None ∧ try (env_run env m i l) = Ok l') ∨
  e = (if decide (n = 0%nat) then last else Some b) ∧ l' = env_run env n i l ∧
  (∀ m, (m < n)%nat → try (env_run env m i l) = Err b).
Proof.
  intros Hp Hb. revert i l last. induction n as [|n IH]; intros i l last; simpl.
  { intros [= <- <-]. right. split_and!; [done..|lia]. }
  destruct (try l) as [l1|er|] eqn:E; [|intros Hr|by destruct (Hp l)].
  - intros [= <- <-]. left. exists 0%nat. split_and!; [lia|done|exact E].
  - pose proof (Hb _ _ E) as ->. destruct (IH _ _ _ Hr) as [(m & Hm & He & Ht)|(He & Hl & Ha)].
    + left. exists (S m). split_and!; [lia|done..].
    + right. split_and!; [rewrite He; by case_decide|done|].
      intros [|m] Hm; simpl; [done|]. apply Ha. lia.
Qed.

Lemma TryLock_no_panic id l : TryLock l id ≠ Panic.
Proof. unfold TryLock. repeat case_match; done. Qed.

End LockMap.

#[global, program] Instance LockMap_rwlock : RWLock := {|
  rw_tryLock l k := TryLock l (Some k);
  rw_unlock l k := Unlock l (Some k);
  rw_tryRLock l k := TryRLock l (Some k);
  rw_rUnlock l k := RUnlock l (Some k);
  rw_busy := ErrBusy |}.
Next Obligation. intros l k E. simpl. by rewrite E. Qed.
Next Obligation. intros l k v E. simpl. by rewrite E. Qed.
Next Obligation. intros l k E. simpl. by rewrite E. Qed.
Next Obligation. intros l k E. simpl. rewrite E. by rewrite insert_insert_eq. Qed.
Next Obligation. intros l k v E Hv. simpl. rewrite E. by rewrite (proj2 (Z.ltb_ge v 0)). Qed.
Next Obligation. intros l k v E Hv. simpl. rewrite E. by rewrite (proj2 (Z.ltb_lt v 0)). Qed.
Next Obligation. intros l k E. simpl. rewrite E. simpl. by rewrite delete_insert_eq. Qed.
Next Obligation.
  intros l k v E Hv. simpl. rewrite E.
  rewrite (proj2 (Z.leb_gt v 0)), (proj2 (Z.eqb_neq v 1)) by lia. done.
Qed.

(** ** [Lock]: a lock made of a channel of capacity one *)
Module ChanLock.

(** [full]: the token is in the channel; [closed]: the channel is closed. *)
Record t := Mk { isClosed : bool; full : bool; closed : bool }.

Definition NewLock : t := Mk false false false.

(** A send on a closed channel panics, even in a [select] with a default. *)
Definition TryLock (l : t) : outcome t :=
  if isClosed l then Err ErrLockClosed
  else if closed l then Panic
  else if full l then Err ErrLock
  else Ok (Mk (isClosed l) true (closed l)).

(** A receive takes the token if there is one, fails on a closed empty
    channel, and otherwise is not ready. *)
Definition Unlock (l : t) : outcome t :=
  if full l then Ok (Mk (isClosed l) false (closed l))
  else if closed l then Err ErrLockClosed
  else Err ErrUnlock.

(** [TryTimedLock]/[TimedUnlock]: as above, except that the call waits; [l'] is
    the state when the operation becomes ready or the timer fires. *)
Definition TryTimedLock (l l' : t) : outcome t :=
  if isClosed l then Err ErrLockClosed
  else if closed l' then Panic
  else if full l' then Err ErrLock
  else Ok (Mk (isClosed l') true (closed l')).
Definition TimedUnlock (l' : t) : outcome t := Unlock l'.

Definition IsLocked (l : t) : bool := full l.

(** Closing a closed channel panics. *)
Definition Close (l : t) : outcome t :=
  if IsLocked l then Err ErrClose
  else if closed l then Panic
  else Ok (Mk true (full l) true).

(** The flag and the channel agree, and a closed lock is not held. *)
Definition inv (l : t) : Prop := isClosed l = closed l ∧ (closed l = true → full l = false).

Lemma inv_ops l l' :
  inv l → TryLock l = Ok l' ∨ Unlock l = Ok l' ∨ Close l = Ok l' → inv l'.
Proof.
  destruct l as [a b c]. unfold inv, TryLock, Unlock, Close, IsLocked; simpl.
  intros [-> Hc] [H|[H|H]]; repeat case_match; simplify_eq/=; naive_solver.
Qed.

End ChanLock.

(** ** [Chan]: a channel guarded by a closed flag *)
Module Chan.

Record t := Mk { isClose : bool; closed : bool; buf : list nat; n : nat; mutex : bool }.

Definition NewChan (n : Z) : t := Mk false false [] (if n <? 1 then 1 else Z.to_nat n) false.
Definition IsBusy (c : t) : bool := bool_decide (length (buf c) = n c).

(** Program points of a goroutine in [PassChan(d)] or in [Close]. *)
Inductive pc :=
  | PStart (d : nat) | PChecked (d : nat) | PLocked (d : nat) | PSent | PRefused | PPanicked
  | CStart | CChecked | CFlagged | CLocked | CDone | CPanicked.

Definition set_flag (c : t) := Mk true (closed c) (buf c) (n c) (mutex c).
Definition set_mutex (b : bool) (c : t) := Mk (isClose c) (closed c) (buf c) (n c) b.
Definition do_close (c : t) := Mk (isClose c) true (buf c) (n c) false.
Definition do_send (d : nat) (c : t) := Mk (isClose c) (closed c) (buf c ++ [d]) (n c) false.

(** One statement of one goroutine; the deferred [Unlock] runs on every exit
    of the critical section, a panic included. *)
Inductive thread_step : t → pc → t → pc → Prop :=
  | pass_refused c d : isClose c = true → thread_step c (PStart d) c PRefused
  | pass_checked c d : isClose c = false → thread_step c (PStart d) c (PChecked d)
  | pass_lock c d : mutex c = false → thread_step c (PChecked d) (set_mutex true c) (PLocked d)
  | pass_send c d :
      closed c = false → (length (buf c) < n c)%nat → thread_step c (PLocked d) (do_send d c) PSent
  | pass_panic c d : closed c = true → thread_step c (PLocked d) (set_mutex false c) PPanicked
  | close_skip c : isClose c = true → thread_step c CStart c CDone
  | close_checked c : isClose c = false → thread_step c CStart c CChecked
  | close_flag c : thread_step c CChecked (set_flag c) CFlagged
  | close_lock c : mutex c = false → thread_step c CFlagged (set_mutex true c) CLocked
  | close_do c : closed c = false → thread_step c CLocked (do_close c) CDone
  | close_panic c : closed c = true → thread_step c CLocked (set_mutex false c) CPanicked.

(** Some goroutine moves, or a receiver takes the oldest element. *)
Inductive step : t * list pc → t * list pc → Prop :=
  | step_thread c c' ps1 p p' ps2 :
      thread_step c p c' p' → step (c, ps1 ++ p :: ps2) (c', ps1 ++ p' :: ps2)
  | step_recv c ps d rest :
      buf c = d :: rest →
      step (c, ps) (Mk (isClose c) (closed c) rest (n c) (mutex c), ps).

Definition is_closer (p : pc) : bool :=
  match p with CStart | CChecked | CFlagged | CLocked | CDone | CPanicked => true | _ => false end.

(** The channel never holds more than its capacity; while nobody closes, it
    stays open. *)
Definition inv (s : t * list pc) : Prop :=
  (length (buf s.1) ≤ n s.1)%nat ∧
  (Forall (λ p, is_closer p = false) s.2 → isClose s.1 = false ∧ closed s.1 = false ∧ PPanicked ∉ s.2).

Lemma inv_step_thread c ps1 p ps2 c' p' :
  thread_step c p c' p' → inv (c, ps1 ++ p :: ps2) → inv (c', ps1 ++ p' :: ps2).
Proof.
  intros Hs [Hb Hc]. unfold inv in *; simpl in *.
  rewrite Forall_app, Forall_cons in *.
  assert (is_closer p' = false → is_closer p = false) as Hcl by (by destruct Hs).
  split.
  - destruct Hs; simpl; rewrite ?length_app; simpl; lia.
  - intros (H1 & H2 & H3). destruct Hc as (E1 & E2 & E3); [naive_solver|].
    rewrite not_elem_of_app, not_elem_of_cons in *.
    destruct E3 as (? & ? & ?).
    destruct Hs; simpl in *; try congruence; split_and!; done.
Qed.

Lemma inv_step s s' : inv s → step s s' → inv s'.
Proof.
  intros Hi Hs. destruct Hs as [c c' ps1 p p' ps2 Ht|c ps d rest E]; [by eapply inv_step_thread|].
  destruct Hi as [Hb Hc]. unfold inv in *; simpl in *. rewrite E in Hb. simpl in Hb. split; [lia|done].
Qed.

Lemma inv_rtc s s' : inv s → rtc step s s' → inv s'.
Proof. intros Hi Hr. induction Hr; eauto using inv_step. Qed.

Lemma inv_init k ds : inv (NewChan k, PStart <$> ds).
Proof.
  split; simpl; [lia|]. intros _. split_and!; [done..|].
  intros (? & ? & ?)%list_elem_of_fmap_1. done.
Qed.

Lemma flag_stays s s' : rtc step s s' → isClose s.1 = true → isClose s'.1 = true.
Proof.
  induction 1 as [|s s1 s2 Hs _ IH]; [done|]. intros H. apply IH.
  destruct Hs as [c c' ps1 p p' ps2 Ht|]; simpl in *; [by destruct Ht|done].
Qed.

End Chan.

(** ** Properties *)

(** C34: in every state that goroutines can reach by calling [TryLock],
    [Unlock], [TryRLock] and [RUnlock] of a [LockMap], releasing only what they
    hold, no identifier has two writers or a writer and a reader, the table
    entry is [-1] for a writer and otherwise the number of readers, and the
    entry of an identifier nobody holds is gone. *)
Theorem lockmap_mutual_exclusion (s : locktab * grants) :
  rw_reachable (H := LockMap_rwlock) s →
  ∀ k, (nheld k LWrite s.2 ≤ 1)%nat ∧
       (nheld k LWrite s.2 = 1%nat → nheld k LRead s.2 = 0%nat ∧ s.1 !! k = Some (-1)) ∧
       ((0 < nheld k LRead s.2)%nat → s.1 !! k = Some (Z.of_nat (nheld k LRead s.2))) ∧
       (nheld k LWrite s.2 = 0%nat → nheld k LRead s.2 = 0%nat → s.1 !! k = None).
Proof.
  intros Hr k. pose proof (rw_reachable_inv s Hr k) as Hk.
  destruct (s.1 !! k) as [v|]; [|naive_solver lia].
  destruct Hk as [(-> & -> & ->)|(Hv & -> & <-)]; split_and!; intros; (done || lia || naive_solver lia).
Qed.

Lemma lockmap_mutual_exclusion_witness :
  let k := [x01] in
  nheld k LRead [(1%nat, k, LRead); (0%nat, k, LRead)] = 2%nat ∧
  (<[k := 2]> (<[k := 1]> ∅) : locktab) !! k = Some 2.
Proof.
  intros k. split; [reflexivity|].
  pose (s := ((<[k := 2]> (<[k := 1]> (∅ : locktab))), [(1%nat, k, LRead); (0%nat, k, LRead)]) : locktab * grants).
  assert (rw_reachable (H := LockMap_rwlock) s) as Hr.
  { eapply rtc_l; [by apply (step_rlock ∅ (<[k := 1]> ∅) [] 0%nat k)|].
    eapply rtc_l; [|apply rtc_refl]. by apply (step_rlock _ (<[k := 2]> (<[k := 1]> ∅)) _ 1%nat k). }
  destruct (lockmap_mutual_exclusion s Hr k) as (_ & _ & H3 & _). apply H3. vm_compute. lia.
Defined.

(** [Lock] on an identifier returns [nil] exactly when one of its hundred
    attempts found the identifier free, and then the caller is its writer;
    otherwise every attempt found it taken, the answer is [ErrBusy], and the
    table is what the other goroutines made of it. *)
Theorem lock_retry_outcome (env : nat → locktab → locktab) (l : locktab) (k : bytes) :
  match Lock env l (Some k) with
  | (l', None) => ∃ m, (m < NIterLock)%nat ∧ env_run env m 0 l !! k = None ∧
                       l' = <[k := -1]> (env_run env m 0 l)
  | (l', Some e) => e = ErrBusy ∧ l' = env_run env NIterLock 0 l ∧
                    ∀ m, (m < NIterLock)%nat → is_Some (env_run env m 0 l !! k)
  end.
Proof.
  unfold Lock. destruct (retry _ _ _ _ _ _) as [l' e] eqn:E.
  assert (∀ l er, TryLock l (Some k) = Err er → er = ErrBusy) as Hb.
  { intros l0 er. simpl. destruct (l0 !! k); [by intros [= <-]|done]. }
  assert (∀ l0, TryLock l0 (Some k) = match l0 !! k with Some _ => Err ErrBusy | None => Ok (<[k := -1]> l0) end) as Ht by done.
  destruct (retry_outcome _ _ _ _ _ _ _ _ _ (TryLock_no_panic (Some k)) Hb E) as [(m & Hm & -> & Hl)|(-> & -> & Ha)].
  - exists m. rewrite Ht in Hl.
    destruct (env_run env m 0 l !! k) eqn:Ek; [done|]. by injection Hl as <-.
  - simpl. split_and!; [done..|]. intros m Hm. specialize (Ha m Hm). rewrite Ht in Ha.
    destruct (env_run env m 0 l !! k); [by eexists|done].
Qed.

(** One step of the goroutine between [l] and [r]. *)
Ltac chan_step l r rule :=
  eapply rtc_l; [eapply (Chan.step_thread _ _ l _ _ r); eapply rule; done|].

(** As long as no goroutine calls [Close], any number of concurrent
    [PassChan] calls and receives neither panics nor overfills the channel. *)
Theorem chan_safe_without_close (k : Z) (ds : list nat) (s : Chan.t * list Chan.pc) :
  rtc Chan.step (Chan.NewChan k, Chan.PStart <$> ds) s →
  Forall (λ p, Chan.is_closer p = false) s.2 →
  (length (Chan.buf s.1) ≤ Chan.n s.1)%nat ∧ Chan.PPanicked ∉ s.2.
Proof.
  intros Hr Hc. destruct (Chan.inv_rtc _ _ (Chan.inv_init k ds) Hr) as [Hb Hp].
  split; [done|]. by apply Hp.
Qed.

Lemma chan_safe_without_close_witness :
  Chan.PPanicked ∉ [Chan.PSent].
Proof.
  apply (chan_safe_without_close 1 [7%nat] (Chan.do_send 7 (Chan.set_mutex true (Chan.NewChan 1)), [Chan.PSent])).
  - chan_step ([] : list Chan.pc) ([] : list Chan.pc) Chan.pass_checked.
    chan_step ([] : list Chan.pc) ([] : list Chan.pc) Chan.pass_lock.
    eapply rtc_l; [|apply rtc_refl].
    eapply (Chan.step_thread _ _ [] _ _ []), Chan.pass_send; [done|]. simpl. lia.
  - by repeat constructor.
Defined.

(** The comment on [Chan] calls it a non-panic channel, but [PassChan]
    tests the flag before it takes the mutex: a [Close] that runs in between
    makes the send panic. *)
Theorem chan_pass_can_panic (d : nat) :
  ∃ c, rtc Chan.step (Chan.NewChan 1, [Chan.PStart d; Chan.CStart]) (c, [Chan.PPanicked; Chan.CDone]).
Proof.
  eexists.
  chan_step ([] : list Chan.pc) ([Chan.CStart] : list Chan.pc) Chan.pass_checked.
  chan_step ([Chan.PChecked d] : list Chan.pc) ([] : list Chan.pc) Chan.close_checked.
  chan_step ([Chan.PChecked d] : list Chan.pc) ([] : list Chan.pc) Chan.close_flag.
  chan_step ([Chan.PChecked d] : list Chan.pc) ([] : list Chan.pc) Chan.close_lock.
  chan_step ([Chan.PChecked d] : list Chan.pc) ([] : list Chan.pc) Chan.close_do.
  chan_step ([] : list Chan.pc) ([Chan.CDone] : list Chan.pc) Chan.pass_lock.
  chan_step ([] : list Chan.pc) ([Chan.CDone] : list Chan.pc) Chan.pass_panic.
  apply rtc_refl.
Qed.
