(* ===== verification/LevelDB.v ===== *)
(** * The goleveldb interface

    [pttdb] stores everything in goleveldb, a third-party package.  The class
    [LevelDB] states what the code relies on: an ordered map from byte strings
    to byte strings, batches applied at once, iterators over a snapshot in key
    order, and a failure (such as [ErrClosed]) that is reported by every later
    operation and leaves the contents alone.  [mem_leveldb] shows the laws are
    consistent and is what the witnesses run on. *)

From S2P Require Import Prelude.

Set Default Goal Selector "!".

(** ** Ranges *)

(** [util.Range]: [Start] inclusive, [Limit] exclusive, [nil] unbounded. *)
Record Range := MkRange { rStart : option bytes; rLimit : option bytes }.

Definition in_range (k : bytes) (r : Range) : Prop :=
  match rStart r with Some a => bytes_le a k | None => True end ∧
  match rLimit r with Some b => bytes_lt k b | None => True end.

#[global] Instance in_range_dec k r : Decision (in_range k r).
Proof. unfold in_range. destruct (rStart r), (rLimit r); apply _. Defined.

(** [util.BytesPrefix]: the limit is the prefix cut after its last byte that is
    not [0xff], that byte incremented. *)
Fixpoint prefix_limit (p : bytes) : option bytes :=
  match p with
  | [] => None
  | c :: p' =>
    match prefix_limit p' with
    | Some l => Some (c :: l)
    | None => if (byteZ c <? 255)%Z then Some [byte_of_Z (byteZ c + 1)] else None
    end
  end.
Definition BytesPrefix (p : bytes) : Range := MkRange (Some p) (prefix_limit p).

(** ** The store *)

Inductive batch_op := BPut (k v : bytes) | BDel (k : bytes).

Definition apply_op (m : gmap bytes bytes) (op : batch_op) : gmap bytes bytes :=
  match op with BPut k v => <[k := v]> m | BDel k => delete k m end.
Definition apply_ops (ops : list batch_op) (m : gmap bytes bytes) : gmap bytes bytes :=
  foldl apply_op m ops.

Definition key_lt (p q : bytes * bytes) : Prop := bytes_lt p.1 q.1.

Class LevelDB (S : Type) := {
  ldb_view : S → gmap bytes bytes;
  ldb_fault : S → option GoErr;
  ldb_get : S → bytes → bytes + GoErr;
  ldb_has : S → bytes → bool + GoErr;
  ldb_put : S → bytes → bytes → S * option GoErr;
  ldb_delete : S → bytes → S * option GoErr;
  ldb_write : S → list batch_op → S * option GoErr;
  ldb_range : S → Range → list (bytes * bytes);

  ldb_fault_not_found s : ldb_fault s ≠ Some LDBErrNotFound;
  ldb_get_ok s k : ldb_fault s = None →
    ldb_get s k = match ldb_view s !! k with Some v => inl v | None => inr LDBErrNotFound end;
  ldb_get_fault s k e : ldb_fault s = Some e → ldb_get s k = inr e;
  ldb_has_ok s k : ldb_fault s = None → ldb_has s k = inl (bool_decide (is_Some (ldb_view s !! k)));
  ldb_has_fault s k e : ldb_fault s = Some e → ldb_has s k = inr e;
  ldb_put_ok s k v : ldb_fault s = None →
    (ldb_put s k v).2 = None ∧ ldb_fault (ldb_put s k v).1 = None ∧
    ldb_view (ldb_put s k v).1 = <[k := v]> (ldb_view s);
  ldb_put_fault s k v e : ldb_fault s = Some e → ldb_put s k v = (s, Some e);
  ldb_delete_ok s k : ldb_fault s = None →
    (ldb_delete s k).2 = None ∧ ldb_fault (ldb_delete s k).1 = None ∧
    ldb_view (ldb_delete s k).1 = delete k (ldb_view s);
  ldb_delete_fault s k e : ldb_fault s = Some e → ldb_delete s k = (s, Some e);
  ldb_write_ok s ops : ldb_fault s = None →
    (ldb_write s ops).2 = None ∧ ldb_fault (ldb_write s ops).1 = None ∧
    ldb_view (ldb_write s ops).1 = apply_ops ops (ldb_view s);
  ldb_write_fault s ops e : ldb_fault s = Some e → ldb_write s ops = (s, Some e);
  ldb_range_sorted s r : StronglySorted key_lt (ldb_range s r);
  ldb_range_elem s r k v : ldb_fault s = None →
    (k, v) ∈ ldb_range s r ↔ ldb_view s !! k = Some v ∧ in_range k r;
  ldb_range_fault s r e : ldb_fault s = Some e → ldb_range s r = [];
}.

(** ** Iterators

    A cursor over the snapshot taken when the iterator was created. *)
Inductive ipos := SOI | At (i : nat) | EOI.
Record Iterator := MkIter { it_items : list (bytes * bytes); it_pos : ipos }.

Definition iter_new (items : list (bytes * bytes)) : Iterator := MkIter items SOI.

Definition iter_Next (it : Iterator) : Iterator * bool :=
  let i := match it_pos it with SOI => Some 0 | At i => Some (S i) | EOI => None end in
  match i with
  | Some i => if decide (i < length (it_items it)) then (MkIter (it_items it) (At i), true)
              else (MkIter (it_items it) EOI, false)
  | None => (it, false)
  end.

Definition iter_Prev (it : Iterator) : Iterator * bool :=
  match it_pos it with
  | SOI => (it, false)
  | At O => (MkIter (it_items it) SOI, false)
  | At (S i) => (MkIter (it_items it) (At i), true)
  | EOI => match length (it_items it) with
           | O => (MkIter (it_items it) SOI, false)
           | S i => (MkIter (it_items it) (At i), true)
           end
  end.

(** [Seek] moves to the first key at or after [k]. *)
Fixpoint seek_index (k : bytes) (i : nat) (items : list (bytes * bytes)) : option nat :=
  match items with
  | [] => None
  | p :: rest => if bytes_leb k p.1 then Some i else seek_index k (S i) rest
  end.
Definition iter_Seek (k : bytes) (it : Iterator) : Iterator :=
  match seek_index k 0 (it_items it) with
  | Some i => MkIter (it_items it) (At i)
  | None => MkIter (it_items it) EOI
  end.

Definition iter_cur (it : Iterator) : option (bytes * bytes) :=
  match it_pos it with At i => it_items it !! i | _ => None end.

(** The records a loop [for iter.Next()] or [for iter.Prev()] visits; the
    number of records bounds the rounds. *)
Fixpoint iter_loop (move : Iterator → Iterator * bool) (fuel : nat) (it : Iterator) : list (bytes * bytes) :=
  match fuel with
  | O => []
  | S f =>
    match move it with
    | (it', true) => match iter_cur it' with Some p => p :: iter_loop move f it' | None => [] end
    | (_, false) => []
    end
  end.
Definition iter_forward (it : Iterator) : list (bytes * bytes) :=
  iter_loop iter_Next (length (it_items it)) it.
Definition iter_backward (it : Iterator) : list (bytes * bytes) :=
  iter_loop iter_Prev (length (it_items it)) it.

Lemma iter_loop_next_at items fuel i :
  length items ≤ fuel + S i → iter_loop iter_Next fuel (MkIter items (At i)) = drop (S i) items.
Proof.
  revert i. induction fuel as [|f IH]; intros i Hf; simpl; [by rewrite drop_ge by lia|].
  unfold iter_Next; simpl. case_decide as Hd.
  - unfold iter_cur; simpl. destruct (lookup_lt_is_Some_2 items (S i) Hd) as [p Hp].
    rewrite Hp, IH by lia. by erewrite (drop_S items p (S i)).
  - by rewrite drop_ge by lia.
Qed.

Lemma iter_loop_prev_at items fuel i :
  i ≤ fuel → i ≤ length items → iter_loop iter_Prev fuel (MkIter items (At i)) = reverse (take i items).
Proof.
  revert i. induction fuel as [|f IH]; intros i Hf Hl; [by assert (i = 0) as -> by lia|].
  destruct i as [|i]; [done|]. simpl. unfold iter_cur; simpl.
  destruct (lookup_lt_is_Some_2 items i ltac:(lia)) as [p Hp].
  rewrite Hp, IH by lia. by rewrite (take_S_r items i p), reverse_snoc.
Qed.

(** A fresh iterator visits the snapshot in order. *)
Lemma iter_forward_new items : iter_forward (iter_new items) = items.
Proof.
  unfold iter_forward, iter_new. destruct items as [|p items]; [done|]. simpl.
  unfold iter_cur; simpl. rewrite iter_loop_next_at by (simpl; lia). done.
Qed.

(** From the end the iterator visits it backwards, from record [i] what comes
    before [i]. *)
Lemma iter_backward_eoi items : iter_backward (MkIter items EOI) = reverse items.
Proof.
  unfold iter_backward. simpl. destruct (length items) as [|l] eqn:E.
  { by apply nil_length_inv in E as ->. }
  simpl. unfold iter_Prev; simpl. rewrite E. unfold iter_cur; simpl.
  destruct (lookup_lt_is_Some_2 items l ltac:(lia)) as [p Hp].
  rewrite Hp, iter_loop_prev_at by lia.
  rewrite <- (reverse_snoc (take l items) p), <- (take_S_r items l p) by done.
  by rewrite take_ge by lia.
Qed.

Lemma iter_backward_at items i :
  i ≤ length items → iter_backward (MkIter items (At i)) = reverse (take i items).
Proof. intros. by apply iter_loop_prev_at. Qed.

(** ** Prefix ranges *)

Lemma prefix_limit_none p : prefix_limit p = None → Forall (λ c, byteZ c = 255%Z) p.
Proof.
  induction p as [|c p IH]; simpl; [done|]. case_match; [done|].
  destruct (Z.ltb_spec (byteZ c) 255); [done|]. intros _.
  pose proof (byteZ_range c). constructor; [lia|auto].
Qed.

Lemma no_limit_prefix p k : Forall (λ c, byteZ c = 255%Z) p → bytes_le p k → p `prefix_of` k.
Proof.
  intros Hp. revert k. induction Hp as [|c p Hc _ IH]; intros k Hk; [apply prefix_nil|].
  destruct k as [|d k]; [done|]. unfold bytes_le in *; simpl in Hk.
  pose proof (byteZ_range d).
  destruct (Z.compare_spec (byteZ c) (byteZ d)) as [E|?|?]; [|lia|done].
  rewrite (byteZ_inj _ _ E). by apply prefix_cons, IH.
Qed.

Lemma bytes_le_app p r : bytes_le p (p ++ r).
Proof.
  unfold bytes_le. induction p as [|c p IH]; simpl; [by destruct r|]. by rewrite Z.compare_refl.
Qed.

Lemma prefix_limit_above p r l : prefix_limit p = Some l → bytes_lt (p ++ r) l.
Proof.
  revert l. induction p as [|c p IH]; intros l; simpl; [done|].
  destruct (prefix_limit p) as [l'|].
  - intros [= <-]. unfold bytes_lt in *; simpl. rewrite Z.compare_refl. by apply IH.
  - destruct (Z.ltb_spec (byteZ c) 255); [|done]. intros [= <-].
    unfold bytes_lt; simpl. pose proof (byteZ_range c). rewrite byteZ_of_Z, Z.mod_small by lia.
    destruct (Z.compare_spec (byteZ c) (byteZ c + 1)); [lia|done|lia].
Qed.

Lemma limit_prefix p k l : prefix_limit p = Some l → bytes_le p k → bytes_lt k l → p `prefix_of` k.
Proof.
  revert k l. induction p as [|c p IH]; intros k l El Hs Hl; [apply prefix_nil|].
  destruct k as [|d k]; [done|]. simpl in El. unfold bytes_le, bytes_lt in *; simpl in Hs.
  destruct (prefix_limit p) as [l'|] eqn:Ep.
  - injection El as <-. simpl in Hl. rewrite Z.compare_antisym in Hl.
    destruct (Z.compare_spec (byteZ c) (byteZ d)) as [Ec|?|?]; simpl in Hl; [|done..].
    rewrite (byteZ_inj _ _ Ec). apply prefix_cons. by eapply IH.
  - destruct (Z.ltb_spec (byteZ c) 255); [|done]. injection El as <-. simpl in Hl.
    rewrite byteZ_of_Z, Z.mod_small in Hl by (pose proof (byteZ_range c); lia).
    destruct (Z.compare_spec (byteZ c) (byteZ d)) as [Ec|?|?]; [| |done].
    + rewrite (byteZ_inj _ _ Ec). apply prefix_cons, no_limit_prefix; [by apply prefix_limit_none|done].
    + destruct (Z.compare_spec (byteZ d) (byteZ c + 1)); [by destruct k|lia|done].
Qed.

(** A key is in the range of a prefix exactly when it starts with it. *)
Lemma in_range_BytesPrefix p k : in_range k (BytesPrefix p) ↔ p `prefix_of` k.
Proof.
  unfold in_range, BytesPrefix; simpl. split.
  - intros [Hs Hl]. destruct (prefix_limit p) as [l|] eqn:E; [by eapply limit_prefix|].
    apply no_limit_prefix; [by apply prefix_limit_none|done].
  - intros [r ->]. split; [apply bytes_le_app|].
    destruct (prefix_limit p) eqn:E; [|done]. by apply prefix_limit_above.
Qed.

(** ** Ordered lists of records *)

#[global] Instance key_lt_trans : Transitive key_lt.
Proof. intros p q r. apply bytes_lt_trans. Qed.

Lemma key_sorted_nodup l : StronglySorted key_lt l → NoDup l.*1.
Proof.
  induction 1 as [|p l _ IH Hp]; csimpl; constructor; [|done].
  intros (q & Eq & Hq)%list_elem_of_fmap_1. rewrite Forall_forall in Hp. specialize (Hp q Hq).
  unfold key_lt in Hp. rewrite <- Eq in Hp. by apply bytes_lt_irrefl in Hp.
Qed.

(** Two ordered lists with the same records are the same list. *)
Lemma key_sorted_unique l1 l2 :
  StronglySorted key_lt l1 → StronglySorted key_lt l2 → (∀ p, p ∈ l1 ↔ p ∈ l2) → l1 = l2.
Proof.
  intros H1. revert l2. induction H1 as [|p l1 H1 IH Hp]; intros l2 H2 He.
  - destruct l2 as [|q l2]; [done|]. exfalso. apply (not_elem_of_nil q), He. by left.
  - destruct H2 as [|q l2 H2 Hq].
    { exfalso. apply (not_elem_of_nil p), He. by left. }
    rewrite Forall_forall in Hp, Hq.
    pose proof (proj1 (He p) ltac:(by left)) as Hpin. pose proof (proj2 (He q) ltac:(by left)) as Hqin.
    rewrite elem_of_cons in Hpin, Hqin.
    assert (p = q) as ->.
    { destruct Hpin as [->|Hpin]; [done|]. destruct Hqin as [->|Hqin]; [done|].
      exfalso. eapply bytes_lt_irrefl, bytes_lt_trans; [apply (Hp _ Hqin)|apply (Hq _ Hpin)]. }
    f_equal. apply IH; [done|]. intros x. specialize (He x). rewrite !elem_of_cons in He.
    split; intros Hx.
    + destruct (proj1 He (or_intror Hx)) as [->|]; [|done]. by apply Hp, bytes_lt_irrefl in Hx.
    + destruct (proj2 He (or_intror Hx)) as [->|]; [|done]. by apply Hq, bytes_lt_irrefl in Hx.
Qed.

(** ** A store in memory *)

Record mem_store := MkMem { mem_map : gmap bytes bytes; mem_closed : bool }.

Definition key_le (p q : bytes * bytes) : Prop := bytes_le p.1 q.1.
#[global] Instance key_le_dec : RelDecision key_le.
Proof. intros p q. unfold key_le. apply _. Defined.
#[global] Instance key_le_trans : Transitive key_le.
Proof. intros p q r. unfold key_le. apply transitivity. Qed.
#[global] Instance key_le_total : Total key_le.
Proof. intros p q. unfold key_le. apply total. apply _. Qed.

Definition mem_range (s : mem_store) (r : Range) : list (bytes * bytes) :=
  if mem_closed s then [] else
  merge_sort key_le (filter (λ p, in_range p.1 r) (map_to_list (mem_map s))).

Lemma key_le_lt_sorted l : StronglySorted key_le l → NoDup l.*1 → StronglySorted key_lt l.
Proof.
  induction 1 as [|p l Hs IH Hp]; csimpl; [constructor|]. intros [Hn Hd]%NoDup_cons.
  constructor; [by apply IH|]. rewrite Forall_forall in *. intros q Hq. specialize (Hp q Hq).
  unfold key_le, key_lt in *. apply bytes_le_lteq in Hp as [?|E]; [done|]. exfalso. apply Hn.
  rewrite E. by apply list_elem_of_fmap_2.
Qed.

Lemma mem_range_sorted s r : StronglySorted key_lt (mem_range s r).
Proof.
  unfold mem_range. destruct (mem_closed s); [constructor|].
  apply key_le_lt_sorted; [apply StronglySorted_merge_sort; apply _|].
  rewrite merge_sort_Permutation. eapply sublist_NoDup; [apply (NoDup_fst_map_to_list (mem_map s))|].
  apply fmap_sublist, sublist_filter.
Qed.

Lemma mem_range_elem s r k v :
  mem_closed s = false → (k, v) ∈ mem_range s r ↔ mem_map s !! k = Some v ∧ in_range k r.
Proof.
  intros Hc. unfold mem_range. rewrite Hc, merge_sort_Permutation.
  rewrite list_elem_of_filter, elem_of_map_to_list. simpl. tauto.
Qed.

Definition mem_do (s : mem_store) (m : gmap bytes bytes) : mem_store * option GoErr :=
  if mem_closed s then (s, Some LDBErrClosed) else (MkMem m false, None).

Definition mem_get (s : mem_store) (k : bytes) : bytes + GoErr :=
  if mem_closed s then inr LDBErrClosed else
  match mem_map s !! k with Some v => inl v | None => inr LDBErrNotFound end.

#[global, program] Instance mem_leveldb : LevelDB mem_store := {|
  ldb_view := mem_map;
  ldb_fault s := if mem_closed s then Some LDBErrClosed else None;
  ldb_get := mem_get;
  ldb_has s k := if mem_closed s then inr LDBErrClosed else
    inl (bool_decide (is_Some (mem_map s !! k)));
  ldb_put s k v := mem_do s (<[k := v]> (mem_map s));
  ldb_delete s k := mem_do s (delete k (mem_map s));
  ldb_write s ops := mem_do s (apply_ops ops (mem_map s));
  ldb_range := mem_range |}.
Next Obligation. intros s. unfold mem_do, mem_get; simpl. destruct (mem_closed s); naive_solver. Qed.
Next Obligation. intros s k. unfold mem_do, mem_get; simpl. destruct (mem_closed s); naive_solver. Qed.
Next Obligation. intros s k e. unfold mem_do, mem_get; simpl. destruct (mem_closed s); congruence. Qed.
Next Obligation. intros s k. unfold mem_do, mem_get; simpl. destruct (mem_closed s); naive_solver. Qed.
Next Obligation. intros s k e. unfold mem_do, mem_get; simpl. destruct (mem_closed s); congruence. Qed.
Next Obligation. intros s k v. unfold mem_do, mem_get; simpl. destruct (mem_closed s); naive_solver. Qed.
Next Obligation. intros s k v e. unfold mem_do, mem_get; simpl. destruct (mem_closed s); congruence. Qed.
Next Obligation. intros s k. unfold mem_do, mem_get; simpl. destruct (mem_closed s); naive_solver. Qed.
Next Obligation. intros s k e. unfold mem_do, mem_get; simpl. destruct (mem_closed s); congruence. Qed.
Next Obligation. intros s ops. unfold mem_do, mem_get; simpl. destruct (mem_closed s); naive_solver. Qed.
Next Obligation. intros s ops e. unfold mem_do, mem_get; simpl. destruct (mem_closed s); congruence. Qed.
Next Obligation. apply mem_range_sorted. Qed.
Next Obligation. intros s r k v. unfold mem_do, mem_get; simpl. intros H. apply mem_range_elem. destruct (mem_closed s); naive_solver. Qed.
Next Obligation. intros s r e. unfold mem_range, mem_do, mem_get; simpl. destruct (mem_closed s); naive_solver. Qed.

Definition mem_empty : mem_store := MkMem ∅ false.

(** ** Consequences used by the clients *)

Section ldb.
Context {S : Type} `{LevelDB S}.

(** The store is in working order. *)
Definition healthy (s : S) : Prop := ldb_fault s = None.

Lemma ldb_put_view s k v : healthy s → ldb_view (ldb_put s k v).1 = <[k := v]> (ldb_view s).
Proof. intros Hs. by apply ldb_put_ok. Qed.
Lemma ldb_put_healthy s k v : healthy s → healthy (ldb_put s k v).1.
Proof. intros Hs. by apply ldb_put_ok. Qed.
Lemma ldb_delete_view s k : healthy s → ldb_view (ldb_delete s k).1 = delete k (ldb_view s).
Proof. intros Hs. by apply ldb_delete_ok. Qed.
Lemma ldb_delete_healthy s k : healthy s → healthy (ldb_delete s k).1.
Proof. intros Hs. by apply ldb_delete_ok. Qed.
Lemma ldb_write_view s ops : healthy s → ldb_view (ldb_write s ops).1 = apply_ops ops (ldb_view s).
Proof. intros Hs. by apply ldb_write_ok. Qed.
Lemma ldb_write_healthy s ops : healthy s → healthy (ldb_write s ops).1.
Proof. intros Hs. by apply ldb_write_ok. Qed.

(** A run of deletes, errors ignored, as in [for ... { db.Delete(key) }]. *)
Definition ldb_delete_all (s : S) (ks : list bytes) : S := foldl (λ s k, (ldb_delete s k).1) s ks.
Definition del_keys (ks : list bytes) (m : gmap bytes bytes) : gmap bytes bytes :=
  foldl (λ m k, delete k m) m ks.

Lemma ldb_delete_all_ok s ks :
  healthy s → healthy (ldb_delete_all s ks) ∧ ldb_view (ldb_delete_all s ks) = del_keys ks (ldb_view s).
Proof.
  unfold ldb_delete_all, del_keys. revert s. induction ks as [|k ks IH]; intros s Hs; simpl; [done|].
  destruct (IH (ldb_delete s k).1) as [H1 H2]; [by apply ldb_delete_healthy|].
  split; [done|]. by rewrite H2, ldb_delete_view.
Qed.

Lemma ldb_delete_all_fault s ks e : ldb_fault s = Some e → ldb_delete_all s ks = s.
Proof.
  intros Hf. unfold ldb_delete_all. induction ks as [|k ks IH]; simpl; [done|].
  by rewrite (ldb_delete_fault s k e Hf).
Qed.
End ldb.

Lemma lookup_del_keys ks m k : del_keys ks m !! k = if decide (k ∈ ks) then None else m !! k.
Proof.
  unfold del_keys. revert m. induction ks as [|k' ks IH]; intros m; simpl.
  { done. }
  rewrite IH. destruct (decide (k ∈ k' :: ks)) as [Hin|Hin]; rewrite elem_of_cons in Hin.
  - destruct (decide (k ∈ ks)); [done|]. destruct Hin as [->|]; [|done]. by rewrite lookup_delete_eq.
  - rewrite decide_False by tauto. rewrite lookup_delete_ne by naive_solver. done.
Qed.

#[export] Hint Resolve ldb_put_healthy ldb_delete_healthy ldb_write_healthy : ptt.
