(* ===== verification/PttDB.v ===== *)
(** * The database layer: [pttdb/{ldb_database,index,dbable,types,utils}.go]

    [LDBDatabase] is a goleveldb store with a table of key locks; [LDBBatch]
    stores indexed records: an index key maps to an [Index], which lists the
    keys the record is stored under.  The operations are modelled whole, with
    the lock they take and release and every error they return. *)

From S2P Require Import Prelude GoTime Locks LevelDB.

Set Default Goal Selector "!".

(** ** Data *)

(** [Index]: a [nil] slice of keys is [None], a [nil] key is [None]. *)
Record Index := MkIndex { Keys : option (list (option bytes)); UpdateTS : Timestamp }.

#[global] Instance Index_eq_dec : EqDecision Index.
Proof. solve_decision. Defined.

Record KeyVal := MkKV { K : option bytes; V : bytes }.

Inductive ListOrder := ListOrderPrev | ListOrderNext.

Definition SizeDBKeyPrefix : nat := 5.

(** A [nil] key is the empty key to goleveldb. *)
Definition key_of (k : option bytes) : bytes := default [] k.
Definition idx_keys (i : Index) : list bytes := key_of <$> default [] (Keys i).

(** The JSON encoding of [Index] and of [DBable]: [encoding/json] gives back
    the value it encoded. *)
Class Json := {
  Index_Marshal : Index → bytes;
  Index_Unmarshal : bytes → option Index;
  DBable_Marshal : Timestamp → bytes;
  DBable_Unmarshal : bytes → option Timestamp;
  Index_roundtrip i : Index_Unmarshal (Index_Marshal i) = Some i;
  DBable_roundtrip t : DBable_Unmarshal (DBable_Marshal t) = Some t;
}.

(** ** Key locks *)

Definition TryLockMap (l : locktab) (key : bytes) : outcome locktab :=
  match l !! key with Some _ => Err DBErrBusy | None => Ok (<[key := (-1)%Z]> l) end.

Definition UnlockMap (l : locktab) (key : bytes) : outcome locktab :=
  match l !! key with None => Err DBErrInvalidLock | Some _ => Ok (delete key l) end.

Definition TryRLockMap (l : locktab) (key : bytes) : outcome locktab :=
  match l !! key with
  | Some i => if (i <? 0)%Z then Err DBErrBusy else Ok (<[key := (i + 1)%Z]> l)
  | None => Ok (<[key := (0 + 1)%Z]> (<[key := 0%Z]> l))
  end.

Definition RUnlockMap (l : locktab) (key : bytes) : outcome locktab :=
  match l !! key with
  | None => Panic
  | Some i =>
    if (i =? 0)%Z then Panic
    else let l := <[key := (i - 1)%Z]> l in Ok (if (i =? 1)%Z then delete key l else l)
  end.

#[global, program] Instance LDB_rwlock : RWLock := {|
  rw_tryLock := TryLockMap; rw_unlock := UnlockMap;
  rw_tryRLock := TryRLockMap; rw_rUnlock := RUnlockMap; rw_busy := DBErrBusy |}.
Next Obligation. intros l k E. unfold TryLockMap. by rewrite E. Qed.
Next Obligation. intros l k v E. unfold TryLockMap. by rewrite E. Qed.
Next Obligation. intros l k E. unfold UnlockMap. by rewrite E. Qed.
Next Obligation. intros l k E. unfold TryRLockMap. rewrite E. by rewrite insert_insert_eq. Qed.
Next Obligation. intros l k v E Hv. unfold TryRLockMap. rewrite E. by rewrite (proj2 (Z.ltb_ge v 0)). Qed.
Next Obligation. intros l k v E Hv. unfold TryRLockMap. rewrite E. by rewrite (proj2 (Z.ltb_lt v 0)). Qed.
Next Obligation. intros l k E. unfold RUnlockMap. rewrite E. simpl. by rewrite delete_insert_eq. Qed.
Next Obligation.
  intros l k v E Hv. unfold RUnlockMap. rewrite E.
  rewrite (proj2 (Z.eqb_neq v 0)), (proj2 (Z.eqb_neq v 1)) by lia. done.
Qed.

(** ** [LDBDatabase] *)

Section DB.
Context {S : Type} `{LevelDB S, Json}.

Record LDBDatabase := MkDB { db : S; lockMap : locktab }.

Definition set_db (d : LDBDatabase) (s : S) : LDBDatabase := MkDB s (lockMap d).

(** [TryLockMap(key)], return on error, [defer UnlockMap(key)], then [body]. *)
Definition with_lock {A} (d : LDBDatabase) (key : bytes) (fail : GoErr → A)
    (body : LDBDatabase → LDBDatabase * A) : LDBDatabase * outcome A :=
  match TryLockMap (lockMap d) key with
  | Err e => (d, Ok (fail e))
  | Panic => (d, Panic)
  | Ok l =>
    let '(d', a) := body (MkDB (db d) l) in
    match UnlockMap (lockMap d') key with
    | Ok l' => (MkDB (db d') l', Ok a)
    | _ => (d', Ok a)
    end
  end.

(** The same with the read lock; [RUnlockMap] panics on a lock it does not
    find. *)
Definition with_rlock {A} (d : LDBDatabase) (key : bytes) (body : S → outcome A) : LDBDatabase * outcome A :=
  match TryRLockMap (lockMap d) key with
  | Err e => (d, Err e)
  | Panic => (d, Panic)
  | Ok l =>
    let r := body (db d) in
    match RUnlockMap l key with
    | Ok l' => (MkDB (db d) l', r)
    | Err _ => (MkDB (db d) l, r)
    | Panic => (MkDB (db d) l, Panic)
    end
  end.

Definition of_sum {A} (x : A + GoErr) : outcome A :=
  match x with inl a => Ok a | inr e => Err e end.

Definition Put (d : LDBDatabase) (key value : bytes) : LDBDatabase * option GoErr :=
  let '(s, e) := ldb_put (db d) key value in (set_db d s, e).
Definition Has (d : LDBDatabase) (key : bytes) : bool + GoErr := ldb_has (db d) key.
Definition Get (d : LDBDatabase) (key : bytes) : bytes + GoErr := ldb_get (db d) key.
Definition Delete (d : LDBDatabase) (key : bytes) : LDBDatabase * option GoErr :=
  let '(s, e) := ldb_delete (db d) key in
  (set_db d s, if decide (e = Some LDBErrNotFound) then None else e).

(** A call that returns a value and an error. *)
Abbreviation ret A := (option A * option GoErr)%type.

Definition TryPut (d : LDBDatabase) (key value : bytes) (updateTS : Timestamp) :
    LDBDatabase * outcome (ret bytes) :=
  with_lock d key (λ e, (None, Some e)) (λ d,
    match Has d key with
    | inr e => (d, (None, Some e))
    | inl false => let '(d, err) := Put d key value in (d, (None, err))
    | inl true =>
      match Get d key with
      | inr e => (d, (None, Some e))
      | inl v =>
        match DBable_Unmarshal v with
        | None => (d, (None, Some DBErrInvalidDBable))
        | Some dUpdateTS =>
          if IsLess updateTS dUpdateTS then (d, (Some v, Some DBErrInvalidUpdateTS))
          else
            let '(d, err) := Put d key value in
            match err with Some e => (d, (None, Some e)) | None => (d, (Some v, None)) end
        end
      end
    end).

Definition Pop (d : LDBDatabase) (key : bytes) : LDBDatabase * outcome (ret bytes) :=
  with_lock d key (λ e, (None, Some e)) (λ d,
    match Get d key with
    | inr e => (d, (None, Some e))
    | inl val =>
      let '(d, err) := Delete d key in
      match err with Some e => (d, (None, Some e)) | None => (d, (Some val, None)) end
    end).

(** ** Iterators *)

Definition dbLastKey : bytes := [xff].
Definition full_range : Range := MkRange None None.

Definition NewIterator (d : LDBDatabase) (order : ListOrder) : Iterator :=
  let it := iter_new (ldb_range (db d) full_range) in
  match order with ListOrderPrev => iter_Seek dbLastKey it | ListOrderNext => it end.

Definition NewIteratorWithRange (d : LDBDatabase) (r : Range) (order : ListOrder) : Iterator :=
  let it := iter_new (ldb_range (db d) r) in
  match order with
  | ListOrderPrev => iter_Seek (default [] (rLimit r)) it
  | ListOrderNext => it
  end.

(** [nil] and empty slices are both of length zero. *)
Definition NewIteratorWithPrefix (d : LDBDatabase) (start prefix : bytes) (order : ListOrder) : outcome Iterator :=
  match start, prefix with
  | [], [] => Ok (NewIterator d order)
  | [], _ => Ok (NewIteratorWithRange d (BytesPrefix prefix) order)
  | _, [] =>
    let startRange := BytesPrefix start in
    let r := match order with
             | ListOrderPrev => MkRange None (rLimit startRange)
             | ListOrderNext => MkRange (rStart startRange) None
             end in
    Ok (NewIteratorWithRange d r order)
  | _, _ =>
    if decide (prefix `prefix_of` start) then
      let startRange := BytesPrefix start in
      let prefixRange := BytesPrefix prefix in
      let r := match order with
               | ListOrderPrev => MkRange (rStart prefixRange) (rLimit startRange)
               | ListOrderNext => MkRange (rStart startRange) (rLimit prefixRange)
               end in
      Ok (NewIteratorWithRange d r order)
    else Err DBErrInvalidPrefix
  end.

(** [GetFuncIter]: the records a loop in the given order visits. *)
Definition iter_list (order : ListOrder) (it : Iterator) : list (bytes * bytes) :=
  match order with ListOrderNext => iter_forward it | ListOrderPrev => iter_backward it end.

(** [GetIterByID] *)
Definition GetIterByID (d : LDBDatabase) (prefix idxPrefix : bytes) (startID : option bytes)
    (order : ListOrder) : outcome Iterator :=
  match startID with
  | None => NewIteratorWithPrefix d [] prefix order
  | Some id =>
    match Get d (idxPrefix ++ id) with
    | inr e => Err e
    | inl key => NewIteratorWithPrefix d key prefix order
    end
  end.

(** ** [LDBBatch] *)

(** The batch and the sum of the value sizes it reports. *)
Record LDBBatch := MkBatch { bdb : LDBDatabase; bops : list batch_op; bsize : Z }.

Definition NewLDBBatch (d : LDBDatabase) : LDBBatch := MkBatch d [] 0.
Definition batch_Put (b : LDBBatch) (key : option bytes) (value : bytes) : LDBBatch :=
  MkBatch (bdb b) (bops b ++ [BPut (key_of key) value]) (bsize b + Z.of_nat (length value)).
Definition batch_Delete (b : LDBBatch) (key : option bytes) : LDBBatch :=
  MkBatch (bdb b) (bops b ++ [BDel (key_of key)]) (bsize b).
Definition batch_Write (b : LDBBatch) : LDBBatch * option GoErr :=
  let '(s, e) := ldb_write (db (bdb b)) (bops b) in
  (MkBatch (set_db (bdb b) s) (bops b) (bsize b), e).
Definition batch_Reset (b : LDBBatch) : LDBBatch := MkBatch (bdb b) [] 0.

Definition PutAll (b : LDBBatch) (kvs : list KeyVal) (isInit : bool) : LDBBatch * option GoErr :=
  let b := if isInit then batch_Reset b else b in
  let b := foldl (λ b kv, batch_Put b (K kv) (V kv)) b kvs in
  let '(b, err) := batch_Write b in
  match err with Some e => (b, Some e) | None => (batch_Reset b, None) end.

Definition PutAllWithKeyIndex (b : LDBBatch) (key : bytes) (idx : Index) (kvs : list KeyVal) :
    LDBBatch * option GoErr :=
  let b := batch_Reset b in
  let b := batch_Put b (Some key) (Index_Marshal idx) in
  PutAll b kvs false.

(** [with_lock] over the database of a batch. *)
Definition batch_lock {A} (b : LDBBatch) (key : bytes) (fail : GoErr → A)
    (body : LDBBatch → LDBBatch * A) : LDBBatch * outcome A :=
  match TryLockMap (lockMap (bdb b)) key with
  | Err e => (b, Ok (fail e))
  | Panic => (b, Panic)
  | Ok l =>
    let '(b', a) := body (MkBatch (MkDB (db (bdb b)) l) (bops b) (bsize b)) in
    match UnlockMap (lockMap (bdb b')) key with
    | Ok l' => (MkBatch (MkDB (db (bdb b')) l') (bops b') (bsize b'), Ok a)
    | _ => (b', Ok a)
    end
  end.

(** [for _, eachKey := range keys { db.Delete(eachKey) }] *)
Definition delete_keys (b : LDBBatch) (ks : list bytes) : LDBBatch :=
  MkBatch (set_db (bdb b) (ldb_delete_all (db (bdb b)) ks)) (bops b) (bsize b).

(** The loop of [TryPutAll] that reads the original records; the first error
    ends it. *)
Fixpoint get_origs (d : LDBDatabase) (ks : list (option bytes)) : list KeyVal + GoErr :=
  match ks with
  | [] => inl []
  | k :: ks' =>
    match Get d (key_of k) with
    | inr e => inr e
    | inl v => match get_origs d ks' with inr e => inr e | inl l => inl (MkKV k v :: l) end
    end
  end.

Definition TryPutAll (b : LDBBatch) (idxKey : bytes) (idx : Index) (kvs : list KeyVal)
    (isDeleteOrig isGetOrig : bool) : LDBBatch * outcome (ret (list KeyVal)) :=
  batch_lock b idxKey (λ e, (None, Some e)) (λ b,
    match Has (bdb b) idxKey with
    | inr e => (b, (None, Some e))
    | inl false => let '(b, err) := PutAllWithKeyIndex b idxKey idx kvs in (b, (None, err))
    | inl true =>
      match Get (bdb b) idxKey with
      | inr e => (b, (None, Some e))
      | inl v =>
        match Index_Unmarshal v with
        | None => (b, (None, Some DBErrInvalidDBable))
        | Some d =>
          match (if isGetOrig then
                   match get_origs (bdb b) (default [] (Keys d)) with inl l => inl (Some l) | inr e => inr e end
                 else inl None) with
          | inr e => (b, (None, Some e))
          | inl origKVs =>
            if IsLess (UpdateTS idx) (UpdateTS d) then (b, (origKVs, Some DBErrInvalidUpdateTS)) else
            let b := if isDeleteOrig then delete_keys b (idx_keys d) else b in
            let '(b, err) := PutAllWithKeyIndex b idxKey idx kvs in
            match err with Some e => (b, (None, Some e)) | None => (b, (origKVs, None)) end
          end
        end
      end
    end).

Definition TryPutAllSameUT (b : LDBBatch) (idxKey : bytes) (idx : Index) (kvs : list KeyVal)
    (isDeleteOrig : bool) : LDBBatch * outcome (ret (list (option bytes))) :=
  batch_lock b idxKey (λ e, (None, Some e)) (λ b,
    match Has (bdb b) idxKey with
    | inr e => (b, (None, Some e))
    | inl false => let '(b, err) := PutAllWithKeyIndex b idxKey idx kvs in (b, (None, err))
    | inl true =>
      match Get (bdb b) idxKey with
      | inr e => (b, (None, Some e))
      | inl v =>
        match Index_Unmarshal v with
        | None => (b, (None, Some DBErrInvalidDBable))
        | Some d =>
          if IsLess (UpdateTS idx) (UpdateTS d) then (b, (Keys d, Some DBErrInvalidUpdateTS)) else
          if decide (UpdateTS idx = UpdateTS d ∧ d ≠ idx) then (b, (Keys d, Some DBErrInvalidUpdateTS)) else
          let b := if isDeleteOrig then delete_keys b (idx_keys d) else b in
          let '(b, err) := PutAllWithKeyIndex b idxKey idx kvs in
          match err with Some e => (b, (None, Some e)) | None => (b, (Keys d, None)) end
        end
      end
    end).

Definition ForcePutAll (b : LDBBatch) (idxKey : bytes) (idx : Index) (kvs : list KeyVal) :
    LDBBatch * outcome (ret (list (option bytes))) :=
  batch_lock b idxKey (λ e, (None, Some e)) (λ b,
    match Has (bdb b) idxKey with
    | inr e => (b, (None, Some e))
    | inl false => let '(b, err) := PutAllWithKeyIndex b idxKey idx kvs in (b, (None, err))
    | inl true =>
      match Get (bdb b) idxKey with
      | inr e => (b, (None, Some e))
      | inl v =>
        match Index_Unmarshal v with
        | None => (b, (None, Some DBErrInvalidDBable))
        | Some d =>
          let b := delete_keys b (idx_keys d) in
          let '(b, err) := PutAllWithKeyIndex b idxKey idx kvs in
          match err with Some e => (b, (None, Some e)) | None => (b, (Keys d, None)) end
        end
      end
    end).

Definition DeleteAllKeys (b : LDBBatch) (keys : option (list (option bytes))) : LDBBatch :=
  match keys with None => b | Some ks => delete_keys b (key_of <$> ks) end.

Definition DeleteAll (b : LDBBatch) (idxKey : bytes) : LDBBatch * outcome (option GoErr) :=
  batch_lock b idxKey Some (λ b,
    match Get (bdb b) idxKey with
    | inr e => (b, if decide (e = LDBErrNotFound) then None else Some e)
    | inl v =>
      match Index_Unmarshal v with
      | None => (b, Some DBErrInvalidDBable)
      | Some d =>
        let b := delete_keys b (idx_keys d) in
        let '(d', err) := Delete (bdb b) idxKey in
        (MkBatch d' (bops b) (bsize b), err)
      end
    end).

(** [d.Keys == nil || len(d.Keys) <= idx || d.Keys[idx] == nil]; a negative
    [idx] indexes out of range. *)
Definition index_key (d : Index) (idx : Z) : outcome bytes :=
  match Keys d with
  | None => Err DBErrInvalidKeys
  | Some ks =>
    if (Z.of_nat (length ks) <=? idx)%Z then Err DBErrInvalidKeys else
    if (idx <? 0)%Z then Panic else
    match ks !! Z.to_nat idx with
    | Some (Some k) => Ok k
    | _ => Err DBErrInvalidKeys
    end
  end.

Definition GetKeyByIdxKey (b : LDBBatch) (idxKey : bytes) (idx : Z) : LDBBatch * outcome bytes :=
  let '(d, r) := with_rlock (bdb b) idxKey (λ s,
    v ← of_sum (ldb_get s idxKey);
    match Index_Unmarshal v with
    | None => Err DBErrInvalidDBable
    | Some d => index_key d idx
    end) in
  (MkBatch d (bops b) (bsize b), r).

Definition GetByIdxKey (b : LDBBatch) (idxKey : bytes) (idx : Z) : LDBBatch * outcome bytes :=
  let '(d, r) := with_rlock (bdb b) idxKey (λ s,
    v ← of_sum (ldb_get s idxKey);
    match Index_Unmarshal v with
    | None => Err DBErrInvalidDBable
    | Some d => k ← index_key d idx; of_sum (ldb_get s k)
    end) in
  (MkBatch d (bops b) (bsize b), r).

Definition GetBy2ndIdxKey (b : LDBBatch) (idxKey : bytes) : LDBBatch * outcome bytes :=
  let '(d, r) := with_rlock (bdb b) idxKey (λ s,
    key ← of_sum (ldb_get s idxKey); of_sum (ldb_get s key)) in
  (MkBatch d (bops b) (bsize b), r).

Definition GetKeyBy2ndIdxKey (b : LDBBatch) (idxKey : bytes) : LDBBatch * outcome bytes :=
  let '(d, r) := with_rlock (bdb b) idxKey (λ s, of_sum (ldb_get s idxKey)) in
  (MkBatch d (bops b) (bsize b), r).

(** ** The abstract store

    What the operations do to the contents, as functions on a finite map. *)

Implicit Types (m : gmap bytes bytes) (b : LDBBatch) (d : LDBDatabase).

(** The record under [idxKey]: its index and its key-values. *)
Definition put_record (idxKey : bytes) (idx : Index) (kvs : list KeyVal) m : gmap bytes bytes :=
  foldl (λ m kv, <[key_of (K kv) := V kv]> m) (<[idxKey := Index_Marshal idx]> m) kvs.

(** The index stored under a key: absent, unreadable or an [Index]. *)
Definition stored m (idxKey : bytes) : option (option Index) := Index_Unmarshal <$> m !! idxKey.

Definition spec_ForcePutAll (idxKey : bytes) (idx : Index) (kvs : list KeyVal) m :
    gmap bytes bytes * ret (list (option bytes)) :=
  match stored m idxKey with
  | None => (put_record idxKey idx kvs m, (None, None))
  | Some None => (m, (None, Some DBErrInvalidDBable))
  | Some (Some old) => (put_record idxKey idx kvs (del_keys (idx_keys old) m), (Keys old, None))
  end.

Definition spec_TryPutAllSameUT (idxKey : bytes) (idx : Index) (kvs : list KeyVal) (isDeleteOrig : bool) m :
    gmap bytes bytes * ret (list (option bytes)) :=
  match stored m idxKey with
  | None => (put_record idxKey idx kvs m, (None, None))
  | Some None => (m, (None, Some DBErrInvalidDBable))
  | Some (Some old) =>
    if decide (ts_lt (UpdateTS idx) (UpdateTS old) ∨ UpdateTS idx = UpdateTS old ∧ old ≠ idx) then
      (m, (Keys old, Some DBErrInvalidUpdateTS))
    else
      (put_record idxKey idx kvs (if isDeleteOrig then del_keys (idx_keys old) m else m), (Keys old, None))
  end.

Fixpoint spec_origs m (ks : list (option bytes)) : list KeyVal + GoErr :=
  match ks with
  | [] => inl []
  | k :: ks' =>
    match m !! key_of k with
    | None => inr LDBErrNotFound
    | Some v => match spec_origs m ks' with inr e => inr e | inl l => inl (MkKV k v :: l) end
    end
  end.

Definition spec_TryPutAll (idxKey : bytes) (idx : Index) (kvs : list KeyVal) (isDeleteOrig isGetOrig : bool) m :
    gmap bytes bytes * ret (list KeyVal) :=
  match stored m idxKey with
  | None => (put_record idxKey idx kvs m, (None, None))
  | Some None => (m, (None, Some DBErrInvalidDBable))
  | Some (Some old) =>
    match (if isGetOrig then
             match spec_origs m (default [] (Keys old)) with inl l => inl (Some l) | inr e => inr e end
           else inl None) with
    | inr e => (m, (None, Some e))
    | inl origs =>
      if decide (ts_lt (UpdateTS idx) (UpdateTS old)) then (m, (origs, Some DBErrInvalidUpdateTS))
      else (put_record idxKey idx kvs (if isDeleteOrig then del_keys (idx_keys old) m else m), (origs, None))
    end
  end.

Definition spec_DeleteAll (idxKey : bytes) m : gmap bytes bytes * option GoErr :=
  match stored m idxKey with
  | None => (m, None)
  | Some None => (m, Some DBErrInvalidDBable)
  | Some (Some old) => (delete idxKey (del_keys (idx_keys old) m), None)
  end.

Definition spec_TryPut (key value : bytes) (updateTS : Timestamp) m : gmap bytes bytes * ret bytes :=
  match m !! key with
  | None => (<[key := value]> m, (None, None))
  | Some v =>
    match DBable_Unmarshal v with
    | None => (m, (None, Some DBErrInvalidDBable))
    | Some ts => if decide (ts_lt updateTS ts) then (m, (Some v, Some DBErrInvalidUpdateTS))
                 else (<[key := value]> m, (Some v, None))
    end
  end.

(** ** Locks are taken and released *)

Definition bview b : gmap bytes bytes := ldb_view (db (bdb b)).
Definition blocks b : locktab := lockMap (bdb b).
Definition bhealthy b : Prop := healthy (db (bdb b)).

(** A body that leaves the lock table alone runs under the lock of [key] and
    the lock is gone afterwards. *)
Lemma batch_lock_ok {A} b key (fail : GoErr → A) body :
  let b1 := MkBatch (MkDB (db (bdb b)) (<[key := (-1)%Z]> (blocks b))) (bops b) (bsize b) in
  blocks b !! key = None → blocks (body b1).1 = blocks b1 →
  batch_lock b key fail body =
    (MkBatch (MkDB (db (bdb (body b1).1)) (blocks b)) (bops (body b1).1) (bsize (body b1).1), Ok (body b1).2).
Proof.
  intros b1 Hk Hb. unfold batch_lock, TryLockMap. unfold blocks in *. rewrite Hk. fold b1.
  destruct (body b1) as [b' a]. simpl in *. unfold UnlockMap. rewrite Hb. simpl.
  rewrite lookup_insert_eq. by rewrite delete_insert_id.
Qed.

(** A busy key: nothing happens and the error is returned. *)
Lemma batch_lock_busy {A} b key (fail : GoErr → A) body v :
  blocks b !! key = Some v → batch_lock b key fail body = (b, Ok (fail DBErrBusy)).
Proof. intros Hk. unfold batch_lock, TryLockMap. unfold blocks in *. by rewrite Hk. Qed.

Lemma with_lock_ok {A} d key (fail : GoErr → A) body :
  let d1 := MkDB (db d) (<[key := (-1)%Z]> (lockMap d)) in
  lockMap d !! key = None → lockMap (body d1).1 = lockMap d1 →
  with_lock d key fail body = (MkDB (db (body d1).1) (lockMap d), Ok (body d1).2).
Proof.
  intros d1 Hk Hb. unfold with_lock, TryLockMap. rewrite Hk. fold d1.
  destruct (body d1) as [d' a]. simpl in *. unfold UnlockMap. rewrite Hb. simpl.
  rewrite lookup_insert_eq. by rewrite delete_insert_id.
Qed.

(** The read lock is always balanced: the table is unchanged. *)
Lemma with_rlock_ok {A} d key (body : S → outcome A) :
  (∀ v, lockMap d !! key = Some v → (0 < v)%Z) →
  with_rlock d key body = (d, body (db d)).
Proof.
  intros Hk. destruct d as [s l]. unfold with_rlock, TryRLockMap; simpl in *.
  destruct (l !! key) as [v|] eqn:E.
  - specialize (Hk v eq_refl). rewrite (proj2 (Z.ltb_ge v 0)) by lia.
    unfold RUnlockMap. rewrite lookup_insert_eq.
    rewrite (proj2 (Z.eqb_neq (v + 1) 0)), (proj2 (Z.eqb_neq (v + 1) 1)) by lia.
    rewrite insert_insert_eq. replace (v + 1 - 1)%Z with v by lia. by rewrite insert_id.
  - unfold RUnlockMap. rewrite insert_insert_eq, lookup_insert_eq. simpl.
    by rewrite insert_insert_eq, delete_insert_id.
Qed.

(** ** Refinement *)

Definition kv_op (kv : KeyVal) : batch_op := BPut (key_of (K kv)) (V kv).

Lemma PutAll_ops b kvs :
  foldl (λ b kv, batch_Put b (K kv) (V kv)) b kvs =
    MkBatch (bdb b) (bops b ++ (kv_op <$> kvs))
      (foldl (λ n kv, n + Z.of_nat (length (V kv)))%Z (bsize b) kvs).
Proof.
  revert b. induction kvs as [|kv kvs IH]; intros b; csimpl; [destruct b; by rewrite app_nil_r|].
  rewrite IH. unfold batch_Put; simpl. by rewrite <- app_assoc.
Qed.

Lemma apply_kv_ops kvs m :
  apply_ops (kv_op <$> kvs) m = foldl (λ m kv, <[key_of (K kv) := V kv]> m) m kvs.
Proof. revert m. induction kvs as [|kv kvs IH]; intros m; csimpl; [done|]. apply IH. Qed.

(** On a working store the batch is written at once and the batch is empty
    again. *)
Lemma PutAllWithKeyIndex_ok b key idx kvs :
  bhealthy b →
  let r := PutAllWithKeyIndex b key idx kvs in
  r.2 = None ∧ bhealthy r.1 ∧ blocks r.1 = blocks b ∧ bops r.1 = [] ∧
  bview r.1 = put_record key idx kvs (bview b).
Proof.
  intros Hh. unfold PutAllWithKeyIndex, PutAll. cbv zeta. rewrite PutAll_ops. simpl.
  unfold batch_Write; simpl.
  destruct (ldb_write_ok (db (bdb b)) (BPut key (Index_Marshal idx) :: (kv_op <$> kvs)) Hh) as (He & Hf & Hv).
  destruct (ldb_write _ _) as [s e]. simpl in *. subst e. simpl.
  unfold bhealthy, blocks, bview, put_record; simpl. split_and!; try done.
  rewrite Hv. cbn [apply_ops foldl apply_op]. apply apply_kv_ops.
Qed.

Lemma PutAllWithKeyIndex_locks b key idx kvs : blocks (PutAllWithKeyIndex b key idx kvs).1 = blocks b.
Proof.
  unfold PutAllWithKeyIndex, PutAll. cbv zeta. rewrite PutAll_ops. simpl.
  unfold batch_Write; simpl. destruct (ldb_write _ _) as [s [e|]]; done.
Qed.

Lemma PutAllWithKeyIndex_fault b key idx kvs e :
  ldb_fault (db (bdb b)) = Some e →
  (PutAllWithKeyIndex b key idx kvs).2 = Some e ∧ bdb (PutAllWithKeyIndex b key idx kvs).1 = bdb b.
Proof.
  intros Hf. unfold PutAllWithKeyIndex, PutAll. cbv zeta. rewrite PutAll_ops. simpl.
  unfold batch_Write; simpl. rewrite (ldb_write_fault _ _ e Hf). simpl. by destruct (bdb b).
Qed.

Lemma delete_keys_ok b ks :
  bhealthy b → bhealthy (delete_keys b ks) ∧ bview (delete_keys b ks) = del_keys ks (bview b).
Proof. intros Hh. by apply ldb_delete_all_ok. Qed.

Lemma stored_cases b idxKey :
  bhealthy b →
  match stored (bview b) idxKey with
  | None => Has (bdb b) idxKey = inl false ∧ Get (bdb b) idxKey = inr LDBErrNotFound
  | Some o => ∃ v, Has (bdb b) idxKey = inl true ∧ Get (bdb b) idxKey = inl v ∧ Index_Unmarshal v = o
  end.
Proof.
  intros Hh. unfold stored, Has, Get, bview. rewrite ldb_has_ok, ldb_get_ok by done.
  destruct (ldb_view (db (bdb b)) !! idxKey) as [v|]; simpl; [by exists v|done].
Qed.

Lemma get_origs_ok d ks : healthy (db d) → get_origs d ks = spec_origs (ldb_view (db d)) ks.
Proof.
  intros Hh. induction ks as [|k ks IH]; simpl; [done|]. unfold Get. rewrite ldb_get_ok by done.
  destruct (ldb_view (db d) !! key_of k); [by rewrite IH|done].
Qed.

(** An operation of the batch refines a function on the contents: on a working
    store with [key] unlocked it returns what the function returns, changes
    the contents as the function does, leaves the store working and the lock
    table as it was. *)
Definition refines {A} (key : bytes) (op : LDBBatch → LDBBatch * outcome A)
    (sp : gmap bytes bytes → gmap bytes bytes * A) : Prop :=
  ∀ b, bhealthy b → blocks b !! key = None →
    (op b).2 = Ok (sp (bview b)).2 ∧ bview (op b).1 = (sp (bview b)).1 ∧
    bhealthy (op b).1 ∧ blocks (op b).1 = blocks b.

(** Enough to check the body that runs under the lock. *)
Lemma refines_lock {A} key (fail : GoErr → A) body sp :
  (∀ b, bhealthy b → (body b).2 = (sp (bview b)).2 ∧ bview (body b).1 = (sp (bview b)).1 ∧
     bhealthy (body b).1 ∧ blocks (body b).1 = blocks b) →
  refines key (λ b, batch_lock b key fail body) sp.
Proof.
  intros Hb b Hh Hk.
  pose (b1 := MkBatch (MkDB (db (bdb b)) (<[key := (-1)%Z]> (blocks b))) (bops b) (bsize b)).
  destruct (Hb b1 Hh) as (H1 & H2 & H3 & H4).
  rewrite (batch_lock_ok b key fail body Hk H4). fold b1. simpl.
  unfold bview, bhealthy, blocks in *; simpl in *. split_and!; try done. by rewrite H1.
Qed.
(** Case analysis of a body: on what is stored, then on the comparisons. *)
Ltac body_cases b idxKey Hh :=
  pose proof (stored_cases b idxKey Hh) as Hst;
  destruct (stored (bview b) idxKey) as [[old|]|];
  [ let E1 := fresh in let E2 := fresh in let E3 := fresh in
    destruct Hst as (v & E1 & E2 & E3); rewrite ?E1, ?E2, ?E3; clear E1 E2 E3
  | let E1 := fresh in let E2 := fresh in let E3 := fresh in
    destruct Hst as (v & E1 & E2 & E3); rewrite ?E1, ?E2, ?E3; simpl; done
  | let E1 := fresh in let E2 := fresh in
    destruct Hst as [E1 E2]; rewrite ?E1, ?E2; clear E1 E2 ].

(** Storing the record after the deletions: what both branches end with. *)
Lemma put_after_delete b key idx kvs (del : bool) ks :
  bhealthy b →
  let b1 := if del then delete_keys b ks else b in
  let r := PutAllWithKeyIndex b1 key idx kvs in
  r.2 = None ∧ bview r.1 = put_record key idx kvs (if del then del_keys ks (bview b) else bview b) ∧
  bhealthy r.1 ∧ blocks r.1 = blocks b.
Proof.
  intros Hh. cbv zeta. destruct (delete_keys_ok b ks Hh) as [Hd Hv].
  destruct (PutAllWithKeyIndex_ok (if del then delete_keys b ks else b) key idx kvs) as (H1 & H2 & H3 & _ & H5);
    [by destruct del|].
  split_and!; [done|rewrite H5; by destruct del; rewrite ?Hv|done|rewrite H3; by destruct del].
Qed.

Ltac after_put H :=
  let R := fresh in
  pose proof H as R; cbv zeta in R; simpl in R |- *;
  destruct (PutAllWithKeyIndex _ _ _ _) as [b' e]; simpl in R |- *;
  destruct R as (-> & ? & ? & ?); done.

Lemma ForcePutAll_refines idxKey idx kvs :
  refines idxKey (λ b, ForcePutAll b idxKey idx kvs) (spec_ForcePutAll idxKey idx kvs).
Proof.
  apply refines_lock. intros b Hh. unfold spec_ForcePutAll. body_cases b idxKey Hh.
  - after_put (put_after_delete b idxKey idx kvs true (idx_keys old) Hh).
  - after_put (put_after_delete b idxKey idx kvs false [] Hh).
Qed.

Lemma IsLess_decide a c {A} (x y : A) :
  (if IsLess a c then x else y) = (if decide (ts_lt a c) then x else y).
Proof.
  case_decide as Hd; rewrite <- IsLess_spec in Hd; [by rewrite Hd|].
  by apply not_true_is_false in Hd as ->.
Qed.

Lemma TryPutAll_refines idxKey idx kvs del getOrig :
  refines idxKey (λ b, TryPutAll b idxKey idx kvs del getOrig) (spec_TryPutAll idxKey idx kvs del getOrig).
Proof.
  apply refines_lock. intros b Hh. unfold spec_TryPutAll. body_cases b idxKey Hh.
  - rewrite get_origs_ok by done. fold (bview b).
    destruct (if getOrig then _ else _) as [origs|e]; [|done].
    rewrite IsLess_decide. case_decide; [done|].
    after_put (put_after_delete b idxKey idx kvs del (idx_keys old) Hh).
  - after_put (put_after_delete b idxKey idx kvs false [] Hh).
Qed.

Lemma TryPutAllSameUT_refines idxKey idx kvs del :
  refines idxKey (λ b, TryPutAllSameUT b idxKey idx kvs del) (spec_TryPutAllSameUT idxKey idx kvs del).
Proof.
  apply refines_lock. intros b Hh. unfold spec_TryPutAllSameUT. body_cases b idxKey Hh.
  - rewrite IsLess_decide. destruct (decide (ts_lt (UpdateTS idx) (UpdateTS old))) as [Hl|Hl].
    { rewrite decide_True by auto. done. }
    destruct (decide (UpdateTS idx = UpdateTS old ∧ old ≠ idx)) as [Hs|Hs].
    { rewrite decide_True by auto. done. }
    rewrite decide_False by tauto.
    after_put (put_after_delete b idxKey idx kvs del (idx_keys old) Hh).
  - after_put (put_after_delete b idxKey idx kvs false [] Hh).
Qed.

Lemma DeleteAll_refines idxKey : refines idxKey (λ b, DeleteAll b idxKey) (spec_DeleteAll idxKey).
Proof.
  apply refines_lock. intros b Hh. unfold spec_DeleteAll. body_cases b idxKey Hh.
  - destruct (delete_keys_ok b (idx_keys old) Hh) as [Hd Hv].
    destruct (ldb_delete_ok (db (bdb (delete_keys b (idx_keys old)))) idxKey Hd) as (H1 & H2 & H3).
    unfold Delete. destruct (ldb_delete _ _) as [s e]. simpl in *. subst e. simpl.
    unfold bview, bhealthy, blocks in *; simpl in *. split_and!; [done|by rewrite H3, Hv|done..].
  - rewrite decide_True by done. done.
Qed.

Lemma TryPut_refines d key value ts :
  healthy (db d) → lockMap d !! key = None →
  let r := TryPut d key value ts in let sp := spec_TryPut key value ts (ldb_view (db d)) in
  r.2 = Ok sp.2 ∧ ldb_view (db r.1) = sp.1 ∧ lockMap r.1 = lockMap d ∧ healthy (db r.1).
Proof.
  intros Hh Hk. destruct (ldb_put_ok (db d) key value Hh) as (P1 & P2 & P3).
  unfold TryPut. cbv zeta. rewrite with_lock_ok; [|done|].
  - unfold spec_TryPut, Has, Get, Put, set_db; simpl. rewrite ldb_has_ok, ldb_get_ok by done.
    destruct (ldb_view (db d) !! key) as [v|]; simpl.
    + destruct (DBable_Unmarshal v); simpl; [|done]. rewrite IsLess_decide. case_decide; simpl; [done|].
      destruct (ldb_put _ _ _) as [s e]; simpl in *. by subst e.
    + destruct (ldb_put _ _ _) as [s e]; simpl in *. by subst e.
  - unfold Has, Get, Put, set_db; simpl. repeat case_match; simplify_eq/=; done.
Qed.

Lemma Pop_refines d key :
  healthy (db d) → lockMap d !! key = None →
  let r := Pop d key in
  lockMap r.1 = lockMap d ∧ healthy (db r.1) ∧
  match ldb_view (db d) !! key with
  | None => r.2 = Ok (None, Some LDBErrNotFound) ∧ ldb_view (db r.1) = ldb_view (db d)
  | Some v => r.2 = Ok (Some v, None) ∧ ldb_view (db r.1) = delete key (ldb_view (db d))
  end.
Proof.
  intros Hh Hk. destruct (ldb_delete_ok (db d) key Hh) as (P1 & P2 & P3).
  unfold Pop. cbv zeta. rewrite with_lock_ok; [|done|].
  - unfold Get, Delete, set_db; simpl. rewrite ldb_get_ok by done.
    destruct (ldb_view (db d) !! key) as [v|]; simpl; [|done].
    destruct (ldb_delete _ _) as [s e]; simpl in *. subst e. simpl. done.
  - unfold Get, Delete, set_db; simpl. repeat case_match; simplify_eq/=; done.
Qed.

(** ** Lookups in a stored record *)

Lemma put_kvs_other kvs m k :
  k ∉ (key_of ∘ K <$> kvs) → foldl (λ m kv, <[key_of (K kv) := V kv]> m) m kvs !! k = m !! k.
Proof.
  revert m. induction kvs as [|kv kvs IH]; intros m; csimpl; [done|].
  rewrite not_elem_of_cons. intros [Hk Hks]. rewrite IH by done. by rewrite lookup_insert_ne.
Qed.

Lemma put_record_other idxKey idx kvs m k :
  k ≠ idxKey → k ∉ (key_of ∘ K <$> kvs) → put_record idxKey idx kvs m !! k = m !! k.
Proof. intros ??. unfold put_record. rewrite put_kvs_other by done. by rewrite lookup_insert_ne. Qed.

Lemma put_record_idx idxKey idx kvs m :
  idxKey ∉ (key_of ∘ K <$> kvs) → put_record idxKey idx kvs m !! idxKey = Some (Index_Marshal idx).
Proof. intros ?. unfold put_record. rewrite put_kvs_other by done. by rewrite lookup_insert_eq. Qed.

Lemma put_record_kv idxKey idx kvs m i kv :
  NoDup (key_of ∘ K <$> kvs) → kvs !! i = Some kv →
  put_record idxKey idx kvs m !! key_of (K kv) = Some (V kv).
Proof.
  unfold put_record. generalize (<[idxKey := Index_Marshal idx]> m). clear m. intros m.
  revert m i. induction kvs as [|kv' kvs IH]; intros m i; csimpl; [done|].
  intros [Hn Hnd]%NoDup_cons Hi. destruct i as [|i]; simpl in Hi; [|by eapply IH].
  injection Hi as ->. rewrite put_kvs_other by done. by rewrite lookup_insert_eq.
Qed.

(** What the callers of the batch store: the index lists the keys of the
    key-values, in order; no two are the same and none is the index key. *)
Definition record_ok (idxKey : bytes) (idx : Index) (kvs : list KeyVal) : Prop :=
  Keys idx = Some (K <$> kvs) ∧ Forall (λ kv, is_Some (K kv)) kvs ∧
  NoDup (key_of ∘ K <$> kvs) ∧ idxKey ∉ (key_of ∘ K <$> kvs).

#[global] Instance record_ok_dec idxKey idx kvs : Decision (record_ok idxKey idx kvs).
Proof. unfold record_ok. apply _. Defined.

(** Reading a record that was put. *)
Lemma GetByIdxKey_put b idxKey idx kvs m i kv :
  bhealthy b → blocks b !! idxKey = None → bview b = put_record idxKey idx kvs m →
  record_ok idxKey idx kvs → kvs !! i = Some kv →
  (GetByIdxKey b idxKey (Z.of_nat i)).2 = Ok (V kv) ∧
  (GetKeyByIdxKey b idxKey (Z.of_nat i)).2 = Ok (key_of (K kv)).
Proof.
  intros Hh Hl Hv (Hks & Hsome & Hnd & Hni) Hi.
  pose proof (lookup_lt_Some _ _ _ Hi) as Hlt.
  pose proof (proj1 (Forall_lookup _ _) Hsome i kv Hi) as [k Ek]. simpl in Ek.
  assert (index_key idx (Z.of_nat i) = Ok k) as Hik.
  { unfold index_key. rewrite Hks. rewrite (proj2 (Z.leb_gt _ _)) by (rewrite length_fmap; lia).
    rewrite (proj2 (Z.ltb_ge _ _)) by lia. rewrite Nat2Z.id, list_lookup_fmap, Hi. simpl. by rewrite Ek. }
  unfold bhealthy, bview in *.
  assert (ldb_get (db (bdb b)) idxKey = inl (Index_Marshal idx)) as Hg1.
  { rewrite ldb_get_ok by done. rewrite Hv, put_record_idx by done. done. }
  assert (ldb_get (db (bdb b)) k = inl (V kv)) as Hg2.
  { rewrite ldb_get_ok by done. rewrite Hv. replace k with (key_of (K kv)) by by rewrite Ek.
    by erewrite put_record_kv. }
  unfold GetByIdxKey, GetKeyByIdxKey. unfold blocks in Hl.
  rewrite !with_rlock_ok by (rewrite Hl; done). simpl.
  rewrite Hg1. simpl. rewrite Index_roundtrip, Hik. simpl. rewrite Hg2, Ek. done.
Qed.

(** ** The claims on batches *)


(** After [ForcePutAll] the record is read back key by key, the keys of
    the record it replaces are gone unless the new record has them, every
    other key keeps its value, and [DeleteAll] removes exactly the record. *)
Theorem ForcePutAll_roundtrip b idxKey idx kvs :
  bhealthy b → blocks b !! idxKey = None → record_ok idxKey idx kvs → stored (bview b) idxKey ≠ Some None →
  let b' := (ForcePutAll b idxKey idx kvs).1 in
  let old := match stored (bview b) idxKey with Some (Some o) => idx_keys o | _ => [] end in
  (∀ i kv, kvs !! i = Some kv →
     (GetByIdxKey b' idxKey (Z.of_nat i)).2 = Ok (V kv) ∧
     (GetKeyByIdxKey b' idxKey (Z.of_nat i)).2 = Ok (key_of (K kv))) ∧
  (∀ k, k ≠ idxKey → k ∉ (key_of ∘ K <$> kvs) →
     bview b' !! k = if decide (k ∈ old) then None else bview b !! k) ∧
  (∀ k, bview (DeleteAll b' idxKey).1 !! k =
     if decide (k ∈ idxKey :: (key_of ∘ K <$> kvs)) then None
     else if decide (k ∈ old) then None else bview b !! k).
Proof.
  intros Hh Hl Hr Hs. cbv zeta.
  destruct (ForcePutAll_refines idxKey idx kvs b Hh Hl) as (_ & Hv & Hh' & Hl').
  set (b' := (ForcePutAll b idxKey idx kvs).1) in *.
  set (old := match stored (bview b) idxKey with Some (Some o) => idx_keys o | _ => [] end).
  assert (bview b' = put_record idxKey idx kvs (del_keys old (bview b))) as Hv'.
  { rewrite Hv. unfold spec_ForcePutAll, old. by destruct (stored (bview b) idxKey) as [[|]|]. }
  assert (∀ k, k ≠ idxKey → k ∉ (key_of ∘ K <$> kvs) →
     bview b' !! k = if decide (k ∈ old) then None else bview b !! k) as Hframe.
  { intros k Hk Hnk. rewrite Hv', put_record_other by done. by rewrite lookup_del_keys. }
  split; [|split; [done|]].
  { intros i kv Hi. by apply (GetByIdxKey_put b' idxKey idx kvs (del_keys old (bview b))); rewrite ?Hl'. }
  intros k. destruct (DeleteAll_refines idxKey b' Hh' ltac:(by rewrite Hl')) as (_ & Hd & _).
  rewrite Hd. unfold spec_DeleteAll, stored. destruct Hr as (Hks & _ & _ & Hni).
  rewrite Hv', put_record_idx by done. simpl. rewrite Index_roundtrip, <- Hv'. simpl.
  destruct (decide (k = idxKey)) as [->|Hk].
  { rewrite decide_True by (by left). by rewrite lookup_delete_eq. }
  rewrite lookup_delete_ne by done. rewrite lookup_del_keys.
  assert (idx_keys idx = key_of ∘ K <$> kvs) as ->.
  { unfold idx_keys. rewrite Hks. simpl. by rewrite list_fmap_compose. }
  destruct (decide (k ∈ key_of ∘ K <$> kvs)).
  - rewrite decide_True by (by right). done.
  - rewrite decide_False by (rewrite not_elem_of_cons; done). by apply Hframe.
Qed.

(** Conditional writes of one index key, one after another. *)
Inductive bop :=
| OpTryPutAll (idx : Index) (kvs : list KeyVal) (isDeleteOrig isGetOrig : bool)
| OpTryPutAllSameUT (idx : Index) (kvs : list KeyVal) (isDeleteOrig : bool).

Definition bop_kvs (o : bop) : list KeyVal :=
  match o with OpTryPutAll _ kvs _ _ | OpTryPutAllSameUT _ kvs _ => kvs end.
Definition run_bop (idxKey : bytes) b (o : bop) : LDBBatch :=
  match o with
  | OpTryPutAll idx kvs del getOrig => (TryPutAll b idxKey idx kvs del getOrig).1
  | OpTryPutAllSameUT idx kvs del => (TryPutAllSameUT b idxKey idx kvs del).1
  end.
Definition stored_ts b (idxKey : bytes) : option Timestamp :=
  match stored (bview b) idxKey with Some (Some i) => Some (UpdateTS i) | _ => None end.

Lemma run_bop_mono idxKey b o t :
  bhealthy b → blocks b !! idxKey = None → idxKey ∉ (key_of ∘ K <$> bop_kvs o) → stored_ts b idxKey = Some t →
  bhealthy (run_bop idxKey b o) ∧ blocks (run_bop idxKey b o) = blocks b ∧
  ∃ t', stored_ts (run_bop idxKey b o) idxKey = Some t' ∧ ts_le t t'.
Proof.
  intros Hh Hl Hni Ht. unfold stored_ts in Ht.
  destruct (stored (bview b) idxKey) as [[old|]|] eqn:Est; [|done..]. injection Ht as <-.
  assert (∀ idx kvs m, idxKey ∉ (key_of ∘ K <$> kvs) → ¬ ts_lt (UpdateTS idx) (UpdateTS old) →
    bview (run_bop idxKey b o) = put_record idxKey idx kvs m →
    ∃ t', stored_ts (run_bop idxKey b o) idxKey = Some t' ∧ ts_le (UpdateTS old) t') as Hput.
  { intros idx kvs m Hk Hle Hv. exists (UpdateTS idx). unfold stored_ts, stored. rewrite Hv, put_record_idx by done.
    simpl. rewrite Index_roundtrip. split; [done|]. destruct (ts_le_total (UpdateTS old) (UpdateTS idx)) as [|[|]]; [done| |].
    - done.
    - by right. }
  assert (bview (run_bop idxKey b o) = bview b →
    ∃ t', stored_ts (run_bop idxKey b o) idxKey = Some t' ∧ ts_le (UpdateTS old) t') as Hsame.
  { intros Hv. exists (UpdateTS old). unfold stored_ts. rewrite Hv, Est. done. }
  destruct o as [idx kvs del gt|idx kvs del]; simpl in *.
  - destruct (TryPutAll_refines idxKey idx kvs del gt b Hh Hl) as (_ & Hv & Hh' & Hl').
    split_and!; [done..|]. unfold spec_TryPutAll in Hv. rewrite Est in Hv.
    destruct (if gt then _ else _); [|by auto]. case_decide; [by auto|]. by eapply Hput.
  - destruct (TryPutAllSameUT_refines idxKey idx kvs del b Hh Hl) as (_ & Hv & Hh' & Hl').
    split_and!; [done..|]. unfold spec_TryPutAllSameUT in Hv. rewrite Est in Hv.
    case_decide; [by auto|]. eapply Hput; [done| |done]. tauto.
Qed.

(** The [UpdateTS] stored under an index key never decreases, whatever
    sequence of [TryPutAll] and [TryPutAllSameUT] calls, with whatever
    timestamps, runs on that key. *)
Theorem update_ts_never_decreases idxKey b ops t :
  bhealthy b → blocks b !! idxKey = None → Forall (λ o, idxKey ∉ (key_of ∘ K <$> bop_kvs o)) ops →
  stored_ts b idxKey = Some t →
  ∃ t', stored_ts (foldl (run_bop idxKey) b ops) idxKey = Some t' ∧ ts_le t t'.
Proof.
  revert b t. induction ops as [|o ops IH]; intros b t Hh Hl Hf Ht; simpl; [by exists t|].
  apply Forall_cons in Hf as [Ho Hf].
  destruct (run_bop_mono idxKey b o t Hh Hl Ho Ht) as (Hh' & Hl' & t1 & Ht1 & Hle).
  destruct (IH _ t1 Hh' ltac:(by rewrite Hl') Hf Ht1) as (t' & Ht' & Hle').
  exists t'. split; [done|]. by transitivity t1.
Qed.

(** An update that is refused changes nothing: while the key is locked
    every operation returns [ErrBusy], and an update older than the stored
    record returns [ErrInvalidUpdateTS]; store and lock table stay as they
    are. *)
Theorem refused_update_changes_nothing b idxKey idx kvs del v old :
  (blocks b !! idxKey = Some v →
     TryPutAll b idxKey idx kvs del false = (b, Ok (None, Some DBErrBusy)) ∧
     TryPutAllSameUT b idxKey idx kvs del = (b, Ok (None, Some DBErrBusy)) ∧
     ForcePutAll b idxKey idx kvs = (b, Ok (None, Some DBErrBusy)) ∧
     DeleteAll b idxKey = (b, Ok (Some DBErrBusy))) ∧
  (bhealthy b → blocks b !! idxKey = None → stored (bview b) idxKey = Some (Some old) →
   ts_lt (UpdateTS idx) (UpdateTS old) →
     (TryPutAll b idxKey idx kvs del false).2 = Ok (None, Some DBErrInvalidUpdateTS) ∧
     (TryPutAllSameUT b idxKey idx kvs del).2 = Ok (Keys old, Some DBErrInvalidUpdateTS) ∧
     bview (TryPutAll b idxKey idx kvs del false).1 = bview b ∧
     bview (TryPutAllSameUT b idxKey idx kvs del).1 = bview b ∧
     blocks (TryPutAll b idxKey idx kvs del false).1 = blocks b ∧
     blocks (TryPutAllSameUT b idxKey idx kvs del).1 = blocks b).
Proof.
  split.
  - intros Hb. unfold TryPutAll, TryPutAllSameUT, ForcePutAll, DeleteAll.
    by rewrite !(batch_lock_busy _ _ _ _ v Hb).
  - intros Hh Hl Hst Hlt.
    destruct (TryPutAll_refines idxKey idx kvs del false b Hh Hl) as (H1 & H2 & _ & H4).
    destruct (TryPutAllSameUT_refines idxKey idx kvs del b Hh Hl) as (G1 & G2 & _ & G4).
    unfold spec_TryPutAll in H1, H2. unfold spec_TryPutAllSameUT in G1, G2. rewrite Hst in *. simpl in *.
    rewrite decide_True in H1, H2 by done. rewrite decide_True in G1, G2 by auto. done.
Qed.

(** ** The claim on iterators *)

Lemma range_filter s r (P : bytes * bytes → Prop) `{!∀ p, Decision (P p)} :
  healthy s → (∀ p, in_range p.1 r ↔ P p) → ldb_range s r = filter P (ldb_range s full_range).
Proof.
  intros Hh HP. apply key_sorted_unique; [apply ldb_range_sorted| |].
  - apply StronglySorted_filter, ldb_range_sorted.
  - intros [k v]. rewrite list_elem_of_filter, !ldb_range_elem by done. rewrite <- (HP (k, v)). simpl.
    split; [|tauto]. intros [??]. split_and!; done.
Qed.

Lemma seek_index_none k i items : Forall (λ p, bytes_lt p.1 k) items → seek_index k i items = None.
Proof.
  intros Hf. revert i. induction Hf as [|p items Hp _ IH]; intros i; simpl; [done|].
  destruct (bytes_leb k p.1) eqn:E; [|apply IH]. by apply bytes_le_spec, bytes_lt_not_le in E.
Qed.

(** Seeking the limit of a range leaves the iterator past its last record. *)
Lemma seek_limit d r l :
  healthy (db d) → rLimit r = Some l →
  iter_backward (NewIteratorWithRange d r ListOrderPrev) = reverse (ldb_range (db d) r).
Proof.
  intros Hh Hl. unfold NewIteratorWithRange, iter_Seek; simpl. rewrite Hl; simpl.
  rewrite seek_index_none; [apply iter_backward_eoi|].
  apply Forall_forall. intros [k v] [_ Hr]%ldb_range_elem; [|done]. unfold in_range in Hr. rewrite Hl in Hr. tauto.
Qed.

(** A loop over [NewIteratorWithPrefix] visits the stored records with
    the prefix, in key order: forward exactly those at or after [start],
    backward exactly those up to [start] and its extensions, last first; a
    [start] that does not have the prefix is [ErrInvalidPrefix].  Backward
    needs a byte of [start] below 255, else goleveldb has no limit to seek. *)
Theorem prefix_iteration d start prefix order :
  healthy (db d) → start ≠ [] → prefix ≠ [] → prefix_limit start ≠ None →
  match NewIteratorWithPrefix d start prefix order with
  | Ok it =>
    prefix `prefix_of` start ∧
    let whole := ldb_range (db d) full_range in
    iter_list order it =
      match order with
      | ListOrderNext => filter (λ p, prefix `prefix_of` p.1 ∧ bytes_le start p.1) whole
      | ListOrderPrev => reverse (filter (λ p, prefix `prefix_of` p.1 ∧
                                     (bytes_lt p.1 start ∨ start `prefix_of` p.1)) whole)
      end
  | Err e => e = DBErrInvalidPrefix ∧ ¬ prefix `prefix_of` start
  | Panic => False
  end.
Proof.
  intros Hh Hs Hp Hlim. unfold NewIteratorWithPrefix.
  destruct start as [|c st] eqn:Es; [done|]. destruct prefix as [|c2 pf] eqn:Ep; [done|].
  rewrite <- Es, <- Ep in *. clear c st Es c2 pf Ep.
  case_decide as Hpre; [|done]. split; [done|]. cbv zeta.
  assert (bytes_le prefix start) as Hle by (destruct Hpre as [r ->]; apply bytes_le_app).
  pose proof (in_range_BytesPrefix prefix) as Hin. unfold in_range in Hin; simpl in Hin.
  pose proof (in_range_BytesPrefix start) as Hin2. unfold in_range in Hin2; simpl in Hin2.
  destruct (prefix_limit start) as [l|] eqn:El; [|done].
  destruct order; cbn [iter_list].
  - rewrite (seek_limit _ _ l); [|done|simpl; by rewrite El]. f_equal. apply range_filter; [done|].
    intros [k v]. unfold in_range; simpl. rewrite El. rewrite <- (Hin k), <- (Hin2 k). simpl. split.
    + intros [H1 H2]. destruct (decide (bytes_le start k)) as [Hk|Hk].
      * split; [|by auto]. apply Hin. destruct Hpre as [r Hr].
        assert (start `prefix_of` k) as [r' ->] by (apply Hin2; done).
        rewrite Hr. rewrite <- app_assoc. by eexists.
      * rewrite <- bytes_lt_not_le in Hk. split; [|by auto]. split; [done|].
        destruct (prefix_limit prefix) as [lp|] eqn:Elp; [|done].
        eapply bytes_lt_trans; [exact Hk|]. destruct Hpre as [r ->]. by apply prefix_limit_above.
    + intros [[H1 H2] [H3|[H3 H4]]]; [|done]. split; [done|].
      eapply bytes_lt_trans; [exact H3|]. rewrite <- (app_nil_r start). by apply prefix_limit_above.
  - unfold NewIteratorWithRange. rewrite iter_forward_new. apply range_filter; [done|].
    intros [k v]. unfold in_range; simpl. rewrite <- (Hin k). split; [|tauto].
    intros [H1 H2]. split_and!; [by transitivity start|done|done].
Qed.

(** On a working store whose key is not locked, [TryPut] stores the value
    unless the stored one is newer or unreadable, and returns the previous
    value; [Pop] removes the key and returns its value, or reports that there
    is none.  Both release the lock. *)
Theorem TryPut_Pop_refinement d key value ts :
  healthy (db d) → lockMap d !! key = None →
  (let r := TryPut d key value ts in let sp := spec_TryPut key value ts (ldb_view (db d)) in
   r.2 = Ok sp.2 ∧ ldb_view (db r.1) = sp.1 ∧ lockMap r.1 = lockMap d) ∧
  (let r := Pop d key in
   lockMap r.1 = lockMap d ∧
   match ldb_view (db d) !! key with
   | None => r.2 = Ok (None, Some LDBErrNotFound) ∧ ldb_view (db r.1) = ldb_view (db d)
   | Some v => r.2 = Ok (Some v, None) ∧ ldb_view (db r.1) = delete key (ldb_view (db d))
   end).
Proof.
  intros Hh Hl. pose proof (TryPut_refines d key value ts Hh Hl). pose proof (Pop_refines d key Hh Hl).
  cbv zeta in *. tauto.
Qed.


End DB.

(** A concrete encoder, for the witnesses. *)

#[global] Instance Index_countable : Countable Index :=
  inj_countable' (λ i, (Keys i, UpdateTS i)) (λ p, MkIndex p.1 p.2) (λ i, match i with MkIndex _ _ => eq_refl end).

#[global] Instance codec_json : Json := {|
  Index_Marshal := codec_enc; Index_Unmarshal := codec_dec;
  DBable_Marshal := codec_enc; DBable_Unmarshal := codec_dec;
  Index_roundtrip := codec_dec_enc; DBable_roundtrip := codec_dec_enc |}.

(** ** Witnesses *)

Definition w_kvs : list KeyVal := [MkKV (Some [x61; x31]) [x01]; MkKV (Some [x61; x32]) [x02]].
Definition w_idx (t : Z) : Index := MkIndex (Some [Some [x61; x31]; Some [x61; x32]]) (MkTs t 0).
Definition w_batch : LDBBatch :=
  NewLDBBatch (MkDB (MkMem (put_record [x69] (w_idx 5) w_kvs ∅) false) ∅).


Lemma ForcePutAll_roundtrip_witness :
  (GetByIdxKey (ForcePutAll w_batch [x69] (w_idx 7) w_kvs).1 [x69] 1).2 = Ok [x02].
Proof.
  destruct (ForcePutAll_roundtrip w_batch [x69] (w_idx 7) w_kvs) as (H & _).
  - reflexivity.
  - reflexivity.
  - apply (bool_decide_unpack _). vm_compute. exact I.
  - vm_compute. discriminate.
  - exact (proj1 (H 1 (MkKV (Some [x61; x32]) [x02]) eq_refl)).
Defined.

Lemma update_ts_never_decreases_witness :
  ∃ t', stored_ts (foldl (run_bop [x69]) w_batch
      [OpTryPutAll (w_idx 3) w_kvs true true; OpTryPutAllSameUT (w_idx 9) w_kvs true]) [x69] = Some t' ∧
    ts_le (MkTs 5 0) t'.
Proof.
  apply (update_ts_never_decreases [x69] w_batch
    [OpTryPutAll (w_idx 3) w_kvs true true; OpTryPutAllSameUT (w_idx 9) w_kvs true] (MkTs 5 0)).
  - reflexivity.
  - reflexivity.
  - apply (bool_decide_unpack _). vm_compute. exact I.
  - vm_compute. reflexivity.
Defined.

Lemma refused_update_changes_nothing_witness :
  (TryPutAll w_batch [x69] (w_idx 3) w_kvs true false).2 = Ok (None, Some DBErrInvalidUpdateTS).
Proof.
  destruct (refused_update_changes_nothing w_batch [x69] (w_idx 3) w_kvs true 0%Z (w_idx 5)) as (_ & H).
  apply H.
  - reflexivity.
  - reflexivity.
  - vm_compute. reflexivity.
  - unfold ts_lt. simpl. lia.
Defined.

Lemma prefix_iteration_witness :
  match NewIteratorWithPrefix (bdb w_batch) [x61; x32] [x61] ListOrderPrev with
  | Ok it => iter_list ListOrderPrev it = [([x61; x32], [x02]); ([x61; x31], [x01])]
  | _ => False
  end.
Proof.
  pose proof (prefix_iteration (bdb w_batch) [x61; x32] [x61] ListOrderPrev) as H.
  destruct (NewIteratorWithPrefix _ _ _ _) as [it|e|] eqn:E.
  - destruct H as [_ H]; [reflexivity|discriminate..|]. etransitivity; [exact H|]. vm_compute. reflexivity.
  - destruct H as [_ H]; [reflexivity|discriminate..|]. apply H. by exists [x32].
  - apply H; [reflexivity|discriminate..].
Defined.

Lemma TryPut_Pop_refinement_witness :
  (Pop (bdb w_batch) [x61; x31]).2 = Ok (Some [x01], None).
Proof.
  destruct (TryPut_Pop_refinement (bdb w_batch) [x61; x31] [] ZeroTimestamp) as (_ & _ & H).
  - reflexivity.
  - reflexivity.
  - apply H.
Defined.
