(* ===== verification/MerkleNode.v ===== *)
(** * Merkle nodes: [service/merkle_node.go] and [service/merkle_utils.go]

    A node of the merkle-tree-over-time, its binary form, and the comparisons
    two peers run on their lists of nodes and keys. *)

From S2P Require Import Prelude GoTime CommonTypes LevelDB PttDB.

Set Default Goal Selector "!".

(** ** Data *)

(** [MerkleTreeLevel] is a [uint8]; a level read from the wire can be any. *)
Abbreviation MerkleTreeLevel := Z (only parsing).
Definition MerkleTreeLevelInvalid : MerkleTreeLevel := 0%Z.
Definition MerkleTreeLevelNow : MerkleTreeLevel := 1%Z.
Definition MerkleTreeLevelHR : MerkleTreeLevel := 2%Z.
Definition MerkleTreeLevelDay : MerkleTreeLevel := 3%Z.
Definition MerkleTreeLevelMonth : MerkleTreeLevel := 4%Z.
Definition MerkleTreeLevelYear : MerkleTreeLevel := 5%Z.

Definition SizeMerkleTreeLevel : nat := 1.
Definition SizeMerkleTreeNChildren : nat := 4.
Definition MerkleTreeOffsetAddr : nat := SizeMerkleTreeLevel.
Definition MerkleTreeOffsetTS : nat := MerkleTreeOffsetAddr + AddressLength.
Definition MerkleTreeKeyOffsetLevel : nat := SizeDBKeyPrefix + SizePttID.
Definition MerkleTreeKeyOffsetUpdateTS : nat := MerkleTreeKeyOffsetLevel + SizeMerkleTreeLevel.

Record MerkleNode := MkNode {
  mn_Level : Z; mn_Addr : bytes; mn_UpdateTS : Timestamp; mn_NChildren : Z; mn_Key : bytes }.

#[global] Instance MerkleNode_eq_dec : EqDecision MerkleNode.
Proof. solve_decision. Defined.

(** ** The binary form *)

Definition node_Marshal (m : MerkleNode) : bytes :=
  Concat [Some [byte_of_Z (mn_Level m)]; Some (mn_Addr m); Some (ts_marshal (mn_UpdateTS m));
          Some (be_enc SizeMerkleTreeNChildren (mn_NChildren m)); Some (mn_Key m)].

Definition node_Unmarshal (b : bytes) : outcome MerkleNode :=
  level ← or_panic (byteZ <$> b !! 0);
  let offset := SizeMerkleTreeLevel in
  rest ← slice_from offset b;
  let addr := go_copy (replicate AddressLength x00) rest in
  let offset := offset + AddressLength in
  tsBytes ← slice offset (offset + SizeTimestamp) b;
  ts ← UnmarshalTimestamp tsBytes;
  let offset := offset + SizeTimestamp in
  rest ← slice_from offset b;
  nChildren ← be_uint 4 rest;
  let offset := offset + SizeMerkleTreeNChildren in
  key ← slice_from offset b;
  Ok (MkNode level addr ts nChildren key).

(** [ConstructUpdateTSAndLevelByKey] on a node [m] *)
Definition ConstructUpdateTSAndLevelByKey (m : MerkleNode) (key : bytes) : outcome MerkleNode :=
  level ← or_panic (byteZ <$> key !! MerkleTreeKeyOffsetLevel);
  rest ← slice_from MerkleTreeKeyOffsetUpdateTS key;
  updateTS ← UnmarshalTimestamp rest;
  Ok (MkNode level (mn_Addr m) updateTS (mn_NChildren m) (mn_Key m)).

(** The start of the interval a node of this level stands for; other levels
    leave the zero timestamp. *)
Definition level_interval (OffsetSecond level : Z) (ts : Timestamp) : Timestamp * Timestamp :=
  if (level =? MerkleTreeLevelHR)%Z then ToHRTimestamp ts else
  if (level =? MerkleTreeLevelDay)%Z then ToDayTimestamp ts else
  if (level =? MerkleTreeLevelMonth)%Z then ToMonthTimestamp OffsetSecond ts else
  if (level =? MerkleTreeLevelYear)%Z then ToYearTimestamp OffsetSecond ts else
  (ZeroTimestamp, ZeroTimestamp).

Definition UpdateTSToTS (OffsetSecond : Z) (m : MerkleNode) : Timestamp :=
  if (mn_Level m =? MerkleTreeLevelNow)%Z then mn_UpdateTS m
  else (level_interval OffsetSecond (mn_Level m) (mn_UpdateTS m)).1.

(** ** Comparing the nodes of two peers *)

(** [nodes[:idx]] with [idx] from [sort.Search]. *)
Definition validateMerkleTreeTrimNodes (nodes : list MerkleNode) (ts : Timestamp) : list MerkleNode :=
  let idx := sort_search (length nodes) (λ i,
    match nodes !! i with Some n => IsLessEqual ts (mn_UpdateTS n) | None => false end) in
  take idx nodes.

Fixpoint validate_loop (ts : Timestamp) (my their : list MerkleNode) : Timestamp * bool :=
  match my, their with
  | m :: my', t :: their' =>
    if decide (mn_Addr m = mn_Addr t) then validate_loop ts my' their'
    else (if IsLess (mn_UpdateTS t) ts then mn_UpdateTS t else mn_UpdateTS m, false)
  | m :: _, [] => (mn_UpdateTS m, false)
  | [], t :: _ => (mn_UpdateTS t, false)
  | [], [] => (ZeroTimestamp, true)
  end.

Definition ValidateMerkleTree (myNodes theirNodes : list MerkleNode) (ts : Timestamp) : Timestamp * bool :=
  validate_loop ts (validateMerkleTreeTrimNodes myNodes ts) (validateMerkleTreeTrimNodes theirNodes ts).

(** One round of the loop of [DiffMerkleTree] per node dropped; the fuel is
    the number of nodes. *)
Fixpoint diff_tree_loop (fuel : nat) (my their myNew theirNew : list MerkleNode) :
    list MerkleNode * list MerkleNode :=
  match fuel, my, their with
  | S f, m :: my', t :: their' =>
    if IsLess (mn_UpdateTS m) (mn_UpdateTS t) then diff_tree_loop f my' their myNew (theirNew ++ [m]) else
    if IsLess (mn_UpdateTS t) (mn_UpdateTS m) then diff_tree_loop f my their' (myNew ++ [t]) theirNew else
    if (mn_Level t <? mn_Level m)%Z then diff_tree_loop f my' their myNew (theirNew ++ [m]) else
    if (mn_Level m <? mn_Level t)%Z then diff_tree_loop f my their' (myNew ++ [t]) theirNew else
    if (mn_NChildren t <? mn_NChildren m)%Z then diff_tree_loop f my' their' myNew (theirNew ++ [m]) else
    if (mn_NChildren m <? mn_NChildren t)%Z then diff_tree_loop f my' their' (myNew ++ [t]) theirNew else
    if decide (mn_Addr m = mn_Addr t) then diff_tree_loop f my' their' myNew theirNew
    else diff_tree_loop f my' their' (myNew ++ [t]) (theirNew ++ [m])
  | _, _, _ => (myNew ++ their, theirNew ++ my)
  end.

Definition DiffMerkleTree (myNodes theirNodes : list MerkleNode) (ts : Timestamp) :
    list MerkleNode * list MerkleNode :=
  let trim := λ l, if IsEqual ts ZeroTimestamp then l else validateMerkleTreeTrimNodes l ts in
  diff_tree_loop (length myNodes + length theirNodes) (trim myNodes) (trim theirNodes) [] [].

Fixpoint diff_keys_loop (fuel : nat) (my their myNew theirNew : list bytes) : list bytes * list bytes :=
  match fuel, my, their with
  | S f, k :: my', k2 :: their' =>
    match bytes_compare k k2 with
    | Lt => diff_keys_loop f my' their myNew (theirNew ++ [k])
    | Gt => diff_keys_loop f my their' (myNew ++ [k2]) theirNew
    | Eq => diff_keys_loop f my' their' myNew theirNew
    end
  | _, _, _ => (myNew ++ their, theirNew ++ my)
  end.

Definition DiffMerkleKeys (myKeys theirKeys : list bytes) : list bytes * list bytes :=
  diff_keys_loop (length myKeys + length theirKeys) myKeys theirKeys [] [].

(** [MergeKeysInMerkleNodes] walks with an index, the rest of the nodes and
    the current key on each side. *)
Record cursor := MkCur { c_idx : nat; c_nodes : list MerkleNode; c_key : bytes }.

Definition cur_start (nodes : list MerkleNode) : outcome cursor :=
  n ← or_panic (nodes !! 0); Ok (MkCur 0 nodes (mn_Key n)).
(** [pNodes = pNodes[1:]; key = pNodes[0].Key] *)
Definition cur_step (len : nat) (c : cursor) : outcome cursor :=
  let idx := S (c_idx c) in
  if decide (idx = len) then Ok (MkCur idx (c_nodes c) (c_key c))
  else
    nodes ← slice_from 1 (c_nodes c);
    n ← or_panic (nodes !! 0); Ok (MkCur idx nodes (mn_Key n)).

Fixpoint merge_loop (fuel lenMy lenTheir : nat) (cm ct : cursor) (myNew theirNew : list bytes) :
    outcome (cursor * cursor * list bytes * list bytes) :=
  match fuel with
  | O => Ok (cm, ct, myNew, theirNew)
  | S f =>
    if decide (c_idx cm < lenMy ∧ c_idx ct < lenTheir) then
      match bytes_compare (c_key cm) (c_key ct) with
      | Lt =>
        let theirNew := theirNew ++ [c_key cm] in
        cm ← cur_step lenMy cm; merge_loop f lenMy lenTheir cm ct myNew theirNew
      | Gt =>
        let myNew := myNew ++ [c_key ct] in
        ct ← cur_step lenTheir ct; merge_loop f lenMy lenTheir cm ct myNew theirNew
      | Eq =>
        cm ← cur_step lenMy cm; ct ← cur_step lenTheir ct; merge_loop f lenMy lenTheir cm ct myNew theirNew
      end
    else Ok (cm, ct, myNew, theirNew)
  end.

(** [for idx < len { newKeys = append(newKeys, key); ... }] *)
Fixpoint merge_rest (fuel len : nat) (c : cursor) (acc : list bytes) : outcome (list bytes) :=
  match fuel with
  | O => Ok acc
  | S f =>
    if decide (c_idx c < len) then
      let acc := acc ++ [c_key c] in
      c ← cur_step len c; merge_rest f len c acc
    else Ok acc
  end.

Definition MergeKeysInMerkleNodes (myNodes theirNodes : list MerkleNode) : outcome (list bytes * list bytes) :=
  let lenMy := length myNodes in
  let lenTheir := length theirNodes in
  if decide (lenMy = 0 ∧ lenTheir = 0) then Ok ([], []) else
  if decide (lenTheir = 0) then Ok ([], mn_Key <$> myNodes) else
  if decide (lenMy = 0) then Ok (mn_Key <$> theirNodes, []) else
  cm ← cur_start myNodes;
  ct ← cur_start theirNodes;
  '(cm, ct, myNew, theirNew) ← merge_loop (lenMy + lenTheir) lenMy lenTheir cm ct [] [];
  theirNew ← merge_rest lenMy lenMy cm theirNew;
  myNew ← merge_rest lenTheir lenTheir ct myNew;
  Ok (myNew, theirNew).

(** ** The binary form: lemmas *)

Definition node_wf (n : MerkleNode) : Prop :=
  (0 ≤ mn_Level n < 256)%Z ∧ length (mn_Addr n) = AddressLength ∧
  in_i64 (Ts (mn_UpdateTS n)) ∧ (0 ≤ NanoTs (mn_UpdateTS n) < BILLION)%Z ∧ in_u32 (mn_NChildren n).

#[global] Instance node_wf_dec n : Decision (node_wf n).
Proof. unfold node_wf, in_i64, in_u32. apply _. Defined.

Lemma node_Marshal_eq n :
  node_Marshal n = [byte_of_Z (mn_Level n)] ++ mn_Addr n ++ ts_marshal (mn_UpdateTS n) ++
                   be_enc 4 (mn_NChildren n) ++ mn_Key n.
Proof. unfold node_Marshal. rewrite Concat_spec. unfold opt_concat. simpl. by rewrite app_nil_r. Qed.

(** The fields of the binary form. *)
Lemma node_Unmarshal_parts (c : byte) (a t n k : bytes) :
  length a = AddressLength → length t = SizeTimestamp → length n = 4 →
  node_Unmarshal (c :: a ++ t ++ n ++ k) =
    (ts ← UnmarshalTimestamp t; Ok (MkNode (byteZ c) a ts (be_dec n) k)).
Proof.
  intros Ha Ht Hn. unfold node_Unmarshal.
  assert (slice_from SizeMerkleTreeLevel (c :: a ++ t ++ n ++ k) = Ok (a ++ t ++ n ++ k)) as ->
    by (by apply (slice_from_app [c])).
  assert (slice (SizeMerkleTreeLevel + AddressLength) (SizeMerkleTreeLevel + AddressLength + SizeTimestamp)
    (c :: a ++ t ++ n ++ k) = Ok t) as ->.
  { apply (slice_app (c :: a)); simpl; rewrite Ha, ?Ht; done. }
  assert (slice_from (SizeMerkleTreeLevel + AddressLength + SizeTimestamp) (c :: a ++ t ++ n ++ k) = Ok (n ++ k)) as ->.
  { rewrite app_assoc. apply (slice_from_app (c :: a ++ t)). simpl. rewrite length_app, Ha, Ht. done. }
  assert (slice_from (SizeMerkleTreeLevel + AddressLength + SizeTimestamp + SizeMerkleTreeNChildren)
    (c :: a ++ t ++ n ++ k) = Ok k) as ->.
  { rewrite !app_assoc. apply (slice_from_app (c :: (a ++ t) ++ n)). simpl. rewrite !length_app, Ha, Ht, Hn. done. }
  assert (be_uint 4 (n ++ k) = Ok (be_dec n)) as Hb.
  { unfold be_uint. rewrite decide_True by (rewrite length_app; lia). by rewrite take_app_length' by lia. }
  assert (go_copy (replicate AddressLength x00) (a ++ t ++ n ++ k) = a) as Hc.
  { unfold go_copy. rewrite length_replicate, take_app_length' by lia.
    rewrite drop_ge, app_nil_r; [done|]. rewrite length_replicate, length_app. lia. }
  cbn [mbind outcome_bind or_panic lookup list_lookup fmap option_fmap option_map].
  destruct (UnmarshalTimestamp t); cbn [mbind outcome_bind]; [|done..]. rewrite Hb.
  cbn [mbind outcome_bind]. by rewrite Hc.
Qed.

Lemma node_Unmarshal_Marshal n : node_wf n → node_Unmarshal (node_Marshal n) = Ok n.
Proof.
  intros (Hl & Ha & Ht & Hn & Hc). rewrite node_Marshal_eq. cbn [app].
  rewrite node_Unmarshal_parts; [|done|apply ts_marshal_length|apply be_enc_length].
  rewrite <- (app_nil_r (ts_marshal _)), unmarshal_marshal_app by (split; [done|unfold BILLION in Hn; word]).
  rewrite (proj2 (Z.leb_gt _ _)) by lia. cbn [mbind outcome_bind].
  rewrite byteZ_of_Z, be_dec_enc, !Z.mod_small by word. by destruct n.
Qed.

(** A value of at least 37 bytes never makes the decoder panic, a shorter one
    is never accepted. *)
Lemma node_Unmarshal_long b : 37 ≤ length b → node_Unmarshal b ≠ Panic.
Proof.
  intros Hb. destruct b as [|c b]; simpl in Hb; [lia|].
  rewrite <- (take_drop 20 b), <- (take_drop 12 (drop 20 b)), <- (take_drop 4 (drop 12 (drop 20 b))).
  rewrite node_Unmarshal_parts by (rewrite length_take, ?length_drop; unfold AddressLength, SizeTimestamp; lia).
  assert (length (take 12 (drop 20 b)) = 12) as Ht by (rewrite length_take, length_drop; lia).
  revert Ht. generalize (take 12 (drop 20 b)). intros t Ht. unfold UnmarshalTimestamp, slice, slice_from, be_uint.
  repeat (rewrite decide_True by (rewrite ?length_take, ?length_drop; lia); cbn [mbind outcome_bind]).
  by destruct (BILLION <=? _)%Z.
Qed.

Lemma node_Unmarshal_short b : length b < 37 → is_ok (node_Unmarshal b) = false.
Proof.
  intros Hb. unfold node_Unmarshal.
  destruct (or_panic _); cbn [mbind outcome_bind]; [|done..].
  destruct (slice_from SizeMerkleTreeLevel b); cbn [mbind outcome_bind]; [|done..].
  destruct (slice _ _ b); cbn [mbind outcome_bind]; [|done..].
  destruct (UnmarshalTimestamp _); cbn [mbind outcome_bind]; [|done..].
  destruct (slice_from (SizeMerkleTreeLevel + AddressLength + SizeTimestamp) b) as [r| |] eqn:E; cbn [mbind outcome_bind]; [|done..].
  unfold slice_from in E. case_decide as Hd; [|done]. injection E as <-.
  unfold be_uint. rewrite decide_False; [done|]. rewrite length_drop.
  unfold SizeMerkleTreeLevel, AddressLength, SizeTimestamp in *. lia.
Qed.

(** ** Trimming *)

Definition nodes_sorted : list MerkleNode → Prop :=
  StronglySorted (λ m n, ts_le (mn_UpdateTS m) (mn_UpdateTS n)).

Lemma sorted_lookup nodes i j m n :
  nodes_sorted nodes → nodes !! i = Some m → nodes !! j = Some n → i ≤ j → ts_le (mn_UpdateTS m) (mn_UpdateTS n).
Proof.
  intros Hs. revert i j. induction Hs as [|x l Hs IH Hx]; intros i j Hi Hj Hij; [done|].
  destruct i as [|i], j as [|j]; simpl in *; [by simplify_eq| |lia|eapply IH; eauto with lia].
  injection Hi as <-. by eapply (proj1 (Forall_lookup _ _) Hx).
Qed.

(** The binary search cuts the nodes at [ts]. *)
Lemma trim_filter nodes ts :
  nodes_sorted nodes →
  validateMerkleTreeTrimNodes nodes ts = filter (λ n, ts_lt (mn_UpdateTS n) ts) nodes.
Proof.
  intros Hs. unfold validateMerkleTreeTrimNodes.
  set (f := λ i, match nodes !! i with Some n => IsLessEqual ts (mn_UpdateTS n) | None => false end).
  destruct (sort_search_spec (length nodes) f) as (Hle & Hlo & Hhi).
  { intros i j Hij Hj Hf. unfold f in *.
    destruct (lookup_lt_is_Some_2 nodes i ltac:(lia)) as [m Hm].
    destruct (lookup_lt_is_Some_2 nodes j ltac:(lia)) as [n Hn].
    rewrite Hm in Hf. rewrite Hn. apply IsLessEqual_spec. apply IsLessEqual_spec in Hf.
    transitivity (mn_UpdateTS m); [done|]. by eapply sorted_lookup. }
  set (k := sort_search (length nodes) f) in *. clearbody k.
  assert (∀ l, Forall (λ n, ts_lt (mn_UpdateTS n) ts) l → filter (λ n, ts_lt (mn_UpdateTS n) ts) l = l) as Hall.
  { induction 1 as [|x l Hx _ IH]; [done|]. rewrite filter_cons_True by done. by rewrite IH. }
  assert (∀ l, Forall (λ n, ¬ ts_lt (mn_UpdateTS n) ts) l → filter (λ n, ts_lt (mn_UpdateTS n) ts) l = []) as Hnone.
  { induction 1 as [|x l Hx _ IH]; [done|]. by rewrite filter_cons_False. }
  rewrite <- (take_drop k nodes) at 2. rewrite filter_app, Hall, Hnone, app_nil_r; [done| |].
  - apply Forall_lookup. intros i n Hn. rewrite lookup_drop in Hn.
    pose proof (lookup_lt_Some _ _ _ Hn). specialize (Hhi (k + i) ltac:(lia)). unfold f in Hhi. rewrite Hn in Hhi.
    apply IsLessEqual_spec in Hhi. rewrite ts_lt_not_le. tauto.
  - apply Forall_lookup. intros i n Hn. apply lookup_take_Some in Hn as [Hn Hik].
    specialize (Hlo i ltac:(lia)). unfold f in Hlo. rewrite Hn, IsLessEqual_IsLess in Hlo.
    apply negb_false_iff in Hlo. by apply IsLess_spec.
Qed.

Lemma validate_loop_addrs ts my their :
  (validate_loop ts my their).2 = true ↔ mn_Addr <$> my = mn_Addr <$> their.
Proof.
  revert their. induction my as [|m my IH]; intros [|t their]; csimpl; try done.
  case_decide as Hd; [|split; [done|intros [= ??]; done]].
  rewrite IH, Hd. split; [by intros ->|by intros [= ?]].
Qed.

(** ** Set differences of ordered lists *)

Lemma filter_all {A} (P : A → Prop) `{!∀ x, Decision (P x)} l : Forall P l → filter P l = l.
Proof. induction 1; [done|]. rewrite filter_cons_True by done. by f_equal. Qed.

Lemma filter_none {A} (P : A → Prop) `{!∀ x, Decision (P x)} l : Forall (λ x, ¬ P x) l → filter P l = [].
Proof. induction 1; [done|]. by rewrite filter_cons_False. Qed.

Lemma diff_keys_loop_spec fuel my their a b :
  StronglySorted bytes_lt my → StronglySorted bytes_lt their → length my + length their ≤ fuel →
  diff_keys_loop fuel my their a b = (a ++ filter (.∉ my) their, b ++ filter (.∉ their) my).
Proof.
  revert my their a b. induction fuel as [|f IH]; intros my their a b Hm Ht Hf.
  { destruct my, their; simpl in Hf; try lia. done. }
  destruct my as [|k my]; [by rewrite (filter_all (.∉ [])) by (apply Forall_forall; intros ? _; apply not_elem_of_nil)|].
  destruct their as [|k2 their]; [by rewrite (filter_all (.∉ [])) by (apply Forall_forall; intros ? _; apply not_elem_of_nil)|].
  inversion Hm as [|?? Hm' Hk]; inversion Ht as [|?? Ht' Hk2]; subst. simpl in Hf.
  rewrite Forall_forall in Hk, Hk2.
  assert (∀ x (l : list bytes) k', bytes_lt k' x → (∀ y, y ∈ l → bytes_lt x y) → k' ∉ x :: l) as Hout.
  { intros x l k' Hx Hl [->|Hin]%elem_of_cons; [by apply bytes_lt_irrefl in Hx|].
    by apply (bytes_lt_irrefl k'), (bytes_lt_trans _ x), Hl. }
  cbn [diff_keys_loop]. destruct (bytes_compare k k2) eqn:E.
  - apply bytes_compare_eq in E as <-. rewrite IH by (done || lia).
    rewrite (filter_cons_False _ k), (filter_cons_False _ k) by (intros H; apply H; by left).
    f_equal; f_equal; apply filter_ext_elem; intros x Hx; set_unfold; split; intros Hn; try tauto;
      intros [->|?]; try done; eapply bytes_lt_irrefl; eauto.
  - rewrite IH by (done || simpl; lia). rewrite <- app_assoc. cbn [app].
    rewrite (filter_cons_True _ k my) by (by apply Hout; [done|]).
    f_equal. f_equal. apply filter_ext_elem. intros x Hx.
    assert (x ≠ k); [|set_solver]. intros ->. by apply (Hout k2 their k E Hk2).
  - assert (bytes_lt k2 k) as E2 by (unfold bytes_lt; rewrite bytes_compare_antisym, E; done).
    rewrite IH by (done || simpl; lia). rewrite <- app_assoc. cbn [app].
    rewrite (filter_cons_True _ k2 their) by (by apply Hout; [done|]).
    f_equal. f_equal. apply filter_ext_elem. intros x Hx.
    assert (x ≠ k2); [|set_solver]. intros ->. by apply (Hout k my k2 E2 Hk).
Qed.

(** ** [DiffMerkleTree] *)

(** The order of the lists: by time, and at the same time the coarser level
    first. *)
Definition node_before (m n : MerkleNode) : Prop :=
  ts_lt (mn_UpdateTS m) (mn_UpdateTS n) ∨
  mn_UpdateTS m = mn_UpdateTS n ∧ (mn_Level n < mn_Level m)%Z.
Definition same_slot (m n : MerkleNode) : Prop :=
  mn_UpdateTS m = mn_UpdateTS n ∧ mn_Level m = mn_Level n.

(** [t] makes sending [m] unnecessary: the same slot with more children, or
    with the same number and the same hash. *)
Definition covers (t m : MerkleNode) : Prop :=
  same_slot t m ∧
  ((mn_NChildren m < mn_NChildren t)%Z ∨ mn_NChildren m = mn_NChildren t ∧ mn_Addr m = mn_Addr t).
Definition lacks (l : list MerkleNode) (m : MerkleNode) : Prop := Forall (λ t, ¬ covers t m) l.

#[global] Instance covers_dec t m : Decision (covers t m).
Proof. unfold covers, same_slot. apply _. Defined.
#[global] Instance lacks_dec l m : Decision (lacks l m).
Proof. unfold lacks. apply _. Defined.

#[global] Instance node_before_trans : Transitive node_before.
Proof.
  intros a b c [H1|[E1 H1]] [H2|[E2 H2]]; unfold node_before.
  - left. by eapply ts_lt_trans.
  - left. by rewrite <- E2.
  - left. by rewrite E1.
  - right. split; [congruence|lia].
Qed.

Lemma before_not_slot m n : node_before m n → ¬ same_slot m n ∧ ¬ same_slot n m.
Proof.
  intros [H|[E H]]; split; intros [E1 E2].
  - rewrite E1 in H. by apply ts_lt_irrefl in H.
  - rewrite E1 in H. by apply ts_lt_irrefl in H.
  - lia.
  - lia.
Qed.

Lemma lacks_after m l : Forall (node_before m) l → lacks l m.
Proof. intros Hf. eapply Forall_impl; [exact Hf|]. intros t [_ Hs]%before_not_slot [Hc _]. done. Qed.

Lemma lacks_skip t l x : node_before t x → lacks (t :: l) x ↔ lacks l x.
Proof.
  intros [Hs _]%before_not_slot. unfold lacks. rewrite Forall_cons. split; [tauto|].
  intros ?. split; [|done]. by intros [Hc _].
Qed.

Lemma filter_lacks_skip t l l2 : Forall (node_before t) l2 → filter (lacks (t :: l)) l2 = filter (lacks l) l2.
Proof.
  intros Hf. apply filter_ext_elem. intros x Hx. apply lacks_skip. by apply (proj1 (Forall_forall _ _) Hf).
Qed.

Lemma filter_lacks_slot t l m l2 :
  Forall (node_before t) l → Forall (node_before t) l2 → same_slot t m →
  filter (lacks (t :: l)) (m :: l2) = (if decide (covers t m) then [] else [m]) ++ filter (lacks l) l2.
Proof.
  intros Hl Hl2 [E1 E2]. rewrite filter_cons, filter_lacks_skip by done.
  assert (lacks (t :: l) m ↔ ¬ covers t m) as Hiff.
  { unfold lacks. rewrite Forall_cons. split; [tauto|]. intros ?. split; [done|].
    apply lacks_after. eapply Forall_impl; [exact Hl|]. intros x. unfold node_before. by rewrite E1, E2. }
  destruct (decide (covers t m)).
  - rewrite decide_False by tauto. done.
  - rewrite decide_True by tauto. done.
Qed.

Lemma IsLess_slot m t :
  IsLess (mn_UpdateTS m) (mn_UpdateTS t) = false → IsLess (mn_UpdateTS t) (mn_UpdateTS m) = false →
  mn_UpdateTS m = mn_UpdateTS t.
Proof.
  intros H1 H2. destruct (ts_lt_trichotomy (mn_UpdateTS m) (mn_UpdateTS t)) as [H|[H|H]]; [|done|];
    apply IsLess_spec in H; congruence.
Qed.

(** The heads of the two lists, in the order of the loop's cases. *)
Lemma heads_cases m t :
  (IsLess (mn_UpdateTS m) (mn_UpdateTS t) = true ∨
   IsLess (mn_UpdateTS m) (mn_UpdateTS t) = false ∧ IsLess (mn_UpdateTS t) (mn_UpdateTS m) = false ∧
     (mn_Level t <? mn_Level m)%Z = true) ∧ node_before m t ∨
  (IsLess (mn_UpdateTS m) (mn_UpdateTS t) = false ∧
   (IsLess (mn_UpdateTS t) (mn_UpdateTS m) = true ∨
    IsLess (mn_UpdateTS t) (mn_UpdateTS m) = false ∧ (mn_Level t <? mn_Level m)%Z = false ∧
      (mn_Level m <? mn_Level t)%Z = true)) ∧ node_before t m ∨
  (IsLess (mn_UpdateTS m) (mn_UpdateTS t) = false ∧ IsLess (mn_UpdateTS t) (mn_UpdateTS m) = false ∧
   (mn_Level t <? mn_Level m)%Z = false ∧ (mn_Level m <? mn_Level t)%Z = false) ∧ same_slot m t.
Proof.
  destruct (IsLess (mn_UpdateTS m) (mn_UpdateTS t)) eqn:E1.
  { left. split; [by left|]. left. by apply IsLess_spec. }
  destruct (IsLess (mn_UpdateTS t) (mn_UpdateTS m)) eqn:E2.
  { right; left. split; [split; [done|by left]|]. left. by apply IsLess_spec. }
  pose proof (IsLess_slot _ _ E1 E2) as E.
  destruct (Z.ltb_spec (mn_Level t) (mn_Level m)).
  { left. split; [by right|]. by right. }
  destruct (Z.ltb_spec (mn_Level m) (mn_Level t)).
  { right; left. split; [split; [done|by right]|]. by right. }
  right; right. split; [done|]. split; [done|lia].
Qed.

Lemma diff_tree_loop_spec fuel my their a b :
  StronglySorted node_before my → StronglySorted node_before their → length my + length their ≤ fuel →
  diff_tree_loop fuel my their a b = (a ++ filter (lacks my) their, b ++ filter (lacks their) my).
Proof.
  revert my their a b. induction fuel as [|f IH]; intros my their a b Hm Ht Hf.
  { destruct my, their; simpl in Hf; try lia. done. }
  assert (∀ l, filter (lacks []) l = l) as Hnil by (intros l; apply filter_all, Forall_forall; by constructor).
  destruct my as [|m my]; [by rewrite Hnil|]. destruct their as [|t their]; [by rewrite Hnil|].
  inversion Hm as [|?? Hm' Hbm]; inversion Ht as [|?? Ht' Hbt]; subst. simpl in Hf.
  assert (∀ x y l, node_before x y → Forall (node_before y) l → Forall (node_before x) (y :: l)) as Hext.
  { intros x y l Hxy Hl. constructor; [done|]. eapply Forall_impl; [exact Hl|]. intros z. by transitivity y. }
  cbn [diff_tree_loop]. destruct (heads_cases m t) as [[Hc Hb]|[[Hc Hb]|[Hc Hb]]].
  - transitivity (diff_tree_loop f my (t :: their) a (b ++ [m])).
    { by destruct Hc as [->|(-> & -> & ->)]. }
    rewrite IH by (done || simpl; lia). rewrite (filter_lacks_skip m my (t :: their)) by auto.
    rewrite (filter_cons_True _ m) by (apply lacks_after; auto). by rewrite <- app_assoc.
  - transitivity (diff_tree_loop f (m :: my) their (a ++ [t]) b).
    { by destruct Hc as (-> & [->|(-> & -> & ->)]). }
    rewrite IH by (done || simpl; lia). rewrite (filter_lacks_skip t their (m :: my)) by auto.
    rewrite (filter_cons_True _ t) by (apply lacks_after; auto). by rewrite <- app_assoc.
  - destruct Hc as (-> & -> & -> & ->). pose proof Hb as [E1 E2].
    assert (∀ l, Forall (node_before m) l ↔ Forall (node_before t) l) as Hmt.
    { intros l. unfold node_before. by rewrite E1, E2. }
    rewrite (filter_lacks_slot m my t their), (filter_lacks_slot t their m my)
      by (try done; try (by apply Hmt); split; congruence).
    assert (covers m t ↔ (mn_NChildren t < mn_NChildren m)%Z ∨
              mn_NChildren t = mn_NChildren m ∧ mn_Addr t = mn_Addr m) as C1
      by (unfold covers; split; [tauto|intros; split; [done|tauto]]).
    assert (covers t m ↔ (mn_NChildren m < mn_NChildren t)%Z ∨
              mn_NChildren m = mn_NChildren t ∧ mn_Addr m = mn_Addr t) as C2
      by (unfold covers; split; [tauto|intros; split; [by split; congruence|tauto]]).
    destruct (Z.ltb_spec (mn_NChildren t) (mn_NChildren m)); [|destruct (Z.ltb_spec (mn_NChildren m) (mn_NChildren t))].
    + rewrite (decide_True _ _ (P := covers m t)), (decide_False _ _ (P := covers t m)) by (rewrite ?C1, ?C2; lia).
      rewrite IH by (done || lia). by rewrite <- app_assoc.
    + rewrite (decide_False _ _ (P := covers m t)), (decide_True _ _ (P := covers t m)) by (rewrite ?C1, ?C2; lia).
      rewrite IH by (done || lia). by rewrite <- app_assoc.
    + assert (mn_NChildren m = mn_NChildren t) as En by lia. destruct (decide (mn_Addr m = mn_Addr t)) as [Ea|Ea].
      * rewrite (decide_True _ _ (P := covers m t)), (decide_True _ _ (P := covers t m)) by (rewrite ?C1, ?C2; auto).
        by rewrite IH by (done || lia).
      * rewrite (decide_False _ _ (P := covers m t)), (decide_False _ _ (P := covers t m))
          by (rewrite ?C1, ?C2; intros [?|[_ ?]]; [lia|congruence]).
        rewrite IH by (done || lia). by rewrite <- !app_assoc.
Qed.

(** ** [MergeKeysInMerkleNodes] *)

(** The cursor stands on node [c_idx], or past the end. *)
Definition cur_rep (nodes : list MerkleNode) (c : cursor) : Prop :=
  c_idx c ≤ length nodes ∧
  (c_idx c < length nodes → c_nodes c = drop (c_idx c) nodes ∧ (mn_Key <$> nodes) !! c_idx c = Some (c_key c)).

Lemma cur_start_ok nodes : 0 < length nodes → ∃ c, cur_start nodes = Ok c ∧ cur_rep nodes c ∧ c_idx c = 0.
Proof. destruct nodes as [|n nodes]; simpl; [lia|]. intros _. eexists. split; [done|]. split; [|done]. split; simpl; [lia|done]. Qed.

Lemma cur_step_ok nodes c :
  cur_rep nodes c → c_idx c < length nodes →
  ∃ c', cur_step (length nodes) c = Ok c' ∧ cur_rep nodes c' ∧ c_idx c' = S (c_idx c).
Proof.
  intros [Hle Hin] Hlt. destruct (Hin Hlt) as [Hn Hk]. unfold cur_step. case_decide as He.
  { eexists. split; [done|]. split; [|done]. split; simpl; lia. }
  rewrite Hn. unfold slice_from. rewrite decide_True by (rewrite length_drop; lia). cbn [mbind outcome_bind].
  rewrite drop_drop. destruct (lookup_lt_is_Some_2 nodes (c_idx c + 1) ltac:(lia)) as [n Hnn].
  rewrite lookup_drop, Nat.add_0_r, Hnn. simpl. eexists. split; [done|]. split; [|done].
  split; simpl; [lia|]. intros _. replace (S (c_idx c)) with (c_idx c + 1) by lia.
  split; [done|]. by rewrite list_lookup_fmap, Hnn.
Qed.

(** The keys still to come. *)
Lemma cur_keys nodes c :
  cur_rep nodes c → c_idx c < length nodes →
  drop (c_idx c) (mn_Key <$> nodes) = c_key c :: drop (S (c_idx c)) (mn_Key <$> nodes).
Proof. intros [_ Hin] Hlt. apply drop_S. by apply Hin. Qed.

Lemma merge_rest_ok fuel nodes c acc :
  cur_rep nodes c → length nodes - c_idx c ≤ fuel →
  merge_rest fuel (length nodes) c acc = Ok (acc ++ drop (c_idx c) (mn_Key <$> nodes)).
Proof.
  revert c acc. induction fuel as [|f IH]; intros c acc Hc Hf; simpl.
  { rewrite drop_ge by (rewrite length_fmap; lia). by rewrite app_nil_r. }
  case_decide as Hd; [|rewrite drop_ge by (rewrite length_fmap; lia); by rewrite app_nil_r].
  destruct (cur_step_ok nodes c Hc Hd) as (c' & -> & Hc' & Hi). cbn [mbind outcome_bind].
  rewrite IH by (done || lia). rewrite (cur_keys nodes c Hc Hd), Hi, <- app_assoc. done.
Qed.

Lemma merge_loop_ok fuel my their cm ct a b :
  cur_rep my cm → cur_rep their ct →
  (length my - c_idx cm) + (length their - c_idx ct) ≤ fuel →
  ∃ cm' ct' a' b',
    merge_loop fuel (length my) (length their) cm ct a b = Ok (cm', ct', a', b') ∧
    cur_rep my cm' ∧ cur_rep their ct' ∧
    diff_keys_loop fuel (drop (c_idx cm) (mn_Key <$> my)) (drop (c_idx ct) (mn_Key <$> their)) a b =
      (a' ++ drop (c_idx ct') (mn_Key <$> their), b' ++ drop (c_idx cm') (mn_Key <$> my)).
Proof.
  revert cm ct a b. induction fuel as [|f IH]; intros cm ct a b Hm Ht Hf; cbn [merge_loop].
  { eexists _, _, _, _. split_and!; [done..|]. by rewrite !drop_ge by (rewrite length_fmap; lia). }
  case_decide as Hd.
  - destruct Hd as [Hd1 Hd2]. rewrite (cur_keys my cm Hm Hd1), (cur_keys their ct Ht Hd2). cbn [diff_keys_loop].
    destruct (cur_step_ok my cm Hm Hd1) as (cm1 & E1 & Hm1 & I1).
    destruct (cur_step_ok their ct Ht Hd2) as (ct1 & E2 & Ht1 & I2).
    destruct (bytes_compare (c_key cm) (c_key ct)); rewrite ?E1; cbn [mbind outcome_bind]; rewrite ?E2;
      cbn [mbind outcome_bind].
    + rewrite <- I1, <- I2. apply IH; [done..|lia].
    + rewrite <- I1, <- (cur_keys their ct Ht Hd2). apply IH; [done..|lia].
    + rewrite <- I2, <- (cur_keys my cm Hm Hd1). apply IH; [done..|lia].
  - eexists _, _, _, _. split_and!; [done..|].
    destruct Hm as [Hm _], Ht as [Ht _].
    destruct (decide (c_idx cm < length my)).
    + rewrite (drop_ge (mn_Key <$> their)) by (rewrite length_fmap; lia). by destruct (drop _ _).
    + by rewrite (drop_ge (mn_Key <$> my)) by (rewrite length_fmap; lia).
Qed.

(** ** The claims *)

(** Decoding what [Marshal] wrote gives the node back; a value shorter
    than the 37 bytes of the fixed fields is never decoded and a longer one
    never makes [Unmarshal] panic. *)
Theorem merkle_node_roundtrip n b :
  node_wf n →
  node_Unmarshal (node_Marshal n) = Ok n ∧
  (length b < 37 → is_ok (node_Unmarshal b) = false) ∧ (37 ≤ length b → node_Unmarshal b ≠ Panic).
Proof. auto using node_Unmarshal_Marshal, node_Unmarshal_short, node_Unmarshal_long. Qed.

Lemma merkle_node_roundtrip_witness :
  node_Unmarshal (node_Marshal (MkNode 2 (replicate 20 x07) (MkTs 3600 5) 3 [x01])) =
    Ok (MkNode 2 (replicate 20 x07) (MkTs 3600 5) 3 [x01]).
Proof.
  apply (merkle_node_roundtrip (MkNode 2 (replicate 20 x07) (MkTs 3600 5) 3 [x01]) []).
  apply (bool_decide_unpack _). vm_compute. exact I.
Defined.

(** [DiffMerkleKeys] on two strictly ordered lists of keys returns the
    keys only they have and the keys only I have, in order. *)
Theorem diff_merkle_keys_spec myKeys theirKeys :
  StronglySorted bytes_lt myKeys → StronglySorted bytes_lt theirKeys →
  DiffMerkleKeys myKeys theirKeys = (filter (.∉ myKeys) theirKeys, filter (.∉ theirKeys) myKeys).
Proof. intros. by apply diff_keys_loop_spec. Qed.

Lemma diff_merkle_keys_spec_witness :
  DiffMerkleKeys [[x01]; [x03]] [[x02]; [x03]; [x04]] = ([[x02]; [x04]], [[x01]]).
Proof.
  etransitivity; [apply (diff_merkle_keys_spec [[x01]; [x03]] [[x02]; [x03]; [x04]])|].
  - repeat constructor.
  - repeat constructor.
  - vm_compute. reflexivity.
Defined.

(** [MergeKeysInMerkleNodes], which walks both lists by index and current
    key, never panics and computes what [DiffMerkleKeys] computes on the keys
    of the nodes. *)
Theorem merge_keys_equiv_diff_keys myNodes theirNodes :
  MergeKeysInMerkleNodes myNodes theirNodes =
    Ok (DiffMerkleKeys (mn_Key <$> myNodes) (mn_Key <$> theirNodes)).
Proof.
  unfold MergeKeysInMerkleNodes, DiffMerkleKeys. rewrite !length_fmap.
  case_decide as H1. { by destruct myNodes, theirNodes; simpl in H1; try lia. }
  case_decide as H2. { destruct theirNodes; [|done]. by destruct myNodes. }
  case_decide as H3. { destruct myNodes; [|done]. by destruct theirNodes. }
  destruct (cur_start_ok myNodes ltac:(lia)) as (cm & -> & Hm & Im). cbn [mbind outcome_bind].
  destruct (cur_start_ok theirNodes ltac:(lia)) as (ct & -> & Ht & It). cbn [mbind outcome_bind].
  destruct (merge_loop_ok (length myNodes + length theirNodes) myNodes theirNodes cm ct [] [] Hm Ht ltac:(lia))
    as (cm' & ct' & a' & b' & -> & Hm' & Ht' & Heq). cbn [mbind outcome_bind].
  rewrite Im, It, !drop_0 in Heq. rewrite Heq.
  rewrite merge_rest_ok by (done || lia). cbn [mbind outcome_bind].
  rewrite merge_rest_ok by (done || lia). done.
Qed.



(** On lists ordered by time, [ValidateMerkleTree] accepts exactly when
    the nodes before [ts] carry the same hashes on both sides. *)
Theorem validate_merkle_tree_spec myNodes theirNodes ts :
  nodes_sorted myNodes → nodes_sorted theirNodes →
  (ValidateMerkleTree myNodes theirNodes ts).2 = true ↔
    mn_Addr <$> filter (λ n, ts_lt (mn_UpdateTS n) ts) myNodes =
    mn_Addr <$> filter (λ n, ts_lt (mn_UpdateTS n) ts) theirNodes.
Proof. intros. unfold ValidateMerkleTree. rewrite !trim_filter by done. apply validate_loop_addrs. Qed.

Lemma validate_merkle_tree_spec_witness :
  let n := λ t a, MkNode 2 [a] (MkTs t 0) 1 [] in
  (ValidateMerkleTree [n 1 x01; n 9 x01]%Z [n 1 x01; n 9 x02]%Z (MkTs 5 0)).2 = true.
Proof.
  intros n. apply (validate_merkle_tree_spec [n 1 x01; n 9 x01]%Z [n 1 x01; n 9 x02]%Z (MkTs 5 0)).
  - repeat constructor; left; left; simpl; lia.
  - repeat constructor; left; left; simpl; lia.
  - vm_compute. reflexivity.
Defined.

(** When the hashes of two nodes differ, the timestamp reported for them
    is their node's whenever that lies before [ts], also where my node is the
    earlier one: the difference at my timestamp is not reported. *)
Theorem validate_reports_their_ts :
  let mine := MkNode 2 [x01] (MkTs 1 0) 1 [] in
  let theirs := MkNode 2 [x02] (MkTs 3 0) 1 [] in
  ValidateMerkleTree [mine] [theirs] (MkTs 5 0) = (MkTs 3 0, false) ∧
  ts_lt (mn_UpdateTS mine) (MkTs 3 0).
Proof. split; [vm_compute; reflexivity|left; simpl; lia]. Qed.
