(* ===== verification/Merkle.v ===== *)
(** * The merkle-tree-over-time of an oplog: [service/merkle.go]

    The leaves (level Now) are written with the oplog; each coarser level
    hashes the nodes of the level below that fall in its hour, day, month or
    year.  The tree also keeps, in memory and in the database, the hours whose
    nodes have to be generated again, and the times of the last generation and
    synchronisations. *)

From S2P Require Import Prelude GoTime CommonTypes Locks LevelDB PttDB MerkleNode.

Set Default Goal Selector "!".

(** ** Constants *)

Definition OffsetDBKeyPrefixPostfix : nat := 3.
Definition ValueTrue : bytes := [x01].
Definition DBMerkleGenerateTimePrefix : bytes := [x2e; x6d; x74; x67; x74].
Definition DBMerkleSyncTimePrefix : bytes := [x2e; x6d; x74; x73; x74].
Definition DBMerkleFailSyncTimePrefix : bytes := [x2e; x6d; x74; x66; x74].
Definition DBMerkleMetaPostfix : bytes := [x6d; x74].
Definition DBMerkleToUpdatePostfix : bytes := [x4d; x74].
Definition DBMerkleUpdatingPostfix : bytes := [x4d; x54].
Definition OffsetMerkleSyncTime : Z := 3600.

(** The JSON encoding of a list of [int64]. *)
Class JsonInts := {
  ints_Marshal : list Z → bytes;
  ints_Unmarshal : bytes → option (list Z);
  ints_roundtrip l : ints_Unmarshal (ints_Marshal l) = Some l;
}.

Section Merkle.
Context {S : Type} `{LevelDB S, Json, JsonInts, Crypto}.

(** [types.OffsetSecond], a package variable. *)
Variable OffsetSecond : Z.

(** ** State *)

Record Merkle := MkMerkle {
  DBOplogPrefix : bytes;
  DBMerklePrefix : bytes;
  dbMerkleMetaPrefix : bytes;
  dbMerkleToUpdatePrefixWithID : bytes;
  dbMerkleUpdatingPrefixWithID : bytes;
  PrefixID : PttID;
  m_db : LDBDatabase (S := S);
  LastGenerateTS : Timestamp;
  LastSyncTS : Timestamp;
  LastFailSyncTS : Timestamp;
  isBusyForceSync : bool;
  toUpdateTS : gset Z;
}.

Definition set_m_db (m : Merkle) (d : LDBDatabase) : Merkle :=
  MkMerkle (DBOplogPrefix m) (DBMerklePrefix m) (dbMerkleMetaPrefix m) (dbMerkleToUpdatePrefixWithID m)
    (dbMerkleUpdatingPrefixWithID m) (PrefixID m) d (LastGenerateTS m) (LastSyncTS m) (LastFailSyncTS m)
    (isBusyForceSync m) (toUpdateTS m).
Definition set_times (m : Merkle) (g s f : Timestamp) : Merkle :=
  MkMerkle (DBOplogPrefix m) (DBMerklePrefix m) (dbMerkleMetaPrefix m) (dbMerkleToUpdatePrefixWithID m)
    (dbMerkleUpdatingPrefixWithID m) (PrefixID m) (m_db m) g s f (isBusyForceSync m) (toUpdateTS m).
Definition set_toUpdateTS (m : Merkle) (u : gset Z) : Merkle :=
  MkMerkle (DBOplogPrefix m) (DBMerklePrefix m) (dbMerkleMetaPrefix m) (dbMerkleToUpdatePrefixWithID m)
    (dbMerkleUpdatingPrefixWithID m) (PrefixID m) (m_db m) (LastGenerateTS m) (LastSyncTS m) (LastFailSyncTS m)
    (isBusyForceSync m) u.
Definition set_busyForceSync (m : Merkle) (busy : bool) : Merkle :=
  MkMerkle (DBOplogPrefix m) (DBMerklePrefix m) (dbMerkleMetaPrefix m) (dbMerkleToUpdatePrefixWithID m)
    (dbMerkleUpdatingPrefixWithID m) (PrefixID m) (m_db m) (LastGenerateTS m) (LastSyncTS m) (LastFailSyncTS m)
    busy (toUpdateTS m).

(** ** Keys *)

Definition MarshalGenerateTimeKey (m : Merkle) : bytes :=
  Concat [Some (dbMerkleMetaPrefix m); Some DBMerkleGenerateTimePrefix; Some (PrefixID m)].
Definition MarshalSyncTimeKey (m : Merkle) : bytes :=
  Concat [Some (dbMerkleMetaPrefix m); Some DBMerkleSyncTimePrefix; Some (PrefixID m)].
Definition MarshalFailSyncTimeKey (m : Merkle) : bytes :=
  Concat [Some (dbMerkleMetaPrefix m); Some DBMerkleFailSyncTimePrefix; Some (PrefixID m)].
Definition DBPrefix (m : Merkle) : bytes := DBMerklePrefix m ++ PrefixID m.
Definition MarshalKey (m : Merkle) (level : Z) (ts : Timestamp) : bytes :=
  Concat [Some (DBMerklePrefix m); Some (PrefixID m); Some [byte_of_Z level]; Some (ts_marshal ts)].
Definition MarshalToUpdateTSKey (m : Merkle) (ts : Timestamp) : bytes :=
  Concat [Some (dbMerkleToUpdatePrefixWithID m); Some (be_enc 8 (u64 (Ts ts)))].
Definition MarshalUpdatingKey (m : Merkle) : bytes := dbMerkleUpdatingPrefixWithID m.
Definition tsFromToUpdateTSKey (key : bytes) : outcome Z :=
  rest ← slice_from (SizeDBKeyPrefix + SizePttID) key;
  ts ← be_uint 8 rest;
  Ok (i64 ts).

(** [ToKey] of a node *)
Definition ToKey (n : MerkleNode) (m : Merkle) : bytes :=
  if (mn_Level n =? MerkleTreeLevelNow)%Z then mn_Key n
  else MarshalKey m (mn_Level n) (UpdateTSToTS OffsetSecond n).

(** ** The stored times *)

(** [DBGet], then [json.Unmarshal] into a [DBable]. *)
Definition get_time (m : Merkle) (key : bytes) : outcome Timestamp :=
  val ← of_sum (Get (m_db m) key);
  match DBable_Unmarshal val with None => Err ErrDecode | Some ts => Ok ts end.

Definition GetGenerateTime (m : Merkle) : outcome Timestamp := get_time m (MarshalGenerateTimeKey m).
Definition GetSyncTime (m : Merkle) : outcome Timestamp :=
  match get_time m (MarshalSyncTimeKey m) with Err LDBErrNotFound => Ok ZeroTimestamp | r => r end.
Definition GetFailSyncTime (m : Merkle) : outcome Timestamp :=
  match get_time m (MarshalFailSyncTimeKey m) with Err LDBErrNotFound => Ok ZeroTimestamp | r => r end.

(** An error of [TryPut] and the new database. *)
Definition try_put_time (m : Merkle) (key : bytes) (ts : Timestamp) : Merkle * outcome (option GoErr) :=
  let '(d, r) := TryPut (m_db m) key (DBable_Marshal ts) ts in
  (set_m_db m d, match r with Ok (_, e) => Ok e | Err e => Ok (Some e) | Panic => Panic end).

Definition SaveGenerateTime (m : Merkle) (ts : Timestamp) : Merkle * outcome unit :=
  let '(m, r) := try_put_time m (MarshalGenerateTimeKey m) ts in
  match r with
  | Ok e =>
    if decide (e = None ∨ e = Some DBErrInvalidUpdateTS)
    then (set_times m ts (LastSyncTS m) (LastFailSyncTS m), Ok tt)
    else (m, match e with Some e => Err e | None => Ok tt end)
  | Err e => (m, Err e)
  | Panic => (m, Panic)
  end.

Definition ToGenerateTime (m : Merkle) : Timestamp :=
  let ts := LastGenerateTS m in
  if (Ts ts <? OffsetMerkleSyncTime * 3)%Z then ZeroTimestamp
  else MkTs (i64 (Ts ts - OffsetMerkleSyncTime * 2)) (NanoTs ts).

Definition SaveSyncTime (m : Merkle) (ts : Timestamp) : Merkle * outcome unit :=
  if IsLess ts (LastSyncTS m) then
    if (i64 (Ts (LastSyncTS m) - Ts ts) <? OffsetMerkleSyncTime)%Z then (m, Ok tt)
    else (m, Err DBErrInvalidUpdateTS)
  else
    let '(m, r) := try_put_time m (MarshalSyncTimeKey m) ts in
    match r with
    | Ok None => (set_times m (LastGenerateTS m) ts (LastFailSyncTS m), Ok tt)
    | Ok (Some e) | Err e => (m, Err e)
    | Panic => (m, Panic)
    end.

Definition ForceSaveSyncTime (m : Merkle) (ts : Timestamp) : Merkle * outcome unit :=
  let '(d, e) := Put (m_db m) (MarshalSyncTimeKey m) (DBable_Marshal ts) in
  let m := set_m_db m d in
  match e with
  | Some e => (m, Err e)
  | None => (set_times m (LastGenerateTS m) ts (LastFailSyncTS m), Ok tt)
  end.

Definition ToSyncTime (m : Merkle) : outcome Timestamp :=
  ts ← GetSyncTime m;
  if (Ts ts <? OffsetMerkleSyncTime * 3)%Z then Ok ZeroTimestamp
  else Ok (MkTs (i64 (Ts ts - OffsetMerkleSyncTime)) (NanoTs ts)).

Definition SaveFailSyncTime (m : Merkle) (ts : Timestamp) : Merkle * outcome unit :=
  let '(m, r) := try_put_time m (MarshalFailSyncTimeKey m) ts in
  match r with
  | Ok None => (set_times m (LastGenerateTS m) (LastSyncTS m) ts, Ok tt)
  | Ok (Some e) | Err e => (m, Err e)
  | Panic => (m, Panic)
  end.

(** [copy(prefix[OffsetDBKeyPrefixPostfix:], postfix)] on a copy of [prefix] *)
Definition with_postfix (prefix postfix : bytes) : outcome bytes :=
  rest ← slice_from OffsetDBKeyPrefixPostfix (CloneBytes prefix);
  Ok (take OffsetDBKeyPrefixPostfix prefix ++ go_copy rest postfix).

(** [err != nil && err != leveldb.ErrNotFound]; with the latter the zero
    timestamp is kept. *)
Definition or_zero (r : outcome Timestamp) : outcome Timestamp :=
  match r with Err LDBErrNotFound => Ok ZeroTimestamp | r => r end.

Definition NewMerkle (dbOplogPrefix dbMerklePrefix : bytes) (prefixID : PttID) (db : LDBDatabase) : outcome Merkle :=
  metaPrefix ← with_postfix dbMerklePrefix DBMerkleMetaPostfix;
  toUpdatePrefix ← with_postfix dbMerklePrefix DBMerkleToUpdatePostfix;
  updatingPrefix ← with_postfix dbMerklePrefix DBMerkleUpdatingPostfix;
  let m := MkMerkle dbOplogPrefix dbMerklePrefix metaPrefix (toUpdatePrefix ++ prefixID)
             (updatingPrefix ++ prefixID) prefixID db ZeroTimestamp ZeroTimestamp ZeroTimestamp false ∅ in
  lastGenerateTS ← or_zero (GetGenerateTime m);
  let m := set_times m lastGenerateTS ZeroTimestamp ZeroTimestamp in
  lastSyncTS ← or_zero (GetSyncTime m);
  let m := set_times m lastGenerateTS lastSyncTS ZeroTimestamp in
  lastFailSyncTS ← or_zero (GetFailSyncTime m);
  Ok (set_times m lastGenerateTS lastSyncTS lastFailSyncTS).

(** ** Iterators *)

Definition GetMerkleIter (m : Merkle) (level : Z) (ts nextTS : Timestamp) (listOrder : ListOrder) : Iterator :=
  NewIteratorWithRange (m_db m) (MkRange (Some (MarshalKey m level ts)) (Some (MarshalKey m level nextTS))) listOrder.

Definition GetMerkleIterByKey (m : Merkle) (startKey : bytes) (level : Z) (listOrder : ListOrder) : outcome Iterator :=
  NewIteratorWithPrefix (m_db m) startKey (DBPrefix m ++ [byte_of_Z level]) listOrder.

(** ** Generating the tree *)

Record gen_state := MkGen { g_addrBytes : bytes; g_eachAddr : bytes; g_nChildren : Z; g_tsBytes : bytes }.

Fixpoint gen_loop (items : list (bytes * bytes)) (g : gen_state) : outcome gen_state :=
  match items with
  | [] => Ok g
  | (_, val) :: items =>
    a ← slice_from MerkleTreeOffsetAddr val;
    let eachAddr := go_copy (g_eachAddr g) a in
    t ← slice_from MerkleTreeOffsetTS val;
    let tsBytes := go_copy (g_tsBytes g) t in
    gen_loop items (MkGen (g_addrBytes g ++ eachAddr) eachAddr (u32 (g_nChildren g + 1)) tsBytes)
  end.

(** [level - 1] on a [uint8] *)
Definition child_level (level : Z) : Z := ((level - 1) mod 256)%Z.

Definition SaveMerkleTreeCore (m : Merkle) (level : Z) (offsetTS nextTS : Timestamp) : Merkle * outcome Timestamp :=
  let iter := GetMerkleIter m (child_level level) offsetTS nextTS ListOrderNext in
  match gen_loop (iter_forward iter) (MkGen [] (replicate AddressLength x00) 0 (replicate SizeTimestamp x00)) with
  | Ok g =>
    let theAddr := Addr (g_addrBytes g) in
    let theKey := MarshalKey m level offsetTS in
    if (g_nChildren g =? 0)%Z then
      let '(d, _) := Delete (m_db m) theKey in (set_m_db m d, Ok ZeroTimestamp)
    else
      let theVal := node_Marshal (MkNode level theAddr offsetTS (g_nChildren g) []) in
      let '(d, e) := Put (m_db m) theKey theVal in
      let m := set_m_db m d in
      match e with
      | Some e => (m, Err e)
      | None => (m, UnmarshalTimestamp (g_tsBytes g))
      end
  | Err e => (m, Err e)
  | Panic => (m, Panic)
  end.

(** The levels of [SaveMerkleTree], in order, until one fails. *)
Fixpoint save_levels (m : Merkle) (ts : Timestamp) (levels : list Z) : Merkle * outcome unit :=
  match levels with
  | [] => (m, Ok tt)
  | l :: ls =>
    let '(offsetTS, nextTS) := level_interval OffsetSecond l ts in
    let '(m, r) := SaveMerkleTreeCore m l offsetTS nextTS in
    match r with Ok _ => save_levels m ts ls | Err e => (m, Err e) | Panic => (m, Panic) end
  end.

(** The body between the lock and the deferred unlock. *)
Definition save_tree_body (m : Merkle) (ts : Timestamp) : Merkle * outcome unit :=
  let '(offsetTS, nextTS) := ToHRTimestamp ts in
  let '(m, r) := SaveMerkleTreeCore m MerkleTreeLevelHR offsetTS nextTS in
  match r with
  | Ok newestTS =>
    let '(m, r) := save_levels m ts [MerkleTreeLevelDay; MerkleTreeLevelMonth; MerkleTreeLevelYear] in
    match r with
    | Ok _ => SaveGenerateTime m newestTS
    | r => (m, r)
    end
  | Err e => (m, Err e)
  | Panic => (m, Panic)
  end.

Definition SaveMerkleTree (m : Merkle) (ts : Timestamp) : Merkle * outcome unit :=
  let dbPrefix := DBPrefix m in
  match TryLockMap (lockMap (m_db m)) dbPrefix with
  | Ok l =>
    let '(m, r) := save_tree_body (set_m_db m (MkDB (db (m_db m)) l)) ts in
    match UnlockMap (lockMap (m_db m)) dbPrefix with
    | Ok l => (set_m_db m (MkDB (db (m_db m)) l), r)
    | _ => (m, r)
    end
  | Err e => (m, Err e)
  | Panic => (m, Panic)
  end.

(** ** Reading the tree *)

Definition GetNodeByKey (m : Merkle) (key : bytes) : outcome MerkleNode :=
  val ← of_sum (Get (m_db m) key); node_Unmarshal val.

Definition GetNodeByLevelTS (m : Merkle) (level : Z) (ts : Timestamp) : outcome MerkleNode :=
  if (level =? MerkleTreeLevelNow)%Z then Err SvcErrInvalidMerkle
  else GetNodeByKey m (MarshalKey m level ts).

(** The nodes of the records an iterator visits; a value that does not decode
    is skipped. *)
Fixpoint nodes_of (items : list (bytes * bytes)) : outcome (list MerkleNode) :=
  match items with
  | [] => Ok []
  | (_, val) :: items =>
    match node_Unmarshal val with
    | Ok n => ns ← nodes_of items; Ok (n :: ns)
    | Err _ => nodes_of items
    | Panic => Panic
    end
  end.

Definition GetMerkleTreeListCore (m : Merkle) (level : Z) (ts nextTS : Timestamp) : outcome (list MerkleNode) :=
  nodes_of (iter_forward (GetMerkleIter m level ts nextTS ListOrderNext)).

Definition GetMerkleTreeListByLevel := GetMerkleTreeListCore.

Definition GetMerkleTreeList (m : Merkle) (ts : Timestamp) (isNow : bool) :
    outcome (list MerkleNode * list MerkleNode) :=
  let '(offsetYearTS, _) := ToYearTimestamp OffsetSecond ts in
  yearList ← GetMerkleTreeListCore m MerkleTreeLevelYear ZeroTimestamp offsetYearTS;
  let '(offsetMonthTS, _) := ToMonthTimestamp OffsetSecond ts in
  monthList ← GetMerkleTreeListCore m MerkleTreeLevelMonth offsetYearTS offsetMonthTS;
  let '(offsetDayTS, _) := ToDayTimestamp ts in
  dayList ← GetMerkleTreeListCore m MerkleTreeLevelDay offsetMonthTS offsetDayTS;
  let '(offsetHourTS, _) := ToHRTimestamp ts in
  hrList ← GetMerkleTreeListCore m MerkleTreeLevelHR offsetDayTS offsetHourTS;
  let merkleTreeList := yearList ++ monthList ++ dayList ++ hrList in
  if isNow then
    nowList ← GetMerkleTreeListCore m MerkleTreeLevelNow offsetHourTS ts;
    Ok (merkleTreeList, nowList)
  else Ok (merkleTreeList, []).

Definition GetChildKeys (m : Merkle) (level : Z) (ts : Timestamp) : list bytes :=
  let '(startTS, endTS) := level_interval OffsetSecond level ts in
  CloneBytes <$> (iter_forward (GetMerkleIter m (child_level level) startTS endTS ListOrderNext)).*1.

Definition GetChildNodes (m : Merkle) (level : Z) (ts : Timestamp) : outcome (list MerkleNode) :=
  let '(startTS, endTS) := level_interval OffsetSecond level ts in
  nodes_of (iter_forward (GetMerkleIter m (child_level level) startTS endTS ListOrderNext)).

(** [getKeysFromMerkleKeys]: the oplog keys of leaves; other nodes and
    unreadable ones are skipped. *)
Fixpoint getKeysFromMerkleKeys (m : Merkle) (merkleKeys : list bytes) : outcome (list bytes) :=
  match merkleKeys with
  | [] => Ok []
  | key :: rest =>
    match GetNodeByKey m key with
    | Panic => Panic
    | Err _ => getKeysFromMerkleKeys m rest
    | Ok n =>
      if (mn_Level n =? MerkleTreeLevelNow)%Z
      then ks ← getKeysFromMerkleKeys m rest; Ok (mn_Key n :: ks)
      else getKeysFromMerkleKeys m rest
    end
  end.

(** ** Cleaning *)

(** [for iter.Next() { db.Delete(iter.Key()) }]; the iterator reads a snapshot. *)
Definition delete_iter (m : Merkle) (it : Iterator) : Merkle :=
  set_m_db m (set_db (m_db m) (ldb_delete_all (db (m_db m)) (iter_forward it).*1)).
Definition delete_level (m : Merkle) (level : Z) : Merkle :=
  delete_iter m (GetMerkleIter m level ZeroTimestamp MaxTimestamp ListOrderNext).
Definition delete_key (m : Merkle) (key : bytes) : Merkle := set_m_db m (Delete (m_db m) key).1.

Definition Clean (m : Merkle) : Merkle :=
  let m := delete_level m MerkleTreeLevelNow in
  let m := delete_level m MerkleTreeLevelHR in
  let m := delete_level m MerkleTreeLevelDay in
  let m := delete_level m MerkleTreeLevelMonth in
  let m := delete_level m MerkleTreeLevelYear in
  let m := delete_key m (MarshalGenerateTimeKey m) in
  let m := delete_key m (MarshalSyncTimeKey m) in
  delete_key m (MarshalFailSyncTimeKey m).

(** ** The hours to update *)

Definition ResetUpdateTS (m : Merkle) : Merkle := set_toUpdateTS m ∅.

Definition put_true (m : Merkle) (key : bytes) : Merkle := set_m_db m (Put (m_db m) key ValueTrue).1.

Definition SetUpdateTS (m : Merkle) (ts : Timestamp) : Merkle :=
  let '(hrTS, _) := ToHRTimestamp ts in
  let m := put_true m (MarshalToUpdateTSKey m hrTS) in
  set_toUpdateTS m ({[Ts hrTS]} ∪ toUpdateTS m).

Definition SetUpdateTS2 (m : Merkle) (ts ts2 : Timestamp) : Merkle :=
  let '(hrTS, _) := ToHRTimestamp ts in
  let '(hrTS2, _) := ToHRTimestamp ts2 in
  let m := set_toUpdateTS m ({[Ts hrTS]} ∪ toUpdateTS m) in
  let m := set_toUpdateTS m ({[Ts hrTS2]} ∪ toUpdateTS m) in
  let m := put_true m (MarshalToUpdateTSKey m hrTS) in
  if IsEqual hrTS hrTS2 then m else put_true m (MarshalToUpdateTSKey m hrTS2).

(** [NewIteratorWithPrefix(nil, dbMerkleToUpdatePrefixWithID, ListOrderNext)] *)
Definition to_update_iter (m : Merkle) : outcome Iterator :=
  NewIteratorWithPrefix (m_db m) [] (dbMerkleToUpdatePrefixWithID m) ListOrderNext.

Definition resetToUpdateTSDB (m : Merkle) : Merkle :=
  match to_update_iter m with Ok it => delete_iter m it | _ => m end.

Definition getAndResetToUpdateTSs (m : Merkle) : Merkle * gset Z :=
  let orig := toUpdateTS m in
  (resetToUpdateTSDB (set_toUpdateTS m ∅), orig).

(** The order in which [range] visits the map is not specified. *)
Definition GetAndResetToUpdateTSList (range_order : gset Z → list Z) (m : Merkle) : Merkle * list Z :=
  let '(m, toUpdateTSs) := getAndResetToUpdateTSs m in
  let toUpdateTSList := range_order toUpdateTSs in
  (set_m_db m (Put (m_db m) (MarshalUpdatingKey m) (ints_Marshal toUpdateTSList)).1, toUpdateTSList).

Fixpoint load_loop (items : list (bytes * bytes)) (acc : gset Z) : outcome (gset Z) :=
  match items with
  | [] => Ok acc
  | (key, _) :: items => ts ← tsFromToUpdateTSKey key; load_loop items ({[ts]} ∪ acc)
  end.

Definition LoadToUpdateTSs (m : Merkle) : outcome Merkle :=
  it ← to_update_iter m;
  u ← load_loop (iter_forward it) (toUpdateTS m);
  Ok (set_toUpdateTS m u).

Definition LoadUpdatingTSList (m : Merkle) : outcome (list Z) :=
  val ← of_sum (Get (m_db m) (MarshalUpdatingKey m));
  match ints_Unmarshal val with None => Err ErrDecode | Some l => Ok l end.

Definition ResetUpdatingTSList (m : Merkle) : Merkle := delete_key m (MarshalUpdatingKey m).

(** ** Forced synchronisation *)

Definition trySetBusyForceSync (m : Merkle) : outcome Merkle :=
  if isBusyForceSync m then Err SvcErrBusy else Ok (set_busyForceSync m true).
Definition resetBusyForceSync (m : Merkle) : Merkle := set_busyForceSync m false.

(** ** Keys: lemmas *)

Implicit Types (m : Merkle) (t ts : Timestamp) (l level : Z).

Lemma MarshalKey_eq m level ts : MarshalKey m level ts = (DBPrefix m ++ [byte_of_Z level]) ++ ts_marshal ts.
Proof.
  unfold MarshalKey, DBPrefix. rewrite Concat_spec. unfold opt_concat. cbn [fmap list_fmap default concat].
  rewrite app_nil_r, <- !app_assoc. done.
Qed.

(** The contents of the tree's store. *)
Definition mview m : gmap bytes bytes := ldb_view (db (m_db m)).
Definition mhealthy m : Prop := healthy (db (m_db m)).

Definition key_range m level (iv : Timestamp * Timestamp) : Range :=
  MkRange (Some (MarshalKey m level iv.1)) (Some (MarshalKey m level iv.2)).

(** What lies between two keys with a common prefix has the prefix. *)
Lemma between_prefix (p a b k : bytes) :
  bytes_le (p ++ a) k → bytes_lt k (p ++ b) → ∃ r, k = p ++ r ∧ bytes_le a r ∧ bytes_lt r b.
Proof.
  revert k. induction p as [|c p IH]; intros k Hle Hlt; [by exists k|].
  destruct k as [|d k]; [done|]. unfold bytes_le, bytes_lt in *; simpl in *.
  destruct (Z.compare_spec (byteZ c) (byteZ d)) as [E|?|?]; [|rewrite (proj2 (Z.compare_gt_iff _ _)) in Hlt by lia; done|done].
  apply byteZ_inj in E as <-. rewrite Z.compare_refl in *.
  destruct (IH k Hle Hlt) as (r & -> & ? & ?). by exists r.
Qed.

Lemma byte_of_Z_inj l1 l2 : (0 ≤ l1 < 256)%Z → (0 ≤ l2 < 256)%Z → byte_of_Z l1 = byte_of_Z l2 → l1 = l2.
Proof. intros ?? E%(f_equal byteZ). rewrite !byteZ_of_Z, !Z.mod_small in E by lia. done. Qed.

(** A key of the tree is in a range of the tree when the levels agree and its
    time lies in the interval. *)
Lemma MarshalKey_in_range m l t level iv :
  (0 ≤ l < 256)%Z → (0 ≤ level < 256)%Z → ts_pos t → ts_pos iv.1 → ts_pos iv.2 →
  in_range (MarshalKey m l t) (key_range m level iv) ↔ l = level ∧ ts_in t iv.
Proof.
  intros Hl Hlv Ht Hp1 Hp2. unfold in_range, key_range, ts_in; simpl. rewrite !MarshalKey_eq. split.
  - intros [Hle Hlt]. destruct (between_prefix _ _ _ _ Hle Hlt) as (r & Hr & Hle' & Hlt').
    apply app_inj_1 in Hr as [Hp <-]; [|by rewrite !length_app].
    apply app_inj_1 in Hp as [_ [= Hb]]; [|done].
    split; [by apply byte_of_Z_inj|]. rewrite ts_marshal_le in Hle' by done. by rewrite ts_marshal_lt in Hlt'.
  - intros [-> [Hle Hlt]]. unfold bytes_le, bytes_lt. rewrite !bytes_compare_app.
    split; [by apply ts_marshal_le|by apply ts_marshal_lt].
Qed.

Lemma MarshalKey_inj m l t l2 t2 :
  (0 ≤ l < 256)%Z → (0 ≤ l2 < 256)%Z → ts_wf t → ts_wf t2 →
  MarshalKey m l t = MarshalKey m l2 t2 → l = l2 ∧ t = t2.
Proof.
  intros ???? E. rewrite !MarshalKey_eq in E. apply app_inj_1 in E as [Hp Ht]; [|by rewrite !length_app].
  apply app_inj_1 in Hp as [_ [= Hb]]; [|done]. split; [by apply byte_of_Z_inj|by apply ts_marshal_inj].
Qed.

(** What a range yields depends only on the contents in the range. *)
Lemma ldb_range_ext (s1 s2 : S) r :
  healthy s1 → healthy s2 → (∀ k, in_range k r → ldb_view s1 !! k = ldb_view s2 !! k) →
  ldb_range s1 r = ldb_range s2 r.
Proof.
  intros Hh1 Hh2 He. apply key_sorted_unique; [apply ldb_range_sorted..|].
  intros [k v]. rewrite !ldb_range_elem by done. split; intros [Hv Hr]; split; try done.
  - by rewrite <- He.
  - by rewrite He.
Qed.

(** ** The node a level should have *)

(** The records of the level below in the interval. *)
Definition children m level (iv : Timestamp * Timestamp) : list (bytes * bytes) :=
  ldb_range (db (m_db m)) (key_range m (child_level level) iv).

Definition addr_of (val : bytes) : bytes := take AddressLength (drop MerkleTreeOffsetAddr val).

Definition expected m level iv : option bytes :=
  let cs := children m level iv in
  let n := u32 (Z.of_nat (length cs)) in
  if (n =? 0)%Z then None
  else Some (node_Marshal (MkNode level (Addr (concat (addr_of <$> cs.*2))) iv.1 n [])).

(** The stored node of the interval of [t] is the one its children give. *)
Definition consistent m level t : Prop :=
  let iv := level_interval OffsetSecond level t in
  mview m !! MarshalKey m level iv.1 = expected m level iv.

(** Everything under the tree's prefix is an encoded node. *)
Definition tree_ok m : Prop :=
  ∀ k v, mview m !! k = Some v → DBPrefix m `prefix_of` k → ∃ n, node_wf n ∧ v = node_Marshal n.

Lemma GetMerkleIter_items m level ts nextTS :
  iter_forward (GetMerkleIter m level ts nextTS ListOrderNext) =
    ldb_range (db (m_db m)) (key_range m level (ts, nextTS)).
Proof. unfold GetMerkleIter, NewIteratorWithRange. by rewrite iter_forward_new. Qed.

Lemma node_Marshal_drop n :
  drop MerkleTreeOffsetAddr (node_Marshal n) =
    mn_Addr n ++ ts_marshal (mn_UpdateTS n) ++ be_enc 4 (mn_NChildren n) ++ mn_Key n.
Proof. by rewrite node_Marshal_eq. Qed.

Lemma go_copy_prefix {A} (dst a b : list A) : length a = length dst → go_copy dst (a ++ b) = a.
Proof.
  intros Hl. unfold go_copy. rewrite take_app_length' by done. rewrite drop_ge, app_nil_r; [done|].
  rewrite length_app. lia.
Qed.

(** The loop over well-formed records: the hashes one after the other, the
    count, and the timestamp of the last. *)
Lemma gen_loop_ok items g :
  Forall (λ p, ∃ n, node_wf n ∧ p.2 = node_Marshal n) items →
  length (g_eachAddr g) = AddressLength → length (g_tsBytes g) = SizeTimestamp →
  ∃ e (t : bytes), gen_loop items g =
    Ok (MkGen (g_addrBytes g ++ concat (addr_of <$> items.*2)) e
          (if decide (items = []) then g_nChildren g else u32 (g_nChildren g + Z.of_nat (length items))) t) ∧
    if decide (items = []) then t = g_tsBytes g
    else ∃ ts, (0 ≤ NanoTs ts < BILLION)%Z ∧ ts_wf ts ∧ t = ts_marshal ts.
Proof.
  intros Hf. revert g. induction Hf as [|[k v] items (n & Hn & Hv) _ IH]; intros g He Ht.
  { exists (g_eachAddr g), (g_tsBytes g). rewrite app_nil_r. by destruct g. }
  simpl in Hv. subst v. pose proof Hn as (_ & Ha & Hts & Hnano & _).
  pose proof (ts_marshal_length (mn_UpdateTS n)) as Hlen.
  cbn [gen_loop].
  assert (slice_from MerkleTreeOffsetAddr (node_Marshal n) =
    Ok (mn_Addr n ++ ts_marshal (mn_UpdateTS n) ++ be_enc 4 (mn_NChildren n) ++ mn_Key n)) as ->.
  { rewrite node_Marshal_eq. by apply slice_from_app. }
  assert (slice_from MerkleTreeOffsetTS (node_Marshal n) =
    Ok (ts_marshal (mn_UpdateTS n) ++ be_enc 4 (mn_NChildren n) ++ mn_Key n)) as ->.
  { rewrite node_Marshal_eq, (app_assoc [_]). apply slice_from_app. rewrite length_app, Ha. done. }
  cbn [mbind outcome_bind]. rewrite !go_copy_prefix by congruence.
  destruct (IH (MkGen (g_addrBytes g ++ mn_Addr n) (mn_Addr n) (u32 (g_nChildren g + 1)) (ts_marshal (mn_UpdateTS n))))
    as (e & t & -> & Hor); [done..|].
  exists e, t. cbn [g_addrBytes g_nChildren fmap list_fmap snd concat]. split.
  - f_equal. f_equal.
    + rewrite <- app_assoc. f_equal. unfold addr_of at 2. rewrite node_Marshal_drop.
      by rewrite take_app_length' by done.
    + rewrite (decide_False (P := _ :: _ = [])) by done. case_decide as Hi; [subst items; simpl; f_equal; lia|].
      unfold u32. rewrite Zplus_mod_idemp_l. f_equal. simpl length. lia.
  - rewrite decide_False by done. case_decide; [|done]. exists (mn_UpdateTS n).
    split; [done|]. split; [|done]. split; [done|]. unfold BILLION in Hnano. word.
Qed.

Lemma children_ok m level iv :
  mhealthy m → tree_ok m → Forall (λ p, ∃ n, node_wf n ∧ p.2 = node_Marshal n) (children m level iv).
Proof.
  intros Hh Hok. apply Forall_forall. intros [k v] [Hv [Hle Hlt]]%ldb_range_elem; [|done].
  simpl in Hle, Hlt. rewrite MarshalKey_eq in Hle, Hlt.
  destruct (between_prefix _ _ _ _ Hle Hlt) as (r & -> & _). apply (Hok _ _ Hv).
  exists ([byte_of_Z (child_level level)] ++ r). by rewrite <- app_assoc.
Qed.

Definition level_ok (l : Z) : Prop := (MerkleTreeLevelHR ≤ l ≤ MerkleTreeLevelYear)%Z.
Definition key_ts (t : Timestamp) : Prop := ts_pos t ∧ (NanoTs t < BILLION)%Z.

(** [SaveMerkleTreeCore] writes the expected node, and only that. *)
Lemma SaveMerkleTreeCore_ok m level o n :
  mhealthy m → tree_ok m →
  ∃ s t, SaveMerkleTreeCore m level o n = (set_m_db m (MkDB s (lockMap (m_db m))), Ok t) ∧ healthy s ∧
    ldb_view s = partial_alter (λ _, expected m level (o, n)) (MarshalKey m level o) (mview m).
Proof.
  intros Hh Hok. unfold SaveMerkleTreeCore. rewrite GetMerkleIter_items. fold (children m level (o, n)).
  destruct (gen_loop_ok (children m level (o, n))
    (MkGen [] (replicate AddressLength x00) 0 (replicate SizeTimestamp x00)) (children_ok m level _ Hh Hok))
    as (e & t & -> & Ht); [done..|].
  unfold expected. cbv zeta. cbn [g_addrBytes g_nChildren g_tsBytes fst app].
  destruct (children m level (o, n)) as [|c cs] eqn:Ec.
  - destruct (ldb_delete_ok (db (m_db m)) (MarshalKey m level o) Hh) as (D1 & D2 & D3).
    cbn. unfold Delete. destruct (ldb_delete _ _) as [s er]. simpl in *. subst er.
    eexists s, _. split; [done|]. split; [done|]. by rewrite D3.
  - rewrite !(decide_False (P := _ :: _ = [])) in * by done. rewrite Z.add_0_l.
    destruct (u32 _ =? 0)%Z.
    + destruct (ldb_delete_ok (db (m_db m)) (MarshalKey m level o) Hh) as (D1 & D2 & D3).
      unfold Delete. destruct (ldb_delete _ _) as [s er]. simpl in *. subst er.
      eexists s, _. split; [done|]. split; [done|]. by rewrite D3.
    + set (v := node_Marshal _).
      destruct (ldb_put_ok (db (m_db m)) (MarshalKey m level o) v Hh) as (D1 & D2 & D3).
      unfold Put. destruct (ldb_put _ _ _) as [s er]. cbn [fst snd] in *. subst er.
      destruct Ht as (ts & Hn & Hw & ->). exists s, ts. split; [|by rewrite D3]. f_equal.
      rewrite <- (app_nil_r (ts_marshal ts)), unmarshal_marshal_app by done.
      by rewrite (proj2 (Z.leb_gt _ _)) by lia.
Qed.

Lemma Addr_length b : length (Addr b) = AddressLength.
Proof. unfold Addr. rewrite length_take, length_drop, Keccak256_length. done. Qed.

(** The new contents are well-formed. *)
Lemma tree_ok_save m level o n s :
  mhealthy m → tree_ok m → (0 ≤ level < 256)%Z → key_ts o →
  ldb_view s = partial_alter (λ _, expected m level (o, n)) (MarshalKey m level o) (mview m) →
  tree_ok (set_m_db m (MkDB s (lockMap (m_db m)))).
Proof.
  intros Hh Hok Hl [[[Ho1 Ho2] Ho3] Ho4] Hv k v. unfold mview; simpl. rewrite Hv.
  destruct (decide (k = MarshalKey m level o)) as [->|Hk].
  - rewrite lookup_partial_alter_eq. unfold expected. cbv zeta. destruct (u32 _ =? 0)%Z; [done|].
    intros [= <-] _. eexists. split; [|done]. unfold node_wf; simpl.
    split; [done|]. split; [apply Addr_length|]. split; [done|]. split; [split; [apply Ho2|done]|].
    unfold u32, in_u32. apply Z.mod_pos_bound. lia.
  - rewrite lookup_partial_alter_ne by done. apply Hok.
Qed.

(** ** The intervals of the levels *)

Abbreviation iv := (level_interval 0).

Lemma level_cases l :
  level_ok l → l = MerkleTreeLevelHR ∨ l = MerkleTreeLevelDay ∨ l = MerkleTreeLevelMonth ∨ l = MerkleTreeLevelYear.
Proof. unfold level_ok, MerkleTreeLevelHR, MerkleTreeLevelDay, MerkleTreeLevelMonth, MerkleTreeLevelYear. lia. Qed.

Lemma ts_in_sub t i j : ts_in t i → iv_sub i j → ts_in t j.
Proof. intros [??] [??]. split; [by transitivity i.1|by eapply ts_lt_le_trans]. Qed.

Lemma iv_self l t : level_ok l → ts_ok t → ts_in t (iv l t).
Proof.
  intros Hl Ht. destruct (levels_nested t Ht) as (? & ? & ? & ?).
  destruct (level_cases l Hl) as [->|[->|[->| ->]]]; cbn; eauto using ts_in_sub.
Qed.

Lemma iv_nested l t : level_ok l → level_ok (l + 1) → ts_ok t → iv_sub (iv l t) (iv (l + 1) t).
Proof.
  intros Hl Hl2 Ht. destruct (levels_nested t Ht) as (_ & ? & ? & ?).
  destruct (level_cases l Hl) as [->|[->|[->| ->]]]; try done. by destruct Hl2.
Qed.

Lemma iv_same l t t2 : level_ok l → ts_ok t → ts_ok t2 → ts_in t2 (iv l t) → iv l t2 = iv l t.
Proof.
  intros Hl Ht Ht2 Hin. destruct (levels_partition t t2 Ht Ht2) as (? & ? & ? & ?).
  destruct (level_cases l Hl) as [->|[->|[->| ->]]]; cbn in *; auto.
Qed.

Lemma iv_pos l t : level_ok l → ts_ok t → ts_pos (iv l t).1 ∧ ts_pos (iv l t).2.
Proof.
  intros Hl Ht. destruct (intervals_pos t Ht) as (? & ? & ? & ?).
  destruct (level_cases l Hl) as [->|[->|[->| ->]]]; cbn in *; auto.
Qed.

Lemma iv_start_nano l t : level_ok l → NanoTs (iv l t).1 = 0%Z.
Proof.
  intros Hl. destruct (level_cases l Hl) as [->|[->|[->| ->]]]; [done..| |].
  - change (iv MerkleTreeLevelMonth t) with (ToMonthTimestamp 0 t). unfold ToMonthTimestamp. destruct (civil_from_days _) as [[y mo] d]. by destruct (next_month y mo).
  - change (iv MerkleTreeLevelYear t) with (ToYearTimestamp 0 t). unfold ToYearTimestamp. by destruct (civil_from_days _) as [[y mo] d].
Qed.

Lemma iv_key_ts l t : level_ok l → ts_ok t → key_ts (iv l t).1.
Proof. intros Hl Ht. split; [by apply iv_pos|]. by rewrite iv_start_nano. Qed.

(** The start of an interval is a timestamp of it. *)
Lemma iv_start l t : level_ok l → ts_ok t → ts_ok (iv l t).1 ∧ ts_in (iv l t).1 (iv l t).
Proof.
  intros Hl Ht. destruct (iv_self l t Hl Ht) as [Hle Hlt]. destruct (iv_pos l t Hl Ht) as [[Hw Hp] _].
  split.
  - split; [done|]. split; [done|]. destruct Ht as [_ [_ Ht]]. destruct Hle as [[?|[E ?]]| ->]; [lia|lia|done].
  - split; [done|]. by eapply ts_le_lt_trans.
Qed.

Lemma iv_eq_start l t t2 : level_ok l → ts_ok t → ts_ok t2 → (iv l t).1 = (iv l t2).1 → iv l t = iv l t2.
Proof.
  intros Hl Ht Ht2 E. destruct (iv_start l t Hl Ht) as [Hok Hin]. destruct (iv_start l t2 Hl Ht2) as [Hok2 Hin2].
  rewrite <- (iv_same l t (iv l t).1), <- (iv_same l t2 (iv l t2).1) by done. by rewrite E.
Qed.

(** The parent interval that contains the start of an interval is its own. *)
Lemma iv_parent l t t2 :
  level_ok l → level_ok (l + 1) → ts_ok t → ts_ok t2 → ts_in (iv l t).1 (iv (l + 1) t2) → iv (l + 1) t2 = iv (l + 1) t.
Proof.
  intros Hl Hl1 Ht Ht2 Hin. destruct (iv_start l t Hl Ht) as [Hok [_ Hlt]].
  destruct (iv_nested l t Hl Hl1 Ht) as [Hs He].
  rewrite <- (iv_same (l + 1) t2 (iv l t).1) by done. apply iv_same; [done..|].
  split; [done|]. by eapply ts_lt_le_trans.
Qed.

(** ** Saving keeps the tree consistent *)

Section zero_offset.
Hypothesis Hoff : OffsetSecond = 0%Z.

Lemma write_children m s lk f l t level i :
  level_ok l → level_ok level → ts_ok t → ts_pos i.1 → ts_pos i.2 → mhealthy m → healthy s →
  ldb_view s = partial_alter f (MarshalKey m l (iv l t).1) (mview m) →
  (level = l + 1 → ¬ ts_in (iv l t).1 i)%Z →
  children (set_m_db m (MkDB s lk)) level i = children m level i.
Proof.
  intros Hl Hlv Ht Hi1 Hi2 Hm Hs Hv Hne. apply ldb_range_ext; [done..|]. intros k Hk.
  simpl. rewrite Hv. apply lookup_partial_alter_ne. intros <-.
  change (key_range (set_m_db m (MkDB s lk)) (child_level level) i) with (key_range m (child_level level) i) in Hk.
  unfold level_ok, MerkleTreeLevelHR, MerkleTreeLevelYear, child_level in *.
  rewrite Z.mod_small in Hk by lia.
  apply MarshalKey_in_range in Hk as [Hk1 Hk2]; [|lia..|by apply iv_pos|done|done].
  apply Hne; [lia|done].
Qed.

Lemma save_step m s lk l ts l' t :
  level_ok l → ts_ok ts → level_ok l' → ts_ok t → mhealthy m → healthy s →
  ldb_view s = partial_alter (λ _, expected m l (iv l ts)) (MarshalKey m l (iv l ts).1) (mview m) →
  let m' := set_m_db m (MkDB s lk) in
  (l' = l → iv l' t = iv l' ts → consistent m' l' t) ∧
  (consistent m l' t → ¬ (l' = l + 1 ∧ iv l' t = iv l' ts)%Z → consistent m' l' t).
Proof.
  intros Hl Hts Hl' Ht Hm Hs Hv m'. unfold consistent. rewrite Hoff. cbv zeta.
  destruct (iv_pos l' t Hl' Ht) as [Hp1 Hp2].
  assert ((l' = l + 1)%Z → ts_in (iv l ts).1 (iv l' t) → iv l' t = iv l' ts) as Hpar.
  { intros -> Hin. by apply (iv_parent l ts t). }
  assert (¬ (l' = l + 1 ∧ iv l' t = iv l' ts)%Z → expected m' l' (iv l' t) = expected m l' (iv l' t)) as Hex.
  { intros Hn. unfold expected. subst m'.
    rewrite (write_children m s lk (λ _, expected m l (iv l ts)) l ts l' (iv l' t)); try done. tauto. }
  change (MarshalKey m' l' (iv l' t).1) with (MarshalKey m l' (iv l' t).1).
  unfold mview at 1 3. simpl. rewrite Hv. split.
  - intros -> E. rewrite Hex by lia. rewrite E. by rewrite lookup_partial_alter_eq.
  - intros Hc Hn. rewrite Hex by done.
    destruct (decide (MarshalKey m l (iv l ts).1 = MarshalKey m l' (iv l' t).1)) as [Ek|Ek].
    + rewrite Ek. rewrite lookup_partial_alter_eq.
      apply MarshalKey_inj in Ek as [<- E]; [|unfold level_ok, MerkleTreeLevelHR, MerkleTreeLevelYear in *; lia..
        |by apply iv_pos|by apply Hp1].
      by rewrite (iv_eq_start l ts t).
    + by rewrite lookup_partial_alter_ne.
Qed.

(** After the levels up to [l] have been saved for [ts], from the state [m0]. *)
Definition saved_upto m0 ts (l : Z) m : Prop :=
  ∃ s, m = set_m_db m0 (MkDB s (lockMap (m_db m0))) ∧ healthy s ∧ tree_ok m ∧
    (∀ k, ¬ DBPrefix m0 `prefix_of` k → ldb_view s !! k = mview m0 !! k) ∧
    (∀ l' t, level_ok l' → ts_ok t → iv l' t = iv l' ts → (l' ≤ l)%Z → consistent m l' t) ∧
    (∀ l' t, level_ok l' → ts_ok t → iv l' t ≠ iv l' ts → consistent m0 l' t → consistent m l' t).

Lemma saved_start m ts : mhealthy m → tree_ok m → saved_upto m ts MerkleTreeLevelNow m.
Proof.
  intros Hh Hok. exists (db (m_db m)). split; [by destruct m as [????????????]; destruct m_db0|].
  split_and!; try done. intros l' t Hl' _ _ Hle. unfold level_ok, MerkleTreeLevelHR, MerkleTreeLevelNow in *. lia.
Qed.

Lemma saved_next m0 ts l m :
  ts_ok ts → level_ok (l + 1) → saved_upto m0 ts l m →
  ∃ m' t, SaveMerkleTreeCore m (l + 1) (iv (l + 1) ts).1 (iv (l + 1) ts).2 = (m', Ok t) ∧ saved_upto m0 ts (l + 1) m'.
Proof.
  intros Hts Hl (s & Em & Hs & Hok & Hfr & Hsame & Hdiff).
  assert (mhealthy m) as Hm by (by rewrite Em).
  destruct (SaveMerkleTreeCore_ok m (l + 1) (iv (l + 1) ts).1 (iv (l + 1) ts).2 Hm Hok) as (s' & t & -> & Hs' & Hv).
  rewrite <- surjective_pairing in Hv.
  assert ((0 ≤ l + 1 < 256)%Z) as Hrange by (unfold level_ok, MerkleTreeLevelHR, MerkleTreeLevelYear in Hl; lia).
  eexists _, t. split; [done|]. exists s'. split_and!.
  - rewrite Em. done.
  - done.
  - apply (tree_ok_save m (l + 1) (iv (l + 1) ts).1 (iv (l + 1) ts).2); try done.
    by apply iv_key_ts.
  - intros k Hk. rewrite Hv, lookup_partial_alter_ne.
    + rewrite Em. by apply Hfr.
    + intros <-. apply Hk. rewrite MarshalKey_eq, Em, <- app_assoc. by eexists.
  - intros l' t' Hl' Ht' E Hle.
    destruct (save_step m s' (lockMap (m_db m)) (l + 1) ts l' t') as [A B]; try done.
    destruct (decide (l' = l + 1)%Z) as [El|El]; [by apply A|].
    apply B; [|lia]. apply Hsame; [done..|lia].
  - intros l' t' Hl' Ht' E Hc.
    destruct (save_step m s' (lockMap (m_db m)) (l + 1) ts l' t') as [A B]; try done.
    apply B; [by apply Hdiff|]. by intros [_ ?].
Qed.

(** The four levels in turn. *)
Lemma saved_all m ts :
  mhealthy m → tree_ok m → ts_ok ts →
  ∃ m1 m' t, SaveMerkleTreeCore m MerkleTreeLevelHR (ToHRTimestamp ts).1 (ToHRTimestamp ts).2 = (m1, Ok t) ∧
    save_levels m1 ts [MerkleTreeLevelDay; MerkleTreeLevelMonth; MerkleTreeLevelYear] = (m', Ok tt) ∧
    saved_upto m ts MerkleTreeLevelYear m'.
Proof.
  intros Hh Hok Hts. pose proof (saved_start m ts Hh Hok) as H0'.
  destruct (saved_next m ts MerkleTreeLevelNow m Hts ltac:(done) H0') as (m1 & t1 & E1 & H1').
  destruct (saved_next m ts (MerkleTreeLevelNow + 1)%Z m1 Hts ltac:(done) H1') as (m2 & t2 & E2 & H2').
  destruct (saved_next m ts (MerkleTreeLevelNow + 1 + 1)%Z m2 Hts ltac:(done) H2') as (m3 & t3 & E3 & H3').
  destruct (saved_next m ts (MerkleTreeLevelNow + 1 + 1 + 1)%Z m3 Hts ltac:(done) H3') as (m4 & t4 & E4 & H4').
  exists m1, m4, t1. split; [exact E1|]. split; [|exact H4'].
  unfold save_levels. rewrite Hoff.
  rewrite (surjective_pairing (iv MerkleTreeLevelDay ts)), (surjective_pairing (iv MerkleTreeLevelMonth ts)),
    (surjective_pairing (iv MerkleTreeLevelYear ts)).
  change (MerkleTreeLevelNow + 1 + 1)%Z with MerkleTreeLevelDay in E2.
  change (MerkleTreeLevelNow + 1 + 1 + 1)%Z with MerkleTreeLevelMonth in E3.
  change (MerkleTreeLevelNow + 1 + 1 + 1 + 1)%Z with MerkleTreeLevelYear in E4.
  rewrite E2, E3, E4. done.
Qed.
End zero_offset.

(** ** The prefixes of a tree *)

(** The five-byte prefixes differ from the prefix of the nodes. *)
Definition merkle_wf m : Prop :=
  length (DBMerklePrefix m) = SizeDBKeyPrefix ∧ length (PrefixID m) = SizePttID ∧
  length (dbMerkleMetaPrefix m) = SizeDBKeyPrefix ∧ dbMerkleMetaPrefix m ≠ DBMerklePrefix m ∧
  (∃ p, dbMerkleToUpdatePrefixWithID m = p ++ PrefixID m ∧ length p = SizeDBKeyPrefix ∧
        p ≠ DBMerklePrefix m ∧ p ≠ dbMerkleMetaPrefix m ∧
        ∃ q, dbMerkleUpdatingPrefixWithID m = q ++ PrefixID m ∧ length q = SizeDBKeyPrefix ∧ q ≠ p).

Lemma with_postfix_eq a b c d e postfix :
  length postfix = 2 → with_postfix [a; b; c; d; e] postfix = Ok ([a; b; c] ++ postfix).
Proof.
  intros Hl. unfold with_postfix. rewrite CloneBytes_id. simpl. unfold go_copy. simpl length.
  rewrite take_ge by lia. rewrite Hl. simpl. by rewrite app_nil_r.
Qed.

Lemma NewMerkle_wf opPrefix prefix (id : PttID) (d : LDBDatabase) m :
  length prefix = SizeDBKeyPrefix → length id = SizePttID →
  drop OffsetDBKeyPrefixPostfix prefix ∉ [DBMerkleMetaPostfix; DBMerkleToUpdatePostfix] →
  NewMerkle opPrefix prefix id d = Ok m → merkle_wf m ∧ m_db m = d ∧ toUpdateTS m = ∅.
Proof.
  intros Hp Hid Hpost Hm. destruct prefix as [|a [|b [|c [|x [|y [|z prefix]]]]]]; try done.
  unfold NewMerkle in Hm. rewrite !with_postfix_eq in Hm by done. cbn [mbind outcome_bind] in Hm.
  do 3 (destruct (or_zero _); cbn [mbind outcome_bind] in Hm; [|done..]).
  injection Hm as <-. split; [|done]. unfold merkle_wf; simpl. simpl in Hpost.
  rewrite not_elem_of_cons, list_elem_of_singleton in Hpost. destruct Hpost as [Hn1 Hn2].
  split_and!; try done.
  - intros [= <- <-]. by apply Hn1.
  - exists [a; b; c; x4d; x74]. split_and!; try done.
    + intros [= <- <-]. by apply Hn2.
    + by exists [a; b; c; x4d; x54].
Qed.

Lemma meta_key_not_tree m x : merkle_wf m → ¬ DBPrefix m `prefix_of` dbMerkleMetaPrefix m ++ x.
Proof.
  intros (Hp & _ & Hmeta & Hne & _) [r Hr]. unfold DBPrefix in Hr. rewrite <- app_assoc in Hr.
  apply app_inj_1 in Hr as [E _]; congruence.
Qed.

Lemma gen_key_eq m : MarshalGenerateTimeKey m = dbMerkleMetaPrefix m ++ DBMerkleGenerateTimePrefix ++ PrefixID m.
Proof.
  unfold MarshalGenerateTimeKey. rewrite Concat_spec. unfold opt_concat. cbn [fmap list_fmap default concat].
  by rewrite app_nil_r.
Qed.

(** ** [SaveGenerateTime] *)

(** The stored time decodes, or there is none. *)
Definition time_readable m (key : bytes) : Prop :=
  match mview m !! key with Some v => is_Some (DBable_Unmarshal v) | None => True end.

Lemma try_put_time_ok m key ts :
  mhealthy m → lockMap (m_db m) !! key = None →
  ∃ s e, try_put_time m key ts = (set_m_db m (MkDB s (lockMap (m_db m))), Ok e) ∧ healthy s ∧
    (∀ k, k ≠ key → ldb_view s !! k = mview m !! k) ∧
    (time_readable m key → e = None ∨ e = Some DBErrInvalidUpdateTS) ∧
    (e = None → ldb_view s !! key = Some (DBable_Marshal ts)) ∧ (e ≠ None → ldb_view s = mview m).
Proof.
  intros Hh Hl. destruct (TryPut_refines (m_db m) key (DBable_Marshal ts) ts Hh Hl) as (E1 & E2 & E3 & E4).
  unfold try_put_time. destruct (TryPut _ _ _ _) as [[s lk] r]. simpl in *. subst r lk.
  exists s, (spec_TryPut key (DBable_Marshal ts) ts (mview m)).2.2.
  split; [unfold mview; f_equal; by destruct (spec_TryPut _ _ _ _) as [? [? ?]]|]. split; [done|].
  rewrite E2. unfold spec_TryPut, time_readable, mview.
  destruct (ldb_view (db (m_db m)) !! key) as [v|]; simpl.
  - destruct (DBable_Unmarshal v); simpl; [case_decide; simpl|].
    + split_and!; auto. done.
    + split_and!; auto; [intros; by rewrite lookup_insert_ne|by rewrite lookup_insert_eq|done].
    + split_and!; auto; [by intros []|done].
  - split_and!; auto; [intros; by rewrite lookup_insert_ne|by rewrite lookup_insert_eq|done].
Qed.

Lemma SaveGenerateTime_ok m ts :
  mhealthy m → lockMap (m_db m) !! MarshalGenerateTimeKey m = None → time_readable m (MarshalGenerateTimeKey m) →
  ∃ s, SaveGenerateTime m ts =
      (set_times (set_m_db m (MkDB s (lockMap (m_db m)))) ts (LastSyncTS m) (LastFailSyncTS m), Ok tt) ∧
    healthy s ∧ (∀ k, k ≠ MarshalGenerateTimeKey m → ldb_view s !! k = mview m !! k).
Proof.
  intros Hh Hl Hr. unfold SaveGenerateTime.
  destruct (try_put_time_ok m (MarshalGenerateTimeKey m) ts Hh Hl) as (s & e & -> & Hs & Hfr & He & _).
  rewrite decide_True by auto. by exists s.
Qed.

(** ** Consistency depends on the tree's keys only *)

Lemma consistent_ext m m' level t :
  DBMerklePrefix m' = DBMerklePrefix m → PrefixID m' = PrefixID m → mhealthy m → mhealthy m' →
  (∀ k, DBPrefix m `prefix_of` k → mview m' !! k = mview m !! k) →
  consistent m level t → consistent m' level t.
Proof.
  intros E1 E2 Hh Hh' Hv. unfold consistent. cbv zeta.
  assert (∀ l x, MarshalKey m' l x = MarshalKey m l x) as Ek by (intros; unfold MarshalKey; by rewrite E1, E2).
  assert (∀ l i, children m' l i = children m l i) as Ec.
  { intros l i. unfold children, key_range. rewrite !Ek. apply ldb_range_ext; [done..|].
    intros k [Hle Hlt]. simpl in Hle, Hlt. apply Hv. rewrite MarshalKey_eq in Hle, Hlt.
    destruct (between_prefix _ _ _ _ Hle Hlt) as (r & -> & _). rewrite <- app_assoc. by eexists. }
  rewrite Ek. unfold expected. rewrite Ec. intros <-. apply Hv. rewrite MarshalKey_eq, <- app_assoc. by eexists.
Qed.

(** C17: [SaveMerkleTree ts], on a working store with well-formed nodes and
    the two locks free, succeeds and releases its locks; afterwards the hour,
    day, month and year of [ts] are the nodes their children give, every
    other node that was consistent with its children still is, and no key
    outside the tree changes but the generation time. *)
Theorem SaveMerkleTree_consistent m ts :
  OffsetSecond = 0%Z → merkle_wf m → mhealthy m → tree_ok m → ts_ok ts →
  lockMap (m_db m) !! DBPrefix m = None → lockMap (m_db m) !! MarshalGenerateTimeKey m = None →
  time_readable m (MarshalGenerateTimeKey m) →
  let '(m', r) := SaveMerkleTree m ts in
  r = Ok tt ∧ tree_ok m' ∧ lockMap (m_db m') = lockMap (m_db m) ∧
  (∀ level, level_ok level → consistent m' level ts) ∧
  (∀ level t, level_ok level → ts_ok t → consistent m level t → consistent m' level t) ∧
  (∀ k, ¬ DBPrefix m `prefix_of` k → k ≠ MarshalGenerateTimeKey m → mview m' !! k = mview m !! k).
Proof.
  intros Hoff Hwf Hh Hok Hts Hl1 Hl2 Hr.
  assert (¬ DBPrefix m `prefix_of` MarshalGenerateTimeKey m) as Hgk by (rewrite gen_key_eq; by apply meta_key_not_tree).
  assert (MarshalGenerateTimeKey m ≠ DBPrefix m) as Hgk2 by (intros E; apply Hgk; by rewrite E).
  unfold SaveMerkleTree, TryLockMap. rewrite Hl1. unfold save_tree_body.
  rewrite (surjective_pairing (ToHRTimestamp ts)).
  set (m0 := set_m_db m _).
  destruct (saved_all Hoff m0 ts Hh Hok Hts) as (m1 & m2 & t & -> & -> & s & Em & Hs & Hok2 & Hfr & Hsame & Hdiff).
  destruct (SaveGenerateTime_ok m2 t) as (s' & -> & Hs' & Hfr').
  { by rewrite Em. }
  { rewrite Em. simpl. by rewrite lookup_insert_ne. }
  { unfold time_readable, mview. rewrite Em. simpl. change (MarshalGenerateTimeKey (set_m_db m0 _)) with (MarshalGenerateTimeKey m).
    by rewrite (Hfr _ Hgk). }
  assert (MarshalGenerateTimeKey m2 = MarshalGenerateTimeKey m) as Egk by (by rewrite Em).
  assert (DBMerklePrefix m2 = DBMerklePrefix m ∧ PrefixID m2 = PrefixID m) as [Ep1 Ep2] by (by rewrite Em).
  unfold UnlockMap. simpl. rewrite Em. simpl. rewrite lookup_insert_eq. rewrite Egk in Hfr'.
  set (m' := set_m_db (set_times (set_m_db m2 (MkDB s' (lockMap (m_db m2)))) t (LastSyncTS m2) (LastFailSyncTS m2))
    (MkDB s' (lockMap (m_db m)))).
  assert (∀ level u, consistent m2 level u → consistent m' level u) as Hext.
  { intros level u. apply consistent_ext; try done; [by rewrite Em|]. intros k Hk. apply Hfr'. intros ->.
    apply Hgk. by rewrite Em in Hk. }
  set (m'' := set_m_db _ _). assert (m'' = m') as ->.
  { subst m'' m'. rewrite Em. unfold set_m_db, set_times; simpl. by rewrite delete_insert_id. }
  assert (∀ k, ¬ DBPrefix m `prefix_of` k → k ≠ MarshalGenerateTimeKey m → mview m' !! k = mview m !! k) as Hframe.
  { intros k Hk1 Hk2. transitivity (mview m2 !! k); [exact (Hfr' k Hk2)|]. rewrite Em. exact (Hfr k Hk1). }
  split_and!; try done.
  - intros k v Hv Hk. change (DBPrefix m') with (DBPrefix m2) in Hk.
    apply (Hok2 k v); [|done]. rewrite <- Hfr'; [done|]. intros ->. apply Hgk. by rewrite Em in Hk.
  - intros level Hl. apply Hext, Hsame; [done..|]. by destruct Hl.
  - intros level u Hl Hu Hc. apply Hext.
    destruct (decide (iv level u = iv level ts)) as [E|E]; [apply Hsame; [done..|by destruct Hl]|].
    by apply Hdiff.
Qed.

(** ** The hours to update: memory and database agree *)

Definition upd_key m (z : Z) : bytes := dbMerkleToUpdatePrefixWithID m ++ be_enc 8 (u64 z).

Definition upd_inv m : Prop :=
  (∀ k v, mview m !! k = Some v → dbMerkleToUpdatePrefixWithID m `prefix_of` k →
     ∃ z, in_i64 z ∧ z ∈ toUpdateTS m ∧ k = upd_key m z) ∧
  (∀ z, z ∈ toUpdateTS m → in_i64 z ∧ is_Some (mview m !! upd_key m z)).

Lemma MarshalToUpdateTSKey_eq m t : MarshalToUpdateTSKey m t = upd_key m (Ts t).
Proof.
  unfold MarshalToUpdateTSKey, upd_key. rewrite Concat_spec. unfold opt_concat.
  cbn [fmap list_fmap default concat]. by rewrite app_nil_r.
Qed.

Lemma upd_key_inj m z z2 : in_i64 z → in_i64 z2 → upd_key m z = upd_key m z2 → z = z2.
Proof.
  intros Hz Hz2 E. apply app_inv_head in E. apply (f_equal be_dec) in E.
  rewrite !be_dec_enc in E. change (256 ^ Z.of_nat 8)%Z with (2 ^ 64)%Z in E.
  rewrite !Z.mod_small in E by apply u64_range. apply (f_equal i64) in E. by rewrite !i64_u64 in E.
Qed.

Lemma upd_prefix_length m : merkle_wf m → length (dbMerkleToUpdatePrefixWithID m) = SizeDBKeyPrefix + SizePttID.
Proof. intros (_ & Hid & _ & _ & p & -> & Hp & _). rewrite length_app. congruence. Qed.

Lemma tsFromToUpdateTSKey_upd m z : merkle_wf m → in_i64 z → tsFromToUpdateTSKey (upd_key m z) = Ok z.
Proof.
  intros Hw Hz. unfold tsFromToUpdateTSKey, upd_key.
  rewrite slice_from_app by (by rewrite upd_prefix_length). cbn [mbind outcome_bind].
  rewrite <- (app_nil_r (be_enc 8 _)), be_uint_enc_app. cbn [mbind outcome_bind].
  change (256 ^ Z.of_nat 8)%Z with (2 ^ 64)%Z. rewrite Z.mod_small by apply u64_range. by rewrite i64_u64.
Qed.

(** Storing the mark of an hour, with or without the hour in the map yet. *)
Lemma put_true_upd m z u :
  mhealthy m → in_i64 z → upd_inv m → u = {[z]} ∪ toUpdateTS m →
  let m' := set_toUpdateTS (put_true m (upd_key m z)) u in
  upd_inv m' ∧ mhealthy m'.
Proof.
  intros Hh Hz [Hi1 Hi2] -> m'. destruct (ldb_put_ok (db (m_db m)) (upd_key m z) ValueTrue Hh) as (_ & P2 & P3).
  assert (mview m' = <[upd_key m z := ValueTrue]> (mview m)) as Hv.
  { subst m'. unfold mview, put_true, Put; simpl. by destruct (ldb_put _ _ _). }
  split; [|subst m'; unfold mhealthy, put_true, Put; simpl; by destruct (ldb_put _ _ _)].
  split; simpl.
  - intros k v Hk Hp. rewrite Hv in Hk. change (upd_key m' ?z) with (upd_key m z).
    destruct (decide (k = upd_key m z)) as [->|Hne]; [exists z; set_solver|].
    rewrite lookup_insert_ne in Hk by done. destruct (Hi1 k v Hk Hp) as (z' & ? & ? & ->).
    exists z'. set_solver.
  - intros z' Hz'. rewrite Hv. change (upd_key m' z') with (upd_key m z').
    destruct (decide (z' = z)) as [->|Hne]; [by rewrite lookup_insert_eq|].
    destruct (Hi2 z' ltac:(set_solver)) as [Hz2 Hs]. split; [done|].
    rewrite lookup_insert_ne; [done|]. intros E. by apply upd_key_inj in E.
Qed.

Lemma hr_i64 ts : ts_ok ts → in_i64 (Ts (ToHRTimestamp ts).1).
Proof. intros Hts. destruct (intervals_pos ts Hts) as (([[? _] _] & _) & _). done. Qed.

Lemma SetUpdateTS_inv m ts :
  mhealthy m → ts_ok ts → upd_inv m →
  upd_inv (SetUpdateTS m ts) ∧ mhealthy (SetUpdateTS m ts) ∧
  toUpdateTS (SetUpdateTS m ts) = {[Ts (ToHRTimestamp ts).1]} ∪ toUpdateTS m.
Proof.
  intros Hh Hts Hi. unfold SetUpdateTS. rewrite (surjective_pairing (ToHRTimestamp ts)).
  rewrite MarshalToUpdateTSKey_eq.
  destruct (put_true_upd m (Ts (ToHRTimestamp ts).1) _ Hh (hr_i64 ts Hts) Hi eq_refl) as [Ha Hb].
  done.
Qed.

(** The same marks in the other order. *)
Lemma put_true_set m k u : put_true (set_toUpdateTS m u) k = set_toUpdateTS (put_true m k) u.
Proof. unfold put_true, Put. simpl. by destruct (ldb_put _ _ _). Qed.

Lemma SetUpdateTS2_inv m ts ts2 :
  mhealthy m → ts_ok ts → ts_ok ts2 → upd_inv m →
  upd_inv (SetUpdateTS2 m ts ts2) ∧ mhealthy (SetUpdateTS2 m ts ts2) ∧
  toUpdateTS (SetUpdateTS2 m ts ts2) =
    {[Ts (ToHRTimestamp ts2).1]} ∪ ({[Ts (ToHRTimestamp ts).1]} ∪ toUpdateTS m).
Proof.
  intros Hh Hts Hts2 Hi. unfold SetUpdateTS2.
  rewrite (surjective_pairing (ToHRTimestamp ts)), (surjective_pairing (ToHRTimestamp ts2)).
  cbn [fst snd]. set (z := Ts (ToHRTimestamp ts).1). set (z2 := Ts (ToHRTimestamp ts2).1).
  rewrite !MarshalToUpdateTSKey_eq, !put_true_set. fold z z2. cbn [toUpdateTS set_toUpdateTS].
  destruct (put_true_upd m z _ Hh (hr_i64 ts Hts) Hi eq_refl) as [Ha Hb].
  destruct (IsEqual _ _) eqn:E.
  - apply IsEqual_spec in E. assert (z2 = z) as -> by (subst z z2; by rewrite E).
    rewrite (union_assoc_L {[z]} {[z]}), union_idemp_L.
    split_and!; [exact Ha|exact Hb|reflexivity].
  - set (m1 := set_toUpdateTS (put_true m (upd_key m z)) ({[z]} ∪ toUpdateTS m)) in *.
    destruct (put_true_upd m1 z2 _ Hb (hr_i64 ts2 Hts2) Ha eq_refl) as [Hc Hd].
    subst m1. rewrite !put_true_set in Hc, Hd. split_and!; [exact Hc|exact Hd|reflexivity].
Qed.

Lemma to_update_iter_ok m :
  merkle_wf m →
  ∃ it, to_update_iter m = Ok it ∧
    iter_forward it = ldb_range (db (m_db m)) (BytesPrefix (dbMerkleToUpdatePrefixWithID m)).
Proof.
  intros Hw. pose proof (upd_prefix_length m Hw) as Hlen. unfold to_update_iter, NewIteratorWithPrefix.
  destruct (dbMerkleToUpdatePrefixWithID m); [done|]. eexists. split; [done|]. apply iter_forward_new.
Qed.

Lemma upd_items m k v :
  mhealthy m →
  (k, v) ∈ ldb_range (db (m_db m)) (BytesPrefix (dbMerkleToUpdatePrefixWithID m)) ↔
  mview m !! k = Some v ∧ dbMerkleToUpdatePrefixWithID m `prefix_of` k.
Proof. intros Hh. rewrite ldb_range_elem by done. by rewrite in_range_BytesPrefix. Qed.

Lemma load_loop_ok m items acc :
  merkle_wf m → Forall (λ p, ∃ z, in_i64 z ∧ p.1 = upd_key m z) items →
  ∃ u, load_loop items acc = Ok u ∧
    ∀ z, z ∈ u ↔ z ∈ acc ∨ in_i64 z ∧ upd_key m z ∈ items.*1.
Proof.
  intros Hw Hf. revert acc. induction Hf as [|[k v] items (z & Hz & Hk) _ IH]; intros acc; cbn [load_loop].
  { exists acc. split; [done|]. set_solver. }
  simpl in Hk. subst k. rewrite (tsFromToUpdateTSKey_upd m z) by done. cbn [mbind outcome_bind].
  destruct (IH ({[z]} ∪ acc)) as (u & -> & Hu). exists u. split; [done|]. intros z'. rewrite Hu.
  csimpl. rewrite elem_of_union, elem_of_singleton, elem_of_cons. split.
  - intros [[->|?]|[??]]; tauto.
  - intros [?|[Hz' [E|?]]]; [tauto| |tauto]. apply upd_key_inj in E; tauto.
Qed.

(** Loading into an empty map, as after a restart, gives the map back. *)
Lemma LoadToUpdateTSs_restart m :
  merkle_wf m → mhealthy m → upd_inv m → LoadToUpdateTSs (ResetUpdateTS m) = Ok m.
Proof.
  intros Hw Hh [Hi1 Hi2]. unfold LoadToUpdateTSs.
  change (to_update_iter (ResetUpdateTS m)) with (to_update_iter m).
  destruct (to_update_iter_ok m Hw) as (it & -> & Hit). cbn [mbind outcome_bind]. rewrite Hit.
  destruct (load_loop_ok m (ldb_range (db (m_db m)) (BytesPrefix (dbMerkleToUpdatePrefixWithID m))) ∅ Hw) as (u & Hl & Hu).
  { apply Forall_forall. intros [k v] [Hv Hp]%upd_items; [|done]. destruct (Hi1 k v Hv Hp) as (z & ? & _ & ->). by exists z. }
  cbn [toUpdateTS set_toUpdateTS ResetUpdateTS]. rewrite Hl. cbn [mbind outcome_bind].
  assert (u = toUpdateTS m) as ->; [|by destruct m].
  apply set_eq. intros z. rewrite Hu. split.
  - intros [?|[Hz Hin]]; [set_solver|]. apply list_elem_of_fmap_1 in Hin as ([k v] & Ek & Hin). simpl in Ek. subst k.
    apply upd_items in Hin as [Hv Hp]; [|done]. destruct (Hi1 _ v Hv Hp) as (z' & Hz' & ? & E).
    by apply upd_key_inj in E as ->.
  - intros Hz. right. destruct (Hi2 z Hz) as [? [v Hv]]. split; [done|]. apply list_elem_of_fmap. exists (upd_key m z, v).
    split; [done|]. apply upd_items; [done|]. split; [done|]. by eexists.
Qed.

Lemma delete_iter_ok m it :
  mhealthy m →
  mhealthy (delete_iter m it) ∧ mview (delete_iter m it) = del_keys (iter_forward it).*1 (mview m).
Proof. intros Hh. unfold delete_iter, mhealthy, mview; simpl. by apply ldb_delete_all_ok. Qed.

Lemma resetToUpdateTSDB_ok m :
  merkle_wf m → mhealthy m →
  mhealthy (resetToUpdateTSDB m) ∧ toUpdateTS (resetToUpdateTSDB m) = toUpdateTS m ∧
  ∀ k, mview (resetToUpdateTSDB m) !! k =
    if decide (dbMerkleToUpdatePrefixWithID m `prefix_of` k) then None else mview m !! k.
Proof.
  intros Hw Hh. unfold resetToUpdateTSDB. destruct (to_update_iter_ok m Hw) as (it & -> & Hit).
  destruct (delete_iter_ok m it Hh) as [Hd Hv]. split; [done|]. split; [done|]. intros k.
  rewrite Hv, Hit, lookup_del_keys. destruct (decide (k ∈ _)) as [Hk|Hk].
  - apply list_elem_of_fmap_1 in Hk as ([k' v] & -> & Hin). apply upd_items in Hin as [_ Hp]; [|done]. simpl.
    by rewrite decide_True.
  - case_decide as Hp; [|done]. destruct (mview m !! k) as [v|] eqn:E; [|done]. exfalso. apply Hk.
    apply list_elem_of_fmap. exists (k, v). split; [done|]. by apply upd_items.
Qed.

(** The set of hours to update survives a restart: after marking any
    hours with [SetUpdateTS] and [SetUpdateTS2], loading into an empty map
    gives the set in memory back.  Fetching the list empties the set in memory
    and in the database, returns every hour once, and leaves the list in the
    database for [LoadUpdatingTSList]. *)
Theorem update_set_survives_restart m ts ts2 (range_order : gset Z → list Z) :
  merkle_wf m → mhealthy m → upd_inv m → ts_ok ts → ts_ok ts2 → (∀ u, range_order u ≡ₚ elements u) →
  let m1 := SetUpdateTS2 (SetUpdateTS m ts) ts ts2 in
  (upd_inv m1 ∧ LoadToUpdateTSs (ResetUpdateTS m1) = Ok m1 ∧
   toUpdateTS m1 = {[Ts (ToHRTimestamp ts2).1; Ts (ToHRTimestamp ts).1]} ∪ toUpdateTS m) ∧
  (let '(m2, l) := GetAndResetToUpdateTSList range_order m1 in
   l ≡ₚ elements (toUpdateTS m1) ∧ upd_inv m2 ∧ toUpdateTS m2 = ∅ ∧ LoadUpdatingTSList m2 = Ok l).
Proof.
  intros Hw Hh Hi Hts Hts2 Hord m1.
  destruct (SetUpdateTS_inv m ts Hh Hts Hi) as (Hi0 & Hh0 & E0).
  destruct (SetUpdateTS2_inv (SetUpdateTS m ts) ts ts2 Hh0 Hts Hts2 Hi0) as (Hi1 & Hh1 & E1).
  fold m1 in Hi1, Hh1, E1.
  assert (merkle_wf m1) as Hw1.
  { subst m1. unfold SetUpdateTS2, SetUpdateTS. destruct (ToHRTimestamp ts), (ToHRTimestamp ts2).
    destruct (IsEqual _ _); exact Hw. }
  split.
  { split; [done|]. split; [by apply LoadToUpdateTSs_restart|]. rewrite E1, E0. set_solver. }
  unfold GetAndResetToUpdateTSList, getAndResetToUpdateTSs.
  destruct (resetToUpdateTSDB_ok (set_toUpdateTS m1 ∅) Hw1 Hh1) as (Hh2 & E2 & Hv2).
  set (m2 := resetToUpdateTSDB (set_toUpdateTS m1 ∅)) in *.
  assert (dbMerkleToUpdatePrefixWithID m2 = dbMerkleToUpdatePrefixWithID m1 ∧ MarshalUpdatingKey m2 = MarshalUpdatingKey m1) as [Ep Eq].
  { subst m2. unfold resetToUpdateTSDB. by destruct (to_update_iter _). }
  set (l := range_order (toUpdateTS m1)).
  destruct (ldb_put_ok (db (m_db m2)) (MarshalUpdatingKey m2) (ints_Marshal l) Hh2) as (_ & P2 & P3).
  assert (¬ dbMerkleToUpdatePrefixWithID m1 `prefix_of` MarshalUpdatingKey m1) as Hnp.
  { destruct Hw1 as (_ & _ & _ & _ & p & E & Hp & _ & _ & q & Eq' & Hq & Hqp). unfold MarshalUpdatingKey. rewrite E, Eq'.
    intros [r Hr]. rewrite <- app_assoc in Hr. apply app_inj_1 in Hr as [? _]; congruence. }
  split; [apply Hord|].
  assert (∀ k, dbMerkleToUpdatePrefixWithID m1 `prefix_of` k →
    ldb_view (ldb_put (db (m_db m2)) (MarshalUpdatingKey m2) (ints_Marshal l)).1 !! k = None) as Hnone.
  { intros k Hk. rewrite P3, lookup_insert_ne by (intros <-; apply Hnp; by rewrite <- Eq).
    fold (mview m2). rewrite Hv2. by rewrite decide_True. }
  unfold Put. destruct (ldb_put (db (m_db m2)) (MarshalUpdatingKey m2) (ints_Marshal l)) as [s e] eqn:Es.
  cbn [fst snd] in *. split_and!.
  - split; cbn [toUpdateTS set_m_db].
    + unfold mview; cbn. intros k v Hk Hp. exfalso. rewrite Ep in Hp. by rewrite Hnone in Hk.
    + rewrite E2. cbn. set_solver.
  - exact E2.
  - unfold LoadUpdatingTSList, Get, MarshalUpdatingKey in *. cbn in *. rewrite ldb_get_ok by done.
    rewrite P3. rewrite lookup_insert_eq. cbn. by rewrite ints_roundtrip.
Qed.

(** ** [Clean] *)

Definition level_range m level : Range := key_range m level (ZeroTimestamp, MaxTimestamp).
Definition tree_levels : list Z :=
  [MerkleTreeLevelNow; MerkleTreeLevelHR; MerkleTreeLevelDay; MerkleTreeLevelMonth; MerkleTreeLevelYear].
Definition time_keys m : list bytes := [MarshalGenerateTimeKey m; MarshalSyncTimeKey m; MarshalFailSyncTimeKey m].

(** Nothing but the database changes. *)
Definition same_tree m m' : Prop := ∃ d, m' = set_m_db m d.

Lemma delete_level_ok m level :
  mhealthy m → same_tree m (delete_level m level) ∧ mhealthy (delete_level m level) ∧
  ∀ k, mview (delete_level m level) !! k = if decide (in_range k (level_range m level)) then None else mview m !! k.
Proof.
  intros Hh. unfold delete_level.
  destruct (delete_iter_ok m (GetMerkleIter m level ZeroTimestamp MaxTimestamp ListOrderNext) Hh) as [Hd Hv].
  split; [by eexists|]. split; [done|]. intros k. rewrite Hv, GetMerkleIter_items, lookup_del_keys. fold (level_range m level).
  destruct (decide (k ∈ _)) as [Hk|Hk].
  - apply list_elem_of_fmap_1 in Hk as ([k' v] & -> & [_ Hr]%ldb_range_elem); [|done]. simpl. by rewrite decide_True.
  - case_decide as Hr; [|done]. destruct (mview m !! k) as [v|] eqn:E; [|done]. exfalso. apply Hk.
    apply list_elem_of_fmap. exists (k, v). split; [done|]. by apply ldb_range_elem.
Qed.

Lemma delete_key_ok m key :
  mhealthy m → same_tree m (delete_key m key) ∧ mhealthy (delete_key m key) ∧
  mview (delete_key m key) = delete key (mview m).
Proof.
  intros Hh. destruct (ldb_delete_ok (db (m_db m)) key Hh) as (D1 & D2 & D3).
  split; [by eexists|]. unfold delete_key, Delete, mhealthy, mview.
  destruct (ldb_delete (db (m_db m)) key) as [s e]. done.
Qed.

Lemma delete_levels_ok ls m :
  mhealthy m → same_tree m (foldl delete_level m ls) ∧ mhealthy (foldl delete_level m ls) ∧
  ∀ k, mview (foldl delete_level m ls) !! k =
    if decide (Exists (λ l, in_range k (level_range m l)) ls) then None else mview m !! k.
Proof.
  revert m. induction ls as [|l ls IH]; intros m Hh; cbn [foldl].
  { split; [exists (m_db m); by destruct m|]. split; [done|]. intros k. rewrite decide_False; [done|].
    intros Hx. inversion Hx. }
  destruct (delete_level_ok m l Hh) as ([d E] & Hh1 & V1). destruct (IH _ Hh1) as ([d2 E2] & Hh2 & V2).
  split; [|split; [done|]].
  - exists d2. by rewrite E2, E.
  - intros k. rewrite V2, V1. assert (level_range (delete_level m l) = level_range m) as -> by (by rewrite E).
    destruct (decide (Exists _ (l :: ls))) as [Hx|Hx]; rewrite Exists_cons in Hx; repeat case_decide; tauto.
Qed.

Lemma delete_keys_ok_m ks m :
  mhealthy m → same_tree m (foldl delete_key m ks) ∧ mhealthy (foldl delete_key m ks) ∧
  mview (foldl delete_key m ks) = del_keys ks (mview m).
Proof.
  revert m. induction ks as [|k ks IH]; intros m Hh; simpl.
  { split; [exists (m_db m); by destruct m|]. done. }
  destruct (delete_key_ok m k Hh) as ([d E] & Hh1 & V1). destruct (IH _ Hh1) as ([d2 E2] & Hh2 & V2).
  split; [exists d2; by rewrite E2, E|]. split; [done|]. by rewrite V2, V1.
Qed.

Lemma delete_key_times m key :
  MarshalGenerateTimeKey (delete_key m key) = MarshalGenerateTimeKey m ∧
  MarshalSyncTimeKey (delete_key m key) = MarshalSyncTimeKey m ∧
  MarshalFailSyncTimeKey (delete_key m key) = MarshalFailSyncTimeKey m.
Proof. unfold delete_key. destruct (Delete (m_db m) key) as [d e]. split_and!; reflexivity. Qed.

Lemma Clean_eq m :
  Clean m = let m5 := foldl delete_level m tree_levels in foldl delete_key m5 (time_keys m5).
Proof.
  unfold Clean, tree_levels, time_keys. cbn [foldl]. cbv zeta.
  set (m5 := delete_level _ MerkleTreeLevelYear). clearbody m5.
  destruct (delete_key_times m5 (MarshalGenerateTimeKey m5)) as (_ & E1 & E2).
  set (m6 := delete_key m5 (MarshalGenerateTimeKey m5)) in *. clearbody m6.
  destruct (delete_key_times m6 (MarshalSyncTimeKey m6)) as (_ & _ & E3).
  rewrite E3, E1, E2. done.
Qed.

Lemma Clean_view m :
  mhealthy m → same_tree m (Clean m) ∧ mhealthy (Clean m) ∧
  ∀ k, mview (Clean m) !! k =
    if decide (k ∈ time_keys m) then None
    else if decide (Exists (λ l, in_range k (level_range m l)) tree_levels) then None else mview m !! k.
Proof.
  intros Hh. rewrite Clean_eq. cbv zeta. destruct (delete_levels_ok tree_levels m Hh) as ([d E] & Hh1 & V1).
  assert (time_keys (foldl delete_level m tree_levels) = time_keys m) as -> by (by rewrite E).
  destruct (delete_keys_ok_m (time_keys m) _ Hh1) as ([d2 E2] & Hh2 & V2).
  split; [exists d2; by rewrite E2, E|]. split; [done|]. intros k. rewrite V2, lookup_del_keys. by rewrite V1.
Qed.

(** A key that starts with the time of a node lies in the range of its level. *)
Lemma node_key_in_range m level t x :
  ts_pos t → ts_lt t MaxTimestamp → in_range (MarshalKey m level t ++ x) (level_range m level).
Proof.
  intros Ht Hlt. assert (ts_pos MaxTimestamp) as Hmax by (repeat split; simpl; lia).
  assert (ts_pos ZeroTimestamp) as Hz by (repeat split; simpl; lia).
  unfold in_range, level_range, key_range; simpl. rewrite !MarshalKey_eq, <- (app_assoc (DBPrefix m ++ [byte_of_Z level]) (ts_marshal t) x).
  unfold bytes_le, bytes_lt. rewrite !bytes_compare_app. split.
  - apply (bytes_le_trans _ (ts_marshal t)); [|apply bytes_le_app]. apply ts_marshal_le; [done..|].
    destruct t as [s n], Ht as [[_ Hn] Hs]. unfold ts_le, ts_lt, in_u32 in *; simpl in *.
    destruct (decide (s = 0%Z)) as [->|]; [|lia]. destruct (decide (n = 0%Z)) as [->|]; [by right|lia].
  - rewrite <- (app_nil_r (ts_marshal MaxTimestamp)).
    rewrite bytes_compare_app_same_len by (by rewrite !ts_marshal_length).
    by rewrite (proj2 (ts_marshal_lt _ _ Ht Hmax) Hlt).
Qed.

(** [Clean] removes every node of the tree, of every level, up to
    [MaxTimestamp], and the three stored times, and touches no other key. *)
Theorem Clean_removes_tree m :
  merkle_wf m → mhealthy m →
  (∀ level t x, level ∈ tree_levels → ts_pos t → ts_lt t MaxTimestamp →
     mview (Clean m) !! (MarshalKey m level t ++ x) = None) ∧
  GetGenerateTime (Clean m) = Err LDBErrNotFound ∧ GetSyncTime (Clean m) = Ok ZeroTimestamp ∧
  GetFailSyncTime (Clean m) = Ok ZeroTimestamp ∧
  (∀ k, ¬ DBPrefix m `prefix_of` k → k ∉ time_keys m → mview (Clean m) !! k = mview m !! k).
Proof.
  intros Hw Hh. destruct (Clean_view m Hh) as ([d E] & Hhc & Hv).
  assert (∀ k, k ∈ time_keys m → get_time (Clean m) k = Err LDBErrNotFound) as Hget.
  { intros k Hk. unfold get_time, Get. rewrite ldb_get_ok by done. fold (mview (Clean m)).
    rewrite Hv, decide_True by done. done. }
  split_and!.
  - intros level t x Hl Ht Hlt. rewrite Hv. case_decide; [done|]. rewrite decide_True; [done|].
    apply Exists_exists. exists level. split; [done|]. by apply node_key_in_range.
  - unfold GetGenerateTime. rewrite Hget; [done|]. rewrite E. by left.
  - unfold GetSyncTime. rewrite Hget; [done|]. rewrite E. by right; left.
  - unfold GetFailSyncTime. rewrite Hget; [done|]. rewrite E. by right; right; left.
  - intros k Hk Hnk. rewrite Hv, decide_False by done. rewrite decide_False; [done|].
    intros (l & _ & Hle & Hlt)%Exists_exists. simpl in Hle, Hlt. rewrite MarshalKey_eq in Hle, Hlt.
    destruct (between_prefix _ _ _ _ Hle Hlt) as (r & -> & _). apply Hk. rewrite <- app_assoc. by eexists.
Qed.

(** ** The tree is a function of its leaves *)

Definition level_prefix m l : bytes := DBPrefix m ++ [byte_of_Z l].

(** Every key of a level is the key of an interval. *)
Definition only_nodes m : Prop :=
  ∀ l k v, level_ok l → mview m !! k = Some v → level_prefix m l `prefix_of` k →
    ∃ t, ts_ok t ∧ k = MarshalKey m l (iv l t).1.

Definition all_consistent m : Prop := ∀ l t, level_ok l → ts_ok t → consistent m l t.

(** The two stores agree on the nodes of a level. *)
Definition agree_on m m' l : Prop :=
  ∀ k, level_prefix m l `prefix_of` k → mview m !! k = mview m' !! k.

Lemma key_range_prefix m l i k : in_range k (key_range m l i) → level_prefix m l `prefix_of` k.
Proof.
  intros [Hle Hlt]. simpl in Hle, Hlt. rewrite MarshalKey_eq in Hle, Hlt.
  destruct (between_prefix _ _ _ _ Hle Hlt) as (r & -> & _). by eexists.
Qed.

Lemma same_prefix_keys m m' :
  DBMerklePrefix m' = DBMerklePrefix m → PrefixID m' = PrefixID m → ∀ l x, MarshalKey m' l x = MarshalKey m l x.
Proof. intros E1 E2 l x. unfold MarshalKey. by rewrite E1, E2. Qed.

Lemma agree_next m m' l :
  OffsetSecond = 0%Z → DBMerklePrefix m' = DBMerklePrefix m → PrefixID m' = PrefixID m →
  mhealthy m → mhealthy m' → only_nodes m → only_nodes m' → all_consistent m → all_consistent m' →
  level_ok (l + 1) → agree_on m m' l → agree_on m m' (l + 1).
Proof.
  intros Hoff E1 E2 Hh Hh' Ho Ho' Hc Hc' Hl Ha k Hk.
  pose proof (same_prefix_keys m m' E1 E2) as Ek.
  assert (level_prefix m' (l + 1) = level_prefix m (l + 1)) as El by (unfold level_prefix, DBPrefix; by rewrite E1, E2).
  assert (∀ t, ts_ok t → mview m !! MarshalKey m (l + 1) (iv (l + 1) t).1 = mview m' !! MarshalKey m (l + 1) (iv (l + 1) t).1) as Hn.
  { intros t Ht. pose proof (Hc _ t Hl Ht) as C1. pose proof (Hc' _ t Hl Ht) as C2.
    unfold consistent in C1, C2. rewrite Hoff in C1, C2. cbv zeta in C1, C2. rewrite Ek in C2. rewrite C1, C2.
    unfold expected. replace (children m' (l + 1) (iv (l + 1) t)) with (children m (l + 1) (iv (l + 1) t)); [done|].
    assert (child_level (l + 1) = l) as Ecl.
    { unfold child_level. rewrite Z.mod_small; unfold level_ok, MerkleTreeLevelHR, MerkleTreeLevelYear in Hl; lia. }
    unfold children. rewrite Ecl.
    replace (key_range m' l (iv (l + 1) t)) with (key_range m l (iv (l + 1) t)) by (unfold key_range; by rewrite !Ek).
    apply ldb_range_ext; [done..|]. intros k' Hk'. apply Ha. by eapply key_range_prefix. }
  destruct (mview m !! k) as [v|] eqn:E.
  - destruct (Ho _ k v Hl E Hk) as (t & Ht & ->). by rewrite <- Hn.
  - destruct (mview m' !! k) as [v|] eqn:E'; [|done].
    destruct (Ho' (l + 1)%Z k v Hl E' ltac:(by rewrite El)) as (t & Ht & ->). rewrite Ek in *. rewrite Hn, E' in E by done. done.
Qed.


Lemma concat_same_length {A} n (l1 l2 : list (list A)) :
  0 < n → Forall (λ x, length x = n) l1 → Forall (λ x, length x = n) l2 → concat l1 = concat l2 → l1 = l2.
Proof.
  intros Hn Hf1. revert l2. induction Hf1 as [|x l1 Hx _ IH]; intros l2 Hf2 E; destruct Hf2 as [|y l2 Hy Hf2]; simpl in E.
  - done.
  - destruct y; simpl in *; [lia|done].
  - destruct x; simpl in *; [lia|done].
  - apply app_inj_1 in E as [-> E]; [|congruence]. f_equal. by apply IH.
Qed.

Lemma addr_of_length m level i :
  mhealthy m → tree_ok m → Forall (λ x, length x = AddressLength) (addr_of <$> (children m level i).*2).
Proof.
  intros Hh Hok. apply Forall_fmap, Forall_fmap. eapply Forall_impl; [by apply children_ok|].
  intros [k v] (n & (_ & Ha & _) & E). simpl in *. subst v. unfold addr_of. rewrite node_Marshal_drop.
  by rewrite take_app_length'.
Qed.

(** When two trees have the same node for an interval, its children carry
    the same hashes in both, or two different byte strings with the same hash
    are at hand. *)
Theorem same_node_same_children m m' level i n :
  mhealthy m → mhealthy m' → tree_ok m → tree_ok m' →
  expected m level i = Some n → expected m' level i = Some n →
  addr_of <$> (children m level i).*2 = addr_of <$> (children m' level i).*2 ∨
  ∃ a b, a ≠ b ∧ Addr a = Addr b.
Proof.
  intros Hh Hh' Hok Hok' E E'. unfold expected in E, E'. cbv zeta in E, E'.
  destruct (u32 _ =? 0)%Z in E; [done|]. destruct (u32 _ =? 0)%Z in E'; [done|].
  rewrite <- E in E'. clear E. apply (inj Some) in E'. rename E' into E.
  apply (f_equal (drop MerkleTreeOffsetAddr)) in E. rewrite !node_Marshal_drop in E. simpl in E.
  apply app_inj_1 in E as [E _]; [|by rewrite !Addr_length].
  destruct (decide (concat (addr_of <$> (children m' level i).*2) = concat (addr_of <$> (children m level i).*2))) as [Ec|Ec].
  - left. symmetry. apply (concat_same_length AddressLength); [unfold AddressLength; lia|by apply addr_of_length..|done].
  - right. by eexists _, _.
Qed.

(** [SaveGenerateTime] reports success when the stored time is newer, and
    sets the time in memory back all the same: afterwards memory and database
    differ. *)
Theorem SaveGenerateTime_moves_back m ts old :
  mhealthy m → lockMap (m_db m) !! MarshalGenerateTimeKey m = None →
  mview m !! MarshalGenerateTimeKey m = Some (DBable_Marshal old) → ts_lt ts old →
  let '(m', r) := SaveGenerateTime m ts in
  r = Ok tt ∧ LastGenerateTS m' = ts ∧ GetGenerateTime m' = Ok old.
Proof.
  intros Hh Hl Hv Hlt. unfold SaveGenerateTime, try_put_time.
  destruct (TryPut_refines (m_db m) (MarshalGenerateTimeKey m) (DBable_Marshal ts) ts Hh Hl) as (E1 & E2 & E3 & E4).
  unfold spec_TryPut in E1, E2. fold (mview m) in E1, E2. rewrite Hv, DBable_roundtrip, decide_True in E1, E2 by done.
  destruct (TryPut _ _ _ _) as [d r]. simpl in *. subst r. simpl.
  split_and!; try done. unfold GetGenerateTime, get_time, Get; simpl.
  change (MarshalGenerateTimeKey (set_times _ _ _ _)) with (MarshalGenerateTimeKey m).
  rewrite ldb_get_ok by done. rewrite E2, Hv. simpl. by rewrite DBable_roundtrip.
Qed.

End Merkle.

(** ** Witnesses *)

#[global] Instance codec_json_ints : JsonInts :=
  {| ints_Marshal := codec_enc; ints_Unmarshal := codec_dec; ints_roundtrip := codec_dec_enc |}.

Definition w_id : PttID := replicate SizePttID x01.
Definition w_ts : Timestamp := MkTs 1551398405 7.
Definition w_leaf : MerkleNode := MkNode MerkleTreeLevelNow (replicate AddressLength x09) w_ts 0 [x0a; x0b].
Definition w_prefix (a b : byte) : bytes := [x2e; x4d; x41; a; b].
Definition w_merkle_of (st : gmap bytes bytes) : Merkle :=
  MkMerkle [] (w_prefix x6d x6b) (w_prefix x6d x74) (w_prefix x4d x74 ++ w_id) (w_prefix x4d x54 ++ w_id) w_id
    (MkDB (MkMem st false) ∅) ZeroTimestamp ZeroTimestamp ZeroTimestamp false ∅.
Definition w_leaf_key : bytes := MarshalKey (w_merkle_of ∅) MerkleTreeLevelNow w_ts.
Definition w_merkle : Merkle := w_merkle_of {[ w_leaf_key := node_Marshal w_leaf ]}.

Lemma w_merkle_wf st : merkle_wf (w_merkle_of st).
Proof.
  unfold merkle_wf. split_and!; try (vm_compute; reflexivity || discriminate).
  exists (w_prefix x4d x74). split_and!; try (vm_compute; reflexivity || discriminate).
  exists (w_prefix x4d x54). split_and!; vm_compute; reflexivity || discriminate.
Qed.

Lemma w_healthy st : mhealthy (w_merkle_of st).
Proof. reflexivity. Qed.

Lemma w_leaf_wf : node_wf w_leaf.
Proof. apply (bool_decide_unpack _). vm_compute. exact I. Qed.

Lemma w_tree_ok : tree_ok w_merkle.
Proof. intros k v Hv _. unfold mview in Hv; simpl in Hv. apply lookup_singleton_Some in Hv as [_ <-]. exists w_leaf. split; [apply w_leaf_wf|done]. Qed.

Lemma w_ts_ok : ts_ok w_ts.
Proof. apply (bool_decide_unpack _). vm_compute. exact I. Qed.

Lemma w_gen_key_absent : mview w_merkle !! MarshalGenerateTimeKey w_merkle = None.
Proof. apply lookup_singleton_None. vm_compute. discriminate. Qed.

Lemma SaveMerkleTree_consistent_witness :
  let '(m', r) := SaveMerkleTree 0 w_merkle w_ts in
  r = Ok tt ∧ consistent 0 m' MerkleTreeLevelYear w_ts.
Proof.
  pose proof (SaveMerkleTree_consistent 0 w_merkle w_ts eq_refl (w_merkle_wf _) eq_refl w_tree_ok w_ts_ok) as H.
  destruct (SaveMerkleTree 0 w_merkle w_ts) as [m' r].
  destruct H as (Hr & _ & _ & Hc & _).
  - reflexivity.
  - reflexivity.
  - unfold time_readable. rewrite w_gen_key_absent. exact I.
  - split; [exact Hr|]. apply Hc. split; discriminate.
Defined.

Lemma update_set_survives_restart_witness :
  toUpdateTS (SetUpdateTS2 (SetUpdateTS w_merkle w_ts) w_ts (MkTs 7205 0)) = {[7200; 1551398400]}%Z ∪ ∅.
Proof.
  destruct (update_set_survives_restart w_merkle w_ts (MkTs 7205 0) elements) as ((_ & _ & H) & _).
  - apply w_merkle_wf.
  - reflexivity.
  - split; [|intros z Hz; exfalso; revert Hz; apply not_elem_of_empty].
    intros k v Hv [r Hr]. unfold mview in Hv; simpl in Hv. apply lookup_singleton_Some in Hv as [<- _]. exfalso.
    vm_compute in Hr. discriminate.
  - apply w_ts_ok.
  - apply (bool_decide_unpack _). vm_compute. exact I.
  - intros u. reflexivity.
  - exact H.
Defined.

Lemma Clean_removes_tree_witness : mview (Clean w_merkle) !! (w_leaf_key ++ []) = None.
Proof.
  destruct (Clean_removes_tree w_merkle) as (H & _).
  - apply w_merkle_wf.
  - reflexivity.
  - apply (H MerkleTreeLevelNow w_ts []).
    + left.
    + apply ts_ok_pos, w_ts_ok.
    + left. reflexivity.
Defined.

Lemma w_empty_consistent l t : level_ok l → ts_ok t → consistent 0 (w_merkle_of ∅) l t.
Proof.
  intros Hl Ht. unfold consistent, expected. cbv zeta.
  assert (∀ i, children (w_merkle_of ∅) l i = []) as ->; [|done].
  intros i. unfold children. destruct (ldb_range _ _) as [|[k v] r] eqn:E; [done|]. exfalso.
  assert ((k, v) ∈ ldb_range (db (m_db (w_merkle_of ∅))) (key_range (w_merkle_of ∅) (child_level l) i)) as Hin
    by (rewrite E; left).
  apply ldb_range_elem in Hin as [Hin _]; [|done]. done.
Qed.


Lemma w_expected :
  expected w_merkle MerkleTreeLevelHR (ToHRTimestamp w_ts) =
    Some (node_Marshal (MkNode MerkleTreeLevelHR (replicate AddressLength x09) (MkTs 1551398400 0) 1 [])).
Proof. vm_compute. reflexivity. Qed.

Lemma same_node_same_children_witness :
  let cs := addr_of <$> (children w_merkle MerkleTreeLevelHR (ToHRTimestamp w_ts)).*2 in
  cs = cs ∨ ∃ a b, a ≠ b ∧ Addr a = Addr b.
Proof.
  apply (same_node_same_children w_merkle w_merkle MerkleTreeLevelHR (ToHRTimestamp w_ts) _ (w_healthy _) (w_healthy _)
           w_tree_ok w_tree_ok w_expected w_expected).
Defined.

Lemma SaveGenerateTime_moves_back_witness :
  let m := w_merkle_of {[ MarshalGenerateTimeKey (w_merkle_of ∅) := DBable_Marshal (MkTs 9 0) ]} in
  let '(m', r) := SaveGenerateTime m ZeroTimestamp in
  LastGenerateTS m' = ZeroTimestamp ∧ GetGenerateTime m' = Ok (MkTs 9 0).
Proof.
  intros m. pose proof (SaveGenerateTime_moves_back m ZeroTimestamp (MkTs 9 0)) as H.
  destruct (SaveGenerateTime m ZeroTimestamp) as [m' r]. apply H.
  - reflexivity.
  - reflexivity.
  - apply lookup_singleton_eq.
  - left. reflexivity.
Defined.
