(* ===== verification/OplogSign.v ===== *)
(** * Oplogs and their signatures: [service/oplog.go], [service/oplog_utils.go],
    [service/utils.go], [service/key_types.go]

    An oplog is signed by its creator, then by masters (or internally), and
    becomes valid with a master-log id.  This file models the signed data, the
    signing operations, the verification, and the merging of signatures. *)

From S2P Require Import Prelude GoTime CommonTypes MerkleNode.

Set Default Goal Selector "!".

(** ** Data *)

(** [KeyExtraInfo]: the key type and its data, decoded as [KeyBIP32] where the
    JSON decodes. *)
Record KeyBIP32 := MkBIP32 { kb_Parent : bytes; kb_Salt : bytes; kb_Child : Z }.
Record KeyExtraInfo := MkExtra { ke_KeyType : Z; ke_Data : option KeyBIP32 }.
Definition KeyTypeBIP32 : Z := 1.

Record SignInfo := MkSign {
  si_ID : PttID; si_CreateTS : Timestamp;
  si_Hash : bytes; si_Salt : bytes; si_Sig : bytes; si_Pubkey : bytes; si_Extra : option KeyExtraInfo }.

(** The fields of [BaseOplog] that are serialised; the empty slice stands for
    [nil], [o_Data] and [o_Extra] are the JSON of the interface values. *)
Record BaseOplog := MkOplog {
  o_V : Z; o_ID : PttID; o_CreatorID : PttID; o_CreateTS : Timestamp; o_ObjID : option PttID;
  o_Op : Z; o_PreLogID : option PttID; o_Data : bytes;
  o_CreatorHash : bytes; o_Salt : bytes; o_Sig : bytes; o_Pubkey : bytes; o_KeyExtra : option KeyExtraInfo;
  o_UpdateTS : Timestamp; o_Hash : bytes;
  o_MasterLogID : option PttID; o_MasterSigns : list SignInfo; o_InternalSigns : list SignInfo;
  o_IsSync : bool; o_IsNewer : bool; o_Extra : bytes }.

#[global] Instance KeyBIP32_eq_dec : EqDecision KeyBIP32.
Proof. solve_decision. Defined.
#[global] Instance KeyExtraInfo_eq_dec : EqDecision KeyExtraInfo.
Proof. solve_decision. Defined.
#[global] Instance SignInfo_eq_dec : EqDecision SignInfo.
Proof. solve_decision. Defined.
#[global] Instance BaseOplog_eq_dec : EqDecision BaseOplog.
Proof. solve_decision. Defined.

(** The JSON form of an oplog. *)
Class OplogJson := {
  o_Marshal : BaseOplog → bytes;
  o_Unmarshal : bytes → option BaseOplog;
  o_roundtrip o : o_Unmarshal (o_Marshal o) = Some o;
}.

(** secp256k1 of go-ethereum's [crypto], and the child derivation of
    [key/bip32] on a public key: a signature has 65 bytes and is accepted
    under the key's public bytes. *)
Class Signing `{Crypto} := {
  PrivKey : Type;
  PubBytes : PrivKey → bytes;
  KeyPub : PrivKey → PubKey;
  UnmarshalPubkey : bytes → option PubKey;
  EcSign : bytes → PrivKey → bytes;
  VerifySignature : bytes → bytes → bytes → bool;
  bip32_child : PubKey → bytes → Z → option bytes;
  UnmarshalPubkey_PubBytes k : UnmarshalPubkey (PubBytes k) = Some (KeyPub k);
  EcSign_length h k : length (EcSign h k) = 65;
  VerifySignature_EcSign h k : VerifySignature (PubBytes k) h (take 64 (EcSign h k)) = true;
}.

Record KeyInfo `{Signing} := MkKeyInfo {
  ki_Key : PrivKey; ki_PubKeyBytes : bytes; ki_Extra : option KeyExtraInfo; ki_Count : Z }.

Section Sign.
Context `{Crypto, !Signing, OplogJson}.

(** ** [SignData] and [VerifyData] *)

(** [salt] is what [types.NewSalt] returns, or its error.  [crypto.Sign] does
    not fail on a digest of 32 bytes. *)
Definition SignData (bs : bytes) (keyInfo : KeyInfo) (salt : outcome bytes) :
    outcome (bytes * bytes * bytes * bytes * KeyInfo) :=
  salt ← salt;
  let bytesWithSalt := Concat [Some bs; Some salt] in
  let hash := Keccak256 bytesWithSalt in
  let sig := EcSign hash (ki_Key keyInfo) in
  Ok (bytesWithSalt, hash, sig, ki_PubKeyBytes keyInfo,
      MkKeyInfo _ _ (ki_Key keyInfo) (ki_PubKeyBytes keyInfo) (ki_Extra keyInfo) (ki_Count keyInfo + 1)).

Definition IsValidBIP32 (k : KeyExtraInfo) (pubKeyBytes : bytes) (doerID : PttID) : bool :=
  match ke_Data k with
  | None => false
  | Some kb =>
    match UnmarshalPubkey (kb_Parent kb) with
    | None => false
    | Some parentPubKey =>
      if negb (IsSamePubKey doerID parentPubKey) then false else
      match bip32_child parentPubKey (kb_Salt kb) (kb_Child kb) with
      | None => false
      | Some childPubKeyBytes => bool_decide (childPubKeyBytes = pubKeyBytes)
      end
    end
  end.

Definition IsValid (k : KeyExtraInfo) (pubKeyBytes : bytes) (doerID : PttID) : bool :=
  if (ke_KeyType k =? KeyTypeBIP32)%Z then IsValidBIP32 k pubKeyBytes doerID else false.

Definition verifyDataCheckKey (pubKeyBytes : bytes) (doerID : PttID) (extra : option KeyExtraInfo) : bool :=
  match extra with
  | None =>
    match UnmarshalPubkey pubKeyBytes with
    | None => false
    | Some pubKey => IsSamePubKey doerID pubKey
    end
  | Some extra => IsValid extra pubKeyBytes doerID
  end.

(** [sig[:64]] panics on a shorter slice (whose capacity is its length). *)
Definition VerifyData (bytesWithSalt expectedHash sig pubKeyBytes : bytes) (doerID : PttID)
    (extra : option KeyExtraInfo) : outcome unit :=
  if negb (verifyDataCheckKey pubKeyBytes doerID extra) then Err SvcErrInvalidKey else
  let hash := Keccak256 bytesWithSalt in
  if decide (hash ≠ expectedHash) then Err SvcErrInvalidData else
  sig64 ← slice 0 64 sig;
  if negb (VerifySignature pubKeyBytes hash sig64) then Err SvcErrInvalidData else Ok tt.

(** ** What is hashed and signed *)

Definition sign_parts (s : SignInfo) : list (option bytes) :=
  [Some (si_Hash s); Some (si_Salt s); Some (si_Sig s); Some (si_Pubkey s)].

(** [SignsHash] *)
Definition SignsHash (o : BaseOplog) : bytes :=
  Keccak256 (Concat (
    [Some (match o_MasterLogID o with Some id => id | None => [] end);
     Some (o_CreatorHash o); Some (o_Salt o); Some (o_Sig o); Some (o_Pubkey o)] ++
    concat (sign_parts <$> o_MasterSigns o) ++ concat (sign_parts <$> o_InternalSigns o))).

Definition ZeroSalt : bytes := replicate SizeSalt x00.

(** Field updates of the signing operations, in the order of their
    assignments. *)
Definition set_creator_sig (o : BaseOplog) (hash salt sig pub : bytes) (extra : option KeyExtraInfo) : BaseOplog :=
  MkOplog (o_V o) (o_ID o) (o_CreatorID o) (o_CreateTS o) (o_ObjID o) (o_Op o) (o_PreLogID o) (o_Data o)
    hash salt sig pub extra (o_UpdateTS o) (o_Hash o) (o_MasterLogID o) (o_MasterSigns o) (o_InternalSigns o)
    (o_IsSync o) (o_IsNewer o) (o_Extra o).
Definition set_signs (o : BaseOplog) (masterLogID : option PttID) (masterSigns internalSigns : list SignInfo) : BaseOplog :=
  MkOplog (o_V o) (o_ID o) (o_CreatorID o) (o_CreateTS o) (o_ObjID o) (o_Op o) (o_PreLogID o) (o_Data o)
    (o_CreatorHash o) (o_Salt o) (o_Sig o) (o_Pubkey o) (o_KeyExtra o) (o_UpdateTS o) (o_Hash o)
    masterLogID masterSigns internalSigns (o_IsSync o) (o_IsNewer o) (o_Extra o).
Definition set_ts_hash (o : BaseOplog) (ts : Timestamp) (hash : bytes) : BaseOplog :=
  MkOplog (o_V o) (o_ID o) (o_CreatorID o) (o_CreateTS o) (o_ObjID o) (o_Op o) (o_PreLogID o) (o_Data o)
    (o_CreatorHash o) (o_Salt o) (o_Sig o) (o_Pubkey o) (o_KeyExtra o) ts hash
    (o_MasterLogID o) (o_MasterSigns o) (o_InternalSigns o) (o_IsSync o) (o_IsNewer o) (o_Extra o).
Definition set_flags (o : BaseOplog) (isSync isNewer : bool) (extra : bytes) : BaseOplog :=
  MkOplog (o_V o) (o_ID o) (o_CreatorID o) (o_CreateTS o) (o_ObjID o) (o_Op o) (o_PreLogID o) (o_Data o)
    (o_CreatorHash o) (o_Salt o) (o_Sig o) (o_Pubkey o) (o_KeyExtra o) (o_UpdateTS o) (o_Hash o)
    (o_MasterLogID o) (o_MasterSigns o) (o_InternalSigns o) isSync isNewer extra.

(** ** [Sign] *)

Definition Sign (o : BaseOplog) (keyInfo : KeyInfo) (salt : outcome bytes) : BaseOplog * KeyInfo * outcome unit :=
  let origSync := o_IsSync o in
  let origExtra := o_Extra o in
  let restore := λ o, set_flags o origSync (o_IsNewer o) origExtra in
  let o := set_ts_hash o ZeroTimestamp [] in
  let o := set_creator_sig o [] ZeroSalt [] [] (o_KeyExtra o) in
  let o := set_signs o None [] [] in
  let o := set_flags o false false [] in
  let marshaled := o_Marshal o in
  match SignData marshaled keyInfo salt with
  | Ok (bytesWithSalt, hash, sig, pubBytes, keyInfo) =>
    let o := set_creator_sig o hash (go_copy (o_Salt o) (drop (length marshaled) bytesWithSalt)) sig pubBytes
               (ki_Extra keyInfo) in
    let o := set_ts_hash o (o_CreateTS o) (o_Hash o) in
    let o := set_ts_hash o (o_UpdateTS o) (SignsHash o) in
    (restore o, keyInfo, Ok tt)
  | Err e => (restore o, keyInfo, Err e)
  | Panic => (restore o, keyInfo, Panic)
  end.

(** ** [MasterSign] and [InternalSign] *)

Definition ExpireOplogSeconds : Z := 300.

(** [append(signs, nil)], [copy(signs[(idx+1):], signs[idx:])], [signs[idx] = s] *)
Definition insert_sign (signs : list SignInfo) (s : SignInfo) : list SignInfo :=
  let idx := sort_search (length signs) (λ i,
    match signs !! i with Some x => bytes_leb (si_ID s) (si_ID x) | None => false end) in
  <[idx := s]> (take (S idx) (signs ++ [s]) ++ go_copy (drop (S idx) (signs ++ [s])) (drop idx signs)).

(** The oplog as a master or internal signer signs it. *)
Definition to_cosign (o : BaseOplog) : BaseOplog :=
  set_flags (set_signs (set_ts_hash o ZeroTimestamp []) None [] []) false false [].

(** [expireTS := ts; expireTS.Ts -= ExpireOplogSeconds; CreateTS < expireTS] *)
Definition is_expired (o : BaseOplog) (ts : Timestamp) : bool :=
  IsLess (o_CreateTS o) (MkTs (i64 (Ts ts - ExpireOplogSeconds)) (NanoTs ts)).

Definition new_sign (id : PttID) (ts : Timestamp) (hash sig pub salt : bytes) (extra : option KeyExtraInfo) : SignInfo :=
  MkSign id ts hash (go_copy ZeroSalt salt) sig pub extra.

(** [ts] is what the clock, [types.GetTimestamp], returns. *)
Definition MasterSign (o : BaseOplog) (id : PttID) (keyInfo : KeyInfo) (ts : outcome Timestamp) (salt : outcome bytes) :
    BaseOplog * KeyInfo * outcome unit :=
  match ts with
  | Err e => (o, keyInfo, Err e)
  | Panic => (o, keyInfo, Panic)
  | Ok ts =>
    if is_expired o ts then (o, keyInfo, Err SvcErrInvalidOplog) else
    let origMasterLogID := o_MasterLogID o in
    let origSync := o_IsSync o in
    let origMasterSigns := o_MasterSigns o in
    let origExtra := o_Extra o in
    let restore := λ o,
      set_flags (set_signs o origMasterLogID (o_MasterSigns o) (o_InternalSigns o)) origSync (o_IsNewer o) origExtra in
    let o := to_cosign o in
    let marshaled := o_Marshal o in
    match SignData marshaled keyInfo salt with
    | Ok (bytesWithSalt, hash, sig, pubBytes, keyInfo) =>
      let masterSign := new_sign id ts hash sig pubBytes (drop (length marshaled) bytesWithSalt) (ki_Extra keyInfo) in
      let o := set_signs o (o_MasterLogID o) (insert_sign origMasterSigns masterSign) (o_InternalSigns o) in
      let o := set_ts_hash o ts (o_Hash o) in
      let o := set_ts_hash o (o_UpdateTS o) (SignsHash o) in
      (restore o, keyInfo, Ok tt)
    | Err e => (restore o, keyInfo, Err e)
    | Panic => (restore o, keyInfo, Panic)
    end
  end.

Definition InternalSign (o : BaseOplog) (id : PttID) (keyInfo : KeyInfo) (ts : outcome Timestamp) (salt : outcome bytes) :
    BaseOplog * KeyInfo * outcome unit :=
  match ts with
  | Err e => (o, keyInfo, Err e)
  | Panic => (o, keyInfo, Panic)
  | Ok ts =>
    if is_expired o ts then (o, keyInfo, Err SvcErrInvalidOplog) else
    let origMasterLogID := o_MasterLogID o in
    let origMasterSigns := o_MasterSigns o in
    let origSync := o_IsSync o in
    let origInternalSigns := o_InternalSigns o in
    let origExtra := o_Extra o in
    let restore := λ o,
      set_flags (set_signs o origMasterLogID origMasterSigns (o_InternalSigns o)) origSync (o_IsNewer o) origExtra in
    let o := to_cosign o in
    let marshaled := o_Marshal o in
    match SignData marshaled keyInfo salt with
    | Ok (bytesWithSalt, hash, sig, pubBytes, keyInfo) =>
      let internalSign := new_sign id ts hash sig pubBytes (drop (length marshaled) bytesWithSalt) (ki_Extra keyInfo) in
      let o := set_signs o (o_MasterLogID o) (o_MasterSigns o) (insert_sign origInternalSigns internalSign) in
      let o := set_ts_hash o ts (o_Hash o) in
      let o := set_ts_hash o (o_UpdateTS o) (SignsHash o) in
      (restore o, keyInfo, Ok tt)
    | Err e => (restore o, keyInfo, Err e)
    | Panic => (restore o, keyInfo, Panic)
    end
  end.

Definition SetMasterLogID (o : BaseOplog) (oplogID : option PttID) : BaseOplog :=
  let o := set_signs o oplogID (o_MasterSigns o) [] in
  set_ts_hash o (o_UpdateTS o) (SignsHash o).

(** ** [Verify] *)

(** The oplog as the creator signed it. *)
Definition to_sign (o : BaseOplog) : BaseOplog :=
  to_cosign (set_creator_sig o [] ZeroSalt [] [] None).

Fixpoint verify_signs (marshaled : bytes) (signs : list SignInfo) : outcome unit :=
  match signs with
  | [] => Ok tt
  | s :: signs =>
    _ ← VerifyData (marshaled ++ si_Salt s) (si_Hash s) (si_Sig s) (si_Pubkey s) (si_ID s) (si_Extra s);
    verify_signs marshaled signs
  end.

(** [Verify] restores every field it cleared when it returns. *)
Definition Verify (o : BaseOplog) : outcome unit :=
  if IsLess (o_UpdateTS o) (o_CreateTS o) then Err SvcErrInvalidOplog else
  if decide (o_Hash o ≠ SignsHash o) then Err SvcErrInvalidData else
  _ ← VerifyData (o_Marshal (to_sign o) ++ o_Salt o) (o_CreatorHash o) (o_Sig o) (o_Pubkey o) (o_CreatorID o) (o_KeyExtra o);
  _ ← verify_signs (o_Marshal (to_cosign o)) (o_MasterSigns o);
  verify_signs (o_Marshal (to_cosign o)) (o_InternalSigns o).

(** ** Merging and looking up signatures *)

Fixpoint integrate_loop (fuel : nat) (signInfos origSignInfos acc : list SignInfo) : list SignInfo :=
  match fuel, signInfos, origSignInfos with
  | S f, s :: rest, s2 :: rest2 =>
    match bytes_compare (si_ID s) (si_ID s2) with
    | Lt => integrate_loop f rest (s2 :: rest2) (acc ++ [s])
    | Gt => integrate_loop f (s :: rest) rest2 (acc ++ [s2])
    | Eq => integrate_loop f rest rest2 (acc ++ [s])
    end
  | _, _, _ => acc
  end.

(** The merged list, whether it is as long as [signInfos] and as
    [origSignInfos]; the error is always [nil]. *)
Definition integrateSignInfos (signInfos origSignInfos : list SignInfo) : list SignInfo * bool * bool :=
  match signInfos, origSignInfos with
  | [], [] => ([], true, true)
  | _, [] => (signInfos, true, false)
  | [], _ => (origSignInfos, false, true)
  | _, _ =>
    let l := integrate_loop (length signInfos + length origSignInfos) signInfos origSignInfos [] in
    (l, bool_decide (length l = length signInfos), bool_decide (length l = length origSignInfos))
  end.

Definition IDInOplogSigns (id : PttID) (signs : list SignInfo) : bool :=
  if decide (length signs = 0) then false else
  let idx := sort_search (length signs) (λ i,
    match signs !! i with Some x => bytes_leb id (si_ID x) | None => false end) in
  match signs !! idx with Some x => bool_decide (si_ID x = id) | None => false end.

(** [ToStatus] *)
Definition ToStatus (o : BaseOplog) : Status :=
  match o_MasterLogID o with
  | Some _ => StatusAlive
  | None =>
    if decide (0 < length (o_InternalSigns o)) then StatusInternalPending
    else if decide (0 < length (o_MasterSigns o)) then StatusPending
    else StatusInvalid
  end.

End Sign.

(** ** Lists of keys *)

(** [DiffOplogKeys]: set difference both ways, by a map from key to true. *)
Definition DiffOplogKeys (myKeys theirKeys : list bytes) : list bytes * list bytes :=
  let keyMap : gmap bytes bool := foldl (λ m k, <[k := true]> m) ∅ theirKeys in
  let myExtraKeys := foldl (λ acc k, if default false (keyMap !! k) then acc else acc ++ [k]) [] myKeys in
  let keyMap : gmap bytes bool := foldl (λ m k, <[k := true]> m) ∅ myKeys in
  let theirExtraKeys := foldl (λ acc k, if default false (keyMap !! k) then acc else acc ++ [k]) [] theirKeys in
  (myExtraKeys, theirExtraKeys).

(** [ConcatLog] *)
Definition ConcatLog {A} (dflt : A) (slices : list (option (list A))) : list A :=
  let totalLen := foldl (λ n s, match s with None => n | Some l => n + length l end) 0 slices in
  (foldl (λ '(tmp, i) s,
     match s with
     | None => (tmp, i)
     | Some l => (take i tmp ++ go_copy (drop i tmp) l, i + go_copy_n (drop i tmp) l)
     end) (replicate totalLen dflt, 0) slices).1.

(** ** Inserting and looking up in an ordered list of signatures *)

Definition signs_sorted : list SignInfo → Prop := StronglySorted (λ a b, bytes_le (si_ID a) (si_ID b)).

Lemma signs_sorted_lookup signs i j a b :
  signs_sorted signs → signs !! i = Some a → signs !! j = Some b → i ≤ j → bytes_le (si_ID a) (si_ID b).
Proof.
  intros Hs. revert i j. induction Hs as [|x l Hs IH Hx]; intros i j Hi Hj Hij; [done|].
  destruct i as [|i], j as [|j]; simpl in *; [by simplify_eq| |lia|eapply IH; eauto with lia].
  injection Hi as <-. by eapply (proj1 (Forall_lookup _ _) Hx).
Qed.

(** Where the binary search lands. *)
Lemma sign_search id signs :
  signs_sorted signs →
  let idx := sort_search (length signs) (λ i,
    match signs !! i with Some x => bytes_leb id (si_ID x) | None => false end) in
  idx ≤ length signs ∧
  Forall (λ x, bytes_lt (si_ID x) id) (take idx signs) ∧ Forall (λ x, bytes_le id (si_ID x)) (drop idx signs).
Proof.
  intros Hs. cbv zeta.
  set (f := λ i, match signs !! i with Some x => bytes_leb id (si_ID x) | None => false end).
  destruct (sort_search_spec (length signs) f) as (Hle & Hlo & Hhi).
  { intros i j Hij Hj Hf. unfold f in *.
    destruct (lookup_lt_is_Some_2 signs i ltac:(lia)) as [a Ha].
    destruct (lookup_lt_is_Some_2 signs j ltac:(lia)) as [b Hb].
    rewrite Ha in Hf. rewrite Hb. apply bytes_le_spec in Hf. apply bytes_le_spec.
    transitivity (si_ID a); [done|]. by eapply signs_sorted_lookup. }
  set (k := sort_search (length signs) f) in *. clearbody k. split; [done|]. split; apply Forall_lookup.
  - intros i x Hx. apply lookup_take_Some in Hx as [Hx Hik]. specialize (Hlo i Hik). unfold f in Hlo.
    rewrite Hx in Hlo. apply bytes_lt_not_le. intros Hc%bytes_le_spec. congruence.
  - intros i x Hx. rewrite lookup_drop in Hx. pose proof (lookup_lt_Some _ _ _ Hx).
    specialize (Hhi (k + i) ltac:(lia)). unfold f in Hhi. rewrite Hx in Hhi. by apply bytes_le_spec.
Qed.

#[local] Instance SignInfo_inhabited : Inhabited SignInfo :=
  populate (MkSign [] ZeroTimestamp [] [] [] [] None).

Lemma insert_sign_eq signs s :
  let idx := sort_search (length signs) (λ i,
    match signs !! i with Some x => bytes_leb (si_ID s) (si_ID x) | None => false end) in
  insert_sign signs s = take idx signs ++ s :: drop idx signs.
Proof.
  cbv zeta. unfold insert_sign. set (idx := sort_search _ _).
  assert (idx ≤ length signs) as Hle by apply sort_search_le. clearbody idx.
  assert (go_copy (drop (S idx) (signs ++ [s])) (drop idx signs) = drop idx signs) as ->.
  { apply go_copy_full. rewrite !length_drop, length_app. simpl. lia. }
  assert (take (S idx) (signs ++ [s]) = take idx signs ++ [(signs ++ [s]) !!! idx]) as ->.
  { rewrite (take_S_r _ _ ((signs ++ [s]) !!! idx)).
    - by rewrite take_app_le.
    - apply list_lookup_lookup_total_lt. rewrite length_app. simpl. lia. }
  rewrite <- app_assoc. rewrite insert_app_r_alt by (rewrite length_take; lia).
  rewrite length_take_le by done. by rewrite Nat.sub_diag.
Qed.

Lemma insert_sign_sorted signs s : signs_sorted signs → signs_sorted (insert_sign signs s).
Proof.
  intros Hs. rewrite insert_sign_eq. destruct (sign_search (si_ID s) signs Hs) as (_ & Hlo & Hhi).
  set (idx := sort_search _ _) in *. clearbody idx. rewrite <- (take_drop idx signs) in Hs.
  revert Hs Hlo Hhi. generalize (drop idx signs). generalize (take idx signs). clear idx signs.
  intros l1 l2 Hs Hlo Hhi. unfold signs_sorted in *. induction l1 as [|x l1 IH]; simpl in *.
  - by constructor.
  - apply Forall_cons in Hlo as [Hx Hlo]. inversion Hs as [|?? Hs' Hf]; subst. constructor; [by apply IH|].
    apply Forall_app in Hf as [Hf1 Hf2]. apply Forall_app. split; [done|]. constructor; [|done].
    apply bytes_le_lteq. by left.
Qed.

Lemma insert_sign_perm signs s : insert_sign signs s ≡ₚ s :: signs.
Proof.
  rewrite insert_sign_eq. set (idx := sort_search _ _). clearbody idx.
  rewrite <- Permutation_middle. by rewrite take_drop.
Qed.

(** The signatures stay ordered by signer when one is inserted, none is
    lost or duplicated, and on an ordered list the binary search of
    [IDInOplogSigns] finds exactly the identifiers that signed. *)
Theorem oplog_signs_ordered signs s id :
  signs_sorted signs →
  signs_sorted (insert_sign signs s) ∧ insert_sign signs s ≡ₚ s :: signs ∧
  (IDInOplogSigns id signs = true ↔ id ∈ si_ID <$> signs).
Proof.
  intros Hs. split; [by apply insert_sign_sorted|]. split; [apply insert_sign_perm|].
  unfold IDInOplogSigns. destruct (sign_search id signs Hs) as (Hle & Hlo & Hhi).
  case_decide as Hz. { apply nil_length_inv in Hz as ->. split; [done|]. by intros ?%not_elem_of_nil. }
  set (idx := sort_search _ _) in *. clearbody idx. destruct (signs !! idx) as [x|] eqn:Ex.
  - rewrite bool_decide_eq_true. split.
    + intros <-. apply list_elem_of_fmap. exists x. split; [done|]. by eapply list_elem_of_lookup_2.
    + intros (y & -> & Hy)%list_elem_of_fmap_1. rewrite <- (take_drop idx signs) in Hy.
      rewrite (drop_S _ x) in Hhi by done. apply Forall_cons in Hhi as [Hx _].
      apply elem_of_app in Hy as [Hy|Hy].
      { exfalso. rewrite Forall_forall in Hlo. by apply (bytes_lt_irrefl (si_ID y)), Hlo. }
      rewrite (drop_S _ x) in Hy by done. apply elem_of_cons in Hy as [->|Hy]; [done|].
      apply (anti_symm bytes_le); [|done].
      apply list_elem_of_lookup in Hy as [j Hj]. rewrite lookup_drop in Hj.
      eapply (signs_sorted_lookup signs idx); [done..|lia].
  - split; [done|]. intros (y & -> & Hy)%list_elem_of_fmap_1. exfalso. apply lookup_ge_None in Ex.
    rewrite take_ge in Hlo by lia. rewrite Forall_forall in Hlo. by apply (bytes_lt_irrefl (si_ID y)), Hlo.
Qed.

(** ** Signing and verifying *)

Section SignProps.
Context `{Crypto, !Signing, OplogJson}.

(** The key information belongs to the signer [id]. *)
Definition key_ok (ki : KeyInfo) (id : PttID) : Prop :=
  ki_PubKeyBytes ki = PubBytes (ki_Key ki) ∧ verifyDataCheckKey (PubBytes (ki_Key ki)) id (ki_Extra ki) = true.

Lemma slice_prefix (b : bytes) n : n ≤ length b → slice 0 n b = Ok (take n b).
Proof. intros Hn. unfold slice. rewrite decide_True by lia. by rewrite Nat.sub_0_r, drop_0. Qed.

Lemma VerifyData_signed bs (ki : KeyInfo) id :
  key_ok ki id →
  VerifyData bs (Keccak256 bs) (EcSign (Keccak256 bs) (ki_Key ki)) (ki_PubKeyBytes ki) id (ki_Extra ki) = Ok tt.
Proof.
  intros [-> Hc]. unfold VerifyData. rewrite Hc. simpl. rewrite decide_False by tauto.
  rewrite slice_prefix by (rewrite EcSign_length; lia). cbn [mbind outcome_bind].
  by rewrite VerifySignature_EcSign.
Qed.

Lemma SignData_eq bs ki salt :
  SignData bs ki (Ok salt) =
    Ok (bs ++ salt, Keccak256 (bs ++ salt), EcSign (Keccak256 (bs ++ salt)) (ki_Key ki), ki_PubKeyBytes ki,
        MkKeyInfo _ _ (ki_Key ki) (ki_PubKeyBytes ki) (ki_Extra ki) (ki_Count ki + 1)).
Proof. unfold SignData. cbn [mbind outcome_bind]. rewrite Concat_spec. unfold opt_concat. simpl. by rewrite app_nil_r. Qed.

Lemma go_copy_salt (salt : bytes) : length salt = SizeSalt → go_copy ZeroSalt salt = salt.
Proof. intros Hl. apply go_copy_full. by rewrite Hl. Qed.

Lemma verify_signs_Forall bs signs :
  verify_signs bs signs = Ok tt ↔
  Forall (λ s, VerifyData (bs ++ si_Salt s) (si_Hash s) (si_Sig s) (si_Pubkey s) (si_ID s) (si_Extra s) = Ok tt) signs.
Proof.
  induction signs as [|s signs IH]; [by split|]. rewrite Forall_cons. cbn [verify_signs].
  destruct (VerifyData _ _ _ _ _ _) as [[]| |]; cbn [mbind outcome_bind]; [rewrite IH; naive_solver|naive_solver..].
Qed.

(** What [Verify] checks. *)
Definition creator_ok (o : BaseOplog) : Prop :=
  VerifyData (o_Marshal (to_sign o) ++ o_Salt o) (o_CreatorHash o) (o_Sig o) (o_Pubkey o) (o_CreatorID o) (o_KeyExtra o) = Ok tt.
Definition cosign_ok (o : BaseOplog) (s : SignInfo) : Prop :=
  VerifyData (o_Marshal (to_cosign o) ++ si_Salt s) (si_Hash s) (si_Sig s) (si_Pubkey s) (si_ID s) (si_Extra s) = Ok tt.

Lemma Verify_ok o :
  Verify o = Ok tt ↔
  ¬ ts_lt (o_UpdateTS o) (o_CreateTS o) ∧ o_Hash o = SignsHash o ∧ creator_ok o ∧
  Forall (cosign_ok o) (o_MasterSigns o) ∧ Forall (cosign_ok o) (o_InternalSigns o).
Proof.
  unfold Verify. destruct (IsLess _ _) eqn:El.
  { split; [done|]. intros [Hn _]. by apply IsLess_spec in El. }
  assert (¬ ts_lt (o_UpdateTS o) (o_CreateTS o)) as Hn by (rewrite <- IsLess_spec; congruence).
  case_decide as Hh; [split; [done|tauto]|].
  assert (o_Hash o = SignsHash o) by (by destruct (decide (o_Hash o = SignsHash o))).
  unfold creator_ok, cosign_ok.
  destruct (VerifyData _ _ _ _ _ _) as [[]| |]; cbn [mbind outcome_bind]; [|naive_solver..].
  rewrite <- !verify_signs_Forall.
  destruct (verify_signs _ (o_MasterSigns o)) as [[]| |]; cbn [mbind outcome_bind]; [|naive_solver..]. tauto.
Qed.

Create Rewrite HintDb oplog.

(** The signed forms do not depend on what they clear. *)
Lemma to_sign_flags o a b c : to_sign (set_flags o a b c) = to_sign o.
Proof. by destruct o. Qed.
Lemma to_sign_ts_hash o t h : to_sign (set_ts_hash o t h) = to_sign o.
Proof. by destruct o. Qed.
Lemma to_sign_signs o a b c : to_sign (set_signs o a b c) = to_sign o.
Proof. by destruct o. Qed.
Lemma to_sign_creator o a b c d e : to_sign (set_creator_sig o a b c d e) = to_sign o.
Proof. by destruct o. Qed.
Lemma to_cosign_flags o a b c : to_cosign (set_flags o a b c) = to_cosign o.
Proof. by destruct o. Qed.
Lemma to_cosign_ts_hash o t h : to_cosign (set_ts_hash o t h) = to_cosign o.
Proof. by destruct o. Qed.
Lemma to_cosign_signs o a b c : to_cosign (set_signs o a b c) = to_cosign o.
Proof. by destruct o. Qed.
Lemma to_cosign_idem o : to_cosign (to_cosign o) = to_cosign o.
Proof. by destruct o. Qed.
Lemma to_sign_cosign o : to_sign (to_cosign o) = to_sign o.
Proof. by destruct o. Qed.
Lemma SignsHash_flags o a b c : SignsHash (set_flags o a b c) = SignsHash o.
Proof. by destruct o. Qed.
Lemma SignsHash_ts_hash o t h : SignsHash (set_ts_hash o t h) = SignsHash o.
Proof. by destruct o. Qed.
#[local] Hint Rewrite to_sign_flags to_sign_ts_hash to_sign_signs to_sign_creator to_cosign_flags to_cosign_ts_hash
  to_cosign_signs to_cosign_idem to_sign_cosign SignsHash_flags SignsHash_ts_hash : oplog.

(** [Sign] gives an oplog that verifies. *)
Lemma Sign_ok o ki salt :
  key_ok ki (o_CreatorID o) → length salt = SizeSalt → o_KeyExtra o = None →
  let '(o', _, r) := Sign o ki (Ok salt) in
  r = Ok tt ∧ Verify o' = Ok tt ∧ o_MasterLogID o' = None ∧ o_MasterSigns o' = [] ∧ o_InternalSigns o' = [] ∧
  o_CreateTS o' = o_CreateTS o.
Proof.
  intros Hk Hs He. unfold Sign. cbv zeta.
  change (o_KeyExtra (set_ts_hash o ZeroTimestamp [])) with (o_KeyExtra o). rewrite He.
  set (o1 := set_flags _ false false []).
  assert (to_sign o = o1) as Ho1 by (subst o1; destruct o; simpl in He; by subst).
  assert (o_CreateTS o1 = o_CreateTS o ∧ o_CreatorID o1 = o_CreatorID o) as [Hc1 Hc2] by done.
  assert (o_MasterLogID o1 = None ∧ o_MasterSigns o1 = [] ∧ o_InternalSigns o1 = [] ∧ o_Salt o1 = ZeroSalt) as (Hm1 & Hm2 & Hm3 & Hz) by done.
  assert (to_sign o1 = o1) as Hfix by done.
  clearbody o1. rewrite SignData_eq. cbv iota beta. rewrite drop_app_length, Hz, go_copy_salt by done.
  split; [done|]. split; [|by rewrite <- Hc1].
  apply Verify_ok. autorewrite with oplog. split_and!.
  - apply ts_lt_irrefl.
  - done.
  - unfold creator_ok. autorewrite with oplog. rewrite Hfix. cbn [o_Salt o_CreatorHash o_Sig o_Pubkey o_CreatorID o_KeyExtra set_flags set_ts_hash set_creator_sig].
    rewrite Hc2. exact (VerifyData_signed _ ki _ Hk).
  - cbn. rewrite Hm2. constructor.
  - cbn. rewrite Hm3. constructor.
Qed.

Lemma to_cosign_fix o : to_cosign (to_cosign o) = to_cosign o.
Proof. by destruct o. Qed.

Lemma cosign_ok_ext o o' s : to_cosign o' = to_cosign o → cosign_ok o' s ↔ cosign_ok o s.
Proof. intros E. unfold cosign_ok. by rewrite E. Qed.

Lemma creator_ok_ext o o' :
  to_sign o' = to_sign o →
  (o_Salt o', o_CreatorHash o', o_Sig o', o_Pubkey o', o_CreatorID o', o_KeyExtra o') =
  (o_Salt o, o_CreatorHash o, o_Sig o, o_Pubkey o, o_CreatorID o, o_KeyExtra o) →
  creator_ok o' ↔ creator_ok o.
Proof. intros E [= E1 E2 E3 E4 E5 E6]. unfold creator_ok. by rewrite E, E1, E2, E3, E4, E5, E6. Qed.

(** The signature a signer adds is valid for the oplog. *)
Lemma new_sign_ok o id ki ts salt :
  key_ok ki id → length salt = SizeSalt →
  cosign_ok o (new_sign id ts (Keccak256 (o_Marshal (to_cosign o) ++ salt))
    (EcSign (Keccak256 (o_Marshal (to_cosign o) ++ salt)) (ki_Key ki)) (ki_PubKeyBytes ki) salt (ki_Extra ki)).
Proof.
  intros Hk Hs. unfold cosign_ok, new_sign. cbn [si_Salt si_Hash si_Sig si_Pubkey si_ID si_Extra].
  rewrite go_copy_salt by done. by apply VerifyData_signed.
Qed.

(** What [MasterSign] returns on success. *)
Lemma MasterSign_eq o id ki ts salt :
  is_expired o ts = false → length salt = SizeSalt →
  ∃ s, MasterSign o id ki (Ok ts) (Ok salt) =
    (set_flags (set_signs (set_ts_hash o ts (SignsHash (set_signs o None (insert_sign (o_MasterSigns o) s) [])))
       (o_MasterLogID o) (insert_sign (o_MasterSigns o) s) []) (o_IsSync o) false (o_Extra o),
     MkKeyInfo _ _ (ki_Key ki) (ki_PubKeyBytes ki) (ki_Extra ki) (ki_Count ki + 1), Ok tt) ∧
    si_ID s = id ∧ si_Salt s = salt ∧ (key_ok ki id → cosign_ok o s).
Proof.
  intros He Hs. unfold MasterSign. rewrite He, SignData_eq. cbv zeta iota beta. rewrite drop_app_length.
  eexists (new_sign id ts _ _ _ salt _). split; [by destruct o|]. split; [done|].
  split; [by apply go_copy_salt|]. intros Hk. exact (new_sign_ok o id ki ts salt Hk Hs).
Qed.

Lemma InternalSign_eq o id ki ts salt :
  is_expired o ts = false → length salt = SizeSalt →
  ∃ s, InternalSign o id ki (Ok ts) (Ok salt) =
    (set_flags (set_signs (set_ts_hash o ts (SignsHash (set_signs o None [] (insert_sign (o_InternalSigns o) s))))
       (o_MasterLogID o) (o_MasterSigns o) (insert_sign (o_InternalSigns o) s)) (o_IsSync o) false (o_Extra o),
     MkKeyInfo _ _ (ki_Key ki) (ki_PubKeyBytes ki) (ki_Extra ki) (ki_Count ki + 1), Ok tt) ∧
    si_ID s = id ∧ si_Salt s = salt ∧ (key_ok ki id → cosign_ok o s).
Proof.
  intros He Hs. unfold InternalSign. rewrite He, SignData_eq. cbv zeta iota beta. rewrite drop_app_length.
  eexists (new_sign id ts _ _ _ salt _). split; [by destruct o|]. split; [done|].
  split; [by apply go_copy_salt|]. intros Hk. exact (new_sign_ok o id ki ts salt Hk Hs).
Qed.

(** Signatures collected so far: all of one kind, on an oplog without a
    master-log id yet unless it is complete. *)
Inductive signed : BaseOplog → Prop :=
| signed_create o ki ki' salt o' :
    key_ok ki (o_CreatorID o) → length salt = SizeSalt → o_KeyExtra o = None →
    Sign o ki (Ok salt) = (o', ki', Ok tt) → signed o'
| signed_master o id ki ki' ts salt o' :
    signed o → o_MasterLogID o = None → key_ok ki id → length salt = SizeSalt →
    ts_le (o_CreateTS o) ts → MasterSign o id ki (Ok ts) (Ok salt) = (o', ki', Ok tt) → signed o'
| signed_internal o id ki ki' ts salt o' :
    signed o → o_MasterLogID o = None → o_MasterSigns o = [] → key_ok ki id → length salt = SizeSalt →
    ts_le (o_CreateTS o) ts → InternalSign o id ki (Ok ts) (Ok salt) = (o', ki', Ok tt) → signed o'
| signed_log o id : signed o → signed (SetMasterLogID o (Some id)).

Lemma Forall_insert_sign P signs s : Forall P (insert_sign signs s) ↔ P s ∧ Forall P signs.
Proof. rewrite insert_sign_perm. apply Forall_cons. Qed.

Lemma ts_le_not_lt a b : ts_le a b → ¬ ts_lt b a.
Proof. rewrite ts_lt_not_le. tauto. Qed.

Lemma signed_ok o :
  signed o → Verify o = Ok tt ∧ signs_sorted (o_MasterSigns o) ∧ signs_sorted (o_InternalSigns o).
Proof.
  induction 1 as [o ki ki' salt o' Hk Hs He E|o id ki ki' ts salt o' _ IH Hm Hk Hs Hts E
    |o id ki ki' ts salt o' _ IH Hm Hms Hk Hs Hts E|o id _ IH].
  - pose proof (Sign_ok o ki salt Hk Hs He) as Hok. rewrite E in Hok. destruct Hok as (_ & Hv & _ & -> & -> & _).
    split; [done|]. split; constructor.
  - destruct IH as (Hv & Hsm & Hsi). destruct (is_expired o ts) eqn:Ee; [unfold MasterSign in E; rewrite Ee in E; done|].
    destruct (MasterSign_eq o id ki ts salt Ee Hs) as (s & Eq & _ & _ & Hc). rewrite Eq in E. injection E as <- <-.
    apply Verify_ok in Hv as (_ & _ & Hcr & Hma & _). split; [|split; [by apply insert_sign_sorted|constructor]].
    apply Verify_ok. autorewrite with oplog. split_and!.
    + by apply ts_le_not_lt.
    + cbn. by rewrite Hm; destruct o.
    + eapply creator_ok_ext; [by autorewrite with oplog| |exact Hcr]. done.
    + apply Forall_insert_sign. split.
      * eapply cosign_ok_ext; [by autorewrite with oplog|]. by apply Hc.
      * eapply Forall_impl; [exact Hma|]. intros x Hx. by eapply cosign_ok_ext; [autorewrite with oplog|].
    + constructor.
  - destruct IH as (Hv & Hsm & Hsi). destruct (is_expired o ts) eqn:Ee; [unfold InternalSign in E; rewrite Ee in E; done|].
    destruct (InternalSign_eq o id ki ts salt Ee Hs) as (s & Eq & _ & _ & Hc). rewrite Eq in E. injection E as <- <-.
    apply Verify_ok in Hv as (_ & _ & Hcr & _ & Hin). split; [|split; [cbn; rewrite Hms; constructor|by apply insert_sign_sorted]].
    apply Verify_ok. autorewrite with oplog. split_and!.
    + by apply ts_le_not_lt.
    + cbn. by rewrite Hm, Hms; destruct o.
    + eapply creator_ok_ext; [by autorewrite with oplog| |exact Hcr]. done.
    + cbn. rewrite Hms. constructor.
    + apply Forall_insert_sign. split.
      * eapply cosign_ok_ext; [by autorewrite with oplog|]. by apply Hc.
      * eapply Forall_impl; [exact Hin|]. intros x Hx. by eapply cosign_ok_ext; [autorewrite with oplog|].
  - destruct IH as (Hv & Hsm & Hsi). split; [|split; [done|constructor]].
    apply Verify_ok in Hv as (Hts & _ & Hcr & Hma & _). apply Verify_ok. unfold SetMasterLogID.
    autorewrite with oplog. split_and!; [done|done| | |constructor].
    + eapply creator_ok_ext; [by autorewrite with oplog| |exact Hcr]. done.
    + eapply Forall_impl; [exact Hma|]. intros x Hx. by eapply cosign_ok_ext; [autorewrite with oplog|].
Qed.

(** C1: an oplog signed by its creator with [Sign], then by any masters with
    [MasterSign] (or, before any master, with [InternalSign]) and completed by
    [SetMasterLogID], verifies at every stage, and its signatures stay ordered
    by signer. *)
Theorem signed_oplog_verifies o :
  signed o → Verify o = Ok tt ∧ signs_sorted (o_MasterSigns o) ∧ signs_sorted (o_InternalSigns o).
Proof. apply signed_ok. Qed.

Lemma concat_parts_length (l : list SignInfo) :
  length (opt_concat (concat (sign_parts <$> l))) =
    sum_list_with (λ s, length (si_Hash s) + length (si_Salt s) + length (si_Sig s) + length (si_Pubkey s)) l.
Proof.
  unfold opt_concat. induction l as [|s l IH]; [done|]. cbn [fmap list_fmap concat]. rewrite fmap_app, concat_app, length_app, IH.
  cbn. rewrite !length_app. simpl. lia.
Qed.

(** The bytes under the digest of [SignsHash]. *)
Definition signs_bytes (o : BaseOplog) : bytes :=
  Concat ([Some (match o_MasterLogID o with Some id => id | None => [] end);
     Some (o_CreatorHash o); Some (o_Salt o); Some (o_Sig o); Some (o_Pubkey o)] ++
    concat (sign_parts <$> o_MasterSigns o) ++ concat (sign_parts <$> o_InternalSigns o)).

Lemma signs_bytes_length o :
  length (signs_bytes o) =
    length (match o_MasterLogID o with Some id => id | None => [] end) +
    (length (o_CreatorHash o) + length (o_Salt o) + length (o_Sig o) + length (o_Pubkey o)) +
    (length (opt_concat (concat (sign_parts <$> o_MasterSigns o))) +
     length (opt_concat (concat (sign_parts <$> o_InternalSigns o)))).
Proof.
  unfold signs_bytes. rewrite Concat_spec. unfold opt_concat. rewrite !fmap_app, !concat_app, !length_app. cbn.
  rewrite !length_app. change (length (@nil byte)) with 0. rewrite Nat.add_0_r, !Nat.add_assoc. reflexivity.
Qed.

(** [InternalSign] computes the hash while the master signatures are set
    aside and restores them afterwards: on an oplog a master has signed the
    result does not verify, unless two different strings with the same
    digest are at hand. *)
Theorem internal_sign_after_master o id ki ts salt m ms :
  o_MasterSigns o = m :: ms → length (si_Salt m) = SizeSalt → o_MasterLogID o = None →
  length salt = SizeSalt → is_expired o ts = false → ts_le (o_CreateTS o) ts →
  let '(o', _, r) := InternalSign o id ki (Ok ts) (Ok salt) in
  r = Ok tt ∧ (Verify o' = Err SvcErrInvalidData ∨ ∃ a b, a ≠ b ∧ Keccak256 a = Keccak256 b).
Proof.
  intros Hm Hsm Hl Hs He Hts. destruct (InternalSign_eq o id ki ts salt He Hs) as (s & -> & _).
  set (l := insert_sign _ s). split; [done|].
  set (a := signs_bytes (set_signs o None [] l)). set (b := signs_bytes (set_signs o None (o_MasterSigns o) l)).
  destruct (decide (Keccak256 a = Keccak256 b)) as [E|E].
  - right. exists a, b. split; [|done]. intros Hab. apply (f_equal length) in Hab. subst a b.
    rewrite !signs_bytes_length in Hab. cbn [o_MasterLogID o_CreatorHash o_Salt o_Sig o_Pubkey o_MasterSigns o_InternalSigns set_signs] in Hab.
    rewrite Hm in Hab. rewrite (concat_parts_length (m :: ms)) in Hab. simpl in Hab.
    rewrite Hsm in Hab. unfold SizeSalt in Hab. lia.
  - left. unfold Verify.
    match goal with |- (if ?x then _ else _) = _ => destruct x eqn:Ev end.
    { exfalso. apply IsLess_spec in Ev. by apply (ts_le_not_lt _ _ Hts). }
    rewrite decide_True; [done|]. autorewrite with oplog. cbn. rewrite Hl. intros E'. apply E.
    exact E'.
Qed.

(** [Verify] panics on a peer's oplog whose creator signature has fewer
    than 64 bytes, once the public key and the digest are accepted. *)
Theorem verify_panics_on_short_sig o :
  ¬ ts_lt (o_UpdateTS o) (o_CreateTS o) → o_Hash o = SignsHash o →
  verifyDataCheckKey (o_Pubkey o) (o_CreatorID o) (o_KeyExtra o) = true →
  o_CreatorHash o = Keccak256 (o_Marshal (to_sign o) ++ o_Salt o) → length (o_Sig o) < 64 →
  Verify o = Panic.
Proof.
  intros Hts Hh Hk Hc Hs. unfold Verify.
  destruct (IsLess _ _) eqn:El; [by apply IsLess_spec in El|]. rewrite decide_False by tauto.
  unfold VerifyData. rewrite Hk. simpl. rewrite decide_False by (rewrite Hc; tauto).
  unfold slice. by rewrite decide_False by lia.
Qed.

(** Neither the digest nor the signatures cover the update time: any
    update time not before the creation time verifies as well. *)
Theorem verify_ignores_update_ts o ts :
  ¬ ts_lt (o_UpdateTS o) (o_CreateTS o) → ¬ ts_lt ts (o_CreateTS o) →
  Verify (set_ts_hash o ts (o_Hash o)) = Verify o.
Proof.
  intros H1' H2'. rewrite <- !IsLess_spec in *. apply not_true_is_false in H1', H2'.
  unfold Verify. autorewrite with oplog. cbn [o_UpdateTS o_CreateTS o_Hash set_ts_hash]. by rewrite H1', H2'.
Qed.

End SignProps.

(** Merging two single signatures by different signers loses the second
    and reports the result as complete on both sides, although neither list
    has the other's signer. *)
Theorem integrate_loses_signature s s2 :
  bytes_lt (si_ID s) (si_ID s2) →
  integrateSignInfos [s] [s2] = ([s], true, true) ∧
  integrateSignInfos [s2] [s] = ([s], true, true) ∧ (s2 ∉ [s]).
Proof.
  intros Hlt. assert (s2 ∉ [s]) as Hn.
  { rewrite list_elem_of_singleton. intros ->. by apply bytes_lt_irrefl in Hlt. }
  unfold integrateSignInfos. simpl. unfold bytes_lt in Hlt. rewrite Hlt.
  rewrite bytes_compare_antisym, Hlt. simpl. done.
Qed.

(** ** Key sets and concatenation *)

Lemma keymap_lookup (l : list bytes) k :
  default false ((foldl (λ m k, <[k := true]> m) ∅ l : gmap bytes bool) !! k) = bool_decide (k ∈ l).
Proof.
  assert (∀ (m : gmap bytes bool), default false (foldl (λ m k, <[k := true]> m) m l !! k) =
    bool_decide (k ∈ l) || default false (m !! k)) as Hg; [|by rewrite Hg, lookup_empty, orb_false_r].
  induction l as [|x l IH]; intros m; simpl.
  - done.
  - rewrite IH. destruct (decide (k = x)) as [->|Hne].
    + rewrite lookup_insert_eq. simpl. rewrite orb_true_r, bool_decide_eq_true_2 by (by left). done.
    + rewrite lookup_insert_ne by done. f_equal. apply bool_decide_ext. rewrite elem_of_cons. naive_solver.
Qed.

Lemma extra_loop (p : bytes → bool) (l acc : list bytes) :
  foldl (λ acc k, if p k then acc else acc ++ [k]) acc l = acc ++ filter (λ k, p k = false) l.
Proof.
  revert acc. induction l as [|k l IH]; intros acc; simpl; [by rewrite app_nil_r|].
  rewrite IH, filter_cons. destruct (p k); simpl; [done|]. by rewrite <- app_assoc.
Qed.

(** [DiffOplogKeys] returns the keys only I have and the keys only they
    have, in their order and with their repetitions, also for unordered lists. *)
Theorem diff_oplog_keys_spec myKeys theirKeys :
  DiffOplogKeys myKeys theirKeys = (filter (.∉ theirKeys) myKeys, filter (.∉ myKeys) theirKeys).
Proof.
  unfold DiffOplogKeys. rewrite !extra_loop. simpl.
  f_equal; apply filter_ext_elem; intros k _; rewrite keymap_lookup; apply bool_decide_eq_false.
Qed.

Lemma ConcatLog_loop {A} (slices : list (option (list A))) (pre rest : list A) :
  foldl (λ n s, match s with None => n | Some l => n + length l end) 0 slices ≤ length rest →
  (foldl (λ '(tmp, i) s,
     match s with
     | None => (tmp, i)
     | Some l => (take i tmp ++ go_copy (drop i tmp) l, i + go_copy_n (drop i tmp) l)
     end) (pre ++ rest, length pre) slices).1 =
  pre ++ concat (default [] <$> slices) ++ drop (length (concat (default [] <$> slices))) rest.
Proof.
  assert (∀ (slices : list (option (list A))) n,
    foldl (λ n s, match s with None => n | Some l => n + length l end) n slices =
    n + length (concat (default [] <$> slices))) as Hlen.
  { clear. induction slices as [|[l|] slices IH]; intros n; csimpl; [lia| |]; rewrite IH, ?length_app; lia. }
  rewrite Hlen. revert pre rest. induction slices as [|[l|] slices IH]; intros pre rest Hle; csimpl; [done| |by apply IH].
  csimpl in Hle. rewrite length_app in Hle.
  rewrite take_app_length, drop_app_length.
  assert (go_copy rest l = l ++ drop (length l) rest) as ->.
  { unfold go_copy. by rewrite take_ge by lia. }
  assert (go_copy_n rest l = length l) as -> by (unfold go_copy_n; lia).
  rewrite app_assoc, <- length_app. rewrite IH by (rewrite length_drop; lia).
  rewrite <- !app_assoc, drop_drop, length_app. done.
Qed.

(** [ConcatLog] is the concatenation of the slices. *)
Theorem concat_log_spec {A} (dflt : A) slices : ConcatLog dflt slices = concat (default [] <$> slices).
Proof.
  unfold ConcatLog. set (n := foldl _ 0 slices).
  pose proof (ConcatLog_loop slices [] (replicate n dflt)) as Hl. simpl in Hl. rewrite Hl by (by rewrite length_replicate).
  rewrite drop_ge, app_nil_r; [done|]. rewrite length_replicate. subst n. clear.
  enough (∀ k, foldl (λ n s, match s with None => n | Some l => n + length l end) k slices =
    k + length (concat (default [] <$> slices))) as Hn by (rewrite Hn; lia).
  induction slices as [|[l|] slices IH]; intros k; csimpl; [lia| |]; rewrite IH, ?length_app; lia.
Qed.

(** ** Witnesses *)

#[global] Instance KeyBIP32_countable : Countable KeyBIP32 :=
  inj_countable' (λ k, (kb_Parent k, kb_Salt k, kb_Child k)) (λ '(a, b, c), MkBIP32 a b c)
    (λ k, match k with MkBIP32 _ _ _ => eq_refl end).
#[global] Instance KeyExtraInfo_countable : Countable KeyExtraInfo :=
  inj_countable' (λ k, (ke_KeyType k, ke_Data k)) (λ '(a, b), MkExtra a b)
    (λ k, match k with MkExtra _ _ => eq_refl end).
#[global] Instance SignInfo_countable : Countable SignInfo :=
  inj_countable' (λ s, (si_ID s, si_CreateTS s, si_Hash s, si_Salt s, si_Sig s, si_Pubkey s, si_Extra s))
    (λ '(a, b, c, d, e, f, g), MkSign a b c d e f g) (λ s, match s with MkSign _ _ _ _ _ _ _ => eq_refl end).
#[global] Instance BaseOplog_countable : Countable BaseOplog :=
  inj_countable'
    (λ o, ((o_V o, o_ID o, o_CreatorID o, o_CreateTS o, o_ObjID o, o_Op o, o_PreLogID o, o_Data o),
           (o_CreatorHash o, o_Salt o, o_Sig o, o_Pubkey o, o_KeyExtra o, o_UpdateTS o, o_Hash o),
           (o_MasterLogID o, o_MasterSigns o, o_InternalSigns o, o_IsSync o, o_IsNewer o, o_Extra o)))
    (λ '((a, b, c, d, e, f, g, h), (i, j, k, l, m, n, o), (p, q, r, s, t, u)),
       MkOplog a b c d e f g h i j k l m n o p q r s t u)
    (λ o, match o with MkOplog _ _ _ _ _ _ _ _ _ _ _ _ _ _ _ _ _ _ _ _ _ => eq_refl end).

#[global] Instance codec_oplog_json : OplogJson :=
  {| o_Marshal := codec_enc; o_Unmarshal := codec_dec; o_roundtrip := codec_dec_enc |}.

(** A signature scheme where the digest is its own signature. *)
Lemma toy_sig_ok (h k : bytes) : bool_decide (take 64 (toy_hash 65 h) = take 64 (toy_hash 65 h)) = true.
Proof. by apply bool_decide_eq_true. Qed.

#[global] Instance toy_signing : Signing := {|
  PrivKey := bytes; PubBytes k := k; KeyPub k := k; UnmarshalPubkey b := Some b;
  EcSign h _ := toy_hash 65 h;
  VerifySignature _ h sig := bool_decide (sig = take 64 (toy_hash 65 h));
  bip32_child _ _ _ := None;
  UnmarshalPubkey_PubBytes _ := eq_refl;
  EcSign_length h _ := toy_hash_length 65 h;
  VerifySignature_EcSign h k := toy_sig_ok h k |}.

Definition w_key : KeyInfo := MkKeyInfo _ _ [x07] [x07] None 0.
Definition w_signer : PttID := toy_hash AddressLength [x07] ++ replicate SizePostfix x00.
Definition w_salt : bytes := replicate SizeSalt x05.
Definition w_oplog : BaseOplog :=
  MkOplog 2 (replicate SizePttID x01) w_signer (MkTs 100 0) None 3 None [] [] ZeroSalt [] [] None
    ZeroTimestamp [] None [] [] true false [].
Definition w_signed : BaseOplog := (Sign w_oplog w_key (Ok w_salt)).1.1.
Definition w_master : BaseOplog := (MasterSign w_signed w_signer w_key (Ok (MkTs 101 0)) (Ok w_salt)).1.1.

Lemma w_key_ok : key_ok w_key w_signer.
Proof. split; [done|]. vm_compute. reflexivity. Qed.

Lemma w_signed_signed : signed w_signed.
Proof. by apply (signed_create w_oplog w_key (Sign w_oplog w_key (Ok w_salt)).1.2 w_salt); [apply w_key_ok|..]. Qed.

Lemma w_master_signed : signed w_master.
Proof.
  apply (signed_master w_signed w_signer w_key (MasterSign w_signed w_signer w_key (Ok (MkTs 101 0)) (Ok w_salt)).1.2
    (MkTs 101 0) w_salt); [apply w_signed_signed|done|apply w_key_ok|done|left; left; simpl; lia|done].
Qed.

Lemma oplog_signs_ordered_witness :
  IDInOplogSigns [x02] [MkSign [x01] ZeroTimestamp [] [] [] [] None; MkSign [x02] ZeroTimestamp [] [] [] [] None] = true.
Proof.
  apply (oplog_signs_ordered
    [MkSign [x01] ZeroTimestamp [] [] [] [] None; MkSign [x02] ZeroTimestamp [] [] [] [] None]
    (MkSign [x01] ZeroTimestamp [] [] [] [] None) [x02]).
  - repeat constructor. discriminate.
  - right; left.
Defined.

Lemma signed_oplog_verifies_witness : Verify (SetMasterLogID w_master (Some w_signer)) = Ok tt.
Proof. apply (signed_oplog_verifies (SetMasterLogID w_master (Some w_signer))), signed_log, w_master_signed. Defined.

Lemma internal_sign_after_master_witness :
  let '(o', _, r) := InternalSign w_master w_signer w_key (Ok (MkTs 102 0)) (Ok w_salt) in r = Ok tt.
Proof.
  pose proof (internal_sign_after_master w_master w_signer w_key (MkTs 102 0) w_salt
    (new_sign w_signer (MkTs 101 0) (Keccak256 (o_Marshal (to_cosign w_signed) ++ w_salt))
      (EcSign (Keccak256 (o_Marshal (to_cosign w_signed) ++ w_salt)) [x07]) [x07] w_salt None) []) as H.
  destruct (InternalSign w_master w_signer w_key (Ok (MkTs 102 0)) (Ok w_salt)) as [[o' k'] r]. apply H.
  - vm_compute. reflexivity.
  - reflexivity.
  - reflexivity.
  - reflexivity.
  - reflexivity.
  - left. left. reflexivity.
Defined.

Definition w_short_sig : BaseOplog :=
  let o := set_creator_sig w_oplog (Keccak256 (o_Marshal (to_sign w_oplog) ++ w_salt)) w_salt [x01] [x07] None in
  set_ts_hash o (MkTs 100 0) (SignsHash o).

Lemma verify_panics_on_short_sig_witness : Verify w_short_sig = Panic.
Proof.
  apply (verify_panics_on_short_sig w_short_sig).
  - apply ts_lt_irrefl.
  - reflexivity.
  - reflexivity.
  - reflexivity.
  - simpl. lia.
Defined.

Lemma verify_ignores_update_ts_witness :
  Verify (set_ts_hash w_signed (MkTs 999 0) (o_Hash w_signed)) = Verify w_signed.
Proof.
  apply (verify_ignores_update_ts w_signed (MkTs 999 0)).
  - apply ts_lt_irrefl.
  - rewrite <- IsLess_spec. discriminate.
Defined.

Lemma integrate_loses_signature_witness :
  integrateSignInfos [MkSign [x01] ZeroTimestamp [] [] [] [] None] [MkSign [x02] ZeroTimestamp [] [] [] [] None] =
    ([MkSign [x01] ZeroTimestamp [] [] [] [] None], true, true).
Proof.
  apply (integrate_loses_signature (MkSign [x01] ZeroTimestamp [] [] [] [] None)
    (MkSign [x02] ZeroTimestamp [] [] [] [] None)).
  reflexivity.
Defined.
