(* ===== verification/Oplog.v ===== *)
(** * Storing oplogs: [service/oplog.go], [service/oplog_utils.go]

    An oplog is stored under a key that orders it by time, with an index entry
    under its identifier and, once valid, a leaf of the merkle tree.  The
    operations run under the key lock of the oplog and on the batch of the
    database layer, which the merkle tree shares. *)

From S2P Require Import Prelude GoTime CommonTypes Locks LevelDB PttDB MerkleNode Merkle OplogSign.

Set Default Goal Selector "!".

(** ** Keys *)

Definition SizeOpType : nat := 4.

(** [dbPrefixToDBPrefixInternal], [dbPrefixToDBPrefixMaster]: the last byte of
    the five becomes ['i'] or ['m']. *)
Definition set_prefix_byte (prefix : bytes) (c : byte) : outcome bytes :=
  let p := CloneBytes prefix in
  if decide (SizeDBKeyPrefix - 1 < length p) then Ok (<[SizeDBKeyPrefix - 1 := c]> p) else Panic.
Definition dbPrefixToDBPrefixInternal (prefix : bytes) : outcome bytes := set_prefix_byte prefix x69.
Definition dbPrefixToDBPrefixMaster (prefix : bytes) : outcome bytes := set_prefix_byte prefix x6d.

Definition bytesToStatus (theBytes : bytes) : outcome Status :=
  c ← or_panic (theBytes !! (SizeDBKeyPrefix - 1));
  if decide (c = x69) then Ok StatusInternalPending
  else if decide (c = x6d) then Ok StatusPending else Ok StatusAlive.

(** The database configuration of an oplog; the merkle prefix may be [nil]. *)
Record OplogDB := MkODB {
  dbPrefixID : PttID; dbPrefix : bytes; dbIdxPrefix : bytes; dbMerklePrefix : option bytes;
  dbPrefixInternal : bytes; dbPrefixMaster : bytes }.

Definition SetDB (id : PttID) (prefix idxPrefix : bytes) (merklePrefix : option bytes) : outcome OplogDB :=
  internal ← dbPrefixToDBPrefixInternal prefix;
  master ← dbPrefixToDBPrefixMaster prefix;
  Ok (MkODB id prefix idxPrefix merklePrefix internal master).

Definition MarshalOp (op : Z) : bytes := be_enc SizeOpType op.

Definition IdxKey (c : OplogDB) (id : PttID) : bytes :=
  Concat [Some (dbIdxPrefix c); Some (dbPrefixID c); Some id].
Definition oplog_MarshalKey (c : OplogDB) (o : BaseOplog) (prefix : bytes) : bytes :=
  Concat [Some prefix; Some (dbPrefixID c); Some (ts_marshal (o_UpdateTS o)); Some (o_ID o); Some (MarshalOp (o_Op o))].
Definition MarshalMerkleKey (c : OplogDB) (o : BaseOplog) : bytes :=
  Concat [dbMerklePrefix c; Some (dbPrefixID c); Some [byte_of_Z MerkleTreeLevelNow];
          Some (ts_marshal (o_UpdateTS o)); Some (o_ID o); Some (MarshalOp (o_Op o))].

Definition keyToUpdateTS (theBytes : option bytes) : outcome Timestamp :=
  let offsetTS := SizeDBKeyPrefix + SizePttID in
  let endOffsetTS := offsetTS + SizeTimestamp in
  b ← slice offsetTS endOffsetTS (default [] theBytes);
  UnmarshalTimestamp b.

Definition OplogKeyToIDBytes (key : bytes) : outcome bytes :=
  let offset := SizeDBKeyPrefix + SizePttID + SizeTimestamp in
  let next := offset + SizePttID in
  if decide (length key < next) then Err SvcErrInvalidKey else slice offset next key.

Definition OplogKeyToIdxKey (key dbIdxPrefix : bytes) : outcome bytes :=
  let offset := SizeDBKeyPrefix in
  let nextOffset := offset + SizePttID in
  p ← slice offset nextOffset key;
  let prefixID := go_copy EmptyID p in
  let offset := nextOffset + SizeTimestamp in
  let nextOffset := offset + SizePttID in
  i ← slice offset nextOffset key;
  let theID := go_copy EmptyID i in
  Ok (Concat [Some dbIdxPrefix; Some prefixID; Some theID]).

Section Oplog.
Context {S : Type} `{LevelDB S, Json, Crypto, !Signing, OplogJson}.

(** ** State: the receiver, the batch, the merkle tree that shares its
    database, and the key locks of the oplogs *)

Record St := MkSt {
  st_b : LDBBatch (S := S); st_m : option (Merkle (S := S)); st_lock : locktab; st_o : BaseOplog }.

Definition set_b (b : LDBBatch) (s : St) : St := MkSt b (st_m s) (st_lock s) (st_o s).
Definition set_lock (l : locktab) (s : St) : St := MkSt (st_b s) (st_m s) l (st_o s).
Definition set_o (f : BaseOplog → BaseOplog) (s : St) : St := MkSt (st_b s) (st_m s) (st_lock s) (f (st_o s)).

Abbreviation M := (stm St).

(** A call on the batch. *)
Definition on_batch {A} (f : LDBBatch → LDBBatch * outcome A) : M A := λ s,
  let '(b, r) := f (st_b s) in (set_b b s, r).

(** A call on the merkle tree, on the shared database; [nil] was excluded. *)
Definition on_merkle (f : Merkle → Merkle) : M unit := λ s,
  match st_m s with
  | None => (s, Panic)
  | Some m =>
    let m := f (set_m_db m (bdb (st_b s))) in
    (MkSt (MkBatch (m_db m) (bops (st_b s)) (bsize (st_b s))) (Some m) (st_lock s) (st_o s), Ok tt)
  end.

(** A call that returns a value and an error. *)
Definition ret_err {A} (r : outcome (option A * option GoErr)) : outcome (option A) :=
  match r with
  | Ok (a, None) => Ok a
  | Ok (_, Some e) => Err e
  | Err e => Err e
  | Panic => Panic
  end.

Variable c : OplogDB.

(** [env] is what other goroutines do to the locks between two attempts. *)
Variable env : nat → locktab → locktab.

(** [if !isLocked { Lock(ID); defer Unlock(ID) }] *)
Definition with_oplog_lock {A} (isLocked : bool) (id : PttID) (body : M A) : M A := λ s,
  if isLocked then body s else
  let '(l, e) := Lock env (st_lock s) (Some id) in
  match e with
  | Some e => (set_lock l s, Err e)
  | None =>
    st_defer (λ s, match Unlock (st_lock s) (Some id) with Ok l => set_lock l s | _ => s end) body (set_lock l s)
  end.
Definition with_oplog_rlock {A} (isLocked : bool) (id : PttID) (body : M A) : M A := λ s,
  if isLocked then body s else
  let '(l, e) := RLock env (st_lock s) (Some id) in
  match e with
  | Some e => (set_lock l s, Err e)
  | None =>
    st_defer (λ s, match RUnlock (st_lock s) (Some id) with Ok l => set_lock l s | _ => s end) body (set_lock l s)
  end.

Definition set_IsNewer (b : bool) (o : BaseOplog) : BaseOplog := set_flags o (o_IsSync o) b (o_Extra o).
Definition set_IsSync (b : bool) (o : BaseOplog) : BaseOplog := set_flags o b (o_IsNewer o) (o_Extra o).
Definition set_Extra (e : bytes) (o : BaseOplog) : BaseOplog := set_flags o (o_IsSync o) (o_IsNewer o) e.

(** ** Saving *)

(** [GetKeyByIdxKey(idxKey, 0)]; not found is [None], other errors end the
    caller. *)
Definition orig_key (idxKey : bytes) : M (option bytes) :=
  r ← st_try (on_batch (λ b, GetKeyByIdxKey b idxKey 0));
  match r with
  | inl k => mret (Some k)
  | inr LDBErrNotFound => mret None
  | inr e => st_lift (Err e)
  end.

(** [o.db.DeleteAll(idxKey)], the error ignored. *)
Definition delete_all (idxKey : bytes) : M unit :=
  _ ← on_batch (λ b, DeleteAll b idxKey); mret tt.

Definition SaveCorePending : M (bytes * Index * list KeyVal) :=
  s ← st_get;
  let o := st_o s in
  let idxKey := IdxKey c (o_ID o) in
  origKey ← orig_key idxKey;
  let currentStatus := ToStatus o in
  _ ← match origKey with
      | None => mret tt
      | Some origKey =>
        origStatus ← st_lift (bytesToStatus origKey);
        if (Status_num currentStatus <? Status_num origStatus)%Z then st_lift (Err SvcErrInvalidOplog)
        else if (Status_num origStatus <? Status_num currentStatus)%Z then delete_all idxKey
        else mret tt
      end;
  let key := match currentStatus with
             | StatusInternalPending => Some (oplog_MarshalKey c o (dbPrefixInternal c))
             | StatusPending => Some (oplog_MarshalKey c o (dbPrefixMaster c))
             | _ => None
             end in
  let marshaled := o_Marshal o in
  let idx := MkIndex (Some [key]) (o_UpdateTS o) in
  mret (idxKey, idx, [MkKV key marshaled]).

Definition SaveCore : M (bytes * Index * list KeyVal) :=
  _ ← st_mod (set_o (set_IsNewer false));
  s ← st_get;
  let o := st_o s in
  match o_MasterLogID o with
  | None => SaveCorePending
  | Some _ =>
    let key := oplog_MarshalKey c o (dbPrefix c) in
    let marshaled := o_Marshal o in
    let idxKey := IdxKey c (o_ID o) in
    let keys := [Some key] in
    let kvs := [MkKV (Some key) marshaled] in
    '(keys, kvs) ←
      (if o_IsSync o && bool_decide (is_Some (dbMerklePrefix c)) then
         addr ← st_lift (HashToAddr (o_Hash o));
         let merkleNode := MkNode MerkleTreeLevelNow addr (o_UpdateTS o) 0 key in
         let marshaledNode := node_Marshal merkleNode in
         let marshaledMerkleKey := MarshalMerkleKey c o in
         mret (keys ++ [Some marshaledMerkleKey], kvs ++ [MkKV (Some marshaledMerkleKey) marshaledNode])
       else mret (keys, kvs));
    let idx := MkIndex (Some keys) (o_UpdateTS o) in
    origKey ← orig_key idxKey;
    _ ← match origKey with
        | None => mret tt
        | Some origKey =>
          origStatus ← st_lift (bytesToStatus origKey);
          if decide (origStatus ≠ StatusAlive) then delete_all idxKey else mret tt
        end;
    mret (idxKey, idx, kvs)
  end.

Definition setMerkleUpdateTS (origKeys : option (list (option bytes))) : M unit :=
  s ← st_get;
  let o := st_o s in
  if decide (o_MasterLogID o = None) then mret tt else
  if negb (o_IsSync o) then mret tt else
  match st_m s with
  | None => mret tt
  | Some _ =>
    match origKeys with
    | None => on_merkle (λ m, SetUpdateTS m (o_UpdateTS o))
    | Some ks =>
      k ← st_lift (or_panic (ks !! 0));
      origUpdateTS ← st_lift (keyToUpdateTS k);
      on_merkle (λ m, SetUpdateTS2 m (o_UpdateTS o) origUpdateTS)
    end
  end.

Definition Save (isLocked : bool) : M unit :=
  s ← st_get;
  with_oplog_lock isLocked (o_ID (st_o s)) (
    '(idxKey, idx, kvs) ← SaveCore;
    origKeys ← on_batch (λ b, let '(b, r) := ForcePutAll b idxKey idx kvs in (b, ret_err r));
    setMerkleUpdateTS origKeys).

Definition ForceSave := Save.

(** ** Reading and deleting *)

(** [Load] into a new oplog. *)
Definition Load (key : bytes) : M BaseOplog :=
  s ← st_get;
  marshaled ← st_lift (of_sum (Get (bdb (st_b s)) key));
  match o_Unmarshal marshaled with None => st_lift (Err ErrDecode) | Some o => mret o end.

Definition oplog_GetKey (id : PttID) (isLocked : bool) : M bytes :=
  with_oplog_rlock isLocked id (on_batch (λ b, GetKeyByIdxKey b (IdxKey c id) 0)).

Definition oplog_Get (id : PttID) (isLocked : bool) : M BaseOplog :=
  with_oplog_rlock isLocked id (key ← oplog_GetKey id true; Load key).

Definition oplog_Delete (isLocked : bool) : M (option GoErr) :=
  s ← st_get;
  with_oplog_lock isLocked (o_ID (st_o s)) (on_batch (λ b, DeleteAll b (IdxKey c (o_ID (st_o s))))).

Definition CheckAlreadyExists : M unit :=
  s ← st_get;
  match Get (bdb (st_b s)) (IdxKey c (o_ID (st_o s))) with
  | inr LDBErrNotFound => mret tt
  | inr e => st_lift (Err e)
  | inl val =>
    match Index_Unmarshal val with
    | None => st_lift (Err ErrDecode)
    | Some idx =>
      if IsLessEqual (o_UpdateTS (st_o s)) (UpdateTS idx) then st_lift (Err SvcErrOplogAlreadyExists) else mret tt
    end
  end.

(** [getOplogsFromKeys]: oplogs that cannot be loaded are skipped. *)
Fixpoint getOplogsFromKeys (keys : list bytes) : M (list BaseOplog) :=
  match keys with
  | [] => mret []
  | key :: keys =>
    r ← st_try (Load key);
    rest ← getOplogsFromKeys keys;
    mret (match r with inl o => o :: rest | inr _ => rest end)
  end.

(** ** Meeting an oplog that is already stored *)

(** Taking over time, hash and signatures of the stored oplog. *)
Definition adopt (orig o : BaseOplog) : BaseOplog :=
  set_signs (set_ts_hash o (o_UpdateTS orig) (o_Hash orig)) (o_MasterLogID orig) (o_MasterSigns orig) (o_InternalSigns orig).

Definition status_le (a b : Status) : bool := (Status_num a <=? Status_num b)%Z.

(** [SelectExisting] returns the stored IsSync and whether to broadcast. *)
Definition SelectExisting (isLocked : bool) : M (bool * bool) :=
  s0 ← st_get;
  with_oplog_lock isLocked (o_ID (st_o s0)) (
    st_defer (set_o (set_IsNewer (o_IsNewer (st_o s0)))) (
      _ ← st_mod (set_o (set_IsNewer false));
      r ← st_try (oplog_Get (o_ID (st_o s0)) true);
      match r with
      | inr LDBErrNotFound => mret (false, true)
      | inr e => st_lift (Err e)
      | inl orig =>
        s ← st_get;
        _ ← (if status_le (ToStatus (st_o s)) (ToStatus orig) && o_IsSync orig
             then st_mod (set_o (set_IsSync (o_IsSync orig))) else mret tt);
        _ ← st_mod (set_o (set_Extra (o_Extra orig)));
        s ← st_get;
        st_defer (set_o (set_IsSync (o_IsSync (st_o s)))) (
          _ ← (if o_IsSync orig then st_mod (set_o (set_IsSync (o_IsSync orig))) else mret tt);
          s ← st_get;
          let o := st_o s in
          let cmp := bytes_compare (o_Hash o) (o_Hash orig) in
          if decide (cmp = Eq) then mret (o_IsSync orig, false) else
          if decide (o_MasterLogID o = None) then st_lift (Err SvcErrInvalidOplog) else
          if decide (o_MasterLogID orig = None) then
            _ ← st_try (ForceSave true); mret (o_IsSync orig, true)
          else
            if IsLess (o_UpdateTS o) (o_UpdateTS orig) then _ ← ForceSave true; mret (o_IsSync orig, true)
            else if IsLess (o_UpdateTS orig) (o_UpdateTS o) then
              _ ← st_mod (set_o (adopt orig)); mret (o_IsSync orig, false)
            else if decide (cmp = Lt) then _ ← ForceSave true; mret (o_IsSync orig, true)
            else _ ← st_mod (set_o (adopt orig)); mret (o_IsSync orig, false))
      end)).

(** [IntegrateExisting] returns the stored IsSync and whether to sign again;
    [ts] is what the clock returns. *)
Definition IntegrateExisting (isLocked : bool) (ts : outcome Timestamp) : M (bool * bool) :=
  s0 ← st_get;
  with_oplog_lock isLocked (o_ID (st_o s0)) (
    st_defer (set_o (set_IsNewer (o_IsNewer (st_o s0)))) (
      _ ← st_mod (set_o (set_IsNewer false));
      r ← st_try (oplog_Get (o_ID (st_o s0)) true);
      match r with
      | inr LDBErrNotFound => mret (false, false)
      | inr e => st_lift (Err e)
      | inl orig =>
        s ← st_get;
        _ ← (if status_le (ToStatus (st_o s)) (ToStatus orig)
             then st_mod (set_o (set_IsSync (o_IsSync orig))) else mret tt);
        _ ← st_mod (set_o (set_Extra (o_Extra orig)));
        s ← st_get;
        let o := st_o s in
        if decide (o_Hash o = o_Hash orig) then mret (o_IsSync orig, false) else
        if decide (o_MasterLogID o ≠ None) then _ ← SelectExisting true; mret (o_IsSync orig, false) else
        if decide (o_MasterLogID orig ≠ None) then _ ← st_mod (set_o (adopt orig)); mret (o_IsSync orig, false) else
        let '(newMasterSigns, isAllMasters, isAllOrigMasters) := integrateSignInfos (o_MasterSigns o) (o_MasterSigns orig) in
        let '(newInternalSigns, isAllInternals, isAllOrigInternals) :=
          integrateSignInfos (o_InternalSigns o) (o_InternalSigns orig) in
        _ ← st_mod (set_o (λ o, set_signs o (o_MasterLogID o) newMasterSigns newInternalSigns));
        if isAllOrigMasters && isAllOrigInternals then
          _ ← st_mod (set_o (λ o, set_ts_hash o (o_UpdateTS orig) (o_Hash orig))); mret (o_IsSync orig, false)
        else if isAllMasters && isAllInternals then
          _ ← ForceSave true; mret (o_IsSync orig, false)
        else
          _ ← st_mod (set_o (λ o, set_ts_hash o (o_UpdateTS o) (SignsHash o)));
          ts ← st_lift ts;
          _ ← st_mod (set_o (λ o, set_ts_hash o ts (o_Hash o)));
          mret (o_IsSync orig, true)
      end)).

(** ** Reading: lemmas *)

Implicit Types (s : St) (o : BaseOplog) (b : LDBBatch (S := S)).

Definition sview s : gmap bytes bytes := bview (st_b s).

(** The store works and the index key of the oplog is not locked. *)
Definition ready s (id : PttID) : Prop := bhealthy (st_b s) ∧ blocks (st_b s) !! IdxKey c id = None.

(** What reading the first key of an index gives. *)
Definition first_key s (idxKey : bytes) : outcome bytes :=
  match stored (sview s) idxKey with
  | None => Err LDBErrNotFound
  | Some None => Err DBErrInvalidDBable
  | Some (Some i) => index_key i 0
  end.

Lemma GetKeyByIdxKey_eq b idxKey i :
  bhealthy b → blocks b !! idxKey = None →
  GetKeyByIdxKey b idxKey i =
    (b, match stored (bview b) idxKey with
        | None => Err LDBErrNotFound | Some None => Err DBErrInvalidDBable | Some (Some x) => index_key x i end).
Proof.
  intros Hh Hl. unfold GetKeyByIdxKey. rewrite with_rlock_ok by (unfold blocks in Hl; rewrite Hl; done).
  rewrite ldb_get_ok by done. unfold stored, bview. destruct b as [d bo bs]. simpl.
  destruct (ldb_view (db d) !! idxKey) as [v|]; simpl; [|done]. by destruct (Index_Unmarshal v).
Qed.

Lemma on_batch_same {A} (f : LDBBatch → LDBBatch * outcome A) s r :
  f (st_b s) = (st_b s, r) → on_batch f s = (s, r).
Proof. intros E. unfold on_batch. rewrite E. by destruct s. Qed.

Lemma oplog_GetKey_eq s id : ready s id → oplog_GetKey id true s = (s, first_key s (IdxKey c id)).
Proof. intros [Hh Hl]. unfold oplog_GetKey, with_oplog_rlock. by apply on_batch_same, GetKeyByIdxKey_eq. Qed.

Lemma index_key_err i j e : index_key i j = Err e → e = DBErrInvalidKeys.
Proof.
  unfold index_key. destruct (Keys i) as [ks|]; [|congruence].
  destruct (_ <=? _)%Z; [congruence|]. destruct (_ <? _)%Z; [congruence|].
  destruct (ks !! _) as [[k|]|]; congruence.
Qed.

Lemma orig_key_eq s id :
  ready s id →
  orig_key (IdxKey c id) s = (s, match first_key s (IdxKey c id) with
                                 | Ok k => Ok (Some k)
                                 | Err LDBErrNotFound => Ok None
                                 | Err e => Err e
                                 | Panic => Panic
                                 end).
Proof.
  intros [Hh Hl]. unfold orig_key.
  assert (on_batch (λ b, GetKeyByIdxKey b (IdxKey c id) 0) s = (s, first_key s (IdxKey c id))) as E
    by (by apply on_batch_same, GetKeyByIdxKey_eq).
  destruct (first_key s (IdxKey c id)) as [k|e|] eqn:Ef.
  - by rewrite (stm_bind_ok _ _ _ _ _ (st_try_ok _ _ _ _ E)).
  - rewrite (stm_bind_ok _ _ _ _ _ (st_try_err _ _ _ _ E)). by destruct e.
  - unfold mbind, stm_bind, st_try. by rewrite E.
Qed.

(** The stored oplog: through the index to the record. *)
Definition stored_oplog s (id : PttID) : outcome BaseOplog :=
  k ← first_key s (IdxKey c id);
  match sview s !! k with
  | None => Err LDBErrNotFound
  | Some v => match o_Unmarshal v with None => Err ErrDecode | Some o => Ok o end
  end.

Lemma oplog_Get_eq s id : ready s id → oplog_Get id true s = (s, stored_oplog s id).
Proof.
  intros Hr. unfold oplog_Get, with_oplog_rlock, stored_oplog. pose proof (oplog_GetKey_eq s id Hr) as E.
  destruct (first_key s (IdxKey c id)) as [k|e|]; cbn [mbind outcome_bind].
  - rewrite (stm_bind_ok _ _ _ _ _ E). unfold Load. autorewrite with stm.
    unfold Get. rewrite ldb_get_ok by apply Hr. unfold sview, bview.
    destruct (ldb_view (db (bdb (st_b s))) !! k) as [v|]; simpl.
    + unfold mbind, stm_bind, st_lift; simpl. by destruct (o_Unmarshal v).
    + done.
  - by rewrite (stm_bind_err _ _ _ _ _ E).
  - unfold mbind, stm_bind. by rewrite E.
Qed.

(** ** Saving a valid oplog *)

(** The five-byte prefixes in use are different. *)
Definition config_ok : Prop :=
  length (dbPrefix c) = SizeDBKeyPrefix ∧ length (dbIdxPrefix c) = SizeDBKeyPrefix ∧
  length (dbPrefixID c) = SizePttID ∧ dbPrefix c ≠ dbIdxPrefix c ∧
  ∃ p, dbMerklePrefix c = Some p ∧ length p = SizeDBKeyPrefix ∧ p ≠ dbPrefix c ∧ p ≠ dbIdxPrefix c.

(** The tree marks its hours under a prefix of its own. *)
Definition merkle_apart (m : Merkle (S := S)) : Prop :=
  ∃ p r, dbMerkleToUpdatePrefixWithID m = p ++ r ∧ length p = SizeDBKeyPrefix ∧
    p ≠ dbPrefix c ∧ p ≠ dbIdxPrefix c ∧ dbMerklePrefix c ≠ Some p.

(** What is stored under the index key: nothing, or a record whose first key
    is the key of an oplog. *)
Definition prev_ok s (id : PttID) : Prop :=
  stored (sview s) (IdxKey c id) = None ∨
  ∃ i k t, stored (sview s) (IdxKey c id) = Some (Some i) ∧ index_key i 0 = Ok k ∧
           keyToUpdateTS (Some k) = Ok t ∧ ts_ok t.

Definition old_keys s (id : PttID) : list bytes :=
  match stored (sview s) (IdxKey c id) with Some (Some i) => idx_keys i | _ => [] end.

Lemma IdxKey_eq id : IdxKey c id = dbIdxPrefix c ++ dbPrefixID c ++ id.
Proof. unfold IdxKey. rewrite Concat_spec. unfold opt_concat. simpl. by rewrite app_nil_r. Qed.
Lemma oplog_MarshalKey_eq o p :
  oplog_MarshalKey c o p = p ++ dbPrefixID c ++ ts_marshal (o_UpdateTS o) ++ o_ID o ++ MarshalOp (o_Op o).
Proof. unfold oplog_MarshalKey. rewrite Concat_spec. unfold opt_concat. cbn [fmap list_fmap default concat]. by rewrite app_nil_r. Qed.
Lemma MarshalMerkleKey_eq o p :
  dbMerklePrefix c = Some p →
  MarshalMerkleKey c o = p ++ dbPrefixID c ++ [byte_of_Z MerkleTreeLevelNow] ++ ts_marshal (o_UpdateTS o) ++ o_ID o ++ MarshalOp (o_Op o).
Proof.
  intros E. unfold MarshalMerkleKey. rewrite Concat_spec, E. unfold opt_concat. cbn [fmap list_fmap default concat].
  by rewrite app_nil_r.
Qed.

(** Keys that start with different five-byte prefixes differ. *)
Lemma prefix_neq (p q a b : bytes) : length p = SizeDBKeyPrefix → length q = SizeDBKeyPrefix → p ≠ q → p ++ a ≠ q ++ b.
Proof. intros Hp Hq Hn E. apply app_inj_1 in E as [? _]; congruence. Qed.

(** The record [SaveCore] prepares for a valid, synchronised oplog. *)
Definition leaf_of o : MerkleNode :=
  MkNode MerkleTreeLevelNow (take AddressLength (drop OffsetHash (o_Hash o))) (o_UpdateTS o) 0
    (oplog_MarshalKey c o (dbPrefix c)).
Definition valid_idx o : Index :=
  MkIndex (Some [Some (oplog_MarshalKey c o (dbPrefix c)); Some (MarshalMerkleKey c o)]) (o_UpdateTS o).
Definition valid_kvs o : list KeyVal :=
  [MkKV (Some (oplog_MarshalKey c o (dbPrefix c))) (o_Marshal o); MkKV (Some (MarshalMerkleKey c o)) (node_Marshal (leaf_of o))].

(** A complete oplog that goes into the tree. *)
Definition oplog_valid o : Prop :=
  is_Some (o_MasterLogID o) ∧ o_IsSync o = true ∧ o_IsNewer o = false ∧ ts_ok (o_UpdateTS o) ∧
  length (o_Hash o) = 32.

Definition with_view s (b : LDBBatch) : St := set_b b s.

Lemma first_key_prev s id k :
  first_key s (IdxKey c id) = Ok k → prev_ok s id → ∃ t, keyToUpdateTS (Some k) = Ok t ∧ ts_ok t.
Proof.
  unfold first_key. intros E [Hn|(i & k' & t & Hs & Hk & Ht & Hok)].
  - by rewrite Hn in E.
  - rewrite Hs, Hk in E. injection E as <-. by exists t.
Qed.

Lemma keyToUpdateTS_status k t : keyToUpdateTS (Some k) = Ok t → ∃ st, bytesToStatus k = Ok st.
Proof.
  unfold keyToUpdateTS, bytesToStatus, slice. simpl. case_decide as Hd; [|done]. intros _.
  destruct (lookup_lt_is_Some_2 k 4 ltac:(lia)) as [x Hx]. rewrite Hx. simpl. repeat case_decide; by eexists.
Qed.

(** [DeleteAll] of the index, its error ignored. *)
Lemma delete_all_ok s id :
  ready s id → ∃ b', delete_all (IdxKey c id) s = (set_b b' s, Ok tt) ∧ bhealthy b' ∧ blocks b' = blocks (st_b s) ∧
    bview b' = (spec_DeleteAll (IdxKey c id) (sview s)).1.
Proof.
  intros [Hh Hl]. destruct (DeleteAll_refines (IdxKey c id) (st_b s) Hh Hl) as (E & Hv & Hh' & Hl').
  unfold delete_all, on_batch, mbind, stm_bind. destruct (DeleteAll (st_b s) (IdxKey c id)) as [b' r].
  simpl in *. subst r. exists b'. done.
Qed.

(** After [SaveCore] of a valid oplog: the previous record is untouched, or
    deleted when it was pending. *)
Lemma SaveCore_valid s :
  ready s (o_ID (st_o s)) → prev_ok s (o_ID (st_o s)) → config_ok → oplog_valid (st_o s) →
  ∃ b', SaveCore s = (set_b b' s, Ok (IdxKey c (o_ID (st_o s)), valid_idx (st_o s), valid_kvs (st_o s))) ∧
    bhealthy b' ∧ blocks b' = blocks (st_b s) ∧
    (bview b' = sview s ∨
     bview b' = (spec_DeleteAll (IdxKey c (o_ID (st_o s))) (sview s)).1).
Proof.
  intros Hr Hprev Hcfg ((mid & Hm) & Hsync & Hnew & Hts & Hhash).
  destruct Hcfg as (_ & _ & _ & _ & p & Hp & _).
  unfold SaveCore. rewrite st_mod_bind.
  assert (set_o (set_IsNewer false) s = s) as ->.
  { destruct s as [b m l o]. unfold set_o, set_IsNewer, set_flags; simpl in *. f_equal. destruct o; simpl in *. by subst. }
  rewrite st_get_bind. cbv zeta. rewrite Hm, Hsync. rewrite bool_decide_eq_true_2 by (rewrite Hp; by eexists). simpl andb.
  assert (HashToAddr (o_Hash (st_o s)) = Ok (take AddressLength (drop OffsetHash (o_Hash (st_o s))))) as Ha.
  { unfold HashToAddr, slice. rewrite decide_True by (rewrite Hhash; unfold OffsetHash, AddressLength; lia). done. }
  rewrite Ha. cbv iota.
  match goal with |- context [((st_lift (Ok ?a) ≫= ?k) ≫= ?k2) s] =>
    assert (((st_lift (Ok a) ≫= k) ≫= k2) s = k2 ([Some (oplog_MarshalKey c (st_o s) (dbPrefix c)); Some (MarshalMerkleKey c (st_o s))],
      valid_kvs (st_o s)) s) as -> by done end.
  cbv iota beta.
  pose proof (orig_key_eq s (o_ID (st_o s)) Hr) as Ho.
  destruct (first_key s (IdxKey c (o_ID (st_o s)))) as [k|e|] eqn:Ef.
  - rewrite (stm_bind_ok _ _ _ _ _ Ho). destruct (first_key_prev s _ k Ef Hprev) as (t & Ht & _).
    destruct (keyToUpdateTS_status k t Ht) as [st Hst]. rewrite Hst.
    destruct (delete_all_ok s (o_ID (st_o s)) Hr) as (b' & Hd & Hh' & Hl' & Hv').
    destruct (decide (st ≠ StatusAlive)) as [Hne|Heq].
    + exists b'. split; [|auto]. unfold mbind, stm_bind, st_lift. rewrite decide_True by done. by rewrite Hd.
    + exists (st_b s). split; [|split; [apply Hr|auto]]. unfold mbind, stm_bind, st_lift. rewrite decide_False by done.
      by destruct s.
  - assert (e = LDBErrNotFound) as ->.
    { unfold first_key in Ef. destruct Hprev as [Hn|(i & k' & t & Hs & Hk & _)]; [rewrite Hn in Ef; by injection Ef|].
      rewrite Hs, Hk in Ef. done. }
    rewrite (stm_bind_ok _ _ _ _ _ Ho). exists (st_b s). split; [by destruct s|]. split; [apply Hr|]. auto.
  - exfalso. unfold first_key in Ef. destruct Hprev as [Hn|(i & k' & t & Hs & Hk & _)]; [by rewrite Hn in Ef|].
    rewrite Hs, Hk in Ef. done.
Qed.

(** The contents with the record in place of the previous one. *)
Definition saved_view s o : gmap bytes bytes :=
  put_record (IdxKey c (o_ID o)) (valid_idx o) (valid_kvs o) (del_keys (old_keys s (o_ID o)) (sview s)).

Lemma put_record_delete (idxKey : bytes) (idx : Index) (kvs : list KeyVal) (m : gmap bytes bytes) :
  put_record idxKey idx kvs (delete idxKey m) = put_record idxKey idx kvs m.
Proof. unfold put_record. by rewrite insert_delete_eq. Qed.

(** Whatever [SaveCore] did with the previous record, [ForcePutAll] leaves the
    same contents; the keys it returns are those of the previous record, if
    it is still there. *)
Lemma ForcePutAll_after b' s o :
  prev_ok s (o_ID o) → bhealthy b' → blocks b' !! IdxKey c (o_ID o) = None →
  bview b' = sview s ∨ bview b' = (spec_DeleteAll (IdxKey c (o_ID o)) (sview s)).1 →
  ∃ b2 ks, ForcePutAll b' (IdxKey c (o_ID o)) (valid_idx o) (valid_kvs o) = (b2, Ok (ks, None)) ∧
    bhealthy b2 ∧ blocks b2 = blocks b' ∧ bview b2 = saved_view s o ∧
    (ks = None ∨ ∃ k rest t, ks = Some (k :: rest) ∧ keyToUpdateTS k = Ok t ∧ ts_ok t).
Proof.
  intros Hprev Hh Hl Hv.
  destruct (ForcePutAll_refines (IdxKey c (o_ID o)) (valid_idx o) (valid_kvs o) b' Hh Hl) as (E & Hv2 & Hh2 & Hl2).
  destruct (ForcePutAll b' _ _ _) as [b2 r]. simpl in *. subst r.
  unfold saved_view, old_keys. unfold spec_ForcePutAll in *.
  assert (∀ m, stored (delete (IdxKey c (o_ID o)) m) (IdxKey c (o_ID o)) = None) as Hdel
    by (intros m; unfold stored; by rewrite lookup_delete_eq).
  destruct Hprev as [Hn|(i & k & t & Hs & Hk & Ht & Hok)].
  - assert (bview b' = sview s) as Hb by (destruct Hv as [->| ->]; [done|unfold spec_DeleteAll; by rewrite Hn]).
    rewrite Hb, Hn in *. exists b2, None. split_and!; auto.
  - rewrite Hs. unfold spec_DeleteAll in Hv. rewrite Hs in Hv. simpl in Hv. destruct Hv as [Hv|Hv]; rewrite Hv in *.
    + rewrite Hs in *. exists b2, (Keys i). split_and!; auto. right. unfold index_key in Hk.
      destruct (Keys i) as [ks|]; [|done]. destruct ks as [|[k'|] ks]; simpl in Hk; try done.
      exists (Some k'), ks, t. injection Hk as ->. done.
    + rewrite Hdel in *. exists b2, None. split_and!; auto. simpl in Hv2. by rewrite Hv2, put_record_delete.
Qed.

(** Marking hours of the tree changes the shared store only under the tree's
    own prefix. *)
Definition marked s s' (z : Z) : Prop :=
  bhealthy (st_b s') ∧ blocks (st_b s') = blocks (st_b s) ∧ st_lock s' = st_lock s ∧ st_o s' = st_o s ∧
  match st_m s, st_m s' with
  | None, None => sview s' = sview s
  | Some m, Some m' =>
    z ∈ toUpdateTS m' ∧ dbMerkleToUpdatePrefixWithID m' = dbMerkleToUpdatePrefixWithID m ∧
    ∀ k, ¬ dbMerkleToUpdatePrefixWithID m `prefix_of` k → sview s' !! k = sview s !! k
  | _, _ => False
  end.

Lemma put_true_frame (m : Merkle (S := S)) z :
  mhealthy m →
  let m' := put_true m (upd_key m z) in
  mhealthy m' ∧ lockMap (m_db m') = lockMap (m_db m) ∧
  dbMerkleToUpdatePrefixWithID m' = dbMerkleToUpdatePrefixWithID m ∧
  (∀ k, ¬ dbMerkleToUpdatePrefixWithID m `prefix_of` k → mview m' !! k = mview m !! k).
Proof.
  intros Hh m'. destruct (ldb_put_ok (db (m_db m)) (upd_key m z) ValueTrue Hh) as (P1 & P2 & P3).
  subst m'. unfold put_true, Put, mview, mhealthy. destruct (ldb_put _ _ _) as [x e]. simpl in *.
  split_and!; try done. intros k Hk. rewrite P3, lookup_insert_ne; [done|]. intros <-. apply Hk. by eexists.
Qed.

Lemma on_merkle_Some (f : Merkle → Merkle) s m :
  st_m s = Some m →
  on_merkle f s =
    (let m' := f (set_m_db m (bdb (st_b s))) in
     MkSt (MkBatch (m_db m') (bops (st_b s)) (bsize (st_b s))) (Some m') (st_lock s) (st_o s), Ok tt).
Proof. intros E. unfold on_merkle. by rewrite E. Qed.

Lemma mark_one s m t :
  bhealthy (st_b s) → st_m s = Some m → ts_ok t →
  ∃ s', on_merkle (λ m, SetUpdateTS m t) s = (s', Ok tt) ∧ marked s s' (Ts (ToHRTimestamp t).1).
Proof.
  intros Hh Hm Ht. rewrite (on_merkle_Some _ s m Hm). eexists. split; [done|].
  set (m0 := set_m_db m (bdb (st_b s))). assert (mhealthy m0) as Hh0 by exact Hh.
  destruct (put_true_frame m0 (Ts (ToHRTimestamp t).1) Hh0) as (F1 & F2 & F3 & F4).
  cbv zeta. unfold SetUpdateTS. rewrite (surjective_pairing (ToHRTimestamp t)), MarshalToUpdateTSKey_eq.
  unfold marked. rewrite Hm. simpl.
  split_and!; try done; first [exact F4|set_solver].
Qed.

Lemma mark_two s m t t2 :
  bhealthy (st_b s) → st_m s = Some m → ts_ok t → ts_ok t2 →
  ∃ s', on_merkle (λ m, SetUpdateTS2 m t t2) s = (s', Ok tt) ∧ marked s s' (Ts (ToHRTimestamp t).1).
Proof.
  intros Hh Hm Ht Ht2. rewrite (on_merkle_Some _ s m Hm). eexists. split; [done|].
  set (m0 := set_m_db m (bdb (st_b s))). assert (mhealthy m0) as Hh0 by exact Hh.
  destruct (put_true_frame m0 (Ts (ToHRTimestamp t).1) Hh0) as (F1 & F2 & F3 & F4).
  set (m1 := put_true m0 (upd_key m0 (Ts (ToHRTimestamp t).1))) in *.
  destruct (put_true_frame m1 (Ts (ToHRTimestamp t2).1) F1) as (G1 & G2 & G3 & G4).
  cbv zeta. unfold SetUpdateTS2. rewrite (surjective_pairing (ToHRTimestamp t)), (surjective_pairing (ToHRTimestamp t2)).
  rewrite !MarshalToUpdateTSKey_eq, !put_true_set. cbn [fst snd].
  set (u := ({[Ts (ToHRTimestamp t2).1]} ∪ _)).
  assert (Ts (ToHRTimestamp t).1 ∈ u) as Hin by (subst u; simpl; set_solver). clearbody u.
  change (upd_key (set_toUpdateTS (set_toUpdateTS m0 _) _) ?z) with (upd_key m0 z).
  fold m1. unfold marked. rewrite Hm.
  destruct (IsEqual _ _); simpl.
  - split_and!; done.
  - rewrite ?put_true_set. change (upd_key (set_toUpdateTS _ _) ?z) with (upd_key m1 z). simpl.
    split_and!; try done; [exact (eq_trans G2 F2)|]. intros k Hk. transitivity (mview m1 !! k); [|by apply F4].
    apply G4. by rewrite F3.
Qed.

(** [setMerkleUpdateTS] on a valid oplog. *)
Lemma setMerkleUpdateTS_ok s ks :
  bhealthy (st_b s) → oplog_valid (st_o s) →
  (ks = None ∨ ∃ k rest t, ks = Some (k :: rest) ∧ keyToUpdateTS k = Ok t ∧ ts_ok t) →
  ∃ s', setMerkleUpdateTS ks s = (s', Ok tt) ∧ marked s s' (Ts (ToHRTimestamp (o_UpdateTS (st_o s))).1).
Proof.
  intros Hh ((mid & Hm) & Hsync & _ & Hts & _) Hks. unfold setMerkleUpdateTS. rewrite st_get_bind. cbv zeta.
  rewrite Hm, Hsync. simpl.
  destruct (st_m s) as [m|] eqn:Em.
  - destruct Hks as [->|(k & rest & t & -> & Hk & Ht)]; [by apply (mark_one s m)|].
    simpl. autorewrite with stm. rewrite Hk. autorewrite with stm. by apply (mark_two s m).
  - exists s. split; [done|]. unfold marked. rewrite Em. done.
Qed.

Lemma saved_view_idx s o :
  config_ok → saved_view s o !! IdxKey c (o_ID o) = Some (Index_Marshal (valid_idx o)).
Proof.
  intros (H1' & H2' & H3' & H4' & p & Hp & H5' & H6' & H7'). apply put_record_idx. csimpl.
  rewrite !not_elem_of_cons, IdxKey_eq, oplog_MarshalKey_eq, (MarshalMerkleKey_eq _ p) by done.
  split_and!; [by apply prefix_neq|by apply prefix_neq|apply not_elem_of_nil].
Qed.

Lemma saved_view_kv s o i kv :
  config_ok → valid_kvs o !! i = Some kv → saved_view s o !! key_of (K kv) = Some (V kv).
Proof.
  intros (H1' & H2' & H3' & H4' & p & Hp & H5' & H6' & H7') Hi. eapply put_record_kv; [|exact Hi]. csimpl.
  rewrite oplog_MarshalKey_eq, (MarshalMerkleKey_eq _ p) by done.
  apply NoDup_cons. split; [|apply NoDup_singleton]. rewrite list_elem_of_singleton. by apply prefix_neq.
Qed.

Definition merkle_apart_opt s : Prop := match st_m s with Some m => merkle_apart m | None => True end.

(** Keys of the record are outside the tree's own prefix. *)
Lemma marked_lookup s s' z p k :
  merkle_apart_opt s → marked s s' z → length p = SizeDBKeyPrefix →
  (p = dbPrefix c ∨ p = dbIdxPrefix c ∨ dbMerklePrefix c = Some p) →
  sview s' !! (p ++ k) = sview s !! (p ++ k).
Proof.
  unfold merkle_apart_opt, marked. intros Ha (_ & _ & _ & _ & Hm) Hp Hor.
  destruct (st_m s) as [m|], (st_m s') as [m'|]; try done; [|by rewrite Hm].
  destruct Hm as (_ & _ & Hf). apply Hf. destruct Ha as (q & r & -> & Hq & N1 & N2 & N3). intros [x Hx].
  rewrite <- app_assoc in Hx. apply app_inj_1 in Hx as [-> _]; [|congruence]. naive_solver.
Qed.

(** A key that is neither of the record of the oplog at hand, the one before
    it included, nor of the tree's marks. *)
Definition foreign_key s (k : bytes) : Prop :=
  k ≠ IdxKey c (o_ID (st_o s)) ∧ (k ∉ (key_of ∘ K <$> valid_kvs (st_o s))) ∧ (k ∉ old_keys s (o_ID (st_o s))) ∧
  ∀ m, st_m s = Some m → ¬ dbMerkleToUpdatePrefixWithID m `prefix_of` k.

(** [Save] of a valid oplog whose key lock is held. *)
Lemma Save_valid s :
  ready s (o_ID (st_o s)) → prev_ok s (o_ID (st_o s)) → config_ok → merkle_apart_opt s → oplog_valid (st_o s) →
  ∃ s', Save true s = (s', Ok tt) ∧ st_o s' = st_o s ∧ ready s' (o_ID (st_o s)) ∧
    stored_oplog s' (o_ID (st_o s)) = Ok (st_o s) ∧
    sview s' !! MarshalMerkleKey c (st_o s) = Some (node_Marshal (leaf_of (st_o s))) ∧
    (∀ m, st_m s = Some m →
       ∃ m', st_m s' = Some m' ∧ Ts (ToHRTimestamp (o_UpdateTS (st_o s))).1 ∈ toUpdateTS m') ∧
    merkle_apart_opt s' ∧ st_lock s' = st_lock s ∧
    stored (sview s') (IdxKey c (o_ID (st_o s))) = Some (Some (valid_idx (st_o s))) ∧
    blocks (st_b s') = blocks (st_b s) ∧
    (∀ k, foreign_key s k → sview s' !! k = sview s !! k).
Proof.
  intros Hr Hprev Hcfg Ha Hval. set (o := st_o s).
  destruct (SaveCore_valid s Hr Hprev Hcfg Hval) as (b1 & E1 & Hh1 & Hl1 & Hv1).
  destruct (ForcePutAll_after b1 s o Hprev Hh1 ltac:(rewrite Hl1; apply Hr) Hv1) as (b2 & ks & E2 & Hh2 & Hl2 & Hv2 & Hks).
  destruct (setMerkleUpdateTS_ok (set_b b2 s) ks Hh2 Hval Hks) as (s' & E3 & Hmark).
  exists s'. assert (Save true s = (s', Ok tt)) as ->.
  { unfold Save. rewrite st_get_bind. unfold with_oplog_lock. rewrite (stm_bind_ok _ _ _ _ _ E1). cbv iota beta.
    rewrite (stm_bind_ok _ _ _ (set_b b2 s) ks); [exact E3|].
    unfold on_batch. simpl. fold o. by rewrite E2. }
  pose proof Hmark as (Hh' & Hl' & Hlk & Ho & Hm).
  destruct Hcfg as (C1 & C2 & C3 & C4 & p & Hp & C5 & C6 & C7).
  assert (config_ok) as Hcfg by (split_and!; eauto 10).
  assert (∀ q k, length q = SizeDBKeyPrefix → (q = dbPrefix c ∨ q = dbIdxPrefix c ∨ dbMerklePrefix c = Some q) →
    sview s' !! (q ++ k) = saved_view s o !! (q ++ k)) as Hlook.
  { intros q k Hq Hor. rewrite (marked_lookup (set_b b2 s) s' _ q k Ha Hmark Hq Hor). unfold sview. simpl. by rewrite Hv2. }
  assert (stored (sview s') (IdxKey c (o_ID o)) = Some (Some (valid_idx o))) as Hst.
  { unfold stored. rewrite IdxKey_eq, Hlook by auto. rewrite <- IdxKey_eq, saved_view_idx by done. simpl.
    by rewrite Index_roundtrip. }
  split; [done|]. split; [done|]. split.
  { split; [done|]. rewrite Hl'. simpl. rewrite Hl2, Hl1. apply Hr. }
  split; [|split; [|split; [|split; [|split; [exact Hlk|split; [done|split; [by rewrite Hl'; simpl; rewrite Hl2, Hl1|]]]]]]].
  - unfold stored_oplog, first_key. rewrite Hst. simpl.
    rewrite oplog_MarshalKey_eq, Hlook by auto. rewrite <- oplog_MarshalKey_eq.
    pose proof (saved_view_kv s o 0 (MkKV (Some (oplog_MarshalKey c o (dbPrefix c))) (o_Marshal o)) Hcfg eq_refl) as Hkv.
    simpl in Hkv. rewrite Hkv. by rewrite o_roundtrip.
  - fold o. rewrite (MarshalMerkleKey_eq o p), Hlook by auto. rewrite <- (MarshalMerkleKey_eq o p) by done.
    exact (saved_view_kv s o 1 (MkKV (Some (MarshalMerkleKey c o)) (node_Marshal (leaf_of o))) Hcfg eq_refl).
  - intros m Em. simpl in Hm. rewrite Em in Hm. destruct (st_m s') as [m'|]; [|done]. destruct Hm as [Hin _].
    by exists m'.
  - unfold merkle_apart_opt in *. simpl in Hm. destruct (st_m s) as [m|], (st_m s') as [m'|]; try done.
    destruct Hm as (_ & Hpre & _). unfold merkle_apart. by rewrite Hpre.
  - intros k (K1 & K2 & K3 & K4). transitivity (sview (set_b b2 s) !! k).
    + simpl in Hm. destruct (st_m s) as [m|], (st_m s') as [m'|]; try done; [|by rewrite Hm].
      destruct Hm as (_ & _ & Hf). by apply Hf, K4.
    + unfold sview at 1. simpl. rewrite Hv2. unfold saved_view. rewrite put_record_other by done.
      rewrite lookup_del_keys. by rewrite decide_False.
Qed.

(** ** The claims on saving *)

(** The lock, if [Save] has to take it, is free. *)
Definition lock_free (isLocked : bool) s (id : PttID) : Prop := isLocked = true ∨ st_lock s !! id = None.

Lemma with_lock_run {A} isLocked s (id : PttID) (body : M A) :
  lock_free isLocked s id →
  (∀ l, st_lock (body (set_lock l s)).1 = l) →
  ∃ l, (isLocked = true → l = st_lock s) ∧
    with_oplog_lock isLocked id body s = (set_lock (st_lock s) (body (set_lock l s)).1, (body (set_lock l s)).2).
Proof.
  intros Hf Hb. unfold with_oplog_lock. destruct isLocked.
  - exists (st_lock s). split; [done|]. assert (set_lock (st_lock s) s = s) as -> by (by destruct s).
    specialize (Hb (st_lock s)). assert (set_lock (st_lock s) s = s) as Hs by (by destruct s). rewrite Hs in Hb.
    destruct (body s) as [[b m l o] r]. simpl in *. by subst l.
  - destruct Hf as [|Hf]; [done|]. exists (<[id := (-1)%Z]> (st_lock s)). split; [done|].
    rewrite Lock_free by done.
    unfold st_defer. specialize (Hb (<[id := (-1)%Z]> (st_lock s))).
    destruct (body _) as [s1 r]. simpl in *. unfold Unlock. rewrite Hb, lookup_insert_eq. simpl.
    by rewrite delete_insert_id.
Qed.

(** Saving a complete oplog on a working store, whether the record before
    it was absent, pending or complete, succeeds; afterwards [Get] returns the
    oplog, its leaf is in the merkle tree, its hour is marked for update, and
    the locks are as before. *)
Theorem Save_stores_oplog isLocked s :
  let o := st_o s in
  lock_free isLocked s (o_ID o) →
  ready s (o_ID o) → prev_ok s (o_ID o) → config_ok → merkle_apart_opt s → oplog_valid o →
  let '(s', r) := Save isLocked s in
  r = Ok tt ∧ oplog_Get (o_ID o) true s' = (s', Ok o) ∧
  sview s' !! MarshalMerkleKey c o = Some (node_Marshal (leaf_of o)) ∧
  (∀ m, st_m s = Some m → ∃ m', st_m s' = Some m' ∧ Ts (ToHRTimestamp (o_UpdateTS o)).1 ∈ toUpdateTS m') ∧
  st_lock s' = st_lock s ∧ blocks (st_b s') !! IdxKey c (o_ID o) = None.
Proof.
  intros o Hf Hr Hprev Hcfg Ha Hval.
  pose (body := ('(idxKey, idx, kvs) ← SaveCore;
    origKeys ← on_batch (λ b, let '(b, r) := ForcePutAll b idxKey idx kvs in (b, ret_err r));
    setMerkleUpdateTS origKeys) : M unit).
  assert (∀ l, ∃ s', body (set_lock l s) = (s', Ok tt) ∧ st_o s' = o ∧ ready s' (o_ID o) ∧
    stored_oplog s' (o_ID o) = Ok o ∧ sview s' !! MarshalMerkleKey c o = Some (node_Marshal (leaf_of o)) ∧
    (∀ m, st_m s = Some m → ∃ m', st_m s' = Some m' ∧ Ts (ToHRTimestamp (o_UpdateTS o)).1 ∈ toUpdateTS m') ∧
    merkle_apart_opt s' ∧ st_lock s' = l ∧
    stored (sview s') (IdxKey c (o_ID o)) = Some (Some (valid_idx o))) as Hbody.
  { intros l. destruct (Save_valid (set_lock l s)) as (s' & B1 & B2 & B3 & B4 & B5 & B6 & B7 & B8 & B9 & _); [done..|].
    exists s'. exact (conj B1 (conj B2 (conj B3 (conj B4 (conj B5 (conj B6 (conj B7 (conj B8 B9)))))))). }
  change (Save isLocked s) with (with_oplog_lock isLocked (o_ID o) body s).
  destruct (with_lock_run isLocked s (o_ID o) body Hf) as (l & _ & ->).
  { intros l. destruct (Hbody l) as (s' & -> & _ & _ & _ & _ & _ & _ & Hl & _). done. }
  destruct (Hbody l) as (s' & -> & Ho & Hr' & Hg & Hleaf & Hmark & _ & Hl & _). cbn [fst snd].
  split; [done|]. split; [|split; [done|split; [done|split; [done|apply Hr']]]].
  rewrite (oplog_Get_eq (set_lock (st_lock s) s') (o_ID o) Hr'). f_equal. exact Hg.
Qed.

(** Which of two complete oplogs is kept: the earlier, then the smaller hash. *)
Definition win (x y : BaseOplog) : BaseOplog :=
  if IsLess (o_UpdateTS x) (o_UpdateTS y) then x
  else if IsLess (o_UpdateTS y) (o_UpdateTS x) then y
  else if decide (bytes_compare (o_Hash x) (o_Hash y) = Lt) then x else y.

(** What the peers have to agree on. *)
Definition core o : Timestamp * bytes * option PttID * list SignInfo * list SignInfo :=
  (o_UpdateTS o, o_Hash o, o_MasterLogID o, o_MasterSigns o, o_InternalSigns o).

Lemma win_comm x y : o_Hash x ≠ o_Hash y → win x y = win y x.
Proof.
  intros Hn. unfold win. destruct (IsLess (o_UpdateTS x) (o_UpdateTS y)) eqn:E1,
    (IsLess (o_UpdateTS y) (o_UpdateTS x)) eqn:E2; try done.
  - apply IsLess_spec in E1, E2. exfalso. by apply (ts_lt_irrefl (o_UpdateTS x)), (ts_lt_trans _ (o_UpdateTS y)).
  - rewrite (bytes_compare_antisym (o_Hash x)). destruct (bytes_compare (o_Hash x) (o_Hash y)) eqn:E; simpl.
    + by apply bytes_compare_eq in E.
    + done.
    + done.
Qed.

Lemma set_flags_id o : set_flags o (o_IsSync o) (o_IsNewer o) (o_Extra o) = o.
Proof. by destruct o. Qed.

Lemma set_IsSync_same s : o_IsSync (st_o s) = true → set_o (set_IsSync true) s = s.
Proof.
  intros E. unfold set_o, set_IsSync. rewrite <- E, set_flags_id. by destruct s.
Qed.

(** [SelectExisting] of a complete oplog against a complete stored one with
    another hash, the key lock held. *)
Lemma SelectExisting_valid s orig :
  let o := st_o s in
  ready s (o_ID o) → prev_ok s (o_ID o) → config_ok → merkle_apart_opt s →
  is_Some (o_MasterLogID o) → o_IsSync o = true → ts_ok (o_UpdateTS o) → length (o_Hash o) = 32 →
  stored_oplog s (o_ID o) = Ok orig → is_Some (o_MasterLogID orig) → o_IsSync orig = true →
  o_Hash o ≠ o_Hash orig →
  ∃ s' w bcast, SelectExisting true s = (s', Ok (true, bcast)) ∧ stored_oplog s' (o_ID o) = Ok w ∧
    core w = core (win o orig) ∧ core (st_o s') = core (win o orig) ∧
    (bcast = true ↔ win o orig = o ∧ o ≠ orig).
Proof.
  intros o Hr Hprev Hcfg Ha [mid Hmid] Hsync Hts Hhash Hg [mid2 Hmid2] Hsync2 Hne.
  assert (o ≠ orig) as Hneo by (by intros ->).
  set (s1 := set_o (set_IsNewer false) s).
  assert (ready s1 (o_ID o)) as Hr1 by exact Hr.
  pose proof (oplog_Get_eq s1 (o_ID o) Hr1) as Eg. change (stored_oplog s1 (o_ID o)) with (stored_oplog s (o_ID o)) in Eg.
  rewrite Hg in Eg.
  set (s2 := set_o (set_Extra (o_Extra orig)) s1).
  assert (o_IsSync (st_o s1) = true ∧ o_IsSync (st_o s2) = true) as [Hs1 Hs2] by done.
  (* the state after the flags are settled *)
  assert (∀ B (k : unit → M B), ((if status_le (ToStatus (st_o s1)) (ToStatus orig) && o_IsSync orig
     then st_mod (set_o (set_IsSync (o_IsSync orig))) else mret tt : M unit) ≫= k) s1 = k tt s1) as Hif.
  { intros B k. rewrite Hsync2. destruct (status_le _ _); simpl; [|done]. rewrite st_mod_bind. by rewrite set_IsSync_same. }
  unfold SelectExisting. rewrite st_get_bind. unfold with_oplog_lock.
  unfold st_defer at 1. rewrite st_mod_bind. fold s1. rewrite (stm_bind_ok _ _ _ _ _ (st_try_ok _ _ _ _ Eg)).
  cbv iota beta. rewrite st_get_bind, Hif, st_mod_bind. fold s2. rewrite st_get_bind.
  unfold st_defer. rewrite Hsync2. rewrite st_mod_bind, (set_IsSync_same s2 Hs2), st_get_bind. cbv zeta.
  change (o_Hash (st_o s2)) with (o_Hash o). change (o_MasterLogID (st_o s2)) with (o_MasterLogID o).
  change (o_UpdateTS (st_o s2)) with (o_UpdateTS o). rewrite Hmid, Hmid2.
  rewrite decide_False by (by intros ?%bytes_compare_eq). rewrite !decide_False by done.
  assert (∃ s3, ForceSave true s2 = (s3, Ok tt) ∧ st_o s3 = st_o s2 ∧ stored_oplog s3 (o_ID o) = Ok (st_o s2)) as (s3 & Ef & Ho3 & Hg3).
  { destruct (Save_valid s2) as (s3 & E3 & Ho3 & _ & Hg3 & _); try done.
    by exists s3. }
  assert (∃ s' w bcast, (let '(s'', r) :=
      (let '(s''', r0) := (_ ← ForceSave true; mret (true, true) : M (bool * bool)) s2 in
       (set_o (set_IsSync (o_IsSync (st_o s2))) s''', r0)) in (set_o (set_IsNewer (o_IsNewer (st_o s))) s'', r)) =
      (s', Ok (true, bcast)) ∧ stored_oplog s' (o_ID o) = Ok w ∧ core w = core o ∧ core (st_o s') = core o ∧ bcast = true) as Hsave.
  { rewrite (stm_bind_ok _ _ _ _ _ Ef). cbn [mret stm_ret]. eexists _, (st_o s2), true. split; [done|].
    split; [exact Hg3|]. split; [done|]. split; [|done]. unfold core; simpl. rewrite Ho3. done. }
  assert (∃ s' w bcast, (let '(s'', r) :=
      (let '(s''', r0) := (_ ← st_mod (set_o (adopt orig)); mret (true, false) : M (bool * bool)) s2 in
       (set_o (set_IsSync (o_IsSync (st_o s2))) s''', r0)) in (set_o (set_IsNewer (o_IsNewer (st_o s))) s'', r)) =
      (s', Ok (true, bcast)) ∧ stored_oplog s' (o_ID o) = Ok w ∧ core w = core orig ∧ core (st_o s') = core orig ∧ bcast = false) as Hadopt.
  { rewrite st_mod_bind. eexists _, orig, false. split; [done|]. split; [exact Hg|]. split; [done|]. split; [|done].
    unfold core; simpl. done. }
  unfold win.
  destruct Hsave as (sa & wa & ba & Ea & ? & ? & ? & ->). destruct Hadopt as (sb & wb & bb & Eb & ? & ? & ? & ->).
  destruct (IsLess (o_UpdateTS o) (o_UpdateTS orig)).
  { exists sa, wa, true. split; [exact Ea|]. done. }
  destruct (IsLess (o_UpdateTS orig) (o_UpdateTS o)).
  { exists sb, wb, false. split; [exact Eb|].
    split; [done|]. split; [done|]. split; [done|]. split; [done|]. intros [E Hn]. by destruct Hn. }
  destruct (decide (bytes_compare (o_Hash o) (o_Hash orig) = Lt)).
  - exists sa, wa, true. split; [exact Ea|]. done.
  - exists sb, wb, false. split; [exact Eb|].
    split; [done|]. split; [done|]. split; [done|]. split; [done|]. intros [E Hn]. by destruct Hn.
Qed.

(** ** Two peers *)

(** What [SelectExisting] needs of a complete oplog that was received. *)
Definition complete o : Prop :=
  is_Some (o_MasterLogID o) ∧ o_IsSync o = true ∧ ts_ok (o_UpdateTS o) ∧ length (o_Hash o) = 32.

Definition peer_ok s (id : PttID) : Prop := ready s id ∧ prev_ok s id ∧ merkle_apart_opt s.


(** ** Pending oplogs *)

(** A pending oplog never replaces one that got further: [Save] of an
    oplog without a master log answers [ErrInvalidOplog] and leaves store,
    tree and locks as they are, when the stored oplog has a higher status. *)
Theorem pending_never_downgrades isLocked s k st :
  let o := st_o s in
  lock_free isLocked s (o_ID o) → ready s (o_ID o) → o_MasterLogID o = None →
  first_key s (IdxKey c (o_ID o)) = Ok k → bytesToStatus k = Ok st →
  (Status_num (ToStatus o) < Status_num st)%Z →
  let '(s', r) := Save isLocked s in
  r = Err SvcErrInvalidOplog ∧ st_b s' = st_b s ∧ st_m s' = st_m s ∧ st_lock s' = st_lock s.
Proof.
  intros o Hf Hr Hm Hk Hst Hlt.
  assert (∀ s0, st_o s0 = o → st_b s0 = st_b s → SaveCore s0 = (set_o (set_IsNewer false) s0, Err SvcErrInvalidOplog)) as Hcore.
  { intros s0 Ho Hb. unfold SaveCore. rewrite st_mod_bind, st_get_bind. cbv zeta.
    set (s1 := set_o (set_IsNewer false) s0).
    assert (o_MasterLogID (st_o s1) = None) as -> by (simpl; by rewrite Ho).
    unfold SaveCorePending. rewrite st_get_bind. cbv zeta.
    assert (o_ID (st_o s1) = o_ID o) as -> by (simpl; by rewrite Ho).
    assert (ToStatus (st_o s1) = ToStatus o) as -> by (subst s1; unfold ToStatus; simpl; by rewrite Ho).
    assert (ready s1 (o_ID o)) as Hr1 by (destruct Hr; split; simpl; by rewrite Hb).
    assert (first_key s1 (IdxKey c (o_ID o)) = Ok k) as Hk1 by (rewrite <- Hk; unfold first_key, sview; simpl; by rewrite Hb).
    pose proof (orig_key_eq s1 (o_ID o) Hr1) as E. rewrite Hk1 in E. rewrite (stm_bind_ok _ _ _ _ _ E).
    rewrite Hst. apply Z.ltb_lt in Hlt. unfold mbind, stm_bind, st_lift. by rewrite Hlt. }
  pose (body := ('(idxKey, idx, kvs) ← SaveCore;
    origKeys ← on_batch (λ b, let '(b, r) := ForcePutAll b idxKey idx kvs in (b, ret_err r));
    setMerkleUpdateTS origKeys) : M unit).
  assert (∀ l, body (set_lock l s) = (set_o (set_IsNewer false) (set_lock l s), Err SvcErrInvalidOplog)) as Hbody.
  { intros l. unfold body. by rewrite (stm_bind_err _ _ _ _ _ (Hcore (set_lock l s) eq_refl eq_refl)). }
  change (Save isLocked s) with (with_oplog_lock isLocked (o_ID o) body s).
  destruct (with_lock_run isLocked s (o_ID o) body Hf) as (l & _ & ->); [intros l; by rewrite Hbody|].
  by rewrite Hbody.
Qed.

(** ** Keys *)

Lemma prefix_byte_status (prefix : bytes) (x : byte) (p : bytes) :
  length prefix = SizeDBKeyPrefix → set_prefix_byte prefix x = Ok p → p !! (SizeDBKeyPrefix - 1) = Some x.
Proof.
  intros Hp. unfold set_prefix_byte. case_decide as Hd; [|done]. intros E. injection E as <-.
  by apply list_lookup_insert_eq.
Qed.

Lemma keyToUpdateTS_key o prefix :
  length prefix = SizeDBKeyPrefix → length (dbPrefixID c) = SizePttID →
  ts_wf (o_UpdateTS o) → (NanoTs (o_UpdateTS o) < BILLION)%Z →
  keyToUpdateTS (Some (oplog_MarshalKey c o prefix)) = Ok (o_UpdateTS o).
Proof.
  intros Hp Hid Hts Hn. unfold keyToUpdateTS. cbv zeta. cbn [default from_option id]. rewrite oplog_MarshalKey_eq, (app_assoc prefix).
  rewrite slice_app by (rewrite length_app, ?ts_marshal_length; lia). cbn [mbind outcome_bind].
  rewrite <- (app_nil_r (ts_marshal _)), unmarshal_marshal_app by done. by rewrite (proj2 (Z.leb_gt _ _)).
Qed.

(** From the key of an oplog the code reads back its identifier, its time,
    its index key and, by the prefix, its status. *)
Theorem oplog_key_roundtrip o prefix :
  length prefix = SizeDBKeyPrefix → length (dbPrefixID c) = SizePttID → length (o_ID o) = SizePttID →
  ts_wf (o_UpdateTS o) → (NanoTs (o_UpdateTS o) < BILLION)%Z →
  let key := oplog_MarshalKey c o prefix in
  OplogKeyToIDBytes key = Ok (o_ID o) ∧ keyToUpdateTS (Some key) = Ok (o_UpdateTS o) ∧
  OplogKeyToIdxKey key (dbIdxPrefix c) = Ok (IdxKey c (o_ID o)) ∧
  bytesToStatus key = bytesToStatus prefix ∧
  (∀ p, dbPrefixToDBPrefixInternal prefix = Ok p → bytesToStatus p = Ok StatusInternalPending) ∧
  (∀ p, dbPrefixToDBPrefixMaster prefix = Ok p → bytesToStatus p = Ok StatusPending).
Proof.
  intros Hp Hid Ho Hts Hn key. pose proof (keyToUpdateTS_key o prefix Hp Hid Hts Hn) as Hkey.
  subst key. rewrite oplog_MarshalKey_eq in *.
  pose proof (ts_marshal_length (o_UpdateTS o)) as Ht.
  assert (∀ i, i = SizeDBKeyPrefix → slice i (i + SizePttID)
    (prefix ++ dbPrefixID c ++ ts_marshal (o_UpdateTS o) ++ o_ID o ++ MarshalOp (o_Op o)) = Ok (dbPrefixID c)) as S1
    by (intros i ->; apply slice_app; lia).
  assert (∀ i, i = SizeDBKeyPrefix + SizePttID + SizeTimestamp → slice i (i + SizePttID)
    (prefix ++ dbPrefixID c ++ ts_marshal (o_UpdateTS o) ++ o_ID o ++ MarshalOp (o_Op o)) = Ok (o_ID o)) as S3.
  { intros i ->. rewrite (app_assoc prefix), (app_assoc (prefix ++ _)). apply slice_app; rewrite !length_app; lia. }
  split; [|split; [|split; [|split; [|split]]]].
  - unfold OplogKeyToIDBytes. rewrite decide_False by (rewrite !length_app; lia). by apply S3.
  - exact Hkey.
  - unfold OplogKeyToIdxKey. rewrite (S1 SizeDBKeyPrefix eq_refl). cbn [mbind outcome_bind].
    rewrite (S3 (SizeDBKeyPrefix + SizePttID + SizeTimestamp) eq_refl). cbn [mbind outcome_bind].
    by rewrite !go_copy_full by (rewrite ?Hid, ?Ho; done).
  - unfold bytesToStatus. by rewrite lookup_app_l by (rewrite Hp; unfold SizeDBKeyPrefix; lia).
  - intros p E. unfold bytesToStatus. by rewrite (prefix_byte_status _ _ _ Hp E).
  - intros p E. unfold bytesToStatus. by rewrite (prefix_byte_status _ _ _ Hp E).
Qed.

End Oplog.

(** ** Witnesses *)

Definition w_cfg : OplogDB :=
  MkODB w_id (w_prefix x6c x67) (w_prefix x69 x67) (Some (w_prefix x6d x6b)) (w_prefix x6c x69) (w_prefix x6c x6d).
Definition w_env (_ : nat) (l : locktab) : locktab := l.

(** Two complete forms of one oplog, and the oplog still pending. *)
Definition w_complete (t : Z) (h : byte) : BaseOplog :=
  set_flags (set_signs (set_ts_hash w_signed (MkTs t 0) (replicate 32 h)) (Some w_id) [] []) true false [].
Definition w_x : BaseOplog := w_complete 101 x01.
Definition w_y : BaseOplog := w_complete 102 x02.

Definition w_start (o : BaseOplog) : St := MkSt (MkBatch (MkDB mem_empty ∅) [] 0) (Some (w_merkle_of ∅)) ∅ o.

(** A peer that has stored [o] and receives [o2]. *)
Definition w_peer (o o2 : BaseOplog) : St := set_o (λ _, o2) (Save w_cfg w_env true (w_start o)).1.

Lemma w_config_ok : config_ok w_cfg.
Proof. split_and!; [done..|]. exists (w_prefix x6d x6b). split_and!; done. Qed.

Lemma w_apart st : merkle_apart w_cfg (w_merkle_of st).
Proof. exists (w_prefix x4d x74), w_id. split_and!; done. Qed.

Lemma w_complete_ok t h : (0 <= t < 1000)%Z → complete (w_complete t h).
Proof. intros Ht. split; [by eexists|]. split; [done|]. split; [|done]. unfold ts_ok, ts_wf. simpl. split_and!; word. Qed.

Lemma w_start_ready o : ready w_cfg (w_start o) (o_ID o) ∧ prev_ok w_cfg (w_start o) (o_ID o).
Proof. split; [done|]. by left. Qed.

Lemma Save_stores_oplog_witness :
  ∃ s', Save w_cfg w_env false (w_start w_x) = (s', Ok tt) ∧ oplog_Get w_cfg w_env (o_ID w_x) true s' = (s', Ok w_x).
Proof.
  destruct (w_start_ready w_x) as [Hr Hp].
  pose proof (Save_stores_oplog w_cfg w_env false (w_start w_x) (or_intror eq_refl) Hr Hp w_config_ok (w_apart _)) as H.
  destruct (w_complete_ok 101 x01 ltac:(lia)) as (V1 & V2 & V3 & V4).
  specialize (H (conj V1 (conj V2 (conj eq_refl (conj V3 V4))))).
  destruct (Save w_cfg w_env false (w_start w_x)) as [s' r]. destruct H as (-> & Hg & _). by exists s'.
Defined.

Lemma w_peer_ok o o2 :
  complete o → (NanoTs (o_UpdateTS o) < BILLION)%Z → o_IsNewer o = false → o_ID o = o_ID o2 →
  peer_ok w_cfg (w_peer o o2) (o_ID o2) ∧ stored_oplog w_cfg (w_peer o o2) (o_ID o2) = Ok o.
Proof.
  intros (V1 & V2 & V3 & V4) Hnano Hn <-. destruct (w_start_ready o) as [Hr Hp].
  destruct (Save_valid w_cfg w_env (w_start o) Hr Hp w_config_ok (w_apart _)) as (s' & E & Ho & Hr' & Hg & _ & _ & Hm & _ & Hst & _);
    [done|].
  unfold w_peer. rewrite E. cbn [fst]. split; [|exact Hg]. split; [exact Hr'|]. split.
  - right. exists (valid_idx w_cfg o), (oplog_MarshalKey w_cfg o (dbPrefix w_cfg)), (o_UpdateTS o).
    split; [exact Hst|]. split; [done|].
    split; [|exact V3]. apply keyToUpdateTS_key; [done|done|apply V3|done].
  - exact Hm.
Qed.


(** A pending oplog with a master's signature is stored, the same one with an
    internal signature only arrives. *)
Definition w_internal : BaseOplog := (InternalSign w_signed w_signer w_key (Ok (MkTs 101 0)) (Ok w_salt)).1.1.
Lemma pending_never_downgrades_witness :
  let s := set_o (λ _, w_internal) (Save w_cfg w_env true (w_start w_master)).1 in
  ToStatus w_internal = StatusInternalPending ∧ (Save w_cfg w_env false s).2 = Err SvcErrInvalidOplog.
Proof.
  intros s. split; [vm_compute; reflexivity|].
  pose proof (pending_never_downgrades w_cfg w_env false s (oplog_MarshalKey w_cfg w_master (dbPrefixMaster w_cfg)) StatusPending) as H.
  destruct (Save w_cfg w_env false s) as [s' r]. apply H; try (vm_compute; reflexivity).
  - right. vm_compute. reflexivity.
  - split; vm_compute; reflexivity.
Defined.

Lemma oplog_key_roundtrip_witness :
  OplogKeyToIdxKey (oplog_MarshalKey w_cfg w_x (dbPrefix w_cfg)) (dbIdxPrefix w_cfg) = Ok (IdxKey w_cfg (o_ID w_x)).
Proof.
  destruct (oplog_key_roundtrip w_cfg w_x (dbPrefix w_cfg) eq_refl eq_refl eq_refl) as (_ & _ & H & _).
  - split; simpl; word.
  - simpl. unfold BILLION. lia.
  - exact H.
Defined.
