(* ===== verification/HandleOplogs.v ===== *)
(** * Handling the oplogs of a peer: [service/protocol_handle_oplogs.go],
    [service/protocol_manager_utils_oplog.go]

    Oplogs that arrive are first checked as a list, then handled one by one
    under the lock of each, through the callbacks of the protocol at hand. *)

From S2P Require Import Prelude GoTime CommonTypes Locks LevelDB PttDB MerkleNode Merkle OplogSign Oplog.

Set Default Goal Selector "!".

Section HandleOplogs.
Context {S : Type} `{LevelDB S, Json, JsonInts, Crypto, !Signing, OplogJson}.
Variable c : OplogDB.
Variable env : nat → locktab → locktab.

Abbreviation M := (stm (St (S := S))).

(** ** Checking a list *)

(** [oplogs[i]] is dereferenced: a [null] of the peer's list panics. *)
Fixpoint first_after (expireTS : Timestamp) (i : nat) (oplogs : list (option BaseOplog)) : outcome nat :=
  match oplogs with
  | [] => Ok i
  | oplog :: oplogs =>
    o ← or_panic oplog;
    if IsLess expireTS (o_UpdateTS o) then Ok i else first_after expireTS (i + 1) oplogs
  end.

(** [for i := lenLogs - 1; i >= 0; i--], on the reversed list of length [i]. *)
Fixpoint last_before (now : Timestamp) (i : nat) (rev_oplogs : list (option BaseOplog)) : outcome nat :=
  match rev_oplogs with
  | [] => Ok 0
  | oplog :: rev_oplogs =>
    o ← or_panic oplog;
    if IsLess (o_UpdateTS o) now then Ok i else last_before now (i - 1) rev_oplogs
  end.

(** [oplog.IsSync = false; setDB(oplog)] *)
Definition init_oplogs (oplogs : list (option BaseOplog)) : outcome (list BaseOplog) :=
  foldr (λ oplog r, o ← or_panic oplog; l ← r; Ok (set_IsSync false o :: l)) (Ok []) oplogs.

(** [Verify] for each; the test for [nil] comes too late to matter. *)
Fixpoint verify_oplogs (oplogs : list BaseOplog) : outcome unit :=
  match oplogs with
  | [] => Ok tt
  | o :: oplogs => _ ← Verify o; verify_oplogs oplogs
  end.

(** One variable [prelog] serves every call; what is read of it is
    [MasterLogID], a field that decoding leaves alone when the stored oplog
    does not have it. *)
Definition lookup_prelog (preLogID : PttID) (prelog : option PttID) : M (option PttID) :=
  r ← st_try (oplog_Get c env preLogID false);
  match r with
  | inr _ => st_lift (Err SvcErrInvalidOplog)
  | inl orig =>
    match (match o_MasterLogID orig with Some m => Some m | None => prelog end) with
    | None => st_lift (Err SvcErrInvalidOplog)
    | Some m => mret (Some m)
    end
  end.

Definition checkPreOplog (o : BaseOplog) (prelog : option PttID) (existIDs : gmap bytes BaseOplog) :
    M (option PttID * gmap bytes BaseOplog) :=
  let existIDs' := <[o_ID o := o]> existIDs in
  match o_PreLogID o with
  | None => mret (prelog, existIDs')
  | Some preLogID =>
    if match existIDs !! preLogID with Some log => bool_decide (is_Some (o_MasterLogID log)) | None => false end
    then mret (prelog, existIDs')
    else prelog ← lookup_prelog preLogID prelog; mret (prelog, existIDs')
  end.

(** The number of oplogs before the first that fails, [badIdx]. *)
Fixpoint check_pre_loop (oplogs : list BaseOplog) (prelog : option PttID) (existIDs : gmap bytes BaseOplog) : M nat :=
  match oplogs with
  | [] => mret 0
  | o :: oplogs =>
    r ← st_try (checkPreOplog o prelog existIDs);
    match r with
    | inr _ => mret 0
    | inl (prelog, existIDs) => n ← check_pre_loop oplogs prelog existIDs; mret (1 + n)
    end
  end.

Definition expire_ts (merkle : option (Merkle (S := S))) : outcome Timestamp :=
  ts ← match merkle with None => Ok ZeroTimestamp | Some m => GetSyncTime m end;
  Ok (if (OffsetMerkleSyncTime <=? Ts ts)%Z then MkTs (i64 (Ts ts - OffsetMerkleSyncTime)) (NanoTs ts) else ZeroTimestamp).

(** [now] is what the clock returns. *)
Definition preprocessOplogs (now : outcome Timestamp) (isPending : bool) (merkle : option (Merkle (S := S)))
    (oplogs : list (option BaseOplog)) : M (list BaseOplog) :=
  now ← st_lift now;
  expireTS ← st_lift (expire_ts merkle);
  startIdx ← st_lift (if isPending then first_after expireTS 0 oplogs else Ok 0);
  let oplogs := drop startIdx oplogs in
  endIdx ← st_lift (last_before now (length oplogs) (reverse oplogs));
  let oplogs := take endIdx oplogs in
  if decide (length oplogs = 0) then mret [] else
  oplogs ← st_lift (init_oplogs oplogs);
  _ ← st_lift (verify_oplogs oplogs);
  badIdx ← check_pre_loop oplogs None ∅;
  mret (take badIdx oplogs).

(** ** Handling one oplog

    The callbacks act on the same state and on the information [Info] that
    the caller collects. *)

Context {Info : Type}.

Record HSt := MkH { h_st : St (S := S); h_info : Info }.
Abbreviation HM := (stm HSt).

Definition h_set (f : St → St) (s : HSt) : HSt := MkH (f (h_st s)) (h_info s).
Definition h_o (s : HSt) : BaseOplog := st_o (h_st s).

Definition on_st {A} (m : M A) : HM A := λ s, let '(x, r) := m (h_st s) in (MkH x (h_info s), r).

(** [oplog.Lock(); defer oplog.Unlock()] *)
Definition h_lock {A} (id : PttID) (body : HM A) : HM A := λ s,
  let '(l, e) := Lock env (st_lock (h_st s)) (Some id) in
  match e with
  | Some e => (h_set (set_lock l) s, Err e)
  | None =>
    st_defer (h_set (λ s, match Unlock (st_lock s) (Some id) with Ok l => set_lock l s | _ => s end)) body
      (h_set (set_lock l) s)
  end.

Definition h_sync : HM unit := st_mod (h_set (set_o (set_IsSync true))).

(** [processLog] returns oplogs and an error. *)
Variable processLog : HM (list BaseOplog * option GoErr).

(** [Save(true, merkle)] with the error [skip] taken as none. *)
Definition save_unless_older : HM unit :=
  r ← st_try (on_st (Save c env true));
  match r with
  | inl _ | inr DBErrInvalidUpdateTS => mret tt
  | inr e => st_lift (Err e)
  end.

Definition handleOplog : HM (bool * list BaseOplog) :=
  s0 ← st_get;
  h_lock (o_ID (h_o s0)) (
    '(origIsSync, isToBroadcast) ← on_st (SelectExisting c env true);
    s ← st_get;
    if o_IsSync (h_o s) then mret (isToBroadcast, []) else
    '(origLogs, err) ← processLog;
    s ← st_get;
    let isSync := o_IsSync (h_o s) in
    _ ← match err with
        | None => mret tt
        | Some SvcErrNewerOplog => h_sync
        | Some e => st_lift (Err e)
        end;
    _ ← (if origIsSync : bool then h_sync else mret tt);
    _ ← save_unless_older;
    mret (isSync, origLogs)).

(** ** Handling a list *)

(** What the loop has collected: the newest time, what to broadcast, and the
    error it stopped with. *)
Fixpoint handle_loop (handle : HM (bool * list BaseOplog)) (oplogs : list BaseOplog) (newestUpdateTS : Timestamp)
    (toBroadcastLogs : list BaseOplog) : HM (Timestamp * list BaseOplog * option GoErr) :=
  match oplogs with
  | [] => mret (newestUpdateTS, toBroadcastLogs, None)
  | o :: oplogs =>
    _ ← st_mod (h_set (set_o (λ _, o)));
    r ← st_try handle;
    s ← st_get;
    match r with
    | inr SvcErrSkipOplog => handle_loop handle oplogs newestUpdateTS toBroadcastLogs
    | inr e => mret (newestUpdateTS, toBroadcastLogs, Some e)
    | inl (isToBroadcast, origLogs) =>
      handle_loop handle oplogs
        (if IsLess newestUpdateTS (o_UpdateTS (h_o s)) then o_UpdateTS (h_o s) else newestUpdateTS)
        (toBroadcastLogs ++ origLogs ++ if isToBroadcast : bool then [h_o s] else [])
    end
  end.

(** [postprocessLogs] gets the oplogs to broadcast and whether they are
    pending; its error is dropped. *)
Variable postprocessLogs : list BaseOplog → bool → HM unit.

Definition handleOplogs (oplogs : list BaseOplog) : HM (Timestamp * option GoErr) :=
  '(newestUpdateTS, toBroadcastLogs, err) ← handle_loop handleOplog oplogs ZeroTimestamp [];
  _ ← st_try (postprocessLogs toBroadcastLogs false);
  mret (newestUpdateTS, err).

(** The merkle tree on the shared database. *)
Definition shared_merkle (s : St (S := S)) : option (Merkle (S := S)) :=
  (λ m, set_m_db m (bdb (st_b s))) <$> st_m s.

Definition save_sync_time (ts : Timestamp) : M unit := λ s,
  match shared_merkle s with
  | None => (s, Ok tt)
  | Some m =>
    let '(m, r) := SaveSyncTime m ts in
    (MkSt (MkBatch (m_db m) (bops (st_b s)) (bsize (st_b s))) (Some m) (st_lock s) (st_o s), r)
  end.

Definition HandleOplogs (now : outcome Timestamp) (isUpdateSyncTime : bool) (oplogs : list (option BaseOplog)) : HM unit :=
  if decide (length oplogs = 0) then mret tt else
  s ← st_get;
  oplogs ← on_st (preprocessOplogs now false (shared_merkle (h_st s)) oplogs);
  if decide (length oplogs = 0) then mret tt else
  '(newestUpdateTS, err) ← handleOplogs oplogs;
  err2 ← (if isUpdateSyncTime : bool then
            r ← st_try (on_st (save_sync_time newestUpdateTS));
            mret match r with
                 | inl _ | inr DBErrInvalidUpdateTS => None
                 | inr e => Some e
                 end
          else mret None);
  match err, err2 with
  | Some e, _ => st_lift (Err e)
  | None, Some e => st_lift (Err e)
  | None, None => mret tt
  end.

(** ** Pending oplogs *)

(** The signing functions of the protocol manager, on the oplog at hand. *)
Variable internalSign : HM bool.
Variable validateIntegrateSign : HM unit.

(** [ts] is what the clock returns. *)
Definition IntegrateOplog (isLocked : bool) (ts : outcome Timestamp) : HM (bool * bool) :=
  s0 ← st_get;
  (if isLocked then λ body, body else h_lock (o_ID (h_o s0))) (
    '(origIsSync, isToSign) ← on_st (IntegrateExisting c env true ts);
    if negb isToSign then mret (origIsSync, false) else
    _ ← validateIntegrateSign;
    s ← st_get;
    st_defer (h_set (set_o (set_IsSync (o_IsSync (h_o s))))) (
      _ ← (if origIsSync : bool then h_sync else mret tt);
      _ ← on_st (Save c env true);
      mret (origIsSync, true))).

(** [processPendingLog] returns whether to sign, oplogs and an error. *)
Variable processPendingLog : HM (bool * list BaseOplog * option GoErr).

Definition handlePendingOplog (ts : outcome Timestamp) : HM (bool * list BaseOplog) :=
  s0 ← st_get;
  h_lock (o_ID (h_o s0)) (
    '(origIsSync, isNewSign) ← IntegrateOplog true ts;
    s ← st_get;
    if o_IsSync (h_o s) then
      _ ← (if isNewSign : bool then on_st (Save c env true) else mret tt);
      mret (isNewSign, [])
    else if decide (o_MasterLogID (h_o s) ≠ None) then
      '(origLogs, err) ← processLog;
      _ ← match err with
          | None => mret tt
          | Some SvcErrNewerOplog => h_sync
          | Some e => st_lift (Err e)
          end;
      mret (true, origLogs)
    else
      '(isToSign, origLogs, err) ← processPendingLog;
      _ ← match err with
          | None => mret tt
          | Some SvcErrNewerOplog => st_lift (Err SvcErrSkipOplog)
          | Some e => st_lift (Err e)
          end;
      isNewSign ← (if isToSign : bool then _ ← internalSign; mret true else mret isNewSign);
      _ ← (if origIsSync : bool then h_sync else mret tt);
      _ ← save_unless_older;
      mret (isNewSign, origLogs)).

Definition handlePendingOplogs (ts : outcome Timestamp) (oplogs : list BaseOplog) : HM (option GoErr) :=
  '(_, toBroadcastLogs, err) ← handle_loop (handlePendingOplog ts) oplogs ZeroTimestamp [];
  _ ← st_try (postprocessLogs toBroadcastLogs true);
  mret err.

(** The tree is not passed on: [preprocessOplogs] gets [nil]. *)
Definition HandlePendingOplogs (now ts : outcome Timestamp) (oplogs : list (option BaseOplog)) : HM unit :=
  if decide (length oplogs = 0) then mret tt else
  oplogs ← on_st (preprocessOplogs now true None oplogs);
  if decide (length oplogs = 0) then mret tt else
  err ← handlePendingOplogs ts oplogs;
  match err with Some e => st_lift (Err e) | None => mret tt end.

(** ** Failed oplogs *)

(** [handleFailedOplog] on the oplog at hand; one that fails keeps its
    record. *)
Definition HandleFailedOplogs (handleFailedOplog : HM unit) : list BaseOplog → HM unit :=
  fix go oplogs :=
    match oplogs with
    | [] => mret tt
    | o :: oplogs =>
      _ ← st_mod (h_set (set_o (λ _, o)));
      r ← st_try handleFailedOplog;
      _ ← match r with
          | inl _ => _ ← st_try (on_st (oplog_Delete c env false)); mret tt
          | inr _ => mret tt
          end;
      go oplogs
    end.

(** The same loop, with [postprocessLogs(info, peer)] after it. *)
Definition HandleFailedValidOplogs (handleFailedValidOplog postprocess : HM unit) (oplogs : list BaseOplog) : HM unit :=
  _ ← HandleFailedOplogs handleFailedValidOplog oplogs;
  _ ← st_try postprocess;
  mret tt.


(** ** Reading does not change the store *)

Implicit Types (s : St (S := S)) (o : BaseOplog).

(** [s'] is [s] but for the locks. *)
Definition same_store s s' : Prop := st_b s' = st_b s ∧ st_m s' = st_m s ∧ st_o s' = st_o s.

#[local] Instance same_store_preorder : PreOrder same_store.
Proof.
  split; [done|]. intros x y z (A1 & A2 & A3) (B1 & B2 & B3). unfold same_store. by rewrite B1, B2, B3.
Qed.

Lemma set_lock_same l s : same_store s (set_lock l s).
Proof. done. Qed.

Lemma stored_oplog_same s s' id : same_store s s' → stored_oplog c s' id = stored_oplog c s id.
Proof. intros (E & _). unfold stored_oplog, first_key, sview. by rewrite E. Qed.

Lemma ready_same s s' id : same_store s s' → ready c s id → ready c s' id.
Proof. intros (E & _) [? ?]. split; by rewrite E. Qed.

Lemma oplog_Get_reads s id s' r :
  ready c s id → oplog_Get c env id false s = (s', r) →
  same_store s s' ∧ (r = stored_oplog c s id ∨ ∃ e, r = Err e).
Proof.
  intros Hr. unfold oplog_Get, with_oplog_rlock.
  destruct (RLock env (st_lock s) (Some id)) as [l [e|]].
  - intros E. injection E as <- <-. split; [done|]. right. by eexists.
  - pose proof (oplog_Get_eq c env (set_lock l s) id) as Hg. unfold oplog_Get, with_oplog_rlock in Hg.
    unfold st_defer. rewrite Hg by exact Hr.
    change (stored_oplog c (set_lock l s) id) with (stored_oplog c s id).
    destruct (RUnlock _ _); intros E; injection E as <- <-; split; auto using set_lock_same; done.
Qed.

(** With the lock free the read succeeds. *)
Lemma oplog_Get_free s id :
  ready c s id → st_lock s !! id = None → oplog_Get c env id false s = (s, stored_oplog c s id).
Proof.
  intros Hr Hf. unfold oplog_Get, with_oplog_rlock.
  rewrite RLock_free by done.
  pose proof (oplog_Get_eq c env (set_lock (<[id := 0 + 1]> (<[id := 0]> (st_lock s))) s)%Z id) as Hg.
  unfold oplog_Get, with_oplog_rlock in Hg. unfold st_defer. rewrite Hg by exact Hr. cbn [st_lock set_lock].
  unfold RUnlock. rewrite lookup_insert_eq. simpl. rewrite !insert_insert_eq, delete_insert_id by done. by destruct s.
Qed.

(** ** The check of a list *)

(** What the previous log of an oplog of [before ++ [o]] has to be: complete
    in the list, or stored; the stored one is complete, or an earlier one that
    was looked up was. *)
Definition pre_complete s (before : list BaseOplog) : Prop :=
  ∃ o' p' orig', o' ∈ before ∧ o_PreLogID o' = Some p' ∧ stored_oplog c s p' = Ok orig' ∧ is_Some (o_MasterLogID orig').
Definition pre_ok s (before : list BaseOplog) o : Prop :=
  ∀ p, o_PreLogID o = Some p →
    (∃ o', o' ∈ before ∧ o_ID o' = p ∧ is_Some (o_MasterLogID o')) ∨
    (∃ orig, stored_oplog c s p = Ok orig ∧ (is_Some (o_MasterLogID orig) ∨ pre_complete s before)).

Lemma pre_complete_mono s before before' : before ⊆ before' → pre_complete s before → pre_complete s before'.
Proof. intros Hs (o' & p' & orig' & Hin & Hx). exists o', p', orig'. split; [by apply Hs|done]. Qed.

Definition pre_state s (before : list BaseOplog) (prelog : option PttID) (existIDs : gmap bytes BaseOplog) : Prop :=
  (is_Some prelog → pre_complete s before) ∧ ∀ id o, existIDs !! id = Some o → o ∈ before ∧ o_ID o = id.

Lemma pre_state_snoc s before prelog existIDs o :
  pre_state s before prelog existIDs → pre_state s (before ++ [o]) prelog (<[o_ID o := o]> existIDs).
Proof.
  intros [Hp Hm]. split.
  - intros Hs. eapply pre_complete_mono, Hp, Hs. by apply list_subseteq_app_l.
  - intros id x [[<- <-]|[_ Hx]]%lookup_insert_Some; [split; [apply elem_of_app; right; by left|done]|].
    apply Hm in Hx as [? ?]. split; [apply elem_of_app; by left|done].
Qed.

Lemma pre_complete_here s before o p orig :
  o_PreLogID o = Some p → stored_oplog c s p = Ok orig → is_Some (o_MasterLogID orig) → pre_complete s (before ++ [o]).
Proof. intros. exists o, p, orig. split; [apply elem_of_app; right; by left|done]. Qed.

Lemma lookup_prelog_sound s s0 p prelog s' r :
  (∀ id, ready c s id) → same_store s s0 → lookup_prelog p prelog s0 = (s', r) →
  same_store s s' ∧
  ∀ prelog', r = Ok prelog' → ∃ orig, stored_oplog c s p = Ok orig ∧ (is_Some (o_MasterLogID orig) ∨ is_Some prelog).
Proof.
  intros Hr Hs. unfold lookup_prelog. destruct (oplog_Get c env p false s0) as [s1 r1] eqn:Eg.
  destruct (oplog_Get_reads s0 p s1 r1 (ready_same _ _ _ Hs (Hr p)) Eg) as [Hs1 Hor].
  rewrite (stored_oplog_same _ _ _ Hs) in Hor. assert (same_store s s1) as Hs' by (by etrans).
  unfold mbind, stm_bind, st_try. rewrite Eg. destruct r1 as [orig|e|].
  - destruct Hor as [Hor|[? ?]]; [|done].
    destruct (o_MasterLogID orig) as [m|] eqn:Em; [|destruct prelog as [m|]];
      intros E; injection E as <- <-; (split; [exact Hs'|]); intros prelog' Hp; try done;
      exists orig; rewrite Em; split; eauto.
  - intros E. by injection E as <- <-.
  - intros E. by injection E as <- <-.
Qed.

Lemma checkPreOplog_sound s s0 before o prelog existIDs s' r :
  (∀ id, ready c s id) → same_store s s0 → pre_state s before prelog existIDs →
  checkPreOplog o prelog existIDs s0 = (s', r) →
  same_store s s' ∧
  ∀ prelog' existIDs', r = Ok (prelog', existIDs') → pre_state s (before ++ [o]) prelog' existIDs' ∧ pre_ok s before o.
Proof.
  intros Hr Hs Hst. pose proof (pre_state_snoc s before prelog existIDs o Hst) as Hst'.
  unfold checkPreOplog, pre_ok. destruct (o_PreLogID o) as [p|] eqn:Ep.
  2: { intros E. injection E as <- <-. split; [done|]. intros ? ? [= <- <-]. done. }
  destruct (match existIDs !! p with Some _ => _ | None => _ end) eqn:El.
  { intros E. injection E as <- <-. split; [done|]. intros ? ? [= <- <-]. split; [done|]. intros q [= <-]. left.
    destruct (existIDs !! p) as [log|] eqn:Ex; [|done]. apply Hst in Ex as [? ?]. exists log.
    by apply bool_decide_eq_true in El. }
  destruct (lookup_prelog p prelog s0) as [s1 r1] eqn:E1.
  destruct (lookup_prelog_sound _ _ _ _ _ _ Hr Hs E1) as [Hs1 Hok].
  unfold mbind, stm_bind. rewrite E1. destruct r1 as [pl|e|]; intros E; injection E as <- <-; (split; [done|]); [|done..].
  intros ? ? [= <- <-]. destruct (Hok pl eq_refl) as (orig & Hg & Hor).
  assert (is_Some (o_MasterLogID orig) ∨ pre_complete s before) as Hor'
    by (destruct Hor as [?|Hp]; [by left|right; by apply (proj1 Hst)]).
  split; [|intros q [= <-]; right; by exists orig].
  split; [|apply Hst']. intros _. destruct Hor' as [Hm|Hp]; [by eapply pre_complete_here|].
  eapply pre_complete_mono, Hp. by apply list_subseteq_app_l.
Qed.

Lemma check_pre_loop_sound s s0 before oplogs prelog existIDs s' n :
  (∀ id, ready c s id) → same_store s s0 → pre_state s before prelog existIDs →
  check_pre_loop oplogs prelog existIDs s0 = (s', Ok n) →
  same_store s s' ∧ n ≤ length oplogs ∧
  ∀ j o, take n oplogs !! j = Some o → pre_ok s (before ++ take j oplogs) o.
Proof.
  intros Hr. revert s0 before prelog existIDs n.
  induction oplogs as [|o oplogs IH]; intros s0 before prelog existIDs n Hs Hst; cbn [check_pre_loop].
  { intros E. injection E as <- <-. split; [done|]. split; [done|]. intros j o. by rewrite take_nil. }
  destruct (checkPreOplog o prelog existIDs s0) as [s1 r] eqn:E1.
  destruct (checkPreOplog_sound _ _ _ _ _ _ _ _ Hr Hs Hst E1) as [Hs1 Hok].
  unfold mbind, stm_bind, st_try. rewrite E1. destruct r as [[prelog' existIDs']|e|]; [| |done].
  - destruct (Hok _ _ eq_refl) as [Hst1 Hpre].
    destruct (check_pre_loop oplogs prelog' existIDs' s1) as [s2 [m|e|]] eqn:E2; try done.
    intros E. injection E as <- <-. destruct (IH _ _ _ _ _ Hs1 Hst1 E2) as (Hs2 & Hm & Hall).
    split; [done|]. split; [simpl; lia|]. intros [|j] x; simpl.
    + intros [= <-]. by rewrite app_nil_r.
    + intros Hx. specialize (Hall j x Hx). by rewrite <- app_assoc in Hall.
  - intros E. injection E as <- <-. split; [done|]. split; [lia|done].
Qed.

Lemma init_oplogs_ok l r : init_oplogs l = Ok r → Some <$> r = fmap (set_IsSync false) <$> l.
Proof.
  revert r. induction l as [|[o|] l IH]; intros r; [by intros [= <-]| |done].
  change (init_oplogs (Some o :: l)) with (l' ← init_oplogs l; Ok (set_IsSync false o :: l')). destruct (init_oplogs l) as [r'| |]; [|done..]. intros [= <-]. cbn [fmap list_fmap option_fmap option_map]. f_equal. by apply IH.
Qed.

Lemma verify_oplogs_ok l : verify_oplogs l = Ok tt → Forall (λ o, Verify o = Ok tt) l.
Proof.
  induction l as [|o l IH]; cbn [verify_oplogs]; [by constructor|].
  destruct (Verify o) as [[]| |] eqn:E; simpl; [|done..]. intros Hl. constructor; auto.
Qed.

(** What a successful [preprocessOplogs] went through. *)
Lemma preprocess_inv now isPending mk l s s' res :
  preprocessOplogs now isPending mk l s = (s', Ok res) →
  (res = [] ∧ s' = s) ∨
  ∃ start fin oplogs n, init_oplogs (take fin (drop start l)) = Ok oplogs ∧ verify_oplogs oplogs = Ok tt ∧
    check_pre_loop oplogs None ∅ s = (s', Ok n) ∧ res = take n oplogs.
Proof.
  unfold preprocessOplogs, mbind, stm_bind, st_lift.
  destruct now as [now| |]; [|done..]. destruct (expire_ts mk) as [ets| |]; [|done..].
  destruct (if isPending then _ else _) as [start| |]; [|done..].
  destruct (last_before _ _ _) as [fin| |]; [|done..].
  case_decide; [intros E; injection E as <- <-; by left|].
  destruct (init_oplogs _) as [oplogs| |] eqn:Ei; [|done..].
  destruct (verify_oplogs oplogs) as [[]| |] eqn:Ev; [|done..].
  destruct (check_pre_loop oplogs None ∅ s) as [s1 [n| |]] eqn:Ec; [|done..].
  intros E. injection E as <- <-. right. by exists start, fin, oplogs, n.
Qed.

(** C2: every oplog that [preprocessOplogs] lets through verifies, is marked as
    not synchronised, and its previous log is in the list before it and
    complete, or stored; a stored one is complete itself, or one that was
    looked up for an earlier oplog was.  What is let through is a contiguous
    part of the list, and the store is only read. *)
Theorem preprocess_sound now isPending mk l s s' res :
  (∀ id, ready c s id) → preprocessOplogs now isPending mk l s = (s', Ok res) →
  same_store s s' ∧
  (∃ i, Some <$> res = fmap (set_IsSync false) <$> take (length res) (drop i l)) ∧
  Forall (λ o, Verify o = Ok tt ∧ o_IsSync o = false) res ∧
  ∀ j o, res !! j = Some o → pre_ok s (take j res) o.
Proof.
  intros Hr E. destruct (preprocess_inv _ _ _ _ _ _ _ E) as [[-> ->]|(i & fin & oplogs & n & Ei & Ev & Ec & ->)].
  { split; [done|]. split; [by exists 0|]. split; [constructor|done]. }
  destruct (check_pre_loop_sound s s [] oplogs None ∅ s' n) as (Hs & Hn & Hpre); [done|done| |done|].
  { split; [by intros []|done]. }
  apply init_oplogs_ok in Ei. apply verify_oplogs_ok in Ev.
  assert (length oplogs ≤ fin) as Hfin.
  { apply (f_equal length) in Ei. rewrite !length_fmap, length_take in Ei. lia. }
  split; [done|]. split; [|split].
  - exists i. rewrite length_take_le, fmap_take, Ei by done. rewrite <- fmap_take, take_take. do 3 f_equal. lia.
  - apply Forall_take, Forall_forall. intros o Ho. split; [by eapply Forall_forall in Ev|].
    assert (Some o ∈ Some <$> oplogs) as Hin by (by apply list_elem_of_fmap_2).
    rewrite Ei in Hin. apply list_elem_of_fmap in Hin as ([o'|] & Ho' & _); [|done]. by injection Ho' as ->.
  - intros j o Ho. specialize (Hpre j o Ho). simpl in Hpre.
    rewrite take_take. apply lookup_take_Some in Ho as [_ Hj]. by rewrite Nat.min_l by lia.
Qed.


(** ** The shared [prelog] *)

Lemma lookup_prelog_free s p prelog orig :
  ready c s p → st_lock s !! p = None → stored_oplog c s p = Ok orig →
  lookup_prelog p prelog s =
    (s, match (match o_MasterLogID orig with Some m => Some m | None => prelog end) with
        | None => Err SvcErrInvalidOplog | Some m => Ok (Some m) end).
Proof.
  intros Hr Hf Hg. unfold lookup_prelog, mbind, stm_bind, st_try. rewrite oplog_Get_free, Hg by done.
  by destruct (match o_MasterLogID orig with Some m => Some m | None => prelog end).
Qed.

(** An oplog whose previous log is stored but still pending is refused when
    it comes alone, and accepted behind an oplog whose previous log is
    complete: the variable [prelog] still has the [MasterLogID] of the oplog
    that was decoded into it before. *)
Theorem stale_prelog_accepted s a b p q orig orig2 :
  o_PreLogID a = Some p → o_PreLogID b = Some q → o_ID a ≠ q →
  ready c s p → ready c s q → st_lock s !! p = None → st_lock s !! q = None →
  stored_oplog c s p = Ok orig → is_Some (o_MasterLogID orig) →
  stored_oplog c s q = Ok orig2 → o_MasterLogID orig2 = None →
  check_pre_loop [b] None ∅ s = (s, Ok 0) ∧ check_pre_loop [a; b] None ∅ s = (s, Ok 2).
Proof.
  intros Ea Eb Hab Rp Rq Lp Lq Gp [m Hm] Gq Hq.
  pose proof (lookup_prelog_free s p None orig Rp Lp Gp) as Hp. rewrite Hm in Hp.
  pose proof (lookup_prelog_free s q None orig2 Rq Lq Gq) as Hn.
  pose proof (lookup_prelog_free s q (Some m) orig2 Rq Lq Gq) as Hs. rewrite Hq in Hn, Hs.
  assert (checkPreOplog a None ∅ s = (s, Ok (Some m, {[o_ID a := a]}))) as Ha.
  { unfold checkPreOplog. rewrite Ea, lookup_empty. by rewrite (stm_bind_ok _ _ _ _ _ Hp). }
  assert (checkPreOplog b (Some m) {[o_ID a := a]} s = (s, Ok (Some m, <[o_ID b := b]> {[o_ID a := a]}))) as Hb.
  { unfold checkPreOplog. rewrite Eb, lookup_singleton_ne by done. by rewrite (stm_bind_ok _ _ _ _ _ Hs). }
  assert (checkPreOplog b None ∅ s = (s, Err SvcErrInvalidOplog)) as Hb0.
  { unfold checkPreOplog. rewrite Eb, lookup_empty. by rewrite (stm_bind_err _ _ _ _ _ Hn). }
  split; cbn [check_pre_loop].
  - by rewrite (stm_bind_ok _ _ _ _ _ (st_try_err _ _ _ _ Hb0)).
  - rewrite (stm_bind_ok _ _ _ _ _ (st_try_ok _ _ _ _ Ha)). cbv beta iota.
    rewrite (stm_bind_ok _ _ s s 1); [done|]. by rewrite (stm_bind_ok _ _ _ _ _ (st_try_ok _ _ _ _ Hb)).
Qed.

(** ** Old oplogs *)

Lemma last_before_all now l :
  Forall (λ o, IsLess (o_UpdateTS o) now = true) l → last_before now (length l) (reverse (Some <$> l)) = Ok (length l).
Proof.
  destruct l as [|o l _] using rev_ind; [done|]. intros [_ Ho]%Forall_app.
  rewrite fmap_app, reverse_app. simpl. apply Forall_inv in Ho. by rewrite Ho.
Qed.

Lemma check_pre_loop_none oplogs prelog existIDs s :
  Forall (λ o, o_PreLogID o = None) oplogs → check_pre_loop oplogs prelog existIDs s = (s, Ok (length oplogs)).
Proof.
  intros Hn. revert existIDs. induction Hn as [|o oplogs Ho _ IH]; intros existIDs; [done|]. cbn [check_pre_loop].
  assert (checkPreOplog o prelog existIDs s = (s, Ok (prelog, <[o_ID o := o]> existIDs))) as E
    by (unfold checkPreOplog; by rewrite Ho).
  rewrite (stm_bind_ok _ _ _ _ _ (st_try_ok _ _ _ _ E)). cbv beta iota.
  by rewrite (stm_bind_ok _ _ _ _ _ (IH _)).
Qed.

Lemma init_oplogs_all l : init_oplogs (Some <$> l) = Ok (set_IsSync false <$> l).
Proof. induction l as [|o l IH]; [done|]. rewrite fmap_cons. unfold init_oplogs in *. cbn [foldr]. by rewrite IH. Qed.

Lemma verify_oplogs_all l : Forall (λ o, Verify o = Ok tt) l → verify_oplogs l = Ok tt.
Proof. induction 1 as [|o l Ho _ IH]; [done|]. cbn [verify_oplogs]. by rewrite Ho. Qed.

(** No oplog is ever too old: however old they are (but for the epoch), and
    whatever the time the tree was synchronised until, all the oplogs of a list
    pass, complete ones through [HandleOplogs], which does not compare with
    the expire time it computes, and pending ones through
    [HandlePendingOplogs], which computes it without a tree.  The list here
    has no previous logs and verifies. *)
Theorem old_oplogs_accepted s now mk ets l :
  expire_ts mk = Ok ets →
  Forall (λ o, Verify (set_IsSync false o) = Ok tt ∧ o_PreLogID o = None ∧
               ts_lt ZeroTimestamp (o_UpdateTS o) ∧ ts_lt (o_UpdateTS o) now) l →
  preprocessOplogs (Ok now) false mk (Some <$> l) s = (s, Ok (set_IsSync false <$> l)) ∧
  preprocessOplogs (Ok now) true None (Some <$> l) s = (s, Ok (set_IsSync false <$> l)).
Proof.
  intros Hets Hl. unfold preprocessOplogs, mbind, stm_bind, st_lift. rewrite Hets. change (expire_ts None) with (Ok ZeroTimestamp).
  cbv beta iota.
  assert (∀ start, start = Ok 0 →
    match start with
    | Ok n => match last_before now (length (drop n (Some <$> l))) (reverse (drop n (Some <$> l))) with
              | Ok fin => Some (n, fin) | _ => None end
    | _ => None end = Some (0, length l)) as Hcut.
  { intros _ ->. rewrite drop_0, length_fmap, last_before_all; [done|].
    eapply Forall_impl; [exact Hl|]. intros o (_ & _ & _ & Hlt). by apply IsLess_spec. }
  assert (first_after ZeroTimestamp 0 (Some <$> l) = Ok 0) as Hfirst.
  { destruct Hl as [|o l (_ & _ & Hpos & _) _]; [done|]. simpl. by rewrite (proj2 (IsLess_spec _ _) Hpos). }
  rewrite Hfirst. specialize (Hcut (Ok 0) eq_refl). cbv beta iota in Hcut.
  destruct (last_before now _ _) as [fin| |]; [|done..]. injection Hcut as ->.
  rewrite drop_0, take_ge by (by rewrite length_fmap). rewrite length_fmap.
  case_decide as Hlen; [apply nil_length_inv in Hlen as ->; done|].
  rewrite init_oplogs_all, verify_oplogs_all, check_pre_loop_none.
  - rewrite take_ge by done. done.
  - apply Forall_fmap. eapply Forall_impl; [exact Hl|]. by intros o (_ & Hp & _).
  - apply Forall_fmap. eapply Forall_impl; [exact Hl|]. by intros o (Hv & _).
Qed.


(** ** One oplog *)

Implicit Types (hs : HSt).

(** The state while the lock of [id] is held. *)
Definition locked (id : PttID) hs : HSt := h_set (λ s, set_lock (<[id := (-1)%Z]> (st_lock s)) s) hs.

Lemma h_lock_run {A} (id : PttID) (body : HM A) hs (s1 : HSt) (r : outcome A) :
  st_lock (h_st hs) !! id = None → body (locked id hs) = (s1, r) → st_lock (h_st s1) = st_lock (h_st (locked id hs)) →
  h_lock id body hs = (h_set (set_lock (st_lock (h_st hs))) s1, r).
Proof.
  intros Hf Hb Hl. unfold h_lock. rewrite Lock_free by done. unfold st_defer.
  change (h_set (set_lock (<[id:=(-1)%Z]> (st_lock (h_st hs)))) hs) with (locked id hs). rewrite Hb.
  unfold h_set at 1. cbn [h_st h_info]. unfold Unlock. rewrite Hl. cbn [locked h_set h_st set_lock st_lock].
  rewrite lookup_insert_eq. simpl. by rewrite delete_insert_id.
Qed.

(** The oplog at hand is not stored. *)
Lemma Existing_new s ts :
  ready c s (o_ID (st_o s)) → stored_oplog c s (o_ID (st_o s)) = Err LDBErrNotFound →
  SelectExisting c env true s = (s, Ok (false, true)) ∧ IntegrateExisting c env true ts s = (s, Ok (false, false)).
Proof.
  intros Hr Hg. set (s1 := set_o (set_IsNewer false) s).
  assert (oplog_Get c env (o_ID (st_o s)) true s1 = (s1, Err LDBErrNotFound)) as Eg.
  { rewrite (oplog_Get_eq c env s1 (o_ID (st_o s))) by exact Hr. f_equal. exact Hg. }
  assert (set_o (set_IsNewer (o_IsNewer (st_o s))) s1 = s) as Hs.
  { subst s1. destruct s as [b m l o]. unfold set_o, set_IsNewer, set_flags; simpl. f_equal. by destruct o. }
  split; [unfold SelectExisting|unfold IntegrateExisting]; rewrite st_get_bind; unfold with_oplog_lock; cbv iota;
    unfold st_defer; rewrite st_mod_bind; fold s1;
    rewrite (stm_bind_ok _ _ _ _ _ (st_try_err _ _ _ _ Eg)); cbv iota; unfold mret, stm_ret; by rewrite Hs.
Qed.

Lemma st_if_bind {A} (b : bool) (f : St → St) (k : unit → M A) s :
  ((if b then st_mod f else mret tt) ≫= k) s = k tt (if b then f s else s).
Proof. by destruct b. Qed.

(** The oplog at hand is stored with the same hash. *)
Lemma SelectExisting_same s orig :
  ready c s (o_ID (st_o s)) → stored_oplog c s (o_ID (st_o s)) = Ok orig → o_Hash (st_o s) = o_Hash orig →
  ∃ s', SelectExisting c env true s = (s', Ok (o_IsSync orig, false)) ∧ st_b s' = st_b s ∧ st_m s' = st_m s ∧
    st_lock s' = st_lock s ∧ o_ID (st_o s') = o_ID (st_o s) ∧
    (status_le (ToStatus (st_o s)) (ToStatus orig) = true → o_IsSync orig = true → o_IsSync (st_o s') = true).
Proof.
  intros Hr Hg Hh. set (s1 := set_o (set_IsNewer false) s).
  assert (oplog_Get c env (o_ID (st_o s)) true s1 = (s1, Ok orig)) as Eg.
  { rewrite (oplog_Get_eq c env s1 (o_ID (st_o s))) by exact Hr. f_equal. exact Hg. }
  set (b1 := status_le (ToStatus (st_o s)) (ToStatus orig) && o_IsSync orig).
  set (s2 := if b1 then set_o (set_IsSync (o_IsSync orig)) s1 else s1).
  set (s3 := set_o (set_Extra (o_Extra orig)) s2).
  set (s4 := if o_IsSync orig then set_o (set_IsSync (o_IsSync orig)) s3 else s3).
  assert (bytes_compare (o_Hash (st_o s4)) (o_Hash orig) = Eq) as Hcmp.
  { apply bytes_compare_eq. rewrite <- Hh. subst s4 s3 s2. by destruct (o_IsSync orig), b1. }
  exists (set_o (set_IsNewer (o_IsNewer (st_o s))) (set_o (set_IsSync (o_IsSync (st_o s3))) s4)). split.
  - unfold SelectExisting. rewrite st_get_bind. unfold with_oplog_lock. cbv iota.
    unfold st_defer at 1. rewrite st_mod_bind. fold s1.
    rewrite (stm_bind_ok _ _ _ _ _ (st_try_ok _ _ _ _ Eg)). cbv iota. rewrite st_get_bind, st_if_bind.
    change (ToStatus (st_o s1)) with (ToStatus (st_o s)). fold b1 s2. rewrite st_mod_bind. fold s3.
    rewrite st_get_bind. unfold st_defer. rewrite st_if_bind. fold s4. rewrite st_get_bind. cbv zeta.
    by rewrite decide_True by done.
  - subst s4 s3 s2 b1. destruct (o_IsSync orig), (status_le _ _); split_and!; done.
Qed.

(** An oplog that is stored already, synchronised and with the same hash,
    is not handled again: [handleOplog] has nothing to broadcast, calls no
    callback, and leaves store, tree, locks and information as they are. *)
Theorem handleOplog_duplicate hs orig :
  let o := h_o hs in
  st_lock (h_st hs) !! o_ID o = None → ready c (h_st hs) (o_ID o) →
  stored_oplog c (h_st hs) (o_ID o) = Ok orig → o_Hash o = o_Hash orig → o_IsSync orig = true →
  status_le (ToStatus o) (ToStatus orig) = true →
  let '(s', r) := handleOplog hs in
  r = Ok (false, []) ∧ st_b (h_st s') = st_b (h_st hs) ∧ st_m (h_st s') = st_m (h_st hs) ∧
  st_lock (h_st s') = st_lock (h_st hs) ∧ h_info s' = h_info hs.
Proof.
  intros o Hf Hr Hg Hh Hs Hst. subst o.
  destruct (SelectExisting_same (h_st (locked (o_ID (h_o hs)) hs)) orig Hr Hg Hh) as (s1 & E & Hb & Hm & Hl & _ & Hsync).
  unfold handleOplog. rewrite st_get_bind.
  erewrite (h_lock_run _ _ _ (MkH s1 (h_info hs)) (Ok (false, []))); [by simpl|done| |exact Hl].
  assert (on_st (SelectExisting c env true) (locked (o_ID (h_o hs)) hs) = (MkH s1 (h_info hs), Ok (o_IsSync orig, false))) as E'
    by (unfold on_st; by rewrite E).
  rewrite (stm_bind_ok _ _ _ _ _ E'). cbv beta iota. rewrite st_get_bind.
  unfold h_o. cbn [h_st]. by rewrite (Hsync Hst Hs).
Qed.


(** What the callback is expected to do with the oplog at hand: succeed, mark it
    as synchronised, and leave the database fit for saving it. *)
Definition processed hs origLogs (s1 : HSt) : Prop :=
  let id := o_ID (h_o hs) in
  processLog (locked id hs) = (s1, Ok (origLogs, None)) ∧
  h_o s1 = set_IsSync true (h_o hs) ∧ st_lock (h_st s1) = st_lock (h_st (locked id hs)) ∧
  ready c (h_st s1) id ∧ prev_ok c (h_st s1) id ∧ merkle_apart_opt c (h_st s1).

(** A complete oplog that is not stored is handed to [processLog]; when that
    succeeds and marks it as synchronised, [handleOplog] stores it with its
    leaf in the tree, releases the lock and asks to broadcast it together with
    what [processLog] returned. *)
Theorem handleOplog_stores hs origLogs (s1 : HSt) :
  let o := h_o hs in
  config_ok c → st_lock (h_st hs) !! o_ID o = None → ready c (h_st hs) (o_ID o) →
  stored_oplog c (h_st hs) (o_ID o) = Err LDBErrNotFound → o_IsSync o = false →
  oplog_valid (set_IsSync true o) → processed hs origLogs s1 →
  let '(s', r) := handleOplog hs in
  r = Ok (true, origLogs) ∧ stored_oplog c (h_st s') (o_ID o) = Ok (set_IsSync true o) ∧
  sview (h_st s') !! MarshalMerkleKey c o = Some (node_Marshal (leaf_of c o)) ∧
  st_lock (h_st s') = st_lock (h_st hs) ∧ h_info s' = h_info s1.
Proof.
  intros o Hcfg Hf Hr Hg Hs Hv (Ep & Ho & Hl & Hr1 & Hp1 & Ha1). subst o.
  destruct (Existing_new (h_st (locked (o_ID (h_o hs)) hs)) (Ok ZeroTimestamp) Hr Hg) as [E1 _].
  unfold h_o in Ho. assert (o_ID (st_o (h_st s1)) = o_ID (h_o hs)) as Hid by (by rewrite Ho).
  destruct (Save_valid c env (h_st s1)) as (s2 & E2 & _ & _ & Hg2 & Hleaf & _ & _ & Hl2 & _);
    [by rewrite Hid..|done|done|by rewrite Ho|].
  rewrite Hid in Hg2. rewrite Ho in Hg2, Hleaf.
  unfold handleOplog. rewrite st_get_bind.
  erewrite (h_lock_run _ _ _ (MkH s2 (h_info s1)) (Ok (true, origLogs))); [by simpl|done| |by rewrite <- Hl].
  assert (on_st (SelectExisting c env true) (locked (o_ID (h_o hs)) hs) = (locked (o_ID (h_o hs)) hs, Ok (false, true))) as E1'
    by (unfold on_st; by rewrite E1).
  rewrite (stm_bind_ok _ _ _ _ _ E1'). cbv beta iota. rewrite st_get_bind.
  change (o_IsSync (h_o (locked (o_ID (h_o hs)) hs))) with (o_IsSync (h_o hs)). rewrite Hs.
  rewrite (stm_bind_ok _ _ _ _ _ Ep). cbv beta iota. rewrite st_get_bind. unfold h_o at 1. rewrite Ho. cbv zeta.
  rewrite !st_ret_bind.
  rewrite (stm_bind_ok _ _ _ (MkH s2 (h_info s1)) tt); [done|].
  unfold save_unless_older. rewrite (stm_bind_ok _ _ _ (MkH s2 (h_info s1)) (inl tt)); [done|].
  apply st_try_ok. unfold on_st. by rewrite E2.
Qed.

(** The same oplog sent as a pending one, which [handlePendingOplog] also
    hands to [processLog], is broadcast but never stored. *)
Theorem pending_complete_not_stored hs ts origLogs (s1 : HSt) :
  let o := h_o hs in
  st_lock (h_st hs) !! o_ID o = None → ready c (h_st hs) (o_ID o) →
  stored_oplog c (h_st hs) (o_ID o) = Err LDBErrNotFound → o_IsSync o = false → is_Some (o_MasterLogID o) →
  processed hs origLogs s1 → stored_oplog c (h_st s1) (o_ID o) = Err LDBErrNotFound →
  let '(s', r) := handlePendingOplog ts hs in
  r = Ok (true, origLogs) ∧ stored_oplog c (h_st s') (o_ID o) = Err LDBErrNotFound ∧
  st_lock (h_st s') = st_lock (h_st hs).
Proof.
  intros o Hf Hr Hg Hs [m Hm] (Ep & Ho & Hl & _) Hg1. subst o.
  destruct (Existing_new (h_st (locked (o_ID (h_o hs)) hs)) ts Hr Hg) as [_ E1].
  unfold handlePendingOplog. rewrite st_get_bind.
  erewrite (h_lock_run _ _ _ s1 (Ok (true, origLogs))); [by simpl|done| |exact Hl].
  assert (IntegrateOplog true ts (locked (o_ID (h_o hs)) hs) = (locked (o_ID (h_o hs)) hs, Ok (false, false))) as E1'.
  { unfold IntegrateOplog. rewrite st_get_bind. cbv iota.
    rewrite (stm_bind_ok _ _ _ (locked (o_ID (h_o hs)) hs) (false, false)); [done|]. unfold on_st. by rewrite E1. }
  rewrite (stm_bind_ok _ _ _ _ _ E1'). cbv beta iota. rewrite st_get_bind.
  change (h_o (locked (o_ID (h_o hs)) hs)) with (h_o hs). rewrite Hs, Hm, decide_True by done.
  by rewrite (stm_bind_ok _ _ _ _ _ Ep).
Qed.

End HandleOplogs.

(** ** Witnesses *)

Lemma w_ready (b : gmap bytes bytes) (m : option Merkle) (l : locktab) o id :
  ready w_cfg (MkSt (MkBatch (MkDB (MkMem b false) ∅) [] 0) m l o) id.
Proof. split; [done|]. unfold blocks. apply lookup_empty. Qed.

Lemma preprocess_sound_witness :
  ∃ s' res, preprocessOplogs w_cfg w_env (Ok (MkTs 1000 0)) false None [Some w_signed] (w_start w_x) = (s', Ok res) ∧
    res = [set_IsSync false w_signed] ∧ pre_ok w_cfg (w_start w_x) [] (set_IsSync false w_signed).
Proof.
  destruct (preprocessOplogs w_cfg w_env (Ok (MkTs 1000 0)) false None [Some w_signed] (w_start w_x)) as [s' r] eqn:E.
  assert (r = Ok [set_IsSync false w_signed]) as ->.
  { change r with (s', r).2. rewrite <- E. vm_compute. reflexivity. }
  exists s', [set_IsSync false w_signed]. split; [done|]. split; [done|].
  destruct (preprocess_sound _ _ _ _ _ _ _ _ _ (λ id, w_ready ∅ _ _ _ id) E) as (_ & _ & _ & Hpre).
  by apply (Hpre 0).
Defined.

(** [w_x] is stored complete, [w_pend] pending. *)
Definition w_id2 : PttID := replicate SizePttID x02.
Definition w_pend : BaseOplog :=
  MkOplog 2 w_id2 w_signer (MkTs 100 0) None 3 None [] [] ZeroSalt [] [] None (MkTs 100 0) (replicate 32 x03) None
    (o_MasterSigns w_master) [] true false [].
Definition w_after (id : PttID) (pre : PttID) : BaseOplog :=
  MkOplog 2 id w_signer (MkTs 200 0) None 3 (Some pre) [] [] ZeroSalt [] [] None (MkTs 200 0) [] None [] [] false false [].
Definition w_two : St :=
  (Save w_cfg w_env true (set_o (λ _, w_pend) (Save w_cfg w_env true (w_start w_x)).1)).1.

Lemma stale_prelog_accepted_witness :
  check_pre_loop w_cfg w_env [w_after w_id2 w_id2] None ∅ w_two = (w_two, Ok 0) ∧
  check_pre_loop w_cfg w_env [w_after w_id (o_ID w_x); w_after w_id2 w_id2] None ∅ w_two = (w_two, Ok 2).
Proof.
  apply (stale_prelog_accepted w_cfg w_env w_two _ _ (o_ID w_x) w_id2 w_x w_pend).
  - reflexivity.
  - reflexivity.
  - discriminate.
  - split; vm_compute; reflexivity.
  - split; vm_compute; reflexivity.
  - vm_compute. reflexivity.
  - vm_compute. reflexivity.
  - vm_compute. reflexivity.
  - by eexists.
  - vm_compute. reflexivity.
  - reflexivity.
Defined.

Lemma old_oplogs_accepted_witness :
  preprocessOplogs w_cfg w_env (Ok (MkTs 32503680000 0)) false None [Some w_signed] (w_start w_x) =
    (w_start w_x, Ok [set_IsSync false w_signed]).
Proof.
  apply (old_oplogs_accepted w_cfg w_env (w_start w_x) (MkTs 32503680000 0) None ZeroTimestamp [w_signed]); [done|].
  repeat constructor.
Defined.

(** A callback that accepts every oplog. *)
Definition w_process : stm (HSt (S := mem_store) (Info := unit)) (list BaseOplog * option GoErr) := _ ← h_sync; mret ([], None).
Definition w_fresh : BaseOplog := set_IsSync false w_x.

Lemma handleOplog_duplicate_witness :
  let hs := MkH (w_peer w_x w_fresh) () in
  (handleOplog w_cfg w_env w_process hs).2 = Ok (false, []) ∧
  st_b (h_st (handleOplog w_cfg w_env w_process hs).1) = st_b (w_peer w_x w_fresh).
Proof.
  intros hs. pose proof (handleOplog_duplicate w_cfg w_env w_process hs w_x) as Hd. cbv zeta in Hd.
  destruct (handleOplog w_cfg w_env w_process hs) as [s' r]. destruct Hd as (-> & Hb & _); [..|by split].
  - vm_compute. reflexivity.
  - split; vm_compute; reflexivity.
  - vm_compute. reflexivity.
  - reflexivity.
  - reflexivity.
  - reflexivity.
Defined.

Definition w_done : HSt (S := mem_store) (Info := unit) :=
  h_set (set_o (set_IsSync true)) (locked (o_ID w_fresh) (MkH (w_start w_fresh) ())).
Lemma w_processed : processed w_cfg w_process (MkH (w_start w_fresh) ()) [] w_done.
Proof.
  split; [reflexivity|]. split; [reflexivity|]. split; [reflexivity|]. split; [apply w_ready|].
  split; [by left|apply w_apart].
Qed.

Lemma handleOplog_stores_witness :
  let hs := MkH (w_start w_fresh) () in
  (handleOplog w_cfg w_env w_process hs).2 = Ok (true, []) ∧
  stored_oplog w_cfg (h_st (handleOplog w_cfg w_env w_process hs).1) (o_ID w_x) = Ok w_x.
Proof.
  intros hs. pose proof (handleOplog_stores w_cfg w_env w_process hs [] w_done w_config_ok) as Hd. cbv zeta in Hd.
  destruct (w_complete_ok 101 x01 ltac:(lia)) as (V1 & V2 & V3 & V4).
  destruct (handleOplog w_cfg w_env w_process hs) as [s' r].
  edestruct Hd as (-> & Hg & _); [..|exact w_processed|split; [done|exact Hg]].
  - apply lookup_empty.
  - apply w_ready.
  - vm_compute. reflexivity.
  - reflexivity.
  - exact (conj V1 (conj eq_refl (conj eq_refl (conj V3 V4)))).
Defined.

Lemma pending_complete_not_stored_witness :
  let hs := MkH (w_start w_fresh) () in
  let run := handlePendingOplog w_cfg w_env w_process (mret false) (mret tt) (mret (false, [], None)) (Ok ZeroTimestamp) hs in
  run.2 = Ok (true, []) ∧ stored_oplog w_cfg (h_st run.1) (o_ID w_x) = Err LDBErrNotFound.
Proof.
  intros hs run.
  pose proof (pending_complete_not_stored w_cfg w_env w_process (mret false) (mret tt) (mret (false, [], None)) hs
    (Ok ZeroTimestamp) [] w_done) as Hd. cbv zeta in Hd. fold run in Hd.
  destruct run as [s' r]. edestruct Hd as (-> & Hg & _); [..|exact w_processed| |split; [done|exact Hg]].
  - apply lookup_empty.
  - apply w_ready.
  - vm_compute. reflexivity.
  - reflexivity.
  - by eexists.
  - vm_compute. reflexivity.
Defined.
