(* ===== verification/OplogList.v ===== *)
(** * Listing oplogs: [service/oplog_utils.go],
    [service/protocol_manager_utils_oplog.go]

    Complete, pending and internally pending oplogs are stored under three
    prefixes, ordered by time; they are listed by an iterator. *)

From S2P Require Import Prelude GoTime CommonTypes Locks LevelDB PttDB MerkleNode Merkle OplogSign Oplog.

Set Default Goal Selector "!".

Section OplogList.
Context {S : Type} `{LevelDB S, Json, JsonInts, Crypto, !Signing, OplogJson}.
Variable c : OplogDB.
Variable env : nat → locktab → locktab.

Abbreviation M := (stm (St (S := S))).

(** The prefix of the oplogs of a status. *)
Definition status_prefix (status : Status) : outcome bytes :=
  match status with
  | StatusInternalPending => dbPrefixToDBPrefixInternal (dbPrefix c)
  | StatusPending => dbPrefixToDBPrefixMaster (dbPrefix c)
  | _ => Ok (dbPrefix c)
  end.

Definition getOplogIterCore (logID : option PttID) (isLocked : bool) (status : Status) (order : ListOrder) : M Iterator :=
  p ← st_lift (status_prefix status);
  let prefix := Concat [Some p; Some (dbPrefixID c)] in
  match logID with
  | None => s ← st_get; st_lift (NewIteratorWithPrefix (bdb (st_b s)) [] prefix order)
  | Some logID =>
    c' ← st_lift (SetDB (dbPrefixID c) p (dbIdxPrefix c) (dbMerklePrefix c));
    startKey ← oplog_GetKey c' env logID isLocked;
    s ← st_get;
    st_lift (NewIteratorWithPrefix (bdb (st_b s)) startKey prefix order)
  end.

(** The loop: what does not decode is skipped and not counted. *)
Fixpoint collect_oplogs (limit i : Z) (kvs : list (bytes * bytes)) : list BaseOplog :=
  match kvs with
  | [] => []
  | (_, v) :: kvs =>
    if ((0 <? limit) && (limit <=? i))%Z then [] else
    match o_Unmarshal v with
    | None => collect_oplogs limit i kvs
    | Some o => o :: collect_oplogs limit (i + 1) kvs
    end
  end.

Definition GetOplogList (startID : option PttID) (limit : Z) (order : ListOrder) (status : Status) (isLocked : bool) :
    M (list BaseOplog) :=
  it ← getOplogIterCore startID isLocked status order;
  mret (collect_oplogs limit 0 (iter_list order it)).

(** [now] is the clock; [isMyPeer] and [isMasterPeer] are what is known of the
    peer that asks. *)
Definition GetPendingOplogs (now : outcome Timestamp) (isMyPeer isMasterPeer isGetAll : bool) :
    M (list BaseOplog * list BaseOplog) :=
  expireTime ← st_lift now;
  let expireTime := MkTs (i64 (Ts expireTime - ExpireOplogSeconds)) (NanoTs expireTime) in
  pendingLogs ← GetOplogList None 0 ListOrderNext StatusPending false;
  internalPendingLogs ← GetOplogList None 0 ListOrderNext StatusInternalPending false;
  let expired := λ o, IsLess (o_CreateTS o) expireTime in
  let sort := λ ok, foldl (λ '(logs, failedLogs) o,
    if expired o then (logs, failedLogs ++ [o]) else if ok : bool then (logs ++ [o], failedLogs) else (logs, failedLogs)) in
  mret (sort (isMyPeer || isGetAll) (sort (isMasterPeer || isGetAll) ([], []) pendingLogs) internalPendingLogs).

(** One of the three loops of [CleanOplog]: the iterator reads the database as
    it was when it was made. *)
Definition clean_status (status : Status) : M unit :=
  it ← getOplogIterCore None false status ListOrderNext;
  foldr (λ '(key, val) (rest : M unit),
    _ ← match o_Unmarshal val with
        | None => on_batch (λ b, let '(d, e) := Delete (bdb b) key in (MkBatch d (bops b) (bsize b), Ok tt))
        | Some o => _ ← st_mod (set_o (λ _, o)); _ ← st_try (oplog_Delete c env true); mret tt
        end;
    rest) (mret tt) (iter_list ListOrderNext it).

(** An iterator that cannot be made ends the call without an error. *)
Definition CleanOplog : M unit :=
  r ← st_try (_ ← clean_status StatusAlive; _ ← clean_status StatusPending; clean_status StatusInternalPending);
  match r with
  | inr _ => mret tt
  | inl _ => s ← st_get; match st_m s with None => mret tt | Some _ => on_merkle Clean end
  end.

(** ** Listing *)

Implicit Types (s : St (S := S)).

(** The stored records with a prefix, in key order. *)
Definition records s (prefix : bytes) : list (bytes * bytes) :=
  filter (λ p, prefix `prefix_of` p.1) (ldb_range (db (bdb (st_b s))) full_range).
Definition decode_all (kvs : list (bytes * bytes)) : list BaseOplog := omap (λ kv, o_Unmarshal kv.2) kvs.

Lemma collect_all limit i kvs : (limit <= 0)%Z → collect_oplogs limit i kvs = decode_all kvs.
Proof.
  intros Hl. revert i. induction kvs as [|[k v] kvs IH]; intros i; [done|]. cbn [collect_oplogs].
  rewrite (proj2 (Z.ltb_ge 0 limit)) by done. simpl. unfold decode_all; simpl. destruct (o_Unmarshal v); by rewrite IH.
Qed.

Lemma collect_limit limit i kvs :
  (0 <= i <= limit)%Z → (0 < limit)%Z → collect_oplogs limit i kvs = take (Z.to_nat (limit - i)) (decode_all kvs).
Proof.
  intros Hi Hl. revert i Hi. induction kvs as [|[k v] kvs IH]; intros i Hi; [unfold decode_all; simpl; by rewrite take_nil|]. cbn [collect_oplogs].
  rewrite (proj2 (Z.ltb_lt 0 limit)) by done. simpl. destruct (Z.leb_spec limit i) as [Hge|Hlt].
  - replace (limit - i)%Z with 0%Z by lia. done.
  - unfold decode_all; simpl. destruct (o_Unmarshal v) as [o|]; [|by apply IH].
    rewrite (IH (i + 1)%Z) by lia. replace (Z.to_nat (limit - i)) with (Datatypes.S (Z.to_nat (limit - (i + 1)))) by lia. done.
Qed.

Lemma list_prefix_eq p : Concat [Some p; Some (dbPrefixID c)] = p ++ dbPrefixID c.
Proof. rewrite Concat_spec. unfold opt_concat. simpl. by rewrite app_nil_r. Qed.

(** An iterator over a whole prefix. *)
Lemma iter_whole_prefix s prefix order it :
  bhealthy (st_b s) → prefix ≠ [] → prefix_limit prefix ≠ None →
  NewIteratorWithPrefix (bdb (st_b s)) [] prefix order = Ok it →
  iter_list order it = match order with ListOrderNext => records s prefix | ListOrderPrev => reverse (records s prefix) end.
Proof.
  intros Hh Hp Hlim. unfold NewIteratorWithPrefix. destruct prefix as [|b pf] eqn:Ep; [done|]. rewrite <- Ep in *. clear b pf Ep.
  intros [= <-].
  assert (ldb_range (db (bdb (st_b s))) (BytesPrefix prefix) = records s prefix) as Hr.
  { apply range_filter; [done|]. intros q. apply in_range_BytesPrefix. }
  destruct order; cbn [iter_list].
  - destruct (prefix_limit prefix) as [l|] eqn:El; [|done]. rewrite (seek_limit _ _ l), Hr; done.
  - unfold NewIteratorWithRange. by rewrite iter_forward_new.
Qed.

Lemma GetOplogList_eq s limit order status isLocked p :
  bhealthy (st_b s) → status_prefix status = Ok p → p ≠ [] → prefix_limit (p ++ dbPrefixID c) ≠ None →
  GetOplogList None limit order status isLocked s =
    (s, Ok (let l := match order with
                     | ListOrderNext => records s (p ++ dbPrefixID c)
                     | ListOrderPrev => reverse (records s (p ++ dbPrefixID c))
                     end in
            if (0 <? limit)%Z then take (Z.to_nat limit) (decode_all l) else decode_all l)).
Proof.
  intros Hh Hp Hne Hlim. unfold GetOplogList, getOplogIterCore, mbind, stm_bind, st_lift, st_get. rewrite Hp, list_prefix_eq.
  destruct (NewIteratorWithPrefix (bdb (st_b s)) [] (p ++ dbPrefixID c) order) as [it| |] eqn:Ei.
  - unfold mret, stm_ret. do 2 f_equal.
    assert (p ++ dbPrefixID c ≠ []) as Hne' by (by destruct p).
    rewrite (iter_whole_prefix s _ _ _ Hh Hne' Hlim Ei). cbv zeta.
    destruct (Z.ltb_spec 0 limit) as [Hl|Hl]; [|by rewrite collect_all by lia; destruct order].
    rewrite collect_limit by lia. rewrite Z.sub_0_r. by destruct order.
  - exfalso. revert Ei. unfold NewIteratorWithPrefix. by destruct p.
  - exfalso. revert Ei. unfold NewIteratorWithPrefix. by destruct p.
Qed.

(** The loop that sorts oplogs into those to send and those that failed. *)
Lemma sort_loop (expired : BaseOplog → bool) (ok : bool) l logs failed :
  foldl (λ '(logs, failedLogs) o,
    if expired o then (logs, failedLogs ++ [o]) else if ok then (logs ++ [o], failedLogs) else (logs, failedLogs)) (logs, failed) l =
  (logs ++ (if ok then filter (λ o, expired o = false) l else []), failed ++ filter (λ o, expired o = true) l).
Proof.
  revert logs failed. induction l as [|o l IH]; intros logs failed; simpl.
  { by destruct ok; rewrite !app_nil_r. }
  rewrite !filter_cons. destruct (expired o) eqn:E; simpl.
  - rewrite IH. by destruct ok; rewrite <- app_assoc.
  - destruct ok; rewrite IH; by rewrite <- ?app_assoc.
Qed.


(** The prefixes of pending oplogs can be limited. *)
Lemma pending_prefix_ok x p :
  set_prefix_byte (dbPrefix c) x = Ok p → x ≠ xff → p ≠ [] ∧ prefix_limit (p ++ dbPrefixID c) ≠ None.
Proof.
  unfold set_prefix_byte. case_decide as Hd; [|done]. intros [= <-] Hx.
  set (q := <[_ := x]> _).
  assert (q !! (SizeDBKeyPrefix - 1) = Some x) as Hq by (by apply list_lookup_insert_eq).
  split; [by intros E; rewrite E in Hq|]. intros Hl. apply prefix_limit_none in Hl.
  apply Forall_app in Hl as [Hl _]. rewrite Forall_lookup in Hl. specialize (Hl _ _ Hq).
  apply Hx. by destruct x.
Qed.

(** The oplogs [GetPendingOplogs] reports as failed are the stored pending
    ones of both kinds that are older than five minutes; of the others a master
    gets the pending ones, my own nodes the internally pending ones, and who
    asks for all gets both; nothing is changed. *)
Theorem pending_oplogs_partition s now isMyPeer isMasterPeer isGetAll pm pi :
  bhealthy (st_b s) → status_prefix StatusPending = Ok pm → status_prefix StatusInternalPending = Ok pi →
  let pending := decode_all (records s (pm ++ dbPrefixID c)) in
  let internal := decode_all (records s (pi ++ dbPrefixID c)) in
  GetPendingOplogs (Ok now) isMyPeer isMasterPeer isGetAll s =
    (s, Ok ((if isMasterPeer || isGetAll then filter (λ o, is_expired o now = false) pending else []) ++
            (if isMyPeer || isGetAll then filter (λ o, is_expired o now = false) internal else []),
            filter (λ o, is_expired o now = true) (pending ++ internal))).
Proof.
  intros Hh Hpm Hpi pending internal.
  destruct (pending_prefix_ok x6d pm Hpm) as [Hm1 Hm2]; [done|].
  destruct (pending_prefix_ok x69 pi Hpi) as [Hi1 Hi2]; [done|].
  unfold GetPendingOplogs. rewrite st_lift_bind. cbv zeta.
  rewrite (stm_bind_ok _ _ _ _ _ (GetOplogList_eq s 0 ListOrderNext StatusPending false pm Hh Hpm Hm1 Hm2)).
  rewrite (stm_bind_ok _ _ _ _ _ (GetOplogList_eq s 0 ListOrderNext StatusInternalPending false pi Hh Hpi Hi1 Hi2)).
  cbv zeta beta. rewrite Z.ltb_irrefl. rewrite sort_loop, sort_loop. unfold mret, stm_ret.
  rewrite filter_app. done.
Qed.

End OplogList.

(** ** Witness *)

Definition w_with_pending : St := (Save w_cfg w_env true (w_start w_master)).1.
Lemma pending_oplogs_partition_witness :
  GetPendingOplogs w_cfg w_env (Ok (MkTs 1000 0)) false true false w_with_pending = (w_with_pending, Ok ([], [w_master])) ∧
  GetPendingOplogs w_cfg w_env (Ok (MkTs 200 0)) false true false w_with_pending = (w_with_pending, Ok ([w_master], [])).
Proof.
  split.
  - rewrite (pending_oplogs_partition w_cfg w_env w_with_pending (MkTs 1000 0) false true false (w_prefix x6c x6d) (w_prefix x6c x69));
      [|reflexivity..]. apply (f_equal (λ x, (w_with_pending, Ok x))). vm_compute. reflexivity.
  - rewrite (pending_oplogs_partition w_cfg w_env w_with_pending (MkTs 200 0) false true false (w_prefix x6c x6d) (w_prefix x6c x69));
      [|reflexivity..]. apply (f_equal (λ x, (w_with_pending, Ok x))). vm_compute. reflexivity.
Defined.
