(* ===== verification/RaftStorage.v ===== *)
(** * The log of the raft of my nodes: [me/raft_storage.go]

    [RaftStorage] implements etcd's [raft.Storage] on a database: an entry is
    stored under its index, with a hard state and a snapshot beside; the first
    and last index are kept in memory and read off the database at start. *)

From S2P Require Import Prelude CommonTypes LevelDB PttDB.

Set Default Goal Selector "!".
#[local] Open Scope Z_scope.

(** ** Data of etcd's [raftpb] *)

Record Entry := MkEntry { e_Term : Z; e_Index : Z; e_Type : Z; e_Data : bytes }.
Definition zero_Entry : Entry := MkEntry 0 0 0 [].

(** Hard states and configuration states are passed on unread. *)
Class RaftPB := {
  HardState : Type; ConfState : Type;
  zero_HardState : HardState; zero_ConfState : ConfState;
  ent_Marshal : Entry → bytes; ent_Unmarshal : bytes → option Entry;
  hs_Marshal : HardState → bytes; hs_Unmarshal : bytes → option HardState;
  ent_roundtrip e : ent_Unmarshal (ent_Marshal e) = Some e;
  hs_roundtrip h : hs_Unmarshal (hs_Marshal h) = Some h;
}.

Record Snapshot `{RaftPB} := MkSnap { snap_ConfState : ConfState; snap_Index : Z; snap_Term : Z; snap_Data : bytes }.
Definition zero_Snapshot `{RaftPB} : Snapshot := MkSnap _ zero_ConfState 0 0 [].

Class SnapPB `{RaftPB} := {
  snap_Marshal : Snapshot → bytes; snap_Unmarshal : bytes → option Snapshot;
  snap_roundtrip s : snap_Unmarshal (snap_Marshal s) = Some s;
}.

Definition MaxUint64 : Z := 2 ^ 64 - 1.
Definition DBRaftPrefix : bytes := [x2e; x72; x66; x64; x62].
Definition DBKeyRaftHardState : bytes := [x2e; x72; x66; x68; x73].
Definition DBKeyRaftSnapshot : bytes := [x2e; x72; x66; x73; x6e].

Section RaftStorage.
Context {S : Type} `{LevelDB S, RaftPB, !SnapPB}.

(** ** State: the database [dbRaft] and the storage on it.  Every method runs
    under the storage's lock from start to end. *)
Record RaftStorage := MkRS {
  dbRaft : LDBDatabase (S := S);
  lastIdx : Z; firstIdx : Z; hardState : HardState; snapshot : Snapshot; myID : PttID }.

Abbreviation M := (stm RaftStorage).

Definition set_dbRaft (d : LDBDatabase) (rs : RaftStorage) : RaftStorage :=
  MkRS d (lastIdx rs) (firstIdx rs) (hardState rs) (snapshot rs) (myID rs).
Definition set_idx (first last : Z) (rs : RaftStorage) : RaftStorage :=
  MkRS (dbRaft rs) last first (hardState rs) (snapshot rs) (myID rs).
Definition set_hardState (h : HardState) (rs : RaftStorage) : RaftStorage :=
  MkRS (dbRaft rs) (lastIdx rs) (firstIdx rs) h (snapshot rs) (myID rs).
Definition set_snapshot (s : Snapshot) (rs : RaftStorage) : RaftStorage :=
  MkRS (dbRaft rs) (lastIdx rs) (firstIdx rs) (hardState rs) s (myID rs).

(** ** Keys *)

(** [make([]byte, n)] and [copy]s. *)
Definition MarshalKey (rs : RaftStorage) (idx : Z) : bytes :=
  let theBytes := replicate (SizeDBKeyPrefix + SizePttID + 8) x00 in
  let theBytes := go_copy theBytes DBRaftPrefix in
  let theBytes := take SizeDBKeyPrefix theBytes ++ go_copy (drop SizeDBKeyPrefix theBytes) (myID rs) in
  take (SizeDBKeyPrefix + SizePttID) theBytes ++ be_enc 8 idx.
Definition meta_key (rs : RaftStorage) (prefix : bytes) : bytes :=
  let theBytes := go_copy (replicate (SizeDBKeyPrefix + SizePttID) x00) prefix in
  take SizeDBKeyPrefix theBytes ++ go_copy (drop SizeDBKeyPrefix theBytes) (myID rs).
Definition MarshalKeyRaftHardState (rs : RaftStorage) : bytes := meta_key rs DBKeyRaftHardState.
Definition MarshalKeyRaftSnapshot (rs : RaftStorage) : bytes := meta_key rs DBKeyRaftSnapshot.

Definition GetIdxByKey (key : bytes) : outcome Z :=
  b ← slice_from (SizeDBKeyPrefix + SizePttID) key;
  be_uint 8 b.

(** ** The database *)

Definition rs_put (key data : bytes) : M unit := λ rs,
  let '(d, e) := Put (dbRaft rs) key data in
  (set_dbRaft d rs, match e with Some e => Err e | None => Ok tt end).
Definition rs_delete (key : bytes) : M unit := λ rs,
  let '(d, _) := Delete (dbRaft rs) key in (set_dbRaft d rs, Ok tt).
Definition rs_get (rs : RaftStorage) (key : bytes) : outcome bytes :=
  match Get (dbRaft rs) key with inl v => Ok v | inr e => Err e end.
Definition decode {A} (o : option A) : outcome A := match o with Some a => Ok a | None => Err ErrDecode end.

(** The limit is exclusive. *)
Definition GetIter (rs : RaftStorage) (idx : Z) : Iterator :=
  NewIteratorWithRange (dbRaft rs) (MkRange (Some (MarshalKey rs idx)) (Some (MarshalKey rs MaxUint64))) ListOrderNext.
Definition GetPrevIter (rs : RaftStorage) (idx : Z) : Iterator :=
  NewIteratorWithRange (dbRaft rs) (MkRange (Some (MarshalKey rs 0)) (Some (MarshalKey rs idx))) ListOrderPrev.

Definition SaveEntry (ent : Entry) : M unit :=
  rs ← st_get;
  rs_put (MarshalKey rs (e_Index ent)) (ent_Marshal ent).

Definition SetHardState (st : HardState) : M unit :=
  rs ← st_get;
  _ ← rs_put (MarshalKeyRaftHardState rs) (hs_Marshal st);
  st_mod (set_hardState st).

Definition LoadHardState (rs : RaftStorage) : outcome HardState :=
  data ← rs_get rs (MarshalKeyRaftHardState rs);
  decode (hs_Unmarshal data).
Definition LoadSnapshot (rs : RaftStorage) : outcome Snapshot :=
  data ← rs_get rs (MarshalKeyRaftSnapshot rs);
  decode (snap_Unmarshal data).

Definition GetEntry (rs : RaftStorage) (idx : Z) : outcome Entry :=
  data ← rs_get rs (MarshalKey rs idx);
  decode (ent_Unmarshal data).
Definition GetTermByIdx (rs : RaftStorage) (idx : Z) : outcome Z := e ← GetEntry rs idx; Ok (e_Term e).

(** ** The methods of [raft.Storage] *)

Definition InitialState (rs : RaftStorage) : HardState * ConfState := (hardState rs, snap_ConfState (snapshot rs)).
Definition LastIndex (rs : RaftStorage) : Z := lastIdx rs.
Definition FirstIndex (rs : RaftStorage) : Z := firstIdx rs.
Definition Term (rs : RaftStorage) (idx : Z) : outcome Z := GetTermByIdx rs idx.

Fixpoint entries_loop (i endIdx : Z) (kvs : list (bytes * bytes)) (ents : list Entry) : Z * outcome (list Entry) :=
  match kvs with
  | [] => (i, Ok ents)
  | (_, val) :: kvs =>
    if i =? endIdx then (i, Ok ents) else
    match ent_Unmarshal val with
    | None => (i, Err MeErrInvalidEntry)
    | Some ent =>
      if negb (e_Index ent =? i) then (i, Err MeErrInvalidEntry)
      else entries_loop (u64 (i + 1)) endIdx kvs (ents ++ [ent])
    end
  end.

(** [maxSize] is not looked at. *)
Definition Entries (rs : RaftStorage) (startIdx endIdx maxSize : Z) : outcome (list Entry) :=
  if endIdx <=? startIdx then Ok [] else
  let '(i, r) := entries_loop startIdx endIdx (iter_list ListOrderNext (GetIter rs startIdx)) [] in
  ents ← r;
  if negb (i =? endIdx) then Err MeErrInvalidEntry else Ok ents.

(** The capacity [idx-rs.firstIdx+1] of the list of keys has no effect. *)
Definition Compact (idx : Z) : M unit :=
  rs ← st_get;
  if idx =? 0 then mret tt else
  if idx <? firstIdx rs then mret tt else
  if lastIdx rs <? idx then mret tt else
  foldr (λ kv rest, _ ← rs_delete kv.1; rest) (mret tt : M unit) (iter_list ListOrderPrev (GetPrevIter rs (u64 (idx - 1)))).

Definition ApplySnapshot (snap : Snapshot) : M unit :=
  rs ← st_get;
  let rsIndex := snap_Index (snapshot rs) in
  let snapIndex := snap_Index snap in
  if snapIndex <=? rsIndex then st_lift (Err RaftErrSnapOutOfDate) else
  _ ← rs_put (MarshalKeyRaftSnapshot rs) (snap_Marshal snap);
  _ ← st_mod (set_snapshot snap);
  _ ← st_mod (set_idx (u64 (snapIndex + 1)) snapIndex);
  _ ← st_try (Compact snapIndex);
  mret tt.

(** The configuration state given is not used; the index is set before the
    term is known. *)
Definition CreateSnapshot (i : Z) (cs : option ConfState) (data : bytes) : M Snapshot :=
  rs ← st_get;
  if i <=? snap_Index (snapshot rs) then st_lift (Err RaftErrSnapOutOfDate) else
  if lastIdx rs <? i then st_lift (Err MeErrInvalidEntry) else
  let s := snapshot rs in
  _ ← st_mod (set_snapshot (MkSnap _ (snap_ConfState s) i (snap_Term s) (snap_Data s)));
  term ← st_lift (GetTermByIdx rs i);
  let s := MkSnap _ (snap_ConfState s) i term data in
  _ ← st_mod (set_snapshot s);
  mret s.

Fixpoint save_entries (ents : list Entry) : M unit :=
  match ents with
  | [] => mret tt
  | ent :: ents => _ ← SaveEntry ent; save_entries ents
  end.

(** [ents[rsFirstIdx-ents[0].Index:]] panics when there is a gap. *)
Definition Append (ents : list Entry) : M unit :=
  match last ents, head ents with
  | Some lastEnt, Some firstEnt =>
    rs ← st_get;
    if e_Index lastEnt <? firstIdx rs then mret tt else
    ents ← st_lift (if e_Index firstEnt <? firstIdx rs
                    then slice_from (Z.to_nat (u64 (firstIdx rs - e_Index firstEnt))) ents else Ok ents);
    _ ← save_entries ents;
    e ← st_lift (or_panic (last ents));
    st_mod (λ rs, set_idx (firstIdx rs) (e_Index e) rs)
  | _, _ => mret tt
  end.

(** ** Starting *)

Definition CleanRaftStorage : M unit :=
  rs ← st_get;
  foldr (λ kv rest, _ ← rs_delete kv.1; rest) (mret tt : M unit) (iter_list ListOrderNext (GetIter rs 0)).

Definition new_storage (d : LDBDatabase) (id : PttID) : RaftStorage := MkRS d 0 0 zero_HardState zero_Snapshot id.

(** The start of an empty storage; the errors are dropped, and the empty
    snapshot is refused. *)
Definition init_empty : M unit :=
  _ ← st_try (SaveEntry zero_Entry);
  _ ← st_mod (set_idx 1 0);
  _ ← st_try (SetHardState zero_HardState);
  _ ← st_try (ApplySnapshot zero_Snapshot);
  mret tt.

Definition or_zero_value {A} (r : outcome A) (zero : A) : outcome A :=
  match r with Err LDBErrNotFound => Ok zero | r => r end.

Definition start_body : M unit :=
  rs ← st_get;
  match iter_list ListOrderNext (GetIter rs 0) with
  | [] => init_empty
  | (key, _) :: _ =>
    idx ← st_lift (GetIdxByKey key);
    _ ← st_mod (λ rs, set_idx (u64 (idx + 1)) (lastIdx rs) rs);
    match iter_list ListOrderPrev (GetPrevIter rs MaxUint64) with
    | [] => st_lift (Err MeErrInvalidEntry)
    | (key, _) :: _ =>
      idx ← st_lift (GetIdxByKey key);
      _ ← st_mod (λ rs, set_idx (firstIdx rs) idx rs);
      hs ← st_lift (or_zero_value (LoadHardState rs) zero_HardState);
      _ ← st_mod (set_hardState hs);
      snap ← st_lift (or_zero_value (LoadSnapshot rs) zero_Snapshot);
      st_mod (set_snapshot snap)
    end
  end.

Definition NewRaftStorage (d : LDBDatabase) (isClean : bool) (id : PttID) : RaftStorage * outcome unit :=
  (if isClean then _ ← CleanRaftStorage; init_empty else start_body) (new_storage d id).


(** ** Keys: lemmas *)

Implicit Types (rs : RaftStorage).

Definition rview rs : gmap bytes bytes := ldb_view (db (dbRaft rs)).
Definition id_ok rs : Prop := length (myID rs) = SizePttID.

Lemma raft_key_eq rs idx : id_ok rs → MarshalKey rs idx = DBRaftPrefix ++ myID rs ++ be_enc 8 idx.
Proof.
  intros Hid. unfold id_ok in Hid. unfold MarshalKey. cbv zeta.
  assert (go_copy (replicate (SizeDBKeyPrefix + SizePttID + 8) x00) DBRaftPrefix =
          DBRaftPrefix ++ replicate (SizePttID + 8) x00) as -> by done.
  rewrite (take_app_length' DBRaftPrefix _ SizeDBKeyPrefix), (drop_app_length' DBRaftPrefix _ SizeDBKeyPrefix) by done.
  assert (go_copy (replicate (SizePttID + 8) x00) (myID rs) = myID rs ++ replicate 8 x00) as ->.
  { unfold go_copy. rewrite take_ge by (rewrite length_replicate; lia). f_equal. by rewrite Hid. }
  rewrite (app_assoc DBRaftPrefix). rewrite take_app_length' by (rewrite length_app, Hid; done). by rewrite <- app_assoc.
Qed.

Lemma raft_key_compare rs i j :
  id_ok rs → in_u64 i → in_u64 j → bytes_compare (MarshalKey rs i) (MarshalKey rs j) = Z.compare i j.
Proof.
  intros Hid Hi Hj. rewrite !raft_key_eq, !bytes_compare_app by done.
  by apply bytes_compare_be_enc.
Qed.
Lemma raft_key_lt rs i j :
  id_ok rs → in_u64 i → in_u64 j → bytes_lt (MarshalKey rs i) (MarshalKey rs j) ↔ i < j.
Proof. intros. unfold bytes_lt. by rewrite raft_key_compare, Z.compare_lt_iff. Qed.
Lemma raft_key_le rs i j :
  id_ok rs → in_u64 i → in_u64 j → bytes_le (MarshalKey rs i) (MarshalKey rs j) ↔ i <= j.
Proof. intros. unfold bytes_le. rewrite raft_key_compare by done. by rewrite Z.compare_le_iff. Qed.
Lemma raft_key_inj rs i j :
  id_ok rs → in_u64 i → in_u64 j → MarshalKey rs i = MarshalKey rs j → i = j.
Proof.
  intros Hid Hi Hj E. apply Z.compare_eq. rewrite <- (raft_key_compare rs) by done. rewrite E. by apply bytes_compare_eq.
Qed.

Lemma GetIdxByKey_key rs i : id_ok rs → in_u64 i → GetIdxByKey (MarshalKey rs i) = Ok i.
Proof.
  intros Hid Hi. unfold GetIdxByKey. rewrite raft_key_eq, app_assoc by done.
  rewrite slice_from_app by (rewrite length_app, Hid; done). cbn [mbind outcome_bind].
  rewrite <- (app_nil_r (be_enc 8 i)), be_uint_enc_app. by rewrite Z.mod_small.
Qed.

(** ** The log in the database *)

Definition idx_ok (i : Z) : Prop := 0 <= i < MaxUint64.

Lemma idx_ok_u64 i : idx_ok i → in_u64 i.
Proof. unfold idx_ok, in_u64, MaxUint64. lia. Qed.
#[local] Hint Resolve idx_ok_u64 : core.

(** Only entries are stored where the iterators look. *)
Definition only_entries rs : Prop :=
  ∀ k v, rview rs !! k = Some v → in_range k (MkRange (Some (MarshalKey rs 0)) (Some (MarshalKey rs MaxUint64))) →
    ∃ i, idx_ok i ∧ k = MarshalKey rs i.

(** [log] is the dummy entry at [off] and the entries after it. *)
Record rep rs (off : Z) (log : list Entry) : Prop := {
  rep_id : id_ok rs;
  rep_healthy : healthy (db (dbRaft rs));
  rep_off : 0 <= off;
  rep_ne : log ≠ [];
  rep_end : off + Z.of_nat (length log) < MaxUint64;
  rep_first : firstIdx rs = off + 1;
  rep_last : lastIdx rs = off + Z.of_nat (length log) - 1;
  rep_log : ∀ j e, log !! j = Some e →
    rview rs !! MarshalKey rs (off + Z.of_nat j) = Some (ent_Marshal e) ∧ e_Index e = off + Z.of_nat j;
  rep_only : only_entries rs }.

Definition range_of rs (lo hi : Z) : Range := MkRange (Some (MarshalKey rs lo)) (Some (MarshalKey rs hi)).

Lemma in_range_of rs lo hi i :
  id_ok rs → in_u64 lo → in_u64 hi → in_u64 i → in_range (MarshalKey rs i) (range_of rs lo hi) ↔ lo <= i < hi.
Proof. intros Hid Hlo Hhi Hi. unfold in_range, range_of; simpl. by rewrite raft_key_le, raft_key_lt. Qed.

(** What the range of indices holds. *)
Lemma range_of_elem rs lo hi k v :
  id_ok rs → healthy (db (dbRaft rs)) → only_entries rs → in_u64 lo → in_u64 hi →
  (k, v) ∈ ldb_range (db (dbRaft rs)) (range_of rs lo hi) ↔
  ∃ i, lo <= i < hi ∧ k = MarshalKey rs i ∧ rview rs !! k = Some v.
Proof.
  intros Hid Hh Ho Hlo Hhi. rewrite ldb_range_elem by done. split.
  - intros [Hv Hr].
    assert (in_range k (range_of rs 0 MaxUint64)) as Hr0.
    { unfold in_range, range_of in *; simpl in *. destruct Hr as [H1' H2']. split.
      - transitivity (MarshalKey rs lo); [|done]. apply raft_key_le; [done|word|done|word].
      - destruct (decide (hi = MaxUint64)) as [->|]; [done|]. eapply bytes_lt_trans; [exact H2'|].
        apply raft_key_lt; [done|done|unfold MaxUint64; word|unfold MaxUint64 in *; word]. }
    destruct (Ho k v Hv Hr0) as (i & Hi & ->). exists i. split; [|done].
    by apply in_range_of in Hr; auto.
  - intros (i & Hi & -> & Hv). split; [done|]. apply in_range_of; try done. unfold in_u64 in *. lia.
Qed.

(** The first record of a range. *)
Lemma range_of_cons rs lo hi v :
  id_ok rs → healthy (db (dbRaft rs)) → only_entries rs → 0 <= lo < hi → in_u64 hi →
  rview rs !! MarshalKey rs lo = Some v →
  ldb_range (db (dbRaft rs)) (range_of rs lo hi) = (MarshalKey rs lo, v) :: ldb_range (db (dbRaft rs)) (range_of rs (lo + 1) hi).
Proof.
  intros Hid Hh Ho Hlo Hhi Hv.
  assert (in_u64 lo ∧ in_u64 (lo + 1)) as [L1 L2] by (unfold in_u64 in *; lia).
  apply key_sorted_unique; [apply ldb_range_sorted| |].
  - constructor; [apply ldb_range_sorted|]. apply Forall_forall. intros [k w] Hk.
    apply range_of_elem in Hk as (i & Hi & -> & _); [|done..]. unfold key_lt; simpl. apply raft_key_lt; [done..| |lia].
    unfold in_u64 in *. lia.
  - intros [k w]. rewrite elem_of_cons, !range_of_elem by done. split.
    + intros (i & Hi & -> & Hw). destruct (decide (i = lo)) as [->|Hne]; [left; congruence|].
      right. exists i. split; [lia|done].
    + intros [E|(i & Hi & -> & Hw)]; [injection E as -> ->; exists lo; split; [lia|done]|exists i; split; [lia|done]].
Qed.

Lemma iter_list_next rs lo hi :
  iter_list ListOrderNext (NewIteratorWithRange (dbRaft rs) (range_of rs lo hi) ListOrderNext) =
  ldb_range (db (dbRaft rs)) (range_of rs lo hi).
Proof. apply iter_forward_new. Qed.
Lemma iter_list_prev rs lo hi :
  healthy (db (dbRaft rs)) →
  iter_list ListOrderPrev (NewIteratorWithRange (dbRaft rs) (range_of rs lo hi) ListOrderPrev) =
  reverse (ldb_range (db (dbRaft rs)) (range_of rs lo hi)).
Proof. intros Hh. by eapply seek_limit. Qed.

(** ** Reading entries *)

Lemma entries_loop_spec rs off log n i acc :
  rep rs off log → off <= i → i + Z.of_nat n <= off + Z.of_nat (length log) →
  entries_loop i (i + Z.of_nat n) (ldb_range (db (dbRaft rs)) (range_of rs i MaxUint64)) acc =
    (i + Z.of_nat n, Ok (acc ++ take n (drop (Z.to_nat (i - off)) log))).
Proof.
  intros Hrep. pose proof Hrep as [Hid Hh Hoff Hne Hend Hf Hl Hlog Ho]. revert i acc.
  induction n as [|n IH]; intros i acc Hi Hn.
  { rewrite Z.add_0_r, take_0, app_nil_r. destruct (ldb_range _ _) as [|[k v] l]; [done|]. simpl. by rewrite Z.eqb_refl. }
  destruct (lookup_lt_is_Some_2 log (Z.to_nat (i - off))) as [e He]; [lia|].
  destruct (Hlog _ _ He) as [Hv Hidx]. rewrite Z2Nat.id in Hv, Hidx by lia.
  replace (off + (i - off)) with i in Hv, Hidx by lia.
  rewrite (range_of_cons rs i MaxUint64 _ Hid Hh Ho) by (first [exact Hv|unfold MaxUint64 in *; word|lia]).
  cbn [entries_loop]. rewrite (proj2 (Z.eqb_neq _ _)) by lia. rewrite ent_roundtrip, Hidx, Z.eqb_refl. simpl negb. cbv iota.
  rewrite u64_small by (unfold MaxUint64 in *; word).
  replace (i + Z.of_nat (Datatypes.S n)) with (i + 1 + Z.of_nat n) in * by lia. rewrite IH by lia.
  f_equal. f_equal. rewrite <- app_assoc. f_equal. simpl.
  rewrite (drop_S log e (Z.to_nat (i - off)) He). simpl. do 3 f_equal. lia.
Qed.

(** [Entries] of indices in the log is that part of the log. *)
Lemma Entries_spec rs off log lo hi maxSize :
  rep rs off log → off <= lo → lo <= hi → hi <= lastIdx rs + 1 →
  Entries rs lo hi maxSize = Ok (take (Z.to_nat (hi - lo)) (drop (Z.to_nat (lo - off)) log)).
Proof.
  intros Hrep Hlo Hhi Hlast. unfold Entries. destruct (Z.leb_spec hi lo) as [Hle|Hgt].
  { by replace (hi - lo) with 0 by lia. }
  rewrite (rep_last _ _ _ Hrep) in Hlast.
  pose proof (entries_loop_spec rs off log (Z.to_nat (hi - lo)) lo [] Hrep Hlo ltac:(lia)) as E.
  replace (lo + Z.of_nat (Z.to_nat (hi - lo))) with hi in E by lia.
  change (iter_list ListOrderNext (GetIter rs lo)) with
    (iter_list ListOrderNext (NewIteratorWithRange (dbRaft rs) (range_of rs lo MaxUint64) ListOrderNext)).
  rewrite iter_list_next.
  rewrite E. simpl. by rewrite Z.eqb_refl.
Qed.


(** ** Appending *)

Definition contiguous (i : Z) (ents : list Entry) : Prop := ∀ j e, ents !! j = Some e → e_Index e = i + Z.of_nat j.

Lemma contiguous_cons i e ents : contiguous i (e :: ents) ↔ e_Index e = i ∧ contiguous (i + 1) ents.
Proof.
  split.
  - intros Hc. split; [rewrite (Hc 0%nat e eq_refl); lia|]. intros j x Hx. rewrite (Hc (Datatypes.S j) x Hx). lia.
  - intros [He Hc] [|j] x Hx; simpl in Hx; [injection Hx as <-; lia|]. rewrite (Hc j x Hx). lia.
Qed.

Lemma contiguous_drop i ents n : contiguous i ents → contiguous (i + Z.of_nat n) (drop n ents).
Proof. intros Hc j e. rewrite lookup_drop. intros Hx. rewrite (Hc _ _ Hx). lia. Qed.

Lemma contiguous_last i ents e : contiguous i ents → last ents = Some e → e_Index e = i + Z.of_nat (length ents) - 1.
Proof.
  intros Hc. rewrite last_lookup. intros Hx. rewrite (Hc _ _ Hx).
  assert (ents ≠ []) by (by intros ->). destruct ents; [done|]. simpl length. lia.
Qed.

(** Two storages that differ in the database only. *)
Lemma set_dbRaft_set (d d' : LDBDatabase) rs : set_dbRaft d (set_dbRaft d' rs) = set_dbRaft d rs.
Proof. done. Qed.
Lemma MarshalKey_set (d : LDBDatabase) rs i : MarshalKey (set_dbRaft d rs) i = MarshalKey rs i.
Proof. done. Qed.

Lemma rs_put_ok rs key data :
  healthy (db (dbRaft rs)) →
  ∃ d, rs_put key data rs = (set_dbRaft d rs, Ok tt) ∧ healthy (db d) ∧ ldb_view (db d) = <[key := data]> (rview rs).
Proof.
  intros Hh. destruct (ldb_put_ok (db (dbRaft rs)) key data Hh) as (P1 & P2 & P3).
  unfold rs_put, Put. destruct (ldb_put _ _ _) as [x e]. simpl in *. subst e. by eexists.
Qed.

Lemma save_entries_ok rs i ents :
  healthy (db (dbRaft rs)) → id_ok rs → contiguous i ents → 0 <= i → i + Z.of_nat (length ents) <= MaxUint64 →
  ∃ d, save_entries ents rs = (set_dbRaft d rs, Ok tt) ∧ healthy (db d) ∧
    (∀ j e, ents !! j = Some e → ldb_view (db d) !! MarshalKey rs (i + Z.of_nat j) = Some (ent_Marshal e)) ∧
    (∀ k, (∀ j, (j < length ents)%nat → k ≠ MarshalKey rs (i + Z.of_nat j)) → ldb_view (db d) !! k = rview rs !! k).
Proof.
  revert rs i. induction ents as [|ent ents IH]; intros rs i Hh Hid Hc Hi Hb.
  { exists (dbRaft rs). split; [by destruct rs|]. done. }
  apply contiguous_cons in Hc as [He Hc]. simpl length in *.
  destruct (rs_put_ok rs (MarshalKey rs (e_Index ent)) (ent_Marshal ent) Hh) as (d1 & E1 & Hh1 & Hv1).
  destruct (IH (set_dbRaft d1 rs) (i + 1)) as (d2 & E2 & Hh2 & Hin & Hout); [done|done|done|lia|lia|].
  exists d2. split.
  { cbn [save_entries]. rewrite (stm_bind_ok _ _ _ (set_dbRaft d1 rs) tt); [by rewrite E2|exact E1]. }
  split; [done|]. unfold rview in Hout. simpl in Hout. rewrite Hv1 in Hout. rewrite He in *. split.
  - intros [|j] e Hx; simpl in Hx.
    + injection Hx as <-. rewrite Z.add_0_r, Hout, lookup_insert_eq; [done|].
      intros j Hj E. rewrite MarshalKey_set in E.
      apply raft_key_inj in E; [lia|done|unfold MaxUint64 in *; word|unfold MaxUint64 in *; word].
    + specialize (Hin j e Hx). rewrite MarshalKey_set in Hin. by replace (i + Z.of_nat (Datatypes.S j)) with (i + 1 + Z.of_nat j) by lia.
  - intros k Hk. rewrite Hout.
    + rewrite lookup_insert_ne; [done|]. intros <-. apply (Hk 0%nat); [lia|]. by rewrite Z.add_0_r.
    + intros j Hj ->. apply (Hk (Datatypes.S j)); [lia|]. rewrite MarshalKey_set. f_equal. lia.
Qed.

(** A key is one of the entries' or none of theirs. *)
Lemma save_entries_keys (ents : list Entry) i n k rs :
  (∃ m, i + Z.of_nat n <= m < i + Z.of_nat n + Z.of_nat (length (drop n ents)) ∧ k = MarshalKey rs m) ∨
  (∀ j, (j < length (drop n ents))%nat → k ≠ MarshalKey rs (i + Z.of_nat n + Z.of_nat j)).
Proof.
  destruct (decide (k ∈ (λ j : nat, MarshalKey rs (i + Z.of_nat n + Z.of_nat j)) <$> seq 0 (length (drop n ents)))) as [Hin|Hno].
  - left. apply list_elem_of_fmap in Hin as (j & -> & Hj%elem_of_seq). exists (i + Z.of_nat n + Z.of_nat j). split; [lia|done].
  - right. intros j Hj ->. apply Hno. apply list_elem_of_fmap. exists j. split; [done|]. apply elem_of_seq. lia.
Qed.

(** The log that [Append] leaves: entries before the first index are dropped,
    what follows the new ones is cut off. *)
Definition log_append (off : Z) (log : list Entry) (i : Z) (ents : list Entry) : list Entry :=
  let s := Z.max i (off + 1) in
  take (Z.to_nat (s - off)) log ++ drop (Z.to_nat (s - i)) ents.

(** [Append] of entries that end at or after the first index. *)
Lemma Append_run rs off log i ents :
  rep rs off log → ents ≠ [] → contiguous i ents → 0 <= i <= lastIdx rs + 1 → i + Z.of_nat (length ents) < MaxUint64 →
  firstIdx rs < i + Z.of_nat (length ents) →
  ∃ rs', Append ents rs = (rs', Ok tt) ∧ rep rs' off (log_append off log i ents) ∧ myID rs' = myID rs ∧
    hardState rs' = hardState rs ∧ snapshot rs' = snapshot rs ∧
    lastIdx rs' = i + Z.of_nat (length ents) - 1 ∧
    (∀ k, (∀ j, Z.max i (firstIdx rs) <= j < i + Z.of_nat (length ents) → k ≠ MarshalKey rs j) → rview rs' !! k = rview rs !! k).
Proof.
  intros Hrep Hents Hc Hi Hb Hlen. pose proof Hrep as [Hid Hh Hoff Hne Hend Hf Hl Hlog Ho].
  destruct ents as [|e0 ents0] eqn:Ee; [done|]. rewrite <- Ee in *.
  assert (head ents = Some e0) as Hhd by (by rewrite Ee).
  assert (0 < length ents)%nat as Hpos by (rewrite Ee; simpl; lia).
  destruct (last ents) as [eL|] eqn:EL; [|apply last_None in EL; by rewrite EL in Ee].
  pose proof (contiguous_last _ _ _ Hc EL) as HeL.
  assert (e_Index e0 = i) as He0 by (rewrite (Hc 0%nat e0); [lia|by rewrite Ee]). clear Ee ents0.
  set (n := Z.to_nat (Z.max i (firstIdx rs) - i)).
  pose proof (contiguous_drop i ents n Hc) as Hcd.
  assert ((n < length ents)%nat) as Hn by lia.
  destruct (save_entries_ok rs (i + Z.of_nat n) (drop n ents)) as (d & Es & Hhd' & Hin & Hout);
    [done|done|done|lia|rewrite length_drop; lia|].
  assert (i + Z.of_nat n = Z.max i (off + 1)) as Hin0 by lia.
  assert (Hlast : last (drop n ents) = Some eL).
  { rewrite last_lookup, length_drop, lookup_drop. rewrite last_lookup in EL.
    replace (n + Nat.pred (length ents - n))%nat with (Nat.pred (length ents)) by lia. done. }
  exists (set_idx (firstIdx rs) (e_Index eL) (set_dbRaft d rs)). split.
  { unfold Append. rewrite EL, Hhd, st_get_bind, HeL, (proj2 (Z.ltb_ge _ _)) by lia.
    assert ((if e_Index e0 <? firstIdx rs then slice_from (Z.to_nat (u64 (firstIdx rs - e_Index e0))) ents else Ok ents) = Ok (drop n ents)) as ->.
    { rewrite He0. destruct (Z.ltb_spec i (firstIdx rs)).
      - rewrite u64_small by (unfold MaxUint64 in *; word). unfold slice_from. rewrite decide_True by lia. do 2 f_equal. lia.
      - replace n with 0%nat by lia. done. }
    rewrite st_lift_bind, (stm_bind_ok _ _ _ _ _ Es), Hlast. cbn [or_panic]. rewrite st_lift_bind. unfold st_mod. by rewrite HeL. }
  split; [|split; [done|split; [done|split; [done|split; [exact HeL|]]]]].
  2: { intros k Hk. unfold rview at 1; simpl. apply Hout. intros j Hj. rewrite length_drop in Hj. apply Hk. lia. }
  assert (∀ j, off <= j < Z.max i (off + 1) → ldb_view (db d) !! MarshalKey rs j = rview rs !! MarshalKey rs j) as Hold.
  { intros j Hj. apply Hout. intros j' Hj' E. rewrite length_drop in Hj'.
    apply raft_key_inj in E; [lia|done|unfold MaxUint64 in *; word|unfold MaxUint64 in *; word]. }
  unfold log_append. cbv zeta. set (s := Z.max i (off + 1)) in *.
  assert (0 < length log)%nat as Hlpos by (destruct log; [done|simpl; lia]).
  assert (off + 1 <= s ∧ i <= s ∧ s <= off + Z.of_nat (length log)) as (S1 & S2 & S3) by (subst s; lia).
  assert (Z.to_nat (s - i) = n) as -> by (subst s n; lia).
  assert (length (take (Z.to_nat (s - off)) log) = Z.to_nat (s - off)) as Htake by (rewrite length_take; lia).
  constructor; try done.
  - intros E. apply (f_equal length) in E. rewrite length_app, Htake in E. simpl in E. lia.
  - rewrite length_app, length_drop, Htake. lia.
  - simpl. rewrite HeL, length_app, length_drop, Htake. lia.
  - intros j e Hx. unfold rview; simpl.
    change (MarshalKey (set_idx (firstIdx rs) (e_Index eL) (set_dbRaft d rs))) with (MarshalKey rs).
        apply lookup_app_Some in Hx as [Hx|[Hge Hx]].
    + pose proof (lookup_lt_Some _ _ _ Hx) as Hlt. rewrite Htake in Hlt. apply lookup_take_Some in Hx as [Hx _].
      rewrite Hold by lia. by apply Hlog.
    + rewrite Htake in Hge, Hx. split.
      * replace (off + Z.of_nat j) with (i + Z.of_nat n + Z.of_nat (j - Z.to_nat (s - off))) by lia. exact (Hin _ _ Hx).
      * rewrite (Hcd _ _ Hx). lia.
  - intros k v Hv Hr. unfold rview in Hv; simpl in Hv.
    destruct (save_entries_keys ents i n k rs) as [(m & Hm & ->)|Hno].
    + exists m. split; [|done]. rewrite length_drop in Hm. unfold idx_ok. lia.
    + rewrite Hout in Hv by done. destruct (Ho k v Hv Hr) as (m & Hm & ->). by exists m.
Qed.

(** C13: [Append] of consecutive entries that do not leave a gap and end in the
    log or after it replaces the log from their first index on, and [Entries]
    of any indices of the new log returns exactly that part of it. *)
Theorem raft_append_entries rs off log i ents lo hi maxSize :
  rep rs off log → ents ≠ [] → contiguous i ents → 0 <= i <= lastIdx rs + 1 → i + Z.of_nat (length ents) < MaxUint64 →
  firstIdx rs < i + Z.of_nat (length ents) →
  let '(rs', r) := Append ents rs in
  r = Ok tt ∧ rep rs' off (log_append off log i ents) ∧ FirstIndex rs' = FirstIndex rs ∧
  LastIndex rs' = i + Z.of_nat (length ents) - 1 ∧
  (off <= lo → lo <= hi → hi <= LastIndex rs' + 1 →
   Entries rs' lo hi maxSize = Ok (take (Z.to_nat (hi - lo)) (drop (Z.to_nat (lo - off)) (log_append off log i ents)))).
Proof.
  intros Hrep Hne Hc Hi Hb Hlen. destruct (Append_run rs off log i ents Hrep Hne Hc Hi Hb Hlen) as (rs' & -> & Hrep' & _ & _ & _ & Hl & _).
  split; [done|]. split; [done|]. split; [|split; [done|]].
  - unfold FirstIndex. by rewrite (rep_first _ _ _ Hrep'), (rep_first _ _ _ Hrep).
  - by apply Entries_spec.
Qed.

(** ** Starting again *)

(** The indices stored lie between [lo] and [hi], and both are there. *)
Definition span rs (lo hi : Z) : Prop :=
  is_Some (rview rs !! MarshalKey rs lo) ∧ is_Some (rview rs !! MarshalKey rs hi) ∧
  ∀ i v, idx_ok i → rview rs !! MarshalKey rs i = Some v → lo <= i <= hi.

(** Hard state and snapshot are stored as they are in memory. *)
Definition persisted rs : Prop :=
  or_zero_value (LoadHardState rs) zero_HardState = Ok (hardState rs) ∧
  or_zero_value (LoadSnapshot rs) zero_Snapshot = Ok (snapshot rs).

(** First and last record of the whole range. *)
Lemma whole_range rs lo hi :
  id_ok rs → healthy (db (dbRaft rs)) → only_entries rs → idx_ok lo → idx_ok hi → span rs lo hi →
  ∃ v w l l', ldb_range (db (dbRaft rs)) (range_of rs 0 MaxUint64) = (MarshalKey rs lo, v) :: l ∧
              reverse (ldb_range (db (dbRaft rs)) (range_of rs 0 MaxUint64)) = (MarshalKey rs hi, w) :: l'.
Proof.
  intros Hid Hh Ho Hlo Hhi ([v Hv] & [w Hw] & Hall).
  assert (in_u64 0 ∧ in_u64 MaxUint64) as [U0 UM] by (unfold MaxUint64; split; word).
  pose proof (ldb_range_sorted (db (dbRaft rs)) (range_of rs 0 MaxUint64)) as Hsort.
  assert (∀ k x, (k, x) ∈ ldb_range (db (dbRaft rs)) (range_of rs 0 MaxUint64) →
    ∃ i, idx_ok i ∧ lo <= i <= hi ∧ k = MarshalKey rs i) as Hin.
  { intros k x (i & Hi & -> & Hx)%range_of_elem; try done. exists i. split; [exact Hi|]. split; [|done]. by eapply Hall. }
  assert ((MarshalKey rs lo, v) ∈ ldb_range (db (dbRaft rs)) (range_of rs 0 MaxUint64)) as Hlo_in.
  { apply range_of_elem; try done. by exists lo. }
  assert ((MarshalKey rs hi, w) ∈ ldb_range (db (dbRaft rs)) (range_of rs 0 MaxUint64)) as Hhi_in.
  { apply range_of_elem; try done. by exists hi. }
  set (l := ldb_range _ _) in *. clearbody l.
  destruct l as [|[k x] l1]; [by apply not_elem_of_nil in Hlo_in|].
  destruct (reverse ((k, x) :: l1)) as [|[k' x'] l2] eqn:Er.
  { apply (f_equal length) in Er. rewrite length_reverse in Er. done. }
  exists x, x', l1, l2. split.
  - f_equal. f_equal. destruct (Hin k x ltac:(by left)) as (i & Hi & Hb & ->).
    apply elem_of_cons in Hlo_in as [E|Hlo_in]; [congruence|].
    inversion Hsort as [|? ? _ Hf]. rewrite Forall_forall in Hf. specialize (Hf _ Hlo_in).
    unfold key_lt in Hf; simpl in Hf. apply raft_key_lt in Hf; [lia|auto..].
  - f_equal. f_equal.
    assert ((k, x) :: l1 = reverse l2 ++ [(k', x')]) as El by (rewrite <- reverse_cons, <- Er; by rewrite reverse_involutive).
    rewrite El in *. destruct (Hin k' x') as (i & Hi & Hb & ->); [apply elem_of_app; right; by left|].
    apply elem_of_app in Hhi_in as [Hhi_in|E]; [|apply list_elem_of_singleton in E; congruence].
    apply StronglySorted_app in Hsort as (Hs & _ & _). specialize (Hs _ (MarshalKey rs i, x') Hhi_in ltac:(by left)).
    unfold key_lt in Hs; simpl in Hs. apply raft_key_lt in Hs; [lia|auto..].
Qed.

Lemma restart_run rs off log top :
  rep rs off log → idx_ok top → span rs off top → persisted rs →
  NewRaftStorage (dbRaft rs) false (myID rs) = (set_idx (firstIdx rs) top rs, Ok tt).
Proof.
  intros Hrep Htop Hspan [Hhs Hsnap]. pose proof Hrep as [Hid Hh Hoff Hne Hend Hf Hl Hlog Ho].
  assert (idx_ok off) as Hoffok by (unfold idx_ok; lia).
  destruct (whole_range rs off top Hid Hh Ho Hoffok Htop Hspan) as (v & w & l & l' & E1 & E2).
  unfold NewRaftStorage, start_body. rewrite st_get_bind. set (rs0 := new_storage (dbRaft rs) (myID rs)).
  assert (iter_list ListOrderNext (GetIter rs0 0) = (MarshalKey rs off, v) :: l) as ->.
  { rewrite <- E1. apply (iter_list_next rs 0 MaxUint64). }
  rewrite GetIdxByKey_key by auto. rewrite st_lift_bind, st_mod_bind.
  assert (iter_list ListOrderPrev (GetPrevIter rs0 MaxUint64) = (MarshalKey rs top, w) :: l') as ->.
  { rewrite <- E2. by apply (iter_list_prev rs 0 MaxUint64). }
  rewrite GetIdxByKey_key by auto. rewrite st_lift_bind, st_mod_bind.
  change (LoadHardState rs0) with (LoadHardState rs). change (LoadSnapshot rs0) with (LoadSnapshot rs).
  rewrite Hhs, st_lift_bind, st_mod_bind, Hsnap, st_lift_bind. unfold st_mod. f_equal.
  rewrite u64_small by (unfold idx_ok, MaxUint64 in *; word). rewrite <- Hf. by destruct rs.
Qed.

(** A storage whose stored entries are those of its log is the same after a
    start: first and last index, hard state and snapshot come back. *)
Theorem raft_restart rs off log :
  rep rs off log → span rs off (lastIdx rs) → persisted rs → NewRaftStorage (dbRaft rs) false (myID rs) = (rs, Ok tt).
Proof.
  intros Hrep Hspan Hp. pose proof Hrep as [Hid Hh Hoff Hne Hend Hf Hl Hlog Ho].
  rewrite (restart_run rs off log (lastIdx rs)); [by destruct rs|done| |done|done].
  assert (0 < length log)%nat by (destruct log; [done|simpl; lia]). unfold idx_ok. lia.
Qed.

(** The keys of the meta data are no keys of entries. *)
Lemma meta_key_not rs p i : id_ok rs → length p = SizeDBKeyPrefix → p ≠ DBRaftPrefix → meta_key rs p ≠ MarshalKey rs i.
Proof.
  intros Hid Hp Hne E. rewrite raft_key_eq in E by done. unfold meta_key in E. cbv zeta in E.
  apply (f_equal (take SizeDBKeyPrefix)) in E. rewrite (take_app_length' DBRaftPrefix) in E by done.
  rewrite take_app_le, take_take in E.
  - apply Hne. rewrite <- E. unfold go_copy. rewrite take_app_le.
    + rewrite take_take. rewrite take_ge; [done|]. rewrite Hp. done.
    + rewrite length_take, length_replicate, Hp. unfold SizeDBKeyPrefix, SizePttID. lia.
  - rewrite length_take. unfold go_copy. rewrite length_app, length_take, length_drop, length_replicate, Hp.
    unfold SizeDBKeyPrefix, SizePttID. lia.
Qed.

Lemma persisted_same rs rs' :
  id_ok rs → myID rs' = myID rs → hardState rs' = hardState rs → snapshot rs' = snapshot rs →
  healthy (db (dbRaft rs)) → healthy (db (dbRaft rs')) →
  (∀ k, (∀ i, k ≠ MarshalKey rs i) → rview rs' !! k = rview rs !! k) → persisted rs → persisted rs'.
Proof.
  intros Hid Hm Hhs Hsn Hh Hh' Hv [P1 P2]. unfold persisted, LoadHardState, LoadSnapshot, rs_get, Get in *.
  unfold MarshalKeyRaftHardState, MarshalKeyRaftSnapshot, meta_key in *. rewrite Hm, Hhs, Hsn.
  rewrite ldb_get_ok in P1, P2 by done. rewrite !ldb_get_ok by done. unfold rview in Hv.
  rewrite !Hv; [done|intros i; by apply (meta_key_not rs)..].
Qed.

(** [Append] of entries that replace the end of the log by a shorter one
    leaves the old entries behind them in the database: the last index drops
    to that of the new entries, but after a start it is the old one again, and
    the old last entry is read at it. *)
Theorem stale_entries_return rs off log i ents old :
  rep rs off log → span rs off (lastIdx rs) → persisted rs → last log = Some old →
  ents ≠ [] → contiguous i ents → firstIdx rs <= i → i + Z.of_nat (length ents) <= lastIdx rs →
  let rs' := (Append ents rs).1 in
  let rs2 := (NewRaftStorage (dbRaft rs') false (myID rs')).1 in
  LastIndex rs' = i + Z.of_nat (length ents) - 1 ∧ LastIndex rs2 = LastIndex rs ∧
  LastIndex rs' < LastIndex rs2 ∧ GetEntry rs2 (LastIndex rs2) = Ok old.
Proof.
  intros Hrep Hspan Hp Hold Hne Hc Hi Hb. pose proof Hrep as [Hid Hh Hoff Hnel Hend Hf Hl Hlog Ho].
  assert (0 < length log)%nat as Hlpos by (destruct log; [done|simpl; lia]).
  assert (0 < length ents)%nat as Hepos by (destruct ents; [done|simpl; lia]).
  destruct (Append_run rs off log i ents Hrep Hne Hc) as (rs' & -> & Hrep' & Hid' & Hhs & Hsn & Hl' & Hv); [lia..|].
  cbn [fst]. rewrite last_lookup in Hold.
  destruct (Hlog _ _ Hold) as [Hvold Hiold]. replace (off + Z.of_nat (Nat.pred (length log))) with (lastIdx rs) in * by lia.
  assert (idx_ok (lastIdx rs)) as Hlok by (unfold idx_ok; lia).
  assert (∀ j, MarshalKey rs' j = MarshalKey rs j) as Hkey by (intros j; unfold MarshalKey; by rewrite Hid').
  assert (∀ j, idx_ok j → ¬ (i <= j < i + Z.of_nat (length ents)) → rview rs' !! MarshalKey rs j = rview rs !! MarshalKey rs j) as Hout.
  { intros j Hj Hn. apply Hv. intros j' Hj' E. apply raft_key_inj in E; [lia|done|auto|].
    apply idx_ok_u64. unfold idx_ok in *. lia. }
  assert (span rs' off (lastIdx rs)) as Hspan'.
  { destruct Hspan as (Hs1 & Hs2 & Hs3). split; [|split].
    - rewrite Hkey, Hout; [done|unfold idx_ok; lia|lia].
    - rewrite Hkey, Hout; [done|done|lia].
    - intros j v Hj. rewrite Hkey. destruct (decide (i <= j < i + Z.of_nat (length ents))) as [Hin|Hn]; [lia|].
      rewrite Hout by done. by apply Hs3. }
  assert (persisted rs') as Hp'.
  { eapply persisted_same; [exact Hid|done..|apply Hrep'| |done]. intros k Hk. apply Hv. intros j _ . apply Hk. }
  rewrite (restart_run rs' off _ (lastIdx rs) Hrep' Hlok Hspan' Hp'). cbn [fst]. unfold LastIndex. rewrite Hl'. simpl.
  split; [done|]. split; [done|]. split; [lia|].
  unfold GetEntry, rs_get, Get. simpl. rewrite ldb_get_ok by apply Hrep'.
  change (MarshalKey (set_idx (firstIdx rs') (lastIdx rs) rs')) with (MarshalKey rs'). rewrite Hkey.
  change (ldb_view (db (dbRaft rs'))) with (rview rs'). rewrite Hout, Hvold by (done || lia). simpl. by rewrite ent_roundtrip.
Qed.

End RaftStorage.

(** ** Witnesses *)

#[global] Instance Entry_eq_dec : EqDecision Entry.
Proof. solve_decision. Defined.
#[global] Instance Entry_countable : Countable Entry :=
  inj_countable' (λ e, (e_Term e, e_Index e, e_Type e, e_Data e)) (λ '(a, b, c, d), MkEntry a b c d) ltac:(by intros []).

(** Term, vote and commit; the list of nodes. *)
#[global] Instance codec_pb : RaftPB := {|
  HardState := Z * Z * Z; ConfState := list Z; zero_HardState := (0, 0, 0); zero_ConfState := [];
  ent_Marshal := codec_enc; ent_Unmarshal := codec_dec; hs_Marshal := codec_enc; hs_Unmarshal := codec_dec;
  ent_roundtrip := codec_dec_enc; hs_roundtrip := codec_dec_enc |}.
Definition snap_of (x : list Z * Z * Z * bytes) : Snapshot :=
  let '(c, i, t, d) := x in MkSnap codec_pb c i t d.
Lemma snap_codec_roundtrip (s : Snapshot) :
  snap_of <$> codec_dec (codec_enc (snap_ConfState s : list Z, snap_Index s, snap_Term s, snap_Data s)) = Some s.
Proof. destruct s. rewrite (codec_dec_enc (A := list Z * Z * Z * bytes)). done. Qed.
#[global] Instance codec_snap : SnapPB := {|
  snap_Marshal s := codec_enc (snap_ConfState s : list Z, snap_Index s, snap_Term s, snap_Data s);
  snap_Unmarshal b := snap_of <$> codec_dec b;
  snap_roundtrip := snap_codec_roundtrip |}.

Definition w_raft_id : PttID := replicate SizePttID x01.
Definition w_rs0 : RaftStorage (S := mem_store) := (NewRaftStorage (MkDB mem_empty ∅) true w_raft_id).1.
Definition w_ents : list Entry := [MkEntry 1 1 0 [x0a]; MkEntry 1 2 0 [x0b]; MkEntry 1 3 0 [x0c]].
Definition w_rs : RaftStorage := (Append w_ents w_rs0).1.
Definition w_log : list Entry := zero_Entry :: w_ents.

Lemma w_rs_keys :
  map_Forall (λ k _, k ∈ (MarshalKey w_rs <$> [0; 1; 2; 3]) ∨ ¬ in_range k (range_of w_rs 0 MaxUint64)) (rview w_rs).
Proof. refine (bool_decide_eq_true_1 _ _). vm_compute. reflexivity. Qed.

Lemma w_rs_in_range i : idx_ok i → in_range (MarshalKey w_rs i) (range_of w_rs 0 MaxUint64).
Proof. intros Hi. apply in_range_of; [done|unfold MaxUint64; word|unfold MaxUint64; word|by apply idx_ok_u64|exact Hi]. Qed.

Lemma w_rs_rep : rep w_rs 0 w_log.
Proof.
  constructor; try done.
  - intros j e. do 4 (destruct j as [|j]; [intros [= <-]; split; [vm_compute; reflexivity|done]|]). done.
  - intros k v Hv Hr. destruct (w_rs_keys k v Hv) as [Hk|Hk]; [|by destruct Hk].
    apply list_elem_of_fmap in Hk as (i & -> & Hi). exists i. split; [|done].
    unfold idx_ok, MaxUint64. rewrite !elem_of_cons, elem_of_nil in Hi. lia.
Qed.

Lemma w_rs_span : span w_rs 0 3.
Proof.
  split; [by eexists; vm_compute|]. split; [by eexists; vm_compute|]. intros i v Hi Hv.
  destruct (w_rs_keys _ _ Hv) as [Hk|Hk]; [|by destruct Hk; apply w_rs_in_range].
  apply list_elem_of_fmap in Hk as (j & E & Hj). rewrite !elem_of_cons, elem_of_nil in Hj.
  apply raft_key_inj in E; [lia|done|by apply idx_ok_u64|]. unfold in_u64. lia.
Qed.

Lemma w_rs_persisted : persisted w_rs.
Proof. split; vm_compute; reflexivity. Qed.

Lemma raft_append_entries_witness :
  let rs' := (Append [MkEntry 2 2 0 [x0d]] w_rs).1 in
  Entries rs' 1 3 0 = Ok [MkEntry 1 1 0 [x0a]; MkEntry 2 2 0 [x0d]].
Proof.
  pose proof (raft_append_entries w_rs 0 w_log 2 [MkEntry 2 2 0 [x0d]] 1 3 0 w_rs_rep) as H.
  destruct (Append [MkEntry 2 2 0 [x0d]] w_rs) as [rs' r]. destruct H as (_ & _ & _ & HL & HE).
  - done.
  - intros [|[|j]] e Hx; [|done..]. injection Hx as <-. done.
  - split; [lia|]. vm_compute. discriminate.
  - vm_compute. reflexivity.
  - vm_compute. reflexivity.
  - cbn [fst]. rewrite HE; [reflexivity|lia|lia|]. rewrite HL. vm_compute. discriminate.
Defined.

Lemma raft_restart_witness : NewRaftStorage (dbRaft w_rs) false (myID w_rs) = (w_rs, Ok tt).
Proof. exact (raft_restart w_rs 0 w_log w_rs_rep w_rs_span w_rs_persisted). Defined.

Lemma stale_entries_return_witness :
  let rs' := (Append [MkEntry 2 1 0 [x0d]] w_rs).1 in
  let rs2 := (NewRaftStorage (dbRaft rs') false (myID rs')).1 in
  LastIndex rs' = 1 ∧ LastIndex rs2 = 3 ∧ GetEntry rs2 3 = Ok (MkEntry 1 3 0 [x0c]).
Proof.
  destruct (stale_entries_return w_rs 0 w_log 1 [MkEntry 2 1 0 [x0d]] (MkEntry 1 3 0 [x0c]) w_rs_rep w_rs_span w_rs_persisted)
    as (E1 & E2 & _ & E4).
  - reflexivity.
  - done.
  - intros [|[|j]] e Hx; [|done..]. injection Hx as <-. done.
  - vm_compute. discriminate.
  - vm_compute. discriminate.
  - split; [exact E1|]. split; [exact E2|]. rewrite E2 in E4. exact E4.
Defined.
