(* ===== verification/Block.v ===== *)
(** * Content in blocks: [service/block.go], [service/block_info.go],
    [service/block_utils.go], [service/protocol_manager_utils_block.go],
    [service/protocol_sync_block.go]

    Content is cut into blocks, each block is scrambled into two sub-blocks,
    which are signed and stored one by one; the object that owns the content
    keeps a [BlockInfo] with the digests and which sub-blocks it has. *)

From S2P Require Import Prelude GoTime CommonTypes Locks LevelDB PttDB MerkleNode OplogSign.

Set Default Goal Selector "!".

(** ** Data *)

Definition NSubBlock : nat := 2.
Definition NLineInBlock : Z := 20.
Definition NScrambleInBlock : nat := 2.
Definition NByteInBlock : Z := 65535.
Definition CurrentVersion : Z := 2.

(** The serialised fields; the database and its prefix are arguments. *)
Record Block := MkBlock {
  bl_V : Z; bl_ID : option PttID; bl_BlockID : Z; bl_SubBlockID : Z; bl_Buf : bytes; bl_ObjID : option PttID;
  bl_Hash : bytes; bl_Salt : bytes; bl_Sig : bytes; bl_Pub : bytes; bl_KeyExtra : option KeyExtraInfo }.

Definition NewEmptyBlock : Block := MkBlock 0 None 0 0 [] None [] ZeroSalt [] [] None.
Definition NewBlock (blockID subBlockID : Z) (buf : bytes) : Block :=
  MkBlock CurrentVersion None blockID subBlockID buf None [] ZeroSalt [] [] None.

Record ContentBlock := MkContent { cb_BlockID : Z; cb_Buf : list bytes }.

(** [IsGood] is [nil] or a matrix; [NBlock] is an [int]. *)
Record BlockInfo := MkBI {
  bi_V : Z; bi_ID : option PttID; bi_NBlock : Z; bi_Hashs : list (list bytes);
  bi_IsGood : option (list (list bool)); bi_IsAllGood : bool;
  bi_MediaIDs : option (list PttID); bi_UpdaterID : option PttID; bi_objID : option PttID }.

#[global] Instance Block_eq_dec : EqDecision Block.
Proof. solve_decision. Defined.
#[global] Instance BlockInfo_eq_dec : EqDecision BlockInfo.
Proof. solve_decision. Defined.

Definition set_good (b : BlockInfo) (isGood : option (list (list bool))) (isAllGood : bool) : BlockInfo :=
  MkBI (bi_V b) (bi_ID b) (bi_NBlock b) (bi_Hashs b) isGood isAllGood (bi_MediaIDs b) (bi_UpdaterID b) (bi_objID b).

(** ** External code *)

(** The JSON form of a block and of a list of byte slices; JSON text does not
    end in a zero byte. *)
Class BlockJson := {
  bl_Marshal : Block → bytes;
  bl_Unmarshal : bytes → option Block;
  bufs_Marshal : list bytes → bytes;
  bufs_Unmarshal : bytes → option (list bytes);
  bl_roundtrip b : bl_Unmarshal (bl_Marshal b) = Some b;
  bufs_roundtrip l : bufs_Unmarshal (bufs_Marshal l) = Some l;
  bufs_Marshal_end l : ∃ c, last (bufs_Marshal l) = Some c ∧ c ≠ x00;
}.

(** [reedsolomon.New(n, n)]: [Encode] keeps the data shards and fills in the
    parity shards; [Reconstruct] fills in shards of length zero, here when all
    the data shards are missing. *)
Class ReedSolomon := {
  rs_Encode : nat → list bytes → outcome (list bytes);
  rs_Reconstruct : nat → list bytes → outcome (list bytes);
  rs_Encode_ok n data parity k :
    length data = n → length parity = n → 0 < k → 0 < n → Forall (λ s, length s = k) (data ++ parity) →
    ∃ parity', rs_Encode n (data ++ parity) = Ok (data ++ parity') ∧
               length parity' = n ∧ Forall (λ s, length s = k) parity' ∧
               rs_Reconstruct n (replicate n [] ++ parity') = Ok (data ++ parity');
}.

(** ** [BlockInfo]: which sub-blocks are there *)

Open Scope Z_scope.

(** [make] of a negative length panics. *)
Definition go_make {A} (n : Z) (x : A) : outcome (list A) :=
  if n <? 0 then Panic else Ok (replicate (Z.to_nat n) x).

Definition NewBlockInfo (id : option PttID) (hashs : list (list bytes)) (mediaIDs : option (list PttID))
    (updaterID : option PttID) : BlockInfo :=
  MkBI CurrentVersion id (Z.of_nat (length hashs)) hashs
    (Some (replicate (length hashs) (replicate NSubBlock false))) false mediaIDs updaterID None.

Definition InitIsGood (b : BlockInfo) : outcome BlockInfo :=
  isGood ← go_make (bi_NBlock b) (replicate NSubBlock false);
  Ok (set_good b (Some isGood) false).
Definition ResetIsGood (b : BlockInfo) : outcome BlockInfo := InitIsGood b.

Definition at2 {A} (m : list (list A)) (i j : nat) : outcome A := row ← or_panic (m !! i); or_panic (row !! j).
Definition set2 {A} (m : list (list A)) (i j : nat) (v : A) : outcome (list (list A)) :=
  row ← or_panic (m !! i);
  if decide (j < length row)%nat then Ok (<[i := <[j := v]> row]> m) else Panic.

(** The indices of the two nested loops. *)
Definition sub_blocks (n : Z) : list (nat * nat) :=
  concat ((λ i, (λ j, (i, j)) <$> seq 0 NSubBlock) <$> seq 0 (Z.to_nat n)).

Fixpoint all_good_loop (m : list (list bool)) (ps : list (nat * nat)) : outcome bool :=
  match ps with
  | [] => Ok true
  | (i, j) :: ps => g ← at2 m i j; if (g : bool) then all_good_loop m ps else Ok false
  end.

(** Every call may set [IsAllGood]. *)
Definition bi_GetIsAllGood (b : BlockInfo) : outcome (BlockInfo * bool) :=
  if bi_NBlock b =? 0 then Ok (b, true) else
  if bi_IsAllGood b then Ok (b, true) else
  match bi_IsGood b with
  | None => Ok (b, false)
  | Some m =>
    g ← all_good_loop m (sub_blocks (bi_NBlock b));
    Ok (if (g : bool) then (set_good b (Some m) true, true) else (b, false))
  end.

(** [uint32(b.NBlock)] truncates. *)
Definition bi_GetIsGood (b : BlockInfo) (blockID subBlockID : Z) : outcome (BlockInfo * bool) :=
  if u32 (bi_NBlock b) <=? blockID then Ok (b, false) else
  if Z.of_nat NSubBlock <=? subBlockID then Ok (b, false) else
  match bi_IsGood b with
  | None => b ← InitIsGood b; Ok (b, false)
  | Some m =>
    if Z.of_nat (length m) <? bi_NBlock b then b ← InitIsGood b; Ok (b, false) else
    g ← at2 m (Z.to_nat blockID) (Z.to_nat subBlockID); Ok (b, g)
  end.

Definition init_if_nil (b : BlockInfo) : outcome BlockInfo :=
  match bi_IsGood b with None => InitIsGood b | Some _ => Ok b end.
Definition good_matrix (b : BlockInfo) : list (list bool) := default [] (bi_IsGood b).

Definition bi_SetIsGood (b : BlockInfo) (blockID subBlockID : Z) (isGood : bool) : outcome BlockInfo :=
  b ← init_if_nil b;
  m ← set2 (good_matrix b) (Z.to_nat blockID) (Z.to_nat subBlockID) isGood;
  Ok (set_good b (Some m) (bi_IsAllGood b)).

Definition bi_SetIsAllGood (b : BlockInfo) : outcome BlockInfo :=
  b ← init_if_nil b;
  m ← foldl (λ m '(i, j), m ← m; set2 m i j true) (Ok (good_matrix b)) (sub_blocks (bi_NBlock b));
  Ok (set_good b (Some m) true).

(** ** Signing and storing one sub-block *)

Definition bl_SetDB (objID id : option PttID) (b : Block) : Block :=
  MkBlock CurrentVersion id (bl_BlockID b) (bl_SubBlockID b) (bl_Buf b) objID
    (bl_Hash b) (bl_Salt b) (bl_Sig b) (bl_Pub b) (bl_KeyExtra b).
Definition bl_set_sig (b : Block) (hash salt sig pub : bytes) (extra : option KeyExtraInfo) : Block :=
  MkBlock (bl_V b) (bl_ID b) (bl_BlockID b) (bl_SubBlockID b) (bl_Buf b) (bl_ObjID b) hash salt sig pub extra.
(** The block as it is signed. *)
Definition bl_to_sign (b : Block) : Block := bl_set_sig b [] ZeroSalt [] [] None.

Section Block.
Context {S : Type} `{LevelDB S, Json, Crypto, !Signing, BlockJson, ReedSolomon}.

(** [Block.Sign] *)
Definition bl_Sign (b : Block) (key : KeyInfo) (salt : outcome bytes) : Block * KeyInfo * outcome unit :=
  let b := bl_to_sign b in
  let marshaled := bl_Marshal b in
  match SignData marshaled key salt with
  | Ok (bytesWithSalts, hash, sig, pubBytes, key) =>
    (bl_set_sig b hash (go_copy (bl_Salt b) (drop (length marshaled) bytesWithSalts)) sig pubBytes (ki_Extra key),
     key, Ok tt)
  | Err e => (b, key, Err e)
  | Panic => (b, key, Panic)
  end.

(** [Block.Verify]; a [nil] creator is dereferenced. *)
Definition bl_Verify (b : Block) (expectedHash : bytes) (creatorID : option PttID) : outcome unit :=
  creatorID ← or_panic creatorID;
  VerifyData (bl_Marshal (bl_to_sign b) ++ bl_Salt b) expectedHash (bl_Sig b) (bl_Pub b) creatorID (bl_KeyExtra b).

(** [b.ObjID[:]] of a [nil] pointer panics. *)
Definition bl_Prefix (fullDBPrefix : bytes) (objID id : option PttID) : outcome bytes :=
  objID ← or_panic objID;
  Ok (Concat ([Some fullDBPrefix; Some objID] ++ match id with None => [] | Some id => [Some id] end)).
Definition bl_MarshalKey (fullDBPrefix : bytes) (b : Block) : outcome bytes :=
  objID ← or_panic (bl_ObjID b);
  id ← or_panic (bl_ID b);
  Ok (Concat [Some fullDBPrefix; Some objID; Some id; Some (be_enc 4 (bl_BlockID b)); Some [byte_of_Z (bl_SubBlockID b)]]).

(** ** State: the batch of the protocol manager and the locks of its objects *)

Record OSt := MkOS { os_b : LDBBatch (S := S); os_lock : locktab }.
Definition os_set_b (b : LDBBatch) (s : OSt) : OSt := MkOS b (os_lock s).
Definition os_set_lock (l : locktab) (s : OSt) : OSt := MkOS (os_b s) l.
Abbreviation M := (stm OSt).

(** [env] is what other goroutines do to the locks between two attempts. *)
Variable env : nat → locktab → locktab.

(** [if !isLocked { dbLock.Lock(id); defer dbLock.Unlock(id) }] *)
Definition with_obj_lock {A} (isLocked : bool) (id : option PttID) (body : M A) : M A := λ s,
  if isLocked then body s else
  let '(l, e) := Lock env (os_lock s) id in
  match e with
  | Some e => (os_set_lock l s, Err e)
  | None => st_defer (λ s, match Unlock (os_lock s) id with Ok l => os_set_lock l s | _ => s end) body (os_set_lock l s)
  end.

Definition os_on_batch {A} (f : LDBBatch → LDBBatch * outcome A) : M A := λ s,
  let '(b, r) := f (os_b s) in (os_set_b b s, r).
Definition os_put (key value : bytes) : M unit := os_on_batch (λ b,
  let '(d, e) := Put (bdb b) key value in
  (MkBatch d (bops b) (bsize b), match e with Some e => Err e | None => Ok tt end)).
Definition os_delete_keys (ks : list bytes) : M unit := os_on_batch (λ b, (delete_keys b ks, Ok tt)).
Definition os_DeleteAll (idxKey : bytes) : M unit :=
  e ← os_on_batch (λ b, DeleteAll b idxKey);
  match e with Some e => st_lift (Err e) | None => mret tt end.

(** [Block.Save]; every caller has set the database. *)
Definition bl_Save (fullDBPrefix : bytes) (b : Block) : M unit :=
  key ← st_lift (bl_MarshalKey fullDBPrefix b);
  os_put key (bl_Marshal b).

(** [GetIter(ListOrderNext, false)]: the records it visits. *)
Definition bl_iter (fullDBPrefix : bytes) (objID id : option PttID) (s : OSt) : outcome (list (bytes * bytes)) :=
  prefix ← bl_Prefix fullDBPrefix objID id;
  it ← NewIteratorWithPrefix (bdb (os_b s)) [] prefix ListOrderNext;
  Ok (iter_list ListOrderNext it).

Definition bl_RemoveAll (fullDBPrefix : bytes) (objID id : option PttID) : M unit :=
  s ← st_get;
  items ← st_lift (bl_iter fullDBPrefix objID id s);
  os_delete_keys (fst <$> items).

(** ** Many sub-blocks of one [BlockInfo] *)

(** The prefixes the protocol manager sets: of blocks, and of the index of
    media objects. *)
Variable dbBlockPrefix dbMediaIdxPrefix : bytes.

(** [media.SetID(mediaID); media.DeleteAll(false)] *)
Definition media_DeleteAll (mediaID : PttID) : M unit :=
  with_obj_lock false (Some mediaID) (
    _ ← bl_RemoveAll dbBlockPrefix (Some mediaID) None;
    os_DeleteAll (dbMediaIdxPrefix ++ mediaID)).

(** [BlockInfo.Remove]: the errors of the media are dropped. *)
Definition bi_Remove (isLocked : bool) (b : BlockInfo) : M unit :=
  with_obj_lock isLocked (bi_ID b) (
    _ ← bl_RemoveAll dbBlockPrefix (bi_objID b) (bi_ID b);
    match bi_MediaIDs b with
    | None => mret tt
    | Some ids => foldr (λ id rest, _ ← st_try (media_DeleteAll id); rest) (mret tt : M unit) ids
    end).

(** [VerifyBlock] marshals the block with its signature still in it. *)
Definition bi_VerifyBlock (b : BlockInfo) (block : Block) : outcome bool :=
  if bi_NBlock b <=? bl_BlockID block then Ok false else
  if Z.of_nat NSubBlock <=? bl_SubBlockID block then Ok false else
  updaterID ← or_panic (bi_UpdaterID b);
  match VerifyData (bl_Marshal block ++ bl_Salt block) (bl_Hash block) (bl_Sig block) (bl_Pub block) updaterID
          (bl_KeyExtra block) with
  | Ok _ => Ok true
  | Err _ => Ok false
  | Panic => Panic
  end.

(** [make([]*Block, len(blocks))] and [append]: [nil] blocks come first. *)
Definition bi_VerifyBlocks (b : BlockInfo) (blocks : list Block) : outcome (list (option Block) * list (option Block)) :=
  foldl (λ r block, '(good, bad) ← r; isGood ← bi_VerifyBlock b block;
           Ok (if (isGood : bool) then (good ++ [Some block], bad) else (good, bad ++ [Some block])))
    (Ok (replicate (length blocks) None, replicate (length blocks) None)) blocks.

(** [SaveBlocks] returns the receiver with what was set so far. *)
Fixpoint bi_save_loop (b : BlockInfo) (blocks : list Block) : M (BlockInfo * option GoErr) :=
  match blocks with
  | [] => mret (b, None)
  | block :: blocks =>
    g ← st_lift (at2 (good_matrix b) (Z.to_nat (bl_BlockID block)) (Z.to_nat (bl_SubBlockID block)));
    if (g : bool) then bi_save_loop b blocks else
    r ← st_try (bl_Save dbBlockPrefix (bl_SetDB (bi_objID b) (bi_ID b) block));
    match r with
    | inr e => mret (b, Some e)
    | inl _ => b ← st_lift (bi_SetIsGood b (bl_BlockID block) (bl_SubBlockID block) true); bi_save_loop b blocks
    end
  end.
Definition bi_SaveBlocks (isLocked : bool) (blocks : list Block) (b : BlockInfo) : M (BlockInfo * option GoErr) :=
  with_obj_lock isLocked (bi_ID b) (b ← st_lift (init_if_nil b); bi_save_loop b blocks).

(** ** Blocks from a peer *)

(** [blocksToBlocksByIDsByObjs]: two levels of maps, each list in order. *)
Definition blocksToBlocksByIDsByObjs (blocks : list Block) : outcome (gmap bytes (gmap bytes (list Block))) :=
  foldl (λ r block, m ← r; objID ← or_panic (bl_ObjID block); id ← or_panic (bl_ID block);
           let byID := default ∅ (m !! objID) in
           Ok (<[objID := <[id := default [] (byID !! id) ++ [block]]> byID]> m)) (Ok ∅) blocks.

Fixpoint shrinkBlocks (b : BlockInfo) (blocks : list Block) : outcome (BlockInfo * list Block) :=
  match blocks with
  | [] => Ok (b, [])
  | block :: blocks =>
    '(b, g) ← bi_GetIsGood b (bl_BlockID block) (bl_SubBlockID block);
    '(b, newBlocks) ← shrinkBlocks b blocks;
    Ok (b, if (g : bool) then newBlocks else block :: newBlocks)
  end.

(** [blockInfo.Hashs[block.BlockID][block.SubBlockID]] *)
Fixpoint verifyBlocks (blocks : list Block) (b : BlockInfo) (creatorID : option PttID) : outcome unit :=
  match blocks with
  | [] => Ok tt
  | block :: blocks =>
    hash ← at2 (bi_Hashs b) (Z.to_nat (bl_BlockID block)) (Z.to_nat (bl_SubBlockID block));
    _ ← bl_Verify block hash creatorID;
    verifyBlocks blocks b creatorID
  end.

(** A block that cannot be stored is passed over. *)
Fixpoint saveBlocks (blocks : list Block) (b : BlockInfo) (isSet : bool) : M (BlockInfo * bool) :=
  match blocks with
  | [] => mret (b, isSet)
  | block :: blocks =>
    r ← st_try (bl_Save dbBlockPrefix (bl_SetDB (bi_objID b) (bi_ID b) block));
    match r with
    | inr _ => saveBlocks blocks b isSet
    | inl _ =>
      b ← st_lift (bi_SetIsGood b (bl_BlockID block) (bl_SubBlockID block) true);
      saveBlocks blocks b true
    end
  end.

(** What both handlers of blocks do with those for one content. *)
Definition accept_blocks (blocks : list Block) (b : BlockInfo) (creatorID : option PttID) : M (BlockInfo * bool) :=
  '(b, blocks) ← st_lift (shrinkBlocks b blocks);
  if decide (blocks = []) then mret (b, false) else
  _ ← st_lift (verifyBlocks blocks b creatorID);
  saveBlocks blocks b false.

(** ** Scrambling *)

(** [pBytes[:n]; pBytes = pBytes[n:]], [k] times. *)
Fixpoint cut_shards (k n : nat) (pBytes : bytes) : outcome (list bytes) :=
  match k with
  | O => Ok []
  | Datatypes.S k => a ← slice 0 n pBytes; rest ← slice_from n pBytes; l ← cut_shards k n rest; Ok (a :: l)
  end.

Definition ScrambleBuf (buf : list bytes) : outcome (list bytes) :=
  let theBytes := bufs_Marshal buf in
  let r := (length theBytes mod NScrambleInBlock)%nat in
  let theBytes := if decide (r = 0%nat) then theBytes else theBytes ++ replicate (NScrambleInBlock - r) x00 in
  let nBytesInScramble := (length theBytes / NScrambleInBlock)%nat in
  data ← cut_shards NScrambleInBlock nBytesInScramble theBytes;
  newBufs ← rs_Encode NScrambleInBlock (data ++ replicate NScrambleInBlock (replicate nBytesInScramble x00));
  Ok (drop NScrambleInBlock newBufs).

(** The bytes up to the last that is not zero. *)
Fixpoint trim_zeros (rbuf : bytes) : bytes :=
  match rbuf with [] => [] | c :: rest => if decide (c = x00) then trim_zeros rest else rbuf end.
Definition unscrambleBufUnpad (buf : bytes) : bytes := reverse (trim_zeros (reverse buf)).

(** [copy(pBuf[:n], shard); pBuf = pBuf[n:]] *)
Fixpoint join_shards (n : nat) (shards : list bytes) (pBuf : bytes) : outcome bytes :=
  match shards with
  | [] => Ok pBuf
  | s :: shards =>
    a ← slice 0 n pBuf; rest ← slice_from n pBuf; rest ← join_shards n shards rest; Ok (go_copy a s ++ rest)
  end.

Definition UnscrambleBuf (buf : list bytes) : outcome (list bytes) :=
  if decide (length buf ≠ NScrambleInBlock) then Err SvcErrInvalidBlock else
  let nBytesInScramble := length (default [] (head buf)) in
  newBufs ← rs_Reconstruct NScrambleInBlock (replicate NScrambleInBlock [] ++ buf);
  theBuf ← join_shards nBytesInScramble (take NScrambleInBlock newBufs) (replicate (NScrambleInBlock * nBytesInScramble) x00);
  match bufs_Unmarshal (unscrambleBufUnpad theBuf) with None => Err ErrDecode | Some result => Ok result end.

Definition unscrambleContentBlocksToBufs (contentBlocks : list Block) : outcome (list bytes) :=
  if decide (length contentBlocks ≠ NScrambleInBlock) then Err SvcErrInvalidBlock else
  UnscrambleBuf (bl_Buf <$> contentBlocks).

(** ** Splitting *)

(** [MyEntity.SignBlock], on the [n]th sub-block signed. *)
Variable SignBlock : nat → Block → outcome Block.

(** [for subBlockID, scrambledBuf := range scrambledBufs]: the hashes. *)
Fixpoint save_sub_blocks (objID id : option PttID) (blockID : Z) (sub : nat) (bufs : list bytes) : M (list bytes) :=
  match bufs with
  | [] => mret []
  | buf :: bufs =>
    let b := bl_SetDB objID id (NewBlock (u32 blockID) (Z.of_nat sub mod 256) buf) in
    b ← st_lift (SignBlock (Z.to_nat blockID * NScrambleInBlock + sub)%nat b);
    _ ← bl_Save dbBlockPrefix b;
    hashs ← save_sub_blocks objID id blockID (sub + 1) bufs;
    mret (bl_Hash b :: hashs)
  end.

(** The loop of [SplitContentBlocks]; [fuel] bounds its rounds, of which all
    but the first take at least one line. *)
Fixpoint split_content_loop (fuel : nat) (objID id : option PttID) (blockID : Z) (nLineInBlock : Z)
    (currentBuf : list bytes) : M (list (list bytes)) :=
  match fuel, currentBuf with
  | Datatypes.S fuel, _ :: _ =>
    let lenCurrentBuf := MinInt nLineInBlock (Z.of_nat (length currentBuf)) in
    if lenCurrentBuf <? 0 then st_lift Panic else
    let n := Z.to_nat lenCurrentBuf in
    scrambledBufs ← st_lift (ScrambleBuf (take n currentBuf));
    eachHashs ← save_sub_blocks objID id blockID 0 scrambledBufs;
    hashs ← split_content_loop fuel objID id (blockID + 1) NLineInBlock (drop n currentBuf);
    mret (eachHashs :: hashs)
  | _, _ => mret []
  end.

(** [prefix] is [nil] for every caller; [id] is what [types.NewPttID] returns. *)
Definition SplitContentBlocks (id : outcome PttID) (objID : option PttID) (buf : list bytes) (nFirstLineInBlock : Z) :
    M (PttID * list (list bytes)) :=
  id ← st_lift id;
  hashs ← split_content_loop (length buf + 1) objID (Some id) 0 nFirstLineInBlock buf;
  mret (id, hashs).

Fixpoint split_media_loop (fuel : nat) (objID id : option PttID) (blockID : Z) (currentBuf : bytes) :
    M (list (list bytes)) :=
  match fuel, currentBuf with
  | Datatypes.S fuel, _ :: _ =>
    let realLenCurrentBuf := Z.of_nat (length currentBuf) in
    let lenCurrentBuf := if realLenCurrentBuf =? NByteInBlock + 1 then realLenCurrentBuf
                         else MinInt NByteInBlock realLenCurrentBuf in
    let halfLenCurrentBuf := (lenCurrentBuf + 1) / 2 in
    firstHalfBuf ← st_lift (slice 0 (Z.to_nat halfLenCurrentBuf) currentBuf);
    secondHalfBuf ← st_lift (slice (Z.to_nat halfLenCurrentBuf) (Z.to_nat lenCurrentBuf) currentBuf);
    scrambledBufs ← st_lift (ScrambleBuf [firstHalfBuf; secondHalfBuf]);
    eachHashs ← save_sub_blocks objID id blockID 0 scrambledBufs;
    hashs ← split_media_loop fuel objID id (blockID + 1) (drop (Z.to_nat lenCurrentBuf) currentBuf);
    mret (eachHashs :: hashs)
  | _, _ => mret []
  end.

Definition SplitMediaBlocks (id : outcome PttID) (objID : option PttID) (buf : bytes) : M (PttID * list (list bytes)) :=
  id ← st_lift id;
  hashs ← split_media_loop (length buf) objID (Some id) 0 buf;
  mret (id, hashs).

(** ** Reading content back *)

(** What both lists start with: the limit, and the records. *)
Definition block_limit (b : BlockInfo) (limit : Z) : Z :=
  let n := u32 (bi_NBlock b) in
  let limit := if limit =? 0 then n else limit in
  if n <? limit then n else limit.

Fixpoint block_list_loop (limit : Z) (vs : list bytes) : list Block :=
  match vs with
  | [] => []
  | v :: vs =>
    match bl_Unmarshal v with
    | None => block_list_loop limit vs
    | Some each => if limit <=? bl_BlockID each then [] else each :: block_list_loop limit vs
    end
  end.

(** The receiver with [IsAllGood] kept, and the result. *)
Definition GetBlockList (b : BlockInfo) (limit : Z) (s : OSt) : outcome (BlockInfo * list Block) :=
  '(b, g) ← bi_GetIsAllGood b;
  if negb g then Err SvcErrInvalidBlock else
  items ← bl_iter dbBlockPrefix (bi_objID b) (bi_ID b) s;
  Ok (b, block_list_loop (block_limit b limit) (snd <$> items)).

Fixpoint content_loop (limit : Z) (vs : list bytes) (bufs : list (list bytes)) : outcome (list (list bytes)) :=
  match vs with
  | [] => Ok bufs
  | v :: vs =>
    match bl_Unmarshal v with
    | None => content_loop limit vs bufs
    | Some each =>
      if limit <=? bl_BlockID each then Ok bufs else
      bufs ← set2 bufs (Z.to_nat (bl_BlockID each)) (Z.to_nat (bl_SubBlockID each)) (bl_Buf each);
      content_loop limit vs bufs
    end
  end.

(** [UnscrambleBuf] of each; its errors become [ErrInvalidBlock]. *)
Fixpoint unscramble_all (bufs : list (list bytes)) : outcome (list (list bytes)) :=
  match bufs with
  | [] => Ok []
  | buf :: bufs =>
    match UnscrambleBuf buf with
    | Ok u => l ← unscramble_all bufs; Ok (u :: l)
    | Err _ => Err SvcErrInvalidBlock
    | Panic => Panic
    end
  end.

(** A [nil] buffer, which decoding leaves for an empty one, is missing. *)
Definition GetContentBlockList (b : BlockInfo) (limit : Z) (s : OSt) : outcome (BlockInfo * list ContentBlock) :=
  '(b, g) ← bi_GetIsAllGood b;
  if negb g then Err SvcErrInvalidBlock else
  items ← bl_iter dbBlockPrefix (bi_objID b) (bi_ID b) s;
  let limit := block_limit b limit in
  bufs ← content_loop limit (snd <$> items) (replicate (Z.to_nat limit) (replicate NSubBlock []));
  if existsb (existsb (λ buf, bool_decide (buf = []))) bufs then Err SvcErrInvalidBlock else
  unscrambled ← unscramble_all bufs;
  Ok (b, imap (λ i buf, MkContent (u32 (Z.of_nat i)) buf) unscrambled).

(** [Media.GetBuf]; [make] with a length and [append] leave [nil] slices first,
    which [Concat] skips. *)
Definition media_GetBuf (blockInfo : option BlockInfo) (mediaID : option PttID) (s : OSt) : outcome bytes :=
  match blockInfo with
  | None => Err SvcErrInvalidBlock
  | Some b =>
    if negb (bi_IsAllGood b) then Err SvcErrInvalidBlock else
    let b := MkBI CurrentVersion (bi_ID b) (bi_NBlock b) (bi_Hashs b) (bi_IsGood b) (bi_IsAllGood b) (bi_MediaIDs b)
               (bi_UpdaterID b) mediaID in
    '(_, contentBlocks) ← GetContentBlockList b 0 s;
    pad ← go_make (bi_NBlock b * Z.of_nat NScrambleInBlock) None;
    Ok (Concat (pad ++ concat ((λ cb, Some <$> cb_Buf cb) <$> contentBlocks)))
  end.

(** ** Scrambling: lemmas *)

Open Scope nat_scope.
Set Default Proof Using "Type".

Lemma trim_zeros_replicate n rest : trim_zeros (replicate n x00 ++ rest) = trim_zeros rest.
Proof. by induction n as [|n IH]. Qed.

(** Removing the padding gives the bytes back that do not end in zero. *)
Lemma unpad_pad m n c : last m = Some c → c ≠ x00 → unscrambleBufUnpad (m ++ replicate n x00) = m.
Proof.
  intros Hl Hc. unfold unscrambleBufUnpad. rewrite reverse_app, reverse_replicate, trim_zeros_replicate.
  destruct (last_Some m c) as [Hm _]. destruct (Hm Hl) as [m' ->]. rewrite reverse_snoc. simpl.
  rewrite decide_False by done. by rewrite <- reverse_snoc, reverse_involutive.
Qed.

Lemma slice_ok {A} i j (s : list A) : i ≤ j → j ≤ length s → slice i j s = Ok (take (j - i) (drop i s)).
Proof. intros. unfold slice. by rewrite decide_True. Qed.
Lemma slice_from_ok {A} i (s : list A) : i ≤ length s → slice_from i s = Ok (drop i s).
Proof. intros. unfold slice_from. by rewrite decide_True. Qed.

Lemma cut_two n p : length p = 2 * n → cut_shards 2 n p = Ok [take n p; drop n p].
Proof.
  intros Hl. cbn [cut_shards]. rewrite (slice_ok 0 n p), (slice_from_ok n p) by lia. cbn [mbind outcome_bind].
  rewrite (slice_ok 0 n (drop n p)), (slice_from_ok n (drop n p)) by (rewrite ?length_drop; lia).
  cbn [mbind outcome_bind]. rewrite Nat.sub_0_r, !drop_0, (take_ge (drop n p)) by (rewrite length_drop; lia). done.
Qed.

Lemma join_two n a b : length a = n → length b = n → join_shards n [a; b] (replicate (2 * n) x00) = Ok (a ++ b).
Proof.
  intros Ha Hb. cbn [join_shards].
  set (z := replicate (2 * n) x00). assert (length z = 2 * n) as Hz by apply length_replicate. clearbody z.
  rewrite (slice_ok 0 n z), (slice_from_ok n z) by lia. cbn [mbind outcome_bind].
  rewrite (slice_ok 0 n (drop n z)), (slice_from_ok n (drop n z)) by (rewrite ?length_drop; lia).
  cbn [mbind outcome_bind]. rewrite Nat.sub_0_r, !drop_0.
  rewrite !go_copy_full by (rewrite ?length_take, ?length_drop; lia).
  rewrite (drop_ge (drop n z)) by (rewrite length_drop; lia). by rewrite app_nil_r.
Qed.

(** What [UnscrambleBuf] needs of two sub-blocks to give [buf] back. *)
Definition scrambles (buf sh : list bytes) : Prop :=
  length sh = NSubBlock ∧ Forall (.≠ []) sh ∧ UnscrambleBuf sh = Ok buf.

Lemma ScrambleBuf_ok buf : ∃ sh, ScrambleBuf buf = Ok sh ∧ scrambles buf sh.
Proof.
  unfold ScrambleBuf, scrambles. cbv zeta. set (m := bufs_Marshal buf). destruct (bufs_Marshal_end buf) as (c & Hc & Hc0).
  fold m in Hc. set (r := length m mod NScrambleInBlock).
  assert (∃ z n, (if decide (r = 0) then m else m ++ replicate (NScrambleInBlock - r) x00) = m ++ replicate z x00 ∧
                 length (m ++ replicate z x00) = 2 * n) as (z & n & -> & Hn).
  { pose proof (Nat.div_mod_eq (length m) 2) as Hd. pose proof (Nat.mod_upper_bound (length m) 2 ltac:(lia)) as Hu.
    change NScrambleInBlock with 2 in *. fold r in Hd, Hu. case_decide as Hr.
    - exists 0, (length m / 2). rewrite app_nil_r. split; [done|lia].
    - exists 1, (length m / 2 + 1). assert (r = 1) as Hr1 by lia. rewrite Hr1. split; [done|]. rewrite length_app, length_replicate. lia. }
  set (p := m ++ replicate z x00) in *.
  assert (0 < length m) as Hmpos by (destruct m; [done|simpl; lia]).
  assert (0 < n) as Hnpos by (unfold p in Hn; rewrite length_app in Hn; lia).
  assert (length p / NScrambleInBlock = n) as Hdiv.
  { rewrite Hn. change NScrambleInBlock with 2. rewrite Nat.mul_comm. by apply Nat.div_mul. }
  rewrite Hdiv. rewrite cut_two by done. cbn [mbind outcome_bind].
  destruct (rs_Encode_ok NScrambleInBlock [take n p; drop n p] (replicate NScrambleInBlock (replicate n x00)) n)
    as (parity & Henc & Hlp & Hf & Hrec); [done|done|done|unfold NScrambleInBlock; lia| |].
  { repeat constructor; rewrite ?length_take, ?length_drop, ?length_replicate; lia. }
  rewrite Henc. cbn [mbind outcome_bind]. exists parity. split; [done|]. split_and!.
  - done.
  - eapply Forall_impl; [exact Hf|]. intros s Hs ->. simpl in Hs. lia.
  - unfold UnscrambleBuf. rewrite decide_False by (rewrite Hlp; by intros []).
    assert (length (default [] (head parity)) = n) as ->.
    { destruct parity as [|s parity]; [done|]. simpl. by apply Forall_inv in Hf. }
    cbv zeta. rewrite Hrec. cbn [mbind outcome_bind].
    change (take NScrambleInBlock ([take n p; drop n p] ++ parity)) with [take n p; drop n p].
    change (NScrambleInBlock * n) with (2 * n).
    rewrite join_two by (rewrite ?length_take, ?length_drop; lia). cbn [mbind outcome_bind].
    rewrite take_drop. unfold p, m. rewrite (unpad_pad _ _ c) by done. by rewrite bufs_roundtrip.
Qed.

(** ** Storing: lemmas *)

Definition os_view (s : OSt) : gmap bytes bytes := ldb_view (db (bdb (os_b s))).
Definition os_healthy (s : OSt) : Prop := healthy (db (bdb (os_b s))).

(** [s'] is [s] with the contents [m]. *)
Definition os_with (s s' : OSt) (m : gmap bytes bytes) : Prop :=
  os_healthy s' ∧ os_view s' = m ∧ os_lock s' = os_lock s ∧ lockMap (bdb (os_b s')) = lockMap (bdb (os_b s)).

Lemma os_put_ok key v s : os_healthy s → ∃ s', os_put key v s = (s', Ok tt) ∧ os_with s s' (<[key := v]> (os_view s)).
Proof.
  intros Hh. unfold os_put, os_on_batch, Put.
  pose proof (ldb_put_ok (db (bdb (os_b s))) key v Hh) as (He & Hf & Hv).
  destruct (ldb_put (db (bdb (os_b s))) key v) as [d e]. simpl in *. rewrite He. eexists. split; [done|].
  split_and!; done.
Qed.

Definition bl_key (objID id : PttID) (i j : nat) : bytes :=
  dbBlockPrefix ++ objID ++ id ++ be_enc 4 (Z.of_nat i) ++ [byte_of_Z (Z.of_nat j)].

(** Sub-block [j] of block [i]. *)
Record sub_ok (objID id : PttID) (i j : nat) (b : Block) : Prop := {
  sub_obj : bl_ObjID b = Some objID; sub_id : bl_ID b = Some id;
  sub_block : bl_BlockID b = Z.of_nat i; sub_sub : bl_SubBlockID b = Z.of_nat j; sub_V : bl_V b = CurrentVersion }.

Lemma bl_MarshalKey_eq objID id i j b :
  sub_ok objID id i j b → bl_MarshalKey dbBlockPrefix b = Ok (bl_key objID id i j).
Proof.
  intros [Ho Hi Hb Hs _]. unfold bl_MarshalKey. rewrite Ho, Hi, Hb, Hs. cbn [mbind outcome_bind or_panic].
  rewrite Concat_spec. done.
Qed.

Lemma bl_key_compare objID id i j i' j' :
  (Z.of_nat i < 2 ^ 32)%Z → (Z.of_nat i' < 2 ^ 32)%Z → j < 256 → j' < 256 →
  bytes_compare (bl_key objID id i j) (bl_key objID id i' j') =
    match Nat.compare i i' with Eq => Nat.compare j j' | c => c end.
Proof.
  intros Hi Hi' Hj Hj'. unfold bl_key. rewrite !bytes_compare_app.
  rewrite bytes_compare_app_same_len by (by rewrite !be_enc_length).
  rewrite bytes_compare_be_enc by (change (256 ^ Z.of_nat 4)%Z with (2 ^ 32)%Z; lia).
  rewrite (Nat2Z.inj_compare i i'). destruct (Nat.compare i i'); [|done..].
  simpl. rewrite !byteZ_of_Z, !Z.mod_small, (Nat2Z.inj_compare j j') by lia. by destruct (Nat.compare j j').
Qed.

Lemma bl_key_lt objID id i j i' j' :
  (Z.of_nat i < 2 ^ 32)%Z → (Z.of_nat i' < 2 ^ 32)%Z → j < 256 → j' < 256 → i < i' ∨ i = i' ∧ j < j' →
  bytes_lt (bl_key objID id i j) (bl_key objID id i' j').
Proof.
  intros ? ? ? ? Hlt. unfold bytes_lt. rewrite bl_key_compare by done. destruct Hlt as [Hlt|[-> Hlt]].
  - by rewrite (proj2 (Nat.compare_lt_iff _ _) Hlt).
  - rewrite Nat.compare_refl. by apply Nat.compare_lt_iff.
Qed.

(** The key a block is stored under, where it has one. *)
Definition key_of_block (b : Block) : bytes :=
  match bl_MarshalKey dbBlockPrefix b with Ok k => k | _ => [] end.
Definition block_rec (b : Block) : bytes * bytes := (key_of_block b, bl_Marshal b).
Definition put_blocks (bs : list Block) (m : gmap bytes bytes) : gmap bytes bytes :=
  foldl (λ m b, <[key_of_block b := bl_Marshal b]> m) m bs.

Lemma key_of_block_eq objID id i j b : sub_ok objID id i j b → key_of_block b = bl_key objID id i j.
Proof. intros Hs. unfold key_of_block. by rewrite (bl_MarshalKey_eq objID id i j b). Qed.

Lemma bl_Save_ok objID id i j b s :
  os_healthy s → sub_ok objID id i j b →
  ∃ s', bl_Save dbBlockPrefix b s = (s', Ok tt) ∧ os_with s s' (put_blocks [b] (os_view s)).
Proof.
  intros Hh Hs. unfold bl_Save. rewrite (bl_MarshalKey_eq objID id i j b Hs), st_lift_bind.
  simpl. rewrite (key_of_block_eq objID id i j b Hs). by apply os_put_ok.
Qed.

Lemma os_with_trans s s1 s2 m : os_with s s1 (os_view s1) → os_with s1 s2 m → os_with s s2 m.
Proof. intros (_ & _ & E1 & E2) (H1' & H2' & E3 & E4). split_and!; congruence. Qed.

(** ** The sub-blocks of a content *)

(** [creatorID] accepts the block. *)
Definition signed_by (creatorID : option PttID) (b : Block) : Prop := bl_Verify b (bl_Hash b) creatorID = Ok tt.

Fixpoint row_ok (me : option PttID) (objID id : PttID) (i sub : nat) (row : list Block) (bufs : list bytes) : Prop :=
  match row, bufs with
  | [], [] => True
  | b :: row, buf :: bufs =>
    sub_ok objID id i sub b ∧ bl_Buf b = buf ∧ signed_by me b ∧ row_ok me objID id i (sub + 1) row bufs
  | _, _ => False
  end.

Fixpoint grid_ok (me : option PttID) (objID id : PttID) (i : nat) (rows : list (list Block)) (chunks : list (list bytes)) : Prop :=
  match rows, chunks with
  | [], [] => True
  | row :: rows, chunk :: chunks =>
    (∃ sh, scrambles chunk sh ∧ row_ok me objID id i 0 row sh) ∧ grid_ok me objID id (i + 1) rows chunks
  | _, _ => False
  end.

(** [SignBlock] fills in the signature of [me]. *)
Definition signs_blocks (me : option PttID) : Prop :=
  ∀ n b, ∃ b', SignBlock n b = Ok b' ∧ bl_to_sign b' = bl_to_sign b ∧ signed_by me b'.

Lemma to_sign_fields b b' : bl_to_sign b' = bl_to_sign b →
  bl_ID b' = bl_ID b ∧ bl_BlockID b' = bl_BlockID b ∧ bl_SubBlockID b' = bl_SubBlockID b ∧
  bl_Buf b' = bl_Buf b ∧ bl_ObjID b' = bl_ObjID b ∧ bl_V b' = bl_V b.
Proof. destruct b, b'. unfold bl_to_sign, bl_set_sig. simpl. intros [= -> -> -> -> -> ->]. done. Qed.

Lemma save_sub_blocks_ok me objID id i bufs sub s :
  signs_blocks me → os_healthy s → (Z.of_nat i < 2 ^ 32)%Z → sub + length bufs ≤ 256 →
  ∃ s' row, save_sub_blocks (Some objID) (Some id) (Z.of_nat i) sub bufs s = (s', Ok (bl_Hash <$> row)) ∧
    os_with s s' (put_blocks row (os_view s)) ∧ row_ok me objID id i sub row bufs.
Proof.
  intros Hsig. revert sub s. induction bufs as [|buf bufs IH]; intros sub s Hh Hi Hl.
  { exists s, []. split_and!; done. }
  cbn [save_sub_blocks]. cbv zeta. set (b := bl_SetDB _ _ _).
  destruct (Hsig (Z.to_nat (Z.of_nat i) * NScrambleInBlock + sub) b) as (b' & -> & Hts & Hv). rewrite st_lift_bind.
  apply to_sign_fields in Hts as (F1 & F2 & F3 & F4 & F5 & F6).
  assert (sub_ok objID id i sub b') as Hsub.
  { subst b. split; [by rewrite F5|by rewrite F1|rewrite F2; simpl; by rewrite u32_small by (unfold in_u32; lia)| |by rewrite F6].
    rewrite F3. simpl length in Hl. simpl. by rewrite Z.mod_small by lia. }
  destruct (bl_Save_ok objID id i sub b' s Hh Hsub) as (s1 & E1 & W1). rewrite (stm_bind_ok _ _ _ _ _ E1).
  destruct (IH (sub + 1) s1) as (s2 & row & E2 & W2 & Hrow); [apply W1|done|simpl in Hl; lia|].
  rewrite (stm_bind_ok _ _ _ _ _ E2). exists s2, (b' :: row). split; [done|]. split.
  - destruct W1 as (W11 & W12 & W13 & W14). simpl in *. rewrite W12 in W2. destruct W2 as (?&?&?&?). split_and!; congruence.
  - cbn [row_ok]. split_and!; [done|by rewrite F4|done|done].
Qed.

Lemma os_with_put s s1 s2 (bs bs' : list Block) :
  os_with s s1 (put_blocks bs (os_view s)) → os_with s1 s2 (put_blocks bs' (os_view s1)) →
  os_with s s2 (put_blocks (bs ++ bs') (os_view s)).
Proof.
  intros (_ & V1 & L1 & K1) (H2' & V2 & L2 & K2). unfold put_blocks in *. rewrite foldl_app, <- V1.
  split_and!; congruence.
Qed.

(** One round of either splitting loop. *)
Lemma split_round me objID id i chunk s :
  signs_blocks me → os_healthy s → (Z.of_nat i < 2 ^ 32)%Z →
  ∃ sh s1 row, ScrambleBuf chunk = Ok sh ∧
    save_sub_blocks (Some objID) (Some id) (Z.of_nat i) 0 sh s = (s1, Ok (bl_Hash <$> row)) ∧
    os_with s s1 (put_blocks row (os_view s)) ∧ scrambles chunk sh ∧ row_ok me objID id i 0 row sh.
Proof.
  intros Hsig Hh Hi. destruct (ScrambleBuf_ok chunk) as (sh & E & Hsc).
  destruct (save_sub_blocks_ok me objID id i sh 0 s Hsig Hh Hi) as (s1 & row & Es & Hw & Hrow).
  { destruct Hsc as (-> & _). unfold NSubBlock. lia. }
  by exists sh, s1, row.
Qed.

Definition hashes_of (rows : list (list Block)) : list (list bytes) :=
  map (map bl_Hash) rows.

Lemma split_content_loop_ok me objID id fuel i n buf s :
  signs_blocks me → os_healthy s → (0 ≤ n)%Z →
  length buf + (if decide (n = 0)%Z then 1 else 0) ≤ fuel → (Z.of_nat i + Z.of_nat fuel < 2 ^ 32)%Z →
  ∃ s' rows chunks,
    split_content_loop fuel (Some objID) (Some id) (Z.of_nat i) n buf s = (s', Ok (hashes_of rows)) ∧
    os_with s s' (put_blocks (concat rows) (os_view s)) ∧ grid_ok me objID id i rows chunks ∧
    concat chunks = buf ∧ length chunks ≤ fuel ∧
    (∀ k chunk, chunks !! k = Some chunk →
       length chunk ≤ (if decide (k = 0) then Z.to_nat n else Z.to_nat NLineInBlock)).
Proof.
  intros Hsig. revert i n buf s. induction fuel as [|fuel IH]; intros i n buf s Hh Hn Hf Hi.
  { exists s, [], []. destruct buf; [|simpl in Hf; lia]. split_and!; done. }
  destruct buf as [|x buf]; [exists s, [], []; split_and!; try done; simpl; lia|].
  cbn [split_content_loop]. cbv zeta. set (full := x :: buf) in *.
  assert (MinInt n (Z.of_nat (length full)) = Z.min n (Z.of_nat (length full))) as ->.
  { unfold MinInt. destruct (Z.ltb_spec n (Z.of_nat (length full))); lia. }
  set (k := Z.min n (Z.of_nat (length full))). destruct (Z.ltb_spec k 0) as [Hk|Hk]; [lia|].
  destruct (split_round me objID id i (take (Z.to_nat k) full) s Hsig Hh) as (sh & s1 & row & Es & E1 & W1 & Hsc & Hrow); [lia|].
  rewrite Es, st_lift_bind, (stm_bind_ok _ _ _ _ _ E1).
  replace (Z.of_nat i + 1)%Z with (Z.of_nat (i + 1)) by lia.
  destruct (IH (i + 1) NLineInBlock (drop (Z.to_nat k) full) s1) as (s2 & rows & chunks & E2 & W2 & Hg & Hc & Hl & Hlen).
  { apply W1. }
  { unfold NLineInBlock. lia. }
  { rewrite decide_False by done. rewrite length_drop. subst k full. simpl in *. case_decide; lia. }
  { lia. }
  rewrite (stm_bind_ok _ _ _ _ _ E2). exists s2, (row :: rows), (take (Z.to_nat k) full :: chunks). split_and!.
  - done.
  - simpl. by eapply os_with_put.
  - split; [by exists sh|done].
  - simpl. by rewrite Hc, take_drop.
  - simpl. lia.
  - intros [|k'] chunk Hk'; simpl in Hk'.
    + injection Hk' as <-. rewrite length_take. simpl. lia.
    + specialize (Hlen k' chunk Hk'). rewrite decide_False by done. by destruct (decide (k' = 0)).
Qed.

Lemma split_media_loop_ok me objID id fuel i buf s :
  signs_blocks me → os_healthy s → length buf ≤ fuel → (Z.of_nat i + Z.of_nat fuel < 2 ^ 32)%Z →
  ∃ s' rows chunks,
    split_media_loop fuel (Some objID) (Some id) (Z.of_nat i) buf s = (s', Ok (hashes_of rows)) ∧
    os_with s s' (put_blocks (concat rows) (os_view s)) ∧ grid_ok me objID id i rows chunks ∧
    concat (concat chunks) = buf ∧ length chunks ≤ fuel.
Proof.
  intros Hsig. revert i buf s. induction fuel as [|fuel IH]; intros i buf s Hh Hf Hi.
  { exists s, [], []. destruct buf; [|simpl in Hf; lia]. split_and!; done. }
  destruct buf as [|x buf]; [exists s, [], []; split_and!; try done; simpl; lia|].
  cbn [split_media_loop]. cbv zeta. set (full := x :: buf) in *.
  set (len := if (_ =? _)%Z then _ else _).
  assert (0 < len ≤ Z.of_nat (length full))%Z as Hlen.
  { assert (0 < Z.of_nat (length full))%Z by (subst full; simpl; lia). subst len. unfold MinInt, NByteInBlock.
    destruct (Z.eqb_spec (Z.of_nat (length full)) (65535 + 1)); [lia|]. destruct (Z.ltb_spec 65535 (Z.of_nat (length full))); lia. }
  set (half := ((len + 1) / 2)%Z). assert (0 ≤ half ≤ len)%Z as Hhalf.
  { subst half. split; [apply Z.div_pos; lia|]. apply Z.div_le_upper_bound; lia. }
  clearbody half len. rewrite (slice_ok 0 _ full), (slice_ok _ (Z.to_nat len) full), !st_lift_bind by lia.
  set (a := take _ (drop 0 full)). set (b := take _ (drop (Z.to_nat half) full)).
  assert (a ++ b = take (Z.to_nat len) full) as Hab.
  { subst a b. rewrite drop_0, Nat.sub_0_r. rewrite <- (take_drop (Z.to_nat half) full) at 3.
    rewrite take_app, take_take, length_take. do 2 f_equal; lia. }
  destruct (split_round me objID id i [a; b] s Hsig Hh) as (sh & s1 & row & Es & E1 & W1 & Hsc & Hrow); [lia|].
  rewrite Es, st_lift_bind, (stm_bind_ok _ _ _ _ _ E1).
  replace (Z.of_nat i + 1)%Z with (Z.of_nat (i + 1)) by lia.
  destruct (IH (i + 1) (drop (Z.to_nat len) full) s1) as (s2 & rows & chunks & E2 & W2 & Hg & Hc & Hl).
  { apply W1. }
  { rewrite length_drop. lia. }
  { lia. }
  rewrite (stm_bind_ok _ _ _ _ _ E2). exists s2, (row :: rows), ([a; b] :: chunks). split_and!.
  - done.
  - simpl. by eapply os_with_put.
  - split; [by exists sh|done].
  - cbn [concat]. rewrite concat_app, Hc. cbn [concat]. rewrite app_nil_r, Hab. apply take_drop.
  - simpl. lia.
Qed.

(** ** Reading back: lemmas *)

Definition records_of (bs : list Block) : list (bytes * bytes) := block_rec <$> bs.

Lemma row_ok_elem me objID id i sub row bufs b :
  row_ok me objID id i sub row bufs → b ∈ row → ∃ j, sub ≤ j < sub + length bufs ∧ sub_ok objID id i j b.
Proof.
  revert sub bufs. induction row as [|b' row IH]; intros sub bufs Hr Hb; [by apply not_elem_of_nil in Hb|].
  destruct bufs as [|buf bufs]; [done|]. destruct Hr as (Hs & _ & _ & Hr).
  apply elem_of_cons in Hb as [->|Hb]; [exists sub; split; [simpl; lia|done]|].
  destruct (IH _ _ Hr Hb) as (j & Hj & Hsj). exists j. split; [simpl; lia|done].
Qed.

Lemma grid_ok_elem me objID id i rows chunks b :
  grid_ok me objID id i rows chunks → b ∈ concat rows →
  ∃ i' j, i ≤ i' < i + length chunks ∧ j < NSubBlock ∧ sub_ok objID id i' j b.
Proof.
  revert i chunks. induction rows as [|row rows IH]; intros i chunks Hg Hb; [by apply not_elem_of_nil in Hb|].
  destruct chunks as [|chunk chunks]; [done|]. destruct Hg as ((sh & (Hl & _) & Hr) & Hg).
  simpl in Hb. apply elem_of_app in Hb as [Hb|Hb].
  - destruct (row_ok_elem _ _ _ _ _ _ _ _ Hr Hb) as (j & Hj & Hs). exists i, j. split; [simpl; lia|].
    split; [lia|done].
  - destruct (IH _ _ Hg Hb) as (i' & j & Hi & Hj & Hs). exists i', j. split; [simpl; lia|done].
Qed.

(** The records of a content are sorted by their keys. *)
Lemma grid_sorted me objID id i rows chunks :
  grid_ok me objID id i rows chunks → (Z.of_nat (i + length chunks) < 2 ^ 32)%Z →
  StronglySorted key_lt (records_of (concat rows)).
Proof.
  revert i chunks. induction rows as [|row rows IH]; intros i chunks Hg Hi; [constructor|].
  destruct chunks as [|chunk chunks]; [done|]. destruct Hg as ((sh & (Hl & _) & Hr) & Hg). simpl in Hi.
  assert (StronglySorted key_lt (records_of (concat rows))) as Hs by (eapply (IH (i + 1)); [exact Hg|lia]).
  assert (∀ j b, sub_ok objID id i j b → j < NSubBlock →
    Forall (key_lt (block_rec b)) (records_of (concat rows))) as Hlater.
  { intros j b Hb Hj. apply Forall_forall. intros p (b' & -> & Hb')%list_elem_of_fmap.
    destruct (grid_ok_elem _ _ _ _ _ _ _ Hg Hb') as (i' & j' & Hi' & Hj' & Hs').
    unfold key_lt, block_rec; simpl. rewrite (key_of_block_eq _ _ _ _ _ Hb), (key_of_block_eq _ _ _ _ _ Hs').
    unfold NSubBlock in *. apply bl_key_lt; lia. }
  destruct sh as [|b0 [|b1 [|]]]; try done. destruct row as [|c0 [|c1 [|]]]; simpl in Hr; try (by destruct_and? Hr).
  destruct Hr as (H0' & _ & _ & H1' & _). simpl. unfold records_of in *. csimpl. constructor; [constructor; [done|]|].
  - eapply Hlater; [exact H1'|unfold NSubBlock; lia].
  - constructor; [|eapply Hlater; [exact H0'|unfold NSubBlock; lia]].
    unfold key_lt, block_rec; simpl. rewrite (key_of_block_eq _ _ _ _ _ H0'), (key_of_block_eq _ _ _ _ _ H1').
    apply bl_key_lt; lia.
Qed.

Lemma put_blocks_lookup bs m k v :
  NoDup (records_of bs).*1 → (k, v) ∈ records_of bs → put_blocks bs m !! k = Some v.
Proof.
  unfold put_blocks. revert m. induction bs as [|b bs IH]; intros m Hn Hk; [by apply not_elem_of_nil in Hk|].
  simpl in *. apply NoDup_cons in Hn as [Hn Hd]. apply elem_of_cons in Hk as [[= -> ->]|Hk]; [|by apply IH].
  clear IH Hd. revert m. induction bs as [|b' bs IH]; intros m; simpl; [by rewrite lookup_insert_eq|].
  simpl in Hn. apply not_elem_of_cons in Hn as [Hne Hn]. rewrite insert_insert_ne by done. by apply IH.
Qed.

Lemma put_blocks_other bs m k : k ∉ (records_of bs).*1 → put_blocks bs m !! k = m !! k.
Proof.
  unfold put_blocks. revert m. induction bs as [|b bs IH]; intros m Hn; [done|]. simpl in *.
  apply not_elem_of_cons in Hn as [Hne Hn]. rewrite IH by done. by rewrite lookup_insert_ne.
Qed.

(** [fullDBPrefix:objID:id], and that nothing is stored under it. *)
Definition content_prefix (objID id : PttID) : bytes := dbBlockPrefix ++ objID ++ id.
Definition no_content (objID id : PttID) (m : gmap bytes bytes) : Prop :=
  ∀ k v, m !! k = Some v → ¬ content_prefix objID id `prefix_of` k.

Lemma bl_key_prefix objID id i j : content_prefix objID id `prefix_of` bl_key objID id i j.
Proof. unfold content_prefix, bl_key. rewrite !(app_assoc dbBlockPrefix), !(app_assoc (dbBlockPrefix ++ objID)). by eexists. Qed.

(** Iterating over a content visits its records in order. *)
Lemma bl_iter_grid me objID id rows chunks s m :
  os_healthy s → grid_ok me objID id 0 rows chunks → (Z.of_nat (length chunks) < 2 ^ 32)%Z →
  content_prefix objID id ≠ [] → no_content objID id m → os_view s = put_blocks (concat rows) m →
  bl_iter dbBlockPrefix (Some objID) (Some id) s = Ok (records_of (concat rows)).
Proof.
  intros Hh Hg Hn Hp Hno Hv. unfold bl_iter, bl_Prefix. cbn [mbind outcome_bind or_panic].
  assert (Concat ([Some dbBlockPrefix; Some objID] ++ [Some id]) = content_prefix objID id) as ->.
  { rewrite Concat_spec. unfold opt_concat, content_prefix. csimpl. by rewrite app_nil_r. }
  unfold NewIteratorWithPrefix. destruct (content_prefix objID id) as [|c p] eqn:Ep; [done|]. rewrite <- Ep.
  cbn [mbind outcome_bind iter_list]. unfold NewIteratorWithRange. rewrite iter_forward_new. f_equal.
  pose proof (grid_sorted _ _ _ _ _ _ Hg Hn) as Hs.
  apply key_sorted_unique; [apply ldb_range_sorted|done|]. intros [k v].
  rewrite ldb_range_elem, in_range_BytesPrefix by done. fold (os_view s). rewrite Hv. split.
  - intros [Hk Hpre]. destruct (decide (k ∈ (records_of (concat rows)).*1)) as [Hin|Hout].
    + apply list_elem_of_fmap in Hin as ([k' v'] & -> & Hin).
      pose proof (put_blocks_lookup (concat rows) m k' v' (key_sorted_nodup _ Hs) Hin) as E.
      simpl in *. rewrite E in Hk. by injection Hk as <-.
    + rewrite put_blocks_other in Hk by done. by destruct (Hno k v).
  - intros Hin. split; [by apply put_blocks_lookup; [apply key_sorted_nodup|]|].
    apply list_elem_of_fmap in Hin as (b & [= -> ->] & Hb).
    destruct (grid_ok_elem _ _ _ _ _ _ _ Hg Hb) as (i & j & _ & _ & Hsub).
    rewrite (key_of_block_eq _ _ _ _ _ Hsub). apply bl_key_prefix.
Qed.

Lemma set2_at {A} (pre : list (list A)) row post j v :
  j < length row → set2 (pre ++ row :: post) (length pre) j v = Ok (pre ++ <[j := v]> row :: post).
Proof.
  intros Hj. unfold set2. rewrite list_lookup_middle by done. cbn [or_panic mbind outcome_bind].
  rewrite decide_True by done. by rewrite list_insert_middle || (rewrite insert_app_r_alt, Nat.sub_diag by lia).
Qed.

Lemma content_loop_grid me objID id N i rows chunks pre :
  grid_ok me objID id i rows chunks → length pre = i → (Z.of_nat i + Z.of_nat (length chunks) ≤ N)%Z →
  ∃ shs, content_loop N (snd <$> records_of (concat rows)) (pre ++ replicate (length chunks) (replicate NSubBlock [])) =
           Ok (pre ++ shs) ∧ Forall2 scrambles chunks shs.
Proof.
  revert i chunks pre. induction rows as [|row rows IH]; intros i chunks pre Hg Hl HN.
  { destruct chunks; [|by destruct Hg]. exists []. split; [done|constructor]. }
  destruct chunks as [|chunk chunks]; [by destruct Hg|]. destruct Hg as ((sh & Hsc & Hr) & Hg).
  pose proof (proj1 Hsc) as Hlsh. destruct sh as [|b0 [|b1 [|]]]; try done.
  destruct row as [|c0 [|c1 [|]]]; simpl in Hr; try (by destruct_and? Hr).
  destruct Hr as ([_ _ B0 S0 _] & <- & _ & [_ _ B1 S1 _] & <- & _). simpl in HN.
  cbn [concat app length replicate]. unfold records_of. csimpl. cbn [content_loop].
  assert ((N <=? Z.of_nat i)%Z = false) as HNi by (apply Z.leb_gt; lia). subst i.
  rewrite bl_roundtrip, B0, S0, HNi, !Nat2Z.id, set2_at by (simpl; lia). cbn [mbind outcome_bind content_loop].
  rewrite bl_roundtrip, B1, S1, HNi, !Nat2Z.id, set2_at by (simpl; lia). cbn [mbind outcome_bind].
  destruct (IH (length pre + 1) chunks (pre ++ [[bl_Buf c0; bl_Buf c1]]) Hg) as (shs & E & Hf).
  { by rewrite length_app. }
  { lia. }
  exists ([bl_Buf c0; bl_Buf c1] :: shs). rewrite <- !app_assoc in E. split; [exact E|by constructor].
Qed.

Lemma unscramble_all_ok chunks shs : Forall2 scrambles chunks shs →
  existsb (existsb (λ buf, bool_decide (buf = []))) shs = false ∧ unscramble_all shs = Ok chunks.
Proof.
  induction 1 as [|chunk sh chunks shs (_ & Hne & Hu) _ [IH1 IH2]]; [done|]. simpl. rewrite Hu, IH1, IH2. split; [|done].
  rewrite orb_false_r. clear Hu. induction Hne as [|s sh Hs _ IH]; [done|]. simpl. by rewrite IH, bool_decide_eq_false_2.
Qed.

(** [GetIsAllGood] only sets [IsAllGood]. *)
Lemma bi_GetIsAllGood_fields b b' g : bi_GetIsAllGood b = Ok (b', g) →
  bi_ID b' = bi_ID b ∧ bi_objID b' = bi_objID b ∧ bi_NBlock b' = bi_NBlock b ∧ bi_Hashs b' = bi_Hashs b ∧
  bi_MediaIDs b' = bi_MediaIDs b ∧ bi_UpdaterID b' = bi_UpdaterID b ∧ bi_IsGood b' = bi_IsGood b.
Proof.
  unfold bi_GetIsAllGood. destruct (bi_NBlock b =? 0)%Z; [by intros [= <- <-]|].
  destruct (bi_IsAllGood b); [by intros [= <- <-]|]. destruct (bi_IsGood b) as [m|] eqn:Em; [|by intros [= <- <-]].
  destruct (all_good_loop _ _) as [[]| |]; [|..]; intros [= <- <-]; done.
Qed.

(** A content that is stored whole is read back. *)
Lemma GetContentBlockList_grid me objID id rows chunks b b' s m :
  os_healthy s → grid_ok me objID id 0 rows chunks → (Z.of_nat (length chunks) < 2 ^ 32)%Z →
  content_prefix objID id ≠ [] → no_content objID id m → os_view s = put_blocks (concat rows) m →
  bi_ID b = Some id → bi_objID b = Some objID → bi_NBlock b = Z.of_nat (length chunks) →
  bi_GetIsAllGood b = Ok (b', true) →
  GetContentBlockList b 0 s = Ok (b', imap (λ k chunk, MkContent (u32 (Z.of_nat k)) chunk) chunks).
Proof.
  intros Hh Hg Hn Hp Hno Hv Hid Hobj HN Hgood. unfold GetContentBlockList. rewrite Hgood. cbn [mbind outcome_bind negb].
  destruct (bi_GetIsAllGood_fields _ _ _ Hgood) as (-> & -> & HN' & _). rewrite Hid, Hobj.
  rewrite (bl_iter_grid me objID id rows chunks s m) by done. cbn [mbind outcome_bind]. cbv zeta.
  assert (block_limit b' 0 = Z.of_nat (length chunks)) as ->.
  { unfold block_limit. rewrite HN', HN, u32_small by (unfold in_u32; lia). cbv zeta. rewrite Z.eqb_refl, Z.ltb_irrefl. done. }
  rewrite Nat2Z.id.
  destruct (content_loop_grid me objID id (Z.of_nat (length chunks)) 0 rows chunks [] Hg) as (shs & E & Hf); [done|lia|].
  cbn [app] in E. rewrite E. cbn [mbind outcome_bind]. destruct (unscramble_all_ok _ _ Hf) as [-> ->]. done.
Qed.

Lemma hashes_of_length rows : length (hashes_of rows) = length rows.
Proof. apply length_map. Qed.
Lemma grid_ok_length me objID id i rows chunks : grid_ok me objID id i rows chunks → length rows = length chunks.
Proof.
  revert i chunks. induction rows as [|row rows IH]; intros i [|chunk chunks] Hg; try by destruct Hg.
  simpl. f_equal. by eapply IH, Hg.
Qed.

Lemma at2_ok {A} (m : list (list A)) i j x : at2 m i j = Ok x → ∃ row, m !! i = Some row ∧ row !! j = Some x.
Proof.
  unfold at2. destruct (m !! i) as [row|]; [|done]. cbn [or_panic mbind outcome_bind].
  destruct (row !! j) eqn:E; [|done]. intros [= ->]. by exists row.
Qed.

Lemma at2_hashes rows i j hash : at2 (hashes_of rows) i j = Ok hash →
  ∃ row b, rows !! i = Some row ∧ row !! j = Some b ∧ bl_Hash b = hash.
Proof.
  intros (r & Hr & Hj)%at2_ok. unfold hashes_of in Hr. apply list_lookup_fmap_Some in Hr as (row & -> & Hrow).
  apply list_lookup_fmap_Some in Hj as (b & -> & Hb). by exists row, b.
Qed.

Lemma row_lookup me objID id i sub row bufs j b :
  row_ok me objID id i sub row bufs → row !! j = Some b → sub_ok objID id i (sub + j) b ∧ signed_by me b.
Proof.
  revert sub bufs j. induction row as [|b' row IH]; intros sub bufs j Hr Hb; [done|].
  destruct bufs as [|buf bufs]; [done|]. destruct Hr as (Hs & _ & Hsig & Hr). destruct j as [|j]; simpl in Hb.
  - injection Hb as <-. by rewrite Nat.add_0_r.
  - replace (sub + Datatypes.S j) with (sub + 1 + j) by lia. by eapply IH.
Qed.

Lemma grid_lookup me objID id k rows chunks i row j b :
  grid_ok me objID id k rows chunks → rows !! i = Some row → row !! j = Some b →
  sub_ok objID id (k + i) j b ∧ signed_by me b ∧ b ∈ concat rows.
Proof.
  revert k chunks i. induction rows as [|r rows IH]; intros k chunks i Hg Hi Hj; [done|].
  destruct chunks as [|chunk chunks]; [done|]. destruct Hg as ((sh & _ & Hr) & Hg). destruct i as [|i]; simpl in Hi.
  - injection Hi as ->. destruct (row_lookup _ _ _ _ _ _ _ _ _ Hr Hj) as [Hs Hsig]. rewrite Nat.add_0_r.
    split_and!; [done|done|]. simpl. apply elem_of_app. left. by eapply list_elem_of_lookup_2.
  - destruct (IH (k + 1) chunks i Hg Hi Hj) as (Hs & Hsig & Hin).
    replace (k + Datatypes.S i) with (k + 1 + i) by lia. split_and!; [done|done|]. simpl. apply elem_of_app. by right.
Qed.

(** Content that [SplitContentBlocks] cuts, scrambles, signs and stores is
    what [GetContentBlockList] reads, for any list of lines and any length of
    the first block: the lines of all blocks in order, no block longer than
    the first's length or twenty, and every sub-block listed in the digests is
    stored with a signature that verifies. *)
Theorem content_roundtrip me objID id buf n s :
  signs_blocks me → os_healthy s → content_prefix objID id ≠ [] → no_content objID id (os_view s) →
  (0 ≤ n)%Z → (Z.of_nat (length buf) + 1 < 2 ^ 32)%Z →
  ∃ s' hashs, SplitContentBlocks (Ok id) (Some objID) buf n s = (s', Ok (id, hashs)) ∧
    (∀ b b', bi_ID b = Some id → bi_objID b = Some objID → bi_NBlock b = Z.of_nat (length hashs) →
       bi_GetIsAllGood b = Ok (b', true) →
       ∃ blocks, GetContentBlockList b 0 s' = Ok (b', blocks) ∧ concat (cb_Buf <$> blocks) = buf ∧
         ∀ k cb, blocks !! k = Some cb → cb_BlockID cb = Z.of_nat k ∧
           length (cb_Buf cb) ≤ (if decide (k = 0) then Z.to_nat n else Z.to_nat NLineInBlock)) ∧
    (∀ i j hash, at2 hashs i j = Ok hash →
       ∃ b, os_view s' !! bl_key objID id i j = Some (bl_Marshal b) ∧ bl_Verify b hash me = Ok tt).
Proof.
  intros Hsig Hh Hp Hno Hn Hl.
  destruct (split_content_loop_ok me objID id (length buf + 1) 0 n buf s) as (s' & rows & chunks & E & W & Hg & Hc & Hlen & Hch);
    [done|done|done|case_decide; lia|lia|].
  exists s', (hashes_of rows). unfold SplitContentBlocks. rewrite st_lift_bind, (stm_bind_ok _ _ _ _ _ E).
  destruct W as (Hh' & Hv & _ & _). split; [done|]. split.
  - intros b b' Hid Hobj HN Hgood. rewrite hashes_of_length, (grid_ok_length _ _ _ _ _ _ Hg) in HN.
    eexists. split; [eapply GetContentBlockList_grid; try done; lia|]. split.
    + rewrite <- Hc. f_equal. apply list_eq. intros k. rewrite list_lookup_fmap, list_lookup_imap.
      by destruct (chunks !! k).
    + intros k cb. rewrite list_lookup_imap. destruct (chunks !! k) as [chunk|] eqn:Ek; [|done]. intros [= <-]. simpl.
      split; [|by apply Hch]. apply lookup_lt_Some in Ek. rewrite u32_small by (unfold in_u32; lia). done.
  - intros i j hash Hij. apply at2_hashes in Hij as (row & b & Hrow & Hb & <-).
    destruct (grid_lookup _ _ _ _ _ _ _ _ _ _ Hg Hrow Hb) as (Hsub & Hsig' & Hin). exists b. split; [|done].
    rewrite Hv. apply put_blocks_lookup; [apply key_sorted_nodup; eapply grid_sorted; [exact Hg|lia]|].
    apply list_elem_of_fmap. exists b. unfold block_rec. by rewrite (key_of_block_eq _ _ _ _ _ Hsub).
Qed.

Lemma opt_concat_pad (n : nat) (l : list bytes) : Concat (replicate n None ++ (Some <$> l)) = concat l.
Proof. rewrite <- Concat_Some, !Concat_spec. unfold opt_concat. rewrite fmap_app, concat_app. by induction n. Qed.

Lemma concat_content_bufs (f : nat → Z) (chunks : list (list bytes)) :
  concat ((λ cb, Some <$> cb_Buf cb) <$> imap (λ k chunk, MkContent (f k) chunk) chunks) = Some <$> concat chunks.
Proof.
  revert f. induction chunks as [|chunk chunks IH]; intros f; [done|]. simpl. rewrite fmap_app. f_equal.
  apply (IH (λ k, f (Datatypes.S k))).
Qed.

(** The bytes of a medium that [SplitMediaBlocks] stores are the bytes
    [GetBuf] returns. *)
Theorem media_roundtrip me objID id buf s :
  signs_blocks me → os_healthy s → content_prefix objID id ≠ [] → no_content objID id (os_view s) →
  (Z.of_nat (length buf) < 2 ^ 32)%Z →
  ∃ s' hashs, SplitMediaBlocks (Ok id) (Some objID) buf s = (s', Ok (id, hashs)) ∧
    ∀ b, bi_ID b = Some id → bi_NBlock b = Z.of_nat (length hashs) → bi_IsAllGood b = true →
      media_GetBuf (Some b) (Some objID) s' = Ok buf.
Proof.
  intros Hsig Hh Hp Hno Hl.
  destruct (split_media_loop_ok me objID id (length buf) 0 buf s) as (s' & rows & chunks & E & W & Hg & Hc & Hlen);
    [done|done|done|lia|].
  exists s', (hashes_of rows). unfold SplitMediaBlocks. rewrite st_lift_bind, (stm_bind_ok _ _ _ _ _ E).
  destruct W as (Hh' & Hv & _ & _). split; [done|]. intros b Hid HN Hgood.
  rewrite hashes_of_length, (grid_ok_length _ _ _ _ _ _ Hg) in HN. unfold media_GetBuf. rewrite Hgood. cbn [negb]. cbv zeta.
  set (b1 := MkBI _ _ _ _ _ _ _ _ _).
  rewrite (GetContentBlockList_grid me objID id rows chunks b1 b1 s' (os_view s)); try done; [|lia|].
  - cbn [mbind outcome_bind]. unfold go_make. change (bi_NBlock b1) with (bi_NBlock b). rewrite HN.
    destruct (Z.ltb_spec (Z.of_nat (length chunks) * Z.of_nat NScrambleInBlock) 0); [lia|].
    cbn [mbind outcome_bind]. f_equal. rewrite <- Hc.
    assert (concat ((λ cb, Some <$> cb_Buf cb) <$> imap (λ k chunk, MkContent (u32 (Z.of_nat k)) chunk) chunks) =
            Some <$> concat chunks) as ->; [|apply opt_concat_pad].
    apply concat_content_bufs.
  - subst b1. unfold bi_GetIsAllGood. simpl. by destruct (bi_NBlock b =? 0)%Z.
Qed.

(** A sub-block of a peer whose number is past the last block is not
    dropped by [shrinkBlocks], and [verifyBlocks] panics on it: the digests are
    indexed before anything about the block is checked. *)
Theorem unknown_block_panics b block creatorID :
  (0 ≤ bi_NBlock b < 2 ^ 32)%Z → length (bi_Hashs b) = Z.to_nat (bi_NBlock b) → (bi_NBlock b ≤ bl_BlockID block)%Z →
  shrinkBlocks b [block] = Ok (b, [block]) ∧ verifyBlocks [block] b creatorID = Panic ∧
  ∀ s, accept_blocks [block] b creatorID s = (s, Panic).
Proof.
  intros HN Hlen Hb.
  assert (shrinkBlocks b [block] = Ok (b, [block])) as E1.
  { cbn [shrinkBlocks]. unfold bi_GetIsGood. rewrite u32_small by (unfold in_u32; lia). by rewrite (proj2 (Z.leb_le _ _) Hb). }
  assert (verifyBlocks [block] b creatorID = Panic) as E2.
  { cbn [verifyBlocks]. unfold at2. rewrite lookup_ge_None_2 by lia. done. }
  split_and!; [done..|]. intros s. unfold accept_blocks. rewrite E1, st_lift_bind. rewrite decide_False by done.
  by rewrite E2.
Qed.

(** ** Accepting blocks: lemmas *)

Definition matrix_wf (N : nat) (m : list (list bool)) : Prop :=
  length m = N ∧ Forall (λ row, length row = NSubBlock) m.

Lemma at2_wf N m i j : matrix_wf N m → i < N → j < NSubBlock → ∃ g, at2 m i j = Ok g.
Proof.
  intros [Hl Hf] Hi Hj. destruct (lookup_lt_is_Some_2 m i) as [row Hrow]; [lia|].
  pose proof (proj1 (Forall_lookup _ _) Hf i row Hrow) as Hlen. simpl in Hlen.
  destruct (lookup_lt_is_Some_2 row j) as [g Hg]; [lia|]. exists g. unfold at2. rewrite Hrow. cbn [or_panic mbind outcome_bind].
  by rewrite Hg.
Qed.

Lemma set2_wf N m i j v : matrix_wf N m → i < N → j < NSubBlock →
  ∃ m', set2 m i j v = Ok m' ∧ matrix_wf N m' ∧
    ∀ i' j', i' < N → at2 m' i' j' = if decide (i' = i ∧ j' = j) then Ok v else at2 m i' j'.
Proof.
  intros [Hl Hf] Hi Hj. destruct (lookup_lt_is_Some_2 m i) as [row Hrow]; [lia|].
  pose proof (proj1 (Forall_lookup _ _) Hf i row Hrow) as Hlen. simpl in Hlen.
  eexists. split; [unfold set2; rewrite Hrow; cbn [or_panic mbind outcome_bind]; by rewrite decide_True by lia|]. split.
  - split; [by rewrite length_insert|]. apply Forall_insert; [done|]. by rewrite length_insert.
  - intros i' j' Hi'. unfold at2. destruct (decide (i' = i)) as [->|Hne].
    + rewrite list_lookup_insert_eq by lia. rewrite Hrow. cbn [or_panic mbind outcome_bind].
      destruct (decide (j' = j)) as [->|Hnj]; [by rewrite list_lookup_insert_eq, decide_True by lia|].
      rewrite list_lookup_insert_ne, decide_False by (done || by intros [_ ?]). done.
    + rewrite list_lookup_insert_ne, decide_False by (done || by intros [? _]). done.
Qed.

Definition in_range_block (objID id : PttID) (N : nat) (b : Block) : Prop :=
  ∃ i j, i < N ∧ j < NSubBlock ∧ sub_ok objID id i j b.

Lemma SetDB_same objID id i j b : sub_ok objID id i j b → bl_SetDB (Some objID) (Some id) b = b.
Proof. intros [Ho Hi _ _ HV]. destruct b. simpl in *. by subst. Qed.

(** The blocks are all stored, and marked in the matrix. *)
Lemma saveBlocks_ok objID id N blocks m b isSet s :
  os_healthy s → bi_IsGood b = Some m → matrix_wf N m → bi_ID b = Some id → bi_objID b = Some objID →
  Forall (in_range_block objID id N) blocks →
  ∃ s' m', saveBlocks blocks b isSet s =
      (s', Ok (set_good b (Some m') (bi_IsAllGood b), isSet || bool_decide (blocks ≠ []))) ∧
    os_with s s' (put_blocks blocks (os_view s)) ∧ matrix_wf N m' ∧
    ∀ i j, i < N → j < NSubBlock →
      at2 m' i j = Ok true ↔ at2 m i j = Ok true ∨ ∃ block, block ∈ blocks ∧ sub_ok objID id i j block.
Proof.
  intros Hh Hm Hwf Hid Hobj Hf. revert m b isSet s Hh Hm Hwf Hid Hobj.
  induction Hf as [|block blocks (i & j & Hi & Hj & Hsub) _ IH]; intros m b isSet s Hh Hm Hwf Hid Hobj.
  { exists s, m. split_and!; try done.
    - cbn [saveBlocks]. unfold mret, stm_ret. rewrite orb_false_r. do 3 f_equal. destruct b; simpl in *. by subst.
    - intros. split; [by left|]. intros [?|(? & Hn & _)]; [done|]. by apply not_elem_of_nil in Hn. }
  cbn [saveBlocks]. rewrite Hid, Hobj, (SetDB_same objID id i j) by done.
  destruct (bl_Save_ok objID id i j block s Hh Hsub) as (s1 & E1 & W1).
  rewrite (stm_bind_ok _ _ _ _ _ (st_try_ok _ _ _ _ E1)). cbv iota.
  destruct (set2_wf N m i j true Hwf Hi Hj) as (m1 & Em & Hwf1 & Hat1).
  assert (bi_SetIsGood b (bl_BlockID block) (bl_SubBlockID block) true = Ok (set_good b (Some m1) (bi_IsAllGood b))) as ->.
  { unfold bi_SetIsGood, init_if_nil, good_matrix. rewrite Hm. cbn [mbind outcome_bind]. rewrite Hm. simpl default.
    by rewrite (sub_block _ _ _ _ _ Hsub), (sub_sub _ _ _ _ _ Hsub), !Nat2Z.id, Em. }
  rewrite st_lift_bind.
  destruct (IH m1 (set_good b (Some m1) (bi_IsAllGood b)) true s1) as (s2 & m2 & E2 & W2 & Hwf2 & Hat2); [apply W1|done..|].
  rewrite E2. exists s2, m2. split_and!.
  - rewrite orb_true_r. unfold set_good. simpl. done.
  - by apply (os_with_put s s1 s2 [block] blocks).
  - done.
  - intros i' j' Hi' Hj'. rewrite Hat2, Hat1 by done. case_decide as Hc.
    + destruct Hc as [-> ->]. split; [|intros _; by left]. intros _. right. exists block. split; [by left|done].
    + split; intros [Ha|(bl & Hbl & Hs)]; auto.
      * right. exists bl. split; [by right|done].
      * apply elem_of_cons in Hbl as [->|Hbl]; [|right; by exists bl]. exfalso. apply Hc.
        destruct Hsub, Hs. split; lia.
Qed.

(** A [BlockInfo] none of whose sub-blocks is there yet. *)
Definition fresh_info (objID id : PttID) (hashs : list (list bytes)) (b : BlockInfo) : Prop :=
  bi_ID b = Some id ∧ bi_objID b = Some objID ∧ bi_NBlock b = Z.of_nat (length hashs) ∧ bi_Hashs b = hashs ∧
  bi_IsAllGood b = false ∧
  (bi_IsGood b = None ∨ bi_IsGood b = Some (replicate (length hashs) (replicate NSubBlock false))).

Lemma no_good_wf N : matrix_wf N (replicate N (replicate NSubBlock false)).
Proof. split; [apply length_replicate|]. by apply Forall_replicate. Qed.

Lemma no_good_at N i j : i < N → j < NSubBlock → at2 (replicate N (replicate NSubBlock false)) i j = Ok false.
Proof.
  intros. unfold at2. rewrite lookup_replicate_2 by done. cbn [or_panic mbind outcome_bind].
  by rewrite lookup_replicate_2.
Qed.

(** With nothing there yet, [shrinkBlocks] keeps every block. *)
Lemma shrink_fresh objID id hashs b blocks :
  (Z.of_nat (length hashs) < 2 ^ 32)%Z → fresh_info objID id hashs b → blocks ≠ [] →
  Forall (in_range_block objID id (length hashs)) blocks →
  shrinkBlocks b blocks = Ok (set_good b (Some (replicate (length hashs) (replicate NSubBlock false))) false, blocks).
Proof.
  intros HN Hfr Hne Hf. set (b1 := set_good b _ _).
  assert (∀ b2 block, b2 = b ∨ b2 = b1 → in_range_block objID id (length hashs) block →
            bi_GetIsGood b2 (bl_BlockID block) (bl_SubBlockID block) = Ok (b1, false)) as Hget.
  { intros b2 block Hb2 (i & j & Hi & Hj & [_ _ HB HS _]). destruct Hfr as (H1' & H2' & H3' & H4' & H5' & H6').
    assert (bi_NBlock b2 = Z.of_nat (length hashs)) as HN2 by (destruct Hb2 as [->| ->]; done).
    unfold bi_GetIsGood. rewrite HN2, HB, HS, u32_small by (unfold in_u32; lia).
    destruct (Z.leb_spec (Z.of_nat (length hashs)) (Z.of_nat i)); [lia|].
    destruct (Z.leb_spec (Z.of_nat NSubBlock) (Z.of_nat j)); [lia|]. rewrite !Nat2Z.id.
    assert (∀ x, bi_IsGood x = Some (replicate (length hashs) (replicate NSubBlock false)) → bi_IsAllGood x = false →
              x = b ∨ x = b1 → x = b1) as Hsame.
    { intros x Hx Hx2 [->|]; [|done]. subst b1. destruct b; unfold set_good; simpl in *. by subst. }
    assert (bi_IsGood b2 = None ∨ bi_IsGood b2 = Some (replicate (length hashs) (replicate NSubBlock false))) as Hg2
      by (destruct Hb2 as [->| ->]; [done|by right]).
    destruct Hg2 as [-> | Hg2].
    - unfold InitIsGood, go_make. rewrite HN2. destruct (Z.ltb_spec (Z.of_nat (length hashs)) 0); [lia|].
      cbn [mbind outcome_bind]. rewrite Nat2Z.id. by destruct Hb2 as [->| ->].
    - rewrite Hg2, length_replicate. destruct (Z.ltb_spec (Z.of_nat (length hashs)) (Z.of_nat (length hashs))); [lia|].
      rewrite no_good_at by done. cbn [mbind outcome_bind]. do 2 f_equal.
      apply Hsame; [done| |done]. by destruct Hb2 as [->| ->]. }
  assert (∀ blocks, Forall (in_range_block objID id (length hashs)) blocks → shrinkBlocks b1 blocks = Ok (b1, blocks)) as Hloop.
  { clear Hne Hf blocks. induction 1 as [|block blocks Hb _ IH]; [done|]. cbn [shrinkBlocks].
    rewrite (Hget b1 block) by (auto || done). cbn [mbind outcome_bind]. by rewrite IH. }
  destruct Hf as [|block blocks Hb Hf]; [done|]. cbn [shrinkBlocks].
  rewrite (Hget b block) by (auto || done). cbn [mbind outcome_bind]. by rewrite Hloop.
Qed.

Lemma elem_concat_lookup {A} (rows : list (list A)) b :
  b ∈ concat rows → ∃ i j row, rows !! i = Some row ∧ row !! j = Some b.
Proof.
  induction rows as [|row rows IH]; intros Hb; [by apply not_elem_of_nil in Hb|]. simpl in Hb.
  apply elem_of_app in Hb as [Hb|Hb].
  - apply list_elem_of_lookup_1 in Hb as [j Hj]. by exists 0, j, row.
  - destruct (IH Hb) as (i & j & row' & Hi & Hj). by exists (Datatypes.S i), j, row'.
Qed.

Lemma grid_row_length me objID id k rows chunks i row :
  grid_ok me objID id k rows chunks → rows !! i = Some row → length row = NSubBlock.
Proof.
  revert k chunks i. induction rows as [|r rows IH]; intros k [|chunk chunks] i Hg Hi; try done.
  destruct Hg as ((sh & (Hl & _) & Hr) & Hg). destruct i as [|i]; simpl in Hi; [|by eapply IH].
  injection Hi as ->. destruct sh as [|? [|? [|]]]; try done. destruct row as [|? [|? [|]]]; simpl in Hr; done || (by destruct_and? Hr).
Qed.

Lemma block_list_grid objID id N bs :
  Forall (in_range_block objID id N) bs → block_list_loop (Z.of_nat N) (snd <$> records_of bs) = bs.
Proof.
  induction 1 as [|b bs (i & j & Hi & _ & Hs) _ IH]; [done|]. unfold records_of in *. csimpl. cbn [block_list_loop].
  rewrite bl_roundtrip, (sub_block _ _ _ _ _ Hs). destruct (Z.leb_spec (Z.of_nat N) (Z.of_nat i)); [lia|]. by rewrite IH.
Qed.

Lemma grid_in_range me objID id rows chunks :
  grid_ok me objID id 0 rows chunks → Forall (in_range_block objID id (length chunks)) (concat rows).
Proof.
  intros Hg. apply Forall_forall. intros b Hb. destruct (grid_ok_elem _ _ _ _ _ _ _ Hg Hb) as (i & j & Hi & Hj & Hs).
  exists i, j. split; [lia|done].
Qed.

Lemma verifyBlocks_grid me objID id rows chunks b blocks :
  grid_ok me objID id 0 rows chunks → bi_Hashs b = hashes_of rows → (∀ x, x ∈ blocks → x ∈ concat rows) →
  verifyBlocks blocks b me = Ok tt.
Proof.
  intros Hg Hb. induction blocks as [|block blocks IH]; intros Hin; [done|]. cbn [verifyBlocks].
  destruct (elem_concat_lookup rows block) as (i & j & row & Hi & Hj); [apply Hin; by left|].
  destruct (grid_lookup _ _ _ _ _ _ _ _ _ _ Hg Hi Hj) as ([_ _ HB HS _] & Hsig & _).
  rewrite HB, HS, !Nat2Z.id, Hb. simpl.
  assert (at2 (hashes_of rows) i j = Ok (bl_Hash block)) as ->.
  { unfold at2, hashes_of. rewrite (list_lookup_fmap (map bl_Hash) rows), Hi. cbn [fmap option_fmap option_map or_panic mbind outcome_bind].
    by rewrite (list_lookup_fmap bl_Hash row), Hj. }
  cbn [mbind outcome_bind]. unfold signed_by in Hsig. rewrite Hsig. cbn [mbind outcome_bind].
  apply IH. intros x Hx. apply Hin. by right.
Qed.

Lemma put_blocks_perm bs bs' m :
  NoDup (records_of bs).*1 → bs' ≡ₚ bs → put_blocks bs' m = put_blocks bs m.
Proof.
  intros Hn Hp. assert (NoDup (records_of bs').*1) as Hn' by (unfold records_of in *; by rewrite Hp).
  apply map_eq. intros k. destruct (decide (k ∈ (records_of bs).*1)) as [Hin|Hout].
  - apply list_elem_of_fmap in Hin as ([k' v] & -> & Hin). cbn [fst]. rewrite (put_blocks_lookup bs m k' v Hn Hin).
    apply put_blocks_lookup; [done|]. unfold records_of in *. by rewrite Hp.
  - rewrite !put_blocks_other; [done|done|]. unfold records_of in *. by rewrite Hp.
Qed.

Lemma all_good_all m ps : (∀ i j, (i, j) ∈ ps → at2 m i j = Ok true) → all_good_loop m ps = Ok true.
Proof.
  induction ps as [|[i j] ps IH]; intros Hall; [done|]. cbn [all_good_loop]. rewrite Hall by (by left).
  cbn [mbind outcome_bind]. apply IH. intros. apply Hall. by right.
Qed.

Lemma sub_blocks_elem n i j : (i, j) ∈ sub_blocks n → i < Z.to_nat n ∧ j < NSubBlock.
Proof.
  unfold sub_blocks. intros (a & b & row & Ha & Hb)%elem_concat_lookup.
  apply list_lookup_fmap_Some in Ha as (x & -> & Hx%lookup_seq). apply list_lookup_fmap_Some in Hb as (y & [= -> ->] & Hy%lookup_seq). lia.
Qed.

(** A peer that has nothing of a content accepts its blocks in any order. *)
Lemma accept_grid me objID id rows chunks b blocks s :
  os_healthy s → grid_ok me objID id 0 rows chunks → (Z.of_nat (length chunks) < 2 ^ 32)%Z →
  fresh_info objID id (hashes_of rows) b → blocks ≡ₚ concat rows → blocks ≠ [] →
  ∃ s' b', accept_blocks blocks b me s = (s', Ok (b', true)) ∧
    os_with s s' (put_blocks (concat rows) (os_view s)) ∧
    bi_ID b' = Some id ∧ bi_objID b' = Some objID ∧ bi_NBlock b' = Z.of_nat (length chunks) ∧
    bi_Hashs b' = bi_Hashs b ∧ ∃ b'', bi_GetIsAllGood b' = Ok (b'', true).
Proof.
  intros Hh Hg HN Hfr Hp Hne. pose proof (grid_ok_length _ _ _ _ _ _ Hg) as Hlen.
  assert (length (hashes_of rows) = length chunks) as HlenH by (by rewrite hashes_of_length).
  assert (Forall (in_range_block objID id (length chunks)) blocks) as Hf by (rewrite Hp; by eapply grid_in_range).
  unfold accept_blocks. rewrite (shrink_fresh objID id (hashes_of rows)) by (by rewrite ?HlenH).
  rewrite st_lift_bind. set (b1 := set_good b _ _). rewrite decide_False by done.
  rewrite (verifyBlocks_grid me objID id rows chunks b1 blocks Hg); [|by destruct Hfr as (_ & _ & _ & ? & _)|intros x; by rewrite Hp].
  rewrite st_lift_bind.
  destruct (saveBlocks_ok objID id (length chunks) blocks (replicate (length (hashes_of rows)) (replicate NSubBlock false)) b1 false s)
    as (s' & m' & E & W & Hwf & Hat); [done|done|rewrite HlenH; apply no_good_wf|apply Hfr|apply Hfr|done|].
  rewrite E. eexists s', _. split; [by rewrite bool_decide_eq_true_2 by done|]. split_and!.
  - rewrite (put_blocks_perm (concat rows) blocks) in W; [done| |done].
    apply key_sorted_nodup. by eapply grid_sorted.
  - apply Hfr.
  - apply Hfr.
  - rewrite <- HlenH. apply Hfr.
  - done.
  - assert (bi_NBlock b1 = Z.of_nat (length chunks)) as HN1 by (rewrite <- HlenH; apply Hfr).
    unfold bi_GetIsAllGood. change (bi_NBlock (set_good b1 (Some m') (bi_IsAllGood b1))) with (bi_NBlock b1).
    rewrite HN1. cbn [set_good bi_IsAllGood bi_IsGood].
    destruct (Z.eqb_spec (Z.of_nat (length chunks)) 0); [by eexists|]. change (bi_IsAllGood b1) with false.
    rewrite all_good_all; [by eexists|]. intros i j [Hi Hj]%sub_blocks_elem. rewrite Nat2Z.id in Hi.
    apply Hat; [done|done|]. right. destruct (lookup_lt_is_Some_2 rows i) as [row Hrow]; [lia|].
    destruct (lookup_lt_is_Some_2 row j) as [x Hx]; [by rewrite (grid_row_length _ _ _ _ _ _ _ _ Hg Hrow)|].
    destruct (grid_lookup _ _ _ _ _ _ _ _ _ _ Hg Hrow Hx) as (Hs & _ & Hin). exists x. split; [by rewrite Hp|done].
Qed.

(** C10: the sub-blocks that [GetBlockList] sends for a content of the owner,
    in any order, are accepted by a peer that has its [BlockInfo] and none of
    them: after that everything is there, and the peer reads the lines the
    owner wrote. *)
Theorem content_transfer me objID id buf n s :
  signs_blocks me → os_healthy s → content_prefix objID id ≠ [] → no_content objID id (os_view s) →
  (0 ≤ n)%Z → (Z.of_nat (length buf) + 1 < 2 ^ 32)%Z → buf ≠ [] →
  ∃ s' hashs, SplitContentBlocks (Ok id) (Some objID) buf n s = (s', Ok (id, hashs)) ∧
    ∀ b b', bi_ID b = Some id → bi_objID b = Some objID → bi_NBlock b = Z.of_nat (length hashs) →
      bi_GetIsAllGood b = Ok (b', true) →
      ∃ sent, GetBlockList b 0 s' = Ok (b', sent) ∧
        ∀ peer info blocks, os_healthy peer → no_content objID id (os_view peer) → fresh_info objID id hashs info →
          blocks ≡ₚ sent →
          ∃ peer' info' info'' cs, accept_blocks blocks info me peer = (peer', Ok (info', true)) ∧
            bi_GetIsAllGood info' = Ok (info'', true) ∧
            GetContentBlockList info' 0 peer' = Ok (info'', cs) ∧ concat (cb_Buf <$> cs) = buf.
Proof.
  intros Hsig Hh Hp Hno Hn Hl Hbuf.
  destruct (split_content_loop_ok me objID id (length buf + 1) 0 n buf s) as (s' & rows & chunks & E & W & Hg & Hc & Hlen & _);
    [done|done|done|case_decide; lia|lia|].
  exists s', (hashes_of rows). unfold SplitContentBlocks. rewrite st_lift_bind, (stm_bind_ok _ _ _ _ _ E).
  destruct W as (Hh' & Hv & _ & _). split; [done|]. intros b b' Hid Hobj HN Hgood.
  rewrite hashes_of_length, (grid_ok_length _ _ _ _ _ _ Hg) in HN.
  exists (concat rows). split.
  - unfold GetBlockList. rewrite Hgood. cbn [mbind outcome_bind negb].
    destruct (bi_GetIsAllGood_fields _ _ _ Hgood) as (-> & -> & HN' & _). rewrite Hid, Hobj.
    rewrite (bl_iter_grid me objID id rows chunks s' (os_view s)) by (done || lia). cbn [mbind outcome_bind].
    unfold block_limit. rewrite HN', HN, u32_small by (unfold in_u32; lia). cbv zeta. rewrite Z.eqb_refl, Z.ltb_irrefl.
    rewrite (block_list_grid objID id); [done|by eapply grid_in_range].
  - intros peer info blocks Hhp Hnop Hfr Hperm.
    destruct (accept_grid me objID id rows chunks info blocks peer) as (peer' & info' & Ea & (Hh2 & Hv2 & _) & Hi1 & Hi2 & Hi3 & _ & info'' & Hgood2);
      [done|done|lia|done|done| |].
    { intros ->. apply Permutation_nil_l in Hperm. destruct rows as [|row rows].
      - destruct chunks; [|by destruct Hg]. simpl in Hc. by rewrite <- Hc in Hbuf.
      - pose proof (grid_row_length _ _ _ _ _ _ 0 row Hg eq_refl) as Hr. by destruct row. }
    exists peer', info', info''. eexists. split_and!; [done|done| |].
    + eapply GetContentBlockList_grid; try done; lia.
    + rewrite <- Hc. f_equal. apply list_eq. intros k. rewrite list_lookup_fmap, list_lookup_imap. by destruct (chunks !! k).
Qed.

(** ** Blocks of any peer *)

(** What [GetIsGood] and the setters leave alone. *)
Definition same_content (b b' : BlockInfo) : Prop :=
  bi_ID b' = bi_ID b ∧ bi_objID b' = bi_objID b ∧ bi_Hashs b' = bi_Hashs b.
#[local] Instance same_content_refl : Reflexive same_content.
Proof. intros b. done. Qed.
#[local] Instance same_content_trans : Transitive same_content.
Proof. intros ??? (?&?&?) (?&?&?). split_and!; congruence. Qed.

Lemma InitIsGood_same b b' : InitIsGood b = Ok b' → same_content b b'.
Proof. unfold InitIsGood. destruct (go_make _ _) as [m| |]; [|done..]. by intros [= <-]. Qed.

Lemma bi_GetIsGood_same b x y b' g : bi_GetIsGood b x y = Ok (b', g) → same_content b b'.
Proof.
  unfold bi_GetIsGood. assert ((b1 ← InitIsGood b; Ok (b1, false)) = Ok (b', g) → same_content b b') as Hinit.
  { destruct (InitIsGood b) as [b1| |] eqn:Ei; cbn [mbind outcome_bind]; [|done..]. intros [= <- _]. by apply InitIsGood_same. }
  destruct (_ <=? _)%Z; [by intros [= <- _]|]. destruct (_ <=? _)%Z; [by intros [= <- _]|].
  destruct (bi_IsGood b) as [m|]; [|done]. destruct (_ <? _)%Z; [done|].
  destruct (at2 _ _ _); cbn [mbind outcome_bind]; [|done..]. by intros [= <- _].
Qed.

Lemma bi_SetIsGood_same b x y v b' : bi_SetIsGood b x y v = Ok b' → same_content b b'.
Proof.
  unfold bi_SetIsGood, init_if_nil. intros E.
  destruct (match bi_IsGood b with None => _ | _ => _ end) as [b1| |] eqn:Ei; cbn [mbind outcome_bind] in E; [|done..].
  destruct (set2 _ _ _ _); cbn [mbind outcome_bind] in E; [|done..]. injection E as <-.
  destruct (bi_IsGood b); [by injection Ei as <-|]. by apply InitIsGood_same in Ei.
Qed.

Lemma shrinkBlocks_sub b blocks b' kept :
  shrinkBlocks b blocks = Ok (b', kept) → same_content b b' ∧ ∀ x, x ∈ kept → x ∈ blocks.
Proof.
  revert b b' kept. induction blocks as [|block blocks IH]; intros b b' kept E; cbn [shrinkBlocks] in E; [by injection E as <- <-|].
  destruct (bi_GetIsGood b _ _) as [[b1 g]| |] eqn:Eg; cbn [mbind outcome_bind] in E; [|done..].
  destruct (shrinkBlocks b1 blocks) as [[b2 kept']| |] eqn:Es; cbn [mbind outcome_bind] in E; [|done..].
  destruct (IH _ _ _ Es) as [I1 I2]. injection E as <- <-. split.
  - etrans; [by eapply bi_GetIsGood_same|done].
  - intros x Hx. destruct g; [right; by apply I2|]. apply elem_of_cons in Hx as [->|Hx]; [by left|right; by apply I2].
Qed.

(** The digest and the signature of the block are right for [b]. *)
Definition block_valid (b : BlockInfo) (creatorID : option PttID) (block : Block) : Prop :=
  ∃ hash, at2 (bi_Hashs b) (Z.to_nat (bl_BlockID block)) (Z.to_nat (bl_SubBlockID block)) = Ok hash ∧
          bl_Verify block hash creatorID = Ok tt.

Lemma verifyBlocks_valid blocks b creatorID :
  verifyBlocks blocks b creatorID = Ok tt → Forall (block_valid b creatorID) blocks.
Proof.
  induction blocks as [|block blocks IH]; intros E; [constructor|]. cbn [verifyBlocks] in E.
  destruct (at2 _ _ _) as [hash| |] eqn:Eh; cbn [mbind outcome_bind] in E; [|done..].
  destruct (bl_Verify _ _ _) as [[]| |] eqn:Ev; cbn [mbind outcome_bind] in E; [|done..].
  constructor; [by exists hash|by apply IH].
Qed.

(** The record is an old one, or one of the blocks under the identifiers of [b]. *)
Definition stored_as (b : BlockInfo) (block : Block) (k v : bytes) : Prop :=
  let stored := bl_SetDB (bi_objID b) (bi_ID b) block in
  bl_MarshalKey dbBlockPrefix stored = Ok k ∧ v = bl_Marshal stored.
Definition old_or (b : BlockInfo) (blocks : list Block) (s : OSt) (k v : bytes) : Prop :=
  os_view s !! k = Some v ∨ ∃ block, block ∈ blocks ∧ stored_as b block k v.

Lemma bl_Save_view b block s s' r :
  os_healthy s → bl_Save dbBlockPrefix (bl_SetDB (bi_objID b) (bi_ID b) block) s = (s', r) →
  os_healthy s' ∧ ∀ k v, os_view s' !! k = Some v → old_or b [block] s k v.
Proof.
  intros Hh. unfold bl_Save. destruct (bl_MarshalKey _ _) as [key|e|] eqn:Ek; [|by intros [= <- _]; split; [|left]..].
  rewrite st_lift_bind. set (stored := bl_SetDB _ _ _) in *.
  destruct (os_put_ok key (bl_Marshal stored) s Hh) as (s1 & -> & Hh1 & Hv & _). intros [= <- _].
  split; [done|]. intros k v. rewrite Hv. destruct (decide (k = key)) as [->|Hne].
  - rewrite lookup_insert_eq. intros [= <-]. right. exists block. split; [by left|done].
  - rewrite lookup_insert_ne by done. by left.
Qed.

Lemma saveBlocks_view b0 blocks b isSet s s' r :
  os_healthy s → same_content b0 b → saveBlocks blocks b isSet s = (s', r) →
  ∀ k v, os_view s' !! k = Some v → old_or b0 blocks s k v.
Proof.
  revert b isSet s. induction blocks as [|block blocks IH]; intros b isSet s Hh Hb E k v Hk; cbn [saveBlocks] in E.
  { injection E as <- _. by left. }
  destruct Hb as (HbI & HbO & HbH). rewrite HbI, HbO in E.
  destruct (bl_Save dbBlockPrefix (bl_SetDB (bi_objID b0) (bi_ID b0) block) s) as [s1 r1] eqn:Es.
  destruct (bl_Save_view _ _ _ _ _ Hh Es) as [Hh1 Hs1].
  assert (os_view s1 !! k = Some v → old_or b0 (block :: blocks) s k v) as Hlast.
  { intros [?|(x & Hx%list_elem_of_singleton & Hr)]%Hs1; [by left|]. subst x. right. exists block. split; [by left|done]. }
  assert (∀ b isSet, same_content b0 b → saveBlocks blocks b isSet s1 = (s', r) → old_or b0 (block :: blocks) s k v) as Hrest.
  { intros b1 i1 Hb1 E1. destruct (IH b1 i1 s1 Hh1 Hb1 E1 k v Hk) as [Hx|(x & Hx & Hr)]; [by apply Hlast|].
    right. exists x. split; [by right|done]. }
  destruct r1 as [[]|e|].
  - rewrite (stm_bind_ok _ _ _ _ _ (st_try_ok _ _ _ _ Es)) in E. cbv iota in E.
    destruct (bi_SetIsGood b _ _ true) as [b1|e|] eqn:Eb; [|injection E as <- _; by apply Hlast..].
    rewrite st_lift_bind in E. eapply Hrest; [|exact E]. etrans; [by split_and!|]. by eapply bi_SetIsGood_same.
  - rewrite (stm_bind_ok _ _ _ _ _ (st_try_err _ _ _ _ Es)) in E. cbv iota in E. eapply Hrest; [|exact E]. by split_and!.
  - unfold st_try, mbind, stm_bind in E. rewrite Es in E. injection E as <- _. by apply Hlast.
Qed.

(** Whatever blocks a peer sends, and however their handling ends, what is
    stored afterwards was stored before or is one of these blocks, under the
    identifiers of the content, its digest the one listed for its number and
    its signature one of the creator. *)
Theorem accepted_blocks_valid blocks b creatorID s s' r k v :
  os_healthy s → accept_blocks blocks b creatorID s = (s', r) → os_view s' !! k = Some v →
  os_view s !! k = Some v ∨ ∃ block, block ∈ blocks ∧ block_valid b creatorID block ∧ stored_as b block k v.
Proof.
  intros Hh E Hk. unfold accept_blocks in E.
  destruct (shrinkBlocks b blocks) as [[b1 kept]|e|] eqn:Es; [|injection E as <- _; by left..].
  rewrite st_lift_bind in E. destruct (shrinkBlocks_sub _ _ _ _ Es) as [Hsame Hsub].
  case_decide; [injection E as <- _; by left|].
  destruct (verifyBlocks kept b1 creatorID) as [[]|e|] eqn:Ev; [|injection E as <- _; by left..].
  rewrite st_lift_bind in E. apply verifyBlocks_valid in Ev.
  destruct (saveBlocks_view b kept b1 false s s' r Hh Hsame E k v Hk) as [Hl|(block & Hin & Hr)]; [by left|].
  right. exists block. split; [by apply Hsub|]. split; [|done].
  apply (proj1 (Forall_forall _ _) Ev) in Hin as (hash & H1' & H2'). exists hash.
  destruct Hsame as (_ & _ & <-). done.
Qed.

(** [Sign] with a key of [me] makes the block one that [Verify] accepts. *)
Lemma bl_Sign_verifies b key salt me :
  key_ok key me → length salt = SizeSalt →
  let '(b', _, r) := bl_Sign b key (Ok salt) in
  r = Ok tt ∧ bl_to_sign b' = bl_to_sign b ∧ signed_by (Some me) b'.
Proof.
  intros Hk Hs. unfold bl_Sign. rewrite SignData_eq. cbn [fst snd ki_Extra].
  rewrite (drop_app_length' (bl_Marshal (bl_to_sign b)) salt) by done.
  change (bl_Salt (bl_to_sign b)) with ZeroSalt. rewrite go_copy_salt by done. split; [done|]. split; [done|].
  unfold signed_by, bl_Verify. cbn [or_panic mbind outcome_bind]. by apply VerifyData_signed.
Qed.

End Block.

(** ** Witnesses *)

#[global] Instance Block_countable : Countable Block :=
  inj_countable' (λ b, (bl_V b, bl_ID b, bl_BlockID b, bl_SubBlockID b, bl_Buf b, bl_ObjID b, bl_Hash b, bl_Salt b, bl_Sig b, bl_Pub b, bl_KeyExtra b))
    (λ '(a, b, c, d, e, f, g, h, i, j, k), MkBlock a b c d e f g h i j k) ltac:(by intros []).

(** A codec whose text ends in a bracket. *)
Definition bracket_enc (l : list bytes) : bytes := codec_enc l ++ [x5d].
Definition bracket_dec (b : bytes) : option (list bytes) := codec_dec (take (length b - 1) b).
#[global, program] Instance codec_block : BlockJson := {|
  bl_Marshal := codec_enc; bl_Unmarshal := codec_dec; bufs_Marshal := bracket_enc; bufs_Unmarshal := bracket_dec;
  bl_roundtrip := codec_dec_enc |}.
Next Obligation.
  intros l. unfold bracket_dec, bracket_enc. rewrite length_app. simpl.
  rewrite take_app_length' by lia. apply codec_dec_enc.
Qed.
Next Obligation. intros l. exists x5d. unfold bracket_enc. by rewrite last_snoc. Qed.

(** Parity shards that repeat the data. *)
#[global, program] Instance mirror_rs : ReedSolomon := {|
  rs_Encode n shards := Ok (take n shards ++ take n shards);
  rs_Reconstruct n shards := Ok (drop n shards ++ drop n shards) |}.
Next Obligation.
  intros n data parity k Hd Hp Hk Hn Hf. exists data. rewrite take_app_length' by done. split_and!; [done|done| |].
  - by apply Forall_app in Hf as [Hf _].
  - by rewrite drop_app_length' by (by rewrite length_replicate).
Qed.

Definition w_SignBlock (n : nat) (b : Block) : outcome Block :=
  let '(b, _, r) := bl_Sign b w_key (Ok w_salt) in _ ← r; Ok b.
Lemma w_signs_blocks : signs_blocks w_SignBlock (Some w_signer).
Proof.
  intros n b. unfold w_SignBlock. pose proof (bl_Sign_verifies b w_key w_salt w_signer w_key_ok eq_refl) as Hs.
  destruct (bl_Sign b w_key (Ok w_salt)) as [[b' ki] r]. destruct Hs as (-> & Ht & Hv). exists b'. done.
Qed.

Definition w_obj : PttID := replicate SizePttID x0b.
Definition w_content : PttID := replicate SizePttID x0c.
Definition w_block_prefix : bytes := [x2e; x62; x69; x64; x62].
Definition w_lines : list bytes := [[x68; x65]; [x6c]; [x6f]].
Definition w_os : OSt (S := mem_store) := MkOS (MkBatch (MkDB mem_empty ∅) [] 0) ∅.
Lemma w_no_content obj id : no_content w_block_prefix obj id (os_view w_os).
Proof. intros k v Hk. unfold os_view, w_os in Hk. simpl in Hk. by rewrite lookup_empty in Hk. Qed.

(** The owner's [BlockInfo], with every sub-block marked. *)
Definition w_owner_info (n : nat) : BlockInfo :=
  MkBI CurrentVersion (Some w_content) (Z.of_nat n) [] None true None None (Some w_obj).

Lemma content_roundtrip_witness :
  ∃ s' hashs blocks, SplitContentBlocks w_block_prefix w_SignBlock (Ok w_content) (Some w_obj) w_lines 1 w_os = (s', Ok (w_content, hashs)) ∧
    GetContentBlockList w_block_prefix (w_owner_info (length hashs)) 0 s' = Ok (w_owner_info (length hashs), blocks) ∧
    concat (cb_Buf <$> blocks) = w_lines.
Proof.
  destruct (content_roundtrip w_block_prefix w_SignBlock (Some w_signer) w_obj w_content w_lines 1 w_os w_signs_blocks)
    as (s' & hashs & E & Hread & _).
  - done.
  - done.
  - apply w_no_content.
  - lia.
  - simpl. lia.
  - destruct (Hread (w_owner_info (length hashs)) (w_owner_info (length hashs))) as (blocks & E2 & Hc & _).
    + done.
    + done.
    + done.
    + unfold bi_GetIsAllGood, w_owner_info. simpl. by destruct (Z.of_nat (length hashs) =? 0)%Z.
    + by exists s', hashs, blocks.
Defined.

Lemma media_roundtrip_witness :
  ∃ s' hashs, SplitMediaBlocks w_block_prefix w_SignBlock (Ok w_content) (Some w_obj) [x68; x65; x6c] w_os = (s', Ok (w_content, hashs)) ∧
    media_GetBuf w_block_prefix (Some (w_owner_info (length hashs))) (Some w_obj) s' = Ok [x68; x65; x6c].
Proof.
  destruct (media_roundtrip w_block_prefix w_SignBlock (Some w_signer) w_obj w_content [x68; x65; x6c] w_os w_signs_blocks)
    as (s' & hashs & E & Hread).
  - done.
  - done.
  - apply w_no_content.
  - simpl. lia.
  - exists s', hashs. split; [exact E|]. by apply Hread.
Defined.

Lemma content_transfer_witness :
  ∃ s' hashs sent peer' info' info'' cs,
    SplitContentBlocks w_block_prefix w_SignBlock (Ok w_content) (Some w_obj) w_lines 1 w_os = (s', Ok (w_content, hashs)) ∧
    GetBlockList w_block_prefix (w_owner_info (length hashs)) 0 s' = Ok (w_owner_info (length hashs), sent) ∧
    accept_blocks w_block_prefix (reverse sent)
      (MkBI CurrentVersion (Some w_content) (Z.of_nat (length hashs)) hashs None false None None (Some w_obj)) (Some w_signer) w_os =
      (peer', Ok (info', true)) ∧
    GetContentBlockList w_block_prefix info' 0 peer' = Ok (info'', cs) ∧ concat (cb_Buf <$> cs) = w_lines.
Proof.
  destruct (content_transfer w_block_prefix w_SignBlock (Some w_signer) w_obj w_content w_lines 1 w_os w_signs_blocks)
    as (s' & hashs & E & Hsend).
  - done.
  - done.
  - apply w_no_content.
  - lia.
  - simpl. lia.
  - done.
  - destruct (Hsend (w_owner_info (length hashs)) (w_owner_info (length hashs))) as (sent & E2 & Hrecv).
    + done.
    + done.
    + done.
    + unfold bi_GetIsAllGood, w_owner_info. simpl. by destruct (Z.of_nat (length hashs) =? 0)%Z.
    + destruct (Hrecv w_os (MkBI CurrentVersion (Some w_content) (Z.of_nat (length hashs)) hashs None false None None (Some w_obj)) (reverse sent))
        as (peer' & info' & info'' & cs & E3 & E4 & E5 & E6).
      * done.
      * apply w_no_content.
      * split_and!; try done. by left.
      * apply reverse_Permutation.
      * by exists s', hashs, sent, peer', info', info'', cs.
Defined.

Definition w_owner_run := SplitContentBlocks w_block_prefix w_SignBlock (Ok w_content) (Some w_obj) w_lines 1 w_os.
Definition w_hashs : list (list bytes) := match w_owner_run.2 with Ok (_, h) => h | _ => [] end.
Definition w_sent : list Block :=
  match GetBlockList w_block_prefix (w_owner_info (length w_hashs)) 0 w_owner_run.1 with Ok (_, l) => l | _ => [] end.
Definition w_peer_info : BlockInfo :=
  MkBI CurrentVersion (Some w_content) (Z.of_nat (length w_hashs)) w_hashs None false None None (Some w_obj).

Lemma accepted_blocks_valid_witness :
  let '(s', r) := accept_blocks w_block_prefix (take 1 w_sent) w_peer_info (Some w_signer) w_os in
  let k := bl_key w_block_prefix w_obj w_content 0 0 in
  is_Some (os_view s' !! k) ∧
  ∀ v, os_view s' !! k = Some v → ∃ block, block ∈ take 1 w_sent ∧ block_valid w_peer_info (Some w_signer) block.
Proof.
  destruct (accept_blocks w_block_prefix (take 1 w_sent) w_peer_info (Some w_signer) w_os) as [s' r] eqn:E. split.
  - change s' with (s', r).1. rewrite <- E. refine (bool_decide_eq_true_1 _ _). vm_compute. reflexivity.
  - intros v Hv.
    destruct (accepted_blocks_valid w_block_prefix (take 1 w_sent) w_peer_info (Some w_signer) w_os s' r _ v ltac:(done) E Hv) as [Hx|Hx].
    + unfold os_view, w_os in Hx. simpl in Hx. by rewrite lookup_empty in Hx.
    + destruct Hx as (block & Hb1 & Hb2 & _). exists block. exact (conj Hb1 Hb2).
Defined.

Lemma unknown_block_panics_witness :
  let block := bl_SetDB (Some w_obj) (Some w_content) (NewBlock 2 0 []) in
  accept_blocks w_block_prefix [block] w_peer_info (Some w_signer) w_os = (w_os, Panic).
Proof.
  cbv zeta. apply (unknown_block_panics w_block_prefix w_peer_info).
  - vm_compute. split; discriminate || reflexivity.
  - vm_compute. reflexivity.
  - vm_compute. discriminate.
Defined.
