(* ===== verification/Object.v ===== *)
(** * Objects and their logs: [service/object.go], [service/object_utils.go],
    [service/sync_info.go], [service/protocol_{create,update,delete}_object_logs.go],
    [service/protocol_failed_*_object_log.go], [service/protocol_log_utils.go]

    An object is created, updated and deleted by oplogs.  What has arrived but
    is not complete yet waits in its [SyncInfo].  The handlers run under the
    lock of the object, on the database the oplogs are stored in as well. *)

From S2P Require Import Prelude GoTime CommonTypes Locks LevelDB PttDB MerkleNode Merkle OplogSign Oplog HandleOplogs Block.

Set Default Goal Selector "!".

(** ** Data

    The contents of an object and of a [SyncInfo], and how [ToObject] carries
    the second into the first, differ from one type of object to another. *)
Class ObjectData := {
  OData : Type;
  SData : Type;
  OData0 : OData;
  SData0 : SData;
  toData : SData → OData → OData;
  toData_idem s d : toData s (toData s d) = toData s d;
}.

Section data.
Context `{ObjectData}.

Record SyncInfo := MkSync {
  sy_LogID : option PttID; sy_UpdateTS : Timestamp; sy_UpdaterID : option PttID; sy_Status : Status;
  sy_BlockInfo : option BlockInfo; sy_IsGood : bool; sy_IsAllGood : bool; sy_data : SData }.

Record Object := MkObj {
  ob_V : Z; ob_ID : PttID; ob_CreateTS : Timestamp; ob_CreatorID : option PttID; ob_UpdaterID : option PttID;
  ob_EntityID : option PttID; ob_LogID : option PttID; ob_UpdateLogID : option PttID; ob_Status : Status;
  ob_IsGood : bool; ob_IsAllGood : bool; ob_BlockInfo : option BlockInfo;
  ob_UpdateTS : Timestamp; ob_SyncInfo : option SyncInfo; ob_data : OData }.

(** ** Setters, by what they change *)

Definition ob_set_status (st : Status) (o : Object) : Object :=
  MkObj (ob_V o) (ob_ID o) (ob_CreateTS o) (ob_CreatorID o) (ob_UpdaterID o) (ob_EntityID o) (ob_LogID o) (ob_UpdateLogID o)
    st (ob_IsGood o) (ob_IsAllGood o) (ob_BlockInfo o) (ob_UpdateTS o) (ob_SyncInfo o) (ob_data o).
Definition ob_set_ts (createTS updateTS : Timestamp) (o : Object) : Object :=
  MkObj (ob_V o) (ob_ID o) createTS (ob_CreatorID o) (ob_UpdaterID o) (ob_EntityID o) (ob_LogID o) (ob_UpdateLogID o)
    (ob_Status o) (ob_IsGood o) (ob_IsAllGood o) (ob_BlockInfo o) updateTS (ob_SyncInfo o) (ob_data o).
Definition ob_set_UpdateTS (ts : Timestamp) (o : Object) : Object := ob_set_ts (ob_CreateTS o) ts o.
Definition ob_set_logs (logID updateLogID : option PttID) (o : Object) : Object :=
  MkObj (ob_V o) (ob_ID o) (ob_CreateTS o) (ob_CreatorID o) (ob_UpdaterID o) (ob_EntityID o) logID updateLogID
    (ob_Status o) (ob_IsGood o) (ob_IsAllGood o) (ob_BlockInfo o) (ob_UpdateTS o) (ob_SyncInfo o) (ob_data o).
Definition ob_set_updater (id : option PttID) (o : Object) : Object :=
  MkObj (ob_V o) (ob_ID o) (ob_CreateTS o) (ob_CreatorID o) id (ob_EntityID o) (ob_LogID o) (ob_UpdateLogID o)
    (ob_Status o) (ob_IsGood o) (ob_IsAllGood o) (ob_BlockInfo o) (ob_UpdateTS o) (ob_SyncInfo o) (ob_data o).
Definition ob_set_good (isGood isAllGood : bool) (b : option BlockInfo) (o : Object) : Object :=
  MkObj (ob_V o) (ob_ID o) (ob_CreateTS o) (ob_CreatorID o) (ob_UpdaterID o) (ob_EntityID o) (ob_LogID o) (ob_UpdateLogID o)
    (ob_Status o) isGood isAllGood b (ob_UpdateTS o) (ob_SyncInfo o) (ob_data o).
Definition ob_set_sync (sy : option SyncInfo) (o : Object) : Object :=
  MkObj (ob_V o) (ob_ID o) (ob_CreateTS o) (ob_CreatorID o) (ob_UpdaterID o) (ob_EntityID o) (ob_LogID o) (ob_UpdateLogID o)
    (ob_Status o) (ob_IsGood o) (ob_IsAllGood o) (ob_BlockInfo o) (ob_UpdateTS o) sy (ob_data o).
Definition ob_set_data (d : OData) (o : Object) : Object :=
  MkObj (ob_V o) (ob_ID o) (ob_CreateTS o) (ob_CreatorID o) (ob_UpdaterID o) (ob_EntityID o) (ob_LogID o) (ob_UpdateLogID o)
    (ob_Status o) (ob_IsGood o) (ob_IsAllGood o) (ob_BlockInfo o) (ob_UpdateTS o) (ob_SyncInfo o) d.

Definition sy_set_status (st : Status) (s : SyncInfo) : SyncInfo :=
  MkSync (sy_LogID s) (sy_UpdateTS s) (sy_UpdaterID s) st (sy_BlockInfo s) (sy_IsGood s) (sy_IsAllGood s) (sy_data s).
Definition sy_set_good (isGood isAllGood : bool) (b : option BlockInfo) (s : SyncInfo) : SyncInfo :=
  MkSync (sy_LogID s) (sy_UpdateTS s) (sy_UpdaterID s) (sy_Status s) b isGood isAllGood (sy_data s).

(** ** [object_utils.go] *)

Definition SetNewObjectWithOplog (log : BaseOplog) (o : Object) : Object :=
  ob_set_updater (Some (o_CreatorID log))
    (ob_set_ts (o_UpdateTS log) (o_UpdateTS log)
      (ob_set_status (ToStatus log) (ob_set_logs (Some (o_ID log)) (ob_UpdateLogID o) o))).

Definition SetUpdateObjectWithOplog (log : BaseOplog) (o : Object) : Object :=
  ob_set_updater (Some (o_CreatorID log))
    (ob_set_UpdateTS (o_UpdateTS log)
      (ob_set_logs (ob_LogID o) (Some (o_ID log)) (ob_set_status StatusAlive o))).

Definition SetFailedObjectWithOplog (ts : Timestamp) (o : Object) : Object :=
  ob_set_sync None (ob_set_UpdateTS ts (ob_set_logs None (ob_UpdateLogID o) (ob_set_status StatusFailed o))).

(** [RemoveMeta] of the base object does nothing. *)
Definition SetDeleteObjectWithOplog (status : Status) (log : BaseOplog) (o : Object) : Object :=
  ob_set_sync None
    (ob_set_updater (Some (o_CreatorID log))
      (ob_set_UpdateTS (o_UpdateTS log) (ob_set_logs (Some (o_ID log)) (ob_UpdateLogID o) (ob_set_status status o)))).

Definition NewObjectWithOplog (entityID : option PttID) (id : PttID) (log : BaseOplog) (d : OData) : Object :=
  MkObj CurrentVersion id (o_UpdateTS log) (Some (o_CreatorID log)) (Some (o_CreatorID log)) entityID (Some (o_ID log)) None
    StatusInternalSync false false None ZeroTimestamp None d.

Definition AliveObjects (objs : list Object) : list Object := filter (λ o, ob_Status o = StatusAlive) objs.

Definition GetNewestLogID (o : Object) : option PttID :=
  if decide (ob_Status o = StatusAlive ∧ ob_UpdateLogID o ≠ None) then ob_UpdateLogID o else ob_LogID o.

(** ** [sync_info.go] *)

(** [BaseSyncInfo.ToObject], with the contents of the type at hand. *)
Definition ToObject (s : SyncInfo) (o : Object) : Object :=
  ob_set_logs (ob_LogID o) (sy_LogID s)
    (ob_set_sync None
      (ob_set_good true true (sy_BlockInfo s)
        (ob_set_updater (sy_UpdaterID s)
          (ob_set_UpdateTS (sy_UpdateTS s) (ob_set_status (sy_Status s) (ob_set_data (toData (sy_data s) (ob_data o)) o)))))).

(** [FromOplog], [InitWithOplog] *)
Definition sy_FromOplog (status : Status) (log : BaseOplog) (s : SyncInfo) : SyncInfo :=
  MkSync (Some (o_ID log)) (o_UpdateTS log) (Some (o_CreatorID log)) status (sy_BlockInfo s) (sy_IsGood s) (sy_IsAllGood s) (sy_data s).

(** [CheckIsAllGood] of either: the flags and the block information as they
    are left. *)
Definition check_all_good (isGood isAllGood : bool) (b : option BlockInfo) : outcome (bool * bool * option BlockInfo) :=
  if isAllGood then Ok (true, isAllGood, b) else
  if negb isGood then Ok (false, isAllGood, b) else
  match b with
  | None => Ok (true, true, b)
  | Some b =>
    '(b, g) ← bi_GetIsAllGood b;
    Ok (if (g : bool) then (true, true, Some b) else (false, isAllGood, Some b))
  end.
Definition sy_CheckIsAllGood (s : SyncInfo) : outcome (SyncInfo * bool) :=
  '(g, isAllGood, b) ← check_all_good (sy_IsGood s) (sy_IsAllGood s) (sy_BlockInfo s);
  Ok (sy_set_good (sy_IsGood s) isAllGood b s, g).
Definition ob_CheckIsAllGood (o : Object) : outcome (Object * bool) :=
  '(g, isAllGood, b) ← check_all_good (ob_IsGood o) (ob_IsAllGood o) (ob_BlockInfo o);
  Ok (ob_set_good (ob_IsGood o) isAllGood b o, g).

(** ** The JSON form

    [json.Unmarshal] into an object that has neither block information nor a
    [SyncInfo] nor contents of its own yet: of the fields marked [omitempty]
    the ones that are absent keep what the receiver has; [objID] of a
    [BlockInfo] is not serialised. *)
Definition bi_set_objID (id : option PttID) (b : BlockInfo) : BlockInfo :=
  MkBI (bi_V b) (bi_ID b) (bi_NBlock b) (bi_Hashs b) (bi_IsGood b) (bi_IsAllGood b) (bi_MediaIDs b) (bi_UpdaterID b) id.

Definition or_keep {A} (new old : option A) : option A := match new with Some x => Some x | None => old end.

Definition empty_receiver (r : Object) : Prop := ob_BlockInfo r = None ∧ ob_SyncInfo r = None ∧ ob_data r = OData0.

Definition sy_decoded (s : SyncInfo) : SyncInfo :=
  sy_set_good (sy_IsGood s) (sy_IsAllGood s) (bi_set_objID None <$> sy_BlockInfo s) s.
Definition ob_decoded (r o : Object) : Object :=
  MkObj (ob_V o) (ob_ID o) (ob_CreateTS o) (ob_CreatorID o) (ob_UpdaterID o) (or_keep (ob_EntityID o) (ob_EntityID r))
    (or_keep (ob_LogID o) (ob_LogID r)) (or_keep (ob_UpdateLogID o) (ob_UpdateLogID r)) (ob_Status o) (ob_IsGood o) (ob_IsAllGood o)
    (bi_set_objID None <$> ob_BlockInfo o) (ob_UpdateTS o) (sy_decoded <$> ob_SyncInfo o) (ob_data o).

Class ObjectJson := {
  ob_Marshal : Object → bytes;
  ob_Unmarshal : Object → bytes → option Object;
  ob_roundtrip r o : empty_receiver r → ob_Unmarshal r (ob_Marshal o) = Some (ob_decoded r o);
}.

(** ** Which of two pending changes waits in the [SyncInfo] *)

Definition StatusClass_num (c : StatusClass) : Z :=
  match c with
  | StatusClassInvalid => 0 | StatusClassInternalPendingAlive => 1 | StatusClassPendingAlive => 2 | StatusClassAlive => 3
  | StatusClassFailed => 4 | StatusClassInternalDelete => 5 | StatusClassPendingDelete => 6
  | StatusClassInternalTerminal => 7 | StatusClassPendingTerminal => 8 | StatusClassDeleted => 9 | StatusClassTerminal => 10
  end.

Definition sync_class (s : SyncInfo) : StatusClass :=
  match StatusToStatusClass (sy_Status s) with
  | StatusClassInternalTerminal => StatusClassInternalDelete
  | StatusClassPendingTerminal => StatusClassPendingDelete
  | StatusClassTerminal => StatusClassDeleted
  | c => c
  end.

(** [origLogID[:]] of a [nil] identifier panics. *)
Definition isReplaceOrigSyncInfo (syncInfo : option SyncInfo) (status : Status) (ts : Timestamp) (newLogID : PttID) : outcome bool :=
  match syncInfo with
  | None => Ok true
  | Some s =>
    let statusClass := StatusClass_num (StatusToStatusClass status) in
    let syncStatusClass := StatusClass_num (sync_class s) in
    if (statusClass <? syncStatusClass)%Z then Ok false else
    if (syncStatusClass <? statusClass)%Z then Ok true else
    if IsLess (sy_UpdateTS s) ts then Ok false else
    if IsLess ts (sy_UpdateTS s) then Ok true else
    origLogID ← or_panic (sy_LogID s);
    Ok (match bytes_compare origLogID newLogID with Gt => true | _ => false end)
  end.

End data.

(** ** Storing: [object.go], [media.go]

    An object is stored under a key that orders it by its update time, with an
    index entry under its identifier. *)

Section store.
Context {S : Type} `{LevelDB S, Json, ObjectJson}.

Variable env : nat → locktab → locktab.
Variable fullDBPrefix fullDBIdxPrefix dbBlockPrefix dbMediaIdxPrefix : bytes.

Abbreviation M := (stm (OSt (S := S))).

Definition ob_IdxKey (id : PttID) : bytes := fullDBIdxPrefix ++ id.
Definition ob_MarshalKey (o : Object) : bytes :=
  Concat [Some fullDBPrefix; Some (ts_marshal (ob_UpdateTS o)); Some (ob_ID o)].

Definition ob_KeyToID (key : bytes) : outcome PttID :=
  let lenKey := length key in
  if decide (lenKey < SizeDBKeyPrefix + SizePttID + SizePttID)%nat then Err SvcErrInvalidKey else
  k ← slice_from (lenKey - SizePttID) key;
  Ok (go_copy EmptyID k).

Definition ob_idx (o : Object) : Index := MkIndex (Some [Some (ob_MarshalKey o)]) (ob_UpdateTS o).
Definition ob_kvs (o : Object) : list KeyVal := [MkKV (Some (ob_MarshalKey o)) (ob_Marshal o)].

Definition ob_Save (isLocked : bool) (o : Object) : M unit :=
  with_obj_lock env isLocked (Some (ob_ID o)) (
    _ ← os_on_batch (λ b, let '(b, r) := ForcePutAll b (ob_IdxKey (ob_ID o)) (ob_idx o) (ob_kvs o) in (b, ret_err r));
    mret tt).

(** [GetValueByID], [GetByID]: decoding goes into [recv]; [IdxKey] of a [nil]
    identifier panics. *)
Definition ob_GetValueByID (isLocked : bool) (id : option PttID) : M bytes := λ s,
  (if isLocked then λ body : M bytes, body s else λ body,
    let '(l, e) := RLock env (os_lock s) id in
    match e with
    | Some e => (os_set_lock l s, Err e)
    | None => st_defer (λ s, match RUnlock (os_lock s) id with Ok l => os_set_lock l s | _ => s end) body (os_set_lock l s)
    end)
  (id ← st_lift (or_panic id); os_on_batch (λ b, GetByIdxKey b (ob_IdxKey id) 0)).

Definition ob_GetByID (isLocked : bool) (recv : Object) (id : option PttID) : M Object :=
  val ← ob_GetValueByID isLocked id;
  match ob_Unmarshal recv val with None => st_lift (Err ErrDecode) | Some o => mret o end.

(** The database of the block information is set where it is not yet; what its
    removal returns is dropped. *)
Definition ob_Delete (isLocked : bool) (o : Object) : M unit :=
  with_obj_lock env isLocked (Some (ob_ID o)) (
    _ ← os_DeleteAll (ob_IdxKey (ob_ID o));
    match ob_BlockInfo o with
    | None => mret tt
    | Some b =>
      let b := match bi_objID b with None => bi_set_objID (Some (ob_ID o)) b | Some _ => b end in
      _ ← st_try (bi_Remove env dbBlockPrefix dbMediaIdxPrefix false b);
      mret tt
    end).

Definition ob_DeleteByKey (key : bytes) (isLocked : bool) (o : Object) : M unit :=
  id ← st_lift (ob_KeyToID key);
  ob_Delete isLocked (MkObj (ob_V o) id (ob_CreateTS o) (ob_CreatorID o) (ob_UpdaterID o) (ob_EntityID o) (ob_LogID o)
    (ob_UpdateLogID o) (ob_Status o) (ob_IsGood o) (ob_IsAllGood o) (ob_BlockInfo o) (ob_UpdateTS o) (ob_SyncInfo o) (ob_data o)).

(** ** What is stored *)

Implicit Types (s : OSt (S := S)) (o : Object).

Definition ob_ready s (id : PttID) : Prop := bhealthy (os_b s) ∧ blocks (os_b s) !! ob_IdxKey id = None.

(** The record an index entry leads to. *)
Definition ob_value (m : gmap bytes bytes) (id : PttID) : outcome bytes :=
  match stored m (ob_IdxKey id) with
  | None => Err LDBErrNotFound
  | Some None => Err DBErrInvalidDBable
  | Some (Some i) => k ← index_key i 0; match m !! k with Some v => Ok v | None => Err LDBErrNotFound end
  end.

(** [o] is stored under [id], in a record of its own. *)
Definition holds (m : gmap bytes bytes) (id : PttID) o : Prop :=
  ob_ID o = id ∧ stored m (ob_IdxKey id) = Some (Some (ob_idx o)) ∧ m !! ob_MarshalKey o = Some (ob_Marshal o).

Definition prefixes_ok : Prop := length fullDBPrefix = length fullDBIdxPrefix ∧ fullDBPrefix ≠ fullDBIdxPrefix.

Lemma ob_MarshalKey_eq o : ob_MarshalKey o = fullDBPrefix ++ ts_marshal (ob_UpdateTS o) ++ ob_ID o.
Proof. unfold ob_MarshalKey. rewrite Concat_spec. unfold opt_concat. cbn [fmap list_fmap default concat]. by rewrite app_nil_r. Qed.

Lemma key_not_idx o id : prefixes_ok → ob_MarshalKey o ≠ ob_IdxKey id.
Proof. intros [Hl Hn] E. rewrite ob_MarshalKey_eq in E. unfold ob_IdxKey in E. by apply app_inj_1 in E as [? _]. Qed.

Lemma ob_record_ok o id : prefixes_ok → record_ok (ob_IdxKey id) (ob_idx o) (ob_kvs o).
Proof.
  intros Hp. split; [done|]. split; [repeat constructor; by eexists|]. split; [apply NoDup_singleton|].
  intros E%list_elem_of_singleton. by apply (key_not_idx o id).
Qed.

Lemma ob_Save_spec s o :
  ob_ready s (ob_ID o) → stored (bview (os_b s)) (ob_IdxKey (ob_ID o)) ≠ Some None →
  ∃ s', ob_Save true o s = (s', Ok tt) ∧
    bview (os_b s') = (spec_ForcePutAll (ob_IdxKey (ob_ID o)) (ob_idx o) (ob_kvs o) (bview (os_b s))).1 ∧
    os_lock s' = os_lock s ∧ bhealthy (os_b s') ∧ blocks (os_b s') = blocks (os_b s).
Proof.
  intros [Hh Hl] Hs. unfold ob_Save, with_obj_lock.
  destruct (ForcePutAll_refines (ob_IdxKey (ob_ID o)) (ob_idx o) (ob_kvs o) (os_b s) Hh Hl) as (Hr & Hv & Hh' & Hl').
  destruct (ForcePutAll (os_b s) _ _ _) as [b' r] eqn:E. cbn [fst snd] in *.
  exists (os_set_b b' s). split; [|done].
  rewrite (stm_bind_ok _ _ _ (os_set_b b' s) (match stored (bview (os_b s)) (ob_IdxKey (ob_ID o)) with Some (Some i) => Keys i | _ => None end)); [done|].
  unfold os_on_batch. rewrite E, Hr. unfold spec_ForcePutAll. by destruct (stored _ _) as [[|]|].
Qed.

(** The keys of the record that is replaced. *)
Definition ob_old_keys s (id : PttID) : list bytes :=
  match stored (bview (os_b s)) (ob_IdxKey id) with Some (Some i) => idx_keys i | _ => [] end.

(** Saving over whatever readable record there was: the object is then what is
    stored under its identifier, and other records are as before. *)
Lemma ob_Save_holds s o :
  prefixes_ok → ob_ready s (ob_ID o) → stored (bview (os_b s)) (ob_IdxKey (ob_ID o)) ≠ Some None →
  ∃ s', ob_Save true o s = (s', Ok tt) ∧ holds (bview (os_b s')) (ob_ID o) o ∧ ob_ready s' (ob_ID o) ∧ os_lock s' = os_lock s ∧
    blocks (os_b s') = blocks (os_b s) ∧
    ∀ k, k ≠ ob_IdxKey (ob_ID o) → k ≠ ob_MarshalKey o → k ∉ ob_old_keys s (ob_ID o) → bview (os_b s') !! k = bview (os_b s) !! k.
Proof.
  intros Hp Hr Hs. destruct (ob_Save_spec s o Hr Hs) as (s' & E & Hv & Hl & Hh & Hb). exists s'. split; [done|].
  assert (bview (os_b s') = put_record (ob_IdxKey (ob_ID o)) (ob_idx o) (ob_kvs o) (del_keys (ob_old_keys s (ob_ID o)) (bview (os_b s)))) as Hm.
  { rewrite Hv. unfold spec_ForcePutAll, ob_old_keys. by destruct (stored _ _) as [[|]|]. }
  split; [|split; [split; [done|by rewrite Hb; apply Hr]|split; [done|split; [done|]]]].
  - unfold holds, stored. rewrite Hm. unfold put_record, ob_kvs. cbn [foldl K V key_of].
    split; [done|]. split.
    + rewrite lookup_insert_ne by (by apply key_not_idx). rewrite lookup_insert_eq. simpl. by rewrite Index_roundtrip.
    + by rewrite lookup_insert_eq.
  - intros k K1 K2 K3. rewrite Hm. rewrite put_record_other; [|done|].
    + rewrite lookup_del_keys. by rewrite decide_False.
    + intros Hin%list_elem_of_singleton. done.
Qed.

Lemma ob_GetValueByID_eq s id :
  ob_ready s id → ob_GetValueByID true (Some id) s = (s, ob_value (bview (os_b s)) id).
Proof.
  intros [Hh Hl]. unfold ob_GetValueByID. cbn [or_panic]. rewrite st_lift_bind. unfold os_on_batch, GetByIdxKey.
  rewrite with_rlock_ok by (unfold blocks in Hl; rewrite Hl; done).
  rewrite ldb_get_ok by done. unfold ob_value, stored, bview. destruct s as [[d bo bs] l]. unfold os_set_b. simpl.
  destruct (ldb_view (db d) !! ob_IdxKey id) as [v|]; simpl; [|done].
  destruct (Index_Unmarshal v) as [i|]; simpl; [|done].
  destruct (index_key i 0) as [k| |]; simpl; [|done..]. rewrite ldb_get_ok by done. by destruct (_ !! k).
Qed.

Lemma ob_GetByID_holds s recv id o :
  ob_ready s id → holds (bview (os_b s)) id o → empty_receiver recv →
  ob_GetByID true recv (Some id) s = (s, Ok (ob_decoded recv o)).
Proof.
  intros Hr (Hid & Hi & Hk) He. unfold ob_GetByID.
  rewrite (stm_bind_ok _ _ _ s (ob_Marshal o)); [by rewrite ob_roundtrip|].
  rewrite ob_GetValueByID_eq by done. unfold ob_value. rewrite Hi. simpl. by rewrite Hk.
Qed.

End store.

(** ** Witnesses *)

(** Contents that are a string of bytes, carried over whole. *)
#[global, program] Instance bytes_data : ObjectData := {|
  OData := bytes; SData := bytes; OData0 := []; SData0 := []; toData s d := s |}.
Next Obligation. done. Qed.

#[global] Instance Status_countable : Countable Status.
Proof.
  refine (inj_countable' Status_num (λ z, default StatusInvalid (head (filter (λ s, Status_num s = z)
    [StatusInvalid; StatusInit; StatusInternalSync; StatusInternalPending; StatusPending; StatusSync; StatusToBeSynced; StatusAlive;
     StatusFailed; StatusInternalDeleted; StatusInternalRevoke; StatusInternalTransfer; StatusInternalMigrate; StatusInternalTerminal;
     StatusPendingDeleted; StatusPendingRevoke; StatusPendingTransfer; StatusPendingMigrate; StatusPendingTerminal; StatusDeleted;
     StatusRevoked; StatusTransferred; StatusMigrated; StatusTerminal]))) _).
  by intros [].
Defined.
#[global] Instance BlockInfo_countable : Countable BlockInfo :=
  inj_countable' (λ b, (bi_V b, bi_ID b, bi_NBlock b, bi_Hashs b, bi_IsGood b, bi_IsAllGood b, bi_MediaIDs b, bi_UpdaterID b, bi_objID b))
    (λ '(a, b, c, d, e, f, g, h, i), MkBI a b c d e f g h i) ltac:(by intros []).

Definition sync_tuple (s : SyncInfo) :=
  (sy_LogID s, sy_UpdateTS s, sy_UpdaterID s, sy_Status s, sy_BlockInfo s, sy_IsGood s, sy_IsAllGood s, sy_data s : bytes).
Definition sync_of_tuple '(a, b, c, d, e, f, g, h) : SyncInfo := MkSync a b c d e f g (h : bytes).
Definition object_tuple (o : Object) :=
  (ob_V o, ob_ID o, ob_CreateTS o, ob_CreatorID o, ob_UpdaterID o, ob_EntityID o, ob_LogID o, ob_UpdateLogID o, ob_Status o,
   ob_IsGood o, ob_IsAllGood o, ob_BlockInfo o, ob_UpdateTS o, sync_tuple <$> ob_SyncInfo o, ob_data o : bytes).
Definition object_of_tuple '(a, b, c, d, e, f, g, h, i, j, k, l, m, n, p) : Object :=
  MkObj a b c d e f g h i j k l m (sync_of_tuple <$> n) (p : bytes).

Lemma object_tuple_inv o : object_of_tuple (object_tuple o) = o.
Proof. destruct o as [? ? ? ? ? ? ? ? ? ? ? ? ? [[]|] ?]; done. Qed.

#[global, program] Instance codec_object : ObjectJson := {|
  ob_Marshal o := codec_enc (object_tuple o);
  ob_Unmarshal r b := (λ t, ob_decoded r (object_of_tuple t)) <$> codec_dec b |}.
Next Obligation. intros r o _. simpl. rewrite codec_dec_enc. exact (f_equal (Some ∘ ob_decoded r) (object_tuple_inv o)). Qed.

Definition w_entity : PttID := replicate SizePttID x0e.
(** An empty object whose database has been set. *)
Definition w_recv : Object :=
  MkObj 0 EmptyID ZeroTimestamp None None (Some w_entity) None None StatusInvalid false false None ZeroTimestamp None [].
Lemma w_recv_empty : empty_receiver w_recv.
Proof. done. Qed.
