(* ===== verification/ObjectLogs.v ===== *)
(** * Handling the logs of objects: [service/protocol_log_utils.go],
    [service/protocol_{create,update,delete}_object_logs.go],
    [service/protocol_failed_*_object_log.go],
    [service/protocol_sync_{create,update}_{object,block}_ack.go],
    [service/protocol_{create,update,delete}_object.go]

    An object is created, updated and deleted by oplogs.  The handlers run
    under the lock of the object and on the database in which the oplogs are
    stored as well; the oplog at hand is the one of [HandleOplogs].  What has
    arrived but is not complete yet waits in the [SyncInfo] of the object. *)

From S2P Require Import Prelude GoTime CommonTypes Locks LevelDB PttDB MerkleNode Merkle OplogSign Oplog HandleOplogs OplogList Block Object.

Set Default Goal Selector "!".

Section ObjectLogs.
Context {S : Type} `{LevelDB S, Json, JsonInts, Crypto, !Signing, OplogJson, BlockJson, ObjectJson}.
Variable c : OplogDB.
(** What other goroutines do to the locks of oplogs and of objects. *)
Variable env env_obj : nat → locktab → locktab.
Variable fullDBPrefix fullDBIdxPrefix dbBlockPrefix dbMediaIdxPrefix : bytes.
Context {Info OpData : Type}.
(** [json.Unmarshal] into the operation data at hand. *)
Variable od_Unmarshal : bytes → option OpData.
Variable myID : PttID.

(** The information of the caller, and the locks of the objects. *)
Record ObjInfo := MkOI { oi_lock : locktab; oi_info : Info }.
Abbreviation ST := (HSt (S := S) (Info := ObjInfo)).
Abbreviation HM := (stm ST).

Definition set_oi_lock (l : locktab) (s : ST) : ST := MkH (h_st s) (MkOI l (oi_info (h_info s))).

(** A call on the objects, on the shared database. *)
Definition on_os {A} (m : stm (OSt (S := S)) A) : HM A := λ s,
  let '(x, r) := m (MkOS (st_b (h_st s)) (oi_lock (h_info s))) in
  (MkH (set_b (os_b x) (h_st s)) (MkOI (os_lock x) (oi_info (h_info s))), r).

(** [obj.Lock(); defer obj.Unlock()] *)
Definition obj_lock {A} (id : option PttID) (body : HM A) : HM A := λ s,
  let '(l, e) := Lock env_obj (oi_lock (h_info s)) id in
  match e with
  | Some e => (set_oi_lock l s, Err e)
  | None =>
    st_defer (λ s, match Unlock (oi_lock (h_info s)) id with Ok l => set_oi_lock l s | _ => s end) body (set_oi_lock l s)
  end.

Definition obj_rlock {A} (id : option PttID) (body : HM A) : HM A := λ s,
  let '(l, e) := RLock env_obj (oi_lock (h_info s)) id in
  match e with
  | Some e => (set_oi_lock l s, Err e)
  | None =>
    st_defer (λ s, match RUnlock (oi_lock (h_info s)) id with Ok l => set_oi_lock l s | _ => s end) body (set_oi_lock l s)
  end.

(** The same handler on another oplog. *)
Definition on_other {A} (o : BaseOplog) (m : HM A) : HM A := λ s,
  let '(x, r) := m (h_set (set_o (λ _, o)) s) in (h_set (set_o (λ _, h_o s)) x, r).

Definition obj_GetByID (recv : Object) (id : option PttID) : HM Object :=
  on_os (ob_GetByID env_obj fullDBIdxPrefix true recv id).
Definition obj_Save (o : Object) : HM unit := on_os (ob_Save env_obj fullDBPrefix fullDBIdxPrefix true o).
Definition obj_Delete (o : Object) : HM unit :=
  on_os (ob_Delete env_obj fullDBIdxPrefix dbBlockPrefix dbMediaIdxPrefix true o).

Definition get_log : HM BaseOplog := s ← st_get; mret (h_o s).

(** [oplog.GetData(opData)] *)
Definition GetData : HM OpData :=
  o ← get_log;
  match od_Unmarshal (o_Data o) with None => st_lift (Err ErrDecode) | Some d => mret d end.

(** A call whose error is dropped. *)
Definition ignore {A} (m : HM A) : HM unit := _ ← st_try m; mret tt.
Definition call_opt {A} (f : option (A → HM unit)) (a : A) : HM unit :=
  match f with None => mret tt | Some f => f a end.

(** ** [protocol_log_utils.go] *)

(** The callback returns nothing. *)
Definition removeBlockAndMediaInfoByBlockInfo (blockInfo : option BlockInfo) (hasInfo isRemoveDB : bool)
    (removeMediaInfoByBlockInfo : option (BlockInfo → HM unit)) : HM unit :=
  match blockInfo with
  | None => mret tt
  | Some b =>
    _ ← (if hasInfo then ignore (call_opt removeMediaInfoByBlockInfo b) else mret tt);
    if isRemoveDB then
      o ← get_log;
      ignore (on_os (bi_Remove env_obj dbBlockPrefix dbMediaIdxPrefix false (bi_set_objID (o_ObjID o) b)))
    else mret tt
  end.

(** A [nil] identifier is not locked, and panics when it is looked up. *)
Definition removeNonSyncOplog (logID : option PttID) (isRetainValid : bool) (newUpdateTS : Timestamp) (isLocked : bool) :
    HM (option BaseOplog) :=
  logID ← st_lift (or_panic logID);
  (if isLocked then λ body, body else h_lock env logID) (
    o ← on_st (oplog_Get c env logID true);
    on_other o (
      let status := ToStatus o in
      if o_IsSync o && bool_decide (status = StatusAlive) then mret None else
      if isRetainValid && bool_decide (status = StatusAlive) && IsLess (o_UpdateTS o) newUpdateTS then
        _ ← h_sync;
        _ ← ignore (on_st (Save c env true));
        o ← get_log; mret (Some o)
      else
        e ← on_st (oplog_Delete c env true);
        match e with Some e => st_lift (Err e) | None => mret None end)).

Definition removeBlockAndMediaInfoBySyncInfo (syncInfo : SyncInfo) (hasInfo isRetainValid : bool)
    (removeMediaInfoByBlockInfo : option (BlockInfo → HM unit)) : HM unit :=
  o ← get_log;
  _ ← removeNonSyncOplog (sy_LogID syncInfo) isRetainValid (o_UpdateTS o) false;
  removeBlockAndMediaInfoByBlockInfo (sy_BlockInfo syncInfo) hasInfo true removeMediaInfoByBlockInfo.

(** ** Creating *)

Definition saveNewObjectWithOplog (obj : Object) (isLocked isForceNot : bool) (postcreate : option (Object → HM unit)) : HM Object :=
  (if isLocked then λ body, body else obj_lock (Some (ob_ID obj))) (
    o ← get_log;
    let isAllGood := ob_IsAllGood obj in
    let obj := if isAllGood then SetNewObjectWithOplog o obj else obj in
    _ ← (if isAllGood then h_sync else mret tt);
    _ ← obj_Save obj;
    if isForceNot then mret obj else
    if negb isAllGood then mret obj else
    _ ← (if decide (ToStatus o ≠ StatusAlive) then mret tt else call_opt postcreate obj);
    mret obj).

Section create.
Variable existsInInfo : HM bool.
Variable newObjWithOplog : BaseOplog → OpData → option Object.
Variable postcreate : option (Object → HM unit).
Variable updateCreateInfo : Object → OpData → HM unit.

Definition handleCreateObjectNewLog (opData : OpData) : HM unit :=
  isExists ← existsInInfo;
  if (isExists : bool) then mret tt else
  o ← get_log;
  match newObjWithOplog o opData with
  | None => st_lift (Err SvcErrInvalidOplog)
  | Some obj =>
    _ ← obj_Save obj;
    if o_IsNewer o then mret tt else updateCreateInfo obj opData
  end.

Definition handleCreateObjectSameLog (origObj : Object) (opData : OpData) : HM unit :=
  o ← get_log;
  let origStatus := ob_Status origObj in
  if decide (origStatus = StatusInternalSync) then
    (if o_IsNewer o then mret tt else updateCreateInfo origObj opData)
  else
    let oplogStatus := ToStatus o in
    if (Status_num oplogStatus <? Status_num origStatus)%Z
       || bool_decide (oplogStatus = origStatus) && IsLessEqual (ob_UpdateTS origObj) (o_UpdateTS o)
    then st_lift (Err SvcErrNewerOplog) else
    _ ← saveNewObjectWithOplog origObj true (bool_decide (oplogStatus = origStatus)) postcreate; mret tt.

Definition handleCreateObjectDiffLog : HM unit := st_lift (Err SvcErrNewerOplog).

Definition handleCreateObjectLogCore (obj : Object) : HM unit :=
  o ← get_log;
  let objID := o_ObjID o in
  opData ← GetData;
  obj_lock objID (
    r ← st_try (obj_GetByID obj objID);
    match r with
    | inr LDBErrNotFound => handleCreateObjectNewLog opData
    | inr e => st_lift (Err e)
    | inl origObj =>
      if decide (ob_Status origObj = StatusFailed ∧ o_MasterLogID o ≠ None) then
        _ ← ignore (removeBlockAndMediaInfoByBlockInfo (ob_BlockInfo origObj) false true None);
        _ ← ignore (obj_Delete (ob_set_good (ob_IsGood origObj) (ob_IsAllGood origObj) (bi_set_objID objID <$> ob_BlockInfo origObj) origObj));
        handleCreateObjectNewLog opData
      else
        let newestLogID := match ob_UpdateLogID origObj with None => ob_LogID origObj | Some id => Some id end in
        if decide (newestLogID = Some (o_ID o)) then handleCreateObjectSameLog origObj opData
        else handleCreateObjectDiffLog
    end).

Definition HandleCreateObjectLog (obj : Object) : HM (list BaseOplog * option GoErr) :=
  r ← st_try (handleCreateObjectLogCore obj);
  mret ([], match r with inl _ => None | inr e => Some e end).
Definition HandlePendingCreateObjectLog (obj : Object) : HM (bool * list BaseOplog * option GoErr) :=
  r ← st_try (handleCreateObjectLogCore obj);
  o ← get_log;
  mret (o_IsSync o, [], match r with inl _ => None | inr e => Some e end).
End create.

(** ** Updating *)

Section update.
Variable hasInfo : bool.
Variable removeMediaInfoByBlockInfo : option (BlockInfo → HM unit).
Variable postupdate : option (Object → HM unit).

Definition saveUpdateObjectWithOplog (obj : Object) (isLocked : bool) : HM Object :=
  (if isLocked then λ body, body else obj_lock (Some (ob_ID obj))) (
    o ← get_log;
    let obj := SetUpdateObjectWithOplog o obj in
    _ ← h_sync;
    _ ← obj_Save obj;
    mret obj).

(** The objects and [SyncInfo]s are shared with the callers: they get them
    back as they are left. *)
Definition handleUpdateObjectNewLog (obj : Object) (newSyncInfo : SyncInfo) : HM (Object * SyncInfo) :=
  '(newSyncInfo, isAllGood) ← st_lift (sy_CheckIsAllGood newSyncInfo);
  o ← get_log;
  let status := ToStatus o in
  if (isAllGood : bool) && bool_decide (status = StatusAlive) then
    obj ← saveUpdateObjectWithOplog (ToObject newSyncInfo obj) true;
    _ ← call_opt postupdate obj;
    mret (obj, newSyncInfo)
  else
    let newSyncInfo := if isAllGood then sy_set_status status newSyncInfo else newSyncInfo in
    let obj := ob_set_sync (Some newSyncInfo) obj in
    _ ← obj_Save obj;
    mret (obj, newSyncInfo).

Definition handleUpdateObjectSameLog (obj : Object) (origSyncInfo : SyncInfo) : HM (Object * SyncInfo) :=
  handleUpdateObjectNewLog (ob_set_sync None obj) origSyncInfo.

Definition handleUpdateObjectDiffLog (obj : Object) (origSyncInfo newSyncInfo : SyncInfo) (isRetainValid : bool) : HM (Object * SyncInfo) :=
  _ ← removeBlockAndMediaInfoBySyncInfo origSyncInfo hasInfo isRetainValid removeMediaInfoByBlockInfo;
  handleUpdateObjectNewLog (ob_set_sync None obj) newSyncInfo.

(** The [SyncInfo] that was replaced comes back with the object. *)
Definition handleUpdateObjectWithNewSyncInfo (obj : Object) (newSyncInfo : SyncInfo) (isRetainValid : bool) :
    HM (Object * option SyncInfo) :=
  match ob_SyncInfo obj with
  | None => '(obj, _) ← handleUpdateObjectNewLog obj newSyncInfo; mret (obj, None)
  | Some syncInfo =>
    o ← get_log;
    isReplaceSyncInfo ← st_lift (isReplaceOrigSyncInfo (Some syncInfo) (ToStatus o) (o_UpdateTS o) (o_ID o));
    if negb isReplaceSyncInfo then st_lift (Err SvcErrNewerOplog) else
    if decide (sy_LogID syncInfo = Some (o_ID o)) then
      '(obj, _) ← handleUpdateObjectSameLog obj syncInfo; mret (obj, None)
    else
      '(obj, _) ← handleUpdateObjectDiffLog obj syncInfo newSyncInfo isRetainValid; mret (obj, Some syncInfo)
  end.

Variable updateUpdateInfo : option (Object → option OpData → option SyncInfo → HM unit).

Definition handleUpdateObjectCoreCore (opData : OpData) (origObj : Object) (newSyncInfo : SyncInfo) (isRetainValid : bool) : HM unit :=
  '(origObj, removeSyncInfo) ← handleUpdateObjectWithNewSyncInfo origObj newSyncInfo isRetainValid;
  match updateUpdateInfo with
  | Some f => if hasInfo then f origObj (Some opData) removeSyncInfo else mret tt
  | None => mret tt
  end.

Variable syncInfoFromOplog : BaseOplog → OpData → outcome SyncInfo.

Definition handleUpdateObjectCore (obj : Object) (isRetainValid : bool) : HM unit :=
  o ← get_log;
  let objID := o_ObjID o in
  obj_lock objID (
    r ← st_try (obj_GetByID obj objID);
    match r with
    | inr _ => st_lift (Err SvcErrNewerOplog)
    | inl origObj =>
      if (Status_num StatusDeleted <=? Status_num (ob_Status origObj))%Z then st_lift (Err SvcErrNewerOplog) else
      if decide (ob_LogID origObj ≠ o_PreLogID o) then st_lift (Err SvcErrInvalidPreLog) else
      if decide (Some (o_ID o) = ob_UpdateLogID origObj) then obj_Save (ob_set_UpdateTS (o_UpdateTS o) origObj) else
      if IsLess (o_UpdateTS o) (ob_UpdateTS origObj) then st_lift (Err SvcErrNewerOplog) else
      if o_IsNewer o then st_lift (Err SvcErrNewerOplog) else
      opData ← GetData;
      newSyncInfo ← st_lift (syncInfoFromOplog o opData);
      handleUpdateObjectCoreCore opData origObj (sy_set_status StatusInternalSync newSyncInfo) isRetainValid
    end).

Definition HandleUpdateObjectLog (obj : Object) : HM (list BaseOplog * option GoErr) :=
  r ← st_try (handleUpdateObjectCore obj true);
  mret ([], match r with inl _ => None | inr e => Some e end).
Definition HandlePendingUpdateObjectLog (obj : Object) : HM (bool * list BaseOplog * option GoErr) :=
  r ← st_try (handleUpdateObjectCore obj false);
  o ← get_log;
  mret (match r with inl _ => (o_IsSync o, [], None) | inr e => (false, [], Some e) end).
End update.

(** ** Deleting *)

Section delete.
Variable hasInfo : bool.
Variable removeMediaInfoByBlockInfo : option (BlockInfo → HM unit).
(** [postdelete(objID, oplog, opData, origObj, blockInfo)]; its error and that of [updateDeleteInfo] are dropped. *)
Variable postdelete : option (Object → HM unit).
Variable updateDeleteInfo : Object → HM unit.
Variable setPendingDeleteSyncInfo : Object → Status → BaseOplog → Object.

Definition saveDeleteObjectWithOplog (obj : Object) (status : Status) (isLocked : bool) : HM Object :=
  (if isLocked then λ body, body else obj_lock (Some (ob_ID obj))) (
    o ← get_log;
    let obj := SetDeleteObjectWithOplog status o obj in
    _ ← obj_Save obj;
    _ ← h_sync;
    mret obj).

Definition delete_status (o : BaseOplog) : Status :=
  StatusToDeleteStatus (ToStatus o) StatusInternalDeleted StatusPendingDeleted StatusDeleted.

Definition handleDeleteObjectLogCore (origObj : Object) : HM unit :=
  o ← get_log;
  origObj ←
    match ob_SyncInfo origObj with
    | None => mret origObj
    | Some origSyncInfo =>
      isReplaceSyncInfo ← st_lift (isReplaceOrigSyncInfo (Some origSyncInfo) (delete_status o) (o_UpdateTS o) (o_ID o));
      if (isReplaceSyncInfo : bool) then
        _ ← (if decide (sy_LogID origSyncInfo ≠ Some (o_ID o))
             then removeBlockAndMediaInfoBySyncInfo origSyncInfo hasInfo true removeMediaInfoByBlockInfo else mret tt);
        mret (ob_set_sync None origObj)
      else mret origObj
    end;
  _ ← removeBlockAndMediaInfoByBlockInfo (ob_BlockInfo origObj) hasInfo true removeMediaInfoByBlockInfo;
  if decide (Status_num (ob_Status origObj) < Status_num StatusAlive ∧ myID ≠ o_CreatorID o)%Z then
    _ ← ignore (obj_Delete (ob_set_good (ob_IsGood origObj) (ob_IsAllGood origObj) (bi_set_objID (o_ObjID o) <$> ob_BlockInfo origObj) origObj));
    _ ← ignore (updateDeleteInfo origObj);
    st_lift (Err SvcErrSkipOplog)
  else
    origObj ← saveDeleteObjectWithOplog origObj StatusDeleted true;
    _ ← ignore (call_opt postdelete origObj);
    _ ← h_sync;
    if negb hasInfo then mret tt else ignore (updateDeleteInfo origObj).

Definition handleDeleteObjectLog (obj : Object) : HM unit :=
  o ← get_log;
  let objID := o_ObjID o in
  _ ← GetData;
  obj_lock objID (
    r ← st_try (obj_GetByID obj objID);
    match r with
    | inr _ => st_lift (Err SvcErrNewerOplog)
    | inl origObj =>
      if (Status_num StatusDeleted <=? Status_num (ob_Status origObj))%Z then
        _ ← (if IsLess (o_UpdateTS o) (ob_UpdateTS origObj)
             then _ ← saveDeleteObjectWithOplog origObj StatusDeleted true; mret tt else mret tt);
        st_lift (Err SvcErrNewerOplog)
      else handleDeleteObjectLogCore origObj
    end).
Definition HandleDeleteObjectLog (obj : Object) : HM (list BaseOplog * option GoErr) :=
  r ← st_try (handleDeleteObjectLog obj);
  mret ([], match r with inl _ => None | inr e => Some e end).

Definition handlePendingDeleteObjectLogCore (origObj : Object) : HM unit :=
  o ← get_log;
  let oplogStatus := delete_status o in
  origObj ←
    match ob_SyncInfo origObj with
    | None => mret origObj
    | Some origSyncInfo =>
      isReplaceSyncInfo ← st_lift (isReplaceOrigSyncInfo (Some origSyncInfo) oplogStatus (o_UpdateTS o) (o_ID o));
      if negb isReplaceSyncInfo then st_lift (Err ErrAlreadyPending) else
      _ ← (if decide (sy_LogID origSyncInfo ≠ Some (o_ID o))
           then removeBlockAndMediaInfoBySyncInfo origSyncInfo hasInfo false removeMediaInfoByBlockInfo else mret tt);
      mret (ob_set_sync None origObj)
    end;
  let origObj := setPendingDeleteSyncInfo origObj oplogStatus o in
  _ ← obj_Save origObj;
  if negb hasInfo then mret tt else ignore (updateDeleteInfo origObj).

Definition handlePendingDeleteObjectLog (obj : Object) : HM unit :=
  o ← get_log;
  let objID := o_ObjID o in
  obj_lock objID (
    r ← st_try (obj_GetByID obj objID);
    match r with
    | inr _ => st_lift (Err SvcErrNewerOplog)
    | inl origObj =>
      if decide (ob_Status origObj = StatusDeleted) then st_lift (Err SvcErrNewerOplog)
      else handlePendingDeleteObjectLogCore origObj
    end).
Definition HandlePendingDeleteObjectLog (obj : Object) : HM (bool * list BaseOplog * option GoErr) :=
  r ← st_try (handlePendingDeleteObjectLog obj);
  mret (match r with inl _ => (true, [], None) | inr e => (false, [], Some e) end).
End delete.

(** ** Failed oplogs; [ts] is what the clock returns *)

(** [obj.Lock()], [obj.GetByID(true)]; what cannot be read is taken as
    deleted. *)
Definition on_stored_obj (recv : Object) (body : Object → HM unit) : HM unit :=
  o ← get_log;
  obj_lock (o_ObjID o) (
    r ← st_try (obj_GetByID recv (o_ObjID o));
    match r with inr _ => mret tt | inl obj => body obj end).

(** The check the handlers of a failed creation and of a failed valid oplog
    share. *)
Definition not_the_create_log (obj : Object) (o : BaseOplog) : Prop :=
  ob_UpdateLogID obj ≠ None ∨ ob_LogID obj ≠ Some (o_ID o) ∨ IsLess (o_UpdateTS o) (ob_UpdateTS obj) = true.
#[global] Instance not_the_create_log_dec obj o : Decision (not_the_create_log obj o).
Proof. unfold not_the_create_log. apply _. Defined.

Definition save_failed (ts : outcome Timestamp) (obj : Object) : HM Object :=
  ts ← st_lift ts;
  let obj := SetFailedObjectWithOplog ts obj in
  _ ← obj_Save obj;
  mret obj.

Definition HandleFailedCreateObjectLog (obj : Object) (prefailed : option (Object → HM unit)) (ts : outcome Timestamp) : HM unit :=
  on_stored_obj obj (λ obj,
    o ← get_log;
    if decide (not_the_create_log obj o) then mret tt else
    _ ← call_opt prefailed obj;
    if decide (Some myID ≠ ob_CreatorID obj) then
      _ ← removeBlockAndMediaInfoByBlockInfo (ob_BlockInfo obj) false true None;
      ignore (obj_Delete (ob_set_good (ob_IsGood obj) (ob_IsAllGood obj) (bi_set_objID (o_ObjID o) <$> ob_BlockInfo obj) obj))
    else _ ← save_failed ts obj; mret tt).
Definition HandleFailedValidCreateObjectLog := HandleFailedCreateObjectLog.

(** The [SyncInfo] the failed oplog waits in. *)
Definition failed_sync_info (obj : Object) (o : BaseOplog) : option SyncInfo :=
  match ob_SyncInfo obj with
  | None => None
  | Some s =>
    if decide (sy_LogID s ≠ Some (o_ID o)) then None else
    if IsLess (o_UpdateTS o) (sy_UpdateTS s) then None else Some s
  end.

Definition HandleFailedUpdateObjectLog (obj : Object) : HM unit :=
  on_stored_obj obj (λ obj,
    o ← get_log;
    match failed_sync_info obj o with
    | None => mret tt
    | Some s =>
      _ ← ignore (removeBlockAndMediaInfoByBlockInfo (sy_BlockInfo s) false true None);
      obj_Save (ob_set_sync None obj)
    end).

Definition HandleFailedDeleteObjectLog (obj : Object) : HM unit :=
  on_stored_obj obj (λ obj,
    o ← get_log;
    match failed_sync_info obj o with
    | None => mret tt
    | Some _ => obj_Save (ob_set_sync None obj)
    end).

(** [HandleFailedValidUpdateObjectLog] and [HandleFailedValidDeleteObjectLog]
    differ in the callback only; its error is dropped. *)
Definition HandleFailedValidObjectLog (obj : Object) (ts : outcome Timestamp) (updateInfo : Object → HM unit) : HM unit :=
  on_stored_obj obj (λ obj,
    o ← get_log;
    if decide (not_the_create_log obj o) then mret tt else
    obj ← save_failed ts obj;
    ignore (updateInfo obj)).
Definition HandleFailedValidUpdateObjectLog (obj : Object) (ts : outcome Timestamp)
    (updateUpdateInfo : Object → option OpData → option SyncInfo → HM unit) : HM unit :=
  HandleFailedValidObjectLog obj ts (λ obj, updateUpdateInfo obj None None).
Definition HandleFailedValidDeleteObjectLog (obj : Object) (ts : outcome Timestamp) (updateDeleteInfo : Object → HM unit) : HM unit :=
  HandleFailedValidObjectLog obj ts updateDeleteInfo.

(** ** Content that arrives *)

Section ack.
(** [pm.InternalSign] on the oplog at hand, and what sends it out. *)
Variable internalSign : HM bool.
Variable broadcastLog : HM unit.

(** What [SetOplogIsSync] returns is dropped by its callers here. *)
Definition SetOplogIsSync (isBroadcast : bool) : HM bool :=
  _ ← h_sync;
  isNewSign ← internalSign;
  _ ← (if (isNewSign : bool) && isBroadcast then ignore broadcastLog else mret tt);
  mret isNewSign.

(** [oplog := &BaseOplog{ID: logID}; oplog.Lock(); defer oplog.Unlock()], then
    [body] with the stored oplog, or with the error. *)
Definition with_stored_log {A} (logID : option PttID) (body : GoErr + BaseOplog → HM A) : HM A :=
  logID ← st_lift (or_panic logID);
  h_lock env logID (
    r ← st_try (on_st (oplog_Get c env logID true));
    match r with
    | inl o => _ ← st_mod (h_set (set_o (λ _, o))); body (inr o)
    | inr e => body (inl e)
    end).

Definition syncCreateAckSaveOplog (obj : Object) (postcreate : option (Object → HM unit)) : HM unit :=
  o ← get_log;
  _ ← (if o_IsSync o then ignore (SetOplogIsSync true) else mret tt);
  _ ← on_st (Save c env true);
  o ← get_log;
  if negb (o_IsSync o) then mret tt else
  if decide (ob_Status obj = StatusAlive) then mret tt else
  if (Status_num (ToStatus o) <? Status_num StatusAlive)%Z then mret tt else
  _ ← saveNewObjectWithOplog obj true false postcreate; mret tt.

(** [recv] is the object that is read into, [obj] what arrived. *)
Definition HandleSyncCreateObjectAck (obj recv : Object) (updateCreateObject : option (Object → Object → outcome Object))
    (postcreate : option (Object → HM unit)) : HM unit :=
  with_stored_log (ob_LogID obj) (λ r,
    match r with
    | inl _ => mret tt
    | inr o =>
      obj_lock (Some (ob_ID obj)) (
        origObj ← obj_GetByID recv (Some (ob_ID obj));
        if o_IsSync o then mret tt else
        if ob_IsGood origObj then
          (if ob_IsAllGood origObj then syncCreateAckSaveOplog origObj postcreate else mret tt)
        else if decide (ob_UpdateLogID origObj = None ∧ ob_LogID origObj = Some (o_ID o)) then
          origObj ← st_lift match updateCreateObject with None => Ok origObj | Some f => f origObj obj end;
          let origObj := ob_set_good true (ob_IsAllGood origObj) (ob_BlockInfo origObj) origObj in
          '(origObj, isAllGood) ← st_lift (ob_CheckIsAllGood origObj);
          if negb isAllGood then obj_Save origObj else
          origObj ← saveNewObjectWithOplog origObj true false postcreate;
          syncCreateAckSaveOplog origObj postcreate
        else
          _ ← h_sync;
          syncCreateAckSaveOplog origObj postcreate)
    end).

Definition syncUpdateAckSaveOplog (syncInfo : SyncInfo) (obj : Object) (postupdate : option (Object → HM unit)) : HM unit :=
  _ ← (if sy_IsAllGood syncInfo then ignore (SetOplogIsSync true) else mret tt);
  _ ← on_st (Save c env true);
  o ← get_log;
  if (Status_num (ToStatus o) <? Status_num StatusAlive)%Z then mret tt else
  _ ← handleUpdateObjectSameLog postupdate obj syncInfo; mret tt.

Definition HandleSyncUpdateObjectAck (obj recv : Object)
    (updateSyncInfo : option (SyncInfo → Object → BaseOplog → outcome SyncInfo)) (postupdate : option (Object → HM unit)) : HM unit :=
  with_stored_log (ob_UpdateLogID obj) (λ r,
    match r with
    | inl _ => mret tt
    | inr o =>
      obj_lock (Some (ob_ID obj)) (
        origObj ← obj_GetByID recv (Some (ob_ID obj));
        if o_IsSync o then mret tt else
        if decide (ob_UpdateLogID origObj = ob_UpdateLogID obj) then st_lift (Err SvcErrNewerOplog) else
        match ob_SyncInfo origObj with
        | None => st_lift (Err SvcErrNewerOplog)
        | Some syncInfo =>
          if decide (sy_LogID syncInfo ≠ ob_UpdateLogID obj) then st_lift (Err SvcErrNewerOplog) else
          if sy_IsGood syncInfo then mret tt else
          syncInfo ← st_lift match updateSyncInfo with None => Ok syncInfo | Some f => f syncInfo obj o end;
          let syncInfo := sy_set_good true (sy_IsAllGood syncInfo) (sy_BlockInfo syncInfo) syncInfo in
          '(origObj, syncInfo) ← handleUpdateObjectSameLog postupdate origObj syncInfo;
          syncUpdateAckSaveOplog syncInfo origObj postupdate
        end)
    end).

(** ** Blocks that arrive *)

(** [shrinkBlocks], [verifyBlocks] and [saveBlocks] on the block information of
    an object. *)
Definition accept_content (blockInfo : BlockInfo) (blocks : list Block) (creatorID : option PttID) : HM (BlockInfo * bool) :=
  on_os (accept_blocks dbBlockPrefix blocks blockInfo creatorID).

Definition handleSyncCreateBlockAck (blocksByIDsByObj : gmap bytes (list Block)) (objID : PttID) (recv : Object)
    (postcreate : option (Object → HM unit)) : HM unit :=
  obj_lock (Some objID) (
    origObj ← obj_GetByID recv (Some objID);
    if ob_IsAllGood origObj then mret tt else
    match ob_BlockInfo origObj with
    | None => mret tt
    | Some blockInfo =>
      let blockInfo := bi_set_objID (Some objID) blockInfo in
      id ← st_lift (or_panic (bi_ID blockInfo));
      match blocksByIDsByObj !! id with
      | None => mret tt
      | Some blocks =>
        '(blockInfo, isSet) ← accept_content blockInfo blocks (ob_CreatorID origObj);
        if negb isSet then mret tt else
        '(origObj, isAllGood) ← st_lift (ob_CheckIsAllGood (ob_set_good (ob_IsGood origObj) (ob_IsAllGood origObj) (Some blockInfo) origObj));
        if negb isAllGood then obj_Save origObj else
        with_stored_log (ob_LogID origObj) (λ r,
          match r with
          | inl e => st_lift (Err e)
          | inr _ =>
            origObj ← saveNewObjectWithOplog origObj true false postcreate;
            syncCreateAckSaveOplog origObj postcreate
          end)
      end
    end).

Definition handleSyncUpdateBlockAck (blocksByIDsByObj : gmap bytes (list Block)) (objID : PttID) (recv : Object)
    (postupdate : option (Object → HM unit)) : HM unit :=
  obj_lock (Some objID) (
    origObj ← obj_GetByID recv (Some objID);
    match ob_SyncInfo origObj with
    | None => mret tt
    | Some syncInfo =>
      if sy_IsAllGood syncInfo then mret tt else
      match sy_BlockInfo syncInfo with
      | None => mret tt
      | Some blockInfo =>
        let blockInfo := bi_set_objID (Some objID) blockInfo in
        id ← st_lift (or_panic (bi_ID blockInfo));
        match blocksByIDsByObj !! id with
        | None => mret tt
        | Some blocks =>
          '(blockInfo, isSet) ← accept_content blockInfo blocks (sy_UpdaterID syncInfo);
          if negb isSet then mret tt else
          '(syncInfo, isAllGood) ← st_lift (sy_CheckIsAllGood (sy_set_good (sy_IsGood syncInfo) (sy_IsAllGood syncInfo) (Some blockInfo) syncInfo));
          if negb isAllGood then obj_Save (ob_set_sync (Some syncInfo) origObj) else
          with_stored_log (sy_LogID syncInfo) (λ r,
            match r with
            | inl e => st_lift (Err e)
            | inr _ =>
              '(origObj, syncInfo) ← handleUpdateObjectSameLog postupdate origObj syncInfo;
              syncUpdateAckSaveOplog syncInfo origObj postupdate
            end)
        end
      end
    end).
End ack.

(** ** The owner's side: [protocol_{create,update,delete}_object.go]

    [SignOplog] and [ForceSignOplog] act on the oplog at hand; the errors of
    what broadcasts are dropped. *)

Section owner.
Variable SignOplog ForceSignOplog : HM unit.
Variable broadcastLogs : list BaseOplog → HM unit.
Variable broadcastLog : HM unit.
(** The status of the entity and of my own, the answer of
    [pm.IsMaster(myID, false)] and the clock. *)
Variable entityStatus myStatus : Status.
Variable isMaster : bool.
Variable now : outcome Timestamp.

Definition verify_log : HM unit := o ← get_log; st_lift (Verify o).

Definition createObjectCore (isForce : bool) (newObj : HM (Object * OpData))
    (newOplogWithTS : PttID → Timestamp → OpData → HM BaseOplog) (increate : option (Object → OpData → HM Object))
    (postcreate : option (Object → HM unit)) : HM Object :=
  if decide (entityStatus ≠ StatusAlive ∧ entityStatus ≠ StatusToBeSynced) then st_lift (Err ErrInvalidStatus) else
  '(obj, opData) ← newObj;
  oplog ← newOplogWithTS (ob_ID obj) (ob_UpdateTS obj) opData;
  _ ← st_mod (h_set (set_o (λ _, oplog)));
  obj ← match increate with None => mret obj | Some f => f obj opData end;
  blockInfo ← st_lift match ob_BlockInfo obj with None => Ok None | Some b => b ← bi_SetIsAllGood b; Ok (Some b) end;
  let obj := ob_set_good true true blockInfo obj in
  _ ← (if isForce then ForceSignOplog else SignOplog);
  _ ← verify_log;
  obj ← saveNewObjectWithOplog obj false false postcreate;
  _ ← on_st (Save c env false);
  '(pendingLogs, _) ← on_st (GetPendingOplogs c env now false false true);
  _ ← ignore (broadcastLogs pendingLogs);
  o ← get_log;
  _ ← (if decide (o_MasterLogID o ≠ None) then ignore broadcastLog else mret tt);
  mret obj.
Definition CreateObject := createObjectCore false.
Definition ForceCreateObject := createObjectCore true.

(** [oplog.SetPreLogID] *)
Definition set_PreLogID (id : option PttID) (o : BaseOplog) : BaseOplog :=
  MkOplog (o_V o) (o_ID o) (o_CreatorID o) (o_CreateTS o) (o_ObjID o) (o_Op o) id (o_Data o) (o_CreatorHash o) (o_Salt o) (o_Sig o)
    (o_Pubkey o) (o_KeyExtra o) (o_UpdateTS o) (o_Hash o) (o_MasterLogID o) (o_MasterSigns o) (o_InternalSigns o) (o_IsSync o)
    (o_IsNewer o) (o_Extra o).

(** [origObj.SetID(id); Lock; GetByID] after the check of the statuses. *)
Definition on_own_obj {A} (id : option PttID) (recv : Object) (body : Object → HM A) : HM A :=
  if decide (entityStatus ≠ StatusAlive) then st_lift (Err ErrInvalidStatus) else
  if decide (myStatus ≠ StatusAlive) then st_lift (Err ErrInvalidStatus) else
  obj_lock id (origObj ← obj_GetByID recv id; body origObj).

Definition may_change (obj : Object) : Prop := Some myID = ob_CreatorID obj ∨ isMaster = true.
#[global] Instance may_change_dec obj : Decision (may_change obj).
Proof. unfold may_change. apply _. Defined.

(** [inupdate] may work on the oplog at hand; an oplog that does not verify is
    only logged. *)
Definition UpdateObject (id : option PttID) (recv : Object) (opData : OpData) (newOplog : HM BaseOplog)
    (inupdate : option (Object → OpData → HM (SyncInfo * OpData)))
    (removeMediaInfoByBlockInfo : option (BlockInfo → HM unit)) (postupdate : option (Object → HM unit)) : HM unit :=
  on_own_obj id recv (λ origObj,
    if decide (ob_Status origObj ≠ StatusAlive) then st_lift (Err SvcErrNotAlive) else
    if decide (¬ may_change origObj) then st_lift (Err ErrInvalidID) else
    if decide (ob_SyncInfo origObj ≠ None) then st_lift (Err SvcErrAlreadyPending) else
    oplog ← newOplog;
    _ ← st_mod (h_set (set_o (λ _, set_PreLogID (ob_LogID origObj) oplog)));
    match inupdate with
    | None => st_lift (Err SvcErrInvalidFunc)
    | Some inupdate =>
      '(syncInfo, opData) ← inupdate origObj opData;
      let syncInfo := sy_set_good true true (sy_BlockInfo syncInfo) syncInfo in
      _ ← SignOplog;
      _ ← ignore verify_log;
      _ ← handleUpdateObjectCoreCore false removeMediaInfoByBlockInfo postupdate None opData origObj syncInfo true;
      _ ← ignore verify_log;
      _ ← on_st (Save c env false);
      ignore broadcastLog
    end).

Definition DeleteObject (id : option PttID) (recv : Object) (newOplog : HM BaseOplog)
    (setPendingDeleteSyncInfo : Object → Status → BaseOplog → Object) (postdelete : option (Object → HM unit)) : HM unit :=
  on_own_obj id recv (λ origObj,
    if (Status_num StatusDeleted <=? Status_num (ob_Status origObj))%Z then mret tt else
    if decide (¬ may_change origObj) then st_lift (Err ErrInvalidID) else
    oplog ← newOplog;
    _ ← st_mod (h_set (set_o (λ _,
          if decide (ob_Status origObj = StatusAlive) then set_PreLogID (ob_LogID origObj) oplog else oplog)));
    _ ← SignOplog;
    o ← get_log;
    _ ← (if (Status_num StatusDeleted <=? Status_num (delete_status o))%Z
         then handleDeleteObjectLogCore false None postdelete (λ _, st_lift Panic) origObj
         else handlePendingDeleteObjectLogCore false None (λ _, st_lift Panic) setPendingDeleteSyncInfo origObj);
    _ ← on_st (Save c env false);
    ignore broadcastLog).
End owner.

(** ** The newest oplog of an object *)

Definition SetNewestCreateObjectLog (recv : Object) : HM bool :=
  o ← get_log;
  obj_rlock (o_ObjID o) (
    r ← st_try (obj_GetByID recv (o_ObjID o));
    mret match r with
         | inr _ => true
         | inl obj => bool_decide (ob_UpdateLogID obj ≠ None ∨ ob_LogID obj ≠ Some (o_ID o))
         end).
Definition SetNewestUpdateObjectLog (recv : Object) : HM bool :=
  o ← get_log;
  obj_lock (o_ObjID o) (
    r ← st_try (obj_GetByID recv (o_ObjID o));
    mret match r with
         | inr _ => true
         | inl obj => (Status_num StatusDeleted <=? Status_num (ob_Status obj))%Z || bool_decide (ob_UpdateLogID obj ≠ Some (o_ID o))
         end).
Definition SetNewestDeleteObjectLog (recv : Object) : HM bool := mret false.

(** [HandleForceSyncObjectAck] *)
Definition HandleForceSyncObjectAck (obj recv : Object) : HM unit :=
  with_stored_log (ob_LogID obj) (λ r,
    match r with
    | inl _ => mret tt
    | inr o =>
      obj_lock (Some (ob_ID obj)) (
        r ← st_try (obj_GetByID recv (Some (ob_ID obj)));
        if match r with inl origObj => bool_decide (ob_Status origObj ≠ StatusFailed) | inr _ => false end
        then st_lift (Err SvcErrInvalidStatus) else
        '(obj, isAllGood) ← st_lift (ob_CheckIsAllGood (ob_set_good true (ob_IsAllGood obj) (ob_BlockInfo obj) obj));
        if negb isAllGood then obj_Save obj else
        _ ← saveNewObjectWithOplog obj true true None;
        o ← get_log;
        if o_IsSync o then mret tt else
        _ ← h_sync;
        on_st (Save c env true))
    end).

(** ** Running under the lock of an object *)

Set Default Proof Using "Type".

Implicit Types (hs : ST) (o : BaseOplog) (obj : Object).

Abbreviation oholds := (holds fullDBPrefix fullDBIdxPrefix).

(** The objects of a state. *)
Definition ostate hs : OSt (S := S) := MkOS (st_b (h_st hs)) (oi_lock (h_info hs)).
Definition oview hs : gmap bytes bytes := bview (st_b (h_st hs)).

Definition olocked (id : PttID) hs : ST := set_oi_lock (<[id := (-1)%Z]> (oi_lock (h_info hs))) hs.

Lemma obj_lock_run {A} (id : PttID) (body : HM A) hs (s1 : ST) (r : outcome A) :
  oi_lock (h_info hs) !! id = None → body (olocked id hs) = (s1, r) →
  oi_lock (h_info s1) = oi_lock (h_info (olocked id hs)) →
  obj_lock (Some id) body hs = (set_oi_lock (oi_lock (h_info hs)) s1, r).
Proof.
  intros Hf Hb Hl. unfold obj_lock. rewrite Lock_free by done. unfold st_defer.
  change (set_oi_lock (<[id:=(-1)%Z]> (oi_lock (h_info hs))) hs) with (olocked id hs). rewrite Hb.
  unfold Unlock. rewrite Hl. cbn [olocked set_oi_lock h_info oi_lock]. rewrite lookup_insert_eq. simpl.
  by rewrite delete_insert_id.
Qed.

(** The object [obj] is stored under [id], reads back as it is, and can be
    worked on. *)
Record stored_obj (recv : Object) hs (id : PttID) obj : Prop := {
  so_holds : oholds (oview hs) id obj;
  so_ready : ob_ready fullDBIdxPrefix (ostate hs) id;
  so_free : oi_lock (h_info hs) !! id = None;
  so_normal : ob_decoded recv obj = obj;
}.

(** The same, under the lock. *)
Definition held_obj hs (id : PttID) : Prop :=
  ob_ready fullDBIdxPrefix (ostate hs) id ∧ stored (oview hs) (ob_IdxKey fullDBIdxPrefix id) ≠ Some None.

Lemma on_os_eq {A} (m : stm (OSt (S := S)) A) hs x r :
  m (ostate hs) = (x, r) →
  on_os m hs = (MkH (set_b (os_b x) (h_st hs)) (MkOI (os_lock x) (oi_info (h_info hs))), r).
Proof. intros E. unfold on_os. fold (ostate hs). by rewrite E. Qed.

Lemma on_os_same {A} (m : stm (OSt (S := S)) A) hs r : m (ostate hs) = (ostate hs, r) → on_os m hs = (hs, r).
Proof. intros E. rewrite (on_os_eq _ _ _ _ E). by destruct hs as [[] []]. Qed.

Lemma get_log_bind {A} (k : BaseOplog → HM A) hs : (get_log ≫= k) hs = k (h_o hs) hs.
Proof. done. Qed.

Lemma obj_GetByID_ok recv hs id obj :
  empty_receiver recv → oholds (oview hs) id obj → ob_ready fullDBIdxPrefix (ostate hs) id → ob_decoded recv obj = obj →
  obj_GetByID recv (Some id) hs = (hs, Ok obj).
Proof.
  intros He Hh Hr Hn. unfold obj_GetByID. apply on_os_same.
  by rewrite (ob_GetByID_holds env_obj _ _ (ostate hs) recv id obj Hr Hh He), Hn.
Qed.

(** What changes when an object is saved: the database only, and there the
    record of the object. *)
Definition saved_in hs (id : PttID) obj (hs' : ST) : Prop :=
  oholds (oview hs') id obj ∧ held_obj hs' id ∧ h_info hs' = h_info hs ∧
  st_o (h_st hs') = st_o (h_st hs) ∧ st_lock (h_st hs') = st_lock (h_st hs) ∧ st_m (h_st hs') = st_m (h_st hs) ∧
  blocks (st_b (h_st hs')) = blocks (st_b (h_st hs)) ∧
  ∀ k, k ≠ ob_IdxKey fullDBIdxPrefix id → k ≠ ob_MarshalKey fullDBPrefix obj → k ∉ ob_old_keys fullDBIdxPrefix (ostate hs) id → oview hs' !! k = oview hs !! k.

Lemma holds_held hs id obj : oholds (oview hs) id obj → ob_ready fullDBIdxPrefix (ostate hs) id → held_obj hs id.
Proof. intros (_ & Hi & _) Hr. split; [done|]. by rewrite Hi. Qed.

Lemma obj_Save_ok hs obj :
  prefixes_ok fullDBPrefix fullDBIdxPrefix → held_obj hs (ob_ID obj) →
  ∃ hs', obj_Save obj hs = (hs', Ok tt) ∧ saved_in hs (ob_ID obj) obj hs'.
Proof.
  intros Hp [Hr Hs].
  destruct (ob_Save_holds env_obj _ _ (ostate hs) obj Hp Hr Hs) as (s' & E & Hh & Hr' & Hl & Hb & Hf).
  eexists. split; [unfold obj_Save; apply on_os_eq, E|]. split; [exact Hh|]. split.
  { split; [destruct s'; exact Hr'|]. destruct Hh as (_ & Hi & _). change (stored (bview (os_b s')) (ob_IdxKey fullDBIdxPrefix (ob_ID obj)) ≠ Some None).
    by rewrite Hi. }
  split; [cbn [h_info]; rewrite Hl; unfold ostate; simpl; by destruct (h_info hs) as [l i]|].
  split; [done|]. split; [done|]. split; [done|]. split; [exact Hb|exact Hf].
Qed.

(** Unlocking gives the table back. *)
Lemma unlocked id hs : set_oi_lock (oi_lock (h_info hs)) (olocked id hs) = hs.
Proof. by destruct hs as [? []]. Qed.

Lemma saved_stored recv hs id obj obj' s1 :
  stored_obj recv hs id obj → oholds (oview s1) id obj' → held_obj s1 id → ob_decoded recv obj' = obj' →
  stored_obj recv (set_oi_lock (oi_lock (h_info hs)) s1) id obj'.
Proof. intros [_ _ Hf _] Hh [Hr _] Hn. split; done. Qed.

(** Reading the stored object under its lock. *)
Lemma locked_get {A} (K : Object + GoErr → HM A) recv hs id obj s1 r :
  empty_receiver recv → stored_obj recv hs id obj →
  K (inl obj) (olocked id hs) = (s1, r) → oi_lock (h_info s1) = oi_lock (h_info (olocked id hs)) →
  obj_lock (Some id) (r ← st_try (obj_GetByID recv (Some id)); K r) hs = (set_oi_lock (oi_lock (h_info hs)) s1, r).
Proof.
  intros He [Hh Hr Hf Hn] HK Hl. apply obj_lock_run; [done| |done].
  rewrite (stm_bind_ok _ _ _ (olocked id hs) (inl obj)); [done|].
  apply st_try_ok, obj_GetByID_ok; done.
Qed.

Lemma locked_get_same {A} (K : Object + GoErr → HM A) recv hs id obj r :
  empty_receiver recv → stored_obj recv hs id obj → K (inl obj) (olocked id hs) = (olocked id hs, r) →
  obj_lock (Some id) (r ← st_try (obj_GetByID recv (Some id)); K r) hs = (hs, r).
Proof. intros He Hs HK. erewrite locked_get; [by rewrite unlocked|done..]. Qed.

(** ** Deletion is final *)

Lemma ToStatus_le_Alive o : (Status_num (ToStatus o) ≤ 7)%Z.
Proof. unfold ToStatus. destruct (o_MasterLogID o); [done|]. by repeat case_decide. Qed.

Lemma complete_Alive o : is_Some (o_MasterLogID o) → ToStatus o = StatusAlive.
Proof. intros [m E]. unfold ToStatus. by rewrite E. Qed.

Definition deleted obj : Prop := ob_Status obj = StatusDeleted ∧ ob_SyncInfo obj = None.

Lemma SetDelete_deleted o obj : deleted (SetDeleteObjectWithOplog StatusDeleted o obj).
Proof. done. Qed.

Lemma SetDelete_normal recv o obj :
  ob_decoded recv obj = obj → ob_decoded recv (SetDeleteObjectWithOplog StatusDeleted o obj) = SetDeleteObjectWithOplog StatusDeleted o obj.
Proof.
  intros E. destruct obj. unfold ob_decoded in E. simpl in E. injection E as E1 _ E3 E4 _.
  unfold ob_decoded, SetDeleteObjectWithOplog. simpl. by rewrite E1, E3, E4.
Qed.

Lemma saveDelete_ok recv hs id obj :
  prefixes_ok fullDBPrefix fullDBIdxPrefix → stored_obj recv hs id obj →
  ∃ s1, saveDeleteObjectWithOplog obj StatusDeleted true (olocked id hs) =
      (h_set (set_o (set_IsSync true)) s1, Ok (SetDeleteObjectWithOplog StatusDeleted (h_o hs) obj)) ∧
    saved_in (olocked id hs) id (SetDeleteObjectWithOplog StatusDeleted (h_o hs) obj) s1.
Proof.
  intros Hp [Hh Hr Hf Hn]. pose proof (proj1 Hh) as Hid. unfold saveDeleteObjectWithOplog. rewrite get_log_bind. cbv zeta.
  set (obj' := SetDeleteObjectWithOplog _ _ _).
  destruct (obj_Save_ok (olocked id hs) obj' Hp) as (s1 & E & Hs).
  { change (ob_ID obj') with (ob_ID obj). rewrite Hid. by eapply holds_held. }
  exists s1. change (ob_ID obj') with (ob_ID obj) in Hs. rewrite Hid in Hs. split; [|done].
  change (h_o (olocked id hs)) with (h_o hs). fold obj'. rewrite (stm_bind_ok _ _ _ _ _ E). unfold h_sync. by rewrite st_mod_bind.
Qed.

(** The oplogs of one object, by the handler that gets them, with whatever
    callbacks. *)
Inductive ObjOp :=
  | OpCreate (existsInInfo : HM bool) (newObj : BaseOplog → OpData → option Object) (post : option (Object → HM unit))
      (update : Object → OpData → HM unit)
  | OpPendingCreate (existsInInfo : HM bool) (newObj : BaseOplog → OpData → option Object) (post : option (Object → HM unit))
      (update : Object → OpData → HM unit)
  | OpUpdate (hasInfo : bool) (remove : option (BlockInfo → HM unit)) (post : option (Object → HM unit))
      (update : option (Object → option OpData → option SyncInfo → HM unit)) (sync : BaseOplog → OpData → outcome SyncInfo)
  | OpPendingUpdate (hasInfo : bool) (remove : option (BlockInfo → HM unit)) (post : option (Object → HM unit))
      (update : option (Object → option OpData → option SyncInfo → HM unit)) (sync : BaseOplog → OpData → outcome SyncInfo)
  | OpDelete (hasInfo : bool) (remove : option (BlockInfo → HM unit)) (post : option (Object → HM unit)) (update : Object → HM unit)
  | OpPendingDelete (hasInfo : bool) (remove : option (BlockInfo → HM unit)) (update : Object → HM unit)
      (pending : Object → Status → BaseOplog → Object)
  | OpFailedCreate (prefailed : option (Object → HM unit)) (ts : outcome Timestamp)
  | OpFailedUpdate
  | OpFailedDelete
  | OpFailedValidUpdate (ts : outcome Timestamp) (update : Object → option OpData → option SyncInfo → HM unit)
  | OpFailedValidDelete (ts : outcome Timestamp) (update : Object → HM unit).

(** The handlers that undo the creation of the object with this log. *)
Definition undoes (op : ObjOp) : bool :=
  match op with OpFailedCreate _ _ | OpFailedValidUpdate _ _ | OpFailedValidDelete _ _ => true | _ => false end.

Definition handle (recv : Object) (op : ObjOp) : HM unit :=
  match op with
  | OpCreate e n p u => _ ← HandleCreateObjectLog e n p u recv; mret tt
  | OpPendingCreate e n p u => _ ← HandlePendingCreateObjectLog e n p u recv; mret tt
  | OpUpdate i r p u f => _ ← HandleUpdateObjectLog i r p u f recv; mret tt
  | OpPendingUpdate i r p u f => _ ← HandlePendingUpdateObjectLog i r p u f recv; mret tt
  | OpDelete i r p u => _ ← HandleDeleteObjectLog i r p u recv; mret tt
  | OpPendingDelete i r u f => _ ← HandlePendingDeleteObjectLog i r u f recv; mret tt
  | OpFailedCreate f ts => HandleFailedCreateObjectLog recv f ts
  | OpFailedUpdate => HandleFailedUpdateObjectLog recv
  | OpFailedDelete => HandleFailedDeleteObjectLog recv
  | OpFailedValidUpdate ts u => HandleFailedValidUpdateObjectLog recv ts u
  | OpFailedValidDelete ts u => HandleFailedValidDeleteObjectLog recv ts u
  end.

(** One oplog after the other; errors do not stop the next. *)
Definition handle_all (recv : Object) (ops : list (ObjOp * BaseOplog)) : HM unit :=
  foldr (λ '(op, o) rest, _ ← st_mod (h_set (set_o (λ _, o))); _ ← ignore (handle recv op); rest) (mret tt : HM unit) ops.

(** The handlers on a deleted object: nothing changes, unless it is an earlier
    deletion. *)
Lemma create_deleted recv hs id obj e n p u :
  empty_receiver recv → stored_obj recv hs id obj → deleted obj → o_ObjID (h_o hs) = Some id →
  ∃ err, handleCreateObjectLogCore e n p u recv hs = (hs, Err err).
Proof.
  intros He Hs [Hd _] Ho. unfold handleCreateObjectLogCore. rewrite get_log_bind. cbv zeta. rewrite Ho.
  unfold GetData at 1. destruct (od_Unmarshal (o_Data (h_o hs))) as [d|] eqn:Ed.
  - exists SvcErrNewerOplog.
    rewrite (stm_bind_ok _ _ _ hs d) by (by rewrite get_log_bind, Ed).
    rewrite (locked_get_same _ recv hs id obj (Err SvcErrNewerOplog)); [done..|].
    cbv beta iota. rewrite Hd. rewrite decide_False by (intros [? _]; done).
    set (newest := match ob_UpdateLogID obj with None => _ | Some _ => _ end). destruct (decide (newest = _)); [|done].
    unfold handleCreateObjectSameLog. rewrite get_log_bind. cbv zeta. rewrite Hd, decide_False by done.
    pose proof (ToStatus_le_Alive (h_o hs)). change (h_o (olocked id hs)) with (h_o hs).
    rewrite (proj2 (Z.ltb_lt _ _)) by (change (Status_num StatusDeleted) with 19%Z; lia). done.
  - exists ErrDecode. rewrite (stm_bind_err _ _ _ hs ErrDecode) by (by rewrite get_log_bind, Ed). done.
Qed.

Lemma update_deleted recv hs id obj i r p u f v :
  empty_receiver recv → stored_obj recv hs id obj → deleted obj → o_ObjID (h_o hs) = Some id →
  handleUpdateObjectCore i r p u f recv v hs = (hs, Err SvcErrNewerOplog).
Proof.
  intros He Hs [Hd _] Ho. unfold handleUpdateObjectCore. rewrite get_log_bind. cbv zeta. rewrite Ho.
  apply (locked_get_same _ recv hs id obj); [done..|]. cbv beta iota. by rewrite Hd.
Qed.

Lemma pendingDelete_deleted recv hs id obj i r u f :
  empty_receiver recv → stored_obj recv hs id obj → deleted obj → o_ObjID (h_o hs) = Some id →
  handlePendingDeleteObjectLog i r u f recv hs = (hs, Err SvcErrNewerOplog).
Proof.
  intros He Hs [Hd _] Ho. unfold handlePendingDeleteObjectLog. rewrite get_log_bind. cbv zeta. rewrite Ho.
  apply (locked_get_same _ recv hs id obj); [done..|]. cbv beta iota. by rewrite Hd.
Qed.

(** What is on the object after an earlier or a later deletion. *)
Definition earlier_delete (o : BaseOplog) obj : Object :=
  if IsLess (o_UpdateTS o) (ob_UpdateTS obj) then SetDeleteObjectWithOplog StatusDeleted o obj else obj.

Lemma delete_deleted recv hs id obj i r p u :
  empty_receiver recv → prefixes_ok fullDBPrefix fullDBIdxPrefix → stored_obj recv hs id obj → deleted obj → o_ObjID (h_o hs) = Some id →
  (∃ e, handleDeleteObjectLog i r p u recv hs = (hs, Err e) ∧ od_Unmarshal (o_Data (h_o hs)) = None) ∨
  ∃ hs' d, handleDeleteObjectLog i r p u recv hs = (hs', Err SvcErrNewerOplog) ∧ od_Unmarshal (o_Data (h_o hs)) = Some d ∧
    stored_obj recv hs' id (earlier_delete (h_o hs) obj).
Proof.
  intros He Hp Hs [Hd Hsy] Ho. unfold handleDeleteObjectLog. rewrite get_log_bind. cbv zeta. rewrite Ho.
  destruct (od_Unmarshal (o_Data (h_o hs))) as [d|] eqn:Ed.
  2: { left. exists ErrDecode. split; [|done]. unfold GetData. by rewrite (stm_bind_err _ _ _ hs ErrDecode) by (by rewrite get_log_bind, Ed). }
  right. unfold earlier_delete, GetData. rewrite (stm_bind_ok _ _ _ hs d) by (by rewrite get_log_bind, Ed).
  destruct (IsLess (o_UpdateTS (h_o hs)) (ob_UpdateTS obj)) eqn:El.
  - destruct (saveDelete_ok recv hs id obj Hp Hs) as (s1 & E1 & Hs1).
    exists (set_oi_lock (oi_lock (h_info hs)) (h_set (set_o (set_IsSync true)) s1)), d. split; [|split; [done|]].
    + apply (locked_get _ recv hs id obj); [done..| |destruct Hs1 as (_ & _ & Ei & _); unfold h_set; cbn [h_info]; by rewrite Ei].
      cbv beta iota. rewrite Hd. change (Status_num StatusDeleted <=? Status_num StatusDeleted)%Z with true. cbv iota.
      rewrite El. rewrite (stm_bind_ok _ _ _ (h_set (set_o (set_IsSync true)) s1) tt); [done|].
      by rewrite (stm_bind_ok _ _ _ _ _ E1).
    + apply (saved_stored recv hs id obj); [done|apply Hs1..|apply SetDelete_normal, Hs].
  - exists hs, d. split; [|done]. apply (locked_get_same _ recv hs id obj); [done..|].
    cbv beta iota. rewrite Hd. change (Status_num StatusDeleted <=? Status_num StatusDeleted)%Z with true. cbv iota.
    rewrite El. done.
Qed.

Lemma on_stored_same recv hs id obj (body : Object → HM unit) :
  empty_receiver recv → stored_obj recv hs id obj → o_ObjID (h_o hs) = Some id →
  body obj (olocked id hs) = (olocked id hs, Ok tt) → on_stored_obj recv body hs = (hs, Ok tt).
Proof.
  intros He Hs Ho Hb. unfold on_stored_obj. rewrite get_log_bind, Ho. by apply (locked_get_same _ recv hs id obj).
Qed.

Lemma undo_other recv hs id obj (K : Object → BaseOplog → HM unit) :
  empty_receiver recv → stored_obj recv hs id obj → o_ObjID (h_o hs) = Some id → ob_LogID obj ≠ Some (o_ID (h_o hs)) →
  on_stored_obj recv (λ obj, o ← get_log; if decide (not_the_create_log obj o) then mret tt else K obj o) hs = (hs, Ok tt).
Proof.
  intros He Hs Ho Hl. apply (on_stored_same recv hs id obj); [done..|]. rewrite get_log_bind.
  rewrite decide_True; [done|]. right. by left.
Qed.

Lemma ignore_ok {A} (m : HM A) hs s a : m hs = (s, Ok a) → ignore m hs = (s, Ok tt).
Proof. intros E. unfold ignore. by rewrite (stm_bind_ok _ _ _ _ _ (st_try_ok _ _ _ _ E)). Qed.
Lemma ignore_err {A} (m : HM A) hs s e : m hs = (s, Err e) → ignore m hs = (s, Ok tt).
Proof. intros E. unfold ignore. by rewrite (stm_bind_ok _ _ _ _ _ (st_try_err _ _ _ _ E)). Qed.

(** A handler that gives back what an inner one returned. *)
Lemma drop_err {A B} (m : HM A) (k : A + GoErr → HM B) hs s e b :
  m hs = (s, Err e) → k (inr e) s = (s, Ok b) →
  (_ ← (r ← st_try m; k r); mret tt : HM unit) hs = (s, Ok tt).
Proof.
  intros E Ek. rewrite (stm_bind_ok _ _ _ s b); [done|]. by rewrite (stm_bind_ok _ _ _ _ _ (st_try_err _ _ _ _ E)).
Qed.

(** What a log does to a deleted object. *)
Definition after_log (op : ObjOp) o obj : Object :=
  match op with
  | OpDelete _ _ _ _ => if od_Unmarshal (o_Data o) is Some _ then earlier_delete o obj else obj
  | _ => obj
  end.

Lemma handle_deleted recv hs id obj op :
  empty_receiver recv → prefixes_ok fullDBPrefix fullDBIdxPrefix → stored_obj recv hs id obj → deleted obj →
  o_ObjID (h_o hs) = Some id → (undoes op = true → ob_LogID obj ≠ Some (o_ID (h_o hs))) →
  ∃ hs', handle recv op hs = (hs', Ok tt) ∧ stored_obj recv hs' id (after_log op (h_o hs) obj).
Proof.
  intros He Hp Hs Hd Ho Hl.
  destruct op; cbn [handle after_log undoes] in *;
    try (exists hs; split; [|exact Hs]).
  - destruct (create_deleted recv hs id obj existsInInfo newObj post update He Hs Hd Ho) as [e E].
    exact (drop_err _ _ hs hs e _ E eq_refl).
  - destruct (create_deleted recv hs id obj existsInInfo newObj post update He Hs Hd Ho) as [e E].
    exact (drop_err _ _ hs hs e _ E eq_refl).
  - exact (drop_err _ _ hs hs _ _ (update_deleted _ _ _ _ _ _ _ _ _ _ He Hs Hd Ho) eq_refl).
  - exact (drop_err _ _ hs hs _ _ (update_deleted _ _ _ _ _ _ _ _ _ _ He Hs Hd Ho) eq_refl).
  - destruct (delete_deleted recv hs id obj hasInfo remove post update He Hp Hs Hd Ho) as [(e & E & Ed)|(hs' & d & E & Ed & Hs')].
    + exists hs. rewrite Ed. split; [|done]. exact (drop_err _ _ hs hs e _ E eq_refl).
    + exists hs'. split.
      * exact (drop_err _ _ hs hs' _ _ E eq_refl).
      * by rewrite Ed.
  - exact (drop_err _ _ hs hs _ _ (pendingDelete_deleted _ _ _ _ _ _ _ _ He Hs Hd Ho) eq_refl).
  - by apply (undo_other recv hs id obj); auto.
  - apply (on_stored_same recv hs id obj); [done..|]. rewrite get_log_bind. unfold failed_sync_info.
    by rewrite (proj2 Hd).
  - apply (on_stored_same recv hs id obj); [done..|]. rewrite get_log_bind. unfold failed_sync_info.
    by rewrite (proj2 Hd).
  - by apply (undo_other recv hs id obj); auto.
  - by apply (undo_other recv hs id obj); auto.
Qed.

Lemma after_log_deleted op o obj : deleted obj → deleted (after_log op o obj).
Proof. intros Hd. destruct op; try done. simpl. destruct (od_Unmarshal _); [|done]. unfold earlier_delete. by destruct (IsLess _ _). Qed.

Lemma after_log_id op o obj :
  ob_LogID (after_log op o obj) = ob_LogID obj ∨
  ob_LogID (after_log op o obj) = Some (o_ID o) ∧ undoes op = false.
Proof.
  destruct op; simpl; auto. destruct (od_Unmarshal _); [|by left]. unfold earlier_delete. destruct (IsLess _ _); [by right|by left].
Qed.

Lemma handle_all_cons recv op o ops hs hs' :
  handle recv op (h_set (set_o (λ _, o)) hs) = (hs', Ok tt) →
  handle_all recv ((op, o) :: ops) hs = handle_all recv ops hs'.
Proof.
  intros E. cbn [handle_all foldr]. rewrite st_mod_bind. by rewrite (stm_bind_ok _ _ _ _ _ (ignore_ok _ _ _ _ E)).
Qed.

Lemma stored_obj_log recv hs id obj f : stored_obj recv hs id obj → stored_obj recv (h_set (set_o f) hs) id obj.
Proof. by intros []. Qed.

Lemma handle_all_deleted recv ops id : ∀ hs obj,
  empty_receiver recv → prefixes_ok fullDBPrefix fullDBIdxPrefix →
  stored_obj recv hs id obj → deleted obj →
  (∀ op o, (op, o) ∈ ops → o_ObjID o = Some id ∧
     (undoes op = true → ob_LogID obj ≠ Some (o_ID o) ∧ ∀ op' o', (op', o') ∈ ops → undoes op' = false → o_ID o' ≠ o_ID o)) →
  let obj' := foldl (λ obj '(op, o), after_log op o obj) obj ops in
  deleted obj' ∧ ∃ hs', handle_all recv ops hs = (hs', Ok tt) ∧ stored_obj recv hs' id obj'.
Proof.
  induction ops as [|[op o] ops IH]; intros hs obj He Hp Hs Hd Hops; cbv zeta; cbn [foldl].
  { split; [done|]. by exists hs. }
  destruct (Hops op o ltac:(by left)) as [Ho Hu].
  destruct (handle_deleted recv (h_set (set_o (λ _, o)) hs) id obj op He Hp (stored_obj_log _ _ _ _ _ Hs) Hd Ho) as (hs1 & E1 & Hs1).
  { intros Hop. by destruct (Hu Hop). }
  rewrite (handle_all_cons _ _ _ _ _ _ E1).
  change (h_o (h_set (set_o (λ _, o)) hs)) with o in Hs1.
  apply (IH hs1 (after_log op o obj) He Hp Hs1 (after_log_deleted _ _ _ Hd)).
  intros op' o' Hin. destruct (Hops op' o' ltac:(by right)) as [Ho' Hu']. split; [done|].
  intros Hop'. destruct (Hu' Hop') as [Hl Hn]. split.
  - destruct (after_log_id op o obj) as [->|[-> Hf]]; [done|]. intros [= Hx]. by apply (Hn op o); [left|..].
  - intros op2 o2 Hin2. apply Hn. by right.
Qed.

(** C9: a deleted object stays deleted: whatever oplogs of it arrive, in
    whatever order and with whatever callbacks, no handler panics, and what is
    stored differs from what was only by the earliest of the deletions, unless
    a failed oplog bears the identifier of a deletion. *)
Theorem deletion_is_final recv ops id  hs obj :
  empty_receiver recv → prefixes_ok fullDBPrefix fullDBIdxPrefix →
  stored_obj recv hs id obj → deleted obj →
  (∀ op o, (op, o) ∈ ops → o_ObjID o = Some id ∧
     (undoes op = true → ob_LogID obj ≠ Some (o_ID o) ∧ ∀ op' o', (op', o') ∈ ops → undoes op' = false → o_ID o' ≠ o_ID o)) →
  let obj' := foldl (λ obj '(op, o), after_log op o obj) obj ops in
  deleted obj' ∧ ∃ hs', handle_all recv ops hs = (hs', Ok tt) ∧ stored_obj recv hs' id obj'.
Proof. apply handle_all_deleted. Qed.

(** ** Deletions converge *)

(** A callback that works on the information of the caller only. *)
Definition quiet {A} (m : HM A) : Prop :=
  ∀ s, ∃ i r, m s = (MkH (h_st s) (MkOI (oi_lock (h_info s)) i), r) ∧ r ≠ Panic.

Lemma ignore_quiet {A} (m : HM A) s :
  quiet m → ∃ i, ignore m s = (MkH (h_st s) (MkOI (oi_lock (h_info s)) i), Ok tt).
Proof.
  intros Hq. destruct (Hq s) as (i & r & E & Hr). exists i. destruct r as [a|e|]; [|by eapply ignore_err|done].
  by eapply ignore_ok.
Qed.

Definition quiet_post (post : option (Object → HM unit)) : Prop := ∀ f, post = Some f → ∀ obj, quiet (f obj).

Lemma quiet_ret : quiet (mret tt : HM unit).
Proof. intros s. exists (oi_info (h_info s)), (Ok tt). split; [|done]. by destruct s as [? []]. Qed.

Lemma quiet_call_opt post obj : quiet_post post → quiet (call_opt post obj).
Proof. intros Hq. destruct post as [f|]; [by apply Hq|apply quiet_ret]. Qed.

(** The objects that a deletion finds without anything to clean up. *)
Definition plain_alive obj : Prop :=
  ob_Status obj = StatusAlive ∧ ob_SyncInfo obj = None ∧ ob_BlockInfo obj = None.

Lemma delete_alive recv hs id obj i r p u d :
  empty_receiver recv → prefixes_ok fullDBPrefix fullDBIdxPrefix → stored_obj recv hs id obj → plain_alive obj →
  o_ObjID (h_o hs) = Some id → od_Unmarshal (o_Data (h_o hs)) = Some d → quiet_post p → (∀ obj, quiet (u obj)) →
  ∃ hs', handleDeleteObjectLog i r p u recv hs = (hs', Ok tt) ∧
    stored_obj recv hs' id (SetDeleteObjectWithOplog StatusDeleted (h_o hs) obj) ∧ o_IsSync (h_o hs') = true.
Proof.
  intros He Hp Hs (Ha & Hsy & Hb) Ho Ed Hqp Hqu.
  set (obj' := SetDeleteObjectWithOplog StatusDeleted (h_o hs) obj).
  destruct (saveDelete_ok recv hs id obj Hp Hs) as (s1 & E1 & Hs1). fold obj' in E1, Hs1.
  set (s2 := h_set (set_o (set_IsSync true)) s1) in *.
  destruct (ignore_quiet (call_opt p obj') s2 (quiet_call_opt _ _ Hqp)) as [i3 E3].
  set (s3 := MkH (h_st s2) (MkOI (oi_lock (h_info s2)) i3)) in *.
  set (s4 := h_set (set_o (set_IsSync true)) s3).
  assert (∃ i5, (if negb i then mret tt else ignore (u obj')) s4 = (MkH (h_st s4) (MkOI (oi_lock (h_info s4)) i5), Ok tt)) as [i5 E5].
  { destruct i; cbn [negb]; [apply ignore_quiet, Hqu|]. by exists i3. }
  set (s5 := MkH (h_st s4) (MkOI (oi_lock (h_info s4)) i5)) in *.
  exists (set_oi_lock (oi_lock (h_info hs)) s5). split; [|split; [|done]].
  - unfold handleDeleteObjectLog. rewrite get_log_bind. cbv zeta. rewrite Ho.
    rewrite (stm_bind_ok _ _ _ hs d) by (unfold GetData; by rewrite get_log_bind, Ed).
    apply (locked_get _ recv hs id obj); [done..| |].
    2: { destruct Hs1 as (_ & _ & Ei & _). change (oi_lock (h_info s5)) with (oi_lock (h_info s1)). by rewrite Ei. }
    cbv beta iota. rewrite Ha. change (Status_num StatusDeleted <=? Status_num StatusAlive)%Z with false. cbv iota.
    unfold handleDeleteObjectLogCore. rewrite get_log_bind. rewrite Hsy. cbv iota. rewrite st_ret_bind.
    rewrite Hb. cbn [removeBlockAndMediaInfoByBlockInfo]. rewrite st_ret_bind.
    rewrite decide_False by (rewrite Ha; intros [? _]; done).
    rewrite (stm_bind_ok _ _ _ _ _ E1). rewrite (stm_bind_ok _ _ _ _ _ E3).
    rewrite (stm_bind_ok _ _ _ s4 tt) by done. exact E5.
  - apply (saved_stored recv hs id obj); [done|apply Hs1..|apply SetDelete_normal, Hs].
Qed.

(** The one of two deletions that stays. *)
Definition earlier (o o' : BaseOplog) : BaseOplog := if IsLess (o_UpdateTS o) (o_UpdateTS o') then o else o'.

Lemma earlier_delete_fold os : ∀ o obj,
  foldl (λ obj o, earlier_delete o obj) (SetDeleteObjectWithOplog StatusDeleted o obj) os =
  SetDeleteObjectWithOplog StatusDeleted (foldl (λ m o, earlier o m) o os) obj.
Proof.
  induction os as [|o1 os IH]; intros o obj; [done|]. cbn [foldl]. rewrite <- IH. f_equal.
  unfold earlier_delete, earlier. cbn [SetDeleteObjectWithOplog ob_set_sync ob_set_updater ob_set_UpdateTS ob_set_ts ob_UpdateTS].
  by destruct (IsLess _ _).
Qed.

Lemma delete_fold i r p u os : ∀ obj,
  (∀ o, o ∈ os → is_Some (od_Unmarshal (o_Data o))) →
  foldl (λ obj '(op, o), after_log op o obj) obj ((λ o, (OpDelete i r p u, o)) <$> os) = foldl (λ obj o, earlier_delete o obj) obj os.
Proof.
  induction os as [|o os IH]; intros obj Hd; [done|]. cbn [fmap list_fmap foldl].
  destruct (Hd o ltac:(by left)) as [d E]. change (after_log (OpDelete i r p u) o obj) with
    (if od_Unmarshal (o_Data o) is Some _ then earlier_delete o obj else obj). rewrite E.
  apply IH. intros x Hx. apply Hd. by right.
Qed.

Lemma earliest_spec os : ∀ o,
  foldl (λ m o, earlier o m) o os ∈ o :: os ∧
  ∀ o', o' ∈ o :: os → ts_le (o_UpdateTS (foldl (λ m o, earlier o m) o os)) (o_UpdateTS o').
Proof.
  induction os as [|o1 os IH]; intros o; cbn [foldl].
  { split; [by left|]. intros o' ->%list_elem_of_singleton. reflexivity. }
  destruct (IH (earlier o1 o)) as [Hin Hle].
  assert (earlier o1 o = o1 ∧ ts_le (o_UpdateTS o1) (o_UpdateTS o) ∨ earlier o1 o = o ∧ ts_le (o_UpdateTS o) (o_UpdateTS o1)) as Hc.
  { unfold earlier. destruct (IsLess (o_UpdateTS o1) (o_UpdateTS o)) eqn:E.
    - left. split; [done|]. left. by apply IsLess_spec.
    - right. split; [done|]. apply IsLessEqual_spec. by rewrite IsLessEqual_IsLess, E. }
  split.
  - apply elem_of_cons in Hin as [->|Hin]; [|by do 2 right].
    destruct Hc as [[-> _]|[-> _]]; [right; by left|by left].
  - intros o' [->|[->|Ho']%elem_of_cons]%elem_of_cons; [| |by apply Hle; right];
      (etrans; [apply Hle; left|]); by destruct Hc as [[-> ?]|[-> ?]].
Qed.

Lemma earliest_unique os o o' :
  NoDup (o_UpdateTS <$> os) → o ∈ os → o' ∈ os →
  (∀ x, x ∈ os → ts_le (o_UpdateTS o) (o_UpdateTS x)) → (∀ x, x ∈ os → ts_le (o_UpdateTS o') (o_UpdateTS x)) → o = o'.
Proof.
  intros Hnd Hi Hi' Hm Hm'. assert (o_UpdateTS o = o_UpdateTS o') as E by (apply (anti_symm ts_le); auto).
  apply list_elem_of_lookup in Hi as [i Hi]. apply list_elem_of_lookup in Hi' as [j Hj].
  assert (i = j) as ->; [|congruence].
  apply (NoDup_lookup _ _ _ (o_UpdateTS o) Hnd); rewrite list_lookup_fmap; [by rewrite Hi|by rewrite Hj, E].
Qed.


(** ** An update completes *)

(** The keys under which an object is stored, and those of an oplog: its
    record, the record before it, and the marks of the tree. *)
Definition obj_key (id : PttID) (k : bytes) : Prop :=
  k = ob_IdxKey fullDBIdxPrefix id ∨ ∃ ts, k = fullDBPrefix ++ ts_marshal ts ++ id.
Definition keys_apart hs (id : PttID) : Prop := ∀ k, obj_key id k → foreign_key c (h_st hs) k.

Lemma ob_old_keys_holds hs id obj k :
  oholds (oview hs) id obj → k ∈ ob_old_keys fullDBIdxPrefix (ostate hs) id → obj_key id k.
Proof.
  intros (Hid & Hi & _). unfold ob_old_keys. change (bview (os_b (ostate hs))) with (oview hs). rewrite Hi. simpl.
  intros ->%list_elem_of_singleton. right. exists (ob_UpdateTS obj). by rewrite ob_MarshalKey_eq, Hid.
Qed.

(** Saving an object leaves the records of the oplogs alone. *)
Lemma saved_foreign hs id obj obj' hs1 k :
  saved_in hs id obj' hs1 → oholds (oview hs) id obj → ¬ obj_key id k → oview hs1 !! k = oview hs !! k.
Proof.
  intros (Hh & _ & _ & _ & _ & _ & _ & Hf) Ho Hk. apply Hf.
  - intros ->. apply Hk. by left.
  - intros ->. apply Hk. right. exists (ob_UpdateTS obj'). destruct Hh as (Hid & _). by rewrite ob_MarshalKey_eq, Hid.
  - intros Hin. apply Hk. by eapply ob_old_keys_holds.
Qed.

(** The contents of the [SyncInfo] taken over, as the log says. *)
Definition updated o (s : SyncInfo) obj : Object :=
  SetUpdateObjectWithOplog o (ToObject s (ob_set_sync None obj)).

Lemma updated_sync b o s obj : updated (set_IsSync b o) s obj = updated o s obj.
Proof. by destruct o. Qed.

Lemma updated_eq o s obj :
  updated o s obj =
  MkObj (ob_V obj) (ob_ID obj) (ob_CreateTS obj) (ob_CreatorID obj) (Some (o_CreatorID o)) (ob_EntityID obj) (ob_LogID obj)
    (Some (o_ID o)) StatusAlive true true (sy_BlockInfo s) (o_UpdateTS o) None (toData (sy_data s) (ob_data obj)).
Proof. reflexivity. Qed.

Lemma updated_idem o s obj : updated o s (updated o s obj) = updated o s obj.
Proof.
  rewrite (updated_eq o s obj). rewrite updated_eq.
  cbn [ob_V ob_ID ob_CreateTS ob_CreatorID ob_EntityID ob_LogID ob_data]. rewrite toData_idem. reflexivity.
Qed.

Lemma updated_normal recv o s obj :
  ob_decoded recv obj = obj → sy_BlockInfo s = None → ob_decoded recv (updated o s obj) = updated o s obj.
Proof.
  intros E Hb. destruct obj. unfold ob_decoded in E. simpl in E. injection E as E1 E2 E3 E4 _.
  unfold ob_decoded, updated, SetUpdateObjectWithOplog, ToObject. simpl. by rewrite E1, E2, Hb.
Qed.

(** A [SyncInfo] whose content is all there. *)
Definition whole (s : SyncInfo) : Prop := sy_IsGood s = true ∧ sy_BlockInfo s = None.

Lemma whole_check s : whole s → sy_CheckIsAllGood s = Ok (sy_set_good true true None s, true).
Proof.
  intros [Hg Hb]. unfold sy_CheckIsAllGood, check_all_good. destruct s; simpl in *. subst.
  destruct sy_IsAllGood; reflexivity.
Qed.

Lemma sameLog_ok hs id obj s :
  prefixes_ok fullDBPrefix fullDBIdxPrefix → oholds (oview hs) id obj ∨ ob_ID obj = id → held_obj hs id → whole s →
  is_Some (o_MasterLogID (h_o hs)) →
  let s' := sy_set_good true true None s in
  let obj' := updated (h_o hs) s' obj in
  ∃ hs1, handleUpdateObjectSameLog None obj s hs = (hs1, Ok (obj', s')) ∧
    saved_in (h_set (set_o (set_IsSync true)) hs) id obj' hs1.
Proof.
  intros Hp Hid Hh Hw Hm s' obj'. assert (ob_ID obj = id) as Hid' by (destruct Hid as [[? _]|]; done).
  unfold handleUpdateObjectSameLog, handleUpdateObjectNewLog. rewrite (whole_check s Hw). fold s'. rewrite st_lift_bind.
  cbv beta iota. rewrite get_log_bind. cbv zeta.
  rewrite (complete_Alive (h_o hs)) by done.
  rewrite bool_decide_eq_true_2 by done. unfold saveUpdateObjectWithOplog at 1. cbn [andb]. cbv iota.
  destruct (obj_Save_ok (h_set (set_o (set_IsSync true)) hs) obj' Hp) as (hs1 & E & Hs).
  { change (ob_ID obj') with (ob_ID obj). rewrite Hid'. exact Hh. }
  exists hs1. change (ob_ID obj') with (ob_ID obj) in Hs. rewrite Hid' in Hs. split; [|done].
  rewrite (stm_bind_ok _ _ _ hs1 obj'); [done|].
  rewrite get_log_bind. cbv zeta. unfold h_sync. rewrite st_mod_bind.
  fold (updated (h_o hs) s' obj). fold obj'. by rewrite (stm_bind_ok _ _ _ _ _ E).
Qed.

(** What reading an oplog depends on. *)
Lemma stored_oplog_agree (s s' : St) (lid : PttID) (P : bytes → Prop) :
  (∀ k, ¬ P k → sview s' !! k = sview s !! k) → ¬ P (IdxKey c lid) → (∀ k, first_key s (IdxKey c lid) = Ok k → ¬ P k) →
  stored_oplog c s' lid = stored_oplog c s lid ∧ stored (sview s') (IdxKey c lid) = stored (sview s) (IdxKey c lid).
Proof.
  intros Hag Hi Hk. assert (stored (sview s') (IdxKey c lid) = stored (sview s) (IdxKey c lid)) as Hst
    by (unfold stored; by rewrite Hag).
  split; [|done]. unfold stored_oplog. assert (first_key s' (IdxKey c lid) = first_key s (IdxKey c lid)) as ->
    by (unfold first_key; by rewrite Hst).
  destruct (first_key s (IdxKey c lid)) as [k|e|] eqn:E; [|done..]. cbn [mbind outcome_bind]. by rewrite (Hag k (Hk k eq_refl)).
Qed.

Lemma prev_ok_agree (s s' : St) lid :
  stored (sview s') (IdxKey c lid) = stored (sview s) (IdxKey c lid) →
  (prev_ok c s lid → prev_ok c s' lid) ∧ old_keys c s' lid = old_keys c s lid.
Proof. intros E. unfold prev_ok, old_keys. by rewrite E. Qed.

Lemma SetOplogIsSync_quiet internalSign broadcastLog b hs :
  quiet internalSign → quiet broadcastLog →
  ∃ i, ignore (SetOplogIsSync internalSign broadcastLog b) hs =
    (MkH (set_o (set_IsSync true) (h_st hs)) (MkOI (oi_lock (h_info hs)) i), Ok tt).
Proof.
  intros Hi Hb. destruct (Hi (h_set (set_o (set_IsSync true)) hs)) as (i & r & E & Hr).
  unfold ignore, SetOplogIsSync, h_sync. set (hs1 := MkH _ _) in E.
  destruct r as [isNew|e|]; [| |done].
  - assert (∃ i2, (if isNew && b then ignore broadcastLog else mret tt) hs1 = (MkH (h_st hs1) (MkOI (oi_lock (h_info hs1)) i2), Ok tt)) as [i2 E2].
    { destruct (isNew && b); [by apply ignore_quiet|by exists i]. }
    exists i2. rewrite (stm_bind_ok _ _ _ (MkH (h_st hs1) (MkOI (oi_lock (h_info hs1)) i2)) (inl isNew)); [done|].
    apply st_try_ok. rewrite st_mod_bind. rewrite (stm_bind_ok _ _ _ _ _ E). by rewrite (stm_bind_ok _ _ _ _ _ E2).
  - exists i. rewrite (stm_bind_ok _ _ _ hs1 (inr e)); [done|].
    apply st_try_err. rewrite st_mod_bind. by rewrite (stm_bind_err _ _ _ _ _ E).
Qed.

(** Storing the oplog of an object that is complete: the object is not
    touched. *)
Lemma Save_next_to hs id obj :
  let o := h_o hs in
  oholds (oview hs) id obj → held_obj hs id → ready c (h_st hs) (o_ID o) → prev_ok c (h_st hs) (o_ID o) → config_ok c →
  merkle_apart_opt c (h_st hs) → oplog_valid o → keys_apart hs id →
  ∃ hs', on_st (Save c env true) hs = (hs', Ok tt) ∧ h_o hs' = o ∧ h_info hs' = h_info hs ∧
    oholds (oview hs') id obj ∧ held_obj hs' id ∧ st_lock (h_st hs') = st_lock (h_st hs) ∧
    stored_oplog c (h_st hs') (o_ID o) = Ok o ∧ first_key (h_st hs') (IdxKey c (o_ID o)) = Ok (oplog_MarshalKey c o (dbPrefix c)) ∧
    oview hs' !! MarshalMerkleKey c o = Some (node_Marshal (leaf_of c o)).
Proof.
  intros o Hh [Hr Hst] Hrd Hp Hcfg Ha Hv Hap.
  destruct (Save_valid c env (h_st hs) Hrd Hp Hcfg Ha Hv) as (s' & E & Ho & Hrd' & Hg & Hleaf & _ & _ & Hl & Hidx & Hb & Hf).
  exists (MkH s' (h_info hs)). assert (∀ k, obj_key id k → sview s' !! k = sview (h_st hs) !! k) as Hfr by (intros k Hk; by apply Hf, Hap).
  assert (stored (sview s') (ob_IdxKey fullDBIdxPrefix id) = stored (oview hs) (ob_IdxKey fullDBIdxPrefix id)) as Hs'
    by (unfold stored; by rewrite Hfr by (by left)).
  split; [unfold on_st; by rewrite E|]. split; [exact Ho|]. split; [done|]. split; [|split; [|split; [done|split; [done|split; [|done]]]]].
  - destruct Hh as (Hid & Hi & Hk). split; [done|]. split; [exact (eq_trans Hs' Hi)|].
    refine (eq_trans (Hfr _ _) Hk). right. exists (ob_UpdateTS obj). by rewrite ob_MarshalKey_eq, Hid.
  - split; [|intros Hx; apply Hst; rewrite <- Hs'; exact Hx]. split; [apply Hrd'|].
    unfold ostate. cbn [os_b h_st]. rewrite Hb. apply Hr.
  - unfold first_key. change (st_o (h_st hs)) with o in Hidx. cbn [h_st]. by rewrite Hidx.
Qed.

(** [SyncInfo] and oplog of the object agree on what is stored, and the oplog
    can be completed. *)
Record log_waits hs (id : PttID) o : Prop := {
  lw_free : st_lock (h_st hs) !! o_ID o = None;
  lw_ready : ready c (h_st hs) (o_ID o);
  lw_prev : prev_ok c (h_st hs) (o_ID o);
  lw_stored : stored_oplog c (h_st hs) (o_ID o) = Ok o;
  lw_config : config_ok c;
  lw_apart : merkle_apart_opt c (h_st hs);
  lw_not_sync : o_IsSync o = false;
  lw_valid : oplog_valid (set_IsSync true o);
  lw_keys : keys_apart (h_set (set_o (λ _, set_IsSync true o)) hs) id;
}.

(** With the lock held and the oplog loaded. *)
Definition at_log o hs : ST := h_set (set_o (λ _, o)) (locked (o_ID o) hs).

Lemma with_stored_log_ok {A} hs id o (body : GoErr + BaseOplog → HM A) s1 r :
  log_waits hs id o → body (inr o) (at_log o hs) = (s1, r) → st_lock (h_st s1) = st_lock (h_st (at_log o hs)) →
  with_stored_log (Some (o_ID o)) body hs = (h_set (set_lock (st_lock (h_st hs))) s1, r).
Proof.
  intros [Hf Hr Hp Hg _ _ _ _ _] Hb Hl. unfold with_stored_log. cbn [or_panic]. rewrite st_lift_bind.
  apply h_lock_run; [done| |done].
  assert (on_st (oplog_Get c env (o_ID o) true) (locked (o_ID o) hs) = (locked (o_ID o) hs, Ok o)) as E.
  { unfold on_st. rewrite (oplog_Get_eq c env (h_st (locked (o_ID o) hs)) (o_ID o) Hr).
    change (stored_oplog c (h_st (locked (o_ID o) hs)) (o_ID o)) with (stored_oplog c (h_st hs) (o_ID o)). by rewrite Hg. }
  rewrite (stm_bind_ok _ _ _ _ _ (st_try_ok _ _ _ _ E)). cbv iota. by rewrite st_mod_bind.
Qed.

(** After the object has been saved, the oplog at hand is marked, signed and
    stored. *)
Lemma save_log_after hs id obj obj' o hs1 i internalSign broadcastLog :
  let l := set_IsSync true o in
  log_waits hs id o → oholds (oview hs) id obj →
  saved_in (h_set (set_o (set_IsSync true)) (olocked id (at_log o hs))) id obj' hs1 →
  quiet internalSign → quiet broadcastLog →
  ∃ hs2, (_ ← ignore (SetOplogIsSync internalSign broadcastLog i); on_st (Save c env true) : HM unit) hs1 = (hs2, Ok tt) ∧
    h_o hs2 = l ∧ oi_lock (h_info hs2) = oi_lock (h_info hs1) ∧ oholds (oview hs2) id obj' ∧ held_obj hs2 id ∧
    st_lock (h_st hs2) = st_lock (h_st hs1) ∧ stored_oplog c (h_st hs2) (o_ID o) = Ok l ∧
    first_key (h_st hs2) (IdxKey c (o_ID o)) = Ok (oplog_MarshalKey c l (dbPrefix c)) ∧
    oview hs2 !! MarshalMerkleKey c l = Some (node_Marshal (leaf_of c l)).
Proof.
  intros l [Hf Hr Hp Hg Hcfg Ha Hns Hv Hap] Hh Hs Hqi Hqb.
  pose proof Hs as (Hh1 & Hd1 & Ei & Eo & El & Em & Eb & _).
  destruct (SetOplogIsSync_quiet internalSign broadcastLog i hs1 Hqi Hqb) as [i2 E2].
  set (hs2 := MkH _ _) in E2.
  assert (h_o hs2 = l) as Ho2.
  { unfold h_o, hs2. cbn [h_st]. unfold set_o at 1. cbn [st_o]. rewrite Eo. by destruct o. }
  assert (¬ obj_key id (IdxKey c (o_ID o))) as Hni by (intros Hk; by destruct (Hap _ Hk) as (? & _)).
  assert (stored (sview (h_st hs2)) (IdxKey c (o_ID o)) = stored (sview (h_st hs)) (IdxKey c (o_ID o))) as Hst.
  { unfold stored. f_equal. refine (saved_foreign _ id obj obj' hs1 _ Hs _ Hni). exact Hh. }
  destruct (prev_ok_agree (h_st hs) (h_st hs2) (o_ID o) Hst) as [Hp2 Hold].
  destruct (Save_next_to hs2 id obj') as (hs3 & E3 & Ho3 & Hi3 & Hh3 & Hd3 & Hl3 & Hg3 & Hk3 & Hleaf3).
  - exact Hh1.
  - exact Hd1.
  - rewrite Ho2. destruct Hd1 as [[Hb1 _] _]. split; [exact Hb1|].
    change (blocks (st_b (h_st hs2))) with (blocks (st_b (h_st hs1))). rewrite Eb. apply Hr.
  - rewrite Ho2. by apply Hp2.
  - exact Hcfg.
  - unfold merkle_apart_opt, hs2. cbn [h_st set_o st_m]. rewrite Em. exact Ha.
  - by rewrite Ho2.
  - intros k Hk. destruct (Hap k Hk) as (K1 & K2 & K3 & K4). unfold foreign_key. change (st_o (h_st hs2)) with (h_o hs2). rewrite Ho2.
    split; [exact K1|]. split; [exact K2|]. split; [|unfold hs2; cbn [h_st set_o st_m]; rewrite Em; exact K4].
    change (o_ID l) with (o_ID o). rewrite Hold. exact K3.
  - exists hs3. rewrite Ho2 in *. rewrite (stm_bind_ok _ _ _ _ _ E2). rewrite Hi3.
    exact (conj E3 (conj Ho3 (conj eq_refl (conj Hh3 (conj Hd3 (conj Hl3 (conj Hg3 (conj Hk3 Hleaf3)))))))).
Qed.

(** Reading the stored object, its error passed on. *)
Lemma locked_obj {A} (K : Object → HM A) recv hs id obj s1 r :
  empty_receiver recv → stored_obj recv hs id obj →
  K obj (olocked id hs) = (s1, r) → oi_lock (h_info s1) = oi_lock (h_info (olocked id hs)) →
  obj_lock (Some id) (origObj ← obj_GetByID recv (Some id); K origObj) hs = (set_oi_lock (oi_lock (h_info hs)) s1, r).
Proof.
  intros He [Hh Hr Hf Hn] HK Hl. apply obj_lock_run; [done| |done].
  by rewrite (stm_bind_ok _ _ _ _ _ (obj_GetByID_ok recv (olocked id hs) id obj He Hh Hr Hn)).
Qed.

(** What the peer answers for the update that waits. *)
Record answers (obj_in : Object) (id : PttID) o obj (s s1 : SyncInfo) (upd : SyncInfo → Object → BaseOplog → outcome SyncInfo) : Prop := {
  an_id : ob_ID obj_in = id;
  an_log : ob_UpdateLogID obj_in = Some (o_ID o);
  an_new : ob_UpdateLogID obj ≠ Some (o_ID o);
  an_waits : ob_SyncInfo obj = Some s;
  an_same : sy_LogID s = Some (o_ID o);
  an_not_good : sy_IsGood s = false;
  an_content : upd s obj_in o = Ok s1;
  an_no_blocks : sy_BlockInfo s1 = None;
}.

(** C15: when the content of a waiting, complete update arrives, the object is
    stored with that content, its newest oplog and its time, nothing waits any
    more, and the oplog is stored as synchronised with its leaf in the merkle
    tree; all locks are released. *)
Theorem update_completes recv hs id obj o s s1 obj_in upd internalSign broadcastLog :
  empty_receiver recv → prefixes_ok fullDBPrefix fullDBIdxPrefix → stored_obj recv hs id obj → log_waits hs id o →
  answers obj_in id o obj s s1 upd → quiet internalSign → quiet broadcastLog →
  let l := set_IsSync true o in
  ∃ hs', HandleSyncUpdateObjectAck internalSign broadcastLog obj_in recv (Some upd) None hs = (hs', Ok tt) ∧
    stored_obj recv hs' id (updated o (sy_set_good true true None s1) obj) ∧
    stored_oplog c (h_st hs') (o_ID o) = Ok l ∧ oview hs' !! MarshalMerkleKey c l = Some (node_Marshal (leaf_of c l)) ∧
    st_lock (h_st hs') = st_lock (h_st hs).
Proof.
  intros He Hp Hs Hw [A1 A2 A3 A4 A5 A6 A7 A8] Hqi Hqb l.
  set (s2 := sy_set_good true (sy_IsAllGood s1) (sy_BlockInfo s1) s1).
  set (s' := sy_set_good true true None s1). set (obj' := updated o s' obj).
  assert (whole s2) as Hw2 by done. assert (whole s') as Hw' by done.
  assert (is_Some (o_MasterLogID o)) as Hm by (destruct Hw as [_ _ _ _ _ _ _ Hv _]; apply Hv).
  set (hsB := olocked id (at_log o hs)).
  assert (stored_obj recv (at_log o hs) id obj) as HsA by (by destruct Hs).
  assert (oholds (oview hs) id obj) as HB by apply Hs. assert (held_obj hsB id) as HdB by (by apply (holds_held hs id obj), Hs).
  destruct (sameLog_ok hsB id obj s2 Hp (or_introl HB) HdB Hw2 Hm) as (hsC & EC & HsC).
  change (updated (h_o hsB) _ obj) with obj' in EC, HsC. change (sy_set_good true true None s2) with s' in EC.
  destruct (save_log_after hs id obj obj' o hsC true internalSign broadcastLog Hw HB HsC Hqi Hqb)
    as (hsE & EE & HoE & HiE & HhE & HdE & HlE & HgE & HkE & HleafE).
  destruct (sameLog_ok hsE id obj' s' Hp (or_introl HhE) HdE Hw' ltac:(by rewrite HoE)) as (hsF & EF & HsF).
  assert (updated (h_o hsE) (sy_set_good true true None s') obj' = obj') as Hidem.
  { rewrite HoE. unfold l. rewrite updated_sync. exact (updated_idem o s' obj). }
  rewrite Hidem in EF, HsF.
  pose proof HsC as (_ & _ & HiC & _ & HlC & _). pose proof HsF as (HhF & HdF & HiF & _ & HlF & _).
  set (hsG := set_oi_lock (oi_lock (h_info (at_log o hs))) hsF).
  exists (h_set (set_lock (st_lock (h_st hs))) hsG). split.
  { unfold HandleSyncUpdateObjectAck. rewrite A2. apply (with_stored_log_ok hs id o); [done| |].
    2: { change (st_lock (h_st hsG)) with (st_lock (h_st hsF)). rewrite HlF. cbn [h_set h_st set_o st_lock].
         rewrite HlE, HlC. done. }
    rewrite A1. apply (locked_obj _ recv (at_log o hs) id obj); [done..| |].
    2: { rewrite HiF. cbn [h_set h_info]. rewrite HiE, HiC. done. }
    cbv beta. destruct Hw as [_ _ _ _ _ _ Hns _ _]. rewrite Hns. rewrite decide_False by congruence. rewrite A4.
    rewrite decide_False by congruence. rewrite A6, A7, st_lift_bind. cbv zeta. fold s2.
    rewrite (stm_bind_ok _ _ _ _ _ EC). cbv beta iota. unfold syncUpdateAckSaveOplog. change (sy_IsAllGood s') with true. cbv iota.
    rewrite (stm_bind_ok2 _ _ _ _ _ _ EE). rewrite get_log_bind, HoE.
    rewrite (complete_Alive (set_IsSync true o)) by done.
    change (Status_num StatusAlive <? Status_num StatusAlive)%Z with false. cbv iota.
    by rewrite (stm_bind_ok _ _ _ _ _ EF). }
  assert (stored_obj recv hsG id obj') as HsG.
  { apply (saved_stored recv (at_log o hs) id obj); [done..|]. apply updated_normal; [apply Hs|done]. }
  split; [by destruct HsG|].
  assert (∀ k, ¬ obj_key id k → sview (h_st hsF) !! k = sview (h_st hsE) !! k) as Hfr
    by (intros k Hk; exact (saved_foreign _ id obj' obj' hsF k HsF HhE Hk)).
  destruct Hw as [_ _ _ _ _ _ _ _ Hap].
  assert (∀ k, k = IdxKey c (o_ID o) ∨ k = oplog_MarshalKey c l (dbPrefix c) ∨ k = MarshalMerkleKey c l → ¬ obj_key id k) as Hnk.
  { intros k Hk Hok. destruct (Hap k Hok) as (K1 & K2 & _). destruct Hk as [->|[->| ->]]; [by apply K1|..]; apply K2; [left|right; left]. }
  destruct (stored_oplog_agree (h_st hsE) (h_st hsF) (o_ID o) (obj_key id) Hfr) as [Hg _].
  { by apply Hnk; left. }
  { intros k. rewrite HkE. intros [= <-]. by apply Hnk; right; left. }
  split; [|split; [|done]].
  - change (stored_oplog c (h_st hsF) (o_ID o) = Ok l). by rewrite Hg.
  - change (sview (h_st hsF) !! MarshalMerkleKey c l = Some (node_Marshal (leaf_of c l))). rewrite Hfr; [exact HleafE|].
    by apply Hnk; right; right.
Qed.

(** ** An update waits *)

Definition calm {A} (a : A) (m : HM A) : Prop := ∀ s, ∃ i, m s = (MkH (h_st s) (MkOI (oi_lock (h_info s)) i), Ok a).

(** An update that is accepted: it follows on the creation, is not older than
    the object, and is not the update the object has. *)
Record accepted hs (id : PttID) obj : Prop := {
  ac_obj : o_ObjID (h_o hs) = Some id;
  ac_status : (Status_num (ob_Status obj) < Status_num StatusDeleted)%Z;
  ac_prelog : ob_LogID obj = o_PreLogID (h_o hs);
  ac_other : ob_UpdateLogID obj ≠ Some (o_ID (h_o hs));
  ac_time : IsLess (o_UpdateTS (h_o hs)) (ob_UpdateTS obj) = false;
  ac_newer : o_IsNewer (h_o hs) = false;
}.

(** What waits for its content: not good, without blocks. *)
Definition content_missing (s : SyncInfo) : Prop := sy_IsGood s = false ∧ sy_IsAllGood s = false ∧ sy_BlockInfo s = None.

Lemma update_waits_core recv hs id obj i r p upd sync d s :
  empty_receiver recv → prefixes_ok fullDBPrefix fullDBIdxPrefix → stored_obj recv hs id obj → accepted hs id obj →
  ob_SyncInfo obj = None → od_Unmarshal (o_Data (h_o hs)) = Some d → sync (h_o hs) d = Ok s → content_missing s →
  (∀ obj d s, calm tt (upd obj d s)) →
  let s' := sy_set_status StatusInternalSync s in
  ∃ hs', HandleUpdateObjectLog i r p (Some upd) sync recv hs = (hs', Ok ([], None)) ∧
    stored_obj recv hs' id (ob_set_sync (Some s') obj) ∧ st_o (h_st hs') = st_o (h_st hs) ∧ st_lock (h_st hs') = st_lock (h_st hs).
Proof.
  intros He Hp Hs [C1 C2 C3 C4 C5 C6] Hsy Ed Es (G1 & G2 & G3) Hcalm s'.
  assert (sy_CheckIsAllGood s' = Ok (s', false)) as Hck.
  { unfold sy_CheckIsAllGood, check_all_good. subst s'. destruct s; simpl in *. by subst. }
  set (obj' := ob_set_sync (Some s') obj).
  destruct (obj_Save_ok (olocked id hs) obj' Hp) as (hs1 & E1 & Hs1).
  { change (ob_ID obj') with (ob_ID obj). rewrite (proj1 (so_holds _ _ _ _ Hs)). apply (holds_held hs id obj); apply Hs. }
  change (ob_ID obj') with (ob_ID obj) in Hs1. rewrite (proj1 (so_holds _ _ _ _ Hs)) in Hs1.
  assert (∃ i2, (if i then upd obj' (Some d) None else mret tt) hs1 = (MkH (h_st hs1) (MkOI (oi_lock (h_info hs1)) i2), Ok tt)) as [i2 E2].
  { destruct i; [apply Hcalm|]. exists (oi_info (h_info hs1)). by destruct hs1 as [? []]. }
  set (hs2 := MkH (h_st hs1) (MkOI (oi_lock (h_info hs1)) i2)) in E2.
  pose proof Hs1 as (Hh1 & Hd1 & Hi1 & Ho1 & Hl1 & _).
  exists (set_oi_lock (oi_lock (h_info hs)) hs2). split; [|split; [|split; [exact Ho1|exact Hl1]]].
  - unfold HandleUpdateObjectLog. rewrite (stm_bind_ok _ _ _ (set_oi_lock (oi_lock (h_info hs)) hs2) (inl tt)); [done|].
    apply st_try_ok. unfold handleUpdateObjectCore. rewrite get_log_bind. cbv zeta. rewrite C1.
    apply (locked_get _ recv hs id obj); [done..| |by cbn [hs2 h_info oi_lock]; rewrite Hi1].
    cbv beta iota. rewrite (proj2 (Z.leb_gt _ _)) by done. rewrite decide_False by (intros Hx; by apply Hx).
    rewrite decide_False by (intros Hx; by apply C4). rewrite C5, C6.
    rewrite (stm_bind_ok _ _ _ (olocked id hs) d) by (unfold GetData; rewrite get_log_bind; change (h_o (olocked id hs)) with (h_o hs); by rewrite Ed).
    rewrite Es, st_lift_bind. unfold handleUpdateObjectCoreCore, handleUpdateObjectWithNewSyncInfo. rewrite Hsy. fold s'.
    rewrite (stm_bind_ok _ _ _ hs1 (obj', None)); [exact E2|].
    rewrite (stm_bind_ok _ _ _ hs1 (obj', s')); [done|].
    unfold handleUpdateObjectNewLog. rewrite Hck, st_lift_bind. cbv beta iota. rewrite get_log_bind. cbv zeta. cbn [andb]. fold obj'.
    by rewrite (stm_bind_ok _ _ _ _ _ E1).
  - apply (saved_stored recv hs id obj); [done|exact Hh1|exact Hd1|].
    destruct Hs as [_ _ _ Hn]. destruct obj. unfold ob_decoded in Hn |- *. simpl in *. injection Hn as N1 N2 N3 N4 _.
    subst s'. destruct s; simpl in *. subst. unfold sy_decoded, sy_set_status, sy_set_good. simpl. by rewrite N1, N2, N3, N4.
Qed.

(** An accepted update whose content is still to come is kept in the
    [SyncInfo] of the object, whose contents do not change; the oplog is not
    marked as synchronised. *)
Theorem update_waits recv hs id obj i r p upd sync d s :
  empty_receiver recv → prefixes_ok fullDBPrefix fullDBIdxPrefix → stored_obj recv hs id obj → accepted hs id obj →
  ob_SyncInfo obj = None → od_Unmarshal (o_Data (h_o hs)) = Some d → sync (h_o hs) d = Ok s → content_missing s →
  (∀ obj d s, calm tt (upd obj d s)) →
  ∃ hs', HandleUpdateObjectLog i r p (Some upd) sync recv hs = (hs', Ok ([], None)) ∧
    stored_obj recv hs' id (ob_set_sync (Some (sy_set_status StatusInternalSync s)) obj) ∧
    st_o (h_st hs') = st_o (h_st hs) ∧ st_lock (h_st hs') = st_lock (h_st hs).
Proof. apply update_waits_core. Qed.

(** The order of updates has no tie-break: an object with one update
    accepts another one of the same time, so that of two objects that get them
    in different orders each ends up waiting for the other's update. *)
Theorem equal_time_update_accepted recv hs id obj a s1 i r p upd sync d s :
  empty_receiver recv → prefixes_ok fullDBPrefix fullDBIdxPrefix → stored_obj recv hs id (updated a s1 obj) →
  o_ID a ≠ o_ID (h_o hs) → o_UpdateTS a = o_UpdateTS (h_o hs) → o_ObjID (h_o hs) = Some id →
  ob_LogID obj = o_PreLogID (h_o hs) → o_IsNewer (h_o hs) = false →
  od_Unmarshal (o_Data (h_o hs)) = Some d → sync (h_o hs) d = Ok s → content_missing s → (∀ obj d s, calm tt (upd obj d s)) →
  ∃ hs', HandleUpdateObjectLog i r p (Some upd) sync recv hs = (hs', Ok ([], None)) ∧
    stored_obj recv hs' id (ob_set_sync (Some (sy_set_status StatusInternalSync s)) (updated a s1 obj)).
Proof.
  intros He Hp Hs Hne Hts Ho Hl Hnw Hd Hsy Hm Hc.
  assert (accepted hs id (updated a s1 obj)) as Hacc.
  { split; [done|done|done| | |done]; [by intros [= ?]|].
    change (ob_UpdateTS (updated a s1 obj)) with (o_UpdateTS a). rewrite Hts. unfold IsLess. by rewrite !Z.ltb_irrefl. }
  destruct (update_waits_core recv hs id _ i r p upd sync d s He Hp Hs Hacc eq_refl Hd Hsy Hm Hc) as (hs' & E & Hs' & _).
  exists hs'. exact (conj E Hs').
Qed.

(** An update that is found to be invalid after it was applied, or while
    it waits, is never rolled back: the check is the one for the log of the
    creation. *)
Theorem failed_valid_update_ignored recv hs id obj ts upd :
  empty_receiver recv → stored_obj recv hs id obj → o_ObjID (h_o hs) = Some id →
  ob_LogID obj ≠ Some (o_ID (h_o hs)) →
  HandleFailedValidUpdateObjectLog recv ts upd hs = (hs, Ok tt).
Proof. intros He Hs Ho Hl. by apply (undo_other recv hs id obj). Qed.

(** ** Media: [protocol_sync_create_media_ack.go] *)

Definition updateSyncCreateMedia (toObj fromObj : Object) : outcome Object :=
  Ok (ob_set_data (ob_data fromObj) (ob_set_good (ob_IsGood toObj) (ob_IsAllGood toObj) (ob_BlockInfo fromObj) toObj)).

(** A created object that still waits for its content. *)
Record media_waits obj o : Prop := {
  mw_log : ob_LogID obj = Some (o_ID o);
  mw_update : ob_UpdateLogID obj = None;
  mw_good : ob_IsGood obj = false;
  mw_all : ob_IsAllGood obj = false;
}.

(** The digests of a media's blocks are those a peer answers with, not those
    of the signed creation log: whatever block information comes with the
    answer, unless it claims to be complete, is stored in place of the one the
    log gave. *)
Theorem media_ack_replaces_digests recv hs id obj o obj_in b internalSign broadcastLog post :
  empty_receiver recv → prefixes_ok fullDBPrefix fullDBIdxPrefix → stored_obj recv hs id obj → log_waits hs id o →
  media_waits obj o → ob_ID obj_in = id → ob_LogID obj_in = Some (o_ID o) →
  ob_BlockInfo obj_in = Some b → bi_objID b = None → bi_GetIsAllGood b = Ok (b, false) →
  ∃ hs' obj', HandleSyncCreateObjectAck internalSign broadcastLog obj_in recv (Some updateSyncCreateMedia) post hs = (hs', Ok tt) ∧
    stored_obj recv hs' id obj' ∧ ob_BlockInfo obj' = Some b ∧ st_lock (h_st hs') = st_lock (h_st hs).
Proof.
  intros He Hp Hs Hw [M1 M2 M3 M4] A1 A2 A3 A4 A5.
  set (obj' := ob_set_good true false (Some b) (ob_set_data (ob_data obj_in) obj)).
  set (hsB := olocked id (at_log o hs)).
  assert (oholds (oview hs) id obj) as HB by apply Hs. assert (held_obj hsB id) as HdB by (by apply (holds_held hs id obj), Hs).
  destruct (obj_Save_ok hsB obj' Hp) as (hsC & EC & HsC).
  { change (ob_ID obj') with (ob_ID obj). rewrite (proj1 HB). exact HdB. }
  change (ob_ID obj') with (ob_ID obj) in HsC. rewrite (proj1 HB) in HsC.
  pose proof HsC as (HhC & HdC & HiC & _ & HlC & _).
  set (hsG := set_oi_lock (oi_lock (h_info (at_log o hs))) hsC).
  assert (stored_obj recv (at_log o hs) id obj) as HsA by (by destruct Hs).
  exists (h_set (set_lock (st_lock (h_st hs))) hsG), obj'. split.
  { unfold HandleSyncCreateObjectAck. rewrite A2. apply (with_stored_log_ok hs id o); [done| |].
    2: { change (st_lock (h_st hsG)) with (st_lock (h_st hsC)). by rewrite HlC. }
    rewrite A1. apply (locked_obj _ recv (at_log o hs) id obj); [done..| |by rewrite HiC].
    cbv beta. destruct Hw as [_ _ _ _ _ _ Hns _ _]. rewrite Hns, M3. rewrite decide_True by done.
    unfold updateSyncCreateMedia at 1. rewrite st_lift_bind. cbv zeta. rewrite A3, M3, M4.
    assert (ob_CheckIsAllGood obj' = Ok (obj', false)) as Hck.
    { unfold ob_CheckIsAllGood, check_all_good. subst obj'. cbn [ob_set_good ob_IsAllGood ob_IsGood ob_BlockInfo negb].
      by rewrite A5. }
    change (ob_set_good true _ _ _) with obj'. rewrite Hck, st_lift_bind. cbn [negb]. exact EC. }
  split; [|done].
  assert (stored_obj recv hsG id obj') as HsG; [|by destruct HsG].
  apply (saved_stored recv (at_log o hs) id obj); [done..|].
  destruct Hs as [_ _ _ Hn]. destruct obj. unfold ob_decoded in Hn |- *. simpl in *. injection Hn as N1 N2 N3 N4 N5.
  subst obj'. simpl. rewrite N1, N2, N3, N5. destruct b. simpl in *. by subst.
Qed.

End ObjectLogs.

(** ** Witnesses *)

Definition w_oprefix : bytes := w_prefix x6f x62.
Definition w_oidx : bytes := w_prefix x6f x69.
Definition w_oid : PttID := replicate SizePttID x0b.
Definition w_created : PttID := replicate SizePttID x0d.

Lemma w_prefixes_ok : prefixes_ok w_oprefix w_oidx.
Proof. split; done. Qed.

(** An object that was created; one that waits for the update [o]. *)
Definition w_alive : Object :=
  MkObj CurrentVersion w_oid (MkTs 50 0) (Some w_signer) (Some w_signer) (Some w_entity) (Some w_created) None StatusAlive true true
    None (MkTs 50 0) None [x61].
Definition w_waiting (o : BaseOplog) : SyncInfo :=
  MkSync (Some (o_ID o)) (o_UpdateTS o) (Some (o_CreatorID o)) StatusInternalSync None false false [].

(** An oplog about the object. *)
Definition w_about (id : PttID) (t : Z) : BaseOplog :=
  MkOplog 2 id w_signer (MkTs t 0) (Some w_oid) 3 (Some w_created) [] [] ZeroSalt [] [] None (MkTs t 0) (replicate 32 x03)
    (Some w_id) [] [] false false [].
Definition w_id3 : PttID := replicate SizePttID x03.
Definition w_od (b : bytes) : option unit := Some tt.

Abbreviation w_ST := (HSt (S := mem_store) (Info := ObjInfo (Info := unit))).
Definition w_empty (o : BaseOplog) : w_ST := MkH (w_start o) (MkOI ∅ ()).
Definition w_save (obj : Object) (hs : w_ST) : w_ST := (obj_Save w_env w_oprefix w_oidx obj hs).1.

Lemma w_saved obj o :
  ob_ID obj = w_oid → ob_decoded w_recv obj = obj → stored_obj w_oprefix w_oidx w_recv (w_save obj (w_empty o)) w_oid obj.
Proof.
  intros Hid Hn. destruct (obj_Save_ok w_env w_oprefix w_oidx (w_empty o) obj w_prefixes_ok) as (hs' & E & Hh & [Hr _] & Hi & _).
  { split; [done|]. done. }
  unfold w_save. rewrite E. rewrite Hid in Hh, Hr. cbn [fst]. split; [exact Hh|exact Hr|by rewrite Hi|done].
Qed.

Definition w_deleted : Object := SetDeleteObjectWithOplog StatusDeleted (w_about w_id2 300) w_alive.
Abbreviation w_op := (ObjOp (S := mem_store) (Info := unit) (OpData := unit)).
Definition w_delete : w_op := OpDelete true None None (λ _, mret tt).
Definition w_update : w_op := OpUpdate true None None (Some (λ _ _ _, mret tt)) (λ o _, Ok (w_waiting o)).
Abbreviation w_handle_all := (handle_all w_cfg w_env w_env w_oprefix w_oidx (w_prefix x2e x62) (w_prefix x2e x69) w_od w_id w_recv).

Lemma deletion_is_final_witness :
  ∃ hs' obj', w_handle_all [(w_update, w_about w_id3 400); (w_delete, w_about w_id3 200)] (w_save w_deleted (w_empty w_x)) = (hs', Ok tt) ∧
    stored_obj w_oprefix w_oidx w_recv hs' w_oid obj' ∧ deleted obj'.
Proof.
  destruct (deletion_is_final w_cfg w_env w_env w_oprefix w_oidx (w_prefix x2e x62) (w_prefix x2e x69) w_od w_id w_recv
    [(w_update, w_about w_id3 400); (w_delete, w_about w_id3 200)] w_oid (w_save w_deleted (w_empty w_x)) w_deleted
    w_recv_empty w_prefixes_ok (w_saved w_deleted w_x eq_refl eq_refl) (conj eq_refl eq_refl)) as (Hd & hs' & E & Hs').
  - intros op o Hin. apply elem_of_cons in Hin as [[= -> ->]|[[= -> ->]|Hin]%elem_of_cons]; [split; [done|intros [=]]..|].
    by apply not_elem_of_nil in Hin.
  - eexists hs', _. exact (conj E (conj Hs' Hd)).
Defined.


Lemma update_waits_witness :
  let o := w_about w_id3 400 in
  ∃ hs', HandleUpdateObjectLog w_cfg w_env w_env w_oprefix w_oidx (w_prefix x2e x62) (w_prefix x2e x69) w_od true None None
      (Some (λ _ _ _, mret tt)) (λ o _, Ok (w_waiting o)) w_recv (w_save w_alive (w_empty o)) = (hs', Ok ([], None)) ∧
    stored_obj w_oprefix w_oidx w_recv hs' w_oid (ob_set_sync (Some (w_waiting o)) w_alive).
Proof.
  intros o.
  destruct (update_waits w_cfg w_env w_env w_oprefix w_oidx (w_prefix x2e x62) (w_prefix x2e x69) w_od w_recv
    (w_save w_alive (w_empty o)) w_oid w_alive true None None (λ _ _ _, mret tt) (λ o _, Ok (w_waiting o)) tt (w_waiting o)
    w_recv_empty w_prefixes_ok (w_saved w_alive o eq_refl eq_refl)) as (hs' & E & Hs' & _).
  - split; done.
  - done.
  - done.
  - done.
  - done.
  - intros ? ? ? s. exists (oi_info (h_info s)). by destruct s as [? []].
  - exists hs'. exact (conj E Hs').
Defined.

Lemma equal_time_update_accepted_witness :
  let a := w_about w_id2 400 in let b := w_about w_id3 400 in
  let obj := updated a (w_waiting a) w_alive in
  ∃ hs', HandleUpdateObjectLog w_cfg w_env w_env w_oprefix w_oidx (w_prefix x2e x62) (w_prefix x2e x69) w_od true None None
      (Some (λ _ _ _, mret tt)) (λ o _, Ok (w_waiting o)) w_recv (w_save obj (w_empty b)) = (hs', Ok ([], None)) ∧
    stored_obj w_oprefix w_oidx w_recv hs' w_oid (ob_set_sync (Some (w_waiting b)) obj).
Proof.
  intros a b obj.
  apply (equal_time_update_accepted w_cfg w_env w_env w_oprefix w_oidx (w_prefix x2e x62) (w_prefix x2e x69) w_od w_recv
    (w_save obj (w_empty b)) w_oid w_alive a (w_waiting a) true None None (λ _ _ _, mret tt) (λ o _, Ok (w_waiting o)) tt (w_waiting b)).
  - exact w_recv_empty.
  - exact w_prefixes_ok.
  - exact (w_saved obj b eq_refl eq_refl).
  - change (o_ID a ≠ o_ID b). discriminate.
  - reflexivity.
  - reflexivity.
  - reflexivity.
  - reflexivity.
  - reflexivity.
  - reflexivity.
  - exact (conj eq_refl (conj eq_refl eq_refl)).
  - intros ? ? ? s. exists (oi_info (h_info s)). by destruct s as [? []].
Defined.

(** The oplog [o] is stored, not yet synchronised, and so is the object. *)
Definition w_logged (o : BaseOplog) : w_ST := MkH (Save w_cfg w_env true (w_start o)).1 (MkOI ∅ ()).
Definition w_both (obj : Object) (o : BaseOplog) : w_ST := w_save obj (w_logged o).
Definition w_log : BaseOplog := w_about w_id3 400.

Lemma w_logged_held : held_obj w_oidx (w_logged w_log) w_oid.
Proof.
  split; [split|].
  - vm_compute. reflexivity.
  - vm_compute. reflexivity.
  - assert (stored (oview (w_logged w_log)) (ob_IdxKey w_oidx w_oid) = None) as -> by (vm_compute; reflexivity). discriminate.
Qed.

Lemma w_both_stored obj :
  ob_ID obj = w_oid → ob_decoded w_recv obj = obj → stored_obj w_oprefix w_oidx w_recv (w_both obj w_log) w_oid obj.
Proof.
  intros Hid Hn. destruct (obj_Save_ok w_env w_oprefix w_oidx (w_logged w_log) obj w_prefixes_ok) as (hs' & E & Hh & [Hr _] & Hi & _).
  { rewrite Hid. exact w_logged_held. }
  unfold w_both, w_save. rewrite E. rewrite Hid in Hh, Hr. cbn [fst]. split; [exact Hh|exact Hr|by rewrite Hi|done].
Qed.

(** Keys of the object begin with other bytes than those of the oplog. *)
Lemma w_keys_head k : obj_key w_oprefix w_oidx w_oid k → take 5 k = w_oidx ∨ take 5 k = w_oprefix.
Proof. intros [->|[ts ->]]; [by left|by right]. Qed.

Lemma w_foreign (hs : w_ST) k :
  st_o (h_st hs) = set_IsSync true w_log →
  old_keys w_cfg (h_st hs) w_id3 = [oplog_MarshalKey w_cfg w_log (dbPrefix w_cfg)] →
  (∀ m, st_m (h_st hs) = Some m → take 5 (dbMerkleToUpdatePrefixWithID m) = w_prefix x4d x74) →
  obj_key w_oprefix w_oidx w_oid k → foreign_key w_cfg (h_st hs) k.
Proof.
  intros Eo Ek Em Hk%w_keys_head. unfold foreign_key. rewrite Eo. change (o_ID (set_IsSync true w_log)) with w_id3. rewrite Ek.
  split; [intros ->|split; [intros Hin|split; [intros ->%list_elem_of_singleton|intros m Hm [r ->]]]].
  - destruct Hk as [Hk|Hk]; vm_compute in Hk; discriminate.
  - apply elem_of_cons in Hin as [->|Hin%list_elem_of_singleton]; [|rewrite Hin in Hk];
      destruct Hk as [Hk|Hk]; vm_compute in Hk; discriminate.
  - destruct Hk as [Hk|Hk]; vm_compute in Hk; discriminate.
  - specialize (Em m Hm). assert (take 5 (dbMerkleToUpdatePrefixWithID m ++ r) = w_prefix x4d x74) as E.
    { rewrite take_app_le; [done|]. assert (length (take 5 (dbMerkleToUpdatePrefixWithID m)) = 5%nat) as Hl by (by rewrite Em).
      rewrite length_take in Hl. lia. }
    rewrite E in Hk. destruct Hk as [Hk|Hk]; vm_compute in Hk; discriminate.
Qed.

Definition w_obj_waits : Object := ob_set_sync (Some (w_waiting w_log)) w_alive.
Definition w_media : Object :=
  MkObj CurrentVersion w_oid (MkTs 50 0) (Some w_signer) (Some w_signer) (Some w_entity) (Some w_id3) None StatusInternalSync false false
    (Some (MkBI CurrentVersion (Some w_content) 1 [[[x01]; [x02]]] None false None (Some w_signer) None)) (MkTs 50 0) None [].

Lemma w_log_waits obj :
  stored_oplog w_cfg (h_st (w_both obj w_log)) w_id3 = Ok w_log →
  stored (sview (h_st (w_both obj w_log))) (IdxKey w_cfg w_id3) =
    Some (Some (MkIndex (Some [Some (oplog_MarshalKey w_cfg w_log (dbPrefix w_cfg))]) (MkTs 400 0))) →
  st_lock (h_st (w_both obj w_log)) = ∅ → ready w_cfg (h_st (w_both obj w_log)) w_id3 →
  (∀ m, st_m (h_st (w_both obj w_log)) = Some m → merkle_apart w_cfg m ∧ take 5 (dbMerkleToUpdatePrefixWithID m) = w_prefix x4d x74) →
  log_waits w_cfg w_oprefix w_oidx (w_both obj w_log) w_oid w_log.
Proof.
  intros Hg Hst Hl Hr Hm. split.
  - by rewrite Hl.
  - exact Hr.
  - right. eexists _, _, (MkTs 400 0). split; [exact Hst|]. split; [reflexivity|]. split; [vm_compute; reflexivity|].
    unfold ts_ok, ts_wf. simpl. split_and!; word.
  - exact Hg.
  - exact w_config_ok.
  - unfold merkle_apart_opt. destruct (st_m _) as [m|]; [by apply Hm|done].
  - reflexivity.
  - split; [by eexists|]. split; [reflexivity|]. split; [reflexivity|]. split; [|reflexivity].
    unfold ts_ok, ts_wf. simpl. split_and!; word.
  - intros k Hk. apply w_foreign; [reflexivity| |intros m Em; by apply Hm|exact Hk].
    change (old_keys w_cfg (h_st (w_both obj w_log)) w_id3 = [oplog_MarshalKey w_cfg w_log (dbPrefix w_cfg)]).
    unfold old_keys. by rewrite Hst.
Qed.

(** Saving an object leaves the tree and the locks alone. *)
Lemma w_both_rest obj :
  ob_ID obj = w_oid →
  st_m (h_st (w_both obj w_log)) = st_m (h_st (w_logged w_log)) ∧ st_lock (h_st (w_both obj w_log)) = ∅ ∧
  ready w_cfg (h_st (w_both obj w_log)) w_id3.
Proof.
  intros Hid. destruct (obj_Save_ok w_env w_oprefix w_oidx (w_logged w_log) obj w_prefixes_ok)
    as (hs' & E & _ & [[Hh _] _] & _ & _ & El & Em & Eb & _).
  { rewrite Hid. exact w_logged_held. }
  unfold w_both, w_save. rewrite E. cbn [fst]. rewrite Em, El. split; [done|].
  split; [vm_compute; reflexivity|]. split; [exact Hh|]. rewrite Eb. vm_compute. reflexivity.
Qed.

Lemma w_tree m : st_m (h_st (w_logged w_log)) = Some m → merkle_apart w_cfg m ∧ take 5 (dbMerkleToUpdatePrefixWithID m) = w_prefix x4d x74.
Proof.
  assert (dbMerkleToUpdatePrefixWithID <$> st_m (h_st (w_logged w_log)) = Some (w_prefix x4d x74 ++ w_id)) as E by (vm_compute; reflexivity).
  intros Em. rewrite Em in E. simpl in E. injection E as E. split; [|by rewrite E].
  exists (w_prefix x4d x74), w_id. rewrite E. split_and!; done.
Qed.

Lemma w_obj_log_waits : log_waits w_cfg w_oprefix w_oidx (w_both w_obj_waits w_log) w_oid w_log.
Proof.
  destruct (w_both_rest w_obj_waits eq_refl) as (Em & El & Hr). apply w_log_waits.
  - vm_compute. reflexivity.
  - vm_compute. reflexivity.
  - exact El.
  - exact Hr.
  - rewrite Em. exact w_tree.
Qed.

Lemma w_media_log_waits : log_waits w_cfg w_oprefix w_oidx (w_both w_media w_log) w_oid w_log.
Proof.
  destruct (w_both_rest w_media eq_refl) as (Em & El & Hr). apply w_log_waits.
  - vm_compute. reflexivity.
  - vm_compute. reflexivity.
  - exact El.
  - exact Hr.
  - rewrite Em. exact w_tree.
Qed.

(** The peer's answer to the update, and what is made of it. *)
Definition w_text : @OData bytes_data := ([x62; x62] : bytes).
Definition w_text' : @SData bytes_data := ([x62; x62] : bytes).
Definition w_answer : Object := ob_set_logs (Some w_created) (Some w_id3) (ob_set_data w_text w_alive).
Definition w_take (s : SyncInfo) (from : Object) (_ : BaseOplog) : outcome SyncInfo :=
  Ok (MkSync (sy_LogID s) (sy_UpdateTS s) (sy_UpdaterID s) (sy_Status s) (sy_BlockInfo s) (sy_IsGood s) (sy_IsAllGood s) (ob_data from)).

Lemma update_completes_witness :
  ∃ hs' obj', HandleSyncUpdateObjectAck w_cfg w_env w_env w_oprefix w_oidx (mret false) (mret tt) w_answer w_recv (Some w_take) None
      (w_both w_obj_waits w_log) = (hs', Ok tt) ∧
    stored_obj w_oprefix w_oidx w_recv hs' w_oid obj' ∧ ob_data obj' = w_text ∧
    stored_oplog w_cfg (h_st hs') w_id3 = Ok (set_IsSync true w_log).
Proof.
  destruct (update_completes w_cfg w_env w_env w_oprefix w_oidx w_recv (w_both w_obj_waits w_log) w_oid w_obj_waits w_log
    (w_waiting w_log) (MkSync (Some w_id3) (MkTs 400 0) (Some w_signer) StatusInternalSync None false false w_text') w_answer w_take
    (mret false) (mret tt) w_recv_empty w_prefixes_ok (w_both_stored w_obj_waits eq_refl eq_refl) w_obj_log_waits)
    as (hs' & E & Hs & Hg & _).
  - split; [reflexivity|reflexivity|discriminate|reflexivity..].
  - intros s. exists (oi_info (h_info s)), (Ok false). split; [by destruct s as [? []]|discriminate].
  - apply quiet_ret.
  - eexists hs', _. exact (conj E (conj Hs (conj eq_refl Hg))).
Defined.

Lemma failed_valid_update_ignored_witness :
  let hs := w_save (updated w_log (w_waiting w_log) w_alive) (w_empty w_log) in
  HandleFailedValidUpdateObjectLog (OpData := unit) w_env w_oprefix w_oidx w_recv (Ok (MkTs 500 0)) (λ _ _ _, mret tt) hs = (hs, Ok tt).
Proof.
  apply (failed_valid_update_ignored w_env w_oprefix w_oidx w_recv _ w_oid (updated w_log (w_waiting w_log) w_alive)).
  - exact w_recv_empty.
  - exact (w_saved (updated w_log (w_waiting w_log) w_alive) w_log eq_refl eq_refl).
  - reflexivity.
  - discriminate.
Defined.

(** A peer that answers with digests of its own. *)
Definition w_forged_info : BlockInfo :=
  MkBI CurrentVersion (Some w_content) 1 [[[x66]; [x67]]] (Some [[false; false]]) false None (Some w_signer) None.
Definition w_forged : Object := ob_set_good false false (Some w_forged_info) w_media.

Lemma media_ack_replaces_digests_witness :
  ∃ hs' obj', HandleSyncCreateObjectAck w_cfg w_env w_env w_oprefix w_oidx (mret false) (mret tt) w_forged w_recv (Some updateSyncCreateMedia)
      None (w_both w_media w_log) = (hs', Ok tt) ∧
    stored_obj w_oprefix w_oidx w_recv hs' w_oid obj' ∧ ob_BlockInfo obj' = Some w_forged_info ∧
    bi_Hashs <$> ob_BlockInfo w_media ≠ Some (bi_Hashs w_forged_info).
Proof.
  destruct (media_ack_replaces_digests w_cfg w_env w_env w_oprefix w_oidx w_recv (w_both w_media w_log) w_oid w_media w_log w_forged
    w_forged_info (mret false) (mret tt) None w_recv_empty w_prefixes_ok (w_both_stored w_media eq_refl eq_refl) w_media_log_waits)
    as (hs' & obj' & E & Hs & Hb & _).
  - split; reflexivity.
  - reflexivity.
  - reflexivity.
  - reflexivity.
  - reflexivity.
  - vm_compute. reflexivity.
  - exists hs', obj'. refine (conj E (conj Hs (conj Hb _))). discriminate.
Defined.
