(* ===== verification/Leaves.v ===== *)
(** * The leaves of a merkle tree as a list of oplogs

    What [Save] of [service/oplog.go] keeps true of a store: every leaf of the
    tree is the leaf of an oplog that is stored as well.  So the leaves of an
    interval are the oplogs updated in it, in order, and the keys in the
    leaves load those oplogs. *)

From S2P Require Import Prelude GoTime CommonTypes Locks LevelDB PttDB MerkleNode Merkle OplogSign Oplog HandleOplogs.

Set Default Goal Selector "!".
Set Default Proof Using "Type".

(** ** Lists *)

Lemma StronglySorted_map_iff {A B} (f : A → B) (R : relation B) (l : list A) :
  StronglySorted R (f <$> l) ↔ StronglySorted (λ x y, R (f x) (f y)) l.
Proof.
  induction l as [|x l IH]; csimpl; [split; constructor|]. rewrite !StronglySorted_cons, IH, Forall_fmap. done.
Qed.

Lemma Forall2_filter {A B} (R : A → B → Prop) (P : A → Prop) (Q : B → Prop) `{!∀ x, Decision (P x), !∀ y, Decision (Q y)} (l : list A) (k : list B) :
  Forall2 R l k → (∀ x y, R x y → (P x ↔ Q y)) → Forall2 R (filter P l) (filter Q k).
Proof.
  intros Hf Hpq. induction Hf as [|x y l k Hxy _ IH]; [constructor|]. rewrite !filter_cons. specialize (Hpq x y Hxy).
  do 2 case_decide; try tauto. by constructor.
Qed.

Lemma filter_map {A B} (f : A → B) (P : B → Prop) `{!∀ y, Decision (P y)} (l : list A) :
  filter P (f <$> l) = f <$> filter (λ x, P (f x)) l.
Proof. induction l as [|x l IH]; [done|]. csimpl. rewrite !filter_cons. case_decide; csimpl; by rewrite IH. Qed.

Section Leaves.
Context {S : Type} `{LevelDB S, Json, JsonInts, Crypto, !Signing, OplogJson}.
Abbreviation OSt := (St (S := S)).
Variable c : OplogDB.
Variable p : bytes.
Hypothesis Hp : dbMerklePrefix c = Some p.
Implicit Types (o : BaseOplog) (s : OSt).

Definition leaf_prefix : bytes := p ++ dbPrefixID c ++ [byte_of_Z MerkleTreeLevelNow].
Definition leaf_rest o : bytes := ts_marshal (o_UpdateTS o) ++ o_ID o ++ MarshalOp (o_Op o).
Definition oplog_key o : bytes := oplog_MarshalKey c o (dbPrefix c).
Definition leaf_oplog o : Prop :=
  ts_ok (o_UpdateTS o) ∧ (NanoTs (o_UpdateTS o) < BILLION)%Z ∧ length (o_Hash o) = 32.

Record store_ok s : Prop := {
  so_healthy : bhealthy (st_b s);
  so_tree : ∃ m, st_m s = Some m ∧ DBMerklePrefix m = p ∧ PrefixID m = dbPrefixID c;
  so_leaf k v : sview s !! k = Some v → leaf_prefix `prefix_of` k →
    ∃ o, leaf_oplog o ∧ k = MarshalMerkleKey c o ∧ v = node_Marshal (leaf_of c o) ∧
         sview s !! oplog_key o ≫= o_Unmarshal = Some o
}.

(** The leaves, and the oplogs behind them. *)
Definition leaf_recs s : list (bytes * bytes) := ldb_range (db (bdb (st_b s))) (BytesPrefix leaf_prefix).
Definition rec_oplog s (kv : bytes * bytes) : option BaseOplog :=
  match node_Unmarshal kv.2 with Ok n => sview s !! mn_Key n ≫= o_Unmarshal | _ => None end.
Definition oplogs_of s : list BaseOplog := omap (rec_oplog s) (leaf_recs s).

Definition rec_of s (kv : bytes * bytes) o : Prop :=
  leaf_oplog o ∧ kv.1 = MarshalMerkleKey c o ∧ kv.2 = node_Marshal (leaf_of c o) ∧
  sview s !! oplog_key o ≫= o_Unmarshal = Some o.

Lemma merkle_key_eq o : MarshalMerkleKey c o = leaf_prefix ++ leaf_rest o.
Proof using Hp. rewrite (MarshalMerkleKey_eq c o p Hp). unfold leaf_prefix, leaf_rest. by rewrite <- !app_assoc. Qed.

Lemma oplog_key_eq o : oplog_key o = (dbPrefix c ++ dbPrefixID c) ++ leaf_rest o.
Proof. unfold oplog_key, leaf_rest. by rewrite oplog_MarshalKey_eq, <- app_assoc. Qed.

Lemma leaf_wf o : leaf_oplog o → node_wf (leaf_of c o).
Proof.
  intros ([[Hw Hn] _] & Hb & Hl). unfold node_wf, leaf_of. cbn [mn_Level mn_Addr mn_UpdateTS mn_NChildren].
  split_and!; try done; try (unfold MerkleTreeLevelNow; lia); try (unfold in_u32 in *; lia).
  rewrite length_take, length_drop, Hl. done.
Qed.

Lemma rec_oplog_eq s kv o : rec_of s kv o → rec_oplog s kv = Some o.
Proof.
  intros (Hl & _ & E & Hv). unfold rec_oplog. rewrite E, node_Unmarshal_Marshal by (by apply leaf_wf).
  exact Hv.
Qed.

Lemma leaf_recs_oplogs s : store_ok s → Forall2 (rec_of s) (leaf_recs s) (oplogs_of s).
Proof.
  intros Hok. assert (Forall (λ kv, ∃ o, rec_of s kv o) (leaf_recs s)) as Hf.
  { apply Forall_forall. intros [k v] [Hv Hk]%ldb_range_elem; [|apply Hok].
    apply in_range_BytesPrefix in Hk. destruct (so_leaf s Hok k v Hv Hk) as (o & ?). exists o. done. }
  unfold oplogs_of. induction Hf as [|kv l [o Ho] _ IH]; [constructor|].
  csimpl. rewrite (rec_oplog_eq s kv o Ho). by constructor.
Qed.

Lemma oplogs_sorted s : store_ok s → StronglySorted (λ a b, bytes_lt (leaf_rest a) (leaf_rest b)) (oplogs_of s).
Proof using Hp.
  intros Hok. pose proof (leaf_recs_oplogs s Hok) as Hf. pose proof (ldb_range_sorted (db (bdb (st_b s))) (BytesPrefix leaf_prefix)) as Hs.
  fold (leaf_recs s) in Hs. induction Hf as [|kv o l k Ho Hf IH]; [constructor|].
  apply StronglySorted_cons in Hs as [Hh Hs]. apply StronglySorted_cons. split; [|by apply IH].
  destruct Ho as (_ & Ek & _). clear IH Hs. induction Hf as [|kv' o' l k (_ & Ek' & _) Hf IH]; [constructor|].
  apply Forall_cons in Hh as [Hlt Hh]. constructor; [|by apply IH].
  unfold key_lt, bytes_lt in *. by rewrite Ek, Ek', !merkle_key_eq, bytes_compare_app in Hlt.
Qed.

Lemma node_Marshal_inj m n : node_wf m → node_wf n → node_Marshal m = node_Marshal n → m = n.
Proof.
  intros Hm Hn E. apply (f_equal node_Unmarshal) in E. rewrite !node_Unmarshal_Marshal in E by done. by injection E.
Qed.

Lemma oplogs_of_elem s o :
  store_ok s →
  o ∈ oplogs_of s ↔ leaf_oplog o ∧ sview s !! MarshalMerkleKey c o = Some (node_Marshal (leaf_of c o)) ∧
                    sview s !! oplog_key o ≫= o_Unmarshal = Some o.
Proof using Hp.
  intros Hok. pose proof (leaf_recs_oplogs s Hok) as Hf. split.
  - intros Hin. apply list_elem_of_lookup in Hin as [i Hi].
    destruct (Forall2_lookup_r _ _ _ _ _ Hf Hi) as ([k v] & Hkv & Hl & E1 & E2 & Hv). simpl in *. subst k v.
    split; [done|]. split; [|done]. apply list_elem_of_lookup_2 in Hkv. apply ldb_range_elem in Hkv as [? _]; [done|apply Hok].
  - intros (Hl & Hm & Hv).
    assert ((MarshalMerkleKey c o, node_Marshal (leaf_of c o)) ∈ leaf_recs s) as Hin.
    { apply ldb_range_elem; [apply Hok|]. split; [done|]. apply in_range_BytesPrefix. rewrite merkle_key_eq. by eexists. }
    apply list_elem_of_lookup in Hin as [i Hi]. destruct (Forall2_lookup_l _ _ _ _ _ Hf Hi) as (o' & Ho' & Hl' & E1 & E2 & Hv').
    simpl in E1, E2. apply node_Marshal_inj in E2; [|by apply leaf_wf..].
    assert (oplog_key o = oplog_key o') as Ek by exact (f_equal mn_Key E2).
    rewrite Ek, Hv' in Hv. injection Hv as ->. by eapply list_elem_of_lookup_2.
Qed.

(** ** Reading an interval *)

Lemma leaf_rest_range o a b :
  leaf_oplog o → ts_pos a → ts_pos b →
  bytes_le (ts_marshal a) (leaf_rest o) ∧ bytes_lt (leaf_rest o) (ts_marshal b) ↔ ts_in (o_UpdateTS o) (a, b).
Proof.
  intros (Ht%ts_ok_pos & _) Ha Hb. unfold ts_in. cbn [fst snd]. unfold leaf_rest.
  assert (∀ t x, ts_pos t → bytes_lt (ts_marshal (o_UpdateTS o) ++ x) (ts_marshal t) ↔ ts_lt (o_UpdateTS o) t) as Hlt.
  { intros t x Hpos. rewrite <- ts_marshal_lt by done. rewrite <- (app_nil_r (ts_marshal t)) at 1. unfold bytes_lt.
    rewrite bytes_compare_app_same_len by (by rewrite !ts_marshal_length).
    destruct (bytes_compare (ts_marshal (o_UpdateTS o)) (ts_marshal t)) eqn:E; try done. by destruct x. }
  rewrite Hlt by done. f_equiv. specialize (Hlt a (o_ID o ++ MarshalOp (o_Op o)) Ha).
  rewrite bytes_lt_not_le, ts_lt_not_le in Hlt. split; intros Hle; apply dec_stable; tauto.
Qed.

Lemma nodes_of_recs s l k : Forall2 (rec_of s) l k → nodes_of l = Ok (leaf_of c <$> k).
Proof.
  induction 1 as [|[x v] o l k (Hl & _ & E & _) _ IH]; [done|]. simpl in E. cbn [nodes_of]. rewrite E.
  rewrite node_Unmarshal_Marshal by (by apply leaf_wf). rewrite IH. done.
Qed.

(** A range inside another is a filter of it. *)
Lemma ldb_range_filter (d : S) r r' :
  healthy d → (∀ k, in_range k r' → in_range k r) → ldb_range d r' = filter (λ kv, in_range kv.1 r') (ldb_range d r).
Proof.
  intros Hd Hr. apply key_sorted_unique; [apply ldb_range_sorted|apply StronglySorted_filter, ldb_range_sorted|].
  intros [k v]. rewrite list_elem_of_filter, !ldb_range_elem by done. simpl. naive_solver.
Qed.

Definition in_iv (a b : Timestamp) o : Prop := ts_in (o_UpdateTS o) (a, b).
#[global] Instance in_iv_dec a b o : Decision (in_iv a b o).
Proof. unfold in_iv. apply _. Defined.
Definition oplogs_in s (a b : Timestamp) : list BaseOplog := filter (in_iv a b) (oplogs_of s).

Lemma get_leaves s m a b :
  store_ok s → shared_merkle s = Some m → ts_pos a → ts_pos b →
  GetMerkleTreeListByLevel m MerkleTreeLevelNow a b = Ok (leaf_of c <$> oplogs_in s a b).
Proof using Hp.
  intros Hok Hm Ha Hb. destruct (so_tree s Hok) as (m0 & E & Ep & Ei). unfold shared_merkle in Hm. rewrite E in Hm.
  injection Hm as <-. set (m := set_m_db m0 (bdb (st_b s))).
  unfold GetMerkleTreeListByLevel, GetMerkleTreeListCore. rewrite GetMerkleIter_items.
  assert (∀ t, MarshalKey m MerkleTreeLevelNow t = leaf_prefix ++ ts_marshal t) as Ek.
  { intros t. rewrite MarshalKey_eq. unfold leaf_prefix, DBPrefix. simpl. by rewrite Ep, Ei, <- !app_assoc. }
  change (db (m_db m)) with (db (bdb (st_b s))).
  rewrite (ldb_range_filter _ (BytesPrefix leaf_prefix)); [|apply Hok|].
  - apply (nodes_of_recs s). apply Forall2_filter; [by apply leaf_recs_oplogs|].
    intros [k v] o (Hl & -> & _). unfold in_range, key_range, in_iv. simpl. rewrite !Ek, merkle_key_eq.
    rewrite <- leaf_rest_range by done. unfold bytes_le, bytes_lt. by rewrite !bytes_compare_app.
  - intros k [Hle Hlt]. simpl in Hle, Hlt. rewrite Ek in Hle, Hlt. apply in_range_BytesPrefix.
    destruct (between_prefix _ _ _ _ Hle Hlt) as (r & -> & _). by eexists.
Qed.

(** ** Loading *)

Lemma load_leaf s o : store_ok s → o ∈ oplogs_of s → Load (oplog_key o) s = (s, Ok o).
Proof using Hp.
  intros Hok Hin. apply oplogs_of_elem in Hin as (_ & _ & Hv); [|done]. unfold Load. autorewrite with stm.
  unfold Get. rewrite ldb_get_ok by apply Hok. unfold sview, bview in Hv.
  destruct (ldb_view _ !! oplog_key o) as [v|]; [|done]. simpl in *. autorewrite with stm. by rewrite Hv.
Qed.

Lemma load_leaves s l : store_ok s → l ⊆ oplogs_of s → getOplogsFromKeys (oplog_key <$> l) s = (s, Ok l).
Proof using Hp.
  intros Hok. induction l as [|o l IH]; intros Hsub; [done|]. csimpl.
  rewrite (stm_bind_ok _ _ s s (inl o)).
  - rewrite (stm_bind_ok _ _ s s l) by (apply IH; set_solver). done.
  - apply st_try_ok, load_leaf; [done|]. apply Hsub. by left.
Qed.

(** ** Comparing *)

Lemma leaf_keys_sorted l :
  StronglySorted (λ a b, bytes_lt (leaf_rest a) (leaf_rest b)) l → StronglySorted bytes_lt (oplog_key <$> l).
Proof.
  intros Hs. apply StronglySorted_map_iff. induction Hs as [|o l Hs IH Hf]; constructor; [done|].
  eapply Forall_impl; [exact Hf|]. intros x Hx. rewrite !oplog_key_eq. unfold bytes_lt. by rewrite bytes_compare_app.
Qed.

(** The keys two lists of leaves lack of each other. *)
Lemma merge_leaves mine theirs :
  StronglySorted bytes_lt (oplog_key <$> mine) → StronglySorted bytes_lt (oplog_key <$> theirs) →
  MergeKeysInMerkleNodes (leaf_of c <$> mine) (leaf_of c <$> theirs) =
    Ok (oplog_key <$> filter (λ o, oplog_key o ∉ oplog_key <$> mine) theirs,
        oplog_key <$> filter (λ o, oplog_key o ∉ oplog_key <$> theirs) mine).
Proof.
  intros Hm Ht. rewrite merge_keys_equiv_diff_keys, <- !list_fmap_compose.
  change (mn_Key ∘ leaf_of c) with oplog_key. rewrite diff_merkle_keys_spec by done.
  by rewrite !filter_map.
Qed.
(** ** Intervals one after the other *)

Lemma oplogs_time_sorted s : store_ok s → StronglySorted (λ a b, ts_le (o_UpdateTS a) (o_UpdateTS b)) (oplogs_of s).
Proof using Hp.
  intros Hok. pose proof (oplogs_sorted s Hok) as Hs.
  assert (Forall leaf_oplog (oplogs_of s)) as Hl.
  { apply Forall_forall. intros o Ho. by apply oplogs_of_elem in Ho as [? _]. }
  induction Hs as [|o l Hs IH Hf]; [constructor|]. apply Forall_cons in Hl as [Ho Hl]. constructor; [by apply IH|].
  clear IH Hs. induction Hf as [|o' l Hlt Hf IH]; [constructor|]. apply Forall_cons in Hl as [Ho' Hl].
  constructor; [|by apply IH]. destruct Ho as (Ht%ts_ok_pos & _), Ho' as (Ht'%ts_ok_pos & _).
  apply ts_marshal_le; [done..|]. unfold leaf_rest, bytes_lt, bytes_le in *.
  rewrite bytes_compare_app_same_len in Hlt by (by rewrite !ts_marshal_length).
  by destruct (bytes_compare (ts_marshal (o_UpdateTS o)) (ts_marshal (o_UpdateTS o'))).
Qed.

Lemma filter_split {A} (t : A → Timestamp) (a b d : Timestamp) (l : list A) :
  StronglySorted (λ x y, ts_le (t x) (t y)) l → ts_le a b → ts_le b d →
  filter (λ x, ts_in (t x) (a, d)) l = filter (λ x, ts_in (t x) (a, b)) l ++ filter (λ x, ts_in (t x) (b, d)) l.
Proof.
  intros Hs Hab Hbd. induction Hs as [|x l Hs IH Hf]; [done|]. rewrite !filter_cons. unfold ts_in in *. simpl in *.
  destruct (decide (ts_lt (t x) b)) as [Hlt|Hge].
  - rewrite (decide_False (P := ts_le b (t x) ∧ _)) by (intros [Hle _]; by apply ts_lt_not_le in Hlt).
    assert (ts_lt (t x) d) by (by eapply ts_lt_le_trans).
    destruct (decide (ts_le a (t x))); repeat case_decide; try tauto; by rewrite IH.
  - assert (ts_le b (t x)) as Hle by (apply dec_stable; by rewrite <- ts_lt_not_le).
    assert (ts_le a (t x)) by (by transitivity b).
    rewrite (decide_False (P := ts_le a (t x) ∧ ts_lt (t x) b)) by tauto.
    rewrite (filter_none (λ y, ts_le a (t y) ∧ ts_lt (t y) b) l) in IH |- *.
    + simpl in *. repeat case_decide; try tauto; by rewrite IH.
    + eapply Forall_impl; [exact Hf|]. simpl. intros y Hy [_ Hc]. apply Hge. by eapply ts_le_lt_trans.
    + eapply Forall_impl; [exact Hf|]. simpl. intros y Hy [_ Hc]. apply Hge. by eapply ts_le_lt_trans.
Qed.

Lemma oplogs_in_split s a b d :
  store_ok s → ts_le a b → ts_le b d → oplogs_in s a d = oplogs_in s a b ++ oplogs_in s b d.
Proof using Hp. intros Hok. apply (filter_split o_UpdateTS). by apply oplogs_time_sorted. Qed.

Lemma oplogs_in_elem s a b o : o ∈ oplogs_in s a b ↔ ts_in (o_UpdateTS o) (a, b) ∧ o ∈ oplogs_of s.
Proof. unfold oplogs_in. rewrite list_elem_of_filter. done. Qed.

(** The receiver's filter by time reads a smaller interval. *)
Lemma oplogs_in_sub s a b a' b' :
  ts_le a a' → ts_le b' b → filter (λ o, ts_in (o_UpdateTS o) (a', b')) (oplogs_in s a b) = oplogs_in s a' b'.
Proof.
  intros Ha Hb. unfold oplogs_in. apply list_filter_filter_l. intros o [H1' H2']. split; simpl in *.
  - by transitivity a'.
  - by eapply ts_lt_le_trans.
Qed.

(** ** Saving an oplog

    The tree that shares the store keeps its prefixes. *)

Definition tree_id s : option (bytes * PttID) := (λ m, (DBMerklePrefix m, PrefixID m)) <$> st_m s.
Definition keeps {A} (m : stm OSt A) : Prop := ∀ s, tree_id (m s).1 = tree_id s.

Lemma keeps_bind {A B} (m : stm OSt A) (k : A → stm OSt B) : keeps m → (∀ a, keeps (k a)) → keeps (m ≫= k).
Proof.
  intros Hm Hk s. specialize (Hm s). unfold mbind, stm_bind. destruct (m s) as [s1 [a|e|]]; simpl in *; [|done..].
  by rewrite Hk.
Qed.
Lemma keeps_ret {A} (a : A) : keeps (mret a). Proof. done. Qed.
Lemma keeps_get : keeps st_get. Proof. done. Qed.
Lemma keeps_lift {A} (r : outcome A) : keeps (st_lift r). Proof. done. Qed.
Lemma keeps_set_o f : keeps (st_mod (set_o f)). Proof. done. Qed.
Lemma keeps_try {A} (m : stm OSt A) : keeps m → keeps (st_try m).
Proof. intros Hm s. specialize (Hm s). unfold st_try. by destruct (m s) as [s1 [a|e|]]. Qed.
Lemma keeps_batch {A} (f : LDBBatch → LDBBatch * outcome A) : keeps (on_batch f).
Proof. intros s. unfold on_batch. by destruct (f (st_b s)). Qed.
Lemma keeps_merkle (f : Merkle → Merkle) :
  (∀ m, DBMerklePrefix (f m) = DBMerklePrefix m ∧ PrefixID (f m) = PrefixID m) → keeps (on_merkle f).
Proof.
  intros Hf s. unfold on_merkle, tree_id. destruct (st_m s) as [m|] eqn:E; simpl; [|by rewrite E].
  by destruct (Hf (set_m_db m (bdb (st_b s)))) as [-> ->].
Qed.

Ltac keeps_step :=
  first [ progress intros | done
        | apply keeps_bind | apply keeps_ret | apply keeps_get | apply keeps_lift | apply keeps_set_o | apply keeps_try
        | apply keeps_batch | apply keeps_merkle | case_match ].

Lemma SetUpdateTS_id m t : DBMerklePrefix (SetUpdateTS m t) = DBMerklePrefix m ∧ PrefixID (SetUpdateTS m t) = PrefixID m.
Proof. unfold SetUpdateTS. by destruct (ToHRTimestamp t). Qed.
Lemma SetUpdateTS2_id m t t2 :
  DBMerklePrefix (SetUpdateTS2 m t t2) = DBMerklePrefix m ∧ PrefixID (SetUpdateTS2 m t t2) = PrefixID m.
Proof. unfold SetUpdateTS2. destruct (ToHRTimestamp t), (ToHRTimestamp t2). by case_match. Qed.

Lemma keeps_Save env : keeps (Save c env true).
Proof.
  unfold Save, SaveCore, SaveCorePending, setMerkleUpdateTS, orig_key, delete_all. cbn [with_oplog_lock].
  repeat keeps_step; try apply SetUpdateTS_id; apply SetUpdateTS2_id.
Qed.

(** Keys under different prefixes differ. *)
Lemma leaf_key_foreign s k :
  config_ok c → merkle_apart_opt c s → old_keys c s (o_ID (st_o s)) = [] →
  (leaf_prefix `prefix_of` k ∧ k ≠ MarshalMerkleKey c (st_o s)) ∨
  ((dbPrefix c ++ dbPrefixID c) `prefix_of` k ∧ k ≠ oplog_key (st_o s)) →
  foreign_key c s k.
Proof using Hp.
  intros (C1 & C2 & C3 & C4 & p' & Hp' & C5 & C6 & C7) Ha Hold Hk. rewrite Hp in Hp'. injection Hp' as <-.
  assert (∃ q r, k = q ++ r ∧ length q = SizeDBKeyPrefix ∧ q ≠ dbIdxPrefix c ∧ (q = p ∨ q = dbPrefix c) ∧
    k ≠ MarshalMerkleKey c (st_o s) ∧ k ≠ oplog_key (st_o s)) as (q & r & -> & Hq & Hqi & Hqq & N1 & N2).
  { destruct Hk as [[[r ->] Hne]|[[r ->] Hne]].
    - eexists p, _. unfold leaf_prefix at 1. rewrite <- app_assoc. split; [done|]. split_and!; try done; [by left|].
      rewrite oplog_key_eq. unfold leaf_prefix. rewrite <- !app_assoc. by apply prefix_neq.
    - eexists (dbPrefix c), _. rewrite <- app_assoc. split; [done|]. split_and!; try done; [by right| |by rewrite app_assoc].
      rewrite merkle_key_eq. unfold leaf_prefix. rewrite <- !app_assoc. by apply prefix_neq. }
  unfold foreign_key. rewrite Hold. split_and!.
  - rewrite IdxKey_eq. by apply prefix_neq.
  - unfold valid_kvs. cbn [fmap list_fmap]. unfold compose, key_of, K. fold (oplog_key (st_o s)).
    intros [?|[?|[]%not_elem_of_nil]%elem_of_cons]%elem_of_cons; done.
  - apply not_elem_of_nil.
  - intros m Em [x Ex]. unfold merkle_apart_opt in Ha. rewrite Em in Ha. destruct Ha as (q' & r' & E' & L' & D1 & D2 & D3).
    rewrite E', <- app_assoc in Ex. apply app_inj_1 in Ex as [-> _]; [|by rewrite Hq, L'].
    destruct Hqq as [->| ->]; [by rewrite Hp in D3|done].
Qed.

(** Saving a complete oplog that is new adds its leaf to the leaves. *)
Lemma Save_adds_leaf env s :
  store_ok s → ready c s (o_ID (st_o s)) → stored (sview s) (IdxKey c (o_ID (st_o s))) = None →
  config_ok c → merkle_apart_opt c s → oplog_valid (st_o s) → (NanoTs (o_UpdateTS (st_o s)) < BILLION)%Z →
  ∃ s', Save c env true s = (s', Ok tt) ∧ store_ok s' ∧ st_o s' = st_o s ∧ merkle_apart_opt c s' ∧
    blocks (st_b s') = blocks (st_b s) ∧ (∀ k, foreign_key c s k → sview s' !! k = sview s !! k) ∧
    ∀ o, o ∈ oplogs_of s' ↔ o = st_o s ∨ o ∈ oplogs_of s ∧ leaf_rest o ≠ leaf_rest (st_o s).
Proof using Hp.
  intros Hok Hr Hn Hcfg Ha Hval Hnano.
  assert (old_keys c s (o_ID (st_o s)) = []) as Hold by (unfold old_keys; by rewrite Hn).
  destruct (Save_valid c env s Hr (or_introl Hn) Hcfg Ha Hval)
    as (s' & E & Eo & Hr' & Hst & Hleaf & Htree & Ha' & _ & Hidx & Hbl & Hfor).
  assert (leaf_oplog (st_o s)) as Hlo by (destruct Hval as (_ & _ & _ & ? & ?); done).
  assert (sview s' !! oplog_key (st_o s) ≫= o_Unmarshal = Some (st_o s)) as Hkey.
  { unfold stored_oplog, first_key in Hst. rewrite Hidx in Hst. simpl in Hst. fold (oplog_key (st_o s)) in Hst.
    destruct (sview s' !! oplog_key (st_o s)) as [v|]; [|done]. simpl in *. by destruct (o_Unmarshal v); simplify_eq. }
  assert (∀ o, leaf_rest o ≠ leaf_rest (st_o s) →
    sview s' !! MarshalMerkleKey c o = sview s !! MarshalMerkleKey c o ∧ sview s' !! oplog_key o = sview s !! oplog_key o) as Hother.
  { intros o Hne. split; apply Hfor, leaf_key_foreign; try done; [left|right].
    - rewrite !merkle_key_eq. split; [by eexists|]. by intros ?%app_inv_head.
    - rewrite !oplog_key_eq. split; [by eexists|]. by intros ?%app_inv_head. }
  assert (store_ok s') as Hok'.
  { split; [apply Hr'| |].
    - destruct (so_tree s Hok) as (m & Em & Ep & Ei). destruct (Htree m Em) as (m' & Em' & _).
      pose proof (keeps_Save env s) as Hk. rewrite E in Hk. unfold tree_id in Hk. simpl in Hk.
      rewrite Em, Em' in Hk. simpl in Hk. exists m'. split; [done|]. injection Hk as Hk1 Hk2. by rewrite Hk1, Hk2.
    - intros k v Hv Hpre. destruct (decide (k = MarshalMerkleKey c (st_o s))) as [->|Hne].
      + exists (st_o s). rewrite Hleaf in Hv. by simplify_eq.
      + rewrite Hfor in Hv by (apply leaf_key_foreign; auto).
        destruct (so_leaf s Hok k v Hv Hpre) as (o & Ho & -> & -> & Hvo). exists o. split_and!; try done.
        rewrite (proj2 (Hother o ltac:(intros Er; apply Hne; by rewrite !merkle_key_eq, Er))). done. }
  exists s'. split_and!; try done. intros o. rewrite !oplogs_of_elem by done.
  destruct (decide (leaf_rest o = leaf_rest (st_o s))) as [Er|Hne].
  - assert (oplog_key o = oplog_key (st_o s)) as Ek by (by rewrite !oplog_key_eq, Er). split.
    + intros (_ & _ & Hv). left. rewrite Ek, Hkey in Hv. by simplify_eq.
    + intros [->|[_ ?]]; done.
  - destruct (Hother o Hne) as [-> ->]. split; [intros ?; by right|]. intros [->|[? _]]; done.
Qed.

(** Saving oplogs one after the other, each with its key lock held. *)
Fixpoint save_all (env : nat → locktab → locktab) (os : list BaseOplog) : stm OSt unit :=
  match os with
  | [] => mret tt
  | o :: os => _ ← st_mod (set_o (λ _, o)); _ ← Save c env true; save_all env os
  end.

(** An oplog that is complete and unknown to the store. *)
Definition fresh s o : Prop :=
  oplog_valid o ∧ (NanoTs (o_UpdateTS o) < BILLION)%Z ∧ length (o_ID o) = SizePttID ∧
  stored (sview s) (IdxKey c (o_ID o)) = None ∧ blocks (st_b s) !! IdxKey c (o_ID o) = None.

Lemma idx_key_foreign s id :
  config_ok c → merkle_apart_opt c s → old_keys c s (o_ID (st_o s)) = [] → id ≠ o_ID (st_o s) →
  foreign_key c s (IdxKey c id).
Proof using Hp.
  intros (C1 & C2 & C3 & C4 & p' & Hp' & C5 & C6 & C7) Ha Hold Hne. rewrite Hp in Hp'. injection Hp' as <-.
  unfold foreign_key. rewrite Hold, !IdxKey_eq. split_and!.
  - intros E%app_inv_head%app_inv_head. done.
  - unfold valid_kvs. cbn [fmap list_fmap]. unfold compose, key_of, K. fold (oplog_key (st_o s)).
    intros [E|[E|[]%not_elem_of_nil]%elem_of_cons]%elem_of_cons.
    + rewrite oplog_key_eq, <- app_assoc in E. by apply (prefix_neq (dbIdxPrefix c) (dbPrefix c) _ _ C2 C1 (not_eq_sym C4)) in E.
    + rewrite merkle_key_eq in E. unfold leaf_prefix in E. rewrite <- app_assoc in E.
      by apply (prefix_neq (dbIdxPrefix c) p _ _ C2 C5 (not_eq_sym C7)) in E.
  - apply not_elem_of_nil.
  - intros m Em [x Ex]. unfold merkle_apart_opt in Ha. rewrite Em in Ha. destruct Ha as (q' & r' & E' & L' & D1 & D2 & D3).
    rewrite E', <- app_assoc in Ex. apply app_inj_1 in Ex as [Ex _]; [|by rewrite C2, L']. done.
Qed.

Lemma leaf_rest_id o o' : length (o_ID o) = length (o_ID o') → leaf_rest o = leaf_rest o' → o_ID o = o_ID o'.
Proof.
  unfold leaf_rest. intros Hl E. apply app_inj_1 in E as [_ E]; [|by rewrite !ts_marshal_length].
  by apply app_inj_1 in E as [? _].
Qed.

(** The leaves of a store to which new complete oplogs are saved are those of
    the store and those oplogs. *)
Lemma save_all_leaves env os s :
  store_ok s → config_ok c → merkle_apart_opt c s → Forall (fresh s) os → NoDup (o_ID <$> os) →
  (∀ o o', o ∈ oplogs_of s → o' ∈ os → leaf_rest o ≠ leaf_rest o') →
  ∃ s', save_all env os s = (s', Ok tt) ∧ store_ok s' ∧
    ∀ o, o ∈ oplogs_of s' ↔ o ∈ oplogs_of s ∨ o ∈ os.
Proof using Hp.
  revert s. induction os as [|o os IH]; intros s Hok Hcfg Ha Hf Hnd Hne.
  { exists s. split; [done|]. split; [done|]. intros o. split; [by left|]. by intros [?|?%not_elem_of_nil]. }
  apply Forall_cons in Hf as [(V1 & V2 & V3 & V4 & V5) Hf]. csimpl in Hnd. apply NoDup_cons in Hnd as [Hni Hnd].
  set (s0 := set_o (λ _, o) s).
  assert (store_ok s0) as Hok0 by (destruct Hok as [? ? ?]; by split).
  destruct (Save_adds_leaf env s0 Hok0) as (s1 & E & Hok1 & Eo & Ha1 & Hbl & Hfor & Hin); try done.
  { split; [apply Hok|done]. }
  assert (∀ o', o' ∈ os → o_ID o' ≠ o_ID o) as Hids by (intros o' Ho' Eid; apply Hni; rewrite <- Eid; by apply list_elem_of_fmap_2).
  destruct (IH s1) as (s' & E' & Hok' & Hin'); try done.
  - apply Forall_forall. intros o' Ho'. rewrite Forall_forall in Hf. destruct (Hf o' Ho') as (W1 & W2 & W3 & W4 & W5).
    unfold fresh. rewrite Hbl. split_and!; try done. unfold stored in W4 |- *. rewrite Hfor; [done|].
    apply idx_key_foreign; [done|done| |by apply Hids]. exact (f_equal (λ r, match r with Some (Some i) => idx_keys i | _ => [] end) V4).
  - intros o1 o2 [->|[Ho1 _]]%Hin Ho2.
    + intros Er. apply (Hids o2 Ho2). symmetry. apply (leaf_rest_id _ _); [|done].
      rewrite Forall_forall in Hf. destruct (Hf o2 Ho2) as (_ & _ & -> & _). done.
    + apply Hne; [done|by right].
  - exists s'. split; [|split; [done|]].
    + cbn [save_all]. rewrite st_mod_bind. by rewrite (stm_bind_ok _ _ _ _ _ E).
    + intros o'. rewrite Hin', Hin, elem_of_cons. change (st_o s0) with o. change (oplogs_of s0) with (oplogs_of s).
      split; [tauto|]. intros [?|[->|?]]; auto. left. right. split; [done|]. apply Hne; [done|by left].
Qed.
End Leaves.
