(* ===== verification/SyncOplog.v ===== *)
(** * Synchronising oplogs: [service/protocol_sync_oplog.go],
    [protocol_sync_oplog_ack.go], [protocol_sync_oplog_new_oplogs.go],
    [protocol_sync_oplog_new_oplogs_ack.go],
    [protocol_sync_oplog_invalid_by_merkle.go], [protocol_force_sync_oplog.go],
    [protocol_force_sync_oplog_ack.go], [protocol_force_sync_oplog_by_*.go]

    Two peers compare their merkle trees up to a time both have synchronised;
    where the trees differ they descend into them level by level, where they
    agree the leaves after that time are sent in pieces, the receiver asks for
    what it lacks and sends what the other lacks.  A handler of a message is a
    computation on the store of the oplogs that appends to the messages sent.
    Messages arrive as they were sent, without null nodes. *)

From S2P Require Import Prelude GoTime CommonTypes LevelDB PttDB MerkleNode Merkle OplogSign Oplog HandleOplogs Leaves.

Set Default Goal Selector "!".
Set Default Proof Using "Type".

(** ** Messages *)

Definition MaxSyncOplogAck : nat := 200.
Definition MaxSyncObjectAck : nat := 50.

Record SyncOplogAckData := MkAck {
  ack_TS : Timestamp;
  ack_Nodes : list MerkleNode;
  ack_StartHourTS : Timestamp;
  ack_EndHourTS : Timestamp;
  ack_StartTS : Timestamp;
  ack_EndTS : Timestamp
}.

(** The messages, by their operation; [ForceSyncOplogAckMsg] carries the same
    data as [SyncOplogAckMsg]. *)
Inductive Msg :=
  | SyncOplogMsg (ToSyncTime : Timestamp) (ToSyncNodes : list MerkleNode)
  | SyncOplogAckMsg (data : SyncOplogAckData)
  | SyncNewOplogsMsg (TS : Timestamp) (Oplogs : list (option BaseOplog)) (MyNewKeys : list bytes)
  | SyncNewOplogsAckMsg (TS : Timestamp) (Oplogs : list (option BaseOplog))
  | ForceSyncOplogMsg (FromTS ToTS : Timestamp)
  | ForceSyncOplogAckMsg (data : SyncOplogAckData)
  | ForceSyncByMerkleMsg (UpdateTS : Timestamp) (Level : Z) (Nodes : list MerkleNode)
  | ForceSyncByMerkleAckMsg (Nodes : list MerkleNode)
  | ForceSyncByOplogAckMsg (Oplogs : list (option BaseOplog)).

Section SyncOplog.
Context {S : Type} `{LevelDB S, Json, JsonInts, Crypto, !Signing, OplogJson}.
Variable OffsetSecond : Z.

(** ** The state: the store of the oplogs and the messages sent *)

Abbreviation OSt := (St (S := S)).
Record YSt := MkY { y_st : OSt; y_out : list Msg }.
Abbreviation Y := (stm YSt).

Definition y_on {A} (m : stm OSt A) : Y A := λ s, let '(x, r) := m (y_st s) in (MkY x (y_out s), r).

(** A read of the merkle tree; on [nil] it dereferences the pointer. *)
Definition y_merkle {A} (f : Merkle (S := S) → outcome A) : Y A := λ s,
  match shared_merkle (y_st s) with None => (s, Panic) | Some m => (s, f m) end.

(** [SendDataToPeer]: the data is encrypted with an operation key and handed
    to the peer; [send_err] is the error it returns. *)
Variable send_err : Msg → option GoErr.
Definition send (m : Msg) : Y unit := λ s,
  match send_err m with
  | Some e => (s, Err e)
  | None => (MkY (y_st s) (y_out s ++ [m]), Ok tt)
  end.

(** The guards every handler starts with: I and the entity are alive. *)
Variable me_alive entity_alive : bool.
Definition when_alive (body : Y unit) : Y unit :=
  if negb me_alive then mret tt else if negb entity_alive then mret tt else body.

(** The time the entity was created. *)
Variable createTS : Timestamp.

(** [TryForceSync] of the merkle tree wakes the goroutine that regenerates
    it; the error is [ErrBusy]. *)
Variable TryForceSync : option GoErr.

(** The callbacks of the kind of oplog at hand: [setNewestOplog] sets a flag of
    the oplog, and its error is ignored; [handleOplogs] is [HandleOplogs] with
    the process functions of that kind. *)
Variable setNewestOplog : option (BaseOplog → OSt → OSt * BaseOplog).
Variable handleOplogs : list (option BaseOplog) → bool → stm OSt unit.
Variable postsync : option (Y unit).

Definition run_postsync : Y unit := default (mret tt) postsync.

(** [if setNewestOplog != nil { for _, log := range logs { setNewestOplog(log) } }] *)
Fixpoint set_newest (logs : list BaseOplog) : stm OSt (list BaseOplog) :=
  match setNewestOplog with
  | None => mret logs
  | Some f =>
    match logs with
    | [] => mret []
    | o :: logs => o ← (λ s, let '(s, o) := f o s in (s, Ok o)); logs ← set_newest logs; mret (o :: logs)
    end
  end.

(** ** Sending the leaves *)

(** The pieces of an hour with many leaves; every round takes at least one
    node off [pNodes], whose length is enough fuel. *)
Fixpoint send_chunks (fuel : nat) (mk : SyncOplogAckData → Msg) (offsetHourTS currentHourTS nextHourTS startTS : Timestamp)
    (pNodes : list MerkleNode) : Y unit :=
  match fuel, pNodes with
  | Datatypes.S f, _ :: _ =>
    let lenEachNodes := Nat.min MaxSyncOplogAck (length pNodes) in
    let eachEachNodes := take lenEachNodes pNodes in
    let pNodes := drop lenEachNodes pNodes in
    let endTS := match pNodes with n :: _ => mn_UpdateTS n | [] => nextHourTS end in
    _ ← send (mk (MkAck offsetHourTS eachEachNodes currentHourTS nextHourTS startTS endTS));
    send_chunks f mk offsetHourTS currentHourTS nextHourTS endTS pNodes
  | _, _ => mret tt
  end.

(** The nodes that wait to be sent, where they start, and the next hour. *)
Definition syncOplogAckCore (mk : SyncOplogAckData → Msg) (nodes : list MerkleNode)
    (currentHourTS offsetHourTS startHourTS now : Timestamp) : Y (list MerkleNode * Timestamp * Timestamp) :=
  let nextHourTS := NextHourTS currentHourTS in
  let nextHourTS := if IsLess now nextHourTS then now else nextHourTS in
  eachNodes ← y_merkle (λ m, GetMerkleTreeListByLevel m MerkleTreeLevelNow currentHourTS nextHourTS);
  if decide (length nodes + length eachNodes < MaxSyncOplogAck)
  then mret (nodes ++ eachNodes, startHourTS, nextHourTS)
  else
    nodes ← (if decide (0 < length nodes) then
               _ ← send (mk (MkAck offsetHourTS nodes startHourTS currentHourTS startHourTS currentHourTS)); mret []
             else mret nodes);
    if decide (length eachNodes < MaxSyncObjectAck)
    then mret (nodes ++ eachNodes, currentHourTS, nextHourTS)
    else
      _ ← send_chunks (length eachNodes) mk offsetHourTS currentHourTS nextHourTS currentHourTS eachNodes;
      mret (nodes, nextHourTS, nextHourTS).

(** The loop over the hours; the number of hours is enough fuel. *)
Fixpoint ack_loop (fuel : nat) (mk : SyncOplogAckData → Msg) (offsetHourTS now : Timestamp)
    (nodes : list MerkleNode) (startHourTS currentHourTS : Timestamp) : Y (list MerkleNode * Timestamp) :=
  match fuel with
  | O => mret (nodes, startHourTS)
  | Datatypes.S f =>
    if IsLess currentHourTS now then
      '(nodes, startHourTS, nextHourTS) ← syncOplogAckCore mk nodes currentHourTS offsetHourTS startHourTS now;
      ack_loop f mk offsetHourTS now nodes startHourTS nextHourTS
    else mret (nodes, startHourTS)
  end.

Definition hours (from to : Timestamp) : nat := Z.to_nat ((Ts to - Ts from) / 3600 + 2).

(** The body that [SyncOplogAck] and [ForceSyncOplogAck] have in common. *)
Definition send_acks (mk : SyncOplogAckData → Msg) (offsetHourTS now : Timestamp) : Y unit :=
  '(nodes, startHourTS) ← ack_loop (hours offsetHourTS now) mk offsetHourTS now [] offsetHourTS offsetHourTS;
  if decide (length nodes = 0) then mret tt
  else send (mk (MkAck offsetHourTS nodes startHourTS now startHourTS now)).

(** [toSyncTime] is not used. *)
Definition SyncOplogAck (now : outcome Timestamp) (toSyncTime myToSyncTime : Timestamp) : Y unit :=
  let myToSyncTime := if IsEqual myToSyncTime ZeroTimestamp then createTS else myToSyncTime in
  let offsetHourTS := (ToHRTimestamp myToSyncTime).1 in
  now ← st_lift now;
  send_acks SyncOplogAckMsg offsetHourTS now.

Definition ForceSyncOplogAck (fromTS toTS : Timestamp) : Y unit :=
  send_acks ForceSyncOplogAckMsg (ToHRTimestamp fromTS).1 toTS.

(** ** Descending into the trees *)

Definition ForceSyncOplogByMerkle (myNewNode : MerkleNode) : Y unit :=
  myNode ← y_merkle (λ m, match GetNodeByLevelTS m (mn_Level myNewNode) (mn_UpdateTS myNewNode) with
                          | Ok n => Ok (Some n) | Err _ => Ok None | Panic => Panic end);
  nodes ← y_merkle (λ m, GetChildNodes OffsetSecond m (mn_Level myNewNode) (mn_UpdateTS myNewNode));
  if match myNode with
     | Some n => negb (Z.of_nat (length nodes) =? mn_NChildren n)%Z
     | None => negb (length nodes =? 0)
     end
  then match TryForceSync with Some e => st_lift (Err e) | None => mret tt end
  else send (ForceSyncByMerkleMsg (mn_UpdateTS myNewNode) (mn_Level myNewNode) nodes).

Definition ForceSyncOplogByMerkleAck (nodes : list MerkleNode) : Y unit := send (ForceSyncByMerkleAckMsg nodes).

(** The oplogs that can be loaded, marked. *)
Definition load_oplogs (keys : list bytes) : Y (list BaseOplog) := y_on (getOplogsFromKeys keys).

Definition ForceSyncOplogByOplogAck (theirNewNodes : list MerkleNode) : Y unit :=
  logs ← load_oplogs (mn_Key <$> theirNewNodes);
  if decide (length logs = 0) then mret tt
  else logs ← y_on (set_newest logs); send (ForceSyncByOplogAckMsg (Some <$> logs)).

Definition HandleForceSyncOplogByMerkle (UpdateTS : Timestamp) (Level : Z) (theirNodes : list MerkleNode) : Y unit :=
  when_alive (
    nodes ← y_merkle (λ m, GetChildNodes OffsetSecond m Level UpdateTS);
    let '(_, theirNewNodes) := DiffMerkleTree nodes theirNodes ZeroTimestamp in
    if decide (length theirNewNodes = 0) then mret tt
    else if (Level =? MerkleTreeLevelHR)%Z then ForceSyncOplogByOplogAck theirNewNodes
    else ForceSyncOplogByMerkleAck theirNewNodes).

(** The loop goes on after an error. *)
Fixpoint force_each (nodes : list MerkleNode) : Y unit :=
  match nodes with
  | [] => mret tt
  | n :: nodes => _ ← st_try (ForceSyncOplogByMerkle n); force_each nodes
  end.
Definition HandleForceSyncOplogByMerkleAck (nodes : list MerkleNode) : Y unit := when_alive (force_each nodes).

Definition HandleForceSyncOplogByOplogAck (oplogs : list (option BaseOplog)) : Y unit :=
  when_alive (y_on (handleOplogs oplogs true)).

(** Until one fails. *)
Fixpoint force_until (nodes : list MerkleNode) : Y unit :=
  match nodes with
  | [] => mret tt
  | n :: nodes => _ ← ForceSyncOplogByMerkle n; force_until nodes
  end.
Definition SyncOplogInvalidByMerkle (myNewNodes theirNewNodes : list MerkleNode) : Y unit :=
  _ ← force_until myNewNodes;
  if decide (length theirNewNodes = 0) then mret tt else ForceSyncOplogByMerkleAck theirNewNodes.

(** ** Starting a synchronisation *)

(** [peer] is whether the peer is registered, [None] for [nil]; [opKey] the
    result of looking for an operation key, [requestOpKey] what is done when
    there is none. *)
Definition SyncOplog (peer : option bool) (opKey : outcome unit) (requestOpKey : Y unit) : Y unit :=
  match peer with
  | None | Some false => mret tt
  | Some true =>
    when_alive (
      match opKey with
      | Err _ => requestOpKey
      | Panic => st_lift Panic
      | Ok _ =>
        toSyncTime ← y_merkle ToSyncTime;
        '(toSyncNodes, _) ← y_merkle (λ m, GetMerkleTreeList OffsetSecond m toSyncTime false);
        send (SyncOplogMsg toSyncTime toSyncNodes)
      end)
  end.

Definition HandleSyncOplog (now : outcome Timestamp) (theirTime : Timestamp) (theirNodes : list MerkleNode) : Y unit :=
  when_alive (
    myToSyncTime ← y_merkle ToSyncTime;
    if IsLess myToSyncTime theirTime then mret tt else
    let toSyncTime := if IsLess theirTime myToSyncTime then theirTime else myToSyncTime in
    '(myToSyncNodes, _) ← y_merkle (λ m, GetMerkleTreeList OffsetSecond m toSyncTime false);
    let '(myNewNodes, theirNewNodes) := DiffMerkleTree myToSyncNodes theirNodes toSyncTime in
    if decide (0 < length myNewNodes ∨ 0 < length theirNewNodes)
    then SyncOplogInvalidByMerkle myNewNodes theirNewNodes
    else SyncOplogAck now toSyncTime myToSyncTime).

(** ** Exchanging the oplogs *)

Definition handleSyncOplogAckFilterTS (nodes : list MerkleNode) (startTS endTS : Timestamp) : list MerkleNode :=
  filter (λ n, IsLessEqual startTS (mn_UpdateTS n) && IsLess (mn_UpdateTS n) endTS = true) nodes.

(** An error of [SaveSyncTime] is ignored. *)
Definition SyncOplogNewOplogs (ackTS : Timestamp) (myNewKeys theirNewKeys : list bytes) (myLastNode : option MerkleNode)
    (postsync : Y unit) : Y unit :=
  if decide (length theirNewKeys = 0 ∧ length myNewKeys = 0) then
    _ ← match myLastNode with
        | Some n => _ ← st_try (y_on (save_sync_time (mn_UpdateTS n))); mret tt
        | None => mret tt
        end;
    postsync
  else
    theirNewLogs ← load_oplogs theirNewKeys;
    if decide (length theirNewLogs = 0 ∧ length myNewKeys = 0) then postsync
    else
      theirNewLogs ← y_on (set_newest theirNewLogs);
      send (SyncNewOplogsMsg ackTS (Some <$> theirNewLogs) myNewKeys).

(** What the leaves of the ack and mine lack of each other. *)
Definition compare_ack (data : SyncOplogAckData) : Y (list MerkleNode * list bytes * list bytes) :=
  myNodes ← y_merkle (λ m, GetMerkleTreeListByLevel m MerkleTreeLevelNow (ack_StartHourTS data) (ack_EndHourTS data));
  let myNodes := handleSyncOplogAckFilterTS myNodes (ack_StartTS data) (ack_EndTS data) in
  '(myNewKeys, theirNewKeys) ← st_lift (MergeKeysInMerkleNodes myNodes (ack_Nodes data));
  mret (myNodes, myNewKeys, theirNewKeys).

Definition HandleSyncOplogAck (data : SyncOplogAckData) : Y unit :=
  when_alive (
    '(myNodes, myNewKeys, theirNewKeys) ← compare_ack data;
    SyncOplogNewOplogs (ack_TS data) myNewKeys theirNewKeys (last myNodes) run_postsync).

Definition SyncOplogNewOplogsAck (ts : Timestamp) (keys : list bytes) : Y unit :=
  if decide (length keys = 0) then mret tt
  else
    theirNewLogs ← load_oplogs keys;
    theirNewLogs ← y_on (set_newest theirNewLogs);
    send (SyncNewOplogsAckMsg ts (Some <$> theirNewLogs)).

Definition HandleSyncOplogNewOplogs (ts : Timestamp) (oplogs : list (option BaseOplog)) (myNewKeys : list bytes) : Y unit :=
  when_alive (_ ← y_on (handleOplogs oplogs true); SyncOplogNewOplogsAck ts myNewKeys).

Definition HandleSyncOplogNewOplogsAck (oplogs : list (option BaseOplog)) : Y unit :=
  when_alive (_ ← y_on (handleOplogs oplogs true); run_postsync).

(** ** Forced synchronisation of an interval *)

(** Both errors, of saving the time and of sending, are ignored. *)
Definition ForceSyncOplog (fromTS toTS : Timestamp) : Y unit :=
  _ ← st_try (y_on (λ s,
        match shared_merkle s with
        | None => (s, Panic)
        | Some m => let '(m, r) := ForceSaveSyncTime m fromTS in
                    (MkSt (MkBatch (m_db m) (bops (st_b s)) (bsize (st_b s))) (Some m) (st_lock s) (st_o s), r)
        end));
  _ ← st_try (send (ForceSyncOplogMsg fromTS toTS));
  mret tt.

Definition HandleForceSyncOplog (fromTS toTS : Timestamp) : Y unit := ForceSyncOplogAck fromTS toTS.

(** [failed] is [HandleFailedValidOplogs] with the functions of this kind of
    oplog: my oplogs the other side does not have did not become valid. *)
Definition HandleForceSyncOplogAck (failed : list BaseOplog → stm OSt unit) (data : SyncOplogAckData) : Y unit :=
  when_alive (
    '(_, myNewKeys, theirNewKeys) ← compare_ack data;
    theirNewLogs ← load_oplogs theirNewKeys;
    _ ← y_on (failed theirNewLogs);
    SyncOplogNewOplogs (ack_TS data) myNewKeys [] None (mret tt)).

(** ** The leaves sent *)

Variable c : OplogDB.
Variable p : bytes.
Hypothesis Hp : dbMerklePrefix c = Some p.
Abbreviation leaves := (fmap (M := list) (leaf_of c)).
Implicit Types (s : YSt) (o : BaseOplog) (a b : Timestamp).

Definition sends_ok : Prop := ∀ m, send_err m = None.
Definition sent s (ms : list Msg) : YSt := MkY (y_st s) (y_out s ++ ms).

Lemma sent_nil s : sent s [] = s.
Proof. destruct s. unfold sent. by rewrite app_nil_r. Qed.
Lemma sent_app s ms ms' : sent (sent s ms) ms' = sent s (ms ++ ms').
Proof. unfold sent. simpl. by rewrite app_assoc. Qed.
Lemma send_ok s m : sends_ok → send m s = (sent s [m], Ok tt).
Proof. intros Hs. unfold send. by rewrite Hs. Qed.

Lemma y_leaves s a b :
  store_ok c p (y_st s) → ts_pos a → ts_pos b →
  y_merkle (λ m, GetMerkleTreeListByLevel m MerkleTreeLevelNow a b) s = (s, Ok (leaves (oplogs_in c p (y_st s) a b))).
Proof using Hp.
  intros Hok Ha Hb. unfold y_merkle. destruct (so_tree c p _ Hok) as (m0 & E & _).
  destruct (shared_merkle (y_st s)) as [m|] eqn:Em; [|unfold shared_merkle in Em; by rewrite E in Em].
  f_equal. by eapply get_leaves.
Qed.

(** No two leaves have the same time. *)
Definition distinct_times (st : OSt) : Prop :=
  StronglySorted (λ x y, ts_lt (o_UpdateTS x) (o_UpdateTS y)) (oplogs_of c p st).

(** A message over an interval: the leaves lie in it, and when no two have the
    same time they are all there are. *)
Definition piece_ok (st : OSt) (offset now : Timestamp) (d : SyncOplogAckData) : Prop :=
  ack_TS d = offset ∧ 0 < length (ack_Nodes d) ≤ MaxSyncOplogAck ∧
  ts_pos (ack_StartHourTS d) ∧ ts_pos (ack_EndHourTS d) ∧
  ts_le offset (ack_StartHourTS d) ∧ ts_le (ack_StartHourTS d) (ack_StartTS d) ∧
  ts_le (ack_EndTS d) (ack_EndHourTS d) ∧ ts_le (ack_EndHourTS d) now ∧
  Forall (λ n, ts_le (ack_StartTS d) (mn_UpdateTS n) ∧ ts_le (mn_UpdateTS n) (ack_EndTS d)) (ack_Nodes d) ∧
  (distinct_times st → ack_Nodes d = leaves (oplogs_in c p st (ack_StartTS d) (ack_EndTS d))).

Definition before (d d' : SyncOplogAckData) : Prop := ts_le (ack_EndTS d) (ack_StartTS d').

(** The messages [ds] carry the leaves [l] of the interval [a, b), in order. *)
Record pieces (st : OSt) (offset now a b : Timestamp) (l : list BaseOplog) (ds : list SyncOplogAckData) : Prop := {
  pc_ok : Forall (piece_ok st offset now) ds;
  pc_sorted : StronglySorted before ds;
  pc_range : Forall (λ d, ts_le a (ack_StartTS d) ∧ ts_le (ack_EndTS d) b) ds;
  pc_nodes : concat (ack_Nodes <$> ds) = leaves l
}.

Lemma pieces_nil st offset now a b : pieces st offset now a b [] [].
Proof. split; constructor. Qed.

Lemma pieces_app st offset now a b d l1 l2 ds1 ds2 :
  ts_le a b → ts_le b d → pieces st offset now a b l1 ds1 → pieces st offset now b d l2 ds2 →
  pieces st offset now a d (l1 ++ l2) (ds1 ++ ds2).
Proof.
  intros Hab Hbd [O1 S1 R1 N1] [O2 S2 R2 N2]. split.
  - by apply Forall_app.
  - apply StronglySorted_app. split; [|done]. intros x y Hx Hy. unfold before.
    rewrite Forall_forall in R1, R2. destruct (R1 x Hx) as [_ ?], (R2 y Hy) as [? _]. by transitivity b.
  - apply Forall_app. split; [eapply Forall_impl; [exact R1|]|eapply Forall_impl; [exact R2|]]; simpl; intros x [? ?].
    + split; [done|by transitivity b].
    + split; [by transitivity b|done].
  - by rewrite fmap_app, concat_app, N1, N2, fmap_app.
Qed.

Lemma pieces_grow st offset now a b b' l ds :
  ts_le b b' → pieces st offset now a b l ds → pieces st offset now a b' l ds.
Proof.
  intros Hb [O S' R N]. split; [done..| |done]. eapply Forall_impl; [exact R|]. simpl. intros x [? ?]. split; [done|].
  by transitivity b.
Qed.

(** One message for the leaves of an interval within an hour range. *)
Lemma piece_one st offset now a b sh eh l :
  0 < length l ≤ MaxSyncOplogAck → ts_pos sh → ts_pos eh → ts_le offset sh → ts_le sh a → ts_le b eh → ts_le eh now →
  Forall (λ o, ts_le a (o_UpdateTS o) ∧ ts_le (o_UpdateTS o) b) l →
  (distinct_times st → l = oplogs_in c p st a b) →
  pieces st offset now a b l [MkAck offset (leaves l) sh eh a b].
Proof.
  intros Hl Hps Hpe H1' H2' H3' H4' Hf Hd. split.
  - apply Forall_singleton. unfold piece_ok. cbn [ack_TS ack_Nodes ack_StartHourTS ack_EndHourTS ack_StartTS ack_EndTS].
    rewrite length_fmap, Forall_fmap. split_and!; try done; [lia..|]. intros Hdt. by rewrite <- Hd.
  - repeat constructor.
  - by apply Forall_singleton.
  - csimpl. by rewrite app_nil_r.
Qed.

(** Cutting the leaves of an interval at a leaf. *)
Lemma cut_at st a b l1 o l2 :
  store_ok c p st → distinct_times st → ts_le a b → oplogs_in c p st a b = l1 ++ o :: l2 →
  oplogs_in c p st a (o_UpdateTS o) = l1 ∧ oplogs_in c p st (o_UpdateTS o) b = o :: l2.
Proof using Hp.
  intros Hok Hd Hab E.
  assert (o ∈ oplogs_in c p st a b) as Hin by (rewrite E; set_solver).
  apply oplogs_in_elem in Hin as [[Hle Hlt] _]. simpl in Hle, Hlt.
  pose proof (oplogs_in_split c p Hp st a (o_UpdateTS o) b Hok Hle ltac:(by left)) as Hs. rewrite E in Hs.
  assert (oplogs_in c p st a (o_UpdateTS o) = filter (λ x, ts_lt (o_UpdateTS x) (o_UpdateTS o)) (l1 ++ o :: l2)) as E1.
  { rewrite <- E. unfold oplogs_in. rewrite list_filter_filter. apply list_filter_iff. intros x. unfold in_iv, ts_in. simpl.
    split; [intros [? ?]; split_and!; try done; by eapply ts_lt_trans|tauto]. }
  assert (StronglySorted (λ x y, ts_lt (o_UpdateTS x) (o_UpdateTS y)) (l1 ++ o :: l2)) as Hss.
  { rewrite <- E. by apply StronglySorted_filter. }
  apply StronglySorted_app in Hss as (Hss & _ & Hss2). apply StronglySorted_cons in Hss2 as [Hss2 _].
  rewrite filter_app, (filter_all _ l1), (filter_none _ (o :: l2)), app_nil_r in E1.
  - rewrite E1 in Hs. apply app_inv_head in Hs. done.
  - apply Forall_cons. split; [apply ts_lt_irrefl|]. eapply Forall_impl; [exact Hss2|]. simpl. intros x Hx Hx'.
    by eapply ts_lt_irrefl, ts_lt_trans.
  - apply Forall_forall. intros x Hx. apply Hss; [done|by left].
Qed.

Section sending.
Variables (mk : SyncOplogAckData → Msg) (offset now : Timestamp) (st : OSt).
Hypothesis Hsend : sends_ok.
Hypothesis Hok : store_ok c p st.

Lemma send_chunks_ok fuel cur next startTS l s :
  length l ≤ fuel → ts_pos cur → ts_pos next →
  ts_le offset cur → ts_le cur startTS → ts_le startTS next → ts_le next now →
  Forall (λ o, ts_le startTS (o_UpdateTS o) ∧ ts_le (o_UpdateTS o) next) l →
  StronglySorted (λ x y, ts_le (o_UpdateTS x) (o_UpdateTS y)) l →
  (distinct_times st → l = oplogs_in c p st startTS next) →
  ∃ ds, send_chunks fuel mk offset cur next startTS (leaves l) s = (sent s (mk <$> ds), Ok tt) ∧
        pieces st offset now startTS next l ds.
Proof using Hp Hsend Hok.
  clear handleOplogs me_alive entity_alive postsync setNewestOplog TryForceSync. intros Hf Hpc Hpn Hoc. revert startTS l s Hf.
  induction fuel as [|f IH]; intros startTS l s Hf Hcs Hsn Hnn Hin Hs Hd.
  { destruct l; [|simpl in Hf; lia]. exists []. rewrite sent_nil. split; [done|apply pieces_nil]. }
  destruct l as [|o l]; [exists []; rewrite sent_nil; split; [done|apply pieces_nil]|].
  cbn [send_chunks fmap list_fmap]. change (leaf_of c o :: leaves l) with (leaves (o :: l)). rewrite length_fmap.
  set (n := Nat.min MaxSyncOplogAck (length (o :: l))).
  assert (0 < n ≤ length (o :: l) ∧ n ≤ MaxSyncOplogAck) as [Hn Hn'] by (unfold n, MaxSyncOplogAck; cbn [length]; lia).
  rewrite <- fmap_take, <- fmap_drop. pose proof (take_drop n (o :: l)) as E. set (l1 := take n (o :: l)) in *.
  set (l2 := drop n (o :: l)) in *.
  assert (0 < length l1 ≤ MaxSyncOplogAck) as Hl1 by (unfold l1; rewrite length_take; lia).
  assert (length l2 ≤ f) as Hl2 by (unfold l2; rewrite length_drop; simpl in *; lia).
  clearbody l1 l2 n. rewrite <- E in *. clear E o l Hf.
  apply Forall_app in Hin as [Hin1 Hin2]. apply StronglySorted_app in Hs as (Hs12 & Hs1 & Hs2).
  set (endTS := match leaves l2 with n :: _ => mn_UpdateTS n | [] => next end).
  assert (ts_le startTS endTS ∧ ts_le endTS next ∧
    Forall (λ o, ts_le startTS (o_UpdateTS o) ∧ ts_le (o_UpdateTS o) endTS) l1 ∧
    Forall (λ o, ts_le endTS (o_UpdateTS o) ∧ ts_le (o_UpdateTS o) next) l2 ∧
    (distinct_times st → l1 = oplogs_in c p st startTS endTS ∧ l2 = oplogs_in c p st endTS next)) as (B1 & B2 & B3 & B4 & B5).
  { unfold endTS. destruct l2 as [|o2 l2]; simpl.
    - split_and!; try done. intros Hdt. specialize (Hd Hdt). rewrite app_nil_r in Hd. split; [done|]. symmetry.
      apply filter_none, Forall_forall. intros x _ [??]. simpl in *. by eapply ts_lt_irrefl, ts_le_lt_trans.
    - apply Forall_cons in Hin2 as [[I1 I2] Hin2]. apply StronglySorted_cons in Hs2 as [Hs2 _]. split_and!; try done.
      + apply Forall_forall. intros x Hx. rewrite Forall_forall in Hin1. split; [by apply Hin1|]. apply Hs12; [done|by left].
      + apply Forall_cons. split; [split; [by right|done]|]. rewrite !Forall_forall in *. intros x Hx.
        split; [by apply Hs2|by apply Hin2].
      + intros Hdt. specialize (Hd Hdt). symmetry in Hd. by destruct (cut_at st _ _ _ _ _ Hok Hdt Hsn Hd) as [-> ->]. }
  destruct (IH endTS l2 (sent s [mk (MkAck offset (leaves l1) cur next startTS endTS)])) as (ds & E & Hp2); try done.
  { by transitivity startTS. } { intros Hdt. by apply B5. }
  exists (MkAck offset (leaves l1) cur next startTS endTS :: ds). rewrite (stm_bind_ok _ _ _ _ _ (send_ok _ _ Hsend)).
  rewrite E, sent_app. split; [done|]. change (?x :: ds) with ([x] ++ ds).
  apply (pieces_app _ _ _ _ endTS); [done..| |done]. apply piece_one; try done. intros Hdt. by apply B5.
Qed.

(** Before the hour of [cur]: what was sent, and the nodes that wait. *)
Definition loop_ok s0 s (nodes : list MerkleNode) (start cur : Timestamp) : Prop :=
  ∃ ds, s = sent s0 (mk <$> ds) ∧ nodes = leaves (oplogs_in c p st start cur) ∧ length nodes < MaxSyncOplogAck ∧
    ts_pos start ∧ ts_pos cur ∧ ts_le offset start ∧ ts_le start cur ∧ ts_le cur now ∧
    pieces st offset now offset start (oplogs_in c p st offset start) ds.

Lemma core_ok s0 s nodes start cur :
  ts_ok now → y_st s = st → loop_ok s0 s nodes start cur → ts_lt cur now →
  ∃ s' nodes' start' next', syncOplogAckCore mk nodes cur offset start now s = (s', Ok (nodes', start', next')) ∧
    y_st s' = st ∧ loop_ok s0 s' nodes' start' next' ∧
    (next' = now ∨ next' = MkTs (Ts cur + 3600) (NanoTs cur)).
Proof using Hp Hsend Hok.
  clear handleOplogs me_alive entity_alive postsync setNewestOplog TryForceSync. intros Hnow Hst (ds & -> & En & Hl & Hps & Hpc & Hos & Hsc & Hcn & Hpieces) Hlt. unfold syncOplogAckCore.
  set (next := if IsLess now (NextHourTS cur) then now else NextHourTS cur).
  assert (NextHourTS cur = MkTs (Ts cur + 3600) (NanoTs cur)) as Enext.
  { unfold NextHourTS. f_equal. apply i64_small. destruct Hpc as [_ ?], Hnow as [_ ?].
    unfold ts_lt in Hlt. simpl in *. word. }
  assert (ts_pos next ∧ ts_le cur next ∧ ts_le next now ∧ (next = now ∨ next = MkTs (Ts cur + 3600) (NanoTs cur)))
    as (Hpn & Hcx & Hxn & Hx).
  { unfold next. destruct (IsLess now (NextHourTS cur)) eqn:E.
    - split_and!; [by apply ts_ok_pos|by left|done|by left].
    - assert (ts_le (NextHourTS cur) now) as Hle.
      { apply dec_stable. rewrite <- ts_lt_not_le. intros ?%IsLess_spec. congruence. }
      rewrite Enext in *. assert (Ts cur + 3600 ≤ Ts now)%Z as Hc.
      { destruct Hle as [Hle|Hle]; [unfold ts_lt in Hle; simpl in Hle; lia|rewrite <- Hle; simpl; lia]. }
      destruct Hpc as [[_ Hn] Hc0], Hnow as [_ Hn1]. simpl in Hn1. split_and!; [|left; left; simpl; lia|done|by right].
      split; [split; [simpl; word|done]|simpl; lia]. }
  clearbody next.
  rewrite (stm_bind_ok _ _ _ _ _ (y_leaves (sent s0 (mk <$> ds)) cur next ltac:(simpl in *; by rewrite Hst) Hpc Hpn)).
  simpl in Hst. cbn [y_st sent]. rewrite Hst, !length_fmap.
  assert (oplogs_in c p st start next = oplogs_in c p st start cur ++ oplogs_in c p st cur next) as Esplit
    by (by apply oplogs_in_split).
  case_decide as Hsum.
  { eexists _, _, _, _. split; [done|]. split; [done|]. split; [|done]. exists ds. split; [done|].
    rewrite En, Esplit, fmap_app. split; [done|]. rewrite length_app, !length_fmap. split; [by rewrite En, !length_fmap in Hsum|].
    split_and!; try done. by transitivity cur. }
  assert (∃ ds1 nodes1, (if decide (0 < length nodes) then
      _ ← send (mk (MkAck offset nodes start cur start cur)); mret [] else mret nodes) (sent s0 (mk <$> ds)) =
      (sent s0 (mk <$> ds1), Ok nodes1) ∧ nodes1 = [] ∧ pieces st offset now offset cur (oplogs_in c p st offset cur) ds1)
    as (ds1 & nodes1 & E1 & -> & Hpieces1).
  { rewrite (oplogs_in_split c p Hp st offset start cur) by done. case_decide as Hpos.
    - exists (ds ++ [MkAck offset nodes start cur start cur]), []. split; [|split; [done|]].
      + rewrite (stm_bind_ok _ _ _ _ _ (send_ok _ _ Hsend)). by rewrite sent_app, fmap_app.
      + apply (pieces_app _ _ _ _ start); [done..|]. rewrite En. rewrite En, length_fmap in Hl, Hpos.
        apply piece_one; try done; [lia|]. apply Forall_forall. intros o [[??] _]%oplogs_in_elem. split; [done|by left].
    - exists ds, nodes. split; [done|]. assert (nodes = []) as -> by (destruct nodes; [done|simpl in Hpos; lia]). split; [done|].
      symmetry in En. apply fmap_nil_inv in En. rewrite En, app_nil_r. by eapply pieces_grow. }
  rewrite (stm_bind_ok _ _ _ _ _ E1). clear E1.
  case_decide as Hfew.
  { eexists _, _, _, _. split; [done|]. split; [done|]. split; [|done]. exists ds1. split; [done|]. simpl app.
    split; [done|]. rewrite length_fmap. split; [unfold MaxSyncObjectAck, MaxSyncOplogAck in *; lia|].
    split_and!; try done. by transitivity start. }
  assert (ts_le offset cur) as Hoc by (by transitivity start).
  destruct (send_chunks_ok (length (oplogs_in c p st cur next)) cur next cur (oplogs_in c p st cur next) (sent s0 (mk <$> ds1)))
    as (ds2 & E2 & Hp2); try done.
  { apply Forall_forall. intros o [[??] _]%oplogs_in_elem. split; [done|by left]. }
  { apply StronglySorted_filter. by apply oplogs_time_sorted. }
  rewrite (stm_bind_ok _ _ _ _ _ E2). eexists _, _, _, _. split; [done|]. split; [done|]. split; [|done].
  exists (ds1 ++ ds2). rewrite sent_app, fmap_app. split; [done|].
  assert (oplogs_in c p st next next = []) as ->.
  { apply filter_none, Forall_forall. intros x _ [??]. simpl in *. by eapply ts_lt_irrefl, ts_le_lt_trans. }
  split; [done|]. split; [simpl; unfold MaxSyncOplogAck; lia|]. split_and!; try done; [by transitivity cur|].
  rewrite (oplogs_in_split c p Hp st offset cur next) by done. by apply (pieces_app _ _ _ _ cur).
Qed.

Lemma ack_loop_ok fuel s0 s nodes start cur :
  ts_ok now → y_st s = st → loop_ok s0 s nodes start cur → (ts_lt cur now → hours cur now ≤ fuel) →
  ∃ s' nodes' start', ack_loop fuel mk offset now nodes start cur s = (s', Ok (nodes', start')) ∧
    y_st s' = st ∧ loop_ok s0 s' nodes' start' now.
Proof using Hp Hsend Hok.
  clear handleOplogs me_alive entity_alive postsync setNewestOplog TryForceSync. intros Hnow. revert s nodes start cur. induction fuel as [|f IH]; intros s nodes start cur Hst Hl Hf.
  - assert (cur = now) as <-.
    { destruct Hl as (_ & _ & _ & _ & _ & _ & _ & _ & [Hlt| ->] & _); [|done]. specialize (Hf Hlt). unfold hours in Hf.
      assert (0 ≤ (Ts now - Ts cur) / 3600)%Z by (apply Z.div_pos; [unfold ts_lt in Hlt|]; lia). lia. }
    by eexists _, _, _.
  - cbn [ack_loop]. destruct (IsLess cur now) eqn:E.
    + apply IsLess_spec in E. destruct (core_ok s0 s nodes start cur Hnow Hst Hl E) as (s1 & n1 & st1 & nx & E1 & Hs1 & Hl1 & Hx).
      rewrite (stm_bind_ok _ _ _ _ _ E1). apply IH; [done..|]. intros Hlt. specialize (Hf E).
      destruct Hx as [->|Hx]; [by apply ts_lt_irrefl in Hlt|]. unfold hours in *. rewrite Hx in *. simpl in *.
      replace (Ts now - (Ts cur + 3600))%Z with (Ts now - Ts cur + (-1) * 3600)%Z by lia. rewrite Z.div_add by lia.
      assert (0 ≤ (Ts now - Ts cur + (-1) * 3600) / 3600)%Z as Hd
        by (apply Z.div_pos; [unfold ts_lt in Hlt; simpl in Hlt|]; lia).
      rewrite Z.div_add in Hd by lia. lia.
    + assert (cur = now) as <-.
      { destruct Hl as (_ & _ & _ & _ & _ & _ & _ & _ & [Hlt| ->] & _); [|done]. apply IsLess_spec in Hlt. congruence. }
      by eexists _, _, _.
Qed.
End sending.

Lemma send_acks_ok mk offset now s :
  sends_ok → store_ok c p (y_st s) → ts_ok now → ts_pos offset → ts_le offset now →
  ∃ ds, send_acks mk offset now s = (sent s (mk <$> ds), Ok tt) ∧
        pieces (y_st s) offset now offset now (oplogs_in c p (y_st s) offset now) ds.
Proof using Hp.
  intros Hs Hok Hnow Ho Hle.
  assert (oplogs_in c p (y_st s) offset offset = []) as Enil.
  { apply filter_none, Forall_forall. intros x _ [??]. simpl in *. by eapply ts_lt_irrefl, ts_le_lt_trans. }
  destruct (ack_loop_ok mk offset now (y_st s) Hs Hok (hours offset now) s s [] offset offset) as (s' & nodes & start & E & Hst & Hl);
    [done|done| |done|].
  { exists []. rewrite sent_nil, Enil. split_and!; try done; [simpl; unfold MaxSyncOplogAck; lia|apply pieces_nil]. }
  unfold send_acks. rewrite (stm_bind_ok _ _ _ _ _ E). destruct Hl as (ds & -> & En & Hl & Hps & _ & Hos & Hsn & _ & Hpc).
  rewrite (oplogs_in_split c p Hp (y_st s) offset start now) by done.
  case_decide as Hn.
  - exists ds. split; [done|]. destruct nodes; [|done]. symmetry in En. apply fmap_nil_inv in En. rewrite En, app_nil_r.
    by eapply pieces_grow.
  - rewrite send_ok by done. rewrite sent_app. eexists (ds ++ [_]). rewrite fmap_app. split; [done|].
    apply (pieces_app _ _ _ _ start); [done..|]. rewrite En. rewrite En, length_fmap in Hl, Hn.
    apply piece_one; try done; [lia|by apply ts_ok_pos|].
    apply Forall_forall. intros o [[??] _]%oplogs_in_elem. split; [done|by left].
Qed.

(** C14: when [SyncOplogAck] is sent, the leaves since the hour of the time of
    the last synchronisation are sent, each exactly once and in order, in
    pieces of at most [MaxSyncOplogAck] nodes whose intervals follow one
    another; when no two leaves have the same time, the nodes of a piece are
    all the leaves of its interval, so that a peer can compare it with its own
    leaves of the same interval. *)
Theorem sync_ack_partition s now toSyncTime my :
  let offset := (ToHRTimestamp (if IsEqual my ZeroTimestamp then createTS else my)).1 in
  sends_ok → store_ok c p (y_st s) → ts_ok now → ts_pos offset → ts_le offset now →
  ∃ ds, SyncOplogAck (Ok now) toSyncTime my s = (sent s (SyncOplogAckMsg <$> ds), Ok tt) ∧
    concat (ack_Nodes <$> ds) = leaves (oplogs_in c p (y_st s) offset now) ∧
    StronglySorted before ds ∧ Forall (piece_ok (y_st s) offset now) ds.
Proof using Hp.
  intros offset Hs Hok Hnow Ho Hle. destruct (send_acks_ok SyncOplogAckMsg offset now s Hs Hok Hnow Ho Hle) as (ds & E & []).
  exists ds. by split_and!.
Qed.

(** ** Exchanging what is missing *)

(** Setting the flag of the newest oplogs reads the store and keeps what goes
    into a leaf. *)
Definition newest_ok : Prop := ∀ logs st, ∃ logs', set_newest logs st = (st, Ok logs') ∧ leaves logs' = leaves logs.

(** [handleOplogs] stored the oplogs [logs], each under its leaf. *)
Definition stored_by (st : OSt) (logs : list BaseOplog) (st' : OSt) : Prop :=
  handleOplogs (Some <$> logs) true st = (st', Ok tt) ∧ store_ok c p st' ∧
  ∀ n, n ∈ leaves (oplogs_of c p st') ↔ n ∈ leaves (oplogs_of c p st) ∨ n ∈ leaves logs.

(** Equal keys are keys of equal leaves: one oplog has one hash at one time. *)
Definition agree (st st' : OSt) : Prop :=
  ∀ o o', o ∈ oplogs_of c p st → o' ∈ oplogs_of c p st' → oplog_key c o = oplog_key c o' → leaf_of c o = leaf_of c o'.

(** The leaves of [l] that are not among [k]. *)
Definition missing (k l : list BaseOplog) : list BaseOplog := filter (λ o, oplog_key c o ∉ oplog_key c <$> k) l.

Lemma leaves_pick (l k : list BaseOplog) :
  (∀ n, n ∈ leaves l → n ∈ leaves k) → ∃ l', l' ⊆ k ∧ leaves l' = leaves l.
Proof.
  clear Hp p. induction l as [|o l IH]; intros Hin; [exists []; split; [set_solver|done]|].
  destruct IH as (l' & Hs & El); [intros n Hn; apply Hin; by right|].
  destruct (list_elem_of_fmap_1 _ _ _ (Hin (leaf_of c o) ltac:(by left))) as (o' & Eo & Ho').
  exists (o' :: l'). split; [set_solver|]. csimpl. by rewrite El, <- Eo.
Qed.

Lemma load_oplogs_ok s l : store_ok c p (y_st s) → l ⊆ oplogs_of c p (y_st s) → load_oplogs (oplog_key c <$> l) s = (s, Ok l).
Proof using Hp. intros Hok Hl. unfold load_oplogs, y_on. rewrite (load_leaves c p Hp) by done. by destruct s. Qed.

Lemma leaves_keys l : oplog_key c <$> l = mn_Key <$> leaves l.
Proof. by rewrite <- list_fmap_compose. Qed.

Lemma newest_sent (f : list (option BaseOplog) → Msg) logs s :
  newest_ok → sends_ok →
  ∃ logs', (logs ← y_on (set_newest logs); send (f (Some <$> logs))) s = (sent s [f (Some <$> logs')], Ok tt) ∧ leaves logs' = leaves logs.
Proof.
  intros Hn Hs. destruct (Hn logs (y_st s)) as (logs' & E & El). exists logs'. split; [|done].
  rewrite (stm_bind_ok _ _ s s logs'); [by apply send_ok|]. unfold y_on. rewrite E. by destruct s.
Qed.

(** What comparing an ack finds. *)
Lemma compare_ack_ok s d LA :
  store_ok c p (y_st s) → ts_pos (ack_StartHourTS d) → ts_pos (ack_EndHourTS d) →
  ts_le (ack_StartHourTS d) (ack_StartTS d) → ts_le (ack_EndTS d) (ack_EndHourTS d) →
  ack_Nodes d = leaves LA → StronglySorted bytes_lt (oplog_key c <$> LA) →
  let LB := oplogs_in c p (y_st s) (ack_StartTS d) (ack_EndTS d) in
  compare_ack d s = (s, Ok (leaves LB, oplog_key c <$> missing LB LA, oplog_key c <$> missing LA LB)).
Proof using Hp.
  intros Hok H1' H2' H3' H4' En Hs LB. unfold compare_ack. rewrite (stm_bind_ok _ _ _ _ _ (y_leaves s _ _ Hok H1' H2')).
  assert (handleSyncOplogAckFilterTS (leaves (oplogs_in c p (y_st s) (ack_StartHourTS d) (ack_EndHourTS d)))
            (ack_StartTS d) (ack_EndTS d) = leaves LB) as ->.
  { unfold handleSyncOplogAckFilterTS. rewrite filter_map. f_equal. unfold LB.
    rewrite <- (oplogs_in_sub c p (y_st s) (ack_StartHourTS d) (ack_EndHourTS d) (ack_StartTS d) (ack_EndTS d)) by done.
    apply list_filter_iff. intros x. unfold leaf_of. cbn [mn_UpdateTS]. unfold ts_in. simpl.
    by rewrite andb_true_iff, IsLessEqual_spec, IsLess_spec. }
  rewrite En, merge_leaves; [by autorewrite with stm| |done].
  apply leaf_keys_sorted, StronglySorted_filter. by apply oplogs_sorted.
Qed.

(** The receiver of an ack sends what the sender lacks and asks for what it
    lacks itself. *)
Lemma handle_ack_ok s d LA :
  sends_ok → me_alive = true → entity_alive = true → newest_ok →
  store_ok c p (y_st s) → ts_pos (ack_StartHourTS d) → ts_pos (ack_EndHourTS d) →
  ts_le (ack_StartHourTS d) (ack_StartTS d) → ts_le (ack_EndTS d) (ack_EndHourTS d) →
  ack_Nodes d = leaves LA → StronglySorted bytes_lt (oplog_key c <$> LA) →
  let LB := oplogs_in c p (y_st s) (ack_StartTS d) (ack_EndTS d) in
  missing LA LB ≠ [] ∨ missing LB LA ≠ [] →
  ∃ logs, HandleSyncOplogAck d s =
      (sent s [SyncNewOplogsMsg (ack_TS d) (Some <$> logs) (oplog_key c <$> missing LB LA)], Ok tt) ∧
    leaves logs = leaves (missing LA LB).
Proof using Hp.
  intros Hsend Ha Hea Hn Hok H1' H2' H3' H4' En Hs LB Hne. unfold HandleSyncOplogAck, when_alive. rewrite Ha, Hea. simpl.
  rewrite (stm_bind_ok _ _ _ _ _ (compare_ack_ok s d LA Hok H1' H2' H3' H4' En Hs)). fold LB.
  unfold SyncOplogNewOplogs. rewrite !length_fmap. rewrite decide_False.
  2: { intros [E1%nil_length_inv E2%nil_length_inv]. naive_solver. }
  rewrite (stm_bind_ok _ _ s s (missing LA LB)).
  2: { apply load_oplogs_ok; [done|]. unfold missing, LB. intros o [_ [_ Ho]%oplogs_in_elem]%list_elem_of_filter. done. }
  rewrite decide_False.
  2: { intros [E1%nil_length_inv E2%nil_length_inv]. naive_solver. }
  exact (newest_sent (λ l, SyncNewOplogsMsg (ack_TS d) l (oplog_key c <$> missing LB LA)) (missing LA LB) s Hn Hsend).
Qed.

(** The sender of the ack, when it has stored what it got, answers the keys. *)
Lemma new_oplogs_answer s st' ts logs (l : list BaseOplog) :
  sends_ok → me_alive = true → entity_alive = true → newest_ok →
  handleOplogs (Some <$> logs) true (y_st s) = (st', Ok tt) → store_ok c p st' →
  (∀ n, n ∈ leaves l → n ∈ leaves (oplogs_of c p st')) → l ≠ [] →
  ∃ logs', HandleSyncOplogNewOplogs ts (Some <$> logs) (oplog_key c <$> l) s =
      (MkY st' (y_out s ++ [SyncNewOplogsAckMsg ts (Some <$> logs')]), Ok tt) ∧ leaves logs' = leaves l.
Proof using Hp.
  intros Hsend Hal Hea Hn Eh Hok Hin Hne. destruct (leaves_pick l (oplogs_of c p st') Hin) as (pick & Hpick & Ep).
  destruct (newest_sent (SyncNewOplogsAckMsg ts) pick (MkY st' (y_out s)) Hn Hsend) as (logs' & ES & El).
  exists logs'. split; [|by rewrite El]. unfold HandleSyncOplogNewOplogs, when_alive. rewrite Hal, Hea. simpl.
  rewrite (stm_bind_ok _ _ s (MkY st' (y_out s)) tt) by (unfold y_on; by rewrite Eh).
  unfold SyncOplogNewOplogsAck. rewrite length_fmap, decide_False by (intros E%nil_length_inv; done).
  rewrite leaves_keys, <- Ep, <- leaves_keys. by rewrite (stm_bind_ok _ _ _ _ _ (load_oplogs_ok (MkY st' (y_out s)) pick Hok Hpick)).
Qed.

(** The union of two intervals, seen from either side. *)
Lemma union_sides st st' (LA LB : list BaseOplog) :
  agree st st' → LA ⊆ oplogs_of c p st → LB ⊆ oplogs_of c p st' →
  ∀ n, n ∈ leaves LA ∨ n ∈ leaves (missing LA LB) ↔ n ∈ leaves LB ∨ n ∈ leaves (missing LB LA).
Proof.
  intros Hag HA HB n.
  assert (∀ l k, (∀ o o', o ∈ l → o' ∈ k → oplog_key c o = oplog_key c o' → leaf_of c o = leaf_of c o') →
    n ∈ leaves l → n ∈ leaves k ∨ n ∈ leaves (missing k l)) as Hone.
  { intros l k Hlk Hn. apply list_elem_of_fmap in Hn as (o & -> & Ho).
    destruct (decide (oplog_key c o ∈ oplog_key c <$> k)) as [Hin|Hout].
    - left. apply list_elem_of_fmap in Hin as (o' & Ek & Ho'). rewrite (Hlk o o') by done. by apply list_elem_of_fmap_2.
    - right. apply list_elem_of_fmap_2, list_elem_of_filter. done. }
  assert (∀ l k, n ∈ leaves (missing k l) → n ∈ leaves l) as Hsub.
  { intros l k (o & -> & [_ Ho]%list_elem_of_filter)%list_elem_of_fmap. by apply list_elem_of_fmap_2. }
  split; (intros [Hn|Hn%Hsub]; [|by left]).
  - apply (Hone LA LB); [|done]. intros o o' Ho Ho' Ek. apply Hag; [by apply HA|by apply HB|done].
  - apply (Hone LB LA); [|done]. intros o o' Ho Ho' Ek. symmetry. apply Hag; [by apply HA|by apply HB|done].
Qed.

Lemma leaves_in st a b n :
  n ∈ leaves (oplogs_in c p st a b) ↔ ts_in (mn_UpdateTS n) (a, b) ∧ n ∈ leaves (oplogs_of c p st).
Proof.
  rewrite !list_elem_of_fmap. split.
  - intros (o & -> & [Ht Ho]%oplogs_in_elem). split; [done|]. by exists o.
  - intros [Ht (o & -> & Ho)]. exists o. split; [done|]. by apply oplogs_in_elem.
Qed.

End SyncOplog.

(** ** Witnesses *)

Definition sy_p : bytes := w_prefix x6d x6b.
Definition w_z : BaseOplog :=
  MkOplog 2 w_id2 w_signer (MkTs 150 0) None 3 None [] [] ZeroSalt [] [] None (MkTs 150 0) (replicate 32 x04) (Some w_id)
    [] [] true false [].
Definition sy_start : St (S := mem_store) := w_start w_x.
Definition sy_A : St := (save_all w_cfg w_env [w_x] sy_start).1.
Definition sy_B : St := (save_all w_cfg w_env [w_z] sy_start).1.

Lemma sy_start_ok : store_ok w_cfg sy_p sy_start.
Proof.
  split; [done| |].
  - eexists. split; [reflexivity|]. done.
  - intros k v Hv. exfalso. change (sview sy_start) with (∅ : gmap bytes bytes) in Hv. by rewrite lookup_empty in Hv.
Qed.

(** Saving one of the two oplogs on a store without it. *)
Definition sy_valid (o : BaseOplog) : Prop :=
  oplog_valid o ∧ (NanoTs (o_UpdateTS o) < BILLION)%Z ∧ length (o_ID o) = SizePttID.
Lemma w_x_valid : sy_valid w_x.
Proof.
  destruct (w_complete_ok 101 x01 ltac:(lia)) as (V1 & V2 & V3 & V4). split; [|split; [reflexivity|reflexivity]].
  exact (conj V1 (conj V2 (conj eq_refl (conj V3 V4)))).
Qed.
Lemma w_z_valid : sy_valid w_z.
Proof.
  split; [|split; reflexivity]. split; [by eexists|]. do 2 (split; [done|]). split; [|done].
  unfold ts_ok, ts_wf. simpl. split_and!; word.
Qed.

Lemma sy_save o (st : St (S := mem_store)) :
  sy_valid o → store_ok w_cfg sy_p st → merkle_apart_opt w_cfg st →
  stored (sview st) (IdxKey w_cfg (o_ID o)) = None → blocks (st_b st) !! IdxKey w_cfg (o_ID o) = None →
  (∀ o', o' ∈ oplogs_of w_cfg sy_p st → leaf_rest o' ≠ leaf_rest o) →
  stored_by (λ os _, save_all w_cfg w_env (omap id os)) w_cfg sy_p st [o] (save_all w_cfg w_env [o] st).1 ∧
  ∀ o', o' ∈ oplogs_of w_cfg sy_p (save_all w_cfg w_env [o] st).1 ↔ o' ∈ oplogs_of w_cfg sy_p st ∨ o' = o.
Proof.
  intros (V1 & V2 & V3) Hok Ha Hs Hb Hne.
  destruct (save_all_leaves w_cfg sy_p eq_refl w_env [o] st Hok w_config_ok Ha) as (st' & E & Hok' & Hin).
  - by apply Forall_singleton.
  - apply NoDup_singleton.
  - intros o1 o2 Ho1 ->%list_elem_of_singleton. by apply Hne.
  - rewrite E. cbn [fst]. split.
    + split; [exact E|]. split; [done|]. intros n. rewrite !list_elem_of_fmap. setoid_rewrite Hin. set_solver.
    + intros o'. rewrite Hin, list_elem_of_singleton. done.
Qed.

Lemma sy_A_stored :
  store_ok w_cfg sy_p sy_A ∧ ∀ o', o' ∈ oplogs_of w_cfg sy_p sy_A ↔ o' = w_x.
Proof.
  assert (oplogs_of w_cfg sy_p sy_start = []) as E by reflexivity.
  destruct (sy_save w_x sy_start w_x_valid sy_start_ok (w_apart _) eq_refl eq_refl) as [(_ & Hok & _) Hin].
  - rewrite E. by intros o' ?%not_elem_of_nil.
  - split; [exact Hok|]. intros o'. rewrite Hin, E. split; [by intros [?%not_elem_of_nil|]|by right].
Qed.
Lemma sy_B_stored :
  store_ok w_cfg sy_p sy_B ∧ ∀ o', o' ∈ oplogs_of w_cfg sy_p sy_B ↔ o' = w_z.
Proof.
  assert (oplogs_of w_cfg sy_p sy_start = []) as E by reflexivity.
  destruct (sy_save w_z sy_start w_z_valid sy_start_ok (w_apart _) eq_refl eq_refl) as [(_ & Hok & _) Hin].
  - rewrite E. by intros o' ?%not_elem_of_nil.
  - split; [exact Hok|]. intros o'. rewrite Hin, E. split; [by intros [?%not_elem_of_nil|]|by right].
Qed.

Definition sy_peer (st : St (S := mem_store)) : YSt := MkY st [].
Definition sy_send (_ : Msg) : option GoErr := None.
Definition sy_now : Timestamp := MkTs 200 0.

Lemma sync_ack_partition_witness :
  ∃ ds, SyncOplogAck sy_send (MkTs 100 0) (Ok sy_now) ZeroTimestamp ZeroTimestamp (sy_peer sy_A) =
      (sent (sy_peer sy_A) (SyncOplogAckMsg <$> ds), Ok tt) ∧
    concat (ack_Nodes <$> ds) = leaf_of w_cfg <$> oplogs_in w_cfg sy_p sy_A ZeroTimestamp sy_now.
Proof.
  destruct (sync_ack_partition sy_send (MkTs 100 0) w_cfg sy_p eq_refl (sy_peer sy_A) sy_now ZeroTimestamp ZeroTimestamp)
    as (ds & E & Hc & _).
  - intros m. reflexivity.
  - exact (proj1 sy_A_stored).
  - vm_compute. repeat split; discriminate.
  - vm_compute. repeat split; discriminate.
  - left. left. reflexivity.
  - exists ds. exact (conj E Hc).
Defined.

Definition sy_ack : SyncOplogAckData := MkAck ZeroTimestamp [leaf_of w_cfg w_x] ZeroTimestamp sy_now ZeroTimestamp sy_now.
Definition sy_handle (os : list (option BaseOplog)) (_ : bool) : stm (St (S := mem_store)) unit := save_all w_cfg w_env (omap id os).

Lemma sy_A_list : oplogs_of w_cfg sy_p sy_A = [w_x]. Proof. vm_compute. reflexivity. Qed.
Lemma sy_B_list : oplogs_of w_cfg sy_p sy_B = [w_z]. Proof. vm_compute. reflexivity. Qed.
Lemma sy_A_in : oplogs_in w_cfg sy_p sy_A ZeroTimestamp sy_now = [w_x].
Proof. vm_compute. reflexivity. Qed.
Lemma sy_B_in : oplogs_in w_cfg sy_p sy_B ZeroTimestamp sy_now = [w_z].
Proof. vm_compute. reflexivity. Qed.

Lemma sy_piece : piece_ok w_cfg sy_p sy_A ZeroTimestamp sy_now sy_ack.
Proof.
  unfold piece_ok, sy_ack. cbn [ack_TS ack_Nodes ack_StartHourTS ack_EndHourTS ack_StartTS ack_EndTS].
  split_and!; try done; try (by left; left); try (vm_compute; repeat split; discriminate).
  - unfold MaxSyncOplogAck. simpl. lia.
  - apply Forall_singleton. split; left; left; reflexivity.
Qed.

Lemma sy_agree : agree w_cfg sy_p sy_A sy_B.
Proof.
  intros o o' ->%(proj2 sy_A_stored) ->%(proj2 sy_B_stored) E. exfalso. revert E. vm_compute. discriminate.
Qed.
Lemma sy_newest : newest_ok (S := mem_store) None w_cfg.
Proof. intros logs st. exists logs. by destruct logs. Qed.

Lemma sy_stored o (st : St (S := mem_store)) :
  sy_valid o → store_ok w_cfg sy_p st → merkle_apart_opt w_cfg st →
  stored (sview st) (IdxKey w_cfg (o_ID o)) = None → blocks (st_b st) !! IdxKey w_cfg (o_ID o) = None →
  (∀ o', o' ∈ oplogs_of w_cfg sy_p st → leaf_rest o' ≠ leaf_rest o) →
  stored_by sy_handle w_cfg sy_p st [o] (save_all w_cfg w_env [o] st).1.
Proof. intros. by apply sy_save. Qed.

Definition msg_oplogs (ms : list Msg) : list (option BaseOplog) :=
  match ms with [SyncNewOplogsMsg _ os _] | [SyncNewOplogsAckMsg _ os] => os | _ => [] end.
Lemma some_single {A} (l : list A) (x : A) : Some <$> l = [Some x] → l = [x].
Proof. destruct l as [|y [|z l]]; [done| |done]. by intros [= ->]. Qed.

