(* ===== verification/Netutil.v ===== *)
(** * IP networks

    [p2p/netutil/net.go] (the file under [vendor/github.com/ethereum] that the
    node table imports is the same text): the lists of LAN and of special
    networks, the rule for relayed addresses, the comparison of prefixes, and
    [DistinctNetSet], which bounds how many addresses of one subnet are kept.
    An IP is a byte slice; of Go's package [net] the methods the code calls
    are written out. *)

From S2P Require Import Prelude.

Set Default Goal Selector "!".

(** ** Bytes *)

Definition byte_and (a b : byte) : byte := byte_of_Z (Z.land (byteZ a) (byteZ b)).
Definition byte_not (a : byte) : byte := byte_of_Z (255 - byteZ a).

(** [^byte(0xFF >> r)]: the [r] highest bits. *)
Definition high_mask (r : nat) : byte := byte_not (byte_of_Z (Z.shiftr 255 (Z.of_nat r))).

(** ** Package [net] *)

Abbreviation IP := bytes.

(** [To4]: the four bytes of an IPv4 address, also when it is mapped to IPv6. *)
Definition v4_in_v6_prefix : bytes := replicate 10 x00 ++ [xff; xff].
Definition To4 (ip : IP) : option IP :=
  if decide (length ip = 4) then Some ip
  else if decide (length ip = 16 ∧ take 12 ip = v4_in_v6_prefix) then Some (drop 12 ip)
  else None.

(** [To16]; [nil] is the empty slice. *)
Definition To16 (ip : IP) : IP :=
  if decide (length ip = 4) then v4_in_v6_prefix ++ ip
  else if decide (length ip = 16) then ip else [].

Definition IPv6loopback : IP := replicate 15 x00 ++ [x01].
Definition IPv6unspecified : IP := replicate 16 x00.

Definition IsLoopback (ip : IP) : bool :=
  match To4 ip with
  | Some ip4 => bool_decide (ip4 !! 0%nat = Some x7f)
  | None => bool_decide (ip = IPv6loopback)
  end.
Definition IsMulticast (ip : IP) : bool :=
  match To4 ip with
  | Some ip4 => match ip4 with b :: _ => bool_decide (byte_and b xf0 = xe0) | [] => false end
  | None => bool_decide (length ip = 16 ∧ ip !! 0%nat = Some xff)
  end.
Definition IsUnspecified (ip : IP) : bool :=
  match To4 ip with
  | Some ip4 => bool_decide (ip4 = replicate 4 x00)
  | None => bool_decide (ip = IPv6unspecified)
  end.

(** [net.IPNet], its IP and mask of the same length as [net.ParseCIDR] gives
    them, and [Contains]. *)
Record IPNet := MkIPNet { net_ip : IP; net_mask : bytes }.
Definition net_contains (n : IPNet) (ip : IP) : bool :=
  let ip := default ip (To4 ip) in
  bool_decide (length ip = length (net_ip n)) &&
  bool_decide (zip_with byte_and (net_ip n) (net_mask n) = zip_with byte_and ip (net_mask n)).

(** [net.ParseCIDR] of an address of known length. *)
Definition cidr_mask (len ones : nat) : bytes :=
  (λ i, high_mask (8 `min` (ones - 8 * i))) <$> seq 0 len.
Definition cidr (ip : IP) (ones : nat) : IPNet :=
  let m := cidr_mask (length ip) ones in MkIPNet (zip_with byte_and ip m) m.
Definition cidr4 (a b c d : byte) (ones : nat) : IPNet := cidr [a; b; c; d] ones.
(** The first groups of an IPv6 address, as bytes, the rest zero but the last. *)
Definition cidr6 (first : bytes) (last : byte) (ones : nat) : IPNet :=
  cidr (first ++ replicate (15 - length first) x00 ++ [last]) ones.

(** ** The static lists *)

Abbreviation Netlist := (list IPNet).

Definition lan4 : Netlist :=
  [ cidr4 x00 x00 x00 x00 8; cidr4 x0a x00 x00 x00 8; cidr4 xac x10 x00 x00 12; cidr4 xc0 xa8 x00 x00 16 ].
Definition lan6 : Netlist := [ cidr6 [xfe; x80] x00 10; cidr6 [xfc] x00 7 ].
Definition special4 : Netlist :=
  [ cidr4 xc0 x00 x00 x00 29; cidr4 xc0 x00 x00 x09 32; cidr4 xc0 x00 x00 xaa 32; cidr4 xc0 x00 x00 xab 32;
    cidr4 xc0 x00 x02 x00 24; cidr4 xc0 x1f xc4 x00 24; cidr4 xc0 x34 xc1 x00 24; cidr4 xc0 x58 x63 x00 24;
    cidr4 xc0 xaf x30 x00 24; cidr4 xc6 x12 x00 x00 15; cidr4 xc6 x33 x64 x00 24; cidr4 xcb x00 x71 x00 24;
    cidr4 xff xff xff xff 32 ].
Definition special6 : Netlist :=
  [ cidr6 [x01; x00] x00 64; cidr6 [x20; x01] x00 32; cidr6 [x20; x01; x00; x01] x01 128;
    cidr6 [x20; x01; x00; x02] x00 48; cidr6 [x20; x01; x00; x03] x00 32;
    cidr6 [x20; x01; x00; x04; x01; x12] x00 48; cidr6 [x20; x01; x00; x05] x00 32;
    cidr6 [x20; x01; x00; x10] x00 28; cidr6 [x20; x01; x00; x20] x00 28;
    cidr6 [x20; x01; x0d; xb8] x00 32; cidr6 [x20; x02] x00 16 ].

(** A nil list contains nothing. *)
Definition Netlist_Contains (l : option Netlist) (ip : IP) : bool :=
  match l with None => false | Some l => existsb (λ n, net_contains n ip) l end.

Definition IsLAN (ip : IP) : bool :=
  if IsLoopback ip then true
  else match To4 ip with
       | Some v4 => Netlist_Contains (Some lan4) v4
       | None => Netlist_Contains (Some lan6) ip
       end.

Definition IsSpecialNetwork (ip : IP) : bool :=
  if IsMulticast ip then true
  else match To4 ip with
       | Some v4 => Netlist_Contains (Some special4) v4
       | None => Netlist_Contains (Some special6) ip
       end.

Inductive RelayErr := errInvalid | errUnspecified | errSpecial | errLoopback | errLAN.

Definition CheckRelayIP (sender addr : IP) : option RelayErr :=
  if bool_decide (length addr ≠ 4) && bool_decide (length addr ≠ 16) then Some errInvalid
  else if IsUnspecified addr then Some errUnspecified
  else if IsSpecialNetwork addr then Some errSpecial
  else if IsLoopback addr && negb (IsLoopback sender) then Some errLoopback
  else if IsLAN addr && negb (IsLAN sender) then Some errLAN
  else None.

(** ** Equal prefixes *)

(** Indexing beyond [other] is the run-time panic; [nb <= len(ip)] guards the
    slice of [ip] and not the one of [other]. *)
Definition sameNet (bits : nat) (ip other : IP) : outcome bool :=
  let nb := bits / 8 in
  let mask := high_mask (bits mod 8) in
  let full :=
    if decide (nb ≤ length ip) then
      o ← slice 0 nb other; Ok (bool_decide (take nb ip = o))
    else Ok false in
  if bool_decide (mask ≠ x00) && bool_decide (nb < length ip) then
    a ← or_panic (ip !! nb); b ← or_panic (other !! nb);
    if bool_decide (byte_and a mask ≠ byte_and b mask) then Ok false else full
  else full.

Definition SameNet (bits : nat) (ip other : IP) : outcome bool :=
  match To4 ip, To4 other with
  | None, Some _ | Some _, None => Ok false
  | Some ip4, Some other4 => sameNet bits ip4 other4
  | None, None => sameNet bits (To16 ip) (To16 other)
  end.

(** ** [DistinctNetSet]

    [members] is never nil once [key] has run; the counts are [uint]. *)
Record DistinctNetSet := MkNetSet { ns_Subnet : nat; ns_Limit : Z; ns_members : gmap bytes Z }.

Definition ns_key (s : DistinctNetSet) (ip : IP) : bytes :=
  let '(typ, ip) := match To4 ip with Some ip4 => (x34, ip4) | None => (x36, ip) end in
  let bits := ns_Subnet s `min` (length ip * 8) in
  let nb := bits / 8 in
  let mask := high_mask (bits mod 8) in
  typ :: take nb ip ++
    match ip !! nb with Some b => if bool_decide (mask ≠ x00) then [byte_and b mask] else [] | None => [] end.

Definition ns_set (s : DistinctNetSet) (m : gmap bytes Z) : DistinctNetSet :=
  MkNetSet (ns_Subnet s) (ns_Limit s) m.
Definition ns_count (s : DistinctNetSet) (k : bytes) : Z := default 0%Z (ns_members s !! k).

Definition ns_Add (s : DistinctNetSet) (ip : IP) : DistinctNetSet * bool :=
  let key := ns_key s ip in
  let n := ns_count s key in
  if (n <? ns_Limit s)%Z then (ns_set s (<[key := u64 (n + 1)]> (ns_members s)), true) else (s, false).

Definition ns_Remove (s : DistinctNetSet) (ip : IP) : DistinctNetSet :=
  let key := ns_key s ip in
  match ns_members s !! key with
  | Some n => if (n =? 1)%Z then ns_set s (delete key (ns_members s))
              else ns_set s (<[key := u64 (n - 1)]> (ns_members s))
  | None => s
  end.

Definition ns_Contains (s : DistinctNetSet) (ip : IP) : bool :=
  bool_decide (is_Some (ns_members s !! ns_key s ip)).

Definition ns_Len (s : DistinctNetSet) : Z := map_fold (λ _ i n, u64 (n + i)) 0%Z (ns_members s).

(** ** Properties *)

Lemma To4_length ip ip4 : To4 ip = Some ip4 → length ip4 = 4.
Proof.
  unfold To4. intros E. repeat case_decide; simplify_eq; [done|]. rewrite length_drop. lia.
Qed.

Lemma high_mask_0 : high_mask 0 = x00.
Proof. reflexivity. Qed.
Lemma high_mask_pos r : 0 < r < 8 → high_mask r ≠ x00.
Proof. intros. do 8 (destruct r as [|r]; [lia || done|]). lia. Qed.

(** The prefix of [bits] bits as [sameNet] and [key] compare it: whole bytes,
    then the high bits of the next one. *)
Definition prefix_part (bits : nat) (ip : IP) : bytes :=
  take (bits / 8) ip ++
    match ip !! (bits / 8)%nat with
    | Some b => if bool_decide (high_mask (bits mod 8) ≠ x00) then [byte_and b (high_mask (bits mod 8))] else []
    | None => []
    end.

Lemma sameNet_prefix bits ip other :
  length ip = length other → bits ≤ length ip * 8 →
  sameNet bits ip other = Ok (bool_decide (prefix_part bits ip = prefix_part bits other)).
Proof.
  intros Hl Hb. unfold sameNet, prefix_part.
  assert (bits / 8 ≤ length ip) as Hnb by (apply Nat.Div0.div_le_upper_bound; lia).
  set (nb := bits / 8) in *. set (m := high_mask (bits mod 8)).
  unfold slice. rewrite (decide_True (P := nb ≤ length ip)) by done.
  rewrite (decide_True (P := 0 ≤ nb ∧ nb ≤ length other)) by lia.
  rewrite Nat.sub_0_r, drop_0. simpl.
  destruct (decide (nb < length ip)) as [Hlt|Hge].
  - destruct (lookup_lt_is_Some_2 ip nb Hlt) as [a Ha].
    destruct (lookup_lt_is_Some_2 other nb ltac:(lia)) as [b Hb'].
    rewrite Ha, Hb'. rewrite (bool_decide_eq_true_2 (nb < length ip) Hlt).
    destruct (decide (m = x00)) as [->|Hm].
    { rewrite !(bool_decide_eq_false_2 (x00 ≠ x00)) by (intros []; done). simpl. by rewrite !app_nil_r. }
    rewrite !(bool_decide_eq_true_2 (m ≠ x00)) by done. simpl.
    destruct (decide (byte_and a m = byte_and b m)) as [->|Hne].
    + rewrite bool_decide_eq_false_2 by (intros []; done). f_equal. apply bool_decide_ext.
      split; [by intros ->|intros [? _]%app_inj_1; [done|rewrite !length_take; lia]].
    + rewrite bool_decide_eq_true_2 by done. f_equal. symmetry. apply bool_decide_eq_false_2.
      intros [_ E]%app_inj_1; [|rewrite !length_take; lia]. by injection E.
  - rewrite (bool_decide_eq_false_2 (nb < length ip)) by done.
    rewrite (lookup_ge_None_2 ip) by lia. rewrite (lookup_ge_None_2 other) by lia.
    rewrite andb_false_r, !app_nil_r. done.
Qed.

Lemma ns_key_prefix s ip :
  ns_key s ip =
    match To4 ip with
    | Some ip4 => x34 :: prefix_part (ns_Subnet s `min` 32) ip4
    | None => x36 :: prefix_part (ns_Subnet s `min` (length ip * 8)) ip
    end.
Proof.
  unfold ns_key, prefix_part. destruct (To4 ip) as [ip4|] eqn:E; [|done].
  apply To4_length in E. by rewrite E.
Qed.

(** Two addresses share a key of a [DistinctNetSet] exactly when
    [SameNet] of its subnet length holds for them. *)
Theorem same_key_same_net s a b :
  (length a = 4 ∨ length a = 16) → (length b = 4 ∨ length b = 16) → ns_Subnet s ≤ 32 →
  SameNet (ns_Subnet s) a b = Ok (bool_decide (ns_key s a = ns_key s b)).
Proof.
  intros Ha Hb Hs. rewrite !ns_key_prefix. unfold SameNet.
  assert (∀ ip, (length ip = 4 ∨ length ip = 16) → To4 ip = None → length ip = 16 ∧ To16 ip = ip) as H16.
  { intros ip Hip E. unfold To4 in E. unfold To16. destruct Hip as [Hip|Hip]; rewrite Hip in *; simpl in *; done. }
  destruct (To4 a) as [a4|] eqn:Ea, (To4 b) as [b4|] eqn:Eb.
  - rewrite sameNet_prefix by (rewrite ?(To4_length _ _ Ea), ?(To4_length _ _ Eb); lia).
    rewrite Nat.min_l by lia. f_equal. apply bool_decide_ext. split; [by intros ->|by intros [=]].
  - by rewrite bool_decide_eq_false_2 by done.
  - by rewrite bool_decide_eq_false_2 by done.
  - destruct (H16 a Ha Ea) as [La ->]. destruct (H16 b Hb Eb) as [Lb ->].
    rewrite sameNet_prefix by lia. rewrite La, Lb, Nat.min_l by lia.
    f_equal. apply bool_decide_ext. split; [by intros ->|by intros [=]].
Qed.

(** The invariant: every count is between one and the limit. *)
Definition ns_inv (s : DistinctNetSet) : Prop :=
  in_u64 (ns_Limit s) ∧ ∀ k n, ns_members s !! k = Some n → (1 ≤ n ≤ ns_Limit s)%Z.

Lemma ns_count_range s k : ns_inv s → (0 ≤ ns_count s k ≤ ns_Limit s)%Z.
Proof.
  intros [Hl Hi]. unfold ns_count. destruct (_ !! k) as [n|] eqn:E; simpl; [apply Hi in E; lia|word].
Qed.

Lemma ns_Add_spec s ip :
  ns_inv s →
  let '(s', ok) := ns_Add s ip in
  ok = bool_decide (ns_count s (ns_key s ip) < ns_Limit s)%Z ∧
  ns_Subnet s' = ns_Subnet s ∧ ns_Limit s' = ns_Limit s ∧ ns_inv s' ∧
  ∀ k, ns_count s' k = (ns_count s k + if ok && bool_decide (k = ns_key s ip) then 1 else 0)%Z.
Proof.
  intros Hi. pose proof (ns_count_range s (ns_key s ip) Hi) as Hc. destruct Hi as [Hl Hi].
  unfold ns_Add. destruct (Z.ltb_spec (ns_count s (ns_key s ip)) (ns_Limit s)) as [Hlt|Hge].
  - rewrite bool_decide_eq_true_2 by done. split_and!; [done..| |].
    + split; [done|]. simpl. intros k n [[<- <-]|[_ Hn]]%lookup_insert_Some; [|by apply Hi in Hn].
      rewrite u64_small by word. lia.
    + intros k. unfold ns_count at 1. simpl. rewrite u64_small by word.
      case_bool_decide as Hk; subst; [by rewrite lookup_insert_eq|].
      rewrite lookup_insert_ne by done. unfold ns_count. lia.
  - rewrite bool_decide_eq_false_2 by lia. split_and!; [done..|]. simpl. lia.
Qed.

Lemma ns_Remove_spec s ip :
  ns_inv s →
  let s' := ns_Remove s ip in
  ns_Subnet s' = ns_Subnet s ∧ ns_Limit s' = ns_Limit s ∧ ns_inv s' ∧
  ∀ k, ns_count s' k = if bool_decide (k = ns_key s ip) then (0 `max` (ns_count s k - 1))%Z else ns_count s k.
Proof.
  intros [Hl Hi]. unfold ns_Remove. destruct (_ !! _) as [n|] eqn:E; simpl.
  - pose proof (Hi _ _ E) as Hn. destruct (Z.eqb_spec n 1) as [->|Hne]; split_and!; try done.
    + split; [done|]. simpl. intros k n [_ Hk]%lookup_delete_Some. by apply Hi in Hk.
    + intros k. unfold ns_count at 1. simpl. case_bool_decide as Hk; subst.
      * rewrite lookup_delete_eq. unfold ns_count. rewrite E. done.
      * by rewrite lookup_delete_ne.
    + split; [done|]. simpl. intros k m [[<- <-]|[_ Hk]]%lookup_insert_Some; [|by apply Hi in Hk].
      rewrite u64_small by word. lia.
    + intros k. unfold ns_count at 1. simpl. case_bool_decide as Hk; subst.
      * rewrite lookup_insert_eq, u64_small by word. unfold ns_count. rewrite E. simpl. lia.
      * by rewrite lookup_insert_ne.
  - split_and!; [done..|]. intros k. case_bool_decide as Hk; [|done]. subst.
    unfold ns_count. rewrite E. done.
Qed.
