(* ===== verification/Discover.v ===== *)
(** * Node discovery: identifiers, nodes and distances

    [p2p/discover/node.go] and the list of [p2p/discover/table.go] that keeps
    the nodes nearest to a target: node identifiers with their text form,
    the constructors and the completeness check of a node, the XOR distance
    ([distcmp], [logdist], [hashAtDistance]) and [nodesByDistance.push].
    Big integers, the curve, Keccak-256 and libp2p's peer identifiers are
    parameters. *)

From S2P Require Import Prelude CommonTypes Netutil.

Set Default Goal Selector "!".

(** ** Node identifiers *)

(** [encoding/hex.DecodeString]; either case of the letters is accepted. *)
Definition fromHexChar (c : byte) : option Z :=
  let z := byteZ c in
  if (48 <=? z)%Z && (z <=? 57)%Z then Some (z - 48)%Z
  else if (97 <=? z)%Z && (z <=? 102)%Z then Some (z - 87)%Z
  else if (65 <=? z)%Z && (z <=? 70)%Z then Some (z - 55)%Z else None.
Fixpoint DecodeString (s : bytes) : outcome bytes :=
  match s with
  | [] => Ok []
  | h :: l :: rest =>
    match fromHexChar h, fromHexChar l with
    | Some x, Some y => r ← DecodeString rest; Ok (byte_of_Z (16 * x + y) :: r)
    | _, _ => Err ErrDecode
    end
  | _ => Err ErrDecode
  end.

Definition NodeIDBits : nat := 512.
Definition SizeNodeID : nat := NodeIDBits / 8.
Abbreviation NodeID := bytes (only parsing).
Definition EmptyNodeID : NodeID := replicate SizeNodeID x00.
Definition nodeid_wf (id : NodeID) : Prop := length id = SizeNodeID.

(** [strings.TrimPrefix(in, "0x")]. *)
Definition trim_0x (s : bytes) : bytes :=
  match s with x30 :: x78 :: rest => rest | _ => s end.

Definition HexID (s : bytes) : outcome NodeID :=
  b ← DecodeString (trim_0x s);
  if decide (length b ≠ SizeNodeID) then Err ErrDecode else Ok (go_copy EmptyNodeID b).
Definition MustHexID (s : bytes) : outcome NodeID :=
  match HexID s with Ok id => Ok id | _ => Panic end.

Definition BytesID (b : bytes) : outcome NodeID :=
  if decide (length b ≠ SizeNodeID) then Err ErrDecode else Ok (go_copy EmptyNodeID b).
Definition MustBytesID (b : bytes) : outcome NodeID :=
  match BytesID b with Ok id => Ok id | _ => Panic end.

(** [String] (the verb [%x]) and [MarshalText] write the lower-case digits,
    [TerminalString] those of the first eight bytes. *)
Definition nodeid_String (n : NodeID) : bytes := hex_encode n.
Definition nodeid_MarshalText (n : NodeID) : bytes := hex_encode n.
Definition nodeid_TerminalString (n : NodeID) : bytes := hex_encode (take 8 n).
(** The new value of the receiver and the error. *)
Definition nodeid_UnmarshalText (n : NodeID) (text : bytes) : NodeID * option GoErr :=
  match HexID text with Ok id => (id, None) | Err e => (n, Some e) | Panic => (n, None) end.

(** ** Keys

    The curve secp256k1: the points, the uncompressed encoding [0x04 || X || Y]
    of [elliptic.Marshal], and the recovery of a key from a signature. *)
Class Curve `{Crypto} := {
  curve_point : Z → Z → option PubKey;
  elliptic_Marshal : PubKey → bytes;
  RecoverPubkey : bytes → bytes → outcome bytes;
  elliptic_Marshal_point x y p : curve_point x y = Some p →
    elliptic_Marshal p = x04 :: be_enc 32 x ++ be_enc 32 y;
  elliptic_Marshal_wf p : ∃ x y, (0 ≤ x < 256 ^ 32)%Z ∧ (0 ≤ y < 256 ^ 32)%Z ∧ curve_point x y = Some p;
}.

Section keys.
Context `{Curve}.

Definition PubkeyID (pub : PubKey) : outcome NodeID :=
  let pbytes := elliptic_Marshal pub in
  if decide (length pbytes - 1 ≠ SizeNodeID) then Panic
  else Ok (go_copy EmptyNodeID (drop 1 pbytes)).

Definition nodeid_Pubkey (id : NodeID) : outcome PubKey :=
  let half := length id / 2 in
  match curve_point (be_dec (take half id)) (be_dec (drop half id)) with
  | Some p => Ok p
  | None => Err ErrExternal
  end.

Definition recoverNodeID (hash sig : bytes) : outcome NodeID :=
  pubkey ← RecoverPubkey hash sig;
  if decide (length pubkey - 1 ≠ SizeNodeID) then Err ErrDecode
  else Ok (drop 1 pubkey).

Definition OffsetAddrToRaftID : nat := 6.
Definition OffsetEndAddrToRaftID : nat := OffsetAddrToRaftID + 8.
Definition ToRaftID (n : NodeID) : outcome Z :=
  pubkey ← nodeid_Pubkey n;
  addr ← slice OffsetAddrToRaftID OffsetEndAddrToRaftID (PubkeyToAddress pubkey);
  id ← be_uint 8 addr;
  if (id =? 0)%Z then Err ErrInvalidID else Ok id.

(** [GenerateNodeKey]: [keys] are the results of [key.GenerateKey]; the bound
    of ten tries is [NGenerateNodeKey].  [LoadECDSA] makes the same test. *)
Definition NGenerateNodeKey : nat := 10.
Fixpoint GenerateNodeKey (tries : nat) (keys : nat → outcome PubKey) (i : nat) : outcome PubKey :=
  match tries with
  | O => Err ErrExternal
  | S t =>
    match keys i with
    | Ok key =>
      match PubkeyID key with
      | Ok nodeID => match ToRaftID nodeID with Ok _ => Ok key | _ => GenerateNodeKey t keys (S i) end
      | _ => Panic
      end
    | _ => GenerateNodeKey t keys (S i)
    end
  end.
Definition LoadECDSA (loaded : outcome PubKey) : outcome PubKey :=
  key ← loaded; nodeID ← PubkeyID key; _ ← ToRaftID nodeID; Ok key.
End keys.

(** ** Nodes

    The fields of a [Node] do not change after its creation but for [addedAt],
    which the table keeps by the address of the node, [n_ptr]. *)
Record PeerInfo := MkPeerInfo { pi_ID : bytes; pi_Addrs : list bytes }.
Record Node := MkNode {
  n_ptr : positive;
  n_IP : IP; n_UDP : Z; n_TCP : Z; n_ID : NodeID;
  n_IsWebrtc : bool; n_IsP2P : bool; n_PeerID : bytes; n_PeerInfo : option PeerInfo;
  n_sha : bytes
}.

#[global] Instance PeerInfo_eq_dec : EqDecision PeerInfo.
Proof. solve_decision. Defined.
#[global] Instance Node_eq_dec : EqDecision Node.
Proof. solve_decision. Defined.

Section nodes.
Context `{Curve}.

(** [new] is the address of the allocated node. *)
Definition NewNode (new : positive) (id : NodeID) (ip : IP) (udpPort tcpPort : Z) : Node :=
  MkNode new (default ip (To4 ip)) udpPort tcpPort id false false [] None (Keccak256 id).
Definition NewP2PNode (new : positive) (id : NodeID) (peerID : bytes) (peerInfo : option PeerInfo) : Node :=
  MkNode new [] 0 0 id false true peerID peerInfo (Keccak256 id).
Definition NewWebrtcNode (new : positive) (id : NodeID) : Node :=
  MkNode new [] 0 0 id true false [] None (Keccak256 id).

(** [nil] is the only empty IP a node holds. *)
Definition Incomplete (n : Node) : bool :=
  if n_IsP2P n then match n_PeerInfo n with None => true | Some _ => false end
  else bool_decide (n_IP n = []).

Definition validateComplete (n : Node) : option GoErr :=
  if Incomplete n then Some ErrExternal
  else if negb (n_IsP2P n) && (n_UDP n =? 0)%Z then Some ErrExternal
  else if negb (n_IsP2P n) && (n_TCP n =? 0)%Z then Some ErrExternal
  else if negb (n_IsP2P n) && (IsMulticast (n_IP n) || IsUnspecified (n_IP n)) then Some ErrExternal
  else match nodeid_Pubkey (n_ID n) with Ok _ => None | Err e => Some e | Panic => None end.
End nodes.

(** ** Distances

    A hash is an array of thirty-two bytes. *)

Fixpoint distcmp (target a b : bytes) : Z :=
  match target, a, b with
  | t :: target, x :: a, y :: b =>
    let da := byteZ (byte_xor x t) in
    let db := byteZ (byte_xor y t) in
    if (db <? da)%Z then 1%Z else if (da <? db)%Z then (-1)%Z else distcmp target a b
  | _, _, _ => 0%Z
  end.

Definition lzcount : list nat :=
  [8; 7; 6; 6] ++ replicate 4 5 ++ replicate 8 4 ++ replicate 16 3 ++ replicate 32 2 ++
  replicate 64 1 ++ replicate 128 0.

Fixpoint logdist_lz (lz : nat) (a b : bytes) : nat :=
  match a, b with
  | x :: a, y :: b =>
    let v := byte_xor x y in
    if decide (v = x00) then logdist_lz (lz + 8) a b
    else lz + nth (Z.to_nat (byteZ v)) lzcount 0
  | _, _ => lz
  end.
Definition logdist (a b : bytes) : nat := length a * 8 - logdist_lz 0 a b.

(** [rand.Intn(255)] for byte [i] is [rnd i]; [n / 8] beyond the array is the
    run-time panic, except that position [-1] with [n % 8 = 0] becomes 0. *)
Definition hashAtDistance (rnd : nat → byte) (a : bytes) (n : nat) : outcome bytes :=
  if decide (n = 0) then Ok a else
  let pos := (Z.of_nat (length a) - Z.of_nat (n / 8) - 1)%Z in
  let bit := (Z.shiftl 1 ((Z.of_nat (n mod 8) - 1) mod 256) mod 256)%Z in
  let '(pos, bit) := if (bit =? 0)%Z then ((pos + 1)%Z, x80) else (pos, byte_of_Z bit) in
  if (pos <? 0)%Z then Panic else
  c ← or_panic (a !! Z.to_nat pos);
  let flipped := byte_of_Z (Z.lor (byteZ (byte_and c (byte_not bit))) (byteZ (byte_and (byte_not c) bit))) in
  Ok (take (Z.to_nat pos) a ++ flipped :: (rnd <$> seq (S (Z.to_nat pos)) (length a - S (Z.to_nat pos)))).

(** ** [nodesByDistance] *)

Record nodesByDistance := MkByDist { bd_entries : list Node; bd_target : bytes }.

(** [copy(h.entries[ix+1:], h.entries[ix:]); h.entries[ix] = n]. *)
Definition slide_in {A} (ix : nat) (n : A) (entries : list A) : list A :=
  take ix entries ++ n :: go_copy (drop (S ix) entries) (drop ix entries).

Definition bd_push (h : nodesByDistance) (n : Node) (maxElems : nat) : nodesByDistance :=
  let ix := sort_search (length (bd_entries h)) (λ i,
    match bd_entries h !! i with
    | Some e => (0 <? distcmp (bd_target h) (n_sha e) (n_sha n))%Z
    | None => false
    end) in
  let entries := if decide (length (bd_entries h) < maxElems) then bd_entries h ++ [n] else bd_entries h in
  if decide (ix = length entries) then MkByDist entries (bd_target h)
  else MkByDist (slide_in ix n entries) (bd_target h).

(** ** The XOR metric *)

Lemma testbit_split_pow k x y i :
  (0 ≤ k → 0 ≤ x < 2 ^ k → 0 ≤ i →
   Z.testbit (y * 2 ^ k + x) i = if i <? k then Z.testbit x i else Z.testbit y (i - k))%Z.
Proof.
  intros Hk Hx Hi. destruct (Z.ltb_spec i k).
  - rewrite <- (Z.mod_pow2_bits_low _ k) by lia. f_equal.
    rewrite Z.add_comm, Z.mod_add by lia. by apply Z.mod_small.
  - replace i with (i - k + k)%Z at 1 by lia. rewrite <- Z.div_pow2_bits by lia. f_equal.
    rewrite Z.div_add_l, Z.div_small by lia. lia.
Qed.

Lemma lxor_split k x y m M :
  (0 ≤ k → 0 ≤ x < 2 ^ k → 0 ≤ m < 2 ^ k →
   Z.lxor (y * 2 ^ k + x) (M * 2 ^ k + m) = Z.lxor y M * 2 ^ k + Z.lxor x m)%Z.
Proof.
  intros Hk Hx Hm. apply Z.bits_inj'. intros i Hi.
  rewrite Z.lxor_spec, !testbit_split_pow by (try apply lxor_range; lia).
  destruct (i <? k)%Z; by rewrite Z.lxor_spec.
Qed.

Lemma pow256 n : (256 ^ Z.of_nat n = 2 ^ (8 * Z.of_nat n))%Z.
Proof. by rewrite Z.pow_mul_r by lia. Qed.

(** The distance of two hashes: the exclusive or, as a big-endian integer. *)
Definition xor_dist (a b : bytes) : Z := Z.lxor (be_dec a) (be_dec b).

Lemma xor_dist_cons x y a b :
  length a = length b →
  xor_dist (x :: a) (y :: b) = (Z.lxor (byteZ x) (byteZ y) * 2 ^ (8 * Z.of_nat (length a)) + xor_dist a b)%Z.
Proof.
  intros Hl. unfold xor_dist. rewrite !be_dec_cons, <- Hl, pow256.
  pose proof (be_dec_range a) as Ha. pose proof (be_dec_range b) as Hb.
  rewrite <- Hl in Hb. rewrite pow256 in Ha, Hb. by apply lxor_split; [lia|..].
Qed.

Lemma xor_dist_range a b :
  length a = length b → (0 ≤ xor_dist a b < 2 ^ (8 * Z.of_nat (length a)))%Z.
Proof.
  intros Hl. pose proof (be_dec_range a) as Ha. pose proof (be_dec_range b) as Hb.
  rewrite <- Hl in Hb. rewrite pow256 in Ha, Hb. apply lxor_range; [lia|done..].
Qed.

Lemma xor_dist_comm a b : xor_dist a b = xor_dist b a.
Proof. apply Z.lxor_comm. Qed.

Lemma xor_dist_0 a b : length a = length b → xor_dist a b = 0%Z ↔ a = b.
Proof.
  intros Hl. unfold xor_dist. rewrite Z.lxor_eq_0_iff. split; [by apply be_dec_inj|by intros ->].
Qed.

Lemma xor_dist_inj a b t :
  length a = length t → length b = length t → xor_dist a t = xor_dist b t → a = b.
Proof.
  intros Ha Hb E. apply be_dec_inj; [lia|]. unfold xor_dist in E.
  assert (Z.lxor (Z.lxor (be_dec a) (be_dec t)) (be_dec t) = Z.lxor (Z.lxor (be_dec b) (be_dec t)) (be_dec t)) as E'
    by by rewrite E.
  by rewrite !Z.lxor_assoc, Z.lxor_nilpotent, !Z.lxor_0_r in E'.
Qed.

Definition sign_of (c : comparison) : Z := match c with Lt => (-1)%Z | Eq => 0%Z | Gt => 1%Z end.

Lemma distcmp_compare t a b :
  length a = length t → length b = length t →
  distcmp t a b = sign_of (Z.compare (xor_dist a t) (xor_dist b t)).
Proof.
  revert a b. induction t as [|z t IH]; intros [|x a] [|y b] Ha Hb; try done.
  simpl in Ha, Hb. injection Ha as Ha. injection Hb as Hb.
  cbn [distcmp]. rewrite !xor_dist_cons by done. rewrite !byteZ_xor, Ha, Hb.
  pose proof (xor_dist_range a t Ha) as Ra. pose proof (xor_dist_range b t Hb) as Rb.
  rewrite Ha in Ra. rewrite Hb in Rb. rewrite IH by done.
  set (p := (2 ^ (8 * Z.of_nat (length t)))%Z) in *.
  set (da := Z.lxor (byteZ x) (byteZ z)). set (db := Z.lxor (byteZ y) (byteZ z)).
  destruct (Z.ltb_spec db da); [|destruct (Z.ltb_spec da db)].
  - rewrite (proj2 (Z.compare_gt_iff _ _)); [done|nia].
  - rewrite (proj2 (Z.compare_lt_iff _ _)); [done|nia].
  - assert (da = db) as -> by lia. f_equal.
    destruct (Z.compare_spec (xor_dist a t) (xor_dist b t));
      symmetry; [apply Z.compare_eq_iff|apply Z.compare_lt_iff|apply Z.compare_gt_iff]; lia.
Qed.

(** The number of bits of a byte. *)
Lemma lzcount_log2 b :
  b ≠ x00 → 8 - nth (Z.to_nat (byteZ b)) lzcount 0 = S (Z.to_nat (Z.log2 (byteZ b))) ∧
  nth (Z.to_nat (byteZ b)) lzcount 0 ≤ 7.
Proof. destruct b; intros; try done; vm_compute; split; reflexivity || lia. Qed.

Lemma logdist_lz_acc lz a b : logdist_lz lz a b = lz + logdist_lz 0 a b.
Proof.
  revert lz b. induction a as [|x a IH]; intros lz [|y b]; cbn [logdist_lz]; [lia..|].
  case_decide; [|lia]. rewrite IH, (IH (0 + 8)). lia.
Qed.

Lemma byte_xor_0 x y : byte_xor x y = x00 ↔ byteZ x = byteZ y.
Proof.
  rewrite <- Z.lxor_eq_0_iff, <- byteZ_xor. change 0%Z with (byteZ x00).
  split; [by intros ->|apply byteZ_inj].
Qed.

(** [log2(a ^ b)] as the comment has it, counted from one. *)
Lemma logdist_log2_core a b :
  length a = length b →
  logdist_lz 0 a b ≤ length a * 8 ∧
  logdist a b = if decide (a = b) then 0 else S (Z.to_nat (Z.log2 (xor_dist a b))).
Proof.
  unfold logdist. revert b. induction a as [|x a IH]; intros [|y b] Hl; try done.
  injection Hl as Hl. destruct (IH b Hl) as [Hle E]. cbn [logdist_lz].
  destruct (decide (byte_xor x y = x00)) as [H0|Hne].
  - apply byte_xor_0 in H0. apply byteZ_inj in H0 as ->. rewrite logdist_lz_acc. simpl length. split; [lia|].
    replace (S (length a) * 8 - (0 + 8 + logdist_lz 0 a b)) with (length a * 8 - logdist_lz 0 a b) by lia.
    rewrite E, xor_dist_cons, Z.lxor_nilpotent by done. simpl Z.mul. rewrite Z.add_0_l.
    repeat case_decide; simplify_eq; done.
  - pose proof (lzcount_log2 _ Hne) as [Hlog H7]. simpl length. split; [lia|].
    rewrite decide_False by (intros [= -> ->]; apply Hne, byte_xor_0; done).
    rewrite xor_dist_cons by done. rewrite <- byteZ_xor.
    set (v := byte_xor x y) in *.
    assert (byteZ v ≠ 0%Z) as Hv by (intros Hv; apply Hne; by apply byteZ_inj).
    pose proof (byteZ_range v). pose proof (xor_dist_range a b Hl) as [R1 R2].
    set (k := (8 * Z.of_nat (length a))%Z) in *.
    replace (Z.log2 (byteZ v * 2 ^ k + xor_dist a b))%Z with (Z.log2 (byteZ v) + k)%Z.
    + pose proof (Z.log2_nonneg (byteZ v)). subst k. lia.
    + symmetry. apply Z.log2_unique; [pose proof (Z.log2_nonneg (byteZ v)); lia|].
      pose proof (Z.log2_spec (byteZ v) ltac:(lia)) as [L1 L2].
      pose proof (Z.log2_nonneg (byteZ v)).
      rewrite Z.pow_add_r, <- Z.add_succ_l, Z.pow_add_r by lia. nia.
Qed.

(** ** A hash at a given distance *)

Lemma logdist_lz_prefix p x y a b :
  x ≠ y → logdist_lz 0 (p ++ x :: a) (p ++ y :: b) = length p * 8 + nth (Z.to_nat (byteZ (byte_xor x y))) lzcount 0.
Proof.
  intros Hne. induction p as [|c p IH].
  - cbn [logdist_lz app]. rewrite decide_False; [done|].
    intros H. apply byte_xor_0 in H. by apply Hne, byteZ_inj.
  - cbn [logdist_lz app]. rewrite decide_True by (by apply byte_xor_0).
    rewrite logdist_lz_acc, IH. simpl length. lia.
Qed.

Lemma flip_bit c r :
  1 ≤ r ≤ 8 →
  let bit := byte_of_Z (2 ^ (Z.of_nat r - 1)) in
  let f := byte_of_Z (Z.lor (byteZ (byte_and c (byte_not bit))) (byteZ (byte_and (byte_not c) bit))) in
  c ≠ f ∧ nth (Z.to_nat (byteZ (byte_xor c f))) lzcount 0 = 8 - r.
Proof.
  intros Hr. assert (r ∈ seq 1 8) as Hin by (apply elem_of_seq; lia). clear Hr.
  simpl in Hin. repeat rewrite elem_of_cons in Hin. rewrite elem_of_nil in Hin.
  destruct Hin as [->|[->|[->|[->|[->|[->|[->|[->|[]]]]]]]]]; destruct c; split; done.
Qed.

(** Flipping bit [r] of the byte at [pos] and whatever follows. *)
Lemma flip_distance (rnd : nat → byte) a pos r c :
  a !! pos = Some c → 1 ≤ r ≤ 8 →
  let bit := byte_of_Z (2 ^ (Z.of_nat r - 1)) in
  let f := byte_of_Z (Z.lor (byteZ (byte_and c (byte_not bit))) (byteZ (byte_and (byte_not c) bit))) in
  let b := take pos a ++ f :: (rnd <$> seq (S pos) (length a - S pos)) in
  length b = length a ∧ logdist a b = (length a - pos) * 8 - (8 - r).
Proof.
  intros Hc Hr bit f b. pose proof (lookup_lt_Some _ _ _ Hc) as Hlt.
  destruct (flip_bit c r Hr) as [Hne Hlz]. fold bit f in Hne, Hlz. split.
  - subst b. rewrite length_app, length_take. simpl. rewrite length_fmap, length_seq. lia.
  - unfold logdist. rewrite <- (take_drop_middle a pos c Hc) at 2. subst b.
    rewrite logdist_lz_prefix by done. rewrite Hlz, length_take. lia.
Qed.

Lemma hashAtDistance_core rnd a n :
  length a = 32 → n ≤ 256 →
  ∃ b, hashAtDistance rnd a n = Ok b ∧ length b = 32 ∧ logdist a b = n.
Proof.
  intros Ha Hn. unfold hashAtDistance. case_decide as H0.
  { exists a. split_and!; [done..|]. destruct (logdist_log2_core a a eq_refl) as [_ ->]. by rewrite decide_True. }
  pose proof (Nat.div_mod_eq n 8) as Hdm. pose proof (Nat.mod_upper_bound n 8 ltac:(lia)) as Hm.
  set (q := n / 8) in *. set (r := n mod 8) in *. rewrite Ha.
  destruct (decide (r = 0)) as [Hr|Hr].
  - rewrite Hr. change (Z.shiftl 1 ((Z.of_nat 0 - 1) mod 256) mod 256)%Z with 0%Z. cbv beta iota zeta. rewrite Z.eqb_refl.
    destruct (Z.ltb_spec (32 - Z.of_nat q - 1 + 1) 0) as [|Hge]; [lia|].
    replace (Z.to_nat (Z.of_nat 32 - Z.of_nat q - 1 + 1)) with (32 - q) by lia.
    destruct (Z.ltb_spec (Z.of_nat 32 - Z.of_nat q - 1 + 1) 0); [lia|].
    destruct (lookup_lt_is_Some_2 a (32 - q) ltac:(lia)) as [c Hc]. rewrite Hc. simpl.
    destruct (flip_distance rnd a (32 - q) 8 c Hc ltac:(lia)) as [Hl Hd].
    change (byte_of_Z (2 ^ (Z.of_nat 8 - 1))) with x80 in Hl, Hd. rewrite Ha in Hl, Hd.
    eexists. split; [reflexivity|]. split; [exact Hl|]. etransitivity; [exact Hd|lia].
  - assert (Z.shiftl 1 ((Z.of_nat r - 1) mod 256) mod 256 = 2 ^ (Z.of_nat r - 1))%Z as ->.
    { rewrite Z.shiftl_1_l, (Z.mod_small (Z.of_nat r - 1)) by lia.
      apply Z.mod_small. split; [lia|]. change 256%Z with (2 ^ 8)%Z. apply Z.pow_lt_mono_r; lia. }
    destruct (Z.eqb_spec (2 ^ (Z.of_nat r - 1)) 0) as [E|_].
    { pose proof (Z.pow_pos_nonneg 2 (Z.of_nat r - 1) ltac:(lia) ltac:(lia)). lia. }
    destruct (Z.ltb_spec (Z.of_nat 32 - Z.of_nat q - 1) 0); [lia|].
    replace (Z.to_nat (Z.of_nat 32 - Z.of_nat q - 1)) with (31 - q) by lia.
    destruct (lookup_lt_is_Some_2 a (31 - q) ltac:(lia)) as [c Hc]. rewrite Hc. simpl.
    destruct (flip_distance rnd a (31 - q) r c Hc ltac:(lia)) as [Hl Hd]. rewrite Ha in Hl, Hd.
    eexists. split; [reflexivity|]. split; [exact Hl|]. etransitivity; [exact Hd|lia].
Qed.

(** ** The nearest nodes *)

(** The distance of a node from [target], and the order of the list. *)
Definition dist_to (target : bytes) (n : Node) : Z := xor_dist (n_sha n) target.
Definition near (target : bytes) : relation Node := λ a b, (dist_to target a ≤ dist_to target b)%Z.
Definition sha_wf (n : Node) : Prop := length (n_sha n) = 32.

(** [h] holds the [k] nodes of [l] nearest to the target, nearest first. *)
Definition nearest (k : nat) (l : list Node) (h : nodesByDistance) : Prop :=
  StronglySorted (near (bd_target h)) (bd_entries h) ∧ length (bd_entries h) ≤ k ∧
  ∃ rest, l ≡ₚ bd_entries h ++ rest ∧ (rest ≠ [] → length (bd_entries h) = k) ∧
    ∀ x y, x ∈ bd_entries h → y ∈ rest → near (bd_target h) x y.

Lemma distcmp_gt t a b :
  length a = length t → length b = length t →
  (0 <? distcmp t a b)%Z = (xor_dist b t <? xor_dist a t)%Z.
Proof.
  intros Ha Hb. rewrite distcmp_compare by done.
  destruct (Z.compare_spec (xor_dist a t) (xor_dist b t)), (Z.ltb_spec (xor_dist b t) (xor_dist a t)); simpl; lia || done.
Qed.

Lemma StronglySorted_lookup {A} (R : relation A) l i j x y :
  StronglySorted R l → l !! i = Some x → l !! j = Some y → i < j → R x y.
Proof.
  intros Hs Hi Hj Hij. rewrite <- (take_drop (S i) l) in Hs.
  apply (StronglySorted_app_1_elem_of R _ _ x y Hs).
  - apply (list_elem_of_lookup_2 _ i). rewrite lookup_take_lt by lia. done.
  - apply (list_elem_of_lookup_2 _ (j - S i)). rewrite lookup_drop. by replace (S i + (j - S i)) with j by lia.
Qed.

(** Where [sort.Search] puts a node in a sorted list. *)
Lemma push_index t entries n :
  StronglySorted (near t) entries → Forall sha_wf entries → sha_wf n → length t = 32 →
  let ix := sort_search (length entries) (λ i,
    match entries !! i with Some e => (0 <? distcmp t (n_sha e) (n_sha n))%Z | None => false end) in
  ix ≤ length entries ∧
  Forall (λ e, near t e n) (take ix entries) ∧ Forall (λ e, (dist_to t n < dist_to t e)%Z) (drop ix entries).
Proof.
  intros Hs Hwf Hn Ht. set (f := λ i, _).
  assert (∀ i e, entries !! i = Some e → f i = (dist_to t n <? dist_to t e)%Z) as Hf.
  { intros i e He. unfold f. rewrite He. apply distcmp_gt; [|unfold sha_wf in *; lia].
    pose proof (Forall_lookup_1 _ _ _ _ Hwf He) as Hw. unfold sha_wf in Hw. lia. }
  destruct (sort_search_spec (length entries) f) as (Hle & Hlo & Hhi).
  { intros i j Hij Hj Hi. destruct (lookup_lt_is_Some_2 entries j Hj) as [ej Hej].
    destruct (lookup_lt_is_Some_2 entries i ltac:(lia)) as [ei Hei].
    rewrite (Hf _ _ Hei) in Hi. rewrite (Hf _ _ Hej). apply Z.ltb_lt in Hi. apply Z.ltb_lt.
    destruct (decide (i = j)) as [->|Hne]; [by simplify_eq|].
    pose proof (StronglySorted_lookup (near t) entries i j ei ej Hs Hei Hej ltac:(lia)) as Hnr.
    unfold near in Hnr. lia. }
  split; [done|]. split; apply Forall_lookup; intros i e He.
  - apply lookup_take_Some in He as [He Hi]. specialize (Hlo i Hi). rewrite (Hf _ _ He) in Hlo.
    apply Z.ltb_ge in Hlo. done.
  - rewrite lookup_drop in He. specialize (Hhi _ (conj (Nat.le_add_r _ i) (lookup_lt_Some _ _ _ He))).
    rewrite (Hf _ _ He) in Hhi. by apply Z.ltb_lt in Hhi.
Qed.

Lemma slide_in_eq {A} ix (n z : A) E :
  ix ≤ length E → slide_in ix n (E ++ [z]) = take ix E ++ n :: drop ix E.
Proof.
  intros Hix. unfold slide_in. rewrite take_app_le by done. do 2 f_equal.
  unfold go_copy. rewrite !length_drop, length_app. simpl.
  rewrite (drop_app_le E [z] ix) by done.
  replace (length E + 1 - S ix) with (length (drop ix E)) by (rewrite length_drop; lia).
  rewrite take_app_length, (drop_ge (drop (S ix) _)); [apply app_nil_r|]. rewrite !length_drop, length_app. simpl. lia.
Qed.

Lemma insert_sorted t ix n E :
  StronglySorted (near t) E → Forall (λ e, near t e n) (take ix E) →
  Forall (λ e, (dist_to t n < dist_to t e)%Z) (drop ix E) →
  StronglySorted (near t) (take ix E ++ n :: drop ix E) ∧ take ix E ++ n :: drop ix E ≡ₚ n :: E.
Proof.
  intros Hs Hlo Hhi. rewrite <- (take_drop ix E) in Hs.
  apply StronglySorted_app in Hs as (Hc & Ha & Hb). split.
  - apply StronglySorted_app. split_and!; [|done|].
    + intros x y Hx [->|Hy]%elem_of_cons; [exact (proj1 (Forall_forall _ _) Hlo x Hx)|by apply Hc].
    + apply StronglySorted_cons. split; [|done]. eapply Forall_impl; [exact Hhi|].
      intros e He. unfold near. simpl in He. lia.
  - rewrite <- (take_drop ix E) at 3. by rewrite Permutation_middle.
Qed.

Lemma push_nearest k l h n :
  nearest k l h → Forall sha_wf l → sha_wf n → length (bd_target h) = 32 →
  nearest k (n :: l) (bd_push h n k) ∧ bd_target (bd_push h n k) = bd_target h.
Proof.
  intros (Hs & Hk & rest & Hp & Hfull & Hrest) Hl Hn Ht. destruct h as [E t]. simpl in *.
  assert (Forall sha_wf E) as HE.
  { rewrite Hp in Hl. by apply Forall_app in Hl as [? _]. }
  pose proof (push_index t E n Hs HE Hn Ht) as Hi. unfold bd_push. simpl.
  set (ix := sort_search _ _) in *. clearbody ix. destruct Hi as (Hix & Hlo & Hhi).
  destruct (decide (length E < k)) as [Hlt|Hge].
  - rewrite length_app. simpl. rewrite decide_False by lia. rewrite slide_in_eq by done. split; [|done].
    destruct (insert_sorted t ix n E Hs Hlo Hhi) as [Hs' Hp'].
    destruct rest as [|z rest]; [|specialize (Hfull ltac:(done)); lia].
    rewrite app_nil_r in Hp. split; [done|]. simpl. split; [rewrite Hp'; simpl; lia|].
    exists []. rewrite app_nil_r, Hp', Hp. split_and!; [done|done|]. intros x y _ []%not_elem_of_nil.
  - assert (length E = k) as Hlen by lia. destruct (decide (ix = length E)) as [He|Hne].
    + split; [|done]. split; [done|]. split; [done|]. exists (n :: rest). simpl.
      split_and!; [by rewrite Hp, Permutation_middle|done|].
      intros x y Hx [->|Hy]%elem_of_cons; [|by apply Hrest].
      rewrite take_ge in Hlo by lia. exact (proj1 (Forall_forall _ _) Hlo x Hx).
    + destruct E as [|z E _] using rev_ind; [simpl in *; lia|].
      rewrite length_app in *. simpl in *.
      rewrite slide_in_eq by lia. rewrite take_app_le in Hlo by lia. rewrite drop_app_le in Hhi by lia.
      apply Forall_app in Hhi as [Hhi Hz]. apply Forall_inv in Hz. simpl in Hz.
      pose proof (StronglySorted_app_1_l _ _ _ Hs) as HsE.
      destruct (insert_sorted t ix n E HsE Hlo Hhi) as [Hs' Hp'].
      split; [|done]. split; [done|]. simpl. split; [rewrite Hp'; simpl; lia|].
      exists (z :: rest). rewrite Hp'. split_and!.
      * rewrite Hp. simpl. rewrite <- app_assoc. done.
      * intros _. simpl. lia.
      * intros x y Hx Hy. rewrite Hp' in Hx. unfold near.
        assert (dist_to t x ≤ dist_to t z)%Z as Hxz.
        { apply elem_of_cons in Hx as [->|Hx]; [lia|].
          apply (StronglySorted_app_1_elem_of (near t) _ _ x z Hs Hx). by apply list_elem_of_singleton. }
        apply elem_of_cons in Hy as [->|Hy]; [done|].
        assert (near t z y) as Hzy by (apply Hrest; [apply elem_of_app; right; by apply list_elem_of_singleton|done]).
        unfold near in Hzy. lia.
Qed.

Lemma nearest_nil k t : nearest k [] (MkByDist [] t).
Proof.
  split_and!; [constructor|simpl; lia|]. exists []. split_and!; [done|done|]. intros x y []%not_elem_of_nil.
Qed.

Lemma nearest_perm k l l' h : l ≡ₚ l' → nearest k l h → nearest k l' h.
Proof. intros E (? & ? & rest & Hp & ?). split_and!; [done..|]. exists rest. by rewrite <- E. Qed.

(** Pushing a list of nodes one after the other. *)
Lemma push_all_nearest k l h l0 :
  nearest k l0 h → Forall sha_wf l0 → Forall sha_wf l → length (bd_target h) = 32 →
  let h' := foldl (λ h n, bd_push h n k) h l in
  nearest k (l0 ++ l) h' ∧ bd_target h' = bd_target h.
Proof.
  revert h l0. induction l as [|n l IH]; intros h l0 Hn H0 Hl Ht; [simpl; by rewrite app_nil_r|].
  apply Forall_cons in Hl as [Hn' Hl]. simpl.
  destruct (push_nearest k l0 h n Hn H0 Hn' Ht) as [Hp Et].
  destruct (IH _ (n :: l0) Hp) as [IH1 IH2]; [by constructor|done|by rewrite Et|].
  split; [|by rewrite IH2]. eapply nearest_perm; [|exact IH1]. simpl. by rewrite Permutation_middle.
Qed.

(** ** The text form of identifiers *)

Lemma hex_digit_value c :
  fromHexChar (hex_digit (byteZ c / 16)) = Some (byteZ c / 16)%Z ∧
  fromHexChar (hex_digit (byteZ c mod 16)) = Some (byteZ c mod 16)%Z ∧
  hex_digit (byteZ c mod 16) ≠ x78.
Proof. by destruct c. Qed.

Lemma DecodeString_encode b : DecodeString (hex_encode b) = Ok b.
Proof.
  induction b as [|c b IH]; [done|]. unfold hex_encode in *. cbn -[fromHexChar hex_digit].
  destruct (hex_digit_value c) as (-> & -> & _). rewrite IH. simpl.
  rewrite <- Z.div_mod by lia. by rewrite byte_of_Z_byteZ.
Qed.

Lemma trim_0x_encode b : trim_0x (hex_encode b) = hex_encode b.
Proof.
  destruct b as [|c b]; [done|]. change (hex_encode (c :: b)) with
    (hex_digit (byteZ c / 16) :: hex_digit (byteZ c mod 16) :: hex_encode b).
  destruct (hex_digit_value c) as (_ & _ & Hne). unfold trim_0x.
  destruct (hex_digit (byteZ c / 16)); try done. destruct (hex_digit (byteZ c mod 16)); done.
Qed.

Lemma BytesID_ok id : nodeid_wf id → BytesID id = Ok id.
Proof.
  unfold nodeid_wf, BytesID. intros E. rewrite decide_False by (intros []; done). f_equal. apply go_copy_full.
  unfold EmptyNodeID. by rewrite length_replicate.
Qed.

(** ** Claims *)

(** An identifier read back from its text, with or without the prefix
    [0x], is the identifier; whatever text or bytes are accepted, the
    identifier has sixty-four bytes, and the [Must] variants panic exactly on
    what the others refuse. *)
Theorem node_id_text id s :
  nodeid_wf id →
  HexID (nodeid_MarshalText id) = Ok id ∧ HexID (x30 :: x78 :: nodeid_String id) = Ok id ∧
  nodeid_UnmarshalText s (nodeid_MarshalText id) = (id, None) ∧
  MustHexID (nodeid_String id) = Ok id ∧ BytesID id = Ok id ∧
  (∀ id', HexID s = Ok id' → nodeid_wf id') ∧ (∀ id', BytesID s = Ok id' → id' = s) ∧
  (MustHexID s = Panic ↔ ∀ id', HexID s ≠ Ok id') ∧ (MustBytesID s = Panic ↔ length s ≠ SizeNodeID).
Proof.
  intros Hid.
  assert (HexID (x30 :: x78 :: hex_encode id) = Ok id) as H1.
  { unfold HexID. simpl. rewrite DecodeString_encode. simpl. exact (BytesID_ok id Hid). }
  assert (HexID (hex_encode id) = Ok id) as H2.
  { unfold HexID. rewrite trim_0x_encode, DecodeString_encode. exact (BytesID_ok id Hid). }
  unfold nodeid_UnmarshalText, nodeid_MarshalText, nodeid_String. split_and!; try done.
  - by rewrite H2.
  - unfold MustHexID. by rewrite H2.
  - by apply BytesID_ok.
  - intros id'. unfold HexID. destruct (DecodeString _) as [b|e|]; simpl; [|done..].
    case_decide; [done|]. intros [= <-]. unfold nodeid_wf, EmptyNodeID. by rewrite go_copy_length, length_replicate.
  - intros id' E. assert (nodeid_wf s) as Hs by (unfold BytesID in E; case_decide; [done|unfold nodeid_wf; lia]).
    rewrite (BytesID_ok s Hs) in E. by injection E.
  - unfold MustHexID. destruct (HexID s) as [i|e|]; split; intros H; try done. by destruct (H i).
  - unfold MustBytesID. destruct (decide (length s = SizeNodeID)) as [Hs|Hs].
    + rewrite (BytesID_ok s Hs). split; intros; done.
    + unfold BytesID. rewrite decide_True by done. split; intros; done.
Qed.

Lemma node_id_text_witness :
  HexID (nodeid_MarshalText (replicate 64 xab)) = Ok (replicate 64 xab) ∧ MustHexID [x30] = Panic.
Proof.
  destruct (node_id_text (replicate 64 xab) [x30] eq_refl) as (H1 & _ & _ & _ & _ & _ & _ & H2 & _).
  split; [exact H1|]. apply H2. vm_compute. intros id' [=].
Defined.

(** [distcmp] orders hashes by the exclusive or with the target read as a
    big-endian integer, and [logdist] is the number of bits of that integer;
    the distance is a metric with unique nearest points. *)
Theorem xor_metric t a b :
  length t = 32 → length a = 32 → length b = 32 →
  distcmp t a b = sign_of (Z.compare (xor_dist a t) (xor_dist b t)) ∧
  (distcmp t a b = 0%Z ↔ a = b) ∧
  logdist a b = (if decide (a = b) then 0 else S (Z.to_nat (Z.log2 (xor_dist a b)))) ∧
  logdist a b ≤ 256 ∧ logdist a b = logdist b a.
Proof.
  intros Ht Ha Hb. pose proof (distcmp_compare t a b ltac:(lia) ltac:(lia)) as Hc.
  destruct (logdist_log2_core a b ltac:(lia)) as [Hle Hl].
  destruct (logdist_log2_core b a ltac:(lia)) as [_ Hl'].
  split_and!; [done| |done|unfold logdist; lia|].
  - rewrite Hc. split.
    + destruct (Z.compare_spec (xor_dist a t) (xor_dist b t)) as [E| |]; [|done..].
      intros _. apply (xor_dist_inj a b t); [lia|lia|done].
    + intros ->. by rewrite Z.compare_refl.
  - rewrite Hl, Hl', xor_dist_comm. repeat case_decide; simplify_eq; done.
Qed.

Lemma xor_metric_witness :
  logdist (replicate 32 x00) (replicate 31 x00 ++ [x05]) = 3 ∧
  distcmp (replicate 32 x00) (replicate 32 x01) (replicate 32 x02) = (-1)%Z.
Proof.
  destruct (xor_metric (replicate 32 x00) (replicate 32 x00) (replicate 31 x00 ++ [x05]) eq_refl eq_refl eq_refl)
    as (_ & _ & H1 & _).
  destruct (xor_metric (replicate 32 x00) (replicate 32 x01) (replicate 32 x02) eq_refl eq_refl eq_refl)
    as (H2 & _). split; [rewrite H1; reflexivity|rewrite H2; reflexivity].
Defined.

(** [hashAtDistance] gives a hash at exactly the distance asked for,
    whatever the random bytes. *)
Theorem hash_at_distance rnd a n :
  length a = 32 → n ≤ 256 →
  ∃ b, hashAtDistance rnd a n = Ok b ∧ length b = 32 ∧ logdist a b = n.
Proof. apply hashAtDistance_core. Qed.

Lemma hash_at_distance_witness :
  ∃ b, hashAtDistance (λ i, byte_of_Z (Z.of_nat i)) (replicate 32 x5a) 16 = Ok b ∧ length b = 32 ∧
       logdist (replicate 32 x5a) b = 16.
Proof. exact (hash_at_distance _ (replicate 32 x5a) 16 eq_refl ltac:(lia)). Defined.
