(* ===== verification/KadTable.v ===== *)
(** * The node table

    [p2p/discover/table.go]: the buckets of known nodes with their live
    entries, replacements and address limits, and the operations that change
    them: [add], [stuff], [delete], revalidation, seeding, and the readers
    [closest] and [ReadRandomNodes].  Every operation holds the table's mutex
    while it runs, so a run of the table is a sequence of these operations;
    [table_step] is that relation.  A method of the code that takes a bucket
    [b] works on a bucket of the table; here it takes the table and the bucket
    and returns both, and the operation stores the bucket back.  Random
    choices, the clock and the answers of the network are arguments. *)

From S2P Require Import Prelude CommonTypes Netutil Discover.

Set Default Goal Selector "!".
Set Default Proof Using "Type".

(** ** Constants *)

Definition alpha : nat := 3.
Definition bucketSize : nat := 16.
Definition maxReplacements : nat := 10.
Definition hashBits : nat := 32 * 8.
Definition nBuckets : nat := hashBits / 15.
Definition bucketMinDistance : nat := hashBits - nBuckets.
Definition bucketIPLimit : Z := 2.
Definition bucketSubnet : nat := 24.
Definition tableIPLimit : Z := 10.
Definition tableSubnet : nat := 24.
Definition maxFindnodeFailures : Z := 5.
(** Durations in nanoseconds. *)
Definition seedMinTableTime : Z := 5 * 60 * 10 ^ 9.
Definition revalidateInterval : Z := 10 * 10 ^ 9.
Definition seedCount : nat := 30.
Definition seedMaxAge : Z := 5 * 24 * 3600 * 10 ^ 9.

(** ** State *)

Record bucket := MkBucket {
  b_entries : list Node;
  b_replacements : list Node;
  b_ips : DistinctNetSet
}.

(** [t_addedAt] is the field [addedAt] of the nodes, by address; a node that
    was never added has the zero time. *)
Record Table := MkTable {
  t_buckets : list bucket;
  t_nursery : list Node;
  t_ips : DistinctNetSet;
  t_self : Node;
  t_initDone : bool;
  t_addedAt : gmap positive Z
}.

Definition set_bucket (i : nat) (b : bucket) (t : Table) : Table :=
  MkTable (<[i := b]> (t_buckets t)) (t_nursery t) (t_ips t) (t_self t) (t_initDone t) (t_addedAt t).
Definition set_tips (s : DistinctNetSet) (t : Table) : Table :=
  MkTable (t_buckets t) (t_nursery t) s (t_self t) (t_initDone t) (t_addedAt t).
Definition set_addedAt (p : positive) (now : Z) (t : Table) : Table :=
  MkTable (t_buckets t) (t_nursery t) (t_ips t) (t_self t) (t_initDone t) (<[p := now]> (t_addedAt t)).
Definition set_nursery (ns : list Node) (t : Table) : Table :=
  MkTable (t_buckets t) ns (t_ips t) (t_self t) (t_initDone t) (t_addedAt t).

(** ** Lists of nodes *)

(** [pushNode], [max] positive: a full list loses its last node. *)
Definition pushNode (l : list Node) (n : Node) (max : nat) : list Node * option Node :=
  if decide (length l < max) then (n :: l, None) else (n :: take (length l - 1) l, last l).

Fixpoint deleteNode (l : list Node) (n : Node) : list Node :=
  match l with
  | [] => []
  | x :: rest => if decide (n_ID x = n_ID n) then rest else x :: deleteNode rest n
  end.

(** The loop of [bump]: the first entry with the identifier. *)
Fixpoint index_of (id : NodeID) (i : nat) (l : list Node) : option nat :=
  match l with
  | [] => None
  | x :: rest => if decide (n_ID x = id) then Some i else index_of id (S i) rest
  end.

(** [copy(b.entries[1:], b.entries[:i]); b.entries[0] = n]. *)
Definition bump (b : bucket) (n : Node) : bucket * bool :=
  match index_of (n_ID n) 0 (b_entries b) with
  | Some i => (MkBucket (n :: go_copy (drop 1 (b_entries b)) (take i (b_entries b))) (b_replacements b) (b_ips b), true)
  | None => (b, false)
  end.

(** ** Addresses *)

Definition addIP (t : Table) (b : bucket) (ip : IP) : Table * bucket * bool :=
  if IsLAN ip then (t, b, true) else
  let '(tips, ok) := ns_Add (t_ips t) ip in
  let t := set_tips tips t in
  if negb ok then (t, b, false) else
  let '(bips, ok) := ns_Add (b_ips b) ip in
  let b := MkBucket (b_entries b) (b_replacements b) bips in
  if negb ok then (set_tips (ns_Remove (t_ips t) ip) t, b, false) else (t, b, true).

Definition removeIP (t : Table) (b : bucket) (ip : IP) : Table * bucket :=
  if IsLAN ip then (t, b) else
  (set_tips (ns_Remove (t_ips t) ip) t, MkBucket (b_entries b) (b_replacements b) (ns_Remove (b_ips b) ip)).

(** ** Buckets *)

Definition addReplacement (t : Table) (b : bucket) (n : Node) : Table * bucket :=
  if existsb (λ e, bool_decide (n_ID e = n_ID n)) (b_replacements b) then (t, b) else
  let '(t, b, ok) := addIP t b (n_IP n) in
  if negb ok then (t, b) else
  let '(repl, removed) := pushNode (b_replacements b) n maxReplacements in
  let b := MkBucket (b_entries b) repl (b_ips b) in
  match removed with Some r => removeIP t b (n_IP r) | None => (t, b) end.

Definition deleteInBucket (t : Table) (b : bucket) (n : Node) : Table * bucket :=
  removeIP t (MkBucket (deleteNode (b_entries b) n) (b_replacements b) (b_ips b)) (n_IP n).

Definition bumpOrAdd (t : Table) (b : bucket) (n : Node) (now : Z) : Table * bucket * bool :=
  match bump b n with
  | (b, true) => (t, b, true)
  | (b, false) =>
    if decide (bucketSize ≤ length (b_entries b)) then (t, b, false) else
    let '(t, b, ok) := addIP t b (n_IP n) in
    if negb ok then (t, b, false) else
    let '(ents, _) := pushNode (b_entries b) n bucketSize in
    (set_addedAt (n_ptr n) now t, MkBucket ents (deleteNode (b_replacements b) n) (b_ips b), true)
  end.

(** [r] is the result of [tab.rand.Intn(len(b.replacements))]. *)
Definition replace (t : Table) (b : bucket) (lastn : Node) (r : nat) : Table * bucket * option Node :=
  match last (b_entries b) with
  | None => (t, b, None)
  | Some e =>
    if decide (n_ID e ≠ n_ID lastn) then (t, b, None) else
    if decide (length (b_replacements b) = 0) then (deleteInBucket t b lastn, None) else
    match b_replacements b !! (r mod length (b_replacements b)) with
    | None => (t, b, None)
    | Some r =>
      let b := MkBucket (<[length (b_entries b) - 1 := r]> (b_entries b)) (deleteNode (b_replacements b) r) (b_ips b) in
      (removeIP t b (n_IP lastn), Some r)
    end
  end.

(** ** The table *)

(** The index of the bucket of a hash; indexing an array out of range would
    panic, which [bucket_in_range] rules out. *)
Definition bucket_index (t : Table) (sha : bytes) : nat :=
  let d := logdist (n_sha (t_self t)) sha in
  if decide (d ≤ bucketMinDistance) then 0 else d - bucketMinDistance - 1.

Definition empty_bucket : bucket := MkBucket [] [] (MkNetSet bucketSubnet bucketIPLimit ∅).
Definition get_bucket (t : Table) (i : nat) : bucket := default empty_bucket (t_buckets t !! i).

(** The part of [newTable] that builds the table. *)
Definition newTable_state (self : Node) (nursery : list Node) : Table :=
  MkTable (replicate nBuckets empty_bucket) nursery (MkNetSet tableSubnet tableIPLimit ∅) self false ∅.

Definition add (t : Table) (n : Node) (now : Z) : Table :=
  let i := bucket_index t (n_sha n) in
  let '(t, b, ok) := bumpOrAdd t (get_bucket t i) n now in
  if ok then set_bucket i b t else
  let '(t, b) := addReplacement t b n in set_bucket i b t.

Definition addThroughPing (t : Table) (n : Node) (now : Z) : Table :=
  if t_initDone t then add t n now else t.

Definition stuff_one (now : Z) (t : Table) (n : Node) : Table :=
  if decide (n_ID n = n_ID (t_self t)) then t else
  let i := bucket_index t (n_sha n) in
  let b := get_bucket t i in
  if decide (length (b_entries b) < bucketSize) then
    let '(t, b, _) := bumpOrAdd t b n now in set_bucket i b t
  else t.
Definition stuff (t : Table) (nodes : list Node) (now : Z) : Table := foldl (stuff_one now) t nodes.

Definition delete_node (t : Table) (n : Node) : Table :=
  let i := bucket_index t (n_sha n) in
  let '(t, b) := deleteInBucket t (get_bucket t i) n in set_bucket i b t.

(** [seeds] is the answer of the node database. *)
Definition loadSeedNodes (t : Table) (seeds : list Node) (now : Z) : Table :=
  foldl (λ t n, add t n now) t (seeds ++ t_nursery t).

(** [perm] is the permutation [tab.rand.Perm] returns. *)
Fixpoint nodeToRevalidate (t : Table) (perm : list nat) : option (Node * nat) :=
  match perm with
  | [] => None
  | bi :: perm => match last (b_entries (get_bucket t bi)) with
                  | Some n => Some (n, bi)
                  | None => nodeToRevalidate t perm
                  end
  end.

(** The second critical section of [doRevalidate]: [pong] tells whether the
    ping was answered. *)
Definition revalidated (t : Table) (lastn : Node) (bi : nat) (pong : bool) (r : nat) : Table :=
  let b := get_bucket t bi in
  if pong then set_bucket bi (bump b lastn).1 t
  else let '(t, b, _) := replace t b lastn r in set_bucket bi b t.

Definition entries_of (t : Table) : list Node := t_buckets t ≫= b_entries.

Definition closest (t : Table) (target : bytes) (nresults : nat) : nodesByDistance :=
  foldl (λ h b, foldl (λ h n, bd_push h n nresults) h (b_entries b)) (MkByDist [] target) (t_buckets t).

Definition tab_len (t : Table) : nat := foldl (λ n b, n + length (b_entries b)) 0 (t_buckets t).

(** The nodes [copyLiveNodes] writes to the node database. *)
Definition copyLiveNodes (t : Table) (now : Z) : list Node :=
  t_buckets t ≫= λ b, filter (λ n, seedMinTableTime ≤ now - default 0 (t_addedAt t !! n_ptr n))%Z (b_entries b).

(** [setFallbackNodes]: nothing is changed when a node is not valid; the
    copies get new addresses. *)
Definition setFallbackNodes `{Curve} (t : Table) (new : nat → positive) (nodes : list Node) : outcome Table :=
  if existsb (λ n, match validateComplete n with Some _ => true | None => false end) nodes then Err ErrExternal
  else Ok (set_nursery (imap (λ i n, MkNode (new i) (n_IP n) (n_UDP n) (n_TCP n) (n_ID n) (n_IsWebrtc n)
                                       (n_IsP2P n) (n_PeerID n) (n_PeerInfo n) (Keccak256 (n_ID n))) nodes) t).

(** [ReadRandomNodes]: [rnd i] is the draw [tab.rand.Intn(len(buckets))] at
    step [i] of the shuffle; the slice has [lenbuf] places, and the result is
    the returned number with the nodes written.  The nodes are the table's
    own, [&( *b[0])] being [b[0]]. *)
Definition swap {A} (i j : nat) (l : list A) : list A :=
  match l !! i, l !! j with Some x, Some y => <[j := x]> (<[i := y]> l) | _, _ => l end.
Fixpoint shuffle_buckets {A} (rnd : nat → nat) (i : nat) (l : list A) : list A :=
  match i with
  | O => l
  | S i' => shuffle_buckets rnd i' (swap i (rnd i mod length l) l)
  end.
Fixpoint read_loop (fuel lenbuf i j : nat) (buckets : list (list Node)) (buf : list Node) : outcome (nat * list Node) :=
  match fuel with
  | O => Panic
  | S fuel =>
    if decide (lenbuf ≤ i) then Ok (i + 1, buf) else
    match buckets !! j with
    | Some (n :: b) =>
      let buckets := if decide (b = []) then take j buckets ++ drop (S j) buckets else <[j := b]> buckets in
      if decide (length buckets = 0) then Ok (i + 1, buf ++ [n])
      else read_loop fuel lenbuf (i + 1) ((j + 1) mod length buckets) buckets (buf ++ [n])
    | _ => Panic
    end
  end.
Definition ReadRandomNodes (t : Table) (rnd : nat → nat) (lenbuf : nat) : outcome (nat * list Node) :=
  if negb (t_initDone t) then Ok (0, []) else
  let buckets := filter (λ l, l ≠ []) (b_entries <$> t_buckets t) in
  if decide (length buckets = 0) then Ok (0, []) else
  read_loop (S lenbuf) lenbuf 0 0 (shuffle_buckets rnd (length buckets - 1) buckets) [].

(** ** Lemmas on the lists *)

Lemma Forall_sublist {A} (P : A → Prop) l1 l2 : l1 `sublist_of` l2 → Forall P l2 → Forall P l1.
Proof. rewrite !Forall_forall. intros Hs H x Hx. apply H. by eapply elem_of_sublist. Qed.

Lemma deleteNode_spec l n :
  ((n_ID n ∉ n_ID <$> l) ∧ deleteNode l n = l) ∨
  ∃ l1 x l2, l = l1 ++ x :: l2 ∧ n_ID x = n_ID n ∧ (n_ID n ∉ n_ID <$> l1) ∧ deleteNode l n = l1 ++ l2.
Proof.
  induction l as [|x l IH]; [left; split; [apply not_elem_of_nil|done]|]. simpl.
  destruct (decide (n_ID x = n_ID n)) as [E|Hne].
  - right. exists [], x, l. split_and!; [done|done|apply not_elem_of_nil|done].
  - destruct IH as [[Hn ->]|(l1 & y & l2 & -> & Hy & Hn & ->)].
    + left. split; [|done]. csimpl. rewrite not_elem_of_cons. done.
    + right. exists (x :: l1), y, l2. split_and!; [done|done| |done]. csimpl. rewrite not_elem_of_cons. done.
Qed.

Lemma deleteNode_sublist l n : deleteNode l n `sublist_of` l.
Proof.
  destruct (deleteNode_spec l n) as [[_ ->]|(l1 & x & l2 & -> & _ & _ & ->)]; [done|].
  apply sublist_app; [done|]. by apply sublist_cons.
Qed.

Lemma index_of_spec id k l :
  match index_of id k l with
  | Some i => k ≤ i ∧ ∃ e, l !! (i - k) = Some e ∧ n_ID e = id
  | None => id ∉ n_ID <$> l
  end.
Proof.
  revert k. induction l as [|x l IH]; intros k; simpl; [apply not_elem_of_nil|].
  destruct (decide (n_ID x = id)) as [E|Hne].
  - split; [done|]. exists x. by rewrite Nat.sub_diag.
  - specialize (IH (S k)). destruct (index_of id (S k) l) as [i|].
    + destruct IH as (Hk & e & He & ?). split; [lia|]. exists e. split; [|done].
      replace (i - k) with (S (i - S k)) by lia. done.
    + csimpl. rewrite not_elem_of_cons. split; [|done]. intros ->. done.
Qed.

Lemma bump_spec b n :
  let '(b', found) := bump b n in
  b_replacements b' = b_replacements b ∧ b_ips b' = b_ips b ∧
  if found then
    ∃ l1 e l2, b_entries b = l1 ++ e :: l2 ∧ n_ID e = n_ID n ∧ b_entries b' = n :: l1 ++ l2
  else b' = b ∧ n_ID n ∉ n_ID <$> b_entries b.
Proof.
  unfold bump. pose proof (index_of_spec (n_ID n) 0 (b_entries b)) as Hi.
  destruct (index_of _ _ _) as [i|]; [|done]. destruct Hi as (_ & e & He & Eid).
  rewrite Nat.sub_0_r in He. simpl. split_and!; [done..|].
  exists (take i (b_entries b)), e, (drop (S i) (b_entries b)).
  pose proof (lookup_lt_Some _ _ _ He) as Hlt.
  split_and!; [by rewrite (take_drop_middle _ _ _ He)|done|].
  unfold go_copy. rewrite drop_drop, length_drop, length_take, take_take.
  replace ((length (b_entries b) - 1) `min` i) with i by lia.
  by replace (1 + i `min` length (b_entries b)) with (S i) by lia.
Qed.

Lemma bump_perm b n :
  n_ID <$> b_entries (bump b n).1 ≡ₚ n_ID <$> b_entries b.
Proof.
  pose proof (bump_spec b n) as H. destruct (bump b n) as [b' [|]]; [|by destruct H as (_ & _ & -> & _)].
  destruct H as (_ & _ & l1 & e & l2 & -> & E & Hb). simpl. rewrite Hb. csimpl. rewrite <- E, fmap_app.
  by rewrite fmap_app, fmap_cons, Permutation_middle.
Qed.

(** A full list loses its last node. *)
Lemma pushNode_spec l n max :
  0 < max → length l ≤ max →
  ∃ kept, (pushNode l n max).1 = n :: kept ∧ length kept < max ∧ l = kept ++ option_list (pushNode l n max).2.
Proof.
  intros Hm Hl. unfold pushNode. case_decide as Hd.
  - exists l. split_and!; [done..|by rewrite app_nil_r].
  - assert (length l = max) as Hlen by lia. destruct l as [|z l _] using rev_ind; [simpl in *; lia|].
    rewrite length_app, Nat.add_sub in *. simpl in *.
    exists l. rewrite take_app_length, last_snoc. split_and!; [done|lia|done].
Qed.

(** ** Lemmas on the address limits *)

Definition key24 (ip : IP) : bytes := ns_key (MkNetSet 24 0 ∅) ip.
Lemma ns_key_24 s ip : ns_Subnet s = 24 → ns_key s ip = key24 ip.
Proof. unfold key24, ns_key. by intros ->. Qed.

Definition ips_ok (limit : Z) (s : DistinctNetSet) : Prop :=
  ns_Subnet s = 24 ∧ ns_Limit s = limit ∧ ns_inv s.
Definition counted (ip : IP) (k : bytes) : bool := negb (IsLAN ip) && bool_decide (k = key24 ip).

(** Nothing but the address set and [addedAt] changes. *)
Definition same_but_ips (t t' : Table) : Prop :=
  t_buckets t' = t_buckets t ∧ t_nursery t' = t_nursery t ∧ t_self t' = t_self t ∧ t_initDone t' = t_initDone t.
Definition same_lists (b b' : bucket) : Prop :=
  b_entries b' = b_entries b ∧ b_replacements b' = b_replacements b.

#[global] Instance same_but_ips_refl : Reflexive same_but_ips.
Proof. done. Qed.
#[global] Instance same_but_ips_trans : Transitive same_but_ips.
Proof. intros x y z (?&?&?&?) (?&?&?&?). split_and!; congruence. Qed.

Definition limits_ok (t : Table) (b : bucket) : Prop := ips_ok tableIPLimit (t_ips t) ∧ ips_ok bucketIPLimit (b_ips b).

Lemma add_count l s ip :
  ips_ok l s →
  let '(s', ok) := ns_Add s ip in
  ips_ok l s' ∧ (ok = false → s' = s) ∧
  ∀ k, ns_count s' k = (ns_count s k + if ok && bool_decide (k = key24 ip) then 1 else 0)%Z.
Proof.
  intros (H1 & H2 & H3). pose proof (ns_Add_spec s ip H3) as Ha.
  assert (∀ s' ok, ns_Add s ip = (s', ok) → ok = false → s' = s) as Hf.
  { unfold ns_Add. intros s' ok. destruct (_ <? _)%Z; congruence. }
  destruct (ns_Add s ip) as [s' ok] eqn:E. destruct Ha as (_ & Es & El & Hi & Hc).
  split; [split_and!; [by rewrite Es|by rewrite El|done]|split; [by apply Hf|]].
  intros k. by rewrite Hc, (ns_key_24 s ip H1).
Qed.

Lemma remove_count l s ip :
  ips_ok l s →
  ips_ok l (ns_Remove s ip) ∧
  ∀ k, ns_count (ns_Remove s ip) k =
       if bool_decide (k = key24 ip) then (0 `max` (ns_count s k - 1))%Z else ns_count s k.
Proof.
  intros (H1 & H2 & H3). destruct (ns_Remove_spec s ip H3) as (Es & El & Hi & Hc).
  split; [split_and!; [by rewrite Es|by rewrite El|done]|]. intros k. by rewrite Hc, (ns_key_24 s ip H1).
Qed.

Lemma addIP_spec t b ip t' b' ok :
  limits_ok t b → addIP t b ip = (t', b', ok) →
  same_but_ips t t' ∧ same_lists b b' ∧ limits_ok t' b' ∧
  ∀ k, ns_count (b_ips b') k = (ns_count (b_ips b) k + Z.b2z (ok && counted ip k))%Z ∧
       ns_count (t_ips t') k = (ns_count (t_ips t) k + Z.b2z (ok && counted ip k))%Z.
Proof.
  intros [Ht Hb]. unfold addIP, counted. destruct (IsLAN ip).
  { intros [= <- <- <-]. simpl. split_and!; [done..|]. intros k. lia. }
  pose proof (add_count _ _ ip Ht) as At. destruct (ns_Add (t_ips t) ip) as [ts [|]]; cbn [negb].
  2:{ intros [= <- <- <-]. destruct At as (? & E & _). rewrite (E eq_refl). split_and!; try done. intros k. simpl. lia. }
  destruct At as (Ht' & _ & Ct).
  pose proof (add_count _ _ ip Hb) as Ab. destruct (ns_Add (b_ips b) ip) as [bs [|]]; cbn [negb].
  - destruct Ab as (Hb' & _ & Cb). intros [= <- <- <-]. by split_and!.
  - destruct Ab as (_ & E & _). rewrite (E eq_refl). intros [= <- <- <-]. simpl.
    destruct (remove_count _ _ ip Ht') as [Ht'' Cr]. split_and!; try done.
    intros k. cbn [andb Z.b2z]. rewrite Cr. rewrite Ct. destruct (ns_count_range (t_ips t) k) as [? _]; [apply Ht|].
    simpl. case_bool_decide; lia.
Qed.

Lemma removeIP_spec t b ip t' b' :
  limits_ok t b → removeIP t b ip = (t', b') →
  same_but_ips t t' ∧ same_lists b b' ∧ limits_ok t' b' ∧
  ∀ k, ns_count (b_ips b') k = (if counted ip k then 0 `max` (ns_count (b_ips b) k - 1) else ns_count (b_ips b) k)%Z ∧
       ns_count (t_ips t') k = (if counted ip k then 0 `max` (ns_count (t_ips t) k - 1) else ns_count (t_ips t) k)%Z.
Proof.
  intros [Ht Hb]. unfold removeIP, counted. destruct (IsLAN ip); [by intros [= <- <-]|].
  intros [= <- <-]. destruct (remove_count _ _ ip Ht) as [? Ct]. destruct (remove_count _ _ ip Hb) as [? Cb].
  by split_and!.
Qed.

(** ** One bucket *)

Definition nodes_of (b : bucket) : list Node := b_entries b ++ b_replacements b.

(** How many addresses of a list count against the subnet [k]. *)
Fixpoint load (k : bytes) (l : list Node) : Z :=
  match l with [] => 0 | n :: l => Z.b2z (counted (n_IP n) k) + load k l end.

Lemma load_app k l1 l2 : load k (l1 ++ l2) = (load k l1 + load k l2)%Z.
Proof. induction l1; simpl; lia. Qed.
Lemma load_nonneg k l : (0 ≤ load k l)%Z.
Proof. induction l as [|n l IH]; simpl; [lia|]. destruct (counted _ _); simpl; lia. Qed.
Lemma load_ge k l n : n ∈ l → (Z.b2z (counted (n_IP n) k) ≤ load k l)%Z.
Proof.
  intros (l1 & l2 & ->)%list_elem_of_split. rewrite load_app. simpl.
  pose proof (load_nonneg k l1). pose proof (load_nonneg k l2). lia.
Qed.

Section bucket_inv.
(** What is asked of every node of the bucket. *)
Context (P : Node → Prop).

Record bkt_ok (b : bucket) : Prop := {
  bk_entries : length (b_entries b) ≤ bucketSize;
  bk_replacements : length (b_replacements b) ≤ maxReplacements;
  bk_nodup : NoDup (n_ID <$> nodes_of b);
  bk_nodes : Forall P (nodes_of b)
}.

(** A node keeps its address. *)
Definition fixed_addr : Prop := ∀ n m, P n → P m → n_ID n = n_ID m → n_IP n = n_IP m.

(** The counters of the bucket, and of the table beside [o] addresses of other
    buckets, are enough for the nodes held. *)
Definition covered (k : bytes) (o : Z) (t : Table) (b : bucket) : Prop :=
  (load k (nodes_of b) ≤ ns_count (b_ips b) k ∧ load k (nodes_of b) + o ≤ ns_count (t_ips t) k)%Z.

(** What an operation on a bucket keeps; the counters under [G]. *)
Definition keeps (G : Prop) (t : Table) (b : bucket) (t' : Table) (b' : bucket) : Prop :=
  same_but_ips t t' ∧ limits_ok t' b' ∧ bkt_ok b' ∧
  (G → ∀ k o, (0 ≤ o)%Z → covered k o t b → covered k o t' b').

Lemma keeps_refl G t b : limits_ok t b → bkt_ok b → keeps G t b t b.
Proof. done. Qed.
Lemma keeps_trans G t b t1 b1 t2 b2 : keeps G t b t1 b1 → keeps G t1 b1 t2 b2 → keeps G t b t2 b2.
Proof.
  intros (? & _ & _ & C1) (? & ? & ? & C2). split; [by transitivity t1|]. split_and!; [done..|].
  intros HG k o Ho Hc. by apply C2, C1.
Qed.

Lemma bkt_ok_frame b b' : bkt_ok b → same_lists b b' → bkt_ok b'.
Proof. intros [? ? ? ?] [E1 E2]. unfold nodes_of in *. split; unfold nodes_of; by rewrite ?E1, ?E2. Qed.

Lemma bump_keeps t b n :
  limits_ok t b → bkt_ok b → P n → keeps fixed_addr t b t (bump b n).1.
Proof.
  intros Hl Hb Hn. pose proof (bump_spec b n) as Hs. destruct (bump b n) as [b' [|]]; simpl.
  2:{ destruct Hs as (_ & _ & -> & _). by apply keeps_refl. }
  destruct Hs as (Er & Ei & l1 & e & l2 & Ee & Eid & Eb). destruct Hb as [B1 B2 B3 B4].
  unfold nodes_of in B3, B4. rewrite Ee in B1, B3, B4.
  split; [done|]. split; [unfold limits_ok; by rewrite Ei|]. split.
  - split; unfold nodes_of; rewrite ?Eb, ?Er.
    + rewrite length_app in B1. simpl in *. rewrite length_app. lia.
    + done.
    + rewrite fmap_app, fmap_cons, fmap_app. rewrite !fmap_app, fmap_cons, Eid in B3.
      by rewrite Permutation_middle.
    + rewrite <- !app_assoc, Forall_app in B4. simpl in B4. rewrite Forall_cons in B4.
      simpl. rewrite Forall_cons, <- app_assoc, Forall_app. naive_solver.
  - intros Hf k o _. unfold covered, nodes_of. rewrite Eb, Ee, Er, Ei.
    assert (n_IP e = n_IP n) as Eip.
    { apply Hf; [|done..]. rewrite Forall_forall in B4. apply B4. set_solver. }
    rewrite !load_app. simpl. rewrite !load_app. simpl. rewrite Eip. lia.
Qed.

Lemma addReplacement_keeps t b n :
  limits_ok t b → bkt_ok b → P n → n_ID n ∉ n_ID <$> b_entries b →
  keeps fixed_addr t b (addReplacement t b n).1 (addReplacement t b n).2.
Proof.
  intros Hl Hb Hn Hne. unfold addReplacement. destruct (existsb _ _) eqn:Ex; [by apply keeps_refl|].
  assert (n_ID n ∉ n_ID <$> b_replacements b) as Hnr.
  { intros (e & Ee & He)%list_elem_of_fmap. apply Bool.not_true_iff_false in Ex. apply Ex, existsb_exists.
    exists e. split; [by apply list_elem_of_In|]. by apply bool_decide_eq_true_2. }
  destruct (addIP t b (n_IP n)) as [[t1 b1] ok] eqn:Ea.
  destruct (addIP_spec _ _ _ _ _ _ Hl Ea) as (Hf & [E1 E2] & Hl1 & Hc).
  destruct ok; simpl; cycle 1.
  { split; [done|]. split; [done|]. split; [by eapply bkt_ok_frame|]. intros _ k o _ [C1 C2].
    destruct (Hc k) as [D1 D2]. unfold covered, nodes_of in *. rewrite E1, E2, D1, D2. simpl. lia. }
  rewrite E2. destruct (pushNode_spec (b_replacements b) n maxReplacements ltac:(unfold maxReplacements; lia) (bk_replacements b Hb))
    as (kept & Ep & Hk & Er). destruct (pushNode _ _ _) as [repl removed]. simpl in Ep, Er. subst repl.
  set (b2 := MkBucket (b_entries b1) (n :: kept) (b_ips b1)).
  assert (bkt_ok b2) as Hb2.
  { destruct Hb as [B1 B2 B3 B4]. unfold nodes_of in B3, B4. rewrite Er in B3, B4, Hnr.
    split; unfold nodes_of; simpl; rewrite ?E1; [done|lia| |].
    - rewrite fmap_app in B3 |- *. rewrite fmap_app, app_assoc in B3. apply NoDup_app in B3 as (B3 & _ & _).
      rewrite fmap_cons, <- Permutation_middle. apply NoDup_cons. split; [|done].
      rewrite fmap_app in Hnr. rewrite elem_of_app in Hnr |- *. naive_solver.
    - rewrite !Forall_app in B4. rewrite Forall_app, Forall_cons. naive_solver. }
  assert (∀ k o, covered k o t b → load k (nodes_of b2) ≤ ns_count (b_ips b2) k - load k (option_list removed) ∧
            load k (nodes_of b2) + o ≤ ns_count (t_ips t1) k - load k (option_list removed))%Z as Hcov.
  { intros k o [C1 C2]. destruct (Hc k) as [D1 D2]. unfold nodes_of in *. simpl. rewrite D1, D2, E1.
    rewrite Er in C1, C2. rewrite !load_app in *. simpl in *. lia. }
  destruct removed as [r|].
  - destruct (removeIP t1 b2 (n_IP r)) as [t3 b3] eqn:Erm.
    destruct (removeIP_spec t1 b2 (n_IP r) t3 b3) as (Hf3 & [E13 E23] & Hl3 & Hc3); [done|done|]. simpl.
    split; [by transitivity t1|]. split; [done|]. split; [by eapply bkt_ok_frame|].
    intros _ k o Ho Hcv. destruct (Hcov k o Hcv) as [C1 C2]. destruct (Hc3 k) as [D1 D2].
    unfold covered, nodes_of. rewrite E13, E23, D1, D2. unfold nodes_of in *. simpl in C1, C2.
    pose proof (load_nonneg k (b_entries b2 ++ b_replacements b2)). simpl in *.
    destruct (counted (n_IP r) k); simpl in *; lia.
  - simpl. split; [done|]. split; [done|]. split; [done|]. intros _ k o _ Hcv. destruct (Hcov k o Hcv) as [C1 C2].
    change (load k (option_list None)) with 0%Z in *. unfold covered. lia.
Qed.

Lemma bumpOrAdd_keeps t b n now t' b' ok :
  limits_ok t b → bkt_ok b → P n → bumpOrAdd t b n now = (t', b', ok) →
  keeps fixed_addr t b t' b' ∧ (ok = false → n_ID n ∉ n_ID <$> b_entries b').
Proof.
  intros Hl Hb Hn. unfold bumpOrAdd. pose proof (bump_keeps t b n Hl Hb Hn) as Hk.
  pose proof (bump_spec b n) as Hs. destruct (bump b n) as [b1 [|]]; [by intros [= <- <- <-]|].
  destruct Hs as (_ & _ & -> & Hne). clear Hk.
  case_decide as Hlen. { intros [= <- <- <-]. split; [by apply keeps_refl|done]. }
  destruct (addIP t b (n_IP n)) as [[t1 b2] ok1] eqn:Ea.
  destruct (addIP_spec _ _ _ _ _ _ Hl Ea) as (Hf & [E1 E2] & Hl1 & Hc).
  destruct ok1; cbn [negb]; cycle 1.
  { intros [= <- <- <-]. split; [|by rewrite E1]. split; [done|]. split; [done|].
    split; [by eapply bkt_ok_frame|]. intros _ k o _ [C1 C2]. destruct (Hc k) as [D1 D2].
    unfold covered, nodes_of in *. rewrite E1, E2, D1, D2. simpl. lia. }
  unfold pushNode. rewrite decide_True by (rewrite E1; lia). intros [= <- <- <-]. split; [|done].
  split; [done|]. split; [done|]. rewrite E1, E2. destruct Hb as [B1 B2 B3 B4].
  pose proof (deleteNode_spec (b_replacements b) n) as Hd.
  pose proof (deleteNode_sublist (b_replacements b) n) as Hsub.
  unfold nodes_of in B3, B4. split.
  - split; unfold nodes_of; simpl.
    + lia.
    + apply sublist_length in Hsub. lia.
    + apply NoDup_cons. split.
      * rewrite fmap_app, elem_of_app. intros [?|Hin]; [done|].
        destruct Hd as [[Hnr E]|(l1 & x & l2 & Er & Ex & Hn1 & E)]; rewrite E in Hin; [done|].
        rewrite fmap_app, elem_of_app in Hin. destruct Hin as [?|Hin]; [done|].
        rewrite Er, !fmap_app, fmap_cons in B3. apply NoDup_app in B3 as (_ & _ & B3).
        apply NoDup_app in B3 as (_ & _ & B3). apply NoDup_cons in B3 as [B3 _]. by rewrite Ex in B3.
      * eapply sublist_NoDup; [exact B3|]. apply fmap_sublist, sublist_app; done.
    + apply Forall_cons. split; [done|]. apply Forall_app. apply Forall_app in B4 as [? B4]. split; [done|].
      eapply Forall_sublist; [exact Hsub|done].
  - intros Hfix k o _ [C1 C2]. destruct (Hc k) as [D1 D2]. unfold covered, nodes_of in *. simpl. rewrite D1, D2.
    rewrite load_app in *.
    assert (load k (deleteNode (b_replacements b) n) ≤ load k (b_replacements b))%Z as Hle.
    { destruct Hd as [[_ ->]|(l1 & x & l2 & El & _ & _ & ->)]; [lia|]. rewrite El, !load_app. simpl.
      destruct (counted (n_IP x) k); simpl; lia. }
    simpl. lia.
Qed.

Lemma deleteInBucket_keeps t b n :
  limits_ok t b → bkt_ok b → P n →
  keeps (fixed_addr ∧ n_ID n ∈ n_ID <$> b_entries b) t b (deleteInBucket t b n).1 (deleteInBucket t b n).2.
Proof.
  intros Hl Hb Hn. unfold deleteInBucket.
  set (b1 := MkBucket (deleteNode (b_entries b) n) (b_replacements b) (b_ips b)).
  pose proof (deleteNode_spec (b_entries b) n) as Hd.
  pose proof (deleteNode_sublist (b_entries b) n) as Hsub.
  destruct Hb as [B1 B2 B3 B4]. unfold nodes_of in B3, B4.
  assert (bkt_ok b1) as Hb1.
  { split; unfold nodes_of; simpl; [by apply sublist_length in Hsub; lia|done| |].
    - eapply sublist_NoDup; [exact B3|]. apply fmap_sublist, sublist_app; done.
    - eapply Forall_sublist; [|exact B4]. by apply sublist_app. }
  destruct (removeIP t b1 (n_IP n)) as [t2 b2] eqn:Er.
  destruct (removeIP_spec t b1 (n_IP n) t2 b2) as (Hf & [E1 E2] & Hl2 & Hc); [done|done|]. simpl.
  split; [done|]. split; [done|]. split; [by eapply bkt_ok_frame|].
  intros [Hfix Hin] k o Ho [C1 C2]. destruct (Hc k) as [D1 D2].
  destruct Hd as [[? _]|(l1 & x & l2 & Ee & Ex & _ & Ed)]; [done|].
  assert (n_IP x = n_IP n) as Eip.
  { apply Hfix; [|done..]. rewrite Forall_forall in B4. apply B4. rewrite Ee. set_solver. }
  unfold covered, nodes_of in *. rewrite E1, E2, D1, D2. subst b1. simpl. rewrite Ed. rewrite Ee in C1, C2.
  rewrite !load_app in *. simpl in *. rewrite Eip in *.
  pose proof (load_nonneg k l1). pose proof (load_nonneg k l2). pose proof (load_nonneg k (b_replacements b)).
  destruct (counted (n_IP n) k); simpl in *; lia.
Qed.

Lemma replace_keeps t b lastn r :
  limits_ok t b → bkt_ok b → P lastn →
  keeps fixed_addr t b (replace t b lastn r).1.1 (replace t b lastn r).1.2.
Proof.
  intros Hl Hb Hn. unfold replace. destruct (last (b_entries b)) as [e|] eqn:Ee; [|by apply keeps_refl].
  apply last_Some in Ee as [E Ee]. case_decide as Hid; [by apply keeps_refl|].
  case_decide as Hlen.
  { pose proof (deleteInBucket_keeps t b lastn Hl Hb Hn) as (K1 & K2 & K3 & K4).
    destruct (deleteInBucket t b lastn) as [t1 b1]. simpl in *. split_and!; [done..|]. intros Hfix k o Ho Hc.
    apply K4; [|done..]. split; [done|]. rewrite Ee, <- Hid. set_solver. }
  destruct (lookup_lt_is_Some_2 (b_replacements b) (r mod length (b_replacements b))) as [x Hx].
  { apply Nat.mod_upper_bound. done. }
  rewrite Hx. simpl. apply list_elem_of_lookup_2 in Hx. clear r Hlen. rename x into r.
  set (b1 := MkBucket _ _ _).
  destruct (removeIP t b1 (n_IP lastn)) as [t2 b2] eqn:Er.
  destruct (removeIP_spec t b1 (n_IP lastn) t2 b2) as (Hf & [E1 E2] & Hl2 & Hc); [done|done|]. simpl.
  pose proof (deleteNode_spec (b_replacements b) r) as [[Hnin _]|(l1 & x & l2 & El & Ex & _ & Ed)].
  { exfalso. apply Hnin. by apply list_elem_of_fmap_2. }
  destruct Hb as [B1 B2 B3 B4]. unfold nodes_of in B3, B4.
  assert (b_entries b1 = E ++ [r]) as Eb1.
  { subst b1. simpl. rewrite Ee, length_app. simpl. by rewrite insert_app_r_alt, Nat.add_sub, Nat.sub_diag by lia. }
  assert (b_replacements b1 = l1 ++ l2) as Er1 by done. assert (b_ips b1 = b_ips b) as Ei1 by done.
  rewrite Ee in B1, B3, B4. rewrite El in B2, B3, B4, Hx. clearbody b1.
  assert (P r) as Pr.
  { apply Forall_app in B4 as [_ B4]. rewrite Forall_forall in B4. by apply B4. }
  rewrite !Forall_app, !Forall_cons, Forall_nil in B4. destruct B4 as ((PE & Pe & _) & P1 & Px & P2).
  assert (bkt_ok b1) as Hb1.
  { split; unfold nodes_of; rewrite ?Eb1, ?Er1.
    - rewrite length_app in *. done.
    - rewrite length_app in *. simpl in B2. lia.
    - rewrite !fmap_app, !fmap_cons, Ex, fmap_nil in B3. rewrite !fmap_app. simpl.
      assert (NoDup ((n_ID <$> E) ++ (n_ID <$> l1) ++ n_ID r :: (n_ID <$> l2))) as B3'.
      { eapply sublist_NoDup; [exact B3|]. apply sublist_app; [|done]. by apply sublist_inserts_r. }
      rewrite <- app_assoc. simpl. by rewrite (Permutation_middle (n_ID <$> l1)).
    - by rewrite !Forall_app, Forall_singleton. }
  split; [done|]. split; [done|]. split; [by eapply bkt_ok_frame|].
  intros Hfix k o Ho [C1 C2]. destruct (Hc k) as [D1 D2].
  assert (n_IP e = n_IP lastn) as Eip by (apply Hfix; done).
  assert (n_IP x = n_IP r) as Eir by (apply Hfix; done).
  unfold covered, nodes_of in *. rewrite E1, E2, D1, D2, Eb1, Er1, Ei1. rewrite Ee, El in C1, C2.
  rewrite !load_app in *. simpl in *. rewrite Eip, Eir in *.
  pose proof (load_nonneg k E). pose proof (load_nonneg k l1). pose proof (load_nonneg k l2).
  destruct (counted (n_IP lastn) k), (counted (n_IP r) k); simpl in *; lia.
Qed.
End bucket_inv.

(** ** The whole table *)

Lemma logdist_le a b : logdist a b ≤ length a * 8.
Proof. unfold logdist. lia. Qed.

Lemma bucket_in_range t sha : length (n_sha (t_self t)) = 32 → bucket_index t sha < nBuckets.
Proof.
  intros Hs. unfold bucket_index. pose proof (logdist_le (n_sha (t_self t)) sha) as Hl. rewrite Hs in Hl.
  change nBuckets with 17. change bucketMinDistance with 239. case_decide; lia.
Qed.

Fixpoint tload (k : bytes) (bs : list bucket) : Z :=
  match bs with [] => 0 | b :: bs => load k (nodes_of b) + tload k bs end.

Lemma tload_nonneg k bs : (0 ≤ tload k bs)%Z.
Proof. induction bs as [|b bs IH]; simpl; [lia|]. pose proof (load_nonneg k (nodes_of b)). lia. Qed.
Lemma tload_ge k bs i b : bs !! i = Some b → (load k (nodes_of b) ≤ tload k bs)%Z.
Proof.
  revert i. induction bs as [|x bs IH]; intros [|i] Hi; simplify_eq/=.
  - pose proof (tload_nonneg k bs). lia.
  - specialize (IH _ Hi). pose proof (load_nonneg k (nodes_of x)). lia.
Qed.
Lemma tload_insert k bs i b b' :
  bs !! i = Some b → (tload k (<[i := b']> bs) = tload k bs - load k (nodes_of b) + load k (nodes_of b'))%Z.
Proof.
  revert i. induction bs as [|x bs IH]; intros [|i] Hi; simplify_eq/=; [lia|].
  rewrite (IH _ Hi). lia.
Qed.

Section table_inv.
(** What is asked of every node of the table. *)
Context (Q : Node → Prop).

Definition in_place (self : Node) (i : nat) (n : Node) : Prop :=
  Q n ∧ sha_wf n ∧
  (if decide (logdist (n_sha self) (n_sha n) ≤ bucketMinDistance) then 0
   else logdist (n_sha self) (n_sha n) - bucketMinDistance - 1) = i.

Record table_ok (t : Table) : Prop := {
  to_len : length (t_buckets t) = nBuckets;
  to_self : sha_wf (t_self t);
  to_ips : ips_ok tableIPLimit (t_ips t);
  to_nursery : Forall (λ n, Q n ∧ sha_wf n) (t_nursery t);
  to_buckets i b : t_buckets t !! i = Some b →
    bkt_ok (in_place (t_self t) i) b ∧ ips_ok bucketIPLimit (b_ips b)
}.

(** The counters are enough for the nodes held, in every bucket and in the
    table. *)
Definition covered_all (t : Table) : Prop := ∀ k,
  (∀ i b, t_buckets t !! i = Some b → load k (nodes_of b) ≤ ns_count (b_ips b) k)%Z ∧
  (tload k (t_buckets t) ≤ ns_count (t_ips t) k)%Z.

Definition addr_fixed : Prop := ∀ n m, Q n → Q m → n_ID n = n_ID m → n_IP n = n_IP m.

Lemma addr_fixed_in_place self i : addr_fixed → fixed_addr (in_place self i).
Proof. intros H n m [Hn _] [Hm _]. by apply H. Qed.

(** An operation on one bucket that keeps its invariant keeps the table's. *)
Lemma set_bucket_ok G t i t' b' :
  table_ok t → i < nBuckets → keeps (in_place (t_self t) i) G t (get_bucket t i) t' b' →
  table_ok (set_bucket i b' t') ∧ (G → covered_all t → covered_all (set_bucket i b' t')).
Proof.
  intros [T1 T2 T3 T4 T5] Hi ((F1 & F2 & F3 & F4) & [L1 L2] & Hb & Hcov).
  destruct (lookup_lt_is_Some_2 (t_buckets t) i ltac:(lia)) as [b0 Hb0].
  unfold get_bucket in Hcov. rewrite Hb0 in Hcov. simpl in Hcov. split.
  - split; simpl; rewrite ?F1, ?F2, ?F3; [by rewrite length_insert|done..|].
    intros j b [(<- & <- & _)|[_ Hj]]%list_lookup_insert_Some; [done|]. by apply T5.
  - intros HG Hc k. destruct (Hc k) as [C1 C2].
    destruct (Hcov HG k (tload k (t_buckets t) - load k (nodes_of b0))%Z) as [D1 D2].
    + pose proof (tload_ge k _ _ _ Hb0). lia.
    + split; [by eapply C1|lia].
    + simpl. rewrite F1. split; [|rewrite (tload_insert _ _ _ _ _ Hb0); lia].
      intros j b [(<- & <- & _)|[_ Hj]]%list_lookup_insert_Some; [done|]. by eapply C1.
Qed.

Lemma get_bucket_ok t i :
  table_ok t → i < nBuckets →
  bkt_ok (in_place (t_self t) i) (get_bucket t i) ∧ limits_ok t (get_bucket t i) ∧
  t_buckets t !! i = Some (get_bucket t i).
Proof.
  intros Ht Hi. pose proof (to_len t Ht) as Hl.
  destruct (lookup_lt_is_Some_2 (t_buckets t) i ltac:(lia)) as [b Hb]. unfold get_bucket. rewrite Hb.
  destruct (to_buckets t Ht i b Hb). split_and!; [done| |done]. split; [apply Ht|done].
Qed.

Lemma bucket_index_place t n : Q n → sha_wf n → in_place (t_self t) (bucket_index t (n_sha n)) n.
Proof. done. Qed.

Lemma add_ok t n now :
  table_ok t → Q n → sha_wf n →
  table_ok (add t n now) ∧ (addr_fixed → covered_all t → covered_all (add t n now)).
Proof.
  intros Ht Hn Hw. unfold add. set (i := bucket_index t (n_sha n)).
  assert (i < nBuckets) as Hi by apply bucket_in_range, Ht.
  destruct (get_bucket_ok t i Ht Hi) as (Hb & Hl & _).
  pose proof (bucket_index_place t n Hn Hw) as Hp. fold i in Hp.
  destruct (bumpOrAdd t (get_bucket t i) n now) as [[t1 b1] ok] eqn:E.
  destruct (bumpOrAdd_keeps _ _ _ _ _ _ _ _ Hl Hb Hp E) as [K Hno].
  destruct ok.
  - destruct (set_bucket_ok _ t i t1 b1 Ht Hi K) as [H1 H2]. split; [done|].
    intros Hf. by apply H2, addr_fixed_in_place.
  - destruct K as (Kf & Kl & Kb & Kc). pose proof (addReplacement_keeps _ t1 b1 n Kl Kb Hp (Hno eq_refl)) as K2.
    pose proof (conj Kf (conj Kl (conj Kb Kc))) as K.
    pose proof (keeps_trans _ _ _ _ _ _ _ _ K K2) as K3.
    destruct (addReplacement t1 b1 n) as [t2 b2]. simpl in K3.
    destruct (set_bucket_ok _ t i t2 b2 Ht Hi K3) as [H1 H2]. split; [done|].
    intros Hf. by apply H2, addr_fixed_in_place.
Qed.

Lemma stuff_one_ok now t n :
  table_ok t → Q n → sha_wf n →
  table_ok (stuff_one now t n) ∧ (addr_fixed → covered_all t → covered_all (stuff_one now t n)).
Proof.
  intros Ht Hn Hw. unfold stuff_one. case_decide; [done|]. set (i := bucket_index t (n_sha n)).
  case_decide; [|done]. assert (i < nBuckets) as Hi by apply bucket_in_range, Ht.
  destruct (get_bucket_ok t i Ht Hi) as (Hb & Hl & _).
  pose proof (bucket_index_place t n Hn Hw) as Hp. fold i in Hp.
  destruct (bumpOrAdd t (get_bucket t i) n now) as [[t1 b1] ok] eqn:E.
  destruct (bumpOrAdd_keeps _ _ _ _ _ _ _ _ Hl Hb Hp E) as [K _].
  destruct (set_bucket_ok _ t i t1 b1 Ht Hi K) as [H1 H2]. split; [done|].
  intros Hf. by apply H2, addr_fixed_in_place.
Qed.

Lemma delete_ok t n :
  table_ok t → Q n → sha_wf n →
  table_ok (delete_node t n) ∧
  (addr_fixed → n_ID n ∈ n_ID <$> b_entries (get_bucket t (bucket_index t (n_sha n))) →
   covered_all t → covered_all (delete_node t n)).
Proof.
  intros Ht Hn Hw. unfold delete_node. set (i := bucket_index t (n_sha n)).
  assert (i < nBuckets) as Hi by apply bucket_in_range, Ht.
  destruct (get_bucket_ok t i Ht Hi) as (Hb & Hl & _).
  pose proof (bucket_index_place t n Hn Hw) as Hp. fold i in Hp.
  pose proof (deleteInBucket_keeps _ t (get_bucket t i) n Hl Hb Hp) as K.
  destruct (deleteInBucket t (get_bucket t i) n) as [t1 b1].
  destruct (set_bucket_ok _ t i t1 b1 Ht Hi K) as [H1 H2]. split; [done|].
  intros Hf Hin. apply H2. split; [by apply addr_fixed_in_place|done].
Qed.

Lemma revalidated_ok t lastn bi pong r :
  table_ok t → Q lastn → sha_wf lastn → bi = bucket_index t (n_sha lastn) →
  table_ok (revalidated t lastn bi pong r) ∧
  (addr_fixed → covered_all t → covered_all (revalidated t lastn bi pong r)).
Proof.
  intros Ht Hn Hw ->. unfold revalidated. set (i := bucket_index t (n_sha lastn)).
  assert (i < nBuckets) as Hi by apply bucket_in_range, Ht.
  destruct (get_bucket_ok t i Ht Hi) as (Hb & Hl & _).
  pose proof (bucket_index_place t lastn Hn Hw) as Hp. fold i in Hp.
  assert (∀ t' b', keeps (in_place (t_self t) i) (fixed_addr (in_place (t_self t) i)) t (get_bucket t i) t' b' →
    table_ok (set_bucket i b' t') ∧ (addr_fixed → covered_all t → covered_all (set_bucket i b' t'))) as Hset.
  { intros t' b' K. destruct (set_bucket_ok _ t i t' b' Ht Hi K) as [H1 H2]. split; [done|].
    intros Hf. by apply H2, addr_fixed_in_place. }
  destruct pong; [apply Hset, bump_keeps; done|].
  pose proof (replace_keeps _ t (get_bucket t i) lastn r Hl Hb Hp) as K.
  destruct (replace t (get_bucket t i) lastn r) as [[t1 b1] x]. by apply Hset.
Qed.

Lemma foldl_ok (f : Table → Node → Table) (ns : list Node) t :
  (∀ t n, table_ok t → Q n → sha_wf n →
     table_ok (f t n) ∧ (addr_fixed → covered_all t → covered_all (f t n))) →
  table_ok t → Forall (λ n, Q n ∧ sha_wf n) ns →
  table_ok (foldl f t ns) ∧ (addr_fixed → covered_all t → covered_all (foldl f t ns)).
Proof.
  intros Hf. revert t. induction ns as [|n ns IH]; intros t Ht Hns; [done|].
  apply Forall_cons in Hns as [[Hn Hw] Hns]. destruct (Hf t n Ht Hn Hw) as [H1 H2].
  destruct (IH _ H1 Hns) as [H3 H4]. simpl. split; [done|]. intros HQ Hc. by apply H4, H2.
Qed.

(** The node to revalidate is one of the bucket it is reported for. *)
Lemma nodeToRevalidate_sound t perm n bi :
  table_ok t → nodeToRevalidate t perm = Some (n, bi) →
  Q n ∧ sha_wf n ∧ bi = bucket_index t (n_sha n).
Proof.
  intros Ht. induction perm as [|i perm IH]; simpl; [done|].
  destruct (last _) as [m|] eqn:Em; [|done]. intros [= -> ->].
  destruct (decide (bi < nBuckets)) as [Hi|Hi].
  - destruct (get_bucket_ok t bi Ht Hi) as (Hb & _).
    apply last_Some in Em as [l El]. pose proof (bk_nodes _ _ Hb) as Hn.
    unfold nodes_of in Hn. rewrite El in Hn.
    apply Forall_app in Hn as [Hn _]. apply Forall_app in Hn as [_ Hn]. apply Forall_inv in Hn.
    destruct Hn as (? & ? & <-). done.
  - unfold get_bucket in Em. rewrite lookup_ge_None_2 in Em; [done|]. rewrite (to_len t Ht). lia.
Qed.

(** ** Runs

    Every operation of the table, by whoever calls it: the nodes the network
    and the node database hand in are any that [Q] admits.  [D] restricts
    [delete].  Between the two critical sections of a revalidation other
    operations may run, and the node is then any one of that bucket. *)
Inductive table_step (D : Table → Node → Prop) : Table → Table → Prop :=
  | step_add t n now : Q n → sha_wf n → table_step D t (add t n now)
  | step_ping t n now : Q n → sha_wf n → table_step D t (addThroughPing t n now)
  | step_stuff t ns now : Forall (λ n, Q n ∧ sha_wf n) ns → table_step D t (stuff t ns now)
  | step_delete t n : Q n → sha_wf n → D t n → table_step D t (delete_node t n)
  | step_seeds t seeds now : Forall (λ n, Q n ∧ sha_wf n) seeds → table_step D t (loadSeedNodes t seeds now)
  | step_revalidate t n bi pong r :
      Q n → sha_wf n → bi = bucket_index t (n_sha n) → table_step D t (revalidated t n bi pong r)
  | step_initDone t :
      table_step D t (MkTable (t_buckets t) (t_nursery t) (t_ips t) (t_self t) true (t_addedAt t)).

(** [delete] of a node that is a live entry of its bucket. *)
Definition live_entry (t : Table) (n : Node) : Prop :=
  n_ID n ∈ n_ID <$> b_entries (get_bucket t (bucket_index t (n_sha n))).

Lemma step_ok D t t' :
  table_step D t t' → table_ok t →
  table_ok t' ∧ ((∀ t n, D t n → live_entry t n) → addr_fixed → covered_all t → covered_all t').
Proof.
  intros Hs Ht. destruct Hs as [t n now Hn Hw|t n now Hn Hw|t ns now Hns|t n Hn Hw HD|t seeds now Hns|t n bi pong r Hn Hw Hbi|t].
  - destruct (add_ok t n now Ht Hn Hw). done.
  - unfold addThroughPing. destruct (t_initDone t); [|done]. destruct (add_ok t n now Ht Hn Hw). done.
  - destruct (foldl_ok (stuff_one now) ns t (λ t n, stuff_one_ok now t n) Ht Hns). done.
  - destruct (delete_ok t n Ht Hn Hw) as [H1 H2]. split; [done|]. intros HL Hf. apply H2; [done|]. by apply HL.
  - destruct (foldl_ok (λ t n, add t n now) (seeds ++ t_nursery t) t) as [H1 H2]; [|done| |done].
    + intros. by apply add_ok.
    + apply Forall_app. split; [done|apply Ht].
  - destruct (revalidated_ok t n bi pong r Ht Hn Hw Hbi). done.
  - destruct Ht as [T1 T2 T3 T4 T5]. split; [done|]. done.
Qed.

Lemma steps_ok D t t' :
  rtc (table_step D) t t' → table_ok t →
  table_ok t' ∧ ((∀ t n, D t n → live_entry t n) → addr_fixed → covered_all t → covered_all t').
Proof.
  induction 1 as [t|t t1 t' Hs _ IH]; [done|]. intros Ht. destruct (step_ok D t t1 Hs Ht) as [H1 H2].
  destruct (IH H1) as [H3 H4]. split; [done|]. intros HL Hf Hc. by apply H4, H2.
Qed.

Lemma ips_ok_empty limit : in_u64 limit → ips_ok limit (MkNetSet 24 limit ∅).
Proof. intros Hl. split_and!; [done..|]. split; [done|]. simpl. intros k n. by rewrite lookup_empty. Qed.

Lemma new_ok self nursery :
  sha_wf self → Forall (λ n, Q n ∧ sha_wf n) nursery →
  table_ok (newTable_state self nursery) ∧ covered_all (newTable_state self nursery).
Proof.
  intros Hs Hn. split.
  - split; [done|done|apply ips_ok_empty; unfold tableIPLimit; word|done|].
    intros i b Hb. destruct (proj1 (lookup_replicate nBuckets empty_bucket b i) Hb) as [-> _]. split; [|apply ips_ok_empty; unfold bucketIPLimit; word].
    split; unfold nodes_of; simpl; [lia|lia|constructor|constructor].
  - intros k. split; [|done]. intros i b Hb.
    destruct (proj1 (lookup_replicate nBuckets empty_bucket b i) Hb) as [-> _]. done.
Qed.
End table_inv.

(** ** Random nodes *)

Lemma swap_perm {A} i j (l : list A) : swap i j l ≡ₚ l.
Proof.
  unfold swap. destruct (l !! i) as [x|] eqn:Ei; [|done]. destruct (l !! j) as [y|] eqn:Ej; [|done].
  destruct (decide (i = j)) as [->|Hne].
  { simplify_eq. by rewrite !list_insert_id by (rewrite ?list_insert_id; done). }
  apply Permutation_inj. split; [by rewrite !length_insert|].
  exists (λ k, if decide (k = i) then j else if decide (k = j) then i else k). split.
  - intros a b. repeat case_decide; congruence.
  - intros k. pose proof (lookup_lt_Some _ _ _ Ei). pose proof (lookup_lt_Some _ _ _ Ej).
    destruct (decide (k = j)) as [->|Hkj].
    + rewrite list_lookup_insert_eq by (rewrite length_insert; lia). repeat case_decide; congruence.
    + rewrite list_lookup_insert_ne by done. destruct (decide (k = i)) as [->|Hki].
      * rewrite list_lookup_insert_eq by lia. done.
      * by rewrite list_lookup_insert_ne.
Qed.

Lemma shuffle_perm {A} rnd i (l : list A) : shuffle_buckets rnd i l ≡ₚ l.
Proof. revert l. induction i as [|i IH]; intros l; [done|]. simpl. by rewrite IH, swap_perm. Qed.

(** The loop moves one node per round from the buckets to the buffer. *)
Lemma read_loop_spec fuel lenbuf i j buckets buf :
  i ≤ lenbuf → lenbuf - i < fuel → j < length buckets → Forall (λ l, l ≠ []) buckets →
  ∃ n w, read_loop fuel lenbuf i j buckets buf = Ok (n, buf ++ w) ∧
    length w = (lenbuf - i) `min` length (concat buckets) ∧
    (∃ rest, w ++ rest ≡ₚ concat buckets) ∧
    n = if decide (i + length (concat buckets) ≤ lenbuf) then i + length (concat buckets) else lenbuf + 1.
Proof.
  revert i j buckets buf. induction fuel as [|fuel IH]; intros i j buckets buf Hi Hfuel Hj Hne; [lia|].
  destruct (lookup_lt_is_Some_2 buckets j Hj) as [b Hb].
  assert (b ≠ []) as Hbne by (rewrite Forall_lookup in Hne; by eapply Hne).
  pose proof (take_drop_middle _ _ _ Hb) as Hsplit.
  destruct b as [|n b]; [done|]. clear Hbne.
  assert (concat buckets ≡ₚ n :: b ++ concat (take j buckets) ++ concat (drop (S j) buckets)) as Hc.
  { rewrite <- Hsplit at 1. rewrite concat_app. simpl. rewrite Permutation_app_comm. simpl.
    rewrite <- !app_assoc. rewrite (Permutation_app_comm (concat (drop _ _))). done. }
  simpl. case_decide as Hfull.
  { exists (i + 1), []. rewrite app_nil_r. assert (i = lenbuf) as -> by lia. split_and!; [done| | |].
    - rewrite Nat.sub_diag. done.
    - by exists (concat buckets).
    - apply Permutation_length in Hc. simpl in Hc. by rewrite decide_False by lia. }
  rewrite Hb. set (buckets' := if decide (b = []) then _ else _).
  assert (concat buckets' ≡ₚ b ++ concat (take j buckets) ++ concat (drop (S j) buckets) ∧ Forall (λ l, l ≠ []) buckets')
    as [Hc' Hne'].
  { rewrite <- Hsplit in Hne. apply Forall_app in Hne as [N1 N2]. apply Forall_cons in N2 as [_ N2].
    subst buckets'. case_decide as Hbn.
    - subst b. rewrite concat_app. simpl. split; [done|]. by apply Forall_app.
    - rewrite insert_take_drop by done. rewrite concat_app. simpl.
      split; [apply Permutation_app_swap_app|].
      apply Forall_app. split; [done|]. by apply Forall_cons. }
  pose proof (Permutation_length Hc) as Lc. pose proof (Permutation_length Hc') as Lc'. simpl in Lc.
  case_decide as Hlen.
  - exists (i + 1), [n]. apply nil_length_inv in Hlen. rewrite Hlen in Hc', Lc'. simpl in Lc'.
    assert (length (concat buckets) = 1) as -> by lia. split_and!; [done|simpl; lia| |].
    + exists []. rewrite Hc. rewrite <- Hc'. done.
    + rewrite decide_True by lia. done.
  - destruct (IH (i + 1) ((j + 1) mod length buckets') buckets' (buf ++ [n])) as (m & w & E & Lw & (rest & Hr) & Hm);
      [lia|lia|by apply Nat.mod_upper_bound|done|].
    exists m, (n :: w). rewrite E, <- app_assoc. split_and!; [done|simpl; lia| |].
    + exists rest. simpl. by rewrite Hr, Hc, Hc'.
    + rewrite Hm. replace (i + 1 + length (concat buckets')) with (i + length (concat buckets)) by lia. done.
Qed.

Lemma concat_filter_nil (ll : list (list Node)) : concat (filter (λ l, l ≠ []) ll) = concat ll.
Proof. induction ll as [|l ll IH]; [done|]. rewrite filter_cons. case_decide as Hl; simpl; rewrite IH; [done|].
  by rewrite Hl. Qed.

Lemma entries_concat t : entries_of t = concat (b_entries <$> t_buckets t).
Proof. unfold entries_of. induction (t_buckets t) as [|b bs IH]; [done|]. csimpl. by rewrite IH. Qed.

(** ** Readers *)

Lemma NoDup_concat_lookup {A} (ll : list (list A)) :
  (∀ i l, ll !! i = Some l → NoDup l) →
  (∀ i j li lj x, ll !! i = Some li → ll !! j = Some lj → x ∈ li → x ∈ lj → i = j) →
  NoDup (concat ll).
Proof.
  induction ll as [|l ll IH]; intros H1 H2; [constructor|]. simpl. apply NoDup_app. split_and!.
  - by apply (H1 0).
  - intros x Hx Hx'. apply list_elem_of_In, in_concat in Hx' as (l' & Hl' & Hx'). apply list_elem_of_In in Hl', Hx'. apply list_elem_of_lookup in Hl' as [j Hj].
    by specialize (H2 0 (S j) l l' x eq_refl Hj Hx Hx').
  - apply IH; [intros i; apply (H1 (S i))|]. intros i j li lj x Hi Hj Hx Hy.
    specialize (H2 (S i) (S j) li lj x Hi Hj Hx Hy). lia.
Qed.

Lemma tab_len_entries t : tab_len t = length (entries_of t).
Proof.
  unfold tab_len, entries_of. rewrite <- (Nat.add_0_l (length _)). generalize 0.
  induction (t_buckets t) as [|b bs IH]; intros n; csimpl; [lia|]. rewrite IH, length_app. lia.
Qed.

Lemma closest_eq t target k :
  closest t target k = foldl (λ h n, bd_push h n k) (MkByDist [] target) (entries_of t).
Proof.
  unfold closest, entries_of. generalize (MkByDist [] target).
  induction (t_buckets t) as [|b bs IH]; intros h; [done|]. csimpl. by rewrite foldl_app, IH.
Qed.

Lemma nearest_length k l h : nearest k l h → length (bd_entries h) = k `min` length l.
Proof.
  intros (_ & Hk & rest & Hp & Hr & _). apply Permutation_length in Hp. rewrite length_app in Hp.
  destruct rest as [|x rest]; [simpl in Hp; lia|]. specialize (Hr ltac:(done)). lia.
Qed.

Lemma table_unique Q t :
  (∀ n m, Q n → Q m → n_ID n = n_ID m → n_sha n = n_sha m) → table_ok Q t →
  NoDup (n_ID <$> (t_buckets t ≫= nodes_of)).
Proof.
  intros HQ Ht. assert (n_ID <$> (t_buckets t ≫= nodes_of) = concat ((λ b, n_ID <$> nodes_of b) <$> t_buckets t)) as ->.
  { induction (t_buckets t) as [|b bs IH]; [done|]. csimpl. by rewrite fmap_app, IH. }
  apply NoDup_concat_lookup.
  - intros i l (b & -> & Hb)%list_lookup_fmap_Some. apply (to_buckets Q t Ht i b Hb).
  - intros i j li lj x (b & -> & Hb)%list_lookup_fmap_Some (c & -> & Hc)%list_lookup_fmap_Some.
    intros (n & -> & Hn)%list_elem_of_fmap (m & E & Hm)%list_elem_of_fmap.
    destruct (to_buckets Q t Ht i b Hb) as [[_ _ _ B] _]. destruct (to_buckets Q t Ht j c Hc) as [[_ _ _ C] _].
    rewrite Forall_forall in B, C. destruct (B n Hn) as (Qn & _ & <-). destruct (C m Hm) as (Qm & _ & <-).
    by rewrite (HQ n m Qn Qm E).
Qed.

Lemma entries_wf Q t : table_ok Q t → Forall sha_wf (entries_of t) ∧ length (entries_of t) ≤ nBuckets * bucketSize.
Proof.
  intros Ht. rewrite <- (to_len Q t Ht). pose proof (to_buckets Q t Ht) as Hb. unfold entries_of.
  assert (∀ b, b ∈ t_buckets t → Forall sha_wf (b_entries b) ∧ length (b_entries b) ≤ bucketSize) as H.
  { intros b [i Hi]%list_elem_of_lookup. destruct (Hb i b Hi) as [[B1 _ _ B4] _]. split; [|done].
    apply Forall_app in B4 as [B4 _]. eapply Forall_impl; [exact B4|]. by intros n (_ & ? & _). }
  clear Hb Ht. induction (t_buckets t) as [|b bs IH]; [done|]. csimpl.
  destruct (H b) as [H1 H2]; [by left|]. destruct IH as [H3 H4]; [intros c Hc; apply H; by right|].
  split; [by apply Forall_app|]. unfold bucketSize in *. rewrite length_app. simpl length. lia.
Qed.

Lemma ReadRandomNodes_spec t rnd lenbuf :
  t_initDone t = true → 0 < length (entries_of t) →
  ∃ n w, ReadRandomNodes t rnd lenbuf = Ok (n, w) ∧
    length w = lenbuf `min` length (entries_of t) ∧ (∃ rest, w ++ rest ≡ₚ entries_of t) ∧
    n = if decide (length (entries_of t) ≤ lenbuf) then length w else S lenbuf.
Proof.
  intros Hi Hl. unfold ReadRandomNodes. rewrite Hi. cbn [negb].
  set (bs := filter _ _). pose proof (shuffle_perm rnd (length bs - 1) bs) as Hp.
  assert (concat (shuffle_buckets rnd (length bs - 1) bs) ≡ₚ entries_of t) as Hc.
  { rewrite Hp. subst bs. by rewrite concat_filter_nil, entries_concat. }
  pose proof (Permutation_length Hc) as Lc.
  case_decide as Hbs.
  { apply nil_length_inv in Hbs. rewrite Hbs in Lc. simpl in Lc. lia. }
  destruct (read_loop_spec (S lenbuf) lenbuf 0 0 (shuffle_buckets rnd (length bs - 1) bs) []) as (n & w & E & Lw & Hr & Hn).
  - lia.
  - lia.
  - rewrite Hp. lia.
  - rewrite Hp. subst bs. apply Forall_forall. by intros l [? _]%list_elem_of_filter.
  - exists n, w. rewrite E. rewrite Lc in *. split; [done|]. split; [by rewrite Lw, Nat.sub_0_r|].
    split; [by setoid_rewrite <- Hc|]. rewrite Hn, Lw, Nat.sub_0_r. simpl. repeat case_decide; lia.
Qed.

(** ** Claims *)

(** The example nodes: node [i] of the subnet [net] at an address of its own. *)
Definition ex_id (i : byte) : NodeID := replicate 63 x00 ++ [i].
Definition ex_node (i net host : byte) : Node :=
  NewNode (Pos.of_succ_nat (Z.to_nat (byteZ i))) (ex_id i) [x52; x01; net; host] 30303 30303.
Definition ex_self : Node := ex_node x00 x00 x01.
Definition any_delete : Table → Node → Prop := λ _ _, True.

Lemma covered_load Q t k :
  table_ok Q t → covered_all t →
  (∀ i b, t_buckets t !! i = Some b → load k (nodes_of b) ≤ bucketIPLimit)%Z ∧ (tload k (t_buckets t) ≤ tableIPLimit)%Z.
Proof.
  intros Ht Hc. destruct (Hc k) as [C1 C2]. split.
  - intros i b Hi. destruct (to_buckets Q t Ht i b Hi) as [_ (_ & El & Hn)].
    pose proof (ns_count_range (b_ips b) k Hn). specialize (C1 i b Hi). rewrite El in *. lia.
  - destruct (to_ips Q t Ht) as (_ & El & Hn). pose proof (ns_count_range (t_ips t) k Hn). rewrite El in *. lia.
Qed.

(** C23: whatever the network hands in and however the operations interleave,
    the table keeps its shape: seventeen buckets of at most sixteen entries
    and ten replacements, no identifier twice in a bucket, every node in the
    bucket of its distance from the local node, and the address counters
    within their limits. *)
Theorem table_well_formed self nursery t :
  sha_wf self → Forall sha_wf nursery →
  rtc (table_step sha_wf any_delete) (newTable_state self nursery) t →
  length (t_buckets t) = 17 ∧
  ∀ i b, t_buckets t !! i = Some b →
    length (b_entries b) ≤ 16 ∧ length (b_replacements b) ≤ 10 ∧
    NoDup (n_ID <$> b_entries b ++ b_replacements b) ∧
    (∀ n, n ∈ b_entries b ++ b_replacements b → bucket_index t (n_sha n) = i) ∧
    ∀ k, (0 ≤ ns_count (b_ips b) k ≤ 2 ∧ 0 ≤ ns_count (t_ips t) k ≤ 10)%Z.
Proof.
  intros Hs Hn Hr. destruct (new_ok sha_wf self nursery Hs) as [H0 _].
  { eapply Forall_impl; [exact Hn|]. done. }
  destruct (steps_ok sha_wf _ _ _ Hr H0) as [Ht _]. split; [apply Ht|]. intros i b Hi.
  destruct (to_buckets _ t Ht i b Hi) as [[B1 B2 B3 B4] (_ & L1 & L2)].
  destruct (to_ips _ t Ht) as (_ & L3 & L4). split_and!; [done..| |].
  - intros n Hin. rewrite Forall_forall in B4. by destruct (B4 n Hin) as (_ & _ & <-).
  - intros k. pose proof (ns_count_range _ k L2) as R2. pose proof (ns_count_range _ k L4) as R4.
    rewrite L1 in R2. rewrite L3 in R4. done.
Qed.

Lemma table_well_formed_witness :
  length (t_buckets (delete_node (add (newTable_state ex_self []) (ex_node x01 x01 x01) 5) (ex_node x02 x02 x01))) = 17.
Proof.
  refine (proj1 (table_well_formed ex_self [] _ eq_refl _ _)); [constructor|].
  eapply rtc_l; [by apply (step_add sha_wf any_delete _ (ex_node x01 x01 x01) 5)|].
  eapply rtc_l; [by apply (step_delete sha_wf any_delete _ (ex_node x02 x02 x01))|]. apply rtc_refl.
Defined.

(** C37: when nodes carry the hash of their identifier, no identifier occurs
    twice in the table, live or as a replacement, and the nodes [closest]
    returns are the nearest of all live entries, nearest first. *)
Theorem closest_is_nearest `{Crypto} self nursery t target k :
  let Q := λ n, n_sha n = Keccak256 (n_ID n) in
  sha_wf self → Forall (λ n, Q n ∧ sha_wf n) nursery → length target = 32 →
  rtc (table_step Q any_delete) (newTable_state self nursery) t →
  NoDup (n_ID <$> (t_buckets t ≫= nodes_of)) ∧
  tab_len t = length (entries_of t) ∧ tab_len t ≤ 272 ∧
  nearest k (entries_of t) (closest t target k) ∧ bd_target (closest t target k) = target ∧
  length (bd_entries (closest t target k)) = k `min` tab_len t.
Proof.
  intros Q Hs Hn Ht Hr. destruct (new_ok Q self nursery Hs Hn) as [H0 _].
  destruct (steps_ok Q _ _ _ Hr H0) as [Hok _]. destruct (entries_wf Q t Hok) as [Hw Hl].
  rewrite closest_eq, tab_len_entries.
  destruct (push_all_nearest k (entries_of t) (MkByDist [] target) []) as [Hnr Et];
    [apply nearest_nil|constructor|done|done|].
  split; [apply (table_unique Q); [|done]; intros n m -> ->; by intros ->|].
  split; [done|]. split; [exact Hl|]. split; [exact Hnr|]. split; [exact Et|]. by apply nearest_length.
Qed.

Lemma closest_is_nearest_witness :
  length (bd_entries (closest (add (newTable_state ex_self []) (ex_node x01 x01 x01) 5) (replicate 32 x07) 3)) = 1.
Proof.
  destruct (closest_is_nearest ex_self [] (add (newTable_state ex_self []) (ex_node x01 x01 x01) 5)
    (replicate 32 x07) 3) as (_ & _ & _ & _ & _ & E); [done|constructor|done| |].
  - eapply rtc_l; [by apply (step_add _ any_delete _ (ex_node x01 x01 x01) 5)|]. apply rtc_refl.
  - rewrite E. vm_compute. reflexivity.
Defined.

(** As long as every node keeps its address and only live entries are
    deleted, no bucket holds more than two nodes, and the table no more than
    ten, of one /24 subnet outside the local network. *)
Theorem subnet_limit self t k (addr : NodeID → IP) :
  let Q := λ n, n_IP n = addr (n_ID n) in
  sha_wf self → rtc (table_step Q live_entry) (newTable_state self []) t →
  (∀ i b, t_buckets t !! i = Some b → load k (b_entries b ++ b_replacements b) ≤ 2)%Z ∧
  (load k (t_buckets t ≫= λ b, b_entries b ++ b_replacements b) ≤ 10)%Z.
Proof.
  intros Q Hs Hr. destruct (new_ok Q self [] Hs) as [H0 C0]; [constructor|].
  destruct (steps_ok Q _ _ _ Hr H0) as [Ht Hc].
  destruct (covered_load Q t k Ht) as [L1 L2].
  { apply Hc; [done| |done]. intros n m -> ->. by intros ->. }
  split; [done|]. etransitivity; [|exact L2]. clear. induction (t_buckets t) as [|b bs IH]; [done|].
  csimpl. rewrite load_app. unfold nodes_of. simpl. lia.
Qed.

Definition ex_addr (id : NodeID) : IP := [x52; x01; x01; List.last id x00].
Definition ex_same (i : byte) : Node := ex_node i x01 i.
Definition ex_fill : Table := foldl (λ t n, add t n 5) (newTable_state ex_self []) [ex_same x01; ex_same x02; ex_same x03].

Lemma subnet_limit_witness :
  Forall (λ b, load (key24 [x52; x01; x01; x01]) (b_entries b ++ b_replacements b) ≤ 2)%Z (t_buckets ex_fill).
Proof.
  apply (proj2 (Forall_lookup _ _)).
  refine (proj1 (subnet_limit ex_self ex_fill (key24 [x52; x01; x01; x01]) ex_addr eq_refl _)).
  eapply rtc_l; [by apply (step_add _ live_entry _ (ex_same x01) 5)|].
  eapply rtc_l; [by apply (step_add _ live_entry _ (ex_same x02) 5)|].
  eapply rtc_l; [by apply (step_add _ live_entry _ (ex_same x03) 5)|]. apply rtc_refl.
Defined.

(** Without either condition the limit fails.  Deleting a node that is
    not in its bucket gives back an address that was never taken, and a live
    node that comes back from another address is not counted there: both
    lead to three live nodes of one /24 subnet in a bucket. *)
Theorem subnet_limit_evaded :
  (∃ t b, rtc (table_step sha_wf any_delete) (newTable_state ex_self []) t ∧
     t_buckets t !! 0 = Some b ∧ load (key24 [x52; x01; x01; x01]) (b_entries b) = 3%Z) ∧
  (∃ t b, rtc (table_step sha_wf (λ _ _, False)) (newTable_state ex_self []) t ∧
     t_buckets t !! 0 = Some b ∧ load (key24 [x52; x01; x01; x01]) (b_entries b) = 3%Z).
Proof.
  split.
  - exists (add (delete_node (add (add (newTable_state ex_self []) (ex_same x01) 5) (ex_same x02) 5) (ex_same x09)) (ex_same x03) 5).
    eexists. split; [|split; vm_compute; reflexivity].
    eapply rtc_l; [by apply (step_add _ any_delete _ (ex_same x01) 5)|].
    eapply rtc_l; [by apply (step_add _ any_delete _ (ex_same x02) 5)|].
    eapply rtc_l; [by apply (step_delete _ any_delete _ (ex_same x09))|].
    eapply rtc_l; [by apply (step_add _ any_delete _ (ex_same x03) 5)|]. apply rtc_refl.
  - exists (add (add (add (add (newTable_state ex_self []) (ex_node x03 x02 x03) 5) (ex_same x01) 5) (ex_same x02) 5) (ex_same x03) 6).
    eexists. split; [|split; vm_compute; reflexivity].
    eapply rtc_l; [by apply (step_add _ _ _ (ex_node x03 x02 x03) 5)|].
    eapply rtc_l; [by apply (step_add _ _ _ (ex_same x01) 5)|].
    eapply rtc_l; [by apply (step_add _ _ _ (ex_same x02) 5)|].
    eapply rtc_l; [by apply (step_add _ _ _ (ex_same x03) 6)|]. apply rtc_refl.
Qed.

(** [ReadRandomNodes] never panics and writes distinct places of the
    buckets' entries: as many as fit into the slice or all there are.  The
    number it returns is that of the nodes written only when all fit;
    otherwise it is one more than the length of the slice. *)
Theorem read_random_nodes t rnd lenbuf :
  t_initDone t = true → 0 < length (entries_of t) →
  ∃ n w, ReadRandomNodes t rnd lenbuf = Ok (n, w) ∧
    length w = lenbuf `min` length (entries_of t) ∧ (∃ rest, w ++ rest ≡ₚ entries_of t) ∧
    n = if decide (length (entries_of t) ≤ lenbuf) then length w else S lenbuf.
Proof. apply ReadRandomNodes_spec. Qed.

Lemma read_random_nodes_witness :
  ∃ n w, ReadRandomNodes (MkTable (t_buckets ex_fill) [] (t_ips ex_fill) ex_self true ∅) (λ i, i) 1 = Ok (n, w) ∧
         length w = 1 ∧ n = 2.
Proof.
  destruct (read_random_nodes (MkTable (t_buckets ex_fill) [] (t_ips ex_fill) ex_self true ∅) (λ i, i) 1 eq_refl)
    as (n & w & E & Lw & _ & Hn).
  - apply (bool_decide_eq_true_1 (0 < _)). vm_compute. reflexivity.
  - exists n, w. split; [exact E|]. split; [rewrite Lw; vm_compute; reflexivity|]. rewrite Hn. vm_compute. reflexivity.
Defined.
