(* ===== verification/KadLookup.v ===== *)
(** * Lookups in the network

    [lookup] of [p2p/discover/table.go]: a search keeps the nodes nearest to
    the target it has heard of, asks the nearest ones not asked yet, at most
    [alpha] at a time, and adds what they answer.  The queries run
    concurrently and their answers arrive in any order: one round is a step of
    [lookup_step], for whichever answer arrives.  [findnode] is what a query
    does to the table and to the failure counter of the node asked. *)

From S2P Require Import Prelude CommonTypes Netutil Discover KadTable.

Set Default Goal Selector "!".
Set Default Proof Using "Type".

(** ** State *)

(** [lk_pending] are the queries started whose answer has not been received;
    [pendingQueries] is their number. *)
Record lookup_state := MkLookup {
  lk_result : nodesByDistance;
  lk_asked : gset NodeID;
  lk_seen : gset NodeID;
  lk_pending : list Node
}.

(** ** A round *)

(** The loop that asks the nearest nodes not asked yet. *)
Fixpoint ask (entries : list Node) (asked : gset NodeID) (pending : list Node) : gset NodeID * list Node :=
  match entries with
  | [] => (asked, pending)
  | n :: rest =>
    if decide (alpha ≤ length pending) then (asked, pending)
    else if decide (n_ID n ∈ asked) then ask rest asked pending
    else ask rest ({[ n_ID n ]} ∪ asked) (pending ++ [n])
  end.
Definition lk_ask (s : lookup_state) : lookup_state :=
  let '(asked, pending) := ask (bd_entries (lk_result s)) (lk_asked s) (lk_pending s) in
  MkLookup (lk_result s) asked (lk_seen s) pending.

(** The loop over one reply. *)
Definition receive_one (s : nodesByDistance * gset NodeID) (n : Node) : nodesByDistance * gset NodeID :=
  let '(result, seen) := s in
  if decide (n_ID n ∈ seen) then (result, seen)
  else (bd_push result n bucketSize, {[ n_ID n ]} ∪ seen).
Definition lk_receive (s : lookup_state) (i : nat) (reply : list Node) : lookup_state :=
  let '(result, seen) := foldl receive_one (lk_result s, lk_seen s) reply in
  MkLookup result (lk_asked s) seen (delete i (lk_pending s)).

(** The first search in the table; when it is empty and [refreshIfEmpty],
    once more in the table as the refresh leaves it. *)
Definition lookup_first (t t' : Table) (target : bytes) (refreshIfEmpty : bool) : nodesByDistance :=
  let r := closest t target bucketSize in
  if bool_decide (bd_entries r = []) && refreshIfEmpty then closest t' target bucketSize else r.

Definition lookup_init (self : NodeID) (first : nodesByDistance) : lookup_state :=
  lk_ask (MkLookup first {[ self ]} ∅ []).

(** No query is pending: the search stops. *)
Definition lookup_done (s : lookup_state) : Prop := lk_pending s = [].

(** One round: the answer to query [i] arrives, and the search goes on. *)
Inductive lookup_step : lookup_state → list Node → lookup_state → Prop :=
  | lookup_answer s i q reply :
      lk_pending s !! i = Some q → lookup_step s reply (lk_ask (lk_receive s i reply)).

Inductive lookup_run : lookup_state → list (list Node) → lookup_state → Prop :=
  | run_nil s : lookup_run s [] s
  | run_snoc s rs s1 r s2 : lookup_run s rs s1 → lookup_step s1 r s2 → lookup_run s (rs ++ [r]) s2.

(** ** A query

    [fails] is what the node database holds for the node asked, [r] and [err]
    the answer of the transport; the result is the table and the failure count
    written, if any.  [r] may hold nodes also when the query timed out. *)
Definition findnode (t : Table) (n : Node) (fails : Z) (r : list Node) (err : bool) (now : Z) : Table * option Z :=
  let '(t, w) :=
    if err || bool_decide (length r = 0) then
      let fails := (fails + 1)%Z in
      ((if decide (maxFindnodeFailures ≤ fails)%Z then delete_node t n else t), Some fails)
    else (t, if decide (0 < fails)%Z then Some (fails - 1)%Z else None) in
  (foldl (λ t n, add t n now) t r, w).

(** [Resolve]: [found] is what [Lookup] returned. *)
Definition Resolve (t : Table) (targetID : NodeID) (hash : bytes) (found : list Node) : option Node :=
  match bd_entries (closest t hash 1) with
  | n :: _ => if decide (n_ID n = targetID) then Some n else List.find (λ n, bool_decide (n_ID n = targetID)) found
  | [] => List.find (λ n, bool_decide (n_ID n = targetID)) found
  end.

(** ** Asking *)

(** What is asked is new, counted, and what was looked at was asked. *)
Lemma ask_spec entries asked pending :
  let '(asked', pending') := ask entries asked pending in
  (∃ new, pending' = pending ++ new ∧ NoDup (n_ID <$> new) ∧ (∀ n, n ∈ new → n ∈ entries ∧ n_ID n ∉ asked) ∧
     asked' = list_to_set (n_ID <$> new) ∪ asked) ∧
  (length pending ≤ alpha → length pending' ≤ alpha) ∧
  (length pending' < alpha → ∀ n, n ∈ entries → n_ID n ∈ asked').
Proof.
  revert asked pending. induction entries as [|n entries IH]; intros asked pending; simpl.
  { split_and!; [|done|intros _ n []%not_elem_of_nil]. exists []. rewrite app_nil_r.
    split_and!; [done|constructor|intros n []%not_elem_of_nil|set_solver]. }
  case_decide as Hfull.
  { split_and!; [|done|lia]. exists []. rewrite app_nil_r.
    split_and!; [done|constructor|intros m []%not_elem_of_nil|set_solver]. }
  case_decide as Hin.
  - specialize (IH asked pending). destruct (ask entries asked pending) as [asked' pending'].
    destruct IH as ((new & -> & Hnd & Hnew & ->) & Hl & Ha). split_and!; [|done|].
    + exists new. split_and!; [done|done| |done]. intros m Hm. destruct (Hnew m Hm). split; [by right|done].
    + intros Hlt m [->|Hm]%elem_of_cons; [set_solver|by apply Ha].
  - specialize (IH ({[ n_ID n ]} ∪ asked) (pending ++ [n])).
    destruct (ask entries _ _) as [asked' pending']. destruct IH as ((new & -> & Hnd & Hnew & ->) & Hl & Ha).
    split_and!.
    + exists (n :: new). split_and!.
      * by rewrite <- app_assoc.
      * csimpl. apply NoDup_cons. split; [|done]. intros (m & Em & Hm)%list_elem_of_fmap.
        destruct (Hnew m Hm) as [_ Hm']. rewrite <- Em in Hm'. set_solver.
      * intros m [->|Hm]%elem_of_cons; [split; [by left|done]|]. destruct (Hnew m Hm). split; [by right|set_solver].
      * csimpl. set_solver.
    + intros Hle. apply Hl. rewrite length_app. simpl. lia.
    + intros Hlt m [->|Hm]%elem_of_cons; [set_solver|by apply Ha].
Qed.

(** ** Receiving *)

(** The nodes of a sequence of replies that were not seen before. *)
Fixpoint fresh_nodes (seen : gset NodeID) (l : list Node) : list Node :=
  match l with
  | [] => []
  | n :: l => if decide (n_ID n ∈ seen) then fresh_nodes seen l else n :: fresh_nodes ({[ n_ID n ]} ∪ seen) l
  end.

Lemma fresh_nodes_app seen l1 l2 :
  fresh_nodes seen (l1 ++ l2) = fresh_nodes seen l1 ++ fresh_nodes (list_to_set (n_ID <$> l1) ∪ seen) l2.
Proof.
  revert seen. induction l1 as [|n l1 IH]; intros seen; csimpl; [f_equal; set_solver|].
  case_decide as Hin; rewrite IH.
  - do 2 f_equal. set_solver.
  - simpl. do 3 f_equal. set_solver.
Qed.

Lemma fresh_nodes_spec seen l :
  NoDup (n_ID <$> fresh_nodes seen l) ∧ ∀ n, n ∈ fresh_nodes seen l → n ∈ l ∧ n_ID n ∉ seen.
Proof.
  revert seen. induction l as [|n l IH]; intros seen; simpl; [split; [constructor|intros n []%not_elem_of_nil]|].
  case_decide as Hin.
  - destruct (IH seen) as [H1 H2]. split; [done|]. intros m Hm. destruct (H2 m Hm). split; [by right|done].
  - destruct (IH ({[ n_ID n ]} ∪ seen)) as [H1 H2]. split.
    + csimpl. apply NoDup_cons. split; [|done]. intros (m & Em & Hm)%list_elem_of_fmap.
      destruct (H2 m Hm) as [_ Hm']. rewrite <- Em in Hm'. set_solver.
    + intros m [->|Hm]%elem_of_cons; [split; [by left|done]|]. destruct (H2 m Hm). split; [by right|set_solver].
Qed.

Lemma fresh_nodes_covers seen l n :
  n ∈ l → n_ID n ∉ seen → n_ID n ∈ n_ID <$> fresh_nodes seen l.
Proof.
  revert seen. induction l as [|m l IH]; intros seen Hn Hs; [by apply not_elem_of_nil in Hn|]. simpl.
  apply elem_of_cons in Hn as [->|Hn].
  - rewrite decide_False by done. csimpl. by left.
  - case_decide; [by apply IH|]. csimpl. destruct (decide (n_ID n = n_ID m)) as [->|Hne]; [by left|].
    right. apply IH; [done|set_solver].
Qed.

Lemma receive_all_eq result seen reply :
  foldl receive_one (result, seen) reply =
    (foldl (λ h n, bd_push h n bucketSize) result (fresh_nodes seen reply), list_to_set (n_ID <$> reply) ∪ seen).
Proof.
  revert result seen. induction reply as [|n reply IH]; intros result seen; csimpl; [f_equal; set_solver|].
  case_decide as Hin; rewrite IH; simpl; f_equal; set_solver.
Qed.

(** ** Runs *)

Section run.
(** The local node, the nodes of the table and the first result. *)
Context (self : NodeID) (l0 : list Node) (first : nodesByDistance).

Record lookup_inv (rs : list (list Node)) (s : lookup_state) : Prop := {
  li_nearest : nearest bucketSize (l0 ++ fresh_nodes ∅ (concat rs)) (lk_result s);
  li_target : bd_target (lk_result s) = bd_target first;
  li_seen : lk_seen s = list_to_set (n_ID <$> concat rs);
  li_pending : length (lk_pending s) ≤ alpha;
  li_asked : ∃ A, NoDup (n_ID <$> A) ∧ (self ∉ n_ID <$> A) ∧
    lk_asked s = list_to_set (n_ID <$> A) ∪ {[ self ]} ∧
    length A = length rs + length (lk_pending s) ∧ (∀ n, n ∈ A → n ∈ l0 ∨ n ∈ concat rs);
  li_done : length (lk_pending s) < alpha → ∀ n, n ∈ bd_entries (lk_result s) → n_ID n ∈ lk_asked s
}.

Lemma nearest_elem k l h n : nearest k l h → n ∈ bd_entries h → n ∈ l.
Proof. intros (_ & _ & rest & -> & _) Hn. apply elem_of_app. by left. Qed.

(** [ask] restores the part of the invariant that a reply breaks. *)
Lemma lk_ask_inv rs s A :
  nearest bucketSize (l0 ++ fresh_nodes ∅ (concat rs)) (lk_result s) →
  bd_target (lk_result s) = bd_target first →
  lk_seen s = list_to_set (n_ID <$> concat rs) → length (lk_pending s) ≤ alpha →
  NoDup (n_ID <$> A) → self ∉ n_ID <$> A → lk_asked s = list_to_set (n_ID <$> A) ∪ {[ self ]} →
  length A = length rs + length (lk_pending s) → (∀ n, n ∈ A → n ∈ l0 ∨ n ∈ concat rs) →
  lookup_inv rs (lk_ask s).
Proof.
  intros Hn Ht Hs Hp HA HAs Ea La Hin. unfold lk_ask.
  pose proof (ask_spec (bd_entries (lk_result s)) (lk_asked s) (lk_pending s)) as H.
  destruct (ask _ _ _) as [asked pending]. destruct H as ((new & -> & Hnd & Hnew & ->) & Hl & Hd).
  split; simpl; [done..|by apply Hl| |done].
  exists (A ++ new). rewrite fmap_app. split_and!.
  - apply NoDup_app. split_and!; [done| |done]. intros x Hx (n & -> & Hn')%list_elem_of_fmap.
    destruct (Hnew n Hn') as [_ Hna]. rewrite Ea in Hna. set_solver.
  - rewrite elem_of_app. intros [?|(n & -> & Hn')%list_elem_of_fmap]; [done|].
    destruct (Hnew n Hn') as [_ Hna]. rewrite Ea in Hna. set_solver.
  - rewrite Ea. set_solver.
  - rewrite !length_app. lia.
  - intros n [?|Hn']%elem_of_app; [by apply Hin|]. destruct (Hnew n Hn') as [He _].
    apply (nearest_elem _ _ _ _ Hn) in He. apply elem_of_app in He as [?|He]; [by left|]. right.
    by apply (fresh_nodes_spec ∅ (concat rs)).
Qed.

Lemma lookup_inv_init :
  nearest bucketSize l0 first → lookup_inv [] (lookup_init self first).
Proof.
  intros Hn. apply (lk_ask_inv [] _ []); simpl; [by rewrite app_nil_r|done|done|lia|constructor| |set_solver|done|].
  - apply not_elem_of_nil.
  - intros n []%not_elem_of_nil.
Qed.

Lemma lookup_inv_step rs s r s' :
  Forall sha_wf l0 → Forall sha_wf (concat rs) → Forall sha_wf r → length (bd_target first) = 32 →
  lookup_inv rs s → lookup_step s r s' → lookup_inv (rs ++ [r]) s'.
Proof.
  intros W0 Wrs Wr Wt [I1 I2 I3 I4 (A & A1 & A2 & A3 & A4 & A5) I6] Hs. destruct Hs as [s i q r Hq].
  unfold lk_receive. rewrite receive_all_eq.
  assert (concat (rs ++ [r]) = concat rs ++ r) as Ec by (by rewrite concat_app; simpl; rewrite app_nil_r).
  assert (∀ seen l, Forall sha_wf l → Forall sha_wf (fresh_nodes seen l)) as Wf.
  { intros seen l Hl. apply Forall_forall. intros n Hn. rewrite Forall_forall in Hl. apply Hl.
    by apply (fresh_nodes_spec seen l). }
  destruct (push_all_nearest bucketSize (fresh_nodes (lk_seen s) r) (lk_result s) (l0 ++ fresh_nodes ∅ (concat rs)) I1)
    as [Hn' Et']; [by apply Forall_app; auto|by apply Wf|by rewrite I2|].
  pose proof (lookup_lt_Some _ _ _ Hq) as Hi. pose proof (length_delete _ i ltac:(eexists; exact Hq)) as Ld.
  apply (lk_ask_inv (rs ++ [r]) _ A); simpl; rewrite ?Ec.
  - rewrite fresh_nodes_app, app_assoc. rewrite I3 in Hn'. rewrite union_empty_r_L, I3. done.
  - by rewrite Et'.
  - rewrite I3. set_solver.
  - lia.
  - done.
  - done.
  - done.
  - rewrite length_app. simpl. lia.
  - intros n Hn. destruct (A5 n Hn); [by left|]. right. apply elem_of_app. by left.
Qed.

Lemma lookup_run_inv s rs :
  nearest bucketSize l0 first → Forall sha_wf l0 → Forall sha_wf (concat rs) → length (bd_target first) = 32 →
  lookup_run (lookup_init self first) rs s → lookup_inv rs s.
Proof.
  intros Hn W0 Wrs Wt Hr. remember (lookup_init self first) as s0 eqn:E0.
  induction Hr as [s|s rs s1 r s2 Hr IH Hs].
  - subst. by apply lookup_inv_init.
  - rewrite concat_app in Wrs. simpl in Wrs. rewrite app_nil_r in Wrs. apply Forall_app in Wrs as [W1 W2].
    eapply lookup_inv_step; [done|exact W1|exact W2|done|by apply IH|done].
Qed.

(** As many answers as nodes asked, and those are different nodes. *)
Lemma lookup_bound (U : gset NodeID) rs s :
  lookup_inv rs s → (∀ n, n ∈ l0 ∨ n ∈ concat rs → n_ID n ∈ U) →
  length rs + length (lk_pending s) ≤ size (U ∖ {[ self ]}).
Proof.
  intros [_ _ _ _ (A & A1 & A2 & _ & A4 & A5) _] HU. rewrite <- A4, <- (length_fmap n_ID).
  rewrite <- (size_list_to_set (C := gset NodeID)) by done. apply subseteq_size.
  intros x. rewrite elem_of_list_to_set. intros (n & -> & Hn)%list_elem_of_fmap.
  apply elem_of_difference. split; [by apply HU, A5|]. rewrite elem_of_singleton. intros E. apply A2.
  rewrite <- E. by apply list_elem_of_fmap_2.
Qed.
End run.

(** ** Claims *)

(** C28: a lookup ends: whatever the nodes of the network answer and in
    whatever order, it receives at most one answer per node that exists beside
    the local one, and until it is done the answer to any pending query lets
    it go on. *)
Theorem lookup_terminates (self : NodeID) (l0 : list Node) (first : nodesByDistance) (U : gset NodeID)
    (rs : list (list Node)) (s : lookup_state) :
  nearest bucketSize l0 first → length (bd_target first) = 32 →
  Forall sha_wf (l0 ++ concat rs) → (∀ n, n ∈ l0 ++ concat rs → n_ID n ∈ U) →
  lookup_run (lookup_init self first) rs s →
  length rs + length (lk_pending s) ≤ size (U ∖ {[ self ]}) ∧ length (lk_pending s) ≤ alpha ∧
  (¬ lookup_done s → ∀ reply, ∃ s', lookup_step s reply s').
Proof.
  intros Hn Ht Hw HU Hr. apply Forall_app in Hw as [W0 Wrs].
  pose proof (lookup_run_inv self l0 first s rs Hn W0 Wrs Ht Hr) as Hi.
  split_and!; [|apply Hi|].
  - apply (lookup_bound self l0 first U rs s Hi). intros n Hn'. apply HU, elem_of_app. done.
  - intros Hd reply. destruct (lk_pending s) as [|q qs] eqn:Eq; [by destruct Hd|].
    exists (lk_ask (lk_receive s 0 reply)). apply (lookup_answer s 0 q). by rewrite Eq.
Qed.

(** The example: the table holds one node, which answers with two. *)
Definition ex_first : nodesByDistance := MkByDist [ex_node x01 x01 x01] (replicate 32 x07).
Definition ex_replies : list (list Node) := [[ex_node x02 x02 x02; ex_node x01 x01 x01]; []].
Definition ex_end : lookup_state :=
  lk_ask (lk_receive (lk_ask (lk_receive (lookup_init (ex_id x00) ex_first) 0 (nth 0 ex_replies []))) 0 []).

Lemma ex_run : lookup_run (lookup_init (ex_id x00) ex_first) ex_replies ex_end.
Proof.
  change ex_replies with ([nth 0 ex_replies []] ++ [[]]).
  eapply run_snoc; [eapply (run_snoc _ []); [apply run_nil|]|].
  - apply (lookup_answer _ 0 (ex_node x01 x01 x01)). vm_compute. reflexivity.
  - apply (lookup_answer _ 0 (ex_node x02 x02 x02)). vm_compute. reflexivity.
Qed.

Lemma ex_first_nearest : nearest bucketSize [ex_node x01 x01 x01] ex_first.
Proof.
  split_and!; [repeat constructor|simpl; unfold bucketSize; lia|]. exists [].
  split_and!; [done|done|intros x y _ []%not_elem_of_nil].
Qed.

Lemma ex_wf : Forall sha_wf ([ex_node x01 x01 x01] ++ concat ex_replies).
Proof. repeat constructor. Qed.

Lemma lookup_terminates_witness :
  length ex_replies + length (lk_pending ex_end) ≤ 2.
Proof.
  destruct (lookup_terminates (ex_id x00) [ex_node x01 x01 x01] ex_first {[ ex_id x01; ex_id x02 ]} ex_replies ex_end)
    as [H _].
  - exact ex_first_nearest.
  - reflexivity.
  - exact ex_wf.
  - apply (Forall_forall (λ n, n_ID n ∈ ({[ ex_id x01; ex_id x02 ]} : gset NodeID))).
    refine (bool_decide_eq_true_1 _ _). vm_compute. reflexivity.
  - exact ex_run.
  - vm_compute in H |- *. exact H.
Defined.

(** When a lookup is done it has asked every node of its result but the
    local one, each node once, and all have answered; the result is the sixteen
    nearest, nearest first, of the nodes of the table and of all the different
    nodes it was told of. *)
Theorem lookup_result (self : NodeID) (l0 : list Node) (first : nodesByDistance) (rs : list (list Node))
    (s : lookup_state) :
  nearest bucketSize l0 first → length (bd_target first) = 32 → Forall sha_wf (l0 ++ concat rs) →
  lookup_run (lookup_init self first) rs s → lookup_done s →
  (∃ A, NoDup (n_ID <$> A) ∧ length A = length rs ∧ (∀ n, n ∈ A → n ∈ l0 ++ concat rs) ∧
     ∀ n, n ∈ bd_entries (lk_result s) → n_ID n = self ∨ n_ID n ∈ n_ID <$> A) ∧
  bd_target (lk_result s) = bd_target first ∧
  nearest bucketSize (l0 ++ fresh_nodes ∅ (concat rs)) (lk_result s) ∧
  NoDup (n_ID <$> fresh_nodes ∅ (concat rs)) ∧
  ∀ n, n ∈ concat rs → n_ID n ∈ n_ID <$> fresh_nodes ∅ (concat rs).
Proof.
  intros Hn Ht Hw Hr Hd. apply Forall_app in Hw as [W0 Wrs].
  destruct (lookup_run_inv self l0 first s rs Hn W0 Wrs Ht Hr) as [I1 I2 _ _ (A & A1 & A2 & A3 & A4 & A5) I6].
  unfold lookup_done in Hd. rewrite Hd in A4, I6. split_and!.
  - exists A. split_and!; [done|simpl in A4; lia| |].
    + intros n HA. apply elem_of_app. by apply A5.
    + intros n He. specialize (I6 ltac:(unfold alpha; simpl; lia) n He). rewrite A3 in I6. set_solver.
  - done.
  - done.
  - apply fresh_nodes_spec.
  - intros n Hn'. apply fresh_nodes_covers; [done|apply not_elem_of_empty].
Qed.

Lemma lookup_result_witness :
  lookup_done ex_end ∧ bd_target (lk_result ex_end) = replicate 32 x07 ∧
  (n_ID <$> bd_entries (lk_result ex_end)) = [ex_id x01; ex_id x02; ex_id x01].
Proof.
  assert (lookup_done ex_end) as Hd by (vm_compute; reflexivity).
  destruct (lookup_result (ex_id x00) [ex_node x01 x01 x01] ex_first ex_replies ex_end
    ex_first_nearest eq_refl ex_wf ex_run Hd) as (_ & H & _).
  split; [exact Hd|]. split; [exact H|]. vm_compute. reflexivity.
Defined.

(** The set of nodes already seen does not hold those of the table: a node
    of the table that is also in an answer is twice in the result, where it
    takes the place of a farther one. *)
Theorem lookup_repeats_a_node :
  ∃ self l0 first rs s, nearest bucketSize l0 first ∧ NoDup (n_ID <$> l0) ∧ Forall (λ r, NoDup (n_ID <$> r)) rs ∧
    lookup_run (lookup_init self first) rs s ∧ lookup_done s ∧ ¬ NoDup (n_ID <$> bd_entries (lk_result s)).
Proof.
  exists (ex_id x00), [ex_node x01 x01 x01], ex_first, [[ex_node x01 x01 x01; ex_node x02 x02 x02]; []].
  eexists. split; [exact ex_first_nearest|]. split.
  { refine (bool_decide_eq_true_1 _ _). vm_compute. reflexivity. }
  split.
  { refine (bool_decide_eq_true_1 _ _). vm_compute. reflexivity. }
  split.
  - change [[ex_node x01 x01 x01; ex_node x02 x02 x02]; []] with ([[ex_node x01 x01 x01; ex_node x02 x02 x02]] ++ [[]]).
    eapply run_snoc; [eapply (run_snoc _ []); [apply run_nil|]|].
    + apply (lookup_answer _ 0 (ex_node x01 x01 x01)). vm_compute. reflexivity.
    + apply (lookup_answer _ 0 (ex_node x02 x02 x02)). vm_compute. reflexivity.
  - split; [vm_compute; reflexivity|]. refine (bool_decide_eq_false_1 _ _). vm_compute. reflexivity.
Qed.
