(* ===== verification/NodeDB.v ===== *)
(** * The node database

    [p2p/discover/database.go]: what is remembered of every node ever seen - its
    record, the times of its last ping and pong, its failures - in goleveldb,
    under keys made of the node's identifier and a field name.  The store is
    the interface [LevelDB], the encoding of a node as RLP a parameter. *)

From S2P Require Import Prelude CommonTypes LevelDB Netutil Discover KadTable.

Set Default Goal Selector "!".
Set Default Proof Using "Type".

(** ** Varints, [encoding/binary] *)

Definition zigzag (x : Z) : Z := if (x <? 0)%Z then (2 * - x - 1)%Z else (2 * x)%Z.
Definition unzigzag (ux : Z) : Z := if Z.odd ux then (- (ux / 2) - 1)%Z else (ux / 2)%Z.

(** [PutUvarint] of a [uint64]: ten bytes hold it. *)
Fixpoint PutUvarint (fuel : nat) (x : Z) : bytes :=
  match fuel with
  | O => []
  | S f => if (x <? 128)%Z then [byte_of_Z x] else byte_of_Z (Z.lor (x mod 128) 128) :: PutUvarint f (x / 128)
  end.
Definition MaxVarintLen64 : nat := 10.
(** [PutVarint]: for [x < 0] the code complements [uint64(x) << 1]. *)
Definition PutVarint (x : Z) : bytes := PutUvarint MaxVarintLen64 (zigzag x).

(** [Uvarint]: the value and the number of bytes read, [0] when the buffer is
    too small, negative when it overflows. *)
Fixpoint Uvarint_loop (buf : bytes) (i : nat) (x : Z) : Z * Z :=
  match buf with
  | [] => (0, 0)%Z
  | b :: buf =>
    if (byteZ b <? 128)%Z then
      if decide (9 < i ∨ i = 9 ∧ (1 < byteZ b)%Z) then (0, - (Z.of_nat i + 1))%Z
      else (u64 (x + byteZ b * 2 ^ (7 * Z.of_nat i)), Z.of_nat i + 1)%Z
    else Uvarint_loop buf (S i) (u64 (x + (byteZ b mod 128) * 2 ^ (7 * Z.of_nat i)))
  end.
Definition Varint (buf : bytes) : Z * Z := let '(ux, n) := Uvarint_loop buf 0 0 in (unzigzag ux, n).

(** ** Keys *)

Definition str (s : string) : bytes := String.list_byte_of_string s.
Definition nodeDBNilNodeID : NodeID := EmptyNodeID.
Definition nodeDBVersionKey : bytes := str "version".
Definition nodeDBItemPrefix : bytes := str "n:".
Definition nodeDBDiscoverRoot : bytes := str ":discover".
Definition nodeDBDiscoverPing : bytes := nodeDBDiscoverRoot ++ str ":lastping".
Definition nodeDBDiscoverPong : bytes := nodeDBDiscoverRoot ++ str ":lastpong".
Definition nodeDBDiscoverFindFails : bytes := nodeDBDiscoverRoot ++ str ":findfail".

(** Nanoseconds. *)
Definition second : Z := 10 ^ 9.
Definition nodeDBNodeExpiration : Z := 24 * 3600 * second.
Definition nodeDBVersion : Z := 5.

Definition makeKey (id : NodeID) (field : bytes) : bytes :=
  if decide (id = nodeDBNilNodeID) then field else nodeDBItemPrefix ++ id ++ field.

(** A key with the prefix but too short for an identifier is sliced out of
    range. *)
Definition splitKey (key : bytes) : outcome (NodeID * bytes) :=
  if decide (take (length nodeDBItemPrefix) key = nodeDBItemPrefix) then
    item ← slice_from (length nodeDBItemPrefix) key;
    id ← slice 0 SizeNodeID item;
    field ← slice_from SizeNodeID item;
    Ok (go_copy EmptyNodeID id, field)
  else Ok (EmptyNodeID, key).

(** ** Encoding

    RLP keeps the exported fields of a node but [PeerInfo]; the unexported
    [sha] of the decoded node is the zero hash.  The address of the decoded
    node is the argument of [rlp_DecodeBytes]. *)
Definition decoded_node (new : positive) (n : Node) : Node :=
  MkNode new (n_IP n) (n_UDP n) (n_TCP n) (n_ID n) (n_IsWebrtc n) (n_IsP2P n) (n_PeerID n) None (replicate 32 x00).

Class NodeRLP := {
  rlp_EncodeToBytes : Node → outcome bytes;
  rlp_DecodeBytes : positive → bytes → outcome Node;
  rlp_roundtrip n b new : rlp_EncodeToBytes n = Ok b → rlp_DecodeBytes new b = Ok (decoded_node new n);
  rlp_decoded new b n : rlp_DecodeBytes new b = Ok n → n_sha n = replicate 32 x00;
  rlp_no_panic new b : rlp_DecodeBytes new b ≠ Panic
}.

Section NodeDB.
Context `{Crypto, NodeRLP} {S : Type} `{LevelDB S}.

Definition fetchInt64 (s : S) (key : bytes) : Z :=
  match ldb_get s key with
  | inr _ => 0
  | inl blob => let '(val, read) := Varint blob in if (read <=? 0)%Z then 0 else val
  end.
Definition storeInt64 (s : S) (key : bytes) (n : Z) : S * option GoErr := ldb_put s key (PutVarint n).

(** A node whose record cannot be read or decoded is [nil]. *)
Definition db_node (s : S) (new : positive) (id : NodeID) : option Node :=
  match ldb_get s (makeKey id nodeDBDiscoverRoot) with
  | inr _ => None
  | inl blob =>
    match rlp_DecodeBytes new blob with
    | Ok n => Some (MkNode new (n_IP n) (n_UDP n) (n_TCP n) (n_ID n) (n_IsWebrtc n) (n_IsP2P n) (n_PeerID n)
                      (n_PeerInfo n) (Keccak256 (n_ID n)))
    | _ => None
    end
  end.

Definition updateNode (s : S) (n : Node) : S * option GoErr :=
  match rlp_EncodeToBytes n with
  | Ok blob => ldb_put s (makeKey (n_ID n) nodeDBDiscoverRoot) blob
  | Err e => (s, Some e)
  | Panic => (s, None)
  end.

(** The loop over the snapshot of the iterator; it stops at the first error. *)
Fixpoint delete_loop (s : S) (items : list (bytes * bytes)) : S * option GoErr :=
  match items with
  | [] => (s, None)
  | (k, _) :: items =>
    match ldb_delete s k with
    | (s, Some e) => (s, Some e)
    | (s, None) => delete_loop s items
    end
  end.
Definition deleteNode (s : S) (id : NodeID) : S * option GoErr :=
  delete_loop s (ldb_range s (BytesPrefix (makeKey id []))).

(** [time.Unix(sec, 0)] in nanoseconds. *)
Definition lastPingReceived (s : S) (id : NodeID) : Z := (fetchInt64 s (makeKey id nodeDBDiscoverPing) * second)%Z.
Definition lastPongReceived (s : S) (id : NodeID) : Z := (fetchInt64 s (makeKey id nodeDBDiscoverPong) * second)%Z.
Definition updateLastPingReceived (s : S) (id : NodeID) (instance : Z) : S * option GoErr :=
  storeInt64 s (makeKey id nodeDBDiscoverPing) (instance / second).
Definition updateLastPongReceived (s : S) (id : NodeID) (instance : Z) : S * option GoErr :=
  storeInt64 s (makeKey id nodeDBDiscoverPong) (instance / second).
Definition hasBond (s : S) (id : NodeID) (now : Z) : bool := (now - lastPongReceived s id <? nodeDBNodeExpiration)%Z.
Definition findFails (s : S) (id : NodeID) : Z := fetchInt64 s (makeKey id nodeDBDiscoverFindFails).
Definition updateFindFails (s : S) (id : NodeID) (fails : Z) : S * option GoErr :=
  storeInt64 s (makeKey id nodeDBDiscoverFindFails) fails.

(** [expireNodes]: the iterator is a snapshot, the times are read and the
    nodes deleted in the store itself; an error of [deleteNode] is ignored. *)
Fixpoint expire_loop (self : NodeID) (threshold : Z) (s : S) (items : list (bytes * bytes)) : outcome S :=
  match items with
  | [] => Ok s
  | (k, _) :: items =>
    '(id, field) ← splitKey k;
    if decide (field ≠ nodeDBDiscoverRoot) then expire_loop self threshold s items
    else if bool_decide (id ≠ self) && (threshold <? lastPongReceived s id)%Z then expire_loop self threshold s items
    else expire_loop self threshold (deleteNode s id).1 items
  end.
Definition expireNodes (self : NodeID) (now : Z) (s : S) : outcome S :=
  expire_loop self (now - nodeDBNodeExpiration) s (ldb_range s (MkRange None None)).

(** [nextNode] from the position of the iterator; each round moves it on, so
    the number of records bounds the rounds. *)
Fixpoint nextNode (fuel : nat) (new : positive) (it : Iterator) : outcome (Iterator * option Node) :=
  match fuel with
  | O => Ok (it, None)
  | Datatypes.S f =>
    let '(key, value) := default ([], []) (iter_cur it) in
    '(id, field) ← splitKey key;
    let continue := match iter_Next it with (it, true) => nextNode f new it | (it, false) => Ok (it, None) end in
    if decide (field ≠ nodeDBDiscoverRoot) then continue
    else match rlp_DecodeBytes new value with
         | Ok n => Ok (it, Some n)
         | Err _ => continue
         | Panic => Panic
         end
  end.

(** [querySeeds]: [rnd i] is what [rand.Read] put into the identifier at seek
    [i], [new i] the address of the node read. *)
Fixpoint seek_loop (fuel : nat) (s : S) (self : NodeID) (now maxAge : Z) (rnd : nat → NodeID) (new : nat → positive)
    (n seeks : nat) (id0 : byte) (it : Iterator) (nodes : list Node) : outcome (list Node) :=
  match fuel with
  | O => Ok nodes
  | Datatypes.S f =>
    if decide (n ≤ length nodes) then Ok nodes else
    let r := rnd seeks in
    let b := byte_of_Z (byteZ id0 + byteZ (hd x00 r) mod 16) in
    let id := b :: tail r in
    let it := iter_Seek (makeKey id nodeDBDiscoverRoot) it in
    '(it, found) ← nextNode (Datatypes.S (length (it_items it))) (new seeks) it;
    match found with
    | None => seek_loop f s self now maxAge rnd new n (Datatypes.S seeks) x00 it nodes
    | Some m =>
      let nodes :=
        if decide (n_ID m = self) then nodes
        else if decide (maxAge < now - lastPongReceived s (n_ID m))%Z then nodes
        else if existsb (λ x, bool_decide (n_ID x = n_ID m)) nodes then nodes
        else nodes ++ [m] in
      seek_loop f s self now maxAge rnd new n (Datatypes.S seeks) b it nodes
    end
  end.
Definition querySeeds (s : S) (self : NodeID) (now : Z) (n : nat) (maxAge : Z) (rnd : nat → NodeID) (new : nat → positive)
    : outcome (list Node) :=
  seek_loop (n * 5) s self now maxAge rnd new n 0 x00 (iter_new (ldb_range s (MkRange None None))) [].

(** [newPersistentNodeDB]: [opened] is the store under the path, [fresh] the one
    opened after [os.RemoveAll], if that succeeds; the second attempt finds no
    version.  A read error other than [ErrNotFound] is passed over. *)
Definition currentVer (version : Z) : bytes := PutVarint version.
Definition put_version (s : S) (version : Z) : outcome S :=
  match ldb_put s nodeDBVersionKey (currentVer version) with
  | (s, None) => Ok s
  | (_, Some e) => Err e
  end.
Definition newPersistentNodeDB (opened : S) (version : Z) (fresh : outcome S) : outcome S :=
  match ldb_get opened nodeDBVersionKey with
  | inr LDBErrNotFound => put_version opened version
  | inr _ => Ok opened
  | inl blob => if decide (blob = currentVer version) then Ok opened else s ← fresh; put_version s version
  end.
End NodeDB.

(** ** Varints read back *)

Lemma zigzag_range x : in_i64 x → (0 ≤ zigzag x < 2 ^ 64)%Z.
Proof. unfold zigzag. intros. destruct (Z.ltb_spec x 0); word. Qed.
Lemma unzigzag_zigzag x : unzigzag (zigzag x) = x.
Proof.
  unfold zigzag, unzigzag. destruct (Z.ltb_spec x 0).
  - replace (2 * - x - 1)%Z with (2 * (- x - 1) + 1)%Z by lia. rewrite Z.add_comm, Z.odd_add_mul_2.
    simpl. Z.to_euclidean_division_equations; lia.
  - rewrite Z.odd_mul. simpl. Z.to_euclidean_division_equations; lia.
Qed.

Lemma high_bit y : (0 ≤ y)%Z → byteZ (byte_of_Z (Z.lor (y mod 128) 128)) = (y mod 128 + 128)%Z.
Proof.
  intros Hy. rewrite byteZ_of_Z, <- Z.add_nocarry_lor.
  - apply Z.mod_small. pose proof (Z.mod_pos_bound y 128). lia.
  - change 128%Z with (2 ^ 7)%Z at 1. rewrite <- Z.land_ones, <- Z.land_assoc by lia. apply Z.land_0_r.
Qed.

Lemma Uvarint_put f i x y rest :
  f + i = MaxVarintLen64 → 0 < f → (0 ≤ y)%Z → (0 ≤ x)%Z → (x + y * 2 ^ (7 * Z.of_nat i) < 2 ^ 64)%Z →
  Uvarint_loop (PutUvarint f y ++ rest) i x =
    ((x + y * 2 ^ (7 * Z.of_nat i))%Z, (Z.of_nat i + Z.of_nat (length (PutUvarint f y)))%Z).
Proof.
  unfold MaxVarintLen64.
  revert i x y. induction f as [|f IH]; intros i x y Hf Hpos Hy Hx Hb; [lia|]. simpl PutUvarint.
  pose proof (Z.pow_pos_nonneg 2 (7 * Z.of_nat i) ltac:(lia) ltac:(lia)) as Hp.
  destruct (Z.ltb_spec y 128) as [Hlt|Hge].
  - simpl. rewrite byteZ_of_Z, (Z.mod_small y) by lia. destruct (Z.ltb_spec y 128); [|lia].
    rewrite decide_False.
    + rewrite u64_small by word. done.
    + intros [?|[-> H1]]; [lia|]. change (2 ^ (7 * Z.of_nat 9))%Z with 9223372036854775808%Z in Hb.
      change (2 ^ 64)%Z with 18446744073709551616%Z in Hb. lia.
  - simpl app. simpl Uvarint_loop. rewrite high_bit by lia.
    pose proof (Z.mod_pos_bound y 128 ltac:(lia)) as Hm. pose proof (Z.div_mod y 128 ltac:(lia)) as Hdm.
    destruct (Z.ltb_spec (y mod 128 + 128) 128); [lia|].
    replace ((y mod 128 + 128) mod 128)%Z with (y mod 128)%Z
      by (clear; Z.to_euclidean_division_equations; lia).
    assert (2 ^ (7 * Z.of_nat (Datatypes.S i)) = 128 * 2 ^ (7 * Z.of_nat i))%Z as E.
    { replace (7 * Z.of_nat (Datatypes.S i))%Z with (7 + 7 * Z.of_nat i)%Z by lia.
      rewrite Z.pow_add_r by lia. done. }
    assert (x + y mod 128 * 2 ^ (7 * Z.of_nat i) + y / 128 * 2 ^ (7 * Z.of_nat (Datatypes.S i))
            = x + y * 2 ^ (7 * Z.of_nat i))%Z as Esum.
    { rewrite E. rewrite Hdm at 3. ring. }
    pose proof (Z.div_pos y 128 ltac:(lia) ltac:(lia)) as Hd.
    rewrite u64_small by (split; nia). destruct f as [|f].
    { exfalso. assert (i = 9) as -> by lia. change (2 ^ (7 * Z.of_nat 9))%Z with 9223372036854775808%Z in Hb.
      change (2 ^ 64)%Z with 18446744073709551616%Z in Hb. lia. }
    rewrite IH; [|lia|lia|lia|nia|lia]. rewrite Esum. f_equal. simpl length. lia.
Qed.

Lemma PutUvarint_pos f y : 0 < f → 0 < length (PutUvarint f y).
Proof. destruct f; simpl; [lia|]. destruct (y <? 128)%Z; simpl; lia. Qed.

Lemma varint_core x rest :
  in_i64 x → Varint (PutVarint x ++ rest) = (x, Z.of_nat (length (PutVarint x))) ∧ 0 < length (PutVarint x).
Proof.
  intros Hx. pose proof (zigzag_range x Hx) as Hz. unfold Varint, PutVarint. split; [|apply PutUvarint_pos; unfold MaxVarintLen64; lia].
  rewrite Uvarint_put; [|done|unfold MaxVarintLen64; lia|lia|lia|].
  - change (2 ^ (7 * Z.of_nat 0))%Z with 1%Z. rewrite Z.mul_1_r, Z.add_0_l, unzigzag_zigzag. done.
  - change (2 ^ (7 * Z.of_nat 0))%Z with 1%Z. lia.
Qed.

(** ** Keys *)

Lemma splitKey_makeKey id field :
  nodeid_wf id → id ≠ nodeDBNilNodeID → splitKey (makeKey id field) = Ok (id, field).
Proof.
  intros Hw Hn. unfold makeKey. rewrite decide_False by done. unfold splitKey.
  rewrite take_app_length, decide_True by done. rewrite (slice_from_app nodeDBItemPrefix (id ++ field)) by done. cbn [mbind outcome_bind].
  assert (slice 0 SizeNodeID (id ++ field) = Ok id) as -> by (by apply (slice_app [] id field)).
  cbn [mbind outcome_bind]. rewrite (slice_from_app id field) by done. cbn [mbind outcome_bind].
  rewrite go_copy_full; [done|]. rewrite Hw. done.
Qed.

Lemma makeKey_inj id1 id2 f1 f2 :
  nodeid_wf id1 → nodeid_wf id2 → id1 ≠ nodeDBNilNodeID → id2 ≠ nodeDBNilNodeID →
  makeKey id1 f1 = makeKey id2 f2 → id1 = id2 ∧ f1 = f2.
Proof.
  intros W1 W2 N1 N2 E. pose proof (splitKey_makeKey id1 f1 W1 N1) as E1.
  rewrite E, (splitKey_makeKey id2 f2 W2 N2) in E1. by injection E1.
Qed.

(** The keys of a node are those that start with its empty-field key. *)
Lemma makeKey_prefix id1 id2 f :
  nodeid_wf id1 → nodeid_wf id2 → id1 ≠ nodeDBNilNodeID → id2 ≠ nodeDBNilNodeID →
  makeKey id1 [] `prefix_of` makeKey id2 f ↔ id1 = id2.
Proof.
  intros W1 W2 N1 N2. split.
  - intros [r E]. apply (makeKey_inj id1 id2 r f); [done..|]. rewrite E. unfold makeKey.
    rewrite !decide_False by done. by rewrite app_nil_r, <- app_assoc.
  - intros ->. exists f. unfold makeKey. rewrite !decide_False by done. by rewrite app_nil_r, <- app_assoc.
Qed.

(** ** Operations on the store *)

Section ops.
Context `{Crypto, NodeRLP} {S : Type} `{LevelDB S}.

Lemma fetch_store s k n k' :
  healthy s → in_i64 n →
  (storeInt64 s k n).2 = None ∧ healthy (storeInt64 s k n).1 ∧
  fetchInt64 (storeInt64 s k n).1 k' = if decide (k' = k) then n else fetchInt64 s k'.
Proof.
  intros Hs Hn. unfold storeInt64. destruct (ldb_put_ok s k (PutVarint n) Hs) as (E1 & E2 & E3).
  split; [done|]. split; [done|]. unfold fetchInt64. rewrite !ldb_get_ok, E3 by done.
  case_decide as Hk; subst; [|by rewrite lookup_insert_ne by done].
  rewrite lookup_insert_eq. destruct (varint_core n [] Hn) as [Ev Hl]. rewrite app_nil_r in Ev. rewrite Ev.
  destruct (Z.leb_spec (Z.of_nat (length (PutVarint n))) 0); [lia|done].
Qed.

Lemma fetch_ext s s' k :
  healthy s → healthy s' → ldb_view s' !! k = ldb_view s !! k → fetchInt64 s' k = fetchInt64 s k.
Proof. intros Hs Hs' E. unfold fetchInt64. by rewrite !ldb_get_ok, E by done. Qed.

Lemma delete_loop_eq s items :
  healthy s → delete_loop s items = (ldb_delete_all s items.*1, None).
Proof.
  revert s. induction items as [|[k v] items IH]; intros s Hs; simpl; [done|].
  destruct (ldb_delete_ok s k Hs) as (E1 & E2 & _). destruct (ldb_delete s k) as [s' e]. simpl in *. subst e.
  by rewrite IH.
Qed.

(** Exactly the keys with the node's prefix go. *)
Lemma db_deleteNode_spec s id :
  healthy s →
  (deleteNode s id).2 = None ∧ healthy (deleteNode s id).1 ∧
  ∀ k, ldb_view (deleteNode s id).1 !! k =
       if decide (makeKey id [] `prefix_of` k) then None else ldb_view s !! k.
Proof.
  intros Hs. unfold deleteNode. rewrite delete_loop_eq by done. simpl.
  destruct (ldb_delete_all_ok s (ldb_range s (BytesPrefix (makeKey id []))).*1 Hs) as [Hh Hv].
  split; [done|]. split; [done|]. intros k. rewrite Hv, lookup_del_keys.
  destruct (decide (k ∈ _)) as [Hin|Hin].
  - apply list_elem_of_fmap in Hin as ([k' v] & -> & Hin). apply ldb_range_elem in Hin as [_ Hr]; [|done].
    apply in_range_BytesPrefix in Hr. by rewrite decide_True.
  - case_decide as Hp; [|done]. destruct (ldb_view s !! k) as [v|] eqn:Ev; [|done]. exfalso. apply Hin.
    apply list_elem_of_fmap. exists (k, v). split; [done|]. apply ldb_range_elem; [done|]. split; [done|].
    by apply in_range_BytesPrefix.
Qed.

(** A store of the node database: the version and keys of nodes with an
    identifier other than the zero one. *)
Definition db_wf (s : S) : Prop :=
  ∀ k, is_Some (ldb_view s !! k) →
    k = nodeDBVersionKey ∨ ∃ id field, nodeid_wf id ∧ id ≠ nodeDBNilNodeID ∧ k = makeKey id field.

Lemma splitKey_version : splitKey nodeDBVersionKey = Ok (EmptyNodeID, nodeDBVersionKey).
Proof. reflexivity. Qed.

(** What expiry means for a node of the store as it was. *)
Definition has_record (s : S) (id : NodeID) : Prop := is_Some (ldb_view s !! makeKey id nodeDBDiscoverRoot).
Definition expired (s : S) (self : NodeID) (threshold : Z) (id : NodeID) : bool :=
  bool_decide (id = self) || (lastPongReceived s id <=? threshold)%Z.

Lemma expire_loop_spec self threshold s0 s items done :
  healthy s → healthy s0 → NoDup (done ++ items).*1 →
  (∀ k v, (k, v) ∈ items →
     k = nodeDBVersionKey ∨ ∃ id field, nodeid_wf id ∧ id ≠ nodeDBNilNodeID ∧ k = makeKey id field) →
  (∀ id k, nodeid_wf id → id ≠ nodeDBNilNodeID → makeKey id [] `prefix_of` k →
     ldb_view s !! k = if decide (makeKey id nodeDBDiscoverRoot ∈ done.*1 ∧ expired s0 self threshold id = true) then None
                       else ldb_view s0 !! k) →
  ldb_view s !! nodeDBVersionKey = ldb_view s0 !! nodeDBVersionKey →
  ∃ s', expire_loop self threshold s items = Ok s' ∧ healthy s' ∧
    (∀ id k, nodeid_wf id → id ≠ nodeDBNilNodeID → makeKey id [] `prefix_of` k →
     ldb_view s' !! k = if decide (makeKey id nodeDBDiscoverRoot ∈ (done ++ items).*1 ∧ expired s0 self threshold id = true)
                        then None else ldb_view s0 !! k) ∧
    ldb_view s' !! nodeDBVersionKey = ldb_view s0 !! nodeDBVersionKey.
Proof.
  intros Hs Hs0. revert s done Hs. induction items as [|[k v] items IH]; intros s done Hs Hnd Hwf Hinv Hver.
  { exists s. rewrite app_nil_r. done. }
  assert (done ++ (k, v) :: items = (done ++ [(k, v)]) ++ items) as Eapp by (by rewrite <- app_assoc).
  assert (∀ s1, healthy s1 → _ → ldb_view s1 !! nodeDBVersionKey = ldb_view s0 !! nodeDBVersionKey → _) as Hgo
    by exact (λ s1 J1 J2 J3, IH s1 (done ++ [(k, v)]) J1 ltac:(rewrite <- Eapp; exact Hnd)
               ltac:(intros k' v' Hin; apply (Hwf k' v'); by right) J2 J3).
  rewrite <- Eapp in Hgo. simpl.
  destruct (Hwf k v ltac:(by left)) as [->|(id & field & W & N & ->)].
  { rewrite splitKey_version. cbn [mbind outcome_bind]. rewrite decide_True by done. apply Hgo; [done| |done].
    intros id k W N Hk. rewrite (Hinv id k W N Hk). apply decide_ext. rewrite fmap_app, elem_of_app.
    split; [intros [? ?]; split; [by left|done]|]. intros [[?|Hin] ?]; [done|]. exfalso.
    apply list_elem_of_singleton in Hin. unfold makeKey in Hin. rewrite decide_False in Hin by done. done. }
  rewrite splitKey_makeKey by done. cbn [mbind outcome_bind].
  assert (∀ id', nodeid_wf id' → id' ≠ nodeDBNilNodeID →
     makeKey id' nodeDBDiscoverRoot ∈ (done ++ [(makeKey id field, v)]).*1 ↔
     makeKey id' nodeDBDiscoverRoot ∈ done.*1 ∨ (id' = id ∧ field = nodeDBDiscoverRoot)) as Hin'.
  { intros id' W' N'. rewrite fmap_app, elem_of_app. simpl. rewrite list_elem_of_singleton. split.
    - intros [?|E]; [by left|]. right. apply makeKey_inj in E as [-> ->]; done.
    - intros [?|[-> ->]]; [by left|by right]. }
  case_decide as Hf.
  { apply Hgo; [done| |done]. intros id' k' W' N' Hk. rewrite (Hinv id' k' W' N' Hk). apply decide_ext.
    rewrite (Hin' id' W' N'). naive_solver. }
  subst field.
  assert (lastPongReceived s id = lastPongReceived s0 id) as Epong.
  { unfold lastPongReceived. f_equal. apply fetch_ext; [done..|].
    rewrite (Hinv id _ W N); [|by apply makeKey_prefix]. rewrite decide_False; [done|]. intros [Hd _].
    rewrite fmap_app, NoDup_app in Hnd. destruct Hnd as (_ & Hnd & _). apply (Hnd _ Hd). simpl. by left. }
  rewrite Epong.
  assert (bool_decide (id ≠ self) && (threshold <? lastPongReceived s0 id)%Z = negb (expired s0 self threshold id)) as ->.
  { unfold expired. rewrite negb_orb, Z.leb_antisym, negb_involutive. f_equal.
    rewrite <- bool_decide_not. done. }
  destruct (expired s0 self threshold id) eqn:Ee; cbn [negb].
  - destruct (db_deleteNode_spec s id Hs) as (_ & Hs' & Hv). apply Hgo; [done| |].
    + intros id' k' W' N' Hk. rewrite Hv. destruct (decide (id' = id)) as [->|Hne].
      * rewrite decide_True by done. rewrite decide_True; [done|]. split; [|done]. apply Hin'; [done..|]. by right.
      * rewrite decide_False; [|intros Hp].
        -- rewrite (Hinv id' k' W' N' Hk). apply decide_ext. rewrite (Hin' id' W' N'). naive_solver.
        -- apply Hne. unfold makeKey in Hk, Hp. rewrite decide_False in Hk by done.
           rewrite decide_False in Hp by done. rewrite app_nil_r in Hk. rewrite app_nil_r in Hp.
           destruct Hk as [r1 E1], Hp as [r2 E2]. rewrite E1 in E2. rewrite <- !app_assoc in E2.
           apply app_inv_head in E2. apply app_inj_1 in E2 as [? _]; [done|]. by rewrite W, W'.
    + rewrite Hv. rewrite decide_False; [done|]. unfold makeKey. rewrite decide_False by done. by intros [r [=]].
  - apply Hgo; [done| |done]. intros id' k' W' N' Hk. rewrite (Hinv id' k' W' N' Hk). apply decide_ext.
    rewrite (Hin' id' W' N'). split; [naive_solver|]. intros [[?|[-> _]] He]; [done|]. by rewrite Ee in He.
Qed.

Lemma expireNodes_spec self now s :
  healthy s → db_wf s →
  ∃ s', expireNodes self now s = Ok s' ∧ healthy s' ∧
    (∀ id field, nodeid_wf id → id ≠ nodeDBNilNodeID →
       (has_record s id ∧ expired s self (now - nodeDBNodeExpiration) id = true →
          ldb_view s' !! makeKey id field = None) ∧
       (¬ has_record s id ∨ expired s self (now - nodeDBNodeExpiration) id = false →
          ldb_view s' !! makeKey id field = ldb_view s !! makeKey id field)) ∧
    ldb_view s' !! nodeDBVersionKey = ldb_view s !! nodeDBVersionKey.
Proof.
  intros Hs Hwf. set (items := ldb_range s (MkRange None None)).
  assert (∀ k, k ∈ items.*1 ↔ is_Some (ldb_view s !! k)) as Hk.
  { intros k. split.
    - intros ([k' v] & -> & Hin)%list_elem_of_fmap. apply ldb_range_elem in Hin as [Hin _]; [|done]. by eexists.
    - intros [v Hv]. apply list_elem_of_fmap. exists (k, v). split; [done|]. by apply ldb_range_elem. }
  destruct (expire_loop_spec self (now - nodeDBNodeExpiration) s s items []) as (s' & E & Hs' & Hv & Hver); [done..| | | |done|].
  - apply key_sorted_nodup, ldb_range_sorted.
  - intros k v Hin. apply Hwf, Hk. apply list_elem_of_fmap. by exists (k, v).
  - intros id k _ _ _. rewrite decide_False; [done|]. intros [Hin _]. by apply not_elem_of_nil in Hin.
  - exists s'. split; [exact E|]. split; [done|]. split; [|done]. intros id field W N. simpl in Hv.
    specialize (Hv id (makeKey id field) W N ltac:(by apply makeKey_prefix)). rewrite Hv.
    split; intros HH.
    + rewrite decide_True; [done|]. destruct HH as [HH ?]. split; [by apply Hk|done].
    + rewrite decide_False; [done|]. intros [Hin He]. apply Hk in Hin.
      destruct HH as [HH|HH]; [done|]. by rewrite HH in He.
Qed.

(** ** Seeds *)

(** A record of the snapshot that [nextNode] stops at. *)
Definition node_record (new : positive) (p : bytes * bytes) (m : Node) : Prop :=
  ∃ id, splitKey p.1 = Ok (id, nodeDBDiscoverRoot) ∧ rlp_DecodeBytes new p.2 = Ok m.

Lemma nextNode_ok fuel new it :
  (∀ p, p ∈ it_items it → ∃ r, splitKey p.1 = Ok r) →
  ∃ it' r, nextNode fuel new it = Ok (it', r) ∧ it_items it' = it_items it ∧
    ∀ m, r = Some m → ∃ p, p ∈ it_items it ∧ node_record new p m.
Proof.
  revert it. induction fuel as [|f IH]; intros it Hk; simpl; [by exists it, None|].
  assert (∃ id field, splitKey (default ([], []) (iter_cur it)).1 = Ok (id, field)) as (id & field & Es).
  { destruct (iter_cur it) as [p|] eqn:Ec; simpl; [|by eexists _, _].
    destruct (Hk p) as [[id field] E]; [|by eexists _, _]. unfold iter_cur in Ec.
    destruct (it_pos it); try done. by eapply list_elem_of_lookup_2. }
  assert (∃ it' r, match iter_Next it with (it, true) => nextNode f new it | (it, false) => Ok (it, None) end = Ok (it', r) ∧
    it_items it' = it_items it ∧ ∀ m, r = Some m → ∃ p, p ∈ it_items it ∧ node_record new p m) as Hc.
  { assert (it_items (iter_Next it).1 = it_items it) as Ei.
    { unfold iter_Next. destruct (it_pos it); try case_decide; done. }
    destruct (iter_Next it) as [it' [|]]; simpl in Ei.
    - destruct (IH it') as (it2 & r & E & Ei2 & Hr); [by rewrite Ei|]. rewrite Ei in *. eauto 6.
    - exists it', None. done. }
  destruct (default ([], []) (iter_cur it)) as [key value] eqn:Ed. simpl in Es. rewrite Es. cbn [mbind outcome_bind].
  case_decide as Hf; [done|]. subst field.
  destruct (rlp_DecodeBytes new value) as [m|e|] eqn:Er; [|done|by apply rlp_no_panic in Er].
  exists it, (Some m). split_and!; [done..|]. intros m' [= <-].
  destruct (iter_cur it) as [p|] eqn:Ec; simpl in Ed.
  - subst p. exists (key, value). split; [|by exists id]. unfold iter_cur in Ec.
    destruct (it_pos it); try done. by eapply list_elem_of_lookup_2.
  - injection Ed as <- <-. done.
Qed.

(** What holds of the seeds collected. *)
Definition seeds_ok (s : S) (self : NodeID) (now : Z) (n : nat) (maxAge : Z) (new : nat → positive) (nodes : list Node) : Prop :=
  length nodes ≤ n ∧ NoDup (n_ID <$> nodes) ∧
  ∀ m, m ∈ nodes → n_ID m ≠ self ∧ (now - lastPongReceived s (n_ID m) ≤ maxAge)%Z ∧ n_sha m = replicate 32 x00 ∧
    ∃ i p, p ∈ ldb_range s (MkRange None None) ∧ node_record (new i) p m.

Lemma seek_loop_ok fuel s self now maxAge rnd new n seeks id0 it nodes :
  (∀ p, p ∈ it_items it → ∃ r, splitKey p.1 = Ok r) → it_items it = ldb_range s (MkRange None None) →
  seeds_ok s self now n maxAge new nodes →
  ∃ nodes', seek_loop fuel s self now maxAge rnd new n seeks id0 it nodes = Ok nodes' ∧
    seeds_ok s self now n maxAge new nodes'.
Proof.
  revert seeks id0 it nodes. induction fuel as [|f IH]; intros seeks id0 it nodes Hk Ei Hok; [by exists nodes|].
  cbn [seek_loop]. case_decide as Hlen; [by exists nodes|].
  set (id := _ :: _). set (it1 := iter_Seek (makeKey id nodeDBDiscoverRoot) it).
  assert (it_items it1 = it_items it) as Ei1 by (unfold it1, iter_Seek; destruct (seek_index _ _ _); done).
  destruct (nextNode_ok (Datatypes.S (length (it_items it1))) (new seeks) it1) as (it2 & r & -> & Ei2 & Hr);
    [by rewrite Ei1|].
  cbn [mbind outcome_bind]. rewrite Ei1 in Ei2. destruct r as [m|]; (apply IH; [by rewrite Ei2|by rewrite Ei2|]); [|done].
  case_decide as Hself; [done|]. case_decide as Hage; [done|]. destruct (existsb _ _) eqn:Ex; [done|].
  destruct Hok as (Hl & Hnd & Hall). split_and!.
  - rewrite length_app. simpl. lia.
  - rewrite fmap_app. apply NoDup_app. split_and!; [done| |apply NoDup_singleton].
    intros x Hx ->%list_elem_of_singleton. apply Bool.not_true_iff_false in Ex. apply Ex, existsb_exists.
    apply list_elem_of_fmap in Hx as (y & Ey & Hy). exists y. split; [by apply list_elem_of_In|]. by apply bool_decide_eq_true_2.
  - intros x [Hx| ->%list_elem_of_singleton]%elem_of_app; [by apply Hall|].
    destruct (Hr m eq_refl) as (p & Hp & Hrec). split; [done|]. split; [lia|]. split; [|rewrite Ei1, Ei in Hp; eauto].
    destruct Hrec as (? & _ & Hd). by eapply rlp_decoded.
Qed.
End ops.

(** ** A concrete encoding and hash, for the witnesses *)

Definition exported (n : Node) : bytes * Z * Z * bytes * bool * bool * bytes :=
  (n_IP n, n_UDP n, n_TCP n, n_ID n, n_IsWebrtc n, n_IsP2P n, n_PeerID n).
Definition import_node (new : positive) (x : bytes * Z * Z * bytes * bool * bool * bytes) : Node :=
  let '(ip, udp, tcp, id, w, p, pid) := x in MkNode new ip udp tcp id w p pid None (replicate 32 x00).
#[global, program] Instance codec_rlp : NodeRLP := {|
  rlp_EncodeToBytes n := Ok (codec_enc (exported n));
  rlp_DecodeBytes new b := match codec_dec b with Some x => Ok (import_node new x) | None => Err ErrDecode end |}.
Next Obligation. intros n b new [= <-]. cbv beta. by rewrite codec_dec_enc. Qed.
Next Obligation.
  intros new b n. cbv beta. destruct (codec_dec b) as [[[[[[[ip udp] tcp] id] w] p] pid]|]; [|done]. by intros [= <-].
Qed.
Next Obligation. intros new b. cbv beta. by destruct (codec_dec b). Qed.

Definition head_crypto : Crypto := {|
  PubKey := bytes;
  PubkeyToAddress := toy_hash AddressLength;
  Keccak256 := toy_hash 32;
  PubkeyToAddress_length := toy_hash_length AddressLength;
  Keccak256_length := toy_hash_length 32 |}.

Definition seed_id : NodeID := xc0 :: replicate 63 x01.
Definition seed_node : Node := @NewNode head_crypto 1 seed_id [x52; x01; x01; x01] 30303 30303.
Definition seed_self : Node := @NewNode head_crypto 2 (replicate 64 x02) [x52; x01; x01; x02] 30303 30303.
Definition seed_store : mem_store :=
  (updateLastPongReceived (updateNode mem_empty seed_node).1 seed_id (1000 * second)).1.

(** ** Claims *)

(** What is stored of a node is read back: the record, with the hash of
    its identifier and without the peer information, the last ping, the last
    pong to the second, and the count of failures, each without touching the
    others or those of another node. *)
Theorem node_db_roundtrip `{Crypto, NodeRLP} {S : Type} `{LevelDB S} (s : S) n b t p f new id :
  healthy s → nodeid_wf (n_ID n) → n_ID n ≠ nodeDBNilNodeID → nodeid_wf id → id ≠ nodeDBNilNodeID → id ≠ n_ID n →
  rlp_EncodeToBytes n = Ok b → in_i64 (t / second) → in_i64 (p / second) → in_i64 f →
  let s1 := (updateNode s n).1 in
  let s2 := (updateLastPongReceived s1 (n_ID n) t).1 in
  let s3 := (updateLastPingReceived s2 (n_ID n) p).1 in
  let s4 := (updateFindFails s3 (n_ID n) f).1 in
  healthy s4 ∧
  (∃ m, db_node s4 new (n_ID n) = Some m ∧ n_sha m = Keccak256 (n_ID n) ∧ n_ID m = n_ID n ∧ n_IP m = n_IP n ∧
     n_UDP m = n_UDP n ∧ n_TCP m = n_TCP n ∧ n_IsP2P m = n_IsP2P n ∧ n_PeerInfo m = None) ∧
  lastPongReceived s4 (n_ID n) = (t / second * second)%Z ∧
  lastPingReceived s4 (n_ID n) = (p / second * second)%Z ∧ findFails s4 (n_ID n) = f ∧
  db_node s4 new id = db_node s new id ∧ lastPongReceived s4 id = lastPongReceived s id ∧
  lastPingReceived s4 id = lastPingReceived s id ∧ findFails s4 id = findFails s id.
Proof.
  intros Hs W N W' N' Hne Eb Ht Hp Hf s1 s2 s3 s4.
  assert (∀ id f f', makeKey id f = makeKey (n_ID n) f' → nodeid_wf id → id ≠ nodeDBNilNodeID → id = n_ID n ∧ f = f') as Hinj.
  { intros id0 f1 f2 E W0 N0. by apply (makeKey_inj id0 (n_ID n) f1 f2). }
  assert (healthy s1 ∧ ldb_view s1 = <[makeKey (n_ID n) nodeDBDiscoverRoot := b]> (ldb_view s)) as [H1' V1].
  { unfold s1, updateNode. rewrite Eb. split; [by apply ldb_put_healthy|by apply ldb_put_view]. }
  destruct (fetch_store s1 (makeKey (n_ID n) nodeDBDiscoverPong) (t / second) [] H1' Ht) as (_ & H2' & _).
  destruct (fetch_store s2 (makeKey (n_ID n) nodeDBDiscoverPing) (p / second) [] H2' Hp) as (_ & H3' & _).
  destruct (fetch_store s3 (makeKey (n_ID n) nodeDBDiscoverFindFails) f [] H3' Hf) as (_ & H4' & _).
  assert (∀ k, fetchInt64 s4 k =
    if decide (k = makeKey (n_ID n) nodeDBDiscoverFindFails) then f else
    if decide (k = makeKey (n_ID n) nodeDBDiscoverPing) then p / second else
    if decide (k = makeKey (n_ID n) nodeDBDiscoverPong) then t / second else fetchInt64 s1 k)%Z as Hfetch.
  { intros k.
    destruct (fetch_store s3 (makeKey (n_ID n) nodeDBDiscoverFindFails) f k H3' Hf) as (_ & _ & E4).
    destruct (fetch_store s2 (makeKey (n_ID n) nodeDBDiscoverPing) (p / second) k H2' Hp) as (_ & _ & E3).
    destruct (fetch_store s1 (makeKey (n_ID n) nodeDBDiscoverPong) (t / second) k H1' Ht) as (_ & _ & E2).
    change (fetchInt64 (storeInt64 s3 (makeKey (n_ID n) nodeDBDiscoverFindFails) f).1 k) with (fetchInt64 s4 k) in E4.
    change (fetchInt64 (storeInt64 s2 (makeKey (n_ID n) nodeDBDiscoverPing) (p / second)).1 k) with (fetchInt64 s3 k) in E3.
    change (fetchInt64 (storeInt64 s1 (makeKey (n_ID n) nodeDBDiscoverPong) (t / second)).1 k) with (fetchInt64 s2 k) in E2.
    by rewrite E4, E3, E2. }
  assert (∀ k, k ≠ makeKey (n_ID n) nodeDBDiscoverFindFails → k ≠ makeKey (n_ID n) nodeDBDiscoverPing →
    k ≠ makeKey (n_ID n) nodeDBDiscoverPong → ldb_view s4 !! k = ldb_view s1 !! k) as Hview.
  { intros k K1 K2 K3. unfold s4, s3, s2, updateFindFails, updateLastPingReceived, updateLastPongReceived, storeInt64.
    rewrite !ldb_put_view by (repeat apply ldb_put_healthy; done).
    by rewrite !lookup_insert_ne by done. }
  assert (∀ f, fetchInt64 s4 (makeKey id f) = fetchInt64 s (makeKey id f)) as Hother.
  { intros f0. rewrite Hfetch. rewrite !decide_False by (intros E; apply Hinj in E as [-> _]; done).
    apply fetch_ext; [done..|]. rewrite V1. apply lookup_insert_ne. intros E. symmetry in E. by apply Hinj in E as [-> _]. }
  split; [done|]. split_and!.
  - unfold db_node. rewrite ldb_get_ok by done. rewrite Hview by (intros E; apply Hinj in E as [_ E]; done).
    rewrite V1, lookup_insert_eq. rewrite (rlp_roundtrip n b new Eb). eexists. split; [reflexivity|]. done.
  - unfold lastPongReceived. rewrite Hfetch.
    rewrite !decide_False by (intros E; apply Hinj in E as [_ E]; done). by rewrite decide_True.
  - unfold lastPingReceived. rewrite Hfetch.
    rewrite decide_False by (intros E; apply Hinj in E as [_ E]; done). by rewrite decide_True.
  - unfold findFails. rewrite Hfetch. by rewrite decide_True.
  - unfold db_node. rewrite !ldb_get_ok by done. rewrite Hview by (intros E; apply Hinj in E as [-> _]; done).
    rewrite V1, lookup_insert_ne; [done|]. intros E. symmetry in E. by apply Hinj in E as [-> _].
  - unfold lastPongReceived. by rewrite Hother.
  - unfold lastPingReceived. by rewrite Hother.
  - unfold findFails. by rewrite Hother.
Qed.

Lemma node_db_roundtrip_witness :
  findFails (updateFindFails (updateLastPingReceived (updateLastPongReceived (updateNode mem_empty seed_node).1
    (n_ID seed_node) (7 * second)).1 (n_ID seed_node) (9 * second)).1 (n_ID seed_node) (-3)).1 (n_ID seed_node) = (-3)%Z.
Proof.
  destruct (@node_db_roundtrip head_crypto codec_rlp mem_store mem_leveldb mem_empty seed_node (codec_enc (exported seed_node))
    (7 * second) (9 * second) (-3) 1 (replicate 64 x05)) as (_ & _ & _ & _ & E & _); try done.
Defined.

(** A run of expiry never fails; it removes everything stored of the nodes
    whose last pong is a day old, and of the local node, and leaves every
    other node and the version of the database as they were. *)
Theorem expire_removes_stale {S : Type} `{LevelDB S} (s : S) self now :
  healthy s → db_wf s →
  ∃ s', expireNodes self now s = Ok s' ∧ healthy s' ∧
    (∀ id field, nodeid_wf id → id ≠ nodeDBNilNodeID →
       let stale := id = self ∨ (lastPongReceived s id ≤ now - nodeDBNodeExpiration)%Z in
       (has_record s id ∧ stale → ldb_view s' !! makeKey id field = None) ∧
       (¬ has_record s id ∨ ¬ stale → ldb_view s' !! makeKey id field = ldb_view s !! makeKey id field)) ∧
    ldb_view s' !! nodeDBVersionKey = ldb_view s !! nodeDBVersionKey.
Proof.
  intros Hs Hwf. destruct (expireNodes_spec self now s Hs Hwf) as (s' & E & Hs' & Hv & Hver).
  exists s'. split_and!; [done..| |done]. intros id field W N stale. destruct (Hv id field W N) as [V1 V2].
  assert (expired s self (now - nodeDBNodeExpiration) id = true ↔ stale) as He.
  { unfold expired, stale. rewrite orb_true_iff, bool_decide_eq_true, Z.leb_le. done. }
  rewrite <- He. split; [done|]. intros HH. apply V2. destruct HH as [?|HH]; [by left|].
  right. by apply Bool.not_true_is_false.
Qed.

Lemma seed_store_healthy : healthy seed_store.
Proof. vm_compute. reflexivity. Qed.

Lemma seed_store_wf : db_wf seed_store.
Proof.
  intros k. change (ldb_view seed_store) with (mem_map seed_store).
  assert (mem_map seed_store = <[makeKey seed_id nodeDBDiscoverPong := PutVarint 1000]>
    (<[makeKey seed_id nodeDBDiscoverRoot := codec_enc (exported seed_node)]> ∅)) as -> by reflexivity.
  intros Hk. right. exists seed_id.
  assert (k = makeKey seed_id nodeDBDiscoverPong ∨ k = makeKey seed_id nodeDBDiscoverRoot) as [-> | ->].
  { destruct (decide (k = makeKey seed_id nodeDBDiscoverPong)) as [->|H1]; [by left|].
    destruct (decide (k = makeKey seed_id nodeDBDiscoverRoot)) as [->|H2]; [by right|].
    rewrite !lookup_insert_ne in Hk by done. rewrite lookup_empty in Hk. by destruct Hk. }
  - by exists nodeDBDiscoverPong.
  - by exists nodeDBDiscoverRoot.
Qed.

Lemma expire_removes_stale_witness :
  ∃ s', expireNodes (replicate 64 x09) (nodeDBNodeExpiration + 1000 * second) seed_store = Ok s' ∧
    ldb_view s' !! makeKey seed_id nodeDBDiscoverPong = None.
Proof.
  destruct (expire_removes_stale seed_store (replicate 64 x09) (nodeDBNodeExpiration + 1000 * second) seed_store_healthy seed_store_wf)
    as (s' & E & _ & Hv & _).
  exists s'. split; [exact E|]. apply (Hv seed_id nodeDBDiscoverPong); [reflexivity|discriminate|]. split.
  - eexists. vm_compute. reflexivity.
  - right. vm_compute. discriminate.
Defined.

(** [querySeeds] never fails and returns at most the number of nodes asked
    for, all different, none of them the local node, each a record of the
    database whose last pong is recent enough - and each without the hash of
    its identifier. *)
Theorem seeds_query {S : Type} `{NodeRLP, LevelDB S} (s : S) self now n maxAge rnd new :
  healthy s → db_wf s →
  ∃ nodes, querySeeds s self now n maxAge rnd new = Ok nodes ∧ length nodes ≤ n ∧ NoDup (n_ID <$> nodes) ∧
    ∀ m, m ∈ nodes → n_ID m ≠ self ∧ (now - lastPongReceived s (n_ID m) ≤ maxAge)%Z ∧ n_sha m = replicate 32 x00 ∧
      ∃ i p, p ∈ ldb_range s (MkRange None None) ∧ node_record (new i) p m.
Proof.
  intros Hs Hwf. apply seek_loop_ok; simpl; [|done|split_and!; [simpl; lia|constructor|intros m []%not_elem_of_nil]].
  intros [k v] Hin. apply ldb_range_elem in Hin as [Hin _]; [|done]. simpl.
  destruct (Hwf k ltac:(by eexists)) as [->|(id & field & W & N & ->)].
  - eexists. exact splitKey_version.
  - eexists. by apply splitKey_makeKey.
Qed.

Lemma seeds_query_witness :
  ∃ nodes, querySeeds seed_store (replicate 64 x09) (2000 * second) 5 (5000 * second) (λ _, replicate 64 x00) Pos.of_succ_nat
    = Ok nodes ∧ length nodes ≤ 5.
Proof.
  destruct (seeds_query seed_store (replicate 64 x09) (2000 * second) 5 (5000 * second) (λ _, replicate 64 x00)
    Pos.of_succ_nat seed_store_healthy seed_store_wf) as (nodes & E & Hl & _).
  exists nodes. split; [exact E|exact Hl].
Defined.

(** So a seed goes to the bucket of the zero hash: when the node is heard
    of again, its identifier is twice in the table. *)
Theorem seed_in_the_wrong_bucket :
  ∃ m t, querySeeds seed_store (n_ID seed_self) (2000 * second) 1 (5000 * second) (λ _, replicate 64 x00) Pos.of_succ_nat = Ok [m] ∧
    t = add (loadSeedNodes (newTable_state seed_self []) [m] 5) seed_node 6 ∧
    n_ID m = n_ID seed_node ∧ (n_ID <$> entries_of t) = [n_ID seed_node; n_ID seed_node].
Proof.
  eexists _, _. split; [vm_compute; reflexivity|]. split; [reflexivity|]. split; vm_compute; reflexivity.
Qed.
