(* ===== verification/Dial.v ===== *)
(** * Scheduling of dials

    [p2p/dial.go]: [dialstate] decides which nodes to connect to: the static
    nodes, a bootnode when nothing else is reachable, random nodes of the
    table and the results of lookups, never one that is connected, being
    dialed or was dialed a moment ago.  A [*dialTask] is shared between the
    static list and the running tasks and changes while it runs, so tasks are
    addresses into [ds_tasks].  The clock, the order in which Go iterates the
    static map and what [ReadRandomNodes] gives are arguments.

    The dial history is kept in a heap of package [container/heap]; of it the
    code sees only the earliest entry and which identifiers occur, so here it
    is the list in order of expiry. *)

From S2P Require Import Prelude CommonTypes Netutil Discover KadTable.

Set Default Goal Selector "!".
Set Default Proof Using "Type".

(** ** Constants, durations in nanoseconds *)

Definition seconds (n : Z) : Z := n * 10 ^ 9.
Definition dialHistoryExpiration : Z := seconds 30.
Definition lookupInterval : Z := seconds 4.
Definition fallbackInterval : Z := seconds 20.
Definition initialResolveDelay : Z := seconds 60.
Definition maxResolveDelay : Z := seconds 3600.

(** [connFlag] of [p2p/server.go]. *)
Definition dynDialedConn : Z := 1.
Definition staticDialedConn : Z := 2.
Definition inboundConn : Z := 4.
Definition P2PConn : Z := 8.
Definition webrtcConn : Z := 16.
Definition trustedConn : Z := 32.
(** [conn.is]. *)
Definition conn_is (flags f : Z) : bool := negb (Z.land flags f =? 0)%Z.

(** ** The dial history *)

Record pastDial := MkPastDial { pd_id : NodeID; pd_exp : Z }.
Definition dialHistory : Type := list pastDial.

Fixpoint hist_add (h : dialHistory) (p : pastDial) : dialHistory :=
  match h with
  | [] => [p]
  | q :: h => if (pd_exp p <? pd_exp q)%Z then p :: q :: h else q :: hist_add h p
  end.
Definition hist_min (h : dialHistory) : option pastDial := head h.
Fixpoint hist_remove (h : dialHistory) (id : NodeID) : dialHistory * bool :=
  match h with
  | [] => ([], false)
  | q :: h => if decide (pd_id q = id) then (h, true)
              else let '(h, ok) := hist_remove h id in (q :: h, ok)
  end.
Definition hist_contains (h : dialHistory) (id : NodeID) : bool := existsb (λ q, bool_decide (pd_id q = id)) h.
Fixpoint hist_expire (h : dialHistory) (now : Z) : dialHistory :=
  match h with
  | [] => []
  | q :: h' => if (pd_exp q <? now)%Z then hist_expire h' now else h
  end.

(** ** Tasks *)

Record dialTask := MkDialTask { dt_flags : Z; dt_dest : Node; dt_lastResolved : Z; dt_resolveDelay : Z }.
Inductive task := TDial (p : positive) | TDiscover (p : positive) | TWait (p : positive) (d : Z).
#[global] Instance task_eq_dec : EqDecision task.
Proof. solve_decision. Defined.

Record dialstate := MkDialstate {
  ds_maxDynDials : Z;
  ds_ntab : option NodeID;
  ds_netrestrict : option Netlist;
  ds_lookupRunning : bool;
  ds_dialing : gmap NodeID Z;
  ds_lookupBuf : list Node;
  ds_static : gmap NodeID positive;
  ds_hist : dialHistory;
  ds_start : option Z;
  ds_bootnodes : list Node;
  ds_tasks : gmap positive dialTask;
  ds_next : positive
}.

Definition set_dialing (m : gmap NodeID Z) (s : dialstate) : dialstate :=
  MkDialstate (ds_maxDynDials s) (ds_ntab s) (ds_netrestrict s) (ds_lookupRunning s) m (ds_lookupBuf s) (ds_static s)
    (ds_hist s) (ds_start s) (ds_bootnodes s) (ds_tasks s) (ds_next s).
Definition set_lookup (running : bool) (buf : list Node) (s : dialstate) : dialstate :=
  MkDialstate (ds_maxDynDials s) (ds_ntab s) (ds_netrestrict s) running (ds_dialing s) buf (ds_static s)
    (ds_hist s) (ds_start s) (ds_bootnodes s) (ds_tasks s) (ds_next s).
Definition set_static (m : gmap NodeID positive) (s : dialstate) : dialstate :=
  MkDialstate (ds_maxDynDials s) (ds_ntab s) (ds_netrestrict s) (ds_lookupRunning s) (ds_dialing s) (ds_lookupBuf s) m
    (ds_hist s) (ds_start s) (ds_bootnodes s) (ds_tasks s) (ds_next s).
Definition set_hist (h : dialHistory) (s : dialstate) : dialstate :=
  MkDialstate (ds_maxDynDials s) (ds_ntab s) (ds_netrestrict s) (ds_lookupRunning s) (ds_dialing s) (ds_lookupBuf s)
    (ds_static s) h (ds_start s) (ds_bootnodes s) (ds_tasks s) (ds_next s).
Definition set_start (o : option Z) (s : dialstate) : dialstate :=
  MkDialstate (ds_maxDynDials s) (ds_ntab s) (ds_netrestrict s) (ds_lookupRunning s) (ds_dialing s) (ds_lookupBuf s)
    (ds_static s) (ds_hist s) o (ds_bootnodes s) (ds_tasks s) (ds_next s).
Definition set_bootnodes (b : list Node) (s : dialstate) : dialstate :=
  MkDialstate (ds_maxDynDials s) (ds_ntab s) (ds_netrestrict s) (ds_lookupRunning s) (ds_dialing s) (ds_lookupBuf s)
    (ds_static s) (ds_hist s) (ds_start s) b (ds_tasks s) (ds_next s).
Definition set_task (p : positive) (t : dialTask) (s : dialstate) : dialstate :=
  MkDialstate (ds_maxDynDials s) (ds_ntab s) (ds_netrestrict s) (ds_lookupRunning s) (ds_dialing s) (ds_lookupBuf s)
    (ds_static s) (ds_hist s) (ds_start s) (ds_bootnodes s) (<[p := t]> (ds_tasks s)) (ds_next s).
Definition bump_next (s : dialstate) : dialstate :=
  MkDialstate (ds_maxDynDials s) (ds_ntab s) (ds_netrestrict s) (ds_lookupRunning s) (ds_dialing s) (ds_lookupBuf s)
    (ds_static s) (ds_hist s) (ds_start s) (ds_bootnodes s) (ds_tasks s) (Pos.succ (ds_next s)).

(** [&dialTask{...}]: a task at a new address. *)
Definition new_task (t : dialTask) (s : dialstate) : dialstate * positive :=
  (bump_next (set_task (ds_next s) t s), ds_next s).

Definition addStatic (s : dialstate) (n : Node) : dialstate :=
  let '(s, p) := new_task (MkDialTask staticDialedConn n 0 0) s in
  set_static (<[n_ID n := p]> (ds_static s)) s.
Definition removeStatic (s : dialstate) (n : Node) : dialstate :=
  let s := set_static (delete (n_ID n) (ds_static s)) s in
  set_hist (hist_remove (ds_hist s) (n_ID n)).1 s.

Definition newDialState (static bootnodes : list Node) (ntab : option NodeID) (maxdyn : Z) (netrestrict : option Netlist)
    : dialstate :=
  foldl addStatic (MkDialstate maxdyn ntab netrestrict false ∅ [] ∅ [] None bootnodes ∅ 1) static.

(** ** Checks *)

Inductive DialErr := errSelf | errAlreadyDialing | errAlreadyConnected | errRecentlyDialed | errNotWhitelisted.
#[global] Instance DialErr_eq_dec : EqDecision DialErr.
Proof. solve_decision. Defined.

(** [peers] maps the identifiers of the connected peers to their flags. *)
Definition checkDial (s : dialstate) (n : Node) (peers : gmap NodeID Z) : option DialErr :=
  if bool_decide (is_Some (ds_dialing s !! n_ID n)) then Some errAlreadyDialing
  else if bool_decide (is_Some (peers !! n_ID n)) then Some errAlreadyConnected
  else if bool_decide (ds_ntab s = Some (n_ID n)) then Some errSelf
  else if match ds_netrestrict s with Some l => negb (Netlist_Contains (Some l) (n_IP n)) | None => false end
       then Some errNotWhitelisted
  else if hist_contains (ds_hist s) (n_ID n) then Some errRecentlyDialed
  else None.

(** The closure [addDial] of [newTasks]. *)
Definition addDial (peers : gmap NodeID Z) (flag : Z) (n : Node) (st : dialstate * list task) : dialstate * list task * bool :=
  let '(s, newtasks) := st in
  match checkDial s n peers with
  | Some _ => (s, newtasks, false)
  | None =>
    let s := set_dialing (<[n_ID n := flag]> (ds_dialing s)) s in
    let '(s, p) := new_task (MkDialTask flag n 0 0) s in
    (s, newtasks ++ [TDial p], true)
  end.

(** One round of the loop over the static nodes. *)
Definition static_round (peers : gmap NodeID Z) (st : dialstate * list task) (id : NodeID) : dialstate * list task :=
  let '(s, newtasks) := st in
  match ds_static s !! id ≫= λ p, t ← ds_tasks s !! p; Some (p, t) with
  | None => (s, newtasks)
  | Some (p, t) =>
    match checkDial s (dt_dest t) peers with
    | Some errNotWhitelisted | Some errSelf => (set_static (delete (n_ID (dt_dest t)) (ds_static s)) s, newtasks)
    | Some _ => (s, newtasks)
    | None => (set_dialing (<[id := dt_flags t]> (ds_dialing s)) s, newtasks ++ [TDial p])
    end
  end.

(** The loops over candidates, while dynamic dials are needed; the random
    nodes are bounded by their number instead. *)
Fixpoint dial_random (peers : gmap NodeID Z) (candidates : list (option Node)) (st : dialstate * list task) (need : Z)
    : outcome (dialstate * list task * Z) :=
  match candidates with
  | [] => Ok (st, need)
  | None :: _ => Panic
  | Some n :: rest =>
    let '(s, ts, ok) := addDial peers dynDialedConn n st in
    dial_random peers rest (s, ts) (if ok then (need - 1)%Z else need)
  end.
Fixpoint dial_lookup (peers : gmap NodeID Z) (buf : list Node) (st : dialstate * list task) (need : Z)
    : dialstate * list task * Z * list Node :=
  match buf with
  | [] => (st, need, [])
  | n :: rest =>
    if (0 <? need)%Z then
      let '(s, ts, ok) := addDial peers dynDialedConn n st in
      dial_lookup peers rest (s, ts) (if ok then (need - 1)%Z else need)
    else (st, need, buf)
  end.

Definition count_dyn (m : gmap NodeID Z) : Z := Z.of_nat (size (filter (λ p, conn_is p.2 dynDialedConn = true) m)).

(** [order] is the order in which the static nodes are visited, [read] the
    call [ReadRandomNodes] on a slice of the given length: the number it
    returns and the nodes it wrote.  A candidate beyond what was written is
    [nil]. *)
Definition newTasks (s : dialstate) (nRunning : nat) (peers : gmap NodeID Z) (now : Z) (order : list NodeID)
    (read : nat → nat * list Node) : outcome (dialstate * list task) :=
  let s := if decide (ds_start s = None) then set_start (Some now) s else s in
  let need := (ds_maxDynDials s - count_dyn peers - count_dyn (ds_dialing s))%Z in
  let s := set_hist (hist_expire (ds_hist s) now) s in
  let '(s, ts) := foldl (static_round peers) (s, []) order in
  let '(s, ts, need) :=
    match ds_bootnodes s with
    | bootnode :: rest =>
      if bool_decide (peers = ∅) && (0 <? need)%Z && (fallbackInterval <? now - default now (ds_start s))%Z then
        let '(s, ts, ok) := addDial peers dynDialedConn bootnode (set_bootnodes (rest ++ [bootnode]) s, ts) in
        (s, ts, if ok then (need - 1)%Z else need)
      else (s, ts, need)
    | [] => (s, ts, need)
    end in
  let randomCandidates := Z.to_nat (need ÷ 2) in
  '(s, ts, need) ←
    (if decide (0 < randomCandidates)%nat then
       let '(n, w) := read (Z.to_nat (ds_maxDynDials s ÷ 2)) in
       dial_random peers ((λ i, w !! i) <$> seq 0 (randomCandidates `min` n)) (s, ts) need
     else Ok (s, ts, need));
  let '(s, ts, need, buf) := dial_lookup peers (ds_lookupBuf s) (s, ts) need in
  let s := set_lookup (ds_lookupRunning s) buf s in
  let '(s, ts) :=
    if bool_decide (Z.of_nat (length buf) < need)%Z && negb (ds_lookupRunning s) then
      (bump_next (set_lookup true buf s), ts ++ [TDiscover (ds_next s)])
    else (s, ts) in
  match hist_min (ds_hist s) with
  | Some p =>
    if decide (nRunning = 0 ∧ ts = []) then Ok (bump_next s, [TWait (ds_next s) (pd_exp p - now)]) else Ok (s, ts)
  | None => Ok (s, ts)
  end.

(** [results] are those of a lookup task. *)
Definition taskDone (s : dialstate) (t : task) (now : Z) (results : list Node) : dialstate :=
  match t with
  | TDial p =>
    match ds_tasks s !! p with
    | Some d =>
      let id := n_ID (dt_dest d) in
      let s := set_hist (hist_add (ds_hist s) (MkPastDial id (now + dialHistoryExpiration))) s in
      set_dialing (delete id (ds_dialing s)) s
    | None => s
    end
  | TDiscover _ => set_lookup false (ds_lookupBuf s ++ results) s
  | TWait _ _ => s
  end.

(** [resolve] and [resolveP2P] of a task at [now], [found] being what the
    table, or the network of libp2p, finds. *)
Definition resolve_with (t : dialTask) (now now' : Z) (found : option Node) : dialTask * bool :=
  let delay := if decide (dt_resolveDelay t = 0%Z) then initialResolveDelay else dt_resolveDelay t in
  if (now - dt_lastResolved t <? delay)%Z then (MkDialTask (dt_flags t) (dt_dest t) (dt_lastResolved t) delay, false)
  else match found with
       | None => (MkDialTask (dt_flags t) (dt_dest t) now' (Z.min (delay * 2) maxResolveDelay), false)
       | Some n => (MkDialTask (dt_flags t) n now' initialResolveDelay, true)
       end.
Definition resolve (t : dialTask) (now now' : Z) (ntab : option (option Node)) (p2p : option Node) : dialTask * bool :=
  if n_IsWebrtc (dt_dest t) then (t, true)
  else if n_IsP2P (dt_dest t) then resolve_with t now now' p2p
  else if bool_decide (is_Some (n_PeerInfo (dt_dest t))) then (t, true)
  else match ntab with
       | None => (t, false)
       | Some found => resolve_with t now now' found
       end.

(** ** The invariant *)

Definition task_id (s : dialstate) (t : task) : option NodeID :=
  match t with TDial p => (λ d, n_ID (dt_dest d)) <$> ds_tasks s !! p | _ => None end.
Definition task_ptr (t : task) : positive := match t with TDial p | TDiscover p | TWait p _ => p end.
Definition active_ids (s : dialstate) (ts : list task) : list NodeID := omap (task_id s) ts.

Definition exp_le (p q : pastDial) : Prop := (pd_exp p ≤ pd_exp q)%Z.

(** [ts] are the tasks handed out and not done: those running and those
    queued. *)
Record ds_ok (s : dialstate) (ts : list task) : Prop := {
  do_nodup : NoDup (active_ids s ts);
  do_dialing id : is_Some (ds_dialing s !! id) ↔ id ∈ active_ids s ts;
  do_hist_nodup : NoDup (pd_id <$> ds_hist s);
  do_hist_idle id : id ∈ pd_id <$> ds_hist s → ds_dialing s !! id = None;
  do_hist_sorted : StronglySorted exp_le (ds_hist s);
  do_static id p : ds_static s !! id = Some p →
    ∃ t, ds_tasks s !! p = Some t ∧ n_ID (dt_dest t) = id ∧ dt_flags t = staticDialedConn;
  do_tasks p t : ds_tasks s !! p = Some t →
    (p < ds_next s)%positive ∧ (dt_flags t = dynDialedConn ∨ dt_flags t = staticDialedConn);
  do_active t : t ∈ ts → (task_ptr t < ds_next s)%positive ∧
    (∀ p, t = TDial p → ∃ d, ds_tasks s !! p = Some d ∧ ds_dialing s !! n_ID (dt_dest d) = Some (dt_flags d))
}.

(** *** The history *)

Lemma hist_contains_spec h id : hist_contains h id = true ↔ id ∈ pd_id <$> h.
Proof.
  unfold hist_contains. rewrite existsb_exists, list_elem_of_fmap. split.
  - intros (q & Hq & E). exists q. apply list_elem_of_In in Hq. apply bool_decide_eq_true in E. done.
  - intros (q & -> & Hq). exists q. split; [by apply list_elem_of_In|]. by apply bool_decide_eq_true_2.
Qed.

Lemma hist_add_perm h p : hist_add h p ≡ₚ p :: h.
Proof.
  induction h as [|q h IH]; simpl; [done|]. destruct (_ <? _)%Z; [done|]. rewrite IH. apply Permutation_swap.
Qed.
Lemma hist_add_sorted h p : StronglySorted exp_le h → StronglySorted exp_le (hist_add h p).
Proof.
  induction 1 as [|q h Hs IH Hq]; simpl; [repeat constructor|].
  destruct (Z.ltb_spec (pd_exp p) (pd_exp q)).
  - constructor; [by constructor|]. constructor; [unfold exp_le; lia|]. eapply Forall_impl; [exact Hq|].
    unfold exp_le. intros; lia.
  - constructor; [done|]. rewrite hist_add_perm. constructor; [unfold exp_le; lia|done].
Qed.

Lemma hist_remove_sublist h id : (hist_remove h id).1 `sublist_of` h.
Proof.
  induction h as [|q h IH]; simpl; [done|]. case_decide; [by apply sublist_cons|].
  destruct (hist_remove h id). by apply sublist_skip.
Qed.
Lemma hist_expire_sublist h now : hist_expire h now `sublist_of` h.
Proof. induction h as [|q h IH]; simpl; [done|]. destruct (_ <? _)%Z; [by apply sublist_cons|done]. Qed.

(** Exactly the entries that are due go. *)
Lemma hist_expire_spec h now p :
  StronglySorted exp_le h → p ∈ hist_expire h now ↔ p ∈ h ∧ (now ≤ pd_exp p)%Z.
Proof.
  induction 1 as [|q h Hs IH Hq]; simpl; [split; [by intros ?%not_elem_of_nil|by intros [?%not_elem_of_nil _]]|].
  rewrite Forall_forall in Hq. destruct (Z.ltb_spec (pd_exp q) now).
  - rewrite IH, elem_of_cons. split; [tauto|]. intros [[->|?] ?]; [lia|done].
  - split; [|tauto]. intros Hp. split; [done|]. apply elem_of_cons in Hp as [->|Hp]; [done|].
    specialize (Hq p Hp). unfold exp_le in Hq. lia.
Qed.

Lemma sorted_sublist {A} (R : relation A) l1 l2 : l1 `sublist_of` l2 → StronglySorted R l2 → StronglySorted R l1.
Proof.
  induction 1 as [|x l1 l2 Hl IH|x l1 l2 Hl IH]; intros Hs; [constructor| |].
  - apply StronglySorted_cons in Hs as [Hx Hs]. apply StronglySorted_cons. split; [|by apply IH].
    by eapply Forall_sublist.
  - apply StronglySorted_cons in Hs as [_ Hs]. by apply IH.
Qed.

(** Fewer past dials keep the invariant. *)
Lemma ds_ok_hist s ts h : h `sublist_of` ds_hist s → ds_ok s ts → ds_ok (set_hist h s) ts.
Proof.
  intros Hh [D1 D2 D3 D4 D5 D6 D7 D8]. split; simpl; try done.
  - eapply sublist_NoDup; [exact D3|]. by apply fmap_sublist.
  - intros id Hid. apply D4. eapply elem_of_sublist; [exact Hid|]. by apply fmap_sublist.
  - by eapply sorted_sublist.
Qed.

(** *** Counting dynamic dials *)

Lemma count_dyn_insert m id f :
  m !! id = None → count_dyn (<[id := f]> m) = (count_dyn m + Z.b2z (conn_is f dynDialedConn))%Z.
Proof.
  intros Hn. unfold count_dyn. destruct (conn_is f dynDialedConn) eqn:E.
  - rewrite map_filter_insert_True by done. rewrite map_size_insert_None.
    + simpl. lia.
    + by apply map_lookup_filter_None_2; left.
  - rewrite map_filter_insert_False by (simpl; by rewrite E). rewrite delete_id by done. simpl. lia.
Qed.

(** *** Handing out a task *)

Lemma task_id_new s t p x : (task_ptr t < ds_next s)%positive → p = ds_next s →
  task_id (bump_next (set_task p x s)) t = task_id s t.
Proof.
  intros Ht ->. destruct t as [q|q|q d]; [|done..]. simpl in *. rewrite lookup_insert_ne by lia. done.
Qed.

Lemma active_ids_new s ts p x :
  (∀ t, t ∈ ts → (task_ptr t < ds_next s)%positive) → p = ds_next s →
  active_ids (bump_next (set_task p x s)) ts = active_ids s ts.
Proof.
  intros Ht ->. unfold active_ids. induction ts as [|t ts IH]; [done|]. csimpl.
  rewrite (task_id_new s t _ x) by (try apply Ht; done || by left). rewrite IH by (intros; apply Ht; by right). done.
Qed.

Lemma checkDial_None s n peers :
  checkDial s n peers = None →
  ds_dialing s !! n_ID n = None ∧ peers !! n_ID n = None ∧ ds_ntab s ≠ Some (n_ID n) ∧
  (∀ l, ds_netrestrict s = Some l → Netlist_Contains (Some l) (n_IP n) = true) ∧ n_ID n ∉ pd_id <$> ds_hist s.
Proof.
  unfold checkDial. repeat case_bool_decide; try done. destruct (match ds_netrestrict s with Some _ => _ | None => _ end) eqn:El; [done|].
  destruct (hist_contains _ _) eqn:Eh; [done|]. intros _. split_and!.
  - by apply eq_None_not_Some.
  - by apply eq_None_not_Some.
  - done.
  - intros l E. rewrite E in El. by apply negb_false_iff in El.
  - rewrite <- hist_contains_spec. by rewrite Eh.
Qed.

(** A task [p] for [d] may start: its node is idle. *)
Lemma ds_ok_start s ts p d f :
  ds_ok s ts → ds_tasks s !! p = Some d → f = dt_flags d →
  ds_dialing s !! n_ID (dt_dest d) = None → n_ID (dt_dest d) ∉ pd_id <$> ds_hist s →
  ds_ok (set_dialing (<[n_ID (dt_dest d) := f]> (ds_dialing s)) s) (ts ++ [TDial p]).
Proof.
  intros [D1 D2 D3 D4 D5 D6 D7 D8] Hp -> Hidle Hh.
  assert (active_ids (set_dialing (<[n_ID (dt_dest d) := dt_flags d]> (ds_dialing s)) s) (ts ++ [TDial p])
          = active_ids s ts ++ [n_ID (dt_dest d)]) as Ea.
  { unfold active_ids. rewrite omap_app. f_equal. simpl. by rewrite Hp. }
  assert (n_ID (dt_dest d) ∉ active_ids s ts) as Hn by (rewrite <- D2, Hidle; by intros []).
  split; simpl; rewrite ?Ea; try done.
  - apply NoDup_app. split_and!; [done| |apply NoDup_singleton]. intros x Hx ->%list_elem_of_singleton. done.
  - intros id. rewrite lookup_insert_is_Some, D2, elem_of_app, list_elem_of_singleton.
    destruct (decide (n_ID (dt_dest d) = id)); naive_solver.
  - intros id Hid. rewrite lookup_insert_ne by (by intros <-). by apply D4.
  - intros t [Ht| ->%list_elem_of_singleton]%elem_of_app.
    + destruct (D8 t Ht) as [H1 H2]. split; [done|]. intros q Eq. destruct (H2 q Eq) as (d' & Hd' & Hf).
      exists d'. split; [done|]. rewrite lookup_insert_ne; [done|]. intros E. rewrite <- E, Hidle in Hf. done.
    + split; [by apply (D7 p d)|]. intros q [= <-]. exists d. split; [done|]. apply lookup_insert_eq.
Qed.

Lemma ds_ok_new s ts x :
  dt_flags x = dynDialedConn ∨ dt_flags x = staticDialedConn → ds_ok s ts → ds_ok (bump_next (set_task (ds_next s) x s)) ts.
Proof.
  intros Hx [D1 D2 D3 D4 D5 D6 D7 D8].
  assert (∀ t, t ∈ ts → (task_ptr t < ds_next s)%positive) as Hp by (intros t Ht; by apply D8).
  assert (∀ q t, ds_tasks s !! q = Some t → <[ds_next s := x]> (ds_tasks s) !! q = Some t) as Hl.
  { intros q t Hq. rewrite lookup_insert_ne; [done|]. apply D7 in Hq as [Hq _]. lia. }
  split; rewrite ?(active_ids_new s ts _ x Hp eq_refl); simpl; try done.
  - intros id p Hid. destruct (D6 id p Hid) as (t & Ht & ?). exists t. split; [by apply Hl|done].
  - intros p t [[<- <-]|[_ Ht]]%lookup_insert_Some; [split; [lia|done]|]. apply D7 in Ht as [Ht ?]. split; [lia|done].
  - intros t Ht. destruct (D8 t Ht) as [H1 H2]. split; [lia|]. intros q Eq. destruct (H2 q Eq) as (d & Hd & ?).
    exists d. split; [by apply Hl|done].
Qed.

Lemma ds_ok_ext s s' ts :
  ds_ok s ts → ds_dialing s' = ds_dialing s → ds_hist s' = ds_hist s → ds_tasks s' = ds_tasks s →
  (ds_next s ≤ ds_next s')%positive → ds_static s' ⊆ ds_static s → ds_ok s' ts.
Proof.
  intros [D1 D2 D3 D4 D5 D6 D7 D8] E1 E2 E3 En Es.
  assert (active_ids s' ts = active_ids s ts) as Ea.
  { unfold active_ids. clear -E3. induction ts as [|t ts IH]; [done|]. csimpl.
    assert (task_id s' t = task_id s t) as -> by (unfold task_id; by rewrite E3). by rewrite IH. }
  split; rewrite ?E1, ?E2, ?E3, ?Ea; try done.
  - intros id p Hid. apply D6. by eapply lookup_weaken.
  - intros p t Ht. apply D7 in Ht as [Ht ?]. split; [lia|done].
  - intros t Ht. destruct (D8 t Ht) as [H1 H2]. split; [lia|done].
Qed.

(** ** Handing out tasks *)

Definition eligible (s : dialstate) (peers : gmap NodeID Z) (n : Node) : Prop :=
  ds_dialing s !! n_ID n = None ∧ peers !! n_ID n = None ∧ ds_ntab s ≠ Some (n_ID n) ∧
  (∀ l, ds_netrestrict s = Some l → Netlist_Contains (Some l) (n_IP n) = true) ∧ n_ID n ∉ pd_id <$> ds_hist s.

(** From [s] with the new tasks [ts] to [s'] with [ts'], [k] of the tasks added
    dynamic dials, beside the active tasks [act]. *)
Record adds (act : list task) (peers : gmap NodeID Z) (k : Z) (s : dialstate) (ts : list task)
    (s' : dialstate) (ts' : list task) : Prop := {
  ad_ok : ds_ok s' (act ++ ts');
  ad_conf : ds_maxDynDials s' = ds_maxDynDials s ∧ ds_ntab s' = ds_ntab s ∧ ds_netrestrict s' = ds_netrestrict s ∧
    ds_hist s' = ds_hist s ∧ ds_lookupRunning s' = ds_lookupRunning s ∧ ds_lookupBuf s' = ds_lookupBuf s;
  ad_dialing : ds_dialing s ⊆ ds_dialing s';
  ad_tasks p d : ds_tasks s !! p = Some d → ds_tasks s' !! p = Some d;
  ad_new : ∃ new, ts' = ts ++ new ∧
    ∀ t, t ∈ new → ∃ p d, t = TDial p ∧ ds_tasks s' !! p = Some d ∧ eligible s peers (dt_dest d);
  ad_count : count_dyn (ds_dialing s') = (count_dyn (ds_dialing s) + k)%Z
}.

Lemma adds_refl act peers s ts : ds_ok s (act ++ ts) → adds act peers 0 s ts s ts.
Proof.
  intros H. split; [done|done|done|done| |lia]. exists []. rewrite app_nil_r. split; [done|]. intros t []%not_elem_of_nil.
Qed.

Lemma eligible_mono s s' peers n :
  ds_dialing s ⊆ ds_dialing s' →
  ds_ntab s' = ds_ntab s → ds_netrestrict s' = ds_netrestrict s → ds_hist s' = ds_hist s →
  eligible s' peers n → eligible s peers n.
Proof.
  intros Hd E1 E2 E3 (H1 & H2 & H3 & H4 & H5). unfold eligible. rewrite E1 in H3. rewrite E2 in H4. rewrite E3 in H5.
  split_and!; try done. apply eq_None_not_Some. intros [f Hs]. by rewrite (lookup_weaken _ _ _ _ Hs Hd) in H1.
Qed.

Lemma adds_trans act peers k1 k2 s ts s1 ts1 s2 ts2 :
  adds act peers k1 s ts s1 ts1 → adds act peers k2 s1 ts1 s2 ts2 → adds act peers (k1 + k2) s ts s2 ts2.
Proof.
  intros [A1 (C1 & C2 & C3 & C4 & C5 & C6) A3 A4 (n1 & -> & A5) A6] [B1 (D1 & D2 & D3 & D4 & D5 & D6) B3 B4 (n2 & -> & B5) B6].
  split; [done|split_and!; congruence|by transitivity (ds_dialing s1)|by auto| |lia].
  exists (n1 ++ n2). rewrite app_assoc. split; [done|]. intros t [Ht|Ht]%elem_of_app.
  - destruct (A5 t Ht) as (p & d & -> & Hd & He). exists p, d. split_and!; [done|by apply B4|done].
  - destruct (B5 t Ht) as (p & d & -> & Hd & He). exists p, d. split_and!; [done|done|].
    by apply (eligible_mono s s1).
Qed.

Lemma addDial_adds act peers f n s ts s' ts' ok :
  f = dynDialedConn ∨ f = staticDialedConn → ds_ok s (act ++ ts) → addDial peers f n (s, ts) = (s', ts', ok) →
  adds act peers (Z.b2z (ok && conn_is f dynDialedConn)) s ts s' ts' ∧ ds_static s' = ds_static s ∧ ds_start s' = ds_start s.
Proof.
  intros Hf Hok. unfold addDial. destruct (checkDial s n peers) eqn:Ec.
  { intros [= <- <- <-]. split; [by apply adds_refl|done]. }
  pose proof (checkDial_None s n peers Ec) as He. destruct He as (E1 & E2 & E3 & E4 & E5).
  unfold new_task. intros [= <- <- <-].
  pose proof (ds_ok_new s _ (MkDialTask f n 0 0) Hf Hok) as Hnew.
  set (s1 := bump_next (set_task (ds_next s) (MkDialTask f n 0 0) s)) in *.
  pose proof (ds_ok_start s1 (act ++ ts) (ds_next s) (MkDialTask f n 0 0) f Hnew (lookup_insert_eq _ _ _) eq_refl E1 E5) as Hs.
  split; [|done]. simpl in Hs. rewrite <- app_assoc in Hs. split.
  - exact Hs.
  - done.
  - simpl. by apply insert_subseteq.
  - intros p d Hp. simpl. rewrite lookup_insert_ne; [done|]. apply (do_tasks _ _ Hok) in Hp as [Hp _]. lia.
  - exists [TDial (ds_next s)]. split; [done|]. intros t ->%list_elem_of_singleton.
    exists (ds_next s), (MkDialTask f n 0 0). split_and!; [done|apply lookup_insert_eq|]. done.
  - simpl. rewrite count_dyn_insert by done. done.
Qed.

Lemma static_round_adds act peers id s ts :
  ds_ok s (act ++ ts) →
  adds act peers 0 s ts (static_round peers (s, ts) id).1 (static_round peers (s, ts) id).2 ∧
  ds_start (static_round peers (s, ts) id).1 = ds_start s.
Proof.
  intros Hok. unfold static_round. destruct (ds_static s !! id) as [p|] eqn:Ep; simpl; [|split; [by apply adds_refl|done]].
  destruct (do_static _ _ Hok id p Ep) as (t & Et & <- & Ef). rewrite Et. simpl.
  assert (adds act peers 0 s ts (set_static (delete (n_ID (dt_dest t)) (ds_static s)) s) ts ∧
          ds_start (set_static (delete (n_ID (dt_dest t)) (ds_static s)) s) = ds_start s) as Hdel.
  { split; [|done]. pose proof (adds_refl act peers s ts Hok) as [A1 A2 A3 A4 A5 A6]. split; try done.
    apply (ds_ok_ext s); [done..|simpl; lia|]. simpl. apply delete_subseteq. }
  destruct (checkDial s (dt_dest t) peers) as [[]|] eqn:Ec; try done; simpl; try (split; [by apply adds_refl|done]).
  pose proof (checkDial_None s _ peers Ec) as (E1 & E2 & E3 & E4 & E5). split; [|done].
  pose proof (ds_ok_start s (act ++ ts) p t (dt_flags t) Hok Et eq_refl E1 E5) as Hs. rewrite <- app_assoc in Hs. split.
  - exact Hs.
  - done.
  - simpl. by apply insert_subseteq.
  - done.
  - exists [TDial p]. split; [done|]. intros t' ->%list_elem_of_singleton. exists p, t. split_and!; done.
  - simpl. rewrite count_dyn_insert by done. rewrite Ef. reflexivity.
Qed.

Lemma static_rounds_adds act peers order s ts :
  ds_ok s (act ++ ts) →
  adds act peers 0 s ts (foldl (static_round peers) (s, ts) order).1 (foldl (static_round peers) (s, ts) order).2 ∧
  ds_start (foldl (static_round peers) (s, ts) order).1 = ds_start s.
Proof.
  revert s ts. induction order as [|id order IH]; intros s ts Hok; [split; [by apply adds_refl|done]|].
  destruct (static_round_adds act peers id s ts Hok) as [H1 E1]. cbn [foldl].
  destruct (static_round peers (s, ts) id) as [s1 ts1]. cbn [fst snd] in *.
  destruct (IH s1 ts1 (ad_ok _ _ _ _ _ _ _ H1)) as [H2 E2]. split; [|etransitivity; [exact E2|exact E1]].
  exact (adds_trans _ _ 0 0 _ _ _ _ _ _ H1 H2).
Qed.

Lemma dial_random_adds act peers candidates s ts need :
  ds_ok s (act ++ ts) → Forall is_Some candidates →
  ∃ s' ts' need', dial_random peers candidates (s, ts) need = Ok (s', ts', need') ∧
    adds act peers (need - need') s ts s' ts' ∧ (need - Z.of_nat (length candidates) ≤ need' ≤ need)%Z.
Proof.
  revert s ts need. induction candidates as [|[n|] cs IH]; intros s ts need Hok Hc; cbn [dial_random].
  - exists s, ts, need. rewrite Z.sub_diag. split_and!; [done|by apply adds_refl|lia|lia].
  - apply Forall_cons in Hc as [_ Hc]. destruct (addDial peers dynDialedConn n (s, ts)) as [[s1 ts1] ok] eqn:E.
    destruct (addDial_adds act peers _ n s ts s1 ts1 ok (or_introl eq_refl) Hok E) as [H1 _].
    destruct (IH s1 ts1 (if ok then (need - 1)%Z else need) (ad_ok _ _ _ _ _ _ _ H1) Hc) as (s' & ts' & need' & E' & H2 & Hn).
    exists s', ts', need'. split; [done|]. pose proof (adds_trans _ _ _ _ _ _ _ _ _ _ H1 H2) as H3.
    destruct ok; simpl in H3.
    + split; [|simpl length in *; lia]. replace (need - need')%Z with (1 + (need - 1 - need'))%Z by lia. done.
    + split; [done|simpl length in *; lia].
  - apply Forall_cons in Hc as [[? Hc] _]. done.
Qed.

Lemma dial_lookup_adds act peers buf s ts need :
  ds_ok s (act ++ ts) →
  ∃ s' ts' need' buf', dial_lookup peers buf (s, ts) need = (s', ts', need', buf') ∧
    adds act peers (need - need') s ts s' ts' ∧ (need' ≤ need)%Z ∧ (0 < need → 0 ≤ need')%Z ∧ (need ≤ 0 → need' = need)%Z ∧
    (buf' = [] ∨ need' ≤ 0)%Z.
Proof.
  revert s ts need. induction buf as [|n buf IH]; intros s ts need Hok; cbn [dial_lookup].
  { exists s, ts, need, []. rewrite Z.sub_diag. split_and!; [done|by apply adds_refl|lia|lia|done|by left]. }
  destruct (Z.ltb_spec 0 need).
  - destruct (addDial peers dynDialedConn n (s, ts)) as [[s1 ts1] ok] eqn:E.
    destruct (addDial_adds act peers _ n s ts s1 ts1 ok (or_introl eq_refl) Hok E) as [H1 _].
    destruct (IH s1 ts1 (if ok then (need - 1)%Z else need) (ad_ok _ _ _ _ _ _ _ H1))
      as (s' & ts' & need' & buf' & E' & H2 & Hle & Hpos & Hz & Hb).
    exists s', ts', need', buf'. split; [done|]. pose proof (adds_trans _ _ _ _ _ _ _ _ _ _ H1 H2) as H3.
    destruct ok; simpl in H3.
    + split; [replace (need - need')%Z with (1 + (need - 1 - need'))%Z by lia; done|]. split_and!; [lia|lia|lia|done].
    + split; [done|]. split_and!; [lia|lia|lia|done].
  - exists s, ts, need, (n :: buf). rewrite Z.sub_diag. split_and!; [done|by apply adds_refl|lia|lia|done|by right; lia].
Qed.

(** ** [newTasks] *)

(** What the table promises of [ReadRandomNodes] on a slice of length [k]: the
    nodes it writes fit, and it returns no more than it wrote unless it filled
    the slice. *)
Definition read_ok (read : nat → nat * list Node) : Prop :=
  ∀ k, length (read k).2 ≤ k ∧ ((read k).1 ≤ length (read k).2 ∨ length (read k).2 = k).

(** The part between the static nodes and the lookup results. *)
Lemma random_part act peers s ts need k read :
  ds_ok s (act ++ ts) → read_ok read → (need ≤ k)%Z →
  ∃ s' ts' need',
    (if decide (0 < Z.to_nat (need ÷ 2))%nat then
       let '(n, w) := read (Z.to_nat (k ÷ 2)) in
       dial_random peers ((λ i, w !! i) <$> seq 0 (Z.to_nat (need ÷ 2) `min` n)) (s, ts) need
     else Ok (s, ts, need)) = Ok (s', ts', need') ∧
    adds act peers (need - need') s ts s' ts' ∧ (need' ≤ need)%Z ∧ (0 < need → 0 ≤ need')%Z ∧ (need ≤ 0 → need' = need)%Z.
Proof.
  intros Hok Hr Hk. case_decide as Hc.
  - destruct (Hr (Z.to_nat (k ÷ 2))) as [Hw Hn]. destruct (read _) as [n w]. simpl in Hw, Hn.
    assert (0 < need)%Z as Hpos by (Z.to_euclidean_division_equations; lia).
    assert (Z.to_nat (need ÷ 2) ≤ Z.to_nat (k ÷ 2)) as Hle by (Z.to_euclidean_division_equations; lia).
    destruct (dial_random_adds act peers ((λ i, w !! i) <$> seq 0 (Z.to_nat (need ÷ 2) `min` n)) s ts need Hok)
      as (s' & ts' & need' & E & Ha & Hb).
    { apply Forall_fmap, Forall_forall. intros i Hi. apply elem_of_seq in Hi. simpl. apply lookup_lt_is_Some. lia. }
    exists s', ts', need'. split; [done|]. split; [done|]. rewrite length_fmap, length_seq in Hb.
    split; [lia|]. split; [|lia]. intros _. assert (Z.of_nat (Z.to_nat (need ÷ 2)) ≤ need)%Z by (Z.to_euclidean_division_equations; lia). lia.
  - exists s, ts, need. rewrite Z.sub_diag. split; [done|]. split; [by apply adds_refl|]. lia.
Qed.

(** The bootnode. *)
Lemma boot_part act peers s ts need now :
  ds_ok s (act ++ ts) →
  ∃ s' ts' need',
    (match ds_bootnodes s with
     | bootnode :: rest =>
       if bool_decide (peers = ∅) && (0 <? need)%Z && (fallbackInterval <? now - default now (ds_start s))%Z then
         let '(s, ts, ok) := addDial peers dynDialedConn bootnode (set_bootnodes (rest ++ [bootnode]) s, ts) in
         (s, ts, if ok then (need - 1)%Z else need)
       else (s, ts, need)
     | [] => (s, ts, need)
     end) = (s', ts', need') ∧
    adds act peers (need - need') s ts s' ts' ∧ (need' ≤ need)%Z ∧ (0 < need → 0 ≤ need')%Z ∧ (need ≤ 0 → need' = need)%Z.
Proof.
  intros Hok.
  assert (adds act peers (need - need) s ts s ts) as Hr by (rewrite Z.sub_diag; by apply adds_refl).
  destruct (ds_bootnodes s) as [|bootnode rest]; [by exists s, ts, need; split_and!; try lia|].
  destruct (bool_decide _ && _ && _) eqn:Eb; [|by exists s, ts, need; split_and!; try lia].
  apply andb_prop in Eb as [[_ Hn%Z.ltb_lt]%andb_prop _].
  assert (ds_ok (set_bootnodes (rest ++ [bootnode]) s) (act ++ ts)) as Hok' by (by apply (ds_ok_ext s)).
  destruct (addDial peers _ _ _) as [[s1 ts1] ok] eqn:E.
  destruct (addDial_adds act peers _ _ _ _ s1 ts1 ok (or_introl eq_refl) Hok' E) as [H1 _].
  assert (adds act peers (Z.b2z ok) s ts s1 ts1) as H2.
  { destruct H1 as [A1 A2 A3 A4 A5 A6]. rewrite andb_true_r in A6. split; [exact A1|exact A2|exact A3|exact A4|exact A5|exact A6]. }
  eexists _, _, _. split; [reflexivity|].
  destruct ok; simpl in H2; (split; [|lia]); [replace (need - (need - 1))%Z with 1%Z by lia|rewrite Z.sub_diag]; done.
Qed.

(** A task that is not a dial. *)
Lemma ds_ok_plain_task s ts t :
  ds_ok s ts → task_ptr t = ds_next s → (∀ p, t ≠ TDial p) → ds_ok (bump_next s) (ts ++ [t]).
Proof.
  intros [D1 D2 D3 D4 D5 D6 D7 D8] Et Hd.
  assert (active_ids (bump_next s) (ts ++ [t]) = active_ids s ts) as Ea.
  { unfold active_ids. rewrite omap_app. simpl.
    destruct t as [p| |]; [by destruct (Hd p)|apply app_nil_r..]. }
  split; rewrite ?Ea; simpl; try done.
  - intros p d Hp. apply D7 in Hp as [Hp ?]. split; [lia|done].
  - intros t' [Ht| ->%list_elem_of_singleton]%elem_of_app.
    + destruct (D8 t' Ht) as [H1 H2]. split; [lia|done].
    + split; [lia|]. intros p E. by destruct (Hd p).
Qed.

(** What [newTasks] does: it never panics, hands out only tasks for idle
    nodes, keeps the number of dynamic dials bounded, and leaves nothing
    undone. *)
Lemma newTasks_spec s act nRunning peers now order read :
  ds_ok s act → read_ok read →
  ∃ s' ts, newTasks s nRunning peers now order read = Ok (s', ts) ∧ ds_ok s' (act ++ ts) ∧
    ds_maxDynDials s' = ds_maxDynDials s ∧ ds_ntab s' = ds_ntab s ∧ ds_netrestrict s' = ds_netrestrict s ∧
    ds_hist s' = hist_expire (ds_hist s) now ∧
    ds_dialing s ⊆ ds_dialing s' ∧
    (∀ p, TDial p ∈ ts → ∃ d, ds_tasks s' !! p = Some d ∧
       eligible (set_hist (hist_expire (ds_hist s) now) s) peers (dt_dest d)) ∧
    (count_dyn (ds_dialing s') + count_dyn peers ≤ ds_maxDynDials s ∨
     count_dyn (ds_dialing s') = count_dyn (ds_dialing s))%Z ∧
    (nRunning = 0 → ts = [] → ds_hist s' = []) ∧
    (ds_lookupRunning s' = true ∨
     (ds_maxDynDials s' - count_dyn peers - count_dyn (ds_dialing s') ≤ Z.of_nat (length (ds_lookupBuf s')))%Z).
Proof.
  intros Hok Hr. unfold newTasks.
  set (sa := if decide (ds_start s = None) then _ else s).
  assert (ds_ok sa act ∧ ds_maxDynDials sa = ds_maxDynDials s ∧ ds_ntab sa = ds_ntab s ∧ ds_netrestrict sa = ds_netrestrict s ∧
    ds_hist sa = ds_hist s ∧ ds_dialing sa = ds_dialing s ∧ ds_tasks sa = ds_tasks s) as (Ha & M1 & M2 & M3 & M4 & M5 & M6).
  { subst sa. case_decide; split_and!; try done. by apply (ds_ok_ext s). }
  clearbody sa. rewrite M1, M5.
  set (need0 := (ds_maxDynDials s - count_dyn peers - count_dyn (ds_dialing s))%Z).
  set (sb := set_hist (hist_expire (ds_hist sa) now) sa).
  assert (ds_ok sb (act ++ [])) as Hb by (rewrite app_nil_r; apply ds_ok_hist; [apply hist_expire_sublist|done]).
  assert (∀ n, eligible sb peers n → eligible (set_hist (hist_expire (ds_hist s) now) s) peers n) as Hel.
  { intros n. unfold eligible, sb. simpl. by rewrite M2, M3, M4, M5. }
  destruct (static_rounds_adds act peers order sb [] Hb) as [A1 _].
  destruct (foldl (static_round peers) (sb, []) order) as [sc tc]. cbn [fst snd] in A1.
  destruct (boot_part act peers sc tc need0 now (ad_ok _ _ _ _ _ _ _ A1)) as (sd & td & n1 & -> & A2 & L2 & P2 & Z2).
  pose proof (ad_conf _ _ _ _ _ _ _ A1) as (C1 & _). pose proof (ad_conf _ _ _ _ _ _ _ A2) as (C2 & _).
  destruct (random_part act peers sd td n1 (ds_maxDynDials sd) read (ad_ok _ _ _ _ _ _ _ A2) Hr) as (se & te & n2 & -> & A3 & L3 & P3 & Z3).
  { rewrite C2, C1. subst sb. simpl. rewrite M1. assert (0 ≤ count_dyn peers ∧ 0 ≤ count_dyn (ds_dialing s))%Z by (unfold count_dyn; lia). lia. }
  cbn [mbind outcome_bind].
  destruct (dial_lookup_adds act peers (ds_lookupBuf se) se te n2 (ad_ok _ _ _ _ _ _ _ A3)) as (sf & tf & n3 & buf & -> & A4 & L4 & P4 & Z4 & Hbuf).
  pose proof (adds_trans _ _ _ _ _ _ _ _ _ _ A1 (adds_trans _ _ _ _ _ _ _ _ _ _ A2 (adds_trans _ _ _ _ _ _ _ _ _ _ A3 A4))) as A.
  destruct A as [F1 (G1 & G2 & G3 & G4 & _) F3 F4 (new & Enew & F5) F6].
  simpl in Enew. subst new. subst sb. simpl in G1, G2, G3, G4, F6, F3.
  rewrite M1 in G1. rewrite M2 in G2. rewrite M3 in G3. rewrite M4 in G4. rewrite M5 in F6, F3.
  assert (count_dyn (ds_dialing sf) = ds_maxDynDials s - count_dyn peers - n3)%Z as Ecount by (subst need0; lia).
  assert (count_dyn (ds_dialing sf) + count_dyn peers ≤ ds_maxDynDials s ∨
     count_dyn (ds_dialing sf) = count_dyn (ds_dialing s))%Z as Hbound by (subst need0; lia).
  clear A1 A2 A3 A4.
  set (lookup := bool_decide _ && _).
  (* the state and tasks after the lookup task *)
  assert (∃ sg tg, (if lookup then (bump_next (set_lookup true buf (set_lookup (ds_lookupRunning sf) buf sf)),
              tf ++ [TDiscover (ds_next (set_lookup (ds_lookupRunning sf) buf sf))])
            else (set_lookup (ds_lookupRunning sf) buf sf, tf)) = (sg, tg) ∧
    ds_ok sg (act ++ tg) ∧ ds_dialing sg = ds_dialing sf ∧ ds_tasks sg = ds_tasks sf ∧ ds_hist sg = ds_hist sf ∧
    ds_maxDynDials sg = ds_maxDynDials sf ∧ ds_ntab sg = ds_ntab sf ∧ ds_netrestrict sg = ds_netrestrict sf ∧
    ds_lookupBuf sg = buf ∧ (∀ p, TDial p ∈ tg → TDial p ∈ tf) ∧
    (ds_lookupRunning sg = true ∨ (n3 ≤ Z.of_nat (length buf))%Z)) as (sg & tg & -> & K1 & K2 & K3 & K4 & K5 & K6 & K7 & K8 & K9 & K10).
  { subst lookup. cbn [ds_lookupRunning set_lookup].
    destruct (bool_decide (Z.of_nat (length buf) < n3)%Z && negb (ds_lookupRunning sf)) eqn:El; eexists _, _; (split; [reflexivity|]).
    - split; [rewrite app_assoc; apply ds_ok_plain_task; [by apply (ds_ok_ext sf)|done|done]|]. do 7 (split; [done|]).
      split; [|by left]. intros p [?| E%list_elem_of_singleton]%elem_of_app; done.
    - split; [by apply (ds_ok_ext sf)|]. do 7 (split; [done|]). split; [done|].
      apply andb_false_iff in El as [El|El]; [right; apply bool_decide_eq_false in El; lia|left].
      by apply negb_false_iff in El. }
  assert (∀ p, TDial p ∈ tg → ∃ d, ds_tasks sg !! p = Some d ∧
     eligible (set_hist (hist_expire (ds_hist s) now) s) peers (dt_dest d)) as Htasks.
  { intros p Hp%K9. destruct (F5 _ Hp) as (q & d & [= <-] & Hd & He). exists d. rewrite K3. split; [done|].
    by apply Hel. }
  assert (ds_lookupRunning sg = true ∨
     (ds_maxDynDials sg - count_dyn peers - count_dyn (ds_dialing sg) ≤ Z.of_nat (length (ds_lookupBuf sg)))%Z) as Hlive.
  { destruct K10 as [?|?]; [by left|right]. rewrite K5, K2, K8, G1. lia. }
  assert (ds_dialing s ⊆ ds_dialing sg) as Hmono by (by rewrite K2).
  rewrite <- K2 in Hbound. rewrite G1 in K5. rewrite G2 in K6. rewrite G3 in K7. rewrite G4 in K4.
  destruct (ds_hist sg) as [|q h] eqn:Eh; cbn [hist_min head].
  { exists sg, tg. split; [reflexivity|]. split; [exact K1|]. rewrite Eh. split_and!; try done. }
  case_decide as Hw.
  - exists (bump_next sg), [TWait (ds_next sg) (pd_exp q - now)]. destruct Hw as [_ ->].
    split; [reflexivity|]. split; [rewrite app_nil_r in K1; by apply ds_ok_plain_task|]. simpl. rewrite Eh.
    split_and!; try done. intros p Hp%list_elem_of_singleton. done.
  - exists sg, tg. split; [reflexivity|]. split; [exact K1|]. rewrite Eh. split_and!; try done.
    intros ??. exfalso. by apply Hw.
Qed.

(** ** The other operations *)

Lemma addStatic_ok s ts n : ds_ok s ts → ds_ok (addStatic s n) ts.
Proof.
  intros Hok. pose proof (ds_ok_new s ts (MkDialTask staticDialedConn n 0 0) (or_intror eq_refl) Hok) as [D1 D2 D3 D4 D5 D6 D7 D8].
  split; simpl; try done. intros id p [[<- <-]|[_ Hp]]%lookup_insert_Some; [|by apply D6].
  exists (MkDialTask staticDialedConn n 0 0). split; [apply lookup_insert_eq|done].
Qed.

Lemma removeStatic_ok s ts n : ds_ok s ts → ds_ok (removeStatic s n) ts.
Proof.
  intros Hok. unfold removeStatic. apply ds_ok_hist; [apply hist_remove_sublist|].
  apply (ds_ok_ext s); [done..|simpl; lia|]. simpl. apply delete_subseteq.
Qed.

Lemma newDialState_ok static bootnodes ntab maxdyn netrestrict :
  ds_ok (newDialState static bootnodes ntab maxdyn netrestrict) [].
Proof.
  unfold newDialState. set (s0 := MkDialstate _ _ _ _ _ _ _ _ _ _ _ _).
  assert (ds_ok s0 []) as H0.
  { split; simpl.
    - apply NoDup_nil_2.
    - intros id. rewrite lookup_empty. split; [by intros []|by intros ?%not_elem_of_nil].
    - apply NoDup_nil_2.
    - by intros id ?%not_elem_of_nil.
    - constructor.
    - intros id p. by rewrite lookup_empty.
    - intros p t. by rewrite lookup_empty.
    - by intros t ?%not_elem_of_nil. }
  clearbody s0. revert s0 H0. induction static as [|n ns IH]; intros s0 H0; [done|]. simpl. by apply IH, addStatic_ok.
Qed.

(** While a task runs it may find another address for its node. *)
Lemma resolve_ok s ts p d d' :
  ds_ok s ts → ds_tasks s !! p = Some d → n_ID (dt_dest d') = n_ID (dt_dest d) → dt_flags d' = dt_flags d →
  ds_ok (set_task p d' s) ts.
Proof.
  intros [D1 D2 D3 D4 D5 D6 D7 D8] Hp Eid Ef.
  assert (∀ t, task_id (set_task p d' s) t = task_id s t) as Et.
  { intros [q|q|q w]; [|done..]. simpl. destruct (decide (p = q)) as [<-|Hne]; [|by rewrite lookup_insert_ne].
    rewrite lookup_insert_eq, Hp. simpl. by rewrite Eid. }
  assert (active_ids (set_task p d' s) ts = active_ids s ts) as Ea.
  { unfold active_ids. clear -Et. induction ts as [|t ts IH]; [done|]. csimpl. by rewrite Et, IH. }
  split; rewrite ?Ea; simpl; try done.
  - intros id q Hq. destruct (D6 id q Hq) as (t & Ht & E1 & E2). destruct (decide (p = q)) as [<-|Hne].
    + exists d'. rewrite lookup_insert_eq, Eid, Ef. by simplify_eq.
    + exists t. by rewrite lookup_insert_ne.
  - intros q t [[<- <-]|[_ Ht]]%lookup_insert_Some; [|by apply D7]. rewrite Ef. by apply (D7 p d).
  - intros t Ht. destruct (D8 t Ht) as [H1 H2]. split; [done|]. intros q Eq. destruct (H2 q Eq) as (x & Hx & E).
    destruct (decide (p = q)) as [<-|Hne]; [exists d'; rewrite lookup_insert_eq, Eid, Ef; by simplify_eq|].
    exists x. by rewrite lookup_insert_ne.
Qed.

Lemma active_ids_perm s l1 l2 : l1 ≡ₚ l2 → active_ids s l1 ≡ₚ active_ids s l2.
Proof. intros E. unfold active_ids. by rewrite E. Qed.

Lemma ds_ok_perm s l1 l2 : l1 ≡ₚ l2 → ds_ok s l1 → ds_ok s l2.
Proof.
  intros E [D1 D2 D3 D4 D5 D6 D7 D8]. pose proof (active_ids_perm s _ _ E) as Ea.
  split; try done; [by rewrite <- Ea|intros id; by rewrite D2, Ea|]. intros t Ht. apply D8. by rewrite E.
Qed.

(** A finished task leaves the active ones; its node becomes a past dial. *)
Lemma taskDone_ok s t ts now results : ds_ok s (t :: ts) → ds_ok (taskDone s t now results) ts.
Proof.
  intros Hok. assert (∀ p, t = TDiscover p ∨ (∃ d, t = TWait p d) → ds_ok s ts) as Hplain.
  { intros p Hp. destruct Hok as [D1 D2 D3 D4 D5 D6 D7 D8].
    assert (active_ids s (t :: ts) = active_ids s ts) as Ea.
    { unfold active_ids. simpl. by destruct Hp as [->|[d ->]]. }
    rewrite Ea in D1, D2. split; try done. intros t' Ht. apply D8. by right. }
  destruct t as [p|p|p d]; simpl.
  - destruct Hok as [D1 D2 D3 D4 D5 D6 D7 D8]. destruct (D8 (TDial p) ltac:(by left)) as [_ H8].
    destruct (H8 p eq_refl) as (d & Hd & Hdf). rewrite Hd.
    assert (active_ids s (TDial p :: ts) = n_ID (dt_dest d) :: active_ids s ts) as Ea.
    { unfold active_ids. simpl. by rewrite Hd. }
    rewrite Ea in D1, D2. apply NoDup_cons in D1 as [Hn D1].
    assert (n_ID (dt_dest d) ∉ pd_id <$> ds_hist s) as Hnh by (intros Hin; apply D4 in Hin; by rewrite Hin in Hdf).
    split; simpl; try done.
    + intros id. rewrite lookup_delete_is_Some, D2, elem_of_cons.
      change (active_ids (set_dialing _ _) ts) with (active_ids s ts). naive_solver.
    + rewrite (hist_add_perm _ _). csimpl. by apply NoDup_cons.
    + intros id. rewrite (hist_add_perm _ _). csimpl. intros [->|Hid]%elem_of_cons; [apply lookup_delete_eq|].
      apply lookup_delete_None. right. by apply D4.
    + by apply hist_add_sorted.
    + intros t Ht. destruct (D8 t ltac:(by right)) as [H1 H2]. split; [done|]. intros q ->.
      destruct (H2 q eq_refl) as (x & Hx & Hxf). exists x. split; [done|]. rewrite lookup_delete_ne; [done|].
      intros E. apply Hn. rewrite E. unfold active_ids. apply list_elem_of_omap. exists (TDial q). simpl. by rewrite Hx.
  - apply (ds_ok_ext s); try done. apply (Hplain p). by left.
  - apply (Hplain p). right. by exists d.
Qed.

(** ** Claims *)

(** The table keeps its promise. *)
Lemma table_read_ok t rnd :
  read_ok (λ k, match ReadRandomNodes t rnd k with Ok x => x | _ => (0, []) end).
Proof.
  intros k. destruct (t_initDone t) eqn:Ei.
  - destruct (decide (0 < length (entries_of t))) as [Hl|Hl].
    + destruct (ReadRandomNodes_spec t rnd k Ei Hl) as (n & w & -> & Lw & _ & Hn). simpl. split; [lia|].
      rewrite Hn. case_decide; [by left|right; lia].
    + unfold ReadRandomNodes. rewrite Ei. simpl. rewrite decide_True; [simpl; lia|].
      destruct (filter _ _) as [|l ls] eqn:Ef; [done|]. exfalso. apply Hl.
      assert (l ∈ filter (λ l, l ≠ []) (b_entries <$> t_buckets t)) as Hin by (rewrite Ef; by left).
      apply list_elem_of_filter in Hin as [Hne _]. rewrite entries_concat, <- concat_filter_nil, Ef. simpl.
      destruct l; [done|]. simpl. lia.
  - unfold ReadRandomNodes. rewrite Ei. simpl. lia.
Qed.


Definition ex_dial : dialstate := newDialState [ex_node x01 x01 x01] [ex_node x02 x02 x02] None 4 None.

(** The dialer does not fall asleep: when nothing runs it hands out a task
    as long as it remembers a past dial, and whenever dynamic connections are
    missing beyond the candidates at hand a lookup is running. *)
Theorem dialer_keeps_ticking s act peers now order read s' ts :
  ds_ok s act → read_ok read → newTasks s 0 peers now order read = Ok (s', ts) →
  (ts = [] → ds_hist s' = []) ∧
  (ds_lookupRunning s' = true ∨
   (ds_maxDynDials s - count_dyn peers - count_dyn (ds_dialing s') ≤ Z.of_nat (length (ds_lookupBuf s')))%Z).
Proof.
  intros Hok Hr E. destruct (newTasks_spec s act 0 peers now order read Hok Hr)
    as (s1 & ts1 & E1 & _ & Em & _ & _ & _ & _ & _ & _ & H1 & H2). rewrite E in E1. injection E1 as <- <-.
  split; [by apply H1|]. by rewrite <- Em.
Qed.

Lemma dialer_keeps_ticking_witness :
  match newTasks ex_dial 0 ∅ (seconds 100) [] (λ _, (0, [])) with
  | Ok (s', ts) => ds_lookupRunning s' = true ∨ (4 - count_dyn ∅ - count_dyn (ds_dialing s') ≤ Z.of_nat (length (ds_lookupBuf s')))%Z
  | _ => False
  end.
Proof.
  destruct (newTasks ex_dial 0 ∅ (seconds 100) [] (λ _, (0, []))) as [[s' ts]|e|] eqn:E; [|vm_compute in E; discriminate E..].
  refine (proj2 (dialer_keeps_ticking ex_dial [] ∅ (seconds 100) [] (λ _, (0, [])) s' ts _ _ E)).
  - apply newDialState_ok.
  - intros k. simpl. lia.
Defined.
