(* ===== verification/P2PServer.v ===== *)
(** * The main loop of the peer-to-peer server

    [run] of [p2p/server.go] with the checks of the two handshakes and the
    limits they enforce.  One goroutine owns the state and handles one event
    at a time; [run_step] has a constructor per case of its [select], and one
    for [scheduleTasks] at the head of the loop.  Connections, handshakes and
    the tasks themselves run concurrently: what they send is any value they
    can send. *)

From S2P Require Import Prelude CommonTypes Netutil Discover KadTable Dial.

Set Default Goal Selector "!".
Set Default Proof Using "Type".

Definition maxActiveDialTasks : nat := 16.
Definition defaultDialRatio : Z := 3.

(** The parts of [Config] the loop looks at, with the local node. *)
Record config := MkConfig {
  cf_MaxPeers : Z; cf_DialRatio : Z; cf_NoDiscovery : bool; cf_NoDial : bool; cf_Self : NodeID;
  cf_Protocols : list (bytes * Z) (* name and version *)
}.

Definition maxDialedConns (c : config) : Z :=
  if cf_NoDiscovery c || cf_NoDial c then 0
  else let r := if decide (cf_DialRatio c = 0%Z) then defaultDialRatio else cf_DialRatio c in (cf_MaxPeers c ÷ r)%Z.
Definition maxInboundConns (c : config) : Z := (cf_MaxPeers c - maxDialedConns c)%Z.

(** ** State *)

(** A connection that has passed the encryption handshake. *)
Record conn := MkConn { cn_id : NodeID; cn_flags : Z; cn_caps : list (bytes * Z) }.

Record server := MkServer {
  sv_peers : gmap NodeID Z;
  sv_inbound : Z;
  sv_trusted : gset NodeID;
  sv_running : list task;
  sv_queued : list task;
  sv_dial : dialstate
}.

Definition set_tasks (r q : list task) (d : dialstate) (s : server) : server :=
  MkServer (sv_peers s) (sv_inbound s) (sv_trusted s) r q d.
Definition set_peers (p : gmap NodeID Z) (i : Z) (s : server) : server :=
  MkServer p i (sv_trusted s) (sv_running s) (sv_queued s) (sv_dial s).
Definition set_trusted (t : gset NodeID) (s : server) : server :=
  MkServer (sv_peers s) (sv_inbound s) t (sv_running s) (sv_queued s) (sv_dial s).

(** ** Tasks *)

Fixpoint delTask (running : list task) (t : task) : list task :=
  match running with
  | [] => []
  | x :: rest => if decide (x = t) then rest else x :: delTask rest t
  end.

(** The new running tasks and the rest of [ts]. *)
Fixpoint startTasks (running ts : list task) : list task * list task :=
  match ts with
  | [] => (running, [])
  | t :: rest => if decide (length running < maxActiveDialTasks) then startTasks (running ++ [t]) rest else (running, ts)
  end.

Definition scheduleTasks (s : server) (now : Z) (order : list NodeID) (read : nat → nat * list Node) : outcome server :=
  let '(running, queued) := startTasks (sv_running s) (sv_queued s) in
  if decide (length running < maxActiveDialTasks) then
    '(d, nt) ← newTasks (sv_dial s) (length running + length queued) (sv_peers s) now order read;
    let '(running, rest) := startTasks running nt in
    Ok (set_tasks running (queued ++ rest) d s)
  else Ok (set_tasks running queued (sv_dial s) s).

(** ** Checks *)

Inductive DiscReason := DiscUselessPeer | DiscTooManyPeers | DiscAlreadyConnected | DiscSelf.

Definition encHandshakeChecks (cf : config) (peers : gmap NodeID Z) (inboundCount : Z) (c : conn) : option DiscReason :=
  if negb (conn_is (cn_flags c) (Z.lor trustedConn staticDialedConn)) && (cf_MaxPeers cf <=? Z.of_nat (size peers))%Z
  then Some DiscTooManyPeers
  else if negb (conn_is (cn_flags c) trustedConn) && conn_is (cn_flags c) inboundConn && (maxInboundConns cf <=? inboundCount)%Z
  then Some DiscTooManyPeers
  else if bool_decide (is_Some (peers !! cn_id c)) then Some DiscAlreadyConnected
  else if bool_decide (cn_id c = cf_Self cf) then Some DiscSelf
  else None.

Definition countMatchingProtocols (protocols caps : list (bytes * Z)) : nat :=
  foldl (λ n cap, foldl (λ n proto, if decide (proto = cap) then S n else n) n protocols) 0 caps.

Definition protoHandshakeChecks (cf : config) (peers : gmap NodeID Z) (inboundCount : Z) (c : conn) : option DiscReason :=
  if bool_decide (0 < length (cf_Protocols cf)) && bool_decide (countMatchingProtocols (cf_Protocols cf) (cn_caps c) = 0)
  then Some DiscUselessPeer
  else encHandshakeChecks cf peers inboundCount c.

(** The case [posthandshake]: the connection is marked when its node is
    trusted, and checked. *)
Definition posthandshake (cf : config) (s : server) (c : conn) : conn * option DiscReason :=
  let c := if decide (cn_id c ∈ sv_trusted s) then MkConn (cn_id c) (Z.lor (cn_flags c) trustedConn) (cn_caps c) else c in
  (c, encHandshakeChecks cf (sv_peers s) (sv_inbound s) c).

(** The case [addpeer]. *)
Definition addpeer (cf : config) (s : server) (c : conn) : server * option DiscReason :=
  match protoHandshakeChecks cf (sv_peers s) (sv_inbound s) c with
  | Some e => (s, Some e)
  | None =>
    (set_peers (<[cn_id c := cn_flags c]> (sv_peers s))
       (if conn_is (cn_flags c) inboundConn then (sv_inbound s + 1)%Z else sv_inbound s) s, None)
  end.

(** The case [delpeer], of a peer with these flags. *)
Definition delpeer (s : server) (id : NodeID) (flags : Z) : server :=
  set_peers (delete id (sv_peers s)) (if conn_is flags inboundConn then (sv_inbound s - 1)%Z else sv_inbound s) s.

Definition taskdone (s : server) (t : task) (now : Z) (results : list Node) : server :=
  set_tasks (delTask (sv_running s) t) (sv_queued s) (taskDone (sv_dial s) t now results) s.

Definition run_start (cf : config) (static bootnodes : list Node) (ntab : option NodeID) (netrestrict : option Netlist)
    (trusted : gset NodeID) : server :=
  MkServer ∅ 0 trusted [] [] (newDialState static bootnodes ntab (maxDialedConns cf) netrestrict).

(** ** The loop *)

(** The flags a connection can have: those of the dial task that made it, or
    [inboundConn]; the transport and the trust in the node add theirs. *)
Definition extra_flags (e : Z) : Prop := ∃ p w t : bool,
  e = Z.lor (if p then P2PConn else 0) (Z.lor (if w then webrtcConn else 0) (if t then trustedConn else 0)).
Definition conn_made (s : server) (c : conn) : Prop :=
  ∃ base e, cn_flags c = Z.lor base e ∧ extra_flags e ∧
    (base = inboundConn ∨
     ∃ p d, TDial p ∈ sv_running s ∧ ds_tasks (sv_dial s) !! p = Some d ∧ base = dt_flags d ∧ cn_id c = n_ID (dt_dest d)).

(** A running dial may find another endpoint of its node. *)
Inductive run_step (cf : config) : server → server → Prop :=
  | run_schedule s now order read s' :
      read_ok read → scheduleTasks s now order read = Ok s' → run_step cf s s'
  | run_settrusted s id : run_step cf s (set_trusted ({[ id ]} ∪ sv_trusted s) s)
  | run_addstatic s n : run_step cf s (set_tasks (sv_running s) (sv_queued s) (addStatic (sv_dial s) n) s)
  | run_removestatic s n : run_step cf s (set_tasks (sv_running s) (sv_queued s) (removeStatic (sv_dial s) n) s)
  | run_taskdone s t now results : t ∈ sv_running s → run_step cf s (taskdone s t now results)
  | run_resolve s p d d' :
      TDial p ∈ sv_running s → ds_tasks (sv_dial s) !! p = Some d →
      n_ID (dt_dest d') = n_ID (dt_dest d) → dt_flags d' = dt_flags d →
      run_step cf s (set_tasks (sv_running s) (sv_queued s) (set_task p d' (sv_dial s)) s)
  | run_posthandshake s (c : conn) : run_step cf s s
  | run_addpeer s c : conn_made s c → run_step cf s (addpeer cf s c).1
  | run_delpeer s id flags : sv_peers s !! id = Some flags → run_step cf s (delpeer s id flags).

(** ** The invariant *)

Definition peer_count (P : Z → bool) (m : gmap NodeID Z) : Z := Z.of_nat (size (filter (λ p, P p.2 = true) m)).
Definition ordinary (f : Z) : bool := negb (conn_is f (Z.lor trustedConn staticDialedConn)).
Definition guest (f : Z) : bool := negb (conn_is f trustedConn) && conn_is f inboundConn.
Definition dyn (f : Z) : bool := conn_is f dynDialedConn.

(** The nodes a dynamic connection is being made to or exists to. *)
Definition dyn_nodes (s : server) : gset NodeID :=
  dom (filter (λ p, dyn p.2 = true) (ds_dialing (sv_dial s))) ∪ dom (filter (λ p, dyn p.2 = true) (sv_peers s)).

Record run_ok (cf : config) (s : server) : Prop := {
  ro_dial : ds_ok (sv_dial s) (sv_running s ++ sv_queued s);
  ro_max : ds_maxDynDials (sv_dial s) = maxDialedConns cf;
  ro_running : length (sv_running s) ≤ maxActiveDialTasks;
  ro_inbound : sv_inbound s = peer_count (λ f, conn_is f inboundConn) (sv_peers s);
  ro_self : sv_peers s !! cf_Self cf = None;
  ro_ordinary : (peer_count ordinary (sv_peers s) ≤ Z.max 0 (cf_MaxPeers cf))%Z;
  ro_guest : (peer_count guest (sv_peers s) ≤ Z.max 0 (maxInboundConns cf))%Z;
  ro_dyn : (Z.of_nat (size (dyn_nodes s)) ≤ Z.max 0 (maxDialedConns cf))%Z
}.

Lemma peer_count_insert P m id f :
  m !! id = None → peer_count P (<[id := f]> m) = (peer_count P m + Z.b2z (P f))%Z.
Proof.
  intros Hn. unfold peer_count. destruct (P f) eqn:E.
  - rewrite map_filter_insert_True by done. rewrite map_size_insert_None; [simpl; lia|].
    by apply map_lookup_filter_None_2; left.
  - rewrite map_filter_insert_False by (simpl; by rewrite E). rewrite delete_id by done. simpl. lia.
Qed.
Lemma peer_count_delete P m id f :
  m !! id = Some f → peer_count P (delete id m) = (peer_count P m - Z.b2z (P f))%Z.
Proof.
  intros Hm. rewrite <- (insert_delete_id m id f Hm) at 2. rewrite peer_count_insert by apply lookup_delete_eq. lia.
Qed.
Lemma peer_count_nonneg P m : (0 ≤ peer_count P m)%Z.
Proof. unfold peer_count. lia. Qed.
Lemma peer_count_le P m : (peer_count P m ≤ Z.of_nat (size m))%Z.
Proof.
  unfold peer_count. apply inj_le. rewrite <- !size_dom. apply subseteq_size, dom_filter_subseteq.
Qed.
Lemma peer_count_mono P Q m : (∀ f, P f = true → Q f = true) → (peer_count P m ≤ peer_count Q m)%Z.
Proof.
  intros H. unfold peer_count. apply inj_le. rewrite <- !size_dom. apply subseteq_size, subseteq_dom.
  apply map_filter_subseteq_ext. intros i x _. apply H.
Qed.

Lemma size_union_le (X Y : gset NodeID) : size (X ∪ Y) ≤ size X + size Y.
Proof.
  rewrite size_union_alt. assert (size (Y ∖ X) ≤ size Y) by (apply subseteq_size; set_solver). lia.
Qed.

Lemma count_dyn_peers m : count_dyn m = peer_count dyn m.
Proof. done. Qed.

Lemma startTasks_spec running ts :
  let '(r, q) := startTasks running ts in
  running ++ ts = r ++ q ∧ (length running ≤ maxActiveDialTasks → length r ≤ maxActiveDialTasks) ∧
  (q ≠ [] → maxActiveDialTasks ≤ length r).
Proof.
  revert running. induction ts as [|t ts IH]; intros running; simpl; [done|]. case_decide as Hl.
  - specialize (IH (running ++ [t])). destruct (startTasks _ _) as [r q]. destruct IH as (E & H1 & H2).
    rewrite <- app_assoc in E. split_and!; [done| |done]. intros _. apply H1. rewrite length_app. simpl. lia.
  - split_and!; [done|done|lia].
Qed.

Lemma delTask_perm running t : t ∈ running → running ≡ₚ t :: delTask running t.
Proof.
  induction running as [|x l IH]; [by intros ?%not_elem_of_nil|]. simpl. case_decide as E; [by subst|].
  intros [->|Hin]%elem_of_cons; [done|]. rewrite (IH Hin) at 1. apply Permutation_swap.
Qed.

(** The flags of a connection decide as those it was made with. *)
Lemma made_flags base e :
  extra_flags e → base = dynDialedConn ∨ base = staticDialedConn ∨ base = inboundConn →
  dyn (Z.lor base e) = bool_decide (base = dynDialedConn) ∧
  conn_is (Z.lor base e) inboundConn = bool_decide (base = inboundConn).
Proof. intros (p & w & t & ->) [-> | [-> | ->]]; destruct p, w, t; vm_compute; done. Qed.

(** ** Preservation *)

Lemma scheduleTasks_ok cf s now order read :
  run_ok cf s → read_ok read →
  ∃ s', scheduleTasks s now order read = Ok s' ∧ run_ok cf s' ∧
    (sv_queued s' ≠ [] → length (sv_running s') = maxActiveDialTasks).
Proof.
  intros Hok Hr. unfold scheduleTasks.
  pose proof (startTasks_spec (sv_running s) (sv_queued s)) as H1.
  destruct (startTasks (sv_running s) (sv_queued s)) as [r q]. destruct H1 as (E1 & L1 & Q1).
  pose proof (L1 (ro_running cf s Hok)) as L1'.
  assert (ds_ok (sv_dial s) (r ++ q)) as Hd by (rewrite <- E1; apply Hok).
  case_decide as Hlen; cycle 1.
  { eexists. split; [reflexivity|]. split; [|intros _; simpl; lia].
    destruct Hok as [R1 R2 R3 R4 R5 R6 R7 R8]. by split. }
  assert (q = []) as -> by (destruct q; [done|specialize (Q1 ltac:(done)); lia]).
  destruct (newTasks_spec (sv_dial s) (r ++ []) (length r + length (@nil task)) (sv_peers s) now order read Hd Hr)
    as (d & nt & -> & Hd' & Em & _ & _ & _ & Hsub & _ & Hcount & _).
  cbn [mbind outcome_bind]. pose proof (startTasks_spec r nt) as H2. rewrite app_nil_r in Hd'.
  destruct (startTasks r nt) as [r' q']. destruct H2 as (E2 & L2 & Q2). simpl.
  eexists. split; [reflexivity|]. split; [|intros Hq; simpl in *; specialize (Q2 Hq); lia].
  destruct Hok as [R1 R2 R3 R4 R5 R6 R7 R8]. split; simpl; try done.
  - by rewrite <- E2.
  - by rewrite Em.
  - by apply L2.
  - rewrite R2 in Hcount. unfold dyn_nodes in *. simpl.
    destruct Hcount as [Hc|Hc].
    + pose proof (size_union_le (dom (filter (λ p, dyn p.2 = true) (ds_dialing d)) : gset NodeID)
        (dom (filter (λ p, dyn p.2 = true) (sv_peers s)))) as Hu. rewrite !size_dom in Hu.
      unfold count_dyn in Hc. unfold dyn in *. lia.
    + assert (filter (λ p, dyn p.2 = true) (ds_dialing (sv_dial s)) = filter (λ p, dyn p.2 = true) (ds_dialing d)) as <-; [|done].
      assert (filter (λ p, dyn p.2 = true) (ds_dialing (sv_dial s)) ⊆ filter (λ p, dyn p.2 = true) (ds_dialing d)) as Hs
        by (by apply map_filter_subseteq_mono).
      apply map_subseteq_size_eq; [done|]. unfold count_dyn in Hc. unfold dyn. lia.
Qed.

Lemma run_step_ok cf s s' : run_step cf s s' → run_ok cf s → run_ok cf s'.
Proof.
  intros Hs Hok. destruct Hs as [s now order read s' Hr E|s id|s n|s n|s t now results Ht|s p d d' Hp Hd E1 E2|s c|s c Hc|s id flags Hid].
  - destruct (scheduleTasks_ok cf s now order read Hok Hr) as (s1 & E' & H1 & _). rewrite E in E'. by injection E' as <-.
  - destruct Hok as [R1 R2 R3 R4 R5 R6 R7 R8]. by split.
  - destruct Hok as [R1 R2 R3 R4 R5 R6 R7 R8]. split; try done. by apply addStatic_ok.
  - destruct Hok as [R1 R2 R3 R4 R5 R6 R7 R8]. split; try done. by apply removeStatic_ok.
  - destruct Hok as [R1 R2 R3 R4 R5 R6 R7 R8]. pose proof (delTask_perm _ _ Ht) as Hperm.
    assert (ds_dialing (taskDone (sv_dial s) t now results) ⊆ ds_dialing (sv_dial s) ∧
            ds_maxDynDials (taskDone (sv_dial s) t now results) = ds_maxDynDials (sv_dial s)) as [Hsub Em].
    { destruct t; simpl; [|done..]. destruct (ds_tasks (sv_dial s) !! p) as [d|]; [|done]. split; [apply delete_subseteq|done]. }
    split; simpl; try done.
    + apply taskDone_ok. eapply ds_ok_perm; [|exact R1]. exact (Permutation_app_tail (sv_queued s) Hperm).
    + by rewrite Em.
    + apply Permutation_length in Hperm. simpl in Hperm. lia.
    + etransitivity; [|exact R8]. apply inj_le, subseteq_size. unfold dyn_nodes. simpl.
      apply union_mono_r, subseteq_dom. by apply map_filter_subseteq_mono.
  - destruct Hok as [R1 R2 R3 R4 R5 R6 R7 R8]. split; try done. by eapply resolve_ok.
  - done.
  - unfold addpeer. destruct (protoHandshakeChecks _ _ _ _) eqn:Ech; [done|].
    unfold protoHandshakeChecks in Ech. destruct (bool_decide _ && bool_decide _); [done|].
    unfold encHandshakeChecks in Ech.
    destruct (negb (conn_is (cn_flags c) (Z.lor trustedConn staticDialedConn)) && _) eqn:C1; [done|].
    destruct (negb (conn_is (cn_flags c) trustedConn) && _ && _) eqn:C2; [done|].
    case_bool_decide as C3; [done|]. case_bool_decide as C4; [done|]. clear Ech.
    apply eq_None_not_Some in C3. destruct Hok as [R1 R2 R3 R4 R5 R6 R7 R8]. split; simpl; try done.
    + rewrite peer_count_insert by done. destruct (conn_is (cn_flags c) inboundConn); simpl; lia.
    + by rewrite lookup_insert_ne.
    + rewrite peer_count_insert by done. fold (ordinary (cn_flags c)) in C1.
      destruct (ordinary (cn_flags c)); simpl in *; [|lia]. apply Z.leb_gt in C1.
      pose proof (peer_count_le ordinary (sv_peers s)). lia.
    + rewrite peer_count_insert by done. fold (guest (cn_flags c)) in C2.
      destruct (guest (cn_flags c)); simpl in *; [|lia]. apply Z.leb_gt in C2.
      assert (peer_count guest (sv_peers s) ≤ sv_inbound s)%Z; [|lia].
      rewrite R4. apply peer_count_mono. unfold guest. intros f [_ ?]%andb_prop. done.
    + etransitivity; [|exact R8]. apply inj_le, subseteq_size. unfold dyn_nodes. simpl.
      destruct (dyn (cn_flags c)) eqn:Ed.
      * rewrite map_filter_insert_True by done. rewrite dom_insert.
        assert (cn_id c ∈ dom (filter (λ p, dyn p.2 = true) (ds_dialing (sv_dial s)))) as Hin; [|set_solver].
        destruct Hc as (base & e & Ef & He & [->|(p & d & Hp & Hd & -> & Eid)]); rewrite Ef in Ed.
        { destruct (made_flags inboundConn e He) as [E _]; [by right; right|]. rewrite E in Ed. done. }
        destruct (do_tasks _ _ R1 p d Hd) as [_ Hfl].
        destruct (made_flags (dt_flags d) e He) as [E _]; [destruct Hfl; auto|]. rewrite E in Ed.
        apply bool_decide_eq_true in Ed.
        destruct (do_active _ _ R1 (TDial p)) as [_ Hact]; [apply elem_of_app; by left|].
        destruct (Hact p eq_refl) as (d0 & Hd0 & Hdial). simplify_eq. apply elem_of_dom. rewrite Eid.
        exists dynDialedConn. rewrite <- Ed. apply map_lookup_filter_Some_2; [done|]. simpl. by rewrite Ed.
      * rewrite map_filter_insert_False by (simpl; by rewrite Ed). by rewrite delete_id.
  - destruct Hok as [R1 R2 R3 R4 R5 R6 R7 R8]. split; simpl; try done.
    + rewrite (peer_count_delete _ _ _ _ Hid). destruct (conn_is flags inboundConn); simpl; lia.
    + apply lookup_delete_None. by right.
    + rewrite (peer_count_delete _ _ _ _ Hid). destruct (ordinary flags); simpl; lia.
    + rewrite (peer_count_delete _ _ _ _ Hid). destruct (guest flags); simpl; lia.
    + etransitivity; [|exact R8]. apply inj_le, subseteq_size. unfold dyn_nodes. simpl.
      apply union_mono_l, subseteq_dom. apply map_filter_subseteq_mono, delete_subseteq.
Qed.

Lemma run_start_ok cf static bootnodes ntab netrestrict trusted :
  run_ok cf (run_start cf static bootnodes ntab netrestrict trusted).
Proof.
  assert (ds_maxDynDials (newDialState static bootnodes ntab (maxDialedConns cf) netrestrict) = maxDialedConns cf ∧
          ds_dialing (newDialState static bootnodes ntab (maxDialedConns cf) netrestrict) = ∅) as [Em Ed].
  { unfold newDialState. set (s0 := MkDialstate _ _ _ _ _ _ _ _ _ _ _ _).
    assert (ds_maxDynDials s0 = maxDialedConns cf ∧ ds_dialing s0 = ∅) as H0 by done. clearbody s0.
    revert s0 H0. induction static as [|n ns IH]; intros s0 H0; [done|]. simpl. by apply IH. }
  split; simpl; try done; [apply newDialState_ok|unfold maxActiveDialTasks; lia|unfold peer_count; rewrite map_filter_empty, map_size_empty; lia..|].
  unfold dyn_nodes. simpl. rewrite Ed, !map_filter_empty, dom_empty_L, union_idemp_L, size_empty. lia.
Qed.

Lemma run_steps_ok cf s s' : rtc (run_step cf) s s' → run_ok cf s → run_ok cf s'.
Proof. induction 1 as [|s s1 s' Hs _ IH]; [done|]. intros H. by apply IH, (run_step_ok cf s). Qed.

(** ** Claims *)

(** C24: however handshakes, dials, disconnections and the calls of the
    application interleave, at most sixteen tasks run; the server is never
    connected to itself; its count of inbound peers is the number of inbound
    peers; those neither trusted nor static are at most [MaxPeers], inbound
    ones that are not trusted at most [maxInboundConns], and the nodes dialed
    dynamically or connected after such a dial at most [maxDialedConns]; and
    no node is being dialed twice. *)
Theorem server_limits cf static bootnodes ntab netrestrict trusted s :
  rtc (run_step cf) (run_start cf static bootnodes ntab netrestrict trusted) s →
  length (sv_running s) ≤ 16 ∧ sv_peers s !! cf_Self cf = None ∧
  sv_inbound s = peer_count (λ f, conn_is f inboundConn) (sv_peers s) ∧
  (peer_count ordinary (sv_peers s) ≤ Z.max 0 (cf_MaxPeers cf))%Z ∧
  (peer_count guest (sv_peers s) ≤ Z.max 0 (maxInboundConns cf))%Z ∧
  (Z.of_nat (size (dyn_nodes s)) ≤ Z.max 0 (maxDialedConns cf))%Z ∧
  NoDup (active_ids (sv_dial s) (sv_running s ++ sv_queued s)) ∧
  ∀ id, is_Some (ds_dialing (sv_dial s) !! id) ↔ id ∈ active_ids (sv_dial s) (sv_running s ++ sv_queued s).
Proof.
  intros Hr. destruct (run_steps_ok cf _ _ Hr (run_start_ok _ _ _ _ _ _)) as [R1 R2 R3 R4 R5 R6 R7 R8].
  split_and!; try done; apply R1.
Qed.

Definition ex_config : config := MkConfig 6 0 false false (ex_id x00) [].
Definition ex_guest : conn := MkConn (ex_id x07) inboundConn [].
Definition ex_server : server := (addpeer ex_config (run_start ex_config [] [] None None ∅) ex_guest).1.

Lemma ex_server_run : rtc (run_step ex_config) (run_start ex_config [] [] None None ∅) ex_server.
Proof.
  eapply rtc_l; [|apply rtc_refl]. apply run_addpeer. exists inboundConn, 0%Z.
  split; [reflexivity|]. split; [by exists false, false, false|by left].
Qed.

Lemma server_limits_witness :
  size (sv_peers ex_server) = 1 ∧ (peer_count guest (sv_peers ex_server) ≤ 4)%Z.
Proof.
  destruct (server_limits ex_config [] [] None None ∅ ex_server ex_server_run) as (_ & _ & _ & _ & H & _).
  split; [vm_compute; reflexivity|]. exact H.
Defined.


