(* ===== verification/PeerProto.v ===== *)
(** * Subprotocols of a connection

    [p2p/peer.go]: two peers run, over one connection, the subprotocols both
    know.  Each side computes from the other's capabilities where the message
    codes of every subprotocol lie ([matchProtocols]); a message is shifted to
    its place when it is written and back when it is delivered.  A protocol is
    here its name, version and number of codes. *)

From S2P Require Import Prelude CommonTypes.

Set Default Goal Selector "!".
Set Default Proof Using "Type".

Definition baseProtocolLength : Z := 16.
Definition handshakeMsg : Z := 0.
Definition discMsg : Z := 1.
Definition pingMsg : Z := 2.
Definition pongMsg : Z := 3.

Record Protocol := MkProtocol { pr_Name : bytes; pr_Version : Z; pr_Length : Z }.
(** [Cap]: a name and a version. *)
Definition Cap : Type := bytes * Z.
Definition proto_cap (p : Protocol) : Cap := (pr_Name p, pr_Version p).

(** [protoRW]: a protocol with the offset of its codes. *)
Record protoRW := MkProtoRW { rw_proto : Protocol; rw_offset : Z }.

#[global] Instance Protocol_eq_dec : EqDecision Protocol.
Proof. solve_decision. Defined.

(** ** Matching *)

(** [capsByNameAndVersion], as an order. *)
Definition cap_le (a b : Cap) : Prop := bytes_lt a.1 b.1 ∨ a.1 = b.1 ∧ (a.2 ≤ b.2)%Z.
#[global] Instance cap_le_dec : RelDecision cap_le.
Proof. intros a b. unfold cap_le. apply _. Defined.

Definition find_proto (protocols : list Protocol) (c : Cap) : option Protocol :=
  List.find (λ p, bool_decide (proto_cap p = c)) protocols.

(** One capability that matched. *)
Definition match_step (st : Z * gmap bytes protoRW) (proto : Protocol) : Z * gmap bytes protoRW :=
  let '(offset, result) := st in
  let offset := match result !! pr_Name proto with
                | Some old => u64 (offset - pr_Length (rw_proto old))
                | None => offset
                end in
  (u64 (offset + pr_Length proto), <[pr_Name proto := MkProtoRW proto offset]> result).

Definition matched (protocols : list Protocol) (caps : list Cap) : list Protocol :=
  omap (find_proto protocols) (merge_sort cap_le caps).
Definition matchProtocols (protocols : list Protocol) (caps : list Cap) : gmap bytes protoRW :=
  (foldl match_step (baseProtocolLength, ∅) (matched protocols caps)).2.

(** ** Messages *)

(** [getProto]: Go visits the map in any order, [running] is the visit. *)
Definition getProto (running : list protoRW) (code : Z) : option protoRW :=
  List.find (λ rw, (rw_offset rw <=? code)%Z && (code <? u64 (rw_offset rw + pr_Length (rw_proto rw)))%Z) running.

(** [WriteMsg] of a subprotocol: the code on the wire, or the error. *)
Definition write_code (rw : protoRW) (code : Z) : outcome Z :=
  if (pr_Length (rw_proto rw) <=? code)%Z then Err ErrExternal else Ok (u64 (code + rw_offset rw)).
(** [ReadMsg]. *)
Definition read_code (rw : protoRW) (code : Z) : Z := u64 (code - rw_offset rw).

(** [handle]: what is done with a message. *)
Inductive handled := AnswerPong | Discarded | Disconnected | Delivered (rw : protoRW) | OutOfRange.
Definition handle (running : list protoRW) (code : Z) : handled :=
  if (code =? pingMsg)%Z then AnswerPong
  else if (code =? pongMsg)%Z then Discarded
  else if (code =? discMsg)%Z then Disconnected
  else if (code <? baseProtocolLength)%Z then Discarded
  else match getProto running code with Some rw => Delivered rw | None => OutOfRange end.

(** ** The layout *)

#[global] Instance cap_le_trans : Transitive cap_le.
Proof.
  intros a b c. unfold cap_le. intros [H1|[E1 H1]] [H2|[E2 H2]].
  - left. by eapply bytes_lt_trans.
  - left. by rewrite <- E2.
  - left. by rewrite E1.
  - right. split; [by rewrite E1|lia].
Qed.
#[global] Instance cap_le_total : Total cap_le.
Proof.
  intros a b. unfold cap_le. destruct (total bytes_le a.1 b.1) as [H|H]; apply bytes_le_lteq in H as [H|H]; auto.
  - destruct (Z.le_ge_cases a.2 b.2); auto.
  - symmetry in H. destruct (Z.le_ge_cases a.2 b.2); auto.
Qed.
#[global] Instance cap_le_antisymm : AntiSymm (=) cap_le.
Proof.
  intros [n v] [m w]. unfold cap_le. simpl. intros [H1|[E1 H1]] [H2|[E2 H2]]; subst.
  - exfalso. by eapply bytes_lt_irrefl, bytes_lt_trans.
  - by apply bytes_lt_irrefl in H1.
  - by apply bytes_lt_irrefl in H2.
  - f_equal. lia.
Qed.

Definition rw_end (rw : protoRW) : Z := (rw_offset rw + pr_Length (rw_proto rw))%Z.

(** The codes of a set of protocols lie in [[base, off)] without overlap. *)
Record layout (base off : Z) (res : gmap bytes protoRW) : Prop := {
  la_name n rw : res !! n = Some rw → pr_Name (rw_proto rw) = n;
  la_range n rw : res !! n = Some rw → (base ≤ rw_offset rw ∧ 0 ≤ pr_Length (rw_proto rw) ∧ rw_end rw ≤ off)%Z;
  la_disjoint n m a b : res !! n = Some a → res !! m = Some b → n ≠ m → (rw_end a ≤ rw_offset b ∨ rw_end b ≤ rw_offset a)%Z
}.

Lemma layout_insert base off res p :
  layout base off res → (base ≤ off)%Z → res !! pr_Name p = None → (0 ≤ pr_Length p)%Z →
  layout base (off + pr_Length p) (<[pr_Name p := MkProtoRW p off]> res).
Proof.
  intros [L1 L2 L3] Hb Hn Hl. split.
  - intros n rw [[<- <-]|[_ H]]%lookup_insert_Some; [done|by apply L1].
  - intros n rw [[<- <-]|[_ H]]%lookup_insert_Some; [unfold rw_end; simpl; lia|]. apply L2 in H. lia.
  - intros n m a b [[<- <-]|[_ H1]]%lookup_insert_Some [[<- <-]|[_ H2]]%lookup_insert_Some Hne.
    + done.
    + right. apply L2 in H2. simpl. lia.
    + left. apply L2 in H1. simpl. lia.
    + by apply (L3 n m).
Qed.

Definition proto_len_ok (l : list Protocol) : Prop := Forall (λ p, (0 ≤ pr_Length p)%Z) l.
Fixpoint sum_len (l : list Protocol) : Z := match l with [] => 0 | p :: l => pr_Length p + sum_len l end.

Lemma sum_len_nonneg l : proto_len_ok l → (0 ≤ sum_len l)%Z.
Proof. induction 1; simpl; lia. Qed.

(** The state of the loop after a protocol [lastp]: it lies at the end, and
    what lies before has smaller names. *)
Record loop_inv (off : Z) (res : gmap bytes protoRW) (lastp : Protocol) (seen : list Protocol) : Prop := {
  lo_last : res !! pr_Name lastp = Some (MkProtoRW lastp (off - pr_Length lastp));
  lo_layout : layout baseProtocolLength (off - pr_Length lastp) (delete (pr_Name lastp) res);
  lo_base : (baseProtocolLength ≤ off - pr_Length lastp)%Z;
  lo_len : (0 ≤ pr_Length lastp)%Z;
  lo_names n : is_Some (res !! n) → n = pr_Name lastp ∨ bytes_lt n (pr_Name lastp);
  lo_seen p : p ∈ seen → ∃ rw, res !! pr_Name p = Some rw ∧ (pr_Version p ≤ pr_Version (rw_proto rw))%Z;
  lo_from n rw : res !! n = Some rw → rw_proto rw ∈ seen
}.

Lemma match_step_inv off res lastp seen p :
  loop_inv off res lastp seen → cap_le (proto_cap lastp) (proto_cap p) → (0 ≤ pr_Length p)%Z →
  (off + pr_Length p < 2 ^ 64)%Z →
  ∃ off' res', match_step (off, res) p = (off', res') ∧ loop_inv off' res' p (seen ++ [p]) ∧
    (off' ≤ off + pr_Length p)%Z.
Proof.
  intros [I1 I2 I3 I4 I5 I6 I7] Hle Hp Hb. unfold match_step, baseProtocolLength in *.
  destruct (decide (pr_Name p = pr_Name lastp)) as [E|Hne].
  - rewrite E, I1. simpl. rewrite (u64_small (off - pr_Length lastp)) by word.
    rewrite (u64_small (off - pr_Length lastp + pr_Length p)) by word.
    eexists _, _. split; [reflexivity|]. split; [|lia].
    assert (pr_Version lastp ≤ pr_Version p)%Z as Hv.
    { destruct Hle as [Hlt|[_ ?]]; [|done]. simpl in Hlt. rewrite E in Hlt. by apply bytes_lt_irrefl in Hlt. }
    split; rewrite ?E.
    + rewrite lookup_insert_eq. do 2 f_equal. lia.
    + rewrite delete_insert_eq. by replace (off - pr_Length lastp + pr_Length p - pr_Length p)%Z with (off - pr_Length lastp)%Z by lia.
    + unfold baseProtocolLength. lia.
    + done.
    + intros n [->|[_ Hn]]%lookup_insert_is_Some; [by left|]. by apply I5.
    + intros q [Hq| ->%list_elem_of_singleton]%elem_of_app.
      * destruct (I6 q Hq) as (rw & Hrw & Hvq). destruct (decide (pr_Name q = pr_Name lastp)) as [Eq|Hnq].
        -- rewrite Eq in *. rewrite lookup_insert_eq. eexists. split; [reflexivity|]. simplify_eq. simpl in *. lia.
        -- exists rw. by rewrite lookup_insert_ne.
      * rewrite E, lookup_insert_eq. eexists. split; [reflexivity|]. simpl. lia.
    + intros n rw [[<- <-]|[_ Hn]]%lookup_insert_Some; [set_solver|]. apply I7 in Hn. set_solver.
  - destruct (res !! pr_Name p) as [old|] eqn:Eo.
    { exfalso. destruct (I5 (pr_Name p)) as [?|Hlt]; [by eexists|done|].
      destruct Hle as [Hgt|[E _]]; simpl in *; [|done]. by eapply bytes_lt_irrefl, bytes_lt_trans. }
    rewrite u64_small by word. eexists _, _. split; [reflexivity|]. split; [|lia].
    assert (bytes_lt (pr_Name lastp) (pr_Name p)) as Hlt by (destruct Hle as [?|[E _]]; simpl in *; [done|by destruct Hne]).
    split.
    + rewrite lookup_insert_eq. do 2 f_equal. lia.
    + rewrite delete_insert_eq, delete_id by done.
      replace (off + pr_Length p - pr_Length p)%Z with (off - pr_Length lastp + pr_Length lastp)%Z by lia.
      rewrite <- (insert_delete_id res _ _ I1). apply layout_insert; [done|unfold baseProtocolLength; lia|apply lookup_delete_eq|done].
    + unfold baseProtocolLength. lia.
    + done.
    + intros n [->|[_ Hn]]%lookup_insert_is_Some; [by left|]. right. destruct (I5 n Hn) as [->|?]; [done|].
      by eapply bytes_lt_trans.
    + intros q [Hq| ->%list_elem_of_singleton]%elem_of_app.
      * destruct (I6 q Hq) as (rw & Hrw & Hvq). exists rw. split; [|done]. rewrite lookup_insert_ne; [done|].
        intros Eq. by rewrite <- Eq, Eo in Hrw.
      * rewrite lookup_insert_eq. eexists. split; [reflexivity|]. simpl. lia.
    + intros n rw [[<- <-]|[_ Hn]]%lookup_insert_Some; [set_solver|]. apply I7 in Hn. set_solver.
Qed.

(** The whole loop over the matched protocols, in order of their names. *)
Record match_ok (l : list Protocol) (off : Z) (res : gmap bytes protoRW) : Prop := {
  mo_layout : layout baseProtocolLength off res;
  mo_off : (off < 2 ^ 64)%Z;
  mo_seen p : p ∈ l → ∃ rw, res !! pr_Name p = Some rw ∧ (pr_Version p ≤ pr_Version (rw_proto rw))%Z;
  mo_from n rw : res !! n = Some rw → rw_proto rw ∈ l
}.

Lemma loop_inv_match_ok off res lastp seen :
  loop_inv off res lastp seen → (off < 2 ^ 64)%Z → match_ok seen off res.
Proof.
  intros [I1 I2 I3 I4 I5 I6 I7] Ho. split; [|done..].
  rewrite <- (insert_delete_id res _ _ I1).
  replace off with (off - pr_Length lastp + pr_Length lastp)%Z at 1 by lia.
  apply layout_insert; [done|done|apply lookup_delete_eq|done].
Qed.

Lemma match_loop off res lastp seen l :
  loop_inv off res lastp seen → StronglySorted cap_le (proto_cap <$> lastp :: l) → proto_len_ok l →
  (off + sum_len l < 2 ^ 64)%Z →
  ∃ off' res', foldl match_step (off, res) l = (off', res') ∧ match_ok (seen ++ l) off' res'.
Proof.
  revert off res lastp seen. induction l as [|p l IH]; intros off res lastp seen Hi Hs Hl Hb.
  { exists off, res. rewrite app_nil_r. split; [done|]. eapply loop_inv_match_ok; [done|]. simpl in Hb. lia. }
  csimpl in Hs. apply StronglySorted_cons in Hs as [Hlast Hs]. apply Forall_cons in Hlast as [Hlp _].
  apply Forall_cons in Hl as [Hp Hl]. simpl in Hb. pose proof (sum_len_nonneg l Hl).
  destruct (match_step_inv off res lastp seen p Hi Hlp Hp ltac:(lia)) as (off1 & res1 & E & Hi1 & Ho).
  destruct (IH off1 res1 p (seen ++ [p]) Hi1 Hs Hl ltac:(lia)) as (off2 & res2 & E2 & Hm).
  exists off2, res2. cbn [foldl]. rewrite E. split; [done|]. by rewrite <- app_assoc in Hm.
Qed.

Lemma match_all l :
  StronglySorted cap_le (proto_cap <$> l) → proto_len_ok l → (baseProtocolLength + sum_len l < 2 ^ 64)%Z →
  ∃ off res, foldl match_step (baseProtocolLength, ∅) l = (off, res) ∧ match_ok l off res.
Proof.
  intros Hs Hl Hb. destruct l as [|p l].
  { exists baseProtocolLength, ∅. split; [done|]. split; [split| | |]; try (intros; by rewrite lookup_empty in *).
    - done.
    - by intros p ?%not_elem_of_nil. }
  apply Forall_cons in Hl as [Hp Hl]. cbn [foldl sum_len] in *. pose proof (sum_len_nonneg l Hl) as Hnn.
  unfold match_step at 2. rewrite lookup_empty. rewrite u64_small by (unfold baseProtocolLength in *; word).
  apply (match_loop _ _ p [p]); [|done|done|lia]. split.
  - rewrite lookup_insert_eq. do 2 f_equal. lia.
  - rewrite delete_insert_id by apply lookup_empty. split; intros; by rewrite lookup_empty in *.
  - lia.
  - done.
  - intros n [->|[_ [? H]]]%lookup_insert_is_Some; [by left|]. by rewrite lookup_empty in H.
  - intros q ->%list_elem_of_singleton. rewrite lookup_insert_eq. eexists. split; [reflexivity|]. simpl. lia.
  - intros n rw [[<- <-]|[_ Hn]]%lookup_insert_Some; [by apply list_elem_of_singleton|]. by rewrite lookup_empty in Hn.
Qed.

(** ** What is matched *)

Lemma find_proto_Some protocols c p : find_proto protocols c = Some p → p ∈ protocols ∧ proto_cap p = c.
Proof. intros [Hin E]%find_some. apply list_elem_of_In in Hin. apply bool_decide_eq_true in E. done. Qed.

Lemma matched_caps protocols caps :
  proto_cap <$> matched protocols caps = filter (λ c, c ∈ proto_cap <$> protocols) (merge_sort cap_le caps).
Proof.
  unfold matched. induction (merge_sort cap_le caps) as [|c cs IH]; [done|]. csimpl. rewrite filter_cons.
  destruct (find_proto protocols c) as [p|] eqn:E; csimpl.
  - apply find_proto_Some in E as [Hin <-]. rewrite decide_True by (by apply list_elem_of_fmap_2). by rewrite IH.
  - rewrite decide_False; [done|]. intros (p & -> & Hp)%list_elem_of_fmap.
    assert (bool_decide (proto_cap p = proto_cap p) = false) as Hf by
      (apply (find_none _ _ E); by apply list_elem_of_In).
    by rewrite bool_decide_eq_true_2 in Hf.
Qed.

Lemma matched_sorted protocols caps : StronglySorted cap_le (proto_cap <$> matched protocols caps).
Proof. rewrite matched_caps. apply StronglySorted_filter, StronglySorted_merge_sort; apply _. Qed.

Lemma matched_elem protocols caps p :
  p ∈ matched protocols caps → p ∈ protocols ∧ proto_cap p ∈ caps.
Proof.
  unfold matched. intros (c & Hc & E)%list_elem_of_omap. rewrite merge_sort_Permutation in Hc.
  apply find_proto_Some in E as [? <-]. done.
Qed.

(** Both sides match the same protocols, in the same order. *)
Lemma matched_agree pA pB :
  NoDup (proto_cap <$> pA) → NoDup (proto_cap <$> pB) →
  (∀ p q, p ∈ pA → q ∈ pB → proto_cap p = proto_cap q → pr_Length p = pr_Length q) →
  matched pA (proto_cap <$> pB) = matched pB (proto_cap <$> pA).
Proof.
  intros NA NB Hlen.
  assert (proto_cap <$> matched pA (proto_cap <$> pB) = proto_cap <$> matched pB (proto_cap <$> pA)) as Ec.
  { apply (StronglySorted_unique cap_le); [apply matched_sorted..|]. rewrite !matched_caps.
    apply NoDup_Permutation.
    - apply NoDup_filter. by rewrite merge_sort_Permutation.
    - apply NoDup_filter. by rewrite merge_sort_Permutation.
    - intros c. rewrite !list_elem_of_filter, !merge_sort_Permutation. tauto. }
  assert (∀ l1 l2 : list Protocol, proto_cap <$> l1 = proto_cap <$> l2 → (∀ p, p ∈ l1 → p ∈ pA) → (∀ p, p ∈ l2 → p ∈ pB) → l1 = l2) as Heq.
  { induction l1 as [|p l1 IH]; intros [|q l2]; csimpl; intros E H1 H2; try done.
    injection E as En Ev E. f_equal; [|apply IH; [done| |]; intros; [apply H1|apply H2]; by right].
    assert (pr_Length p = pr_Length q) as El by (apply Hlen; [apply H1; by left|apply H2; by left|unfold proto_cap; congruence]).
    destruct p, q; simpl in *. congruence. }
  apply Heq; [done|intros p Hp; by apply matched_elem in Hp as [? _]|intros p Hp; by apply matched_elem in Hp as [? _]].
Qed.

(** The search by code finds the protocol whose range holds it, in whatever
    order the map is visited. *)
Lemma getProto_spec base off res running rw code :
  layout base off res → (off < 2 ^ 64)%Z → (0 ≤ base)%Z → running ≡ₚ (map_to_list res).*2 →
  rw ∈ running → (rw_offset rw ≤ code < rw_end rw)%Z → getProto running code = Some rw.
Proof.
  intros [L1 L2 L3] Ho Hb Hr Hin Hc.
  assert (∀ a, a ∈ running → ∃ n, res !! n = Some a) as Hres.
  { intros a Ha. rewrite Hr in Ha. apply list_elem_of_fmap in Ha as ([n a'] & -> & Ha).
    exists n. by apply elem_of_map_to_list. }
  assert (∀ a, a ∈ running → ((rw_offset a <=? code)%Z && (code <? u64 (rw_offset a + pr_Length (rw_proto a)))%Z) = true ↔
                             (rw_offset a ≤ code < rw_end a)%Z) as Htest.
  { intros a Ha. destruct (Hres a Ha) as [n Hn]. destruct (L2 n a Hn) as (R1 & R2 & R3). unfold rw_end in *.
    rewrite u64_small by word. rewrite andb_true_iff, Z.leb_le, Z.ltb_lt. lia. }
  unfold getProto. destruct (find _ running) as [a|] eqn:E.
  - apply find_some in E as [Ha E]. apply list_elem_of_In in Ha. apply (Htest a Ha) in E. f_equal.
    destruct (Hres a Ha) as [n Hn]. destruct (Hres rw Hin) as [m Hm].
    destruct (decide (n = m)) as [->|Hne]; [congruence|]. destruct (L3 n m a rw Hn Hm Hne); lia.
  - apply list_elem_of_In in Hin. pose proof (find_none _ _ E rw Hin) as Hf. apply list_elem_of_In in Hin.
    pose proof (proj2 (Htest rw Hin) Hc) as Ht. simpl in Hf. congruence.
Qed.

(** ** Claims *)

(** The subprotocols of a connection are those both sides know, for every
    name the highest version both know; their codes start after the sixteen
    of the base protocol and do not overlap, whatever capabilities the other
    side sends, in whatever order and however often. *)
Theorem protocol_layout protocols caps :
  proto_len_ok (matched protocols caps) → (baseProtocolLength + sum_len (matched protocols caps) < 2 ^ 64)%Z →
  let res := matchProtocols protocols caps in
  (∀ n rw, res !! n = Some rw → rw_proto rw ∈ protocols ∧ proto_cap (rw_proto rw) ∈ caps ∧ pr_Name (rw_proto rw) = n ∧
     (16 ≤ rw_offset rw)%Z) ∧
  (∀ p, p ∈ protocols → find_proto protocols (proto_cap p) = Some p → proto_cap p ∈ caps →
     ∃ rw, res !! pr_Name p = Some rw ∧ (pr_Version p ≤ pr_Version (rw_proto rw))%Z) ∧
  (∀ n m a b, res !! n = Some a → res !! m = Some b → n ≠ m → (rw_end a ≤ rw_offset b ∨ rw_end b ≤ rw_offset a)%Z).
Proof.
  intros Hl Hb res. destruct (match_all (matched protocols caps) (matched_sorted _ _) Hl Hb) as (off & r & E & [[L1 L2 L3] M2 M3 M4]).
  assert (res = r) as -> by (subst res; unfold matchProtocols; by rewrite E). split_and!.
  - intros n rw Hn. destruct (matched_elem _ _ _ (M4 n rw Hn)). split_and!; try done; [by apply L1|]. apply L2 in Hn.
    unfold baseProtocolLength in Hn. lia.
  - intros p Hp Hf Hc. apply M3. unfold matched. apply list_elem_of_omap. exists (proto_cap p).
    split; [|done]. by rewrite merge_sort_Permutation.
  - exact L3.
Qed.

Definition ex_protos : list Protocol := [MkProtocol [x70] 1 8; MkProtocol [x70] 2 9; MkProtocol [x61] 3 5].
Definition ex_protos' : list Protocol := [MkProtocol [x61] 3 5; MkProtocol [x70] 2 9; MkProtocol [x7a] 1 4].

Definition ex_caps : list Cap := [([x70], 1%Z); ([x70], 2%Z); ([x61], 3%Z); ([x70], 1%Z)].

Lemma protocol_layout_witness :
  ∃ rw, matchProtocols ex_protos ex_caps !! [x70] = Some rw ∧
        (1 ≤ pr_Version (rw_proto rw))%Z.
Proof.
  destruct (protocol_layout ex_protos ex_caps) as (_ & H & _).
  - apply (bool_decide_eq_true_1 (Forall (λ p, (0 ≤ pr_Length p)%Z) _)). vm_compute. reflexivity.
  - vm_compute. reflexivity.
  - apply (H (MkProtocol [x70] 1 8)).
    + by left.
    + vm_compute. reflexivity.
    + by left.
Defined.

(** C33: both sides compute the same layout, so a message one side's
    subprotocol writes is delivered, with the code it was written with, to
    the subprotocol of the same name and version on the other side - and a
    code outside the range of the subprotocol is refused when it is written. *)
Theorem message_routed pA pB rw runningB code :
  NoDup (proto_cap <$> pA) → NoDup (proto_cap <$> pB) → proto_len_ok pA →
  (∀ p q, p ∈ pA → q ∈ pB → proto_cap p = proto_cap q → pr_Length p = pr_Length q) →
  (baseProtocolLength + sum_len (matched pA (proto_cap <$> pB)) < 2 ^ 64)%Z → (0 ≤ code)%Z →
  matchProtocols pA (proto_cap <$> pB) !! pr_Name (rw_proto rw) = Some rw →
  runningB ≡ₚ (map_to_list (matchProtocols pB (proto_cap <$> pA))).*2 →
  matchProtocols pA (proto_cap <$> pB) = matchProtocols pB (proto_cap <$> pA) ∧
  (pr_Length (rw_proto rw) ≤ code → write_code rw code = Err ErrExternal)%Z ∧
  (code < pr_Length (rw_proto rw) → ∃ wire, write_code rw code = Ok wire ∧ handle runningB wire = Delivered rw ∧
     read_code rw wire = code)%Z.
Proof.
  intros NA NB Hl Hlen Hb Hc Hrw Hrun. pose proof (matched_agree pA pB NA NB Hlen) as Em.
  assert (proto_len_ok (matched pA (proto_cap <$> pB))) as Hl'.
  { apply Forall_forall. intros p [Hp _]%matched_elem. unfold proto_len_ok in Hl. rewrite Forall_forall in Hl. by apply Hl. }
  destruct (match_all (matched pA (proto_cap <$> pB)) (matched_sorted _ _) Hl' Hb) as (off & res & E & [L M2 M3 M4]).
  assert (matchProtocols pA (proto_cap <$> pB) = res) as EA by (unfold matchProtocols; by rewrite E).
  assert (matchProtocols pB (proto_cap <$> pA) = res) as EB by (unfold matchProtocols; by rewrite <- Em, E).
  rewrite EA in Hrw. rewrite EB in Hrun. split; [by rewrite EA, EB|].
  destruct (la_range _ _ _ L _ _ Hrw) as (R1 & R2 & R3). unfold rw_end, baseProtocolLength in *.
  unfold write_code. split; intros Hcode.
  - destruct (Z.leb_spec (pr_Length (rw_proto rw)) code); [done|lia].
  - destruct (Z.leb_spec (pr_Length (rw_proto rw)) code); [lia|].
    exists (code + rw_offset rw)%Z. rewrite u64_small by word. split; [done|].
    split; [|unfold read_code; rewrite u64_small by word; lia].
    unfold handle, pingMsg, pongMsg, discMsg, baseProtocolLength.
    do 3 (match goal with |- context [(?x =? ?y)%Z] => destruct (Z.eqb_spec x y); [lia|] end).
    destruct (Z.ltb_spec (code + rw_offset rw) 16); [lia|].
    assert (rw ∈ runningB) as Hin.
    { rewrite Hrun. apply list_elem_of_fmap. exists (pr_Name (rw_proto rw), rw). split; [done|]. by apply elem_of_map_to_list. }
    assert (rw_offset rw ≤ code + rw_offset rw < rw_end rw)%Z as Hrange by (unfold rw_end; lia).
    by rewrite (getProto_spec 16 off res runningB rw _ L M2 ltac:(lia) Hrun Hin Hrange).
Qed.

Lemma message_routed_witness :
  matchProtocols ex_protos (proto_cap <$> ex_protos') = matchProtocols ex_protos' (proto_cap <$> ex_protos).
Proof.
  refine (proj1 (message_routed ex_protos ex_protos' (MkProtoRW (MkProtocol [x70] 2 9) 21)
    ((map_to_list (matchProtocols ex_protos' (proto_cap <$> ex_protos))).*2) 3 _ _ _ _ _ _ _ _)).
  - refine (bool_decide_eq_true_1 _ _). vm_compute. reflexivity.
  - refine (bool_decide_eq_true_1 _ _). vm_compute. reflexivity.
  - repeat constructor; simpl; lia.
  - assert (Forall (λ p, Forall (λ q, proto_cap p = proto_cap q → pr_Length p = pr_Length q) ex_protos') ex_protos) as Hf
      by (refine (bool_decide_eq_true_1 _ _); vm_compute; reflexivity).
    intros p q Hp Hq. exact (proj1 (Forall_forall _ _) (proj1 (Forall_forall _ _) Hf p Hp) q Hq).
  - vm_compute. reflexivity.
  - lia.
  - vm_compute. reflexivity.
  - reflexivity.
Defined.
