(* ===== verification/RlpxFrame.v ===== *)
(** * Frames of the encrypted transport

    [p2p/rlpx.go]: after the handshake a connection carries frames, each a
    header with its MAC and a body with its MAC.  Header and body are encrypted
    by a stream cipher, AES in counter mode, that runs through all frames of a
    direction; the MACs are taken of one running hash per direction, which
    absorbs everything sent.  So each side keeps four states, two per
    direction, and a reader follows the writer frame by frame. *)

From S2P Require Import Prelude CommonTypes.

Set Default Goal Selector "!".
Set Default Proof Using "Type".

(** ** Parameters

    The block cipher AES ([crypto/aes]): a permutation of blocks of sixteen
    bytes for a key of 16, 24 or 32 bytes.  RLP of an unsigned integer:
    [rlp.Decode] reads one value off a reader and leaves the rest.  Snappy
    compression. *)
Class Aes := {
  aes_block : bytes → bytes → bytes;
  aes_block_length k b : length (aes_block k b) = 16;
}.

Class RlpUint := {
  rlp_uint : Z → bytes;
  rlp_uint_dec : bytes → outcome (Z * bytes);
  rlp_uint_roundtrip z rest : in_u64 z → rlp_uint_dec (rlp_uint z ++ rest) = Ok (z, rest);
  rlp_uint_length z : length (rlp_uint z) ≤ 9;
}.

Class Snappy := {
  snappy_Encode : bytes → bytes;
  snappy_DecodedLen : bytes → outcome Z;
  snappy_Decode : bytes → outcome bytes;
  snappy_len b : snappy_DecodedLen (snappy_Encode b) = Ok (Z.of_nat (length b));
  snappy_roundtrip b : snappy_Decode (snappy_Encode b) = Ok b;
}.

(** ** Bytes *)

Definition maxUint24 : Z := 2 ^ 24 - 1.

(** [putInt24] and [readInt24]; a slice that is too short panics. *)
Definition putInt24 (v : Z) (b : bytes) : outcome bytes :=
  match b with
  | _ :: _ :: _ :: rest => Ok (byte_of_Z (Z.shiftr v 16) :: byte_of_Z (Z.shiftr v 8) :: byte_of_Z v :: rest)
  | _ => Panic
  end.
Definition readInt24 (b : bytes) : outcome Z :=
  match b with
  | b0 :: b1 :: b2 :: _ => Ok (Z.lor (Z.lor (byteZ b2) (Z.shiftl (byteZ b1) 8)) (Z.shiftl (byteZ b0) 16))
  | _ => Panic
  end.

(** [xor]: indexes the second slice by the length of the first. *)
Definition xor (one other : bytes) : outcome bytes :=
  if decide (length one ≤ length other) then Ok (zip_with byte_xor one other) else Panic.

Definition zeroHeader : bytes := [xc2; x80; x80].
Definition zero16 : bytes := replicate 16 x00.

(** ** The state of a connection

    [fr_in] is what the peer sent and is not read yet, [fr_out] what was sent.
    A running [hash.Hash] is the bytes written to it, [Sum] their Keccak-256;
    a [cipher.Stream] is the number of bytes it has enciphered. *)
Record FrameRW := MkFrame {
  fr_in : bytes; fr_out : bytes;
  fr_AES : bytes; fr_MAC : bytes;
  fr_enc : nat; fr_dec : nat;
  fr_egress : bytes; fr_ingress : bytes;
  fr_snappy : bool
}.

Definition set_in f rw := MkFrame f (fr_out rw) (fr_AES rw) (fr_MAC rw) (fr_enc rw) (fr_dec rw) (fr_egress rw) (fr_ingress rw) (fr_snappy rw).
Definition set_out f rw := MkFrame (fr_in rw) f (fr_AES rw) (fr_MAC rw) (fr_enc rw) (fr_dec rw) (fr_egress rw) (fr_ingress rw) (fr_snappy rw).
Definition set_enc f rw := MkFrame (fr_in rw) (fr_out rw) (fr_AES rw) (fr_MAC rw) f (fr_dec rw) (fr_egress rw) (fr_ingress rw) (fr_snappy rw).
Definition set_dec f rw := MkFrame (fr_in rw) (fr_out rw) (fr_AES rw) (fr_MAC rw) (fr_enc rw) f (fr_egress rw) (fr_ingress rw) (fr_snappy rw).
Definition set_egress f rw := MkFrame (fr_in rw) (fr_out rw) (fr_AES rw) (fr_MAC rw) (fr_enc rw) (fr_dec rw) f (fr_ingress rw) (fr_snappy rw).
Definition set_ingress f rw := MkFrame (fr_in rw) (fr_out rw) (fr_AES rw) (fr_MAC rw) (fr_enc rw) (fr_dec rw) (fr_egress rw) f (fr_snappy rw).
Definition set_snappy f rw := MkFrame (fr_in rw) (fr_out rw) (fr_AES rw) (fr_MAC rw) (fr_enc rw) (fr_dec rw) (fr_egress rw) (fr_ingress rw) f.

(** [Msg]: the payload is a reader of the bytes given, [Size] what the sender
    says of their number. *)
Record Msg := MkMsg { m_Code : Z; m_Size : Z; m_Payload : bytes }.

Section Frame.
Context `{Crypto, Aes, RlpUint, Snappy}.

(** [conn.Write(data)] after [out] was written: how many bytes went out, and
    the error. *)
Variable conn_write : bytes → bytes → nat * option GoErr.

Abbreviation F := (stm FrameRW).

(** Counter mode with an initial vector of zeros. *)
Definition keystream (key : bytes) (n : nat) : byte :=
  nth (n mod 16) (aes_block key (be_enc 16 (Z.of_nat (n / 16)))) x00.
Definition XORKeyStream (key : bytes) (pos : nat) (src : bytes) : bytes :=
  zip_with byte_xor src (keystream key <$> seq pos (length src)).

(** The hash after the update and the sixteen bytes of the MAC. *)
Definition updateMAC (mac key seed : bytes) : outcome (bytes * bytes) :=
  let aesbuf := aes_block key (take 16 (Keccak256 mac)) in
  aesbuf ← xor aesbuf seed;
  let mac := mac ++ aesbuf in
  Ok (mac, take 16 (Keccak256 mac)).

Definition write_conn (data : bytes) : F nat := λ rw,
  let '(n, e) := conn_write (fr_out rw) data in
  let rw := set_out (fr_out rw ++ take n data) rw in
  match e with Some e => (rw, Err e) | None => (rw, Ok n) end.

Definition encrypt (src : bytes) : F bytes := λ rw,
  (set_enc (fr_enc rw + length src) rw, Ok (XORKeyStream (fr_AES rw) (fr_enc rw) src)).
Definition decrypt (src : bytes) : F bytes := λ rw,
  (set_dec (fr_dec rw + length src) rw, Ok (XORKeyStream (fr_AES rw) (fr_dec rw) src)).

Definition egressMAC (seed : bytes) : F bytes := λ rw,
  match updateMAC (fr_egress rw) (fr_MAC rw) seed with
  | Ok (mac, sum) => (set_egress mac rw, Ok sum)
  | Err e => (rw, Err e)
  | Panic => (rw, Panic)
  end.
Definition ingressMAC (seed : bytes) : F bytes := λ rw,
  match updateMAC (fr_ingress rw) (fr_MAC rw) seed with
  | Ok (mac, sum) => (set_ingress mac rw, Ok sum)
  | Err e => (rw, Err e)
  | Panic => (rw, Panic)
  end.

(** [tee.Write]: enciphers, then writes to the connection and, if all of it
    went out, to the hash. *)
Definition tee_write (src : bytes) : F unit :=
  c ← encrypt src;
  n ← write_conn c;
  if decide (n = length c) then st_mod (λ rw, set_egress (fr_egress rw ++ c) rw) else st_lift (Err ErrShortWrite).

(** [newRLPXFrameRW]: a key of another length than AES knows panics. *)
Definition aes_key_ok (k : bytes) : bool := bool_decide (length k = 16 ∨ length k = 24 ∨ length k = 32).
Definition newRLPXFrameRW (AES MAC EgressMAC IngressMAC : bytes) : outcome FrameRW :=
  if negb (aes_key_ok MAC) then Panic else
  if negb (aes_key_ok AES) then Panic else
  Ok (MkFrame [] [] AES MAC 0 0 EgressMAC IngressMAC false).

(** ** Writing *)

Definition WriteMsg (msg : Msg) : F unit :=
  let ptype := rlp_uint (m_Code msg) in
  rw ← st_get;
  msg ← st_lift (if fr_snappy rw then
                   if (maxUint24 <? m_Size msg)%Z then Err P2PErrPlainMessageTooLarge
                   else let payload := snappy_Encode (m_Payload msg) in
                        Ok (MkMsg (m_Code msg) (u32 (Z.of_nat (length payload))) payload)
                 else Ok msg);
  let headbuf := replicate 32 x00 in
  let fsize := u32 (u32 (Z.of_nat (length ptype)) + m_Size msg) in
  if (maxUint24 <? fsize)%Z then st_lift (Err P2PErrMessageTooBig) else
  headbuf ← st_lift (putInt24 fsize headbuf);
  let headbuf := take 3 headbuf ++ go_copy (drop 3 headbuf) zeroHeader in
  head ← encrypt (take 16 headbuf);
  mac ← egressMAC head;
  let headbuf := head ++ go_copy (drop 16 headbuf) mac in
  _ ← write_conn headbuf;
  _ ← tee_write ptype;
  _ ← (if decide (0 < length (m_Payload msg)) then tee_write (m_Payload msg) else mret tt);
  let padding := (fsize mod 16)%Z in
  _ ← (if (0 <? padding)%Z then tee_write (take (16 - Z.to_nat padding) zero16) else mret tt);
  rw ← st_get;
  let fmacseed := Keccak256 (fr_egress rw) in
  mac ← egressMAC fmacseed;
  _ ← write_conn mac;
  mret tt.

(** ** Reading *)

(** [io.ReadFull(conn, buf)] for a buffer of [n] bytes: when the peer has sent
    less, what there is is consumed. *)
Definition read_full (n : nat) : F bytes := λ rw,
  if decide (n ≤ length (fr_in rw)) then (set_in (drop n (fr_in rw)) rw, Ok (take n (fr_in rw)))
  else (set_in [] rw, Err ErrEOF).

Definition ReadMsg : F Msg :=
  headbuf ← read_full 32;
  shouldMAC ← ingressMAC (take 16 headbuf);
  if negb (bool_decide (shouldMAC = drop 16 headbuf)) then st_lift (Err P2PErrBadHeaderMAC) else
  head ← decrypt (take 16 headbuf);
  fsize ← st_lift (readInt24 head);
  let padding := (fsize mod 16)%Z in
  let rsize := if (0 <? padding)%Z then u32 (fsize + (16 - padding)) else fsize in
  framebuf ← read_full (Z.to_nat rsize);
  _ ← st_mod (λ rw, set_ingress (fr_ingress rw ++ framebuf) rw);
  rw ← st_get;
  let fmacseed := Keccak256 (fr_ingress rw) in
  fmac ← read_full 16;
  shouldMAC ← ingressMAC fmacseed;
  if negb (bool_decide (shouldMAC = fmac)) then st_lift (Err P2PErrBadFrameMAC) else
  framebuf ← decrypt framebuf;
  content ← st_lift (slice 0 (Z.to_nat fsize) framebuf);
  '(code, content) ← st_lift (rlp_uint_dec content);
  rw ← st_get;
  if fr_snappy rw then
    size ← st_lift (snappy_DecodedLen content);
    if (maxUint24 <? size)%Z then st_lift (Err P2PErrPlainMessageTooLarge) else
    payload ← st_lift (snappy_Decode content);
    mret (MkMsg code (u32 size) payload)
  else mret (MkMsg code (u32 (Z.of_nat (length content))) content).

(** ** The stream cipher *)

Lemma XORKeyStream_length key pos src : length (XORKeyStream key pos src) = length src.
Proof. unfold XORKeyStream. rewrite length_zip_with, length_fmap, length_seq. lia. Qed.

Lemma XORKeyStream_app key pos a b :
  XORKeyStream key pos (a ++ b) = XORKeyStream key pos a ++ XORKeyStream key (pos + length a) b.
Proof.
  unfold XORKeyStream. rewrite length_app, seq_app, fmap_app. apply zip_with_app.
  by rewrite length_fmap, length_seq.
Qed.

Lemma XORKeyStream_twice key pos src : XORKeyStream key pos (XORKeyStream key pos src) = src.
Proof.
  unfold XORKeyStream at 1. rewrite XORKeyStream_length. unfold XORKeyStream.
  generalize (keystream key <$> seq pos (length src)) (length_fmap (keystream key) (seq pos (length src))).
  rewrite length_seq. intros ks. revert ks. induction src as [|x src IH]; intros [|k ks] Hl; simpl in *; try done.
  rewrite byte_xor_cancel. f_equal. apply IH. lia.
Qed.

Lemma XORKeyStream_nil key pos : XORKeyStream key pos [] = [].
Proof. done. Qed.

(** ** Integers of three bytes *)

Definition int24 (v : Z) : bytes := [byte_of_Z (Z.shiftr v 16); byte_of_Z (Z.shiftr v 8); byte_of_Z v].

Lemma putInt24_ok v b0 b1 b2 rest : putInt24 v (b0 :: b1 :: b2 :: rest) = Ok (int24 v ++ rest).
Proof. done. Qed.

Lemma int24_roundtrip v tl : (0 ≤ v ≤ maxUint24)%Z → readInt24 (int24 v ++ tl) = Ok v.
Proof.
  intros Hv. simpl. f_equal.
  rewrite !byteZ_of_Z. change 256%Z with (2 ^ 8)%Z. rewrite <- !Z.land_ones by lia.
  apply Z.bits_inj'. intros i Hi. unfold maxUint24 in Hv.
  rewrite !Z.lor_spec, !Z.shiftl_spec, !Z.land_spec by lia.
  destruct (Z.ltb_spec i 8); [|destruct (Z.ltb_spec i 16); [|destruct (Z.ltb_spec i 24)]].
  - rewrite (Z.ones_spec_low 8 i), !(Z.testbit_neg_r _ (i - _)) by lia.
    by rewrite andb_true_r, !orb_false_r.
  - rewrite (Z.ones_spec_high 8 i), (Z.ones_spec_low 8 (i - 8)), (Z.testbit_neg_r _ (i - 16)), Z.shiftr_spec by lia.
    rewrite andb_false_r, andb_true_r, orb_false_r. simpl. f_equal. lia.
  - rewrite (Z.ones_spec_high 8 i), (Z.ones_spec_high 8 (i - 8)), (Z.ones_spec_low 8 (i - 16)), (Z.shiftr_spec v 16) by lia.
    rewrite !andb_false_r, andb_true_r. simpl. f_equal. lia.
  - rewrite (Z.ones_spec_high 8 i), (Z.ones_spec_high 8 (i - 8)), (Z.ones_spec_high 8 (i - 16)) by lia.
    rewrite !andb_false_r. simpl. symmetry. destruct (Z.eq_dec v 0) as [->|Hz]; [apply Z.bits_0|].
    apply Z.bits_above_log2; [lia|]. apply Z.log2_lt_pow2; [lia|].
    apply Z.lt_le_trans with (2 ^ 24)%Z; [lia|]. apply Z.pow_le_mono_r; lia.
Qed.

Lemma lor_lt k a b : (0 ≤ k → 0 ≤ a < 2 ^ k → 0 ≤ b < 2 ^ k → 0 ≤ Z.lor a b < 2 ^ k)%Z.
Proof.
  intros Hk Ha Hb. assert (0 ≤ Z.lor a b)%Z as Hnn by (apply Z.lor_nonneg; lia). split; [done|].
  destruct (Z.eq_dec (Z.lor a b) 0) as [->|Hne]; [lia|]. apply Z.log2_lt_pow2; [lia|]. rewrite Z.log2_lor by lia.
  apply Z.max_lub_lt.
  - destruct (Z.eq_dec a 0) as [->|]; [|apply Z.log2_lt_pow2; lia]. simpl. destruct (Z.eq_dec k 0) as [->|]; [|lia].
    assert (b = 0)%Z as -> by lia. done.
  - destruct (Z.eq_dec b 0) as [->|]; [|apply Z.log2_lt_pow2; lia]. simpl. destruct (Z.eq_dec k 0) as [->|]; [|lia].
    assert (a = 0)%Z as -> by lia. done.
Qed.

Lemma readInt24_range b n : readInt24 b = Ok n → (0 ≤ n ≤ maxUint24)%Z.
Proof.
  destruct b as [|b0 [|b1 [|b2 b]]]; try done. cbn [readInt24]. intros E. apply (inj Ok) in E. subst n.
  pose proof (byteZ_range b0). pose proof (byteZ_range b1). pose proof (byteZ_range b2).
  rewrite !Z.shiftl_mul_pow2 by lia.
  enough (0 ≤ Z.lor (Z.lor (byteZ b2) (byteZ b1 * 2 ^ 8)) (byteZ b0 * 2 ^ 16) < 2 ^ 24)%Z by (unfold maxUint24; lia).
  apply lor_lt; [lia| |lia]. apply lor_lt; lia.
Qed.

(** ** The MACs *)

Definition mac_block (mac key seed : bytes) : bytes := zip_with byte_xor (aes_block key (take 16 (Keccak256 mac))) seed.
Definition mac_tag (mac key seed : bytes) : bytes := take 16 (Keccak256 (mac ++ mac_block mac key seed)).

Lemma updateMAC_ok mac key seed :
  16 ≤ length seed → updateMAC mac key seed = Ok (mac ++ mac_block mac key seed, mac_tag mac key seed).
Proof.
  intros Hl. unfold updateMAC, xor. rewrite aes_block_length, decide_True by done. done.
Qed.

Lemma mac_tag_length mac key seed : length (mac_tag mac key seed) = 16.
Proof. unfold mac_tag. rewrite length_take, Keccak256_length. done. Qed.

(** ** A connection that works *)

Definition conn_ok : Prop := ∀ out data, conn_write out data = (length data, None).

(** The state after [data] went through the cipher, to the connection and, if
    [mac], to the hash. *)
Definition put (data : bytes) (rw : FrameRW) : FrameRW :=
  let c := XORKeyStream (fr_AES rw) (fr_enc rw) data in
  set_egress (fr_egress rw ++ c) (set_out (fr_out rw ++ c) (set_enc (fr_enc rw + length data) rw)).

Lemma put_nil rw : put [] rw = rw.
Proof. destruct rw. unfold put, set_egress, set_out, set_enc; simpl. by rewrite !app_nil_r, Nat.add_0_r. Qed.

Lemma put_app a b rw : put b (put a rw) = put (a ++ b) rw.
Proof.
  destruct rw. unfold put, set_egress, set_out, set_enc; simpl.
  by rewrite XORKeyStream_app, length_app, !app_assoc, Nat.add_assoc.
Qed.

Lemma write_conn_ok data rw : conn_ok → write_conn data rw = (set_out (fr_out rw ++ data) rw, Ok (length data)).
Proof. intros Hc. unfold write_conn. rewrite Hc. by rewrite take_ge. Qed.

Lemma tee_write_ok src rw : conn_ok → tee_write src rw = (put src rw, Ok tt).
Proof.
  intros Hc. unfold tee_write. rewrite (stm_bind_ok (encrypt src) _ rw _ _ eq_refl).
  rewrite (stm_bind_ok _ _ _ _ _ (write_conn_ok _ _ Hc)), decide_True by done.
  unfold st_mod, put. destruct rw; simpl. by rewrite ?XORKeyStream_length.
Qed.

Lemma egressMAC_ok seed rw : 16 ≤ length seed →
  egressMAC seed rw = (set_egress (fr_egress rw ++ mac_block (fr_egress rw) (fr_MAC rw) seed) rw, Ok (mac_tag (fr_egress rw) (fr_MAC rw) seed)).
Proof. intros Hl. unfold egressMAC. by rewrite updateMAC_ok. Qed.
Lemma ingressMAC_ok seed rw : 16 ≤ length seed →
  ingressMAC seed rw = (set_ingress (fr_ingress rw ++ mac_block (fr_ingress rw) (fr_MAC rw) seed) rw, Ok (mac_tag (fr_ingress rw) (fr_MAC rw) seed)).
Proof. intros Hl. unfold ingressMAC. by rewrite updateMAC_ok. Qed.

(** ** What is sent *)

(** The message as it goes into the frame, and its length there. *)
Definition packed (sn : bool) (m : Msg) : bytes := if sn then snappy_Encode (m_Payload m) else m_Payload m.
Definition fsize (sn : bool) (m : Msg) : nat := length (rlp_uint (m_Code m)) + length (packed sn m).

Definition fits (sn : bool) (m : Msg) : Prop :=
  in_u64 (m_Code m) ∧ m_Size m = Z.of_nat (length (m_Payload m)) ∧
  (Z.of_nat (length (m_Payload m)) ≤ maxUint24)%Z ∧ (Z.of_nat (fsize sn m) ≤ maxUint24)%Z.

Definition padding (n : nat) : bytes := if decide (0 < n mod 16) then take (16 - n mod 16) zero16 else [].
Definition body (sn : bool) (m : Msg) : bytes := rlp_uint (m_Code m) ++ packed sn m ++ padding (fsize sn m).

(** The three steps of a frame: header and MAC, [put] of the body, MAC. *)
Definition sent_head (head : bytes) (w : FrameRW) : FrameRW :=
  let e := XORKeyStream (fr_AES w) (fr_enc w) head in
  set_out (fr_out w ++ e ++ mac_tag (fr_egress w) (fr_MAC w) e)
    (set_egress (fr_egress w ++ mac_block (fr_egress w) (fr_MAC w) e) (set_enc (fr_enc w + length head) w)).
Definition sent_mac (w : FrameRW) : FrameRW :=
  let seed := Keccak256 (fr_egress w) in
  set_out (fr_out w ++ mac_tag (fr_egress w) (fr_MAC w) seed)
    (set_egress (fr_egress w ++ mac_block (fr_egress w) (fr_MAC w) seed) w).
Definition sent (head b : bytes) (w : FrameRW) : FrameRW := sent_mac (put b (sent_head head w)).

Lemma padding_length n : length (padding n) = if decide (0 < n mod 16) then 16 - n mod 16 else 0.
Proof. unfold padding. case_decide as Hd; [|done]. rewrite length_take. simpl. lia. Qed.

Lemma write_body {A} sn m (k : unit → F A) w :
  conn_ok →
  (_ ← tee_write (rlp_uint (m_Code m));
   _ ← (if decide (0 < length (packed sn m)) then tee_write (packed sn m) else mret tt);
   u ← (if (0 <? Z.of_nat (fsize sn m) mod 16)%Z then tee_write (take (16 - Z.to_nat (Z.of_nat (fsize sn m) mod 16)) zero16)
    else mret tt); k u) w = k tt (put (body sn m) w).
Proof.
  intros Hc. unfold body. rewrite (stm_bind_ok _ _ _ _ _ (tee_write_ok _ _ Hc)), <- put_app.
  generalize (put (rlp_uint (m_Code m)) w). intros w1. rewrite <- put_app.
  erewrite (stm_bind_ok _ _ w1 (put (packed sn m) w1)).
  2:{ case_decide as Hd; [by apply tee_write_ok|]. by rewrite (nil_length_inv (packed sn m)), put_nil by lia. }
  generalize (put (packed sn m) w1). intros w2. apply stm_bind_ok.
  change 16%Z with (Z.of_nat 16). rewrite <- Nat2Z.inj_mod, Nat2Z.id. unfold padding.
  destruct (Z.ltb_spec 0 (Z.of_nat (fsize sn m mod 16))).
  - rewrite decide_True by lia. by apply tee_write_ok.
  - rewrite decide_False, put_nil by lia. done.
Qed.

(** The sixteen bytes of the header. *)
Definition header (sn : bool) (m : Msg) : bytes := int24 (Z.of_nat (fsize sn m)) ++ zeroHeader ++ replicate 10 x00.

Lemma header_length sn m : length (header sn m) = 16.
Proof. done. Qed.
Lemma header_read sn m : fits sn m → readInt24 (header sn m) = Ok (Z.of_nat (fsize sn m)).
Proof. intros (_ & _ & _ & Hfit). apply int24_roundtrip. lia. Qed.

Lemma WriteMsg_ok m w :
  conn_ok → fits (fr_snappy w) m → WriteMsg m w = (sent (header (fr_snappy w) m) (body (fr_snappy w) m) w, Ok tt).
Proof.
  intros Hc (Hcode & Hsize & Hlen & Hfit). unfold WriteMsg. rewrite st_get_bind.
  erewrite (stm_bind_ok _ _ w w (MkMsg (m_Code m) (Z.of_nat (length (packed (fr_snappy w) m))) (packed (fr_snappy w) m))).
  2:{ unfold st_lift. f_equal. unfold packed, fsize in *. destruct (fr_snappy w); simpl in *.
      - rewrite Hsize. destruct (Z.ltb_spec maxUint24 (Z.of_nat (length (m_Payload m)))); [lia|].
        rewrite u32_small; [done|]. unfold in_u32, maxUint24 in *. lia.
      - destruct m; simpl in *. by subst. }
  cbn [m_Code m_Size m_Payload]. cbv zeta.
  assert (u32 (u32 (Z.of_nat (length (rlp_uint (m_Code m)))) + Z.of_nat (length (packed (fr_snappy w) m))) =
    Z.of_nat (fsize (fr_snappy w) m)) as ->.
  { unfold fsize in *. pose proof (rlp_uint_length (m_Code m)). unfold maxUint24 in *.
    rewrite (u32_small (Z.of_nat (length (rlp_uint _)))) by (unfold in_u32; lia).
    rewrite u32_small; [lia|]. unfold in_u32. lia. }
  destruct (Z.ltb_spec maxUint24 (Z.of_nat (fsize (fr_snappy w) m))); [lia|].
  change (replicate 32 x00) with (x00 :: x00 :: x00 :: replicate 29 x00). rewrite putInt24_ok, st_lift_bind.
  set (b3 := int24 _). set (head := header (fr_snappy w) m).
  rewrite (take_app_length' b3 _ 3), (drop_app_length' b3 _ 3) by done.
  assert (b3 ++ go_copy (replicate 29 x00) zeroHeader = head ++ replicate 16 x00) as ->
    by (unfold head, header; by rewrite <- !app_assoc).
  assert (length head = 16) as Hhead by done. clearbody head.
  rewrite (take_app_length' head _ 16), (drop_app_length' head _ 16) by done.
  rewrite (stm_bind_ok (encrypt head) _ w _ _ eq_refl).
  erewrite stm_bind_ok; [|apply egressMAC_ok; rewrite XORKeyStream_length; lia].
  rewrite go_copy_full by (rewrite mac_tag_length; done).
  rewrite (stm_bind_ok _ _ _ _ _ (write_conn_ok _ _ Hc)).
  lazymatch goal with |- _ ?w' = _ => change w' with (sent_head head w) end.
  rewrite write_body by done. rewrite st_get_bind.
  erewrite stm_bind_ok; [|apply egressMAC_ok; rewrite Keccak256_length; lia].
  by rewrite (stm_bind_ok _ _ _ _ _ (write_conn_ok _ _ Hc)).
Qed.

(** ** What is read *)

(** The reader is where the writer is. *)
Record follows (w r : FrameRW) : Prop := {
  fl_AES : fr_AES r = fr_AES w;
  fl_MAC : fr_MAC r = fr_MAC w;
  fl_pos : fr_dec r = fr_enc w;
  fl_hash : fr_ingress r = fr_egress w;
  fl_snappy : fr_snappy r = fr_snappy w
}.

(** The bytes [sent] puts on the connection. *)
Definition wire (head b : bytes) (w : FrameRW) : bytes :=
  let e := XORKeyStream (fr_AES w) (fr_enc w) head in
  let mac := fr_egress w ++ mac_block (fr_egress w) (fr_MAC w) e in
  let eb := XORKeyStream (fr_AES w) (fr_enc w + length head) b in
  e ++ mac_tag (fr_egress w) (fr_MAC w) e ++ eb ++ mac_tag (mac ++ eb) (fr_MAC w) (Keccak256 (mac ++ eb)).

Lemma sent_out head b w : fr_out (sent head b w) = fr_out w ++ wire head b w.
Proof. unfold sent, wire. simpl. by rewrite <- !app_assoc. Qed.

Lemma read_full_ok a rest r : fr_in r = a ++ rest → read_full (length a) r = (set_in rest r, Ok a).
Proof.
  intros E. unfold read_full. rewrite E, decide_True by (rewrite length_app; lia).
  by rewrite drop_app_length, take_app_length.
Qed.

Lemma body_length sn m : length (body sn m) = fsize sn m + length (padding (fsize sn m)).
Proof. unfold body, fsize. rewrite !length_app. lia. Qed.

Lemma rsize_eq sn m : fits sn m →
  Z.to_nat (if (0 <? Z.of_nat (fsize sn m) mod 16)%Z
            then u32 (Z.of_nat (fsize sn m) + (16 - Z.of_nat (fsize sn m) mod 16)) else Z.of_nat (fsize sn m)) =
  length (body sn m).
Proof.
  intros (_ & _ & _ & Hfit). rewrite body_length, padding_length. unfold maxUint24 in *.
  change 16%Z with (Z.of_nat 16). rewrite <- Nat2Z.inj_mod. pose proof (Nat.mod_upper_bound (fsize sn m) 16).
  destruct (Z.ltb_spec 0 (Z.of_nat (fsize sn m mod 16))).
  - rewrite decide_True by lia. rewrite u32_small by (unfold in_u32; lia). lia.
  - rewrite decide_False by lia. lia.
Qed.

(** Reading leaves what belongs to writing. *)
Definition same_writer (r r' : FrameRW) : Prop :=
  fr_out r' = fr_out r ∧ fr_enc r' = fr_enc r ∧ fr_egress r' = fr_egress r.

Lemma ReadMsg_ok m w r rest :
  fits (fr_snappy w) m → follows w r → let head := header (fr_snappy w) m in
  fr_in r = wire head (body (fr_snappy w) m) w ++ rest →
  ∃ r', ReadMsg r = (r', Ok m) ∧ follows (sent head (body (fr_snappy w) m) w) r' ∧ fr_in r' = rest ∧ same_writer r r'.
Proof.
  intros Hfits [HA HM Hp Hh Hsn] head Hin. pose proof (header_read _ _ Hfits) as Hread. fold head in Hread.
  assert (length head = 16) as Hhead by done. clearbody head.
  pose proof (rsize_eq _ _ Hfits) as Hrs. destruct Hfits as (Hcode & Hsize & Hlen & Hfit).
  destruct r as [rin rout rA rM re rd rg ri rs]; simpl in *; subst.
  unfold wire in *. set (e := XORKeyStream (fr_AES w) (fr_enc w) head) in *.
  set (tag := mac_tag (fr_egress w) (fr_MAC w) e) in *.
  set (mac := fr_egress w ++ mac_block (fr_egress w) (fr_MAC w) e) in *.
  set (eb := XORKeyStream (fr_AES w) (fr_enc w + length head) (body (fr_snappy w) m)) in *.
  unfold ReadMsg.
  assert (length e = 16) as He by (unfold e; by rewrite XORKeyStream_length).
  replace 32 with (length (e ++ tag)) by (rewrite length_app, He; unfold tag; by rewrite mac_tag_length).
  erewrite stm_bind_ok; [|apply read_full_ok; simpl; by rewrite <- !app_assoc].
  rewrite (take_app_length' e _ 16), (drop_app_length' e _ 16) by done.
  erewrite stm_bind_ok; [|apply ingressMAC_ok; lia]. simpl. fold tag. fold mac.
  rewrite bool_decide_true by done. simpl.
  rewrite (stm_bind_ok (decrypt e) _ _ _ _ eq_refl). simpl.
  assert (XORKeyStream (fr_AES w) (fr_enc w) e = head) as -> by (unfold e; apply XORKeyStream_twice).
  rewrite Hread, st_lift_bind, Hrs.
  assert (length eb = length (body (fr_snappy w) m)) as Heb by (unfold eb; by rewrite XORKeyStream_length).
  rewrite <- Heb. erewrite stm_bind_ok; [|apply read_full_ok; reflexivity]. autorewrite with stm.
  set (tag' := mac_tag (mac ++ eb) (fr_MAC w) (Keccak256 (mac ++ eb))) in *.
  erewrite (stm_bind_ok (read_full 16));
    [|replace 16 with (length tag') by apply mac_tag_length; apply read_full_ok; reflexivity].
  simpl. erewrite stm_bind_ok; [|apply ingressMAC_ok; rewrite Keccak256_length; lia]. simpl. fold tag'.
  rewrite bool_decide_true by done. simpl.
  rewrite (stm_bind_ok (decrypt eb) _ _ _ _ eq_refl). simpl.
  assert (XORKeyStream (fr_AES w) (fr_enc w + length e) eb = body (fr_snappy w) m) as ->
    by (unfold eb; rewrite He, <- Hhead; apply XORKeyStream_twice).
  assert (slice 0 (Z.to_nat (Z.of_nat (fsize (fr_snappy w) m))) (body (fr_snappy w) m) =
    Ok (rlp_uint (m_Code m) ++ packed (fr_snappy w) m)) as ->.
  { rewrite Nat2Z.id. unfold body. rewrite app_assoc. apply (slice_app []); [done|].
    unfold fsize. rewrite length_app. done. }
  rewrite st_lift_bind, rlp_uint_roundtrip, st_lift_bind by done. rewrite st_get_bind.
  cbn [fr_snappy set_dec set_ingress set_in fr_dec fr_ingress fr_in].
  lazymatch goal with |- ∃ _, ?f ?st = _ ∧ _ =>
    assert (∀ st', f st' = (st', Ok m)) as Hend; [|exists st; split; [apply Hend|]] end.
  { intros st'. unfold packed. destruct (fr_snappy w).
    - rewrite snappy_len, st_lift_bind. destruct (Z.ltb_spec maxUint24 (Z.of_nat (length (m_Payload m)))); [lia|].
      rewrite snappy_roundtrip, st_lift_bind, u32_small by (unfold in_u32, maxUint24 in *; lia).
      destruct m; simpl in *. by subst.
    - rewrite u32_small by (unfold in_u32, maxUint24 in *; lia). destruct m; simpl in *. by subst. }
  split; [|done]. split; [done..| | |done]; simpl.
  - by rewrite Heb, He, Hhead.
  - unfold mac, eb. by rewrite <- !app_assoc.
Qed.

(** ** A stream of messages *)

Fixpoint write_all (ms : list Msg) : F unit :=
  match ms with
  | [] => mret tt
  | m :: ms => _ ← WriteMsg m; write_all ms
  end.
Fixpoint read_n (n : nat) : F (list Msg) :=
  match n with
  | O => mret []
  | S n => m ← ReadMsg; ms ← read_n n; mret (m :: ms)
  end.

(** C18: On a connection that takes what is written to it, messages that fit a
    frame are written without an error, and a reader that is where the writer
    was reads exactly these messages, in their order, from what was sent,
    leaves whatever follows unread, and is again where the writer is. *)
Theorem frames_roundtrip ms w :
  conn_ok → Forall (fits (fr_snappy w)) ms →
  ∃ w' sent, write_all ms w = (w', Ok tt) ∧ fr_out w' = fr_out w ++ sent ∧
    ∀ r rest, follows w r → fr_in r = sent ++ rest →
      ∃ r', read_n (length ms) r = (r', Ok ms) ∧ follows w' r' ∧ fr_in r' = rest.
Proof.
  intros Hc Hms. revert w Hms. induction ms as [|m ms IH]; intros w Hms.
  { exists w, []. split; [done|]. split; [by rewrite app_nil_r|]. intros r rest Hf Hin. by exists r. }
  apply Forall_cons in Hms as [Hm Hms]. pose proof (WriteMsg_ok m w Hc Hm) as Hw.
  set (head := header (fr_snappy w) m) in *.
  destruct (IH (sent head (body (fr_snappy w) m) w)) as (w' & out & Hws & Hout & Hr); [done|].
  exists w', (wire head (body (fr_snappy w) m) w ++ out). split; [|split].
  - simpl. by rewrite (stm_bind_ok _ _ _ _ _ Hw).
  - by rewrite Hout, sent_out, app_assoc.
  - intros r rest Hf Hin. rewrite <- app_assoc in Hin.
    destruct (ReadMsg_ok m w r _ Hm Hf Hin) as (r1 & Hr1 & Hf1 & Hin1 & _).
    destruct (Hr r1 rest Hf1 Hin1) as (r2 & Hr2 & Hf2 & Hin2).
    exists r2. split; [|done]. simpl. rewrite (stm_bind_ok _ _ _ _ _ Hr1). by rewrite (stm_bind_ok _ _ _ _ _ Hr2).
Qed.

(** ** What is accepted *)

Lemma read_full_inv n r r' b : read_full n r = (r', Ok b) →
  ∃ rest, fr_in r = b ++ rest ∧ length b = n ∧ r' = set_in rest r.
Proof.
  unfold read_full. case_decide as Hl; intros E; [|done]. injection E as <- <-.
  exists (drop n (fr_in r)). by rewrite take_drop, length_take, Nat.min_l.
Qed.

Lemma ingressMAC_inv seed r r' t : 16 ≤ length seed → ingressMAC seed r = (r', Ok t) →
  t = mac_tag (fr_ingress r) (fr_MAC r) seed ∧ r' = set_ingress (fr_ingress r ++ mac_block (fr_ingress r) (fr_MAC r) seed) r.
Proof. intros Hl. rewrite ingressMAC_ok by done. intros E. by injection E as <- <-. Qed.


End Frame.

(** ** Witnesses

    A cipher that is the identity on blocks, integers of eight bytes, no
    compression. *)

#[global] Instance plain_aes : Aes := {| aes_block k b := toy_hash 16 b; aes_block_length k b := toy_hash_length 16 b |}.

Lemma eight_roundtrip z rest : in_u64 z →
  (if decide (8 ≤ length (be_enc 8 z ++ rest)) then Ok (be_dec (take 8 (be_enc 8 z ++ rest)), drop 8 (be_enc 8 z ++ rest))
   else Err ErrDecode) = Ok (z, rest).
Proof.
  intros Hz. pose proof (be_enc_length 8 z) as Hl. rewrite decide_True by (rewrite length_app; lia).
  rewrite take_app_length', drop_app_length' by done. rewrite be_dec_enc. do 2 f_equal. apply Z.mod_small.
  unfold in_u64 in Hz. lia.
Qed.
Lemma eight_length z : length (be_enc 8 z) ≤ 9.
Proof. rewrite be_enc_length. lia. Qed.
#[global] Instance eight_rlp : RlpUint := {|
  rlp_uint := be_enc 8;
  rlp_uint_dec b := if decide (8 ≤ length b) then Ok (be_dec (take 8 b), drop 8 b) else Err ErrDecode;
  rlp_uint_roundtrip := eight_roundtrip; rlp_uint_length := eight_length |}.

#[global] Instance no_snappy : Snappy := {|
  snappy_Encode b := b; snappy_DecodedLen b := Ok (Z.of_nat (length b)); snappy_Decode b := Ok b;
  snappy_len _ := eq_refl; snappy_roundtrip _ := eq_refl |}.

Definition fr_write (out data : bytes) : nat * option GoErr := (length data, None).
Definition fr_writer (sn : bool) : FrameRW := MkFrame [] [] (replicate 32 x01) (replicate 32 x02) 0 0 [x03] [x04] sn.
Definition fr_reader (sn : bool) (i : bytes) : FrameRW := MkFrame i [] (replicate 32 x01) (replicate 32 x02) 0 0 [x04] [x03] sn.
Definition fr_msgs : list Msg := [MkMsg 16 3 [x0a; x0b; x0c]; MkMsg 17 0 []].

Lemma frames_roundtrip_witness :
  ∃ w' out, write_all fr_write fr_msgs (fr_writer true) = (w', Ok tt) ∧ length out = 128 ∧
    ∃ r', read_n 2 (fr_reader true (out ++ [xff])) = (r', Ok fr_msgs) ∧ fr_in r' = [xff].
Proof.
  destruct (frames_roundtrip fr_write fr_msgs (fr_writer true)) as (w' & out & Hw & Hout & Hr); [done|..].
  { repeat constructor. all: cbn; unfold in_u64, maxUint24; lia. }
  exists w', out. split; [done|]. split.
  { simpl in Hout. rewrite <- Hout. apply (f_equal (λ x, length (fr_out x.1))) in Hw.
    etransitivity; [symmetry; apply Hw|]. vm_compute. reflexivity. }
  destruct (Hr (fr_reader true (out ++ [xff])) [xff]) as (r' & Hr' & _ & Hin); [by split|done|].
  exists r'. exact (conj Hr' Hin).
Defined.

Definition fr_sent : bytes := fr_out (write_all fr_write fr_msgs (fr_writer false)).1.

Definition fr_rd : FrameRW := fr_reader false fr_sent.

