(* ===== verification/RlpxHandshake.v ===== *)
(** * The handshakes of the encrypted transport

    [p2p/rlpx.go]: the side that dials sends a packet encrypted for the node it
    wants to reach, the other side answers; from ephemeral keys, nonces and the
    two packets both derive the keys of [RlpxFrame].  Then both send their
    protocol handshake, in frames. *)

From S2P Require Import Prelude CommonTypes Discover PeerProto RlpxFrame.

Set Default Goal Selector "!".
Set Default Proof Using "Type".

(** ** Sizes *)

Definition sskLen : nat := 16.
Definition sigLen : nat := 65.
Definition pubLen : nat := 64.
Definition shaLen : nat := 32.
Definition authMsgLen : nat := sigLen + shaLen + pubLen + shaLen + 1.
Definition authRespLen : nat := pubLen + shaLen + 1.
Definition eciesOverhead : nat := 65 + 16 + 32.
Definition encAuthMsgLen : nat := authMsgLen + eciesOverhead.
Definition encAuthRespLen : nat := authRespLen + eciesOverhead.
Definition SizePadSpace : nat := 300.
Definition snappyProtocolVersion : Z := 5.
Definition baseProtocolMaxMsgSize : Z := 2 * 1024.

(** ** Messages *)

Record authMsgV4 := MkAuth {
  am_gotPlain : bool;
  am_Signature : bytes; am_InitiatorPubkey : bytes; am_Nonce : bytes; am_Version : Z;
  am_Rest : list bytes
}.
Record authRespV4 := MkResp {
  ar_RandomPubkey : bytes; ar_Nonce : bytes; ar_Version : Z;
  ar_Rest : list bytes
}.
Record protoHandshake := MkHs {
  hs_Version : Z; hs_Name : bytes; hs_Caps : list (bytes * Z); hs_ListenPort : Z; hs_ID : NodeID; hs_Rest : list bytes
}.

(** ** Parameters

    secp256k1 as go-ethereum uses it: private keys, the shared secret of
    Diffie-Hellman (of [2 * sskLen] bytes), signatures from which the key is
    recovered, public keys of 65 bytes; ECIES, whose ciphertexts start with an
    uncompressed point (0x04), are [eciesOverhead] bytes longer than the text,
    and authenticate the shared information [s2]; its first argument is the
    randomness. *)
Class Ecies `{Curve} := {
  PrvKey : Type;
  pub_of : PrvKey → PubKey;
  GenerateShared : PrvKey → PubKey → outcome bytes;
  crypto_Sign : bytes → PrvKey → outcome bytes;
  UnmarshalPubkey : bytes → outcome PubKey;
  ecies_Encrypt : bytes → PubKey → bytes → bytes → outcome bytes;
  ecies_Decrypt : PrvKey → bytes → bytes → outcome bytes;
  shared_comm a b : GenerateShared a (pub_of b) = GenerateShared b (pub_of a);
  shared_length a p z : GenerateShared a p = Ok z → length z = 2 * sskLen;
  sign_recovers h k sig : crypto_Sign h k = Ok sig →
    length sig = sigLen ∧ RecoverPubkey h sig = Ok (elliptic_Marshal (pub_of k));
  unmarshal_marshal p : UnmarshalPubkey (elliptic_Marshal p) = Ok p;
  encrypt_decrypt rnd k m s2 c : ecies_Encrypt rnd (pub_of k) m s2 = Ok c →
    ecies_Decrypt k c s2 = Ok m ∧ length c = length m + eciesOverhead;
  decrypt_form k c s2 : head c ≠ Some x04 → ∃ e, ecies_Decrypt k c s2 = Err e
}.

(** RLP of the messages: decoding one off a stream ignores what follows, and
    the unexported [gotPlain] is not encoded.  A string of 64, 65 or 32 bytes
    takes 66, 67 or 33, a small number one byte, a list of 56 to 255 bytes two
    more.  Numbers are unsigned, and the messages of the program have no
    additional fields. *)
Definition hs_wf (hs : protoHandshake) : Prop :=
  nodeid_wf (hs_ID hs) ∧ in_u64 (hs_Version hs) ∧ in_u64 (hs_ListenPort hs) ∧ Forall (λ c, in_u64 c.2) (hs_Caps hs) ∧
  hs_Rest hs = [].
Class HandshakeRLP := {
  rlp_auth : authMsgV4 → bytes;
  rlp_auth_dec : bytes → outcome authMsgV4;
  rlp_resp : authRespV4 → bytes;
  rlp_resp_dec : bytes → outcome authRespV4;
  rlp_hs : protoHandshake → bytes;
  rlp_hs_dec : bytes → outcome protoHandshake;
  rlp_reason_dec : bytes → Z;
  rlp_auth_roundtrip sig pub nonce v tl :
    length sig = sigLen → length pub = pubLen → length nonce = shaLen → in_u64 v →
    rlp_auth_dec (rlp_auth (MkAuth false sig pub nonce v []) ++ tl) = Ok (MkAuth false sig pub nonce v []);
  rlp_resp_roundtrip pub nonce v tl :
    length pub = pubLen → length nonce = shaLen → in_u64 v →
    rlp_resp_dec (rlp_resp (MkResp pub nonce v []) ++ tl) = Ok (MkResp pub nonce v []);
  rlp_hs_roundtrip hs : hs_wf hs → rlp_hs_dec (rlp_hs hs) = Ok hs;
  rlp_auth_length sig pub nonce : length sig = sigLen → length pub = pubLen → length nonce = shaLen →
    length (rlp_auth (MkAuth false sig pub nonce 4 [])) = 2 + 67 + 66 + 33 + 1;
  rlp_resp_length pub nonce : length pub = pubLen → length nonce = shaLen →
    length (rlp_resp (MkResp pub nonce 4 [])) = 2 + 66 + 33 + 1
}.

Section Handshake.
Context `{Ecies, HandshakeRLP}.

(** ** The connection

    What the peer sent, packet by packet: a [Read] returns at most one packet
    and leaves the rest of one that does not fit.  [wr_err] is the error of a
    [Write]. *)
Record HConn := MkHConn { hc_in : list bytes; hc_out : list bytes }.
Variable wr_err : bytes → option GoErr.
Abbreviation C := (stm HConn).

Definition conn_Write (data : bytes) : C unit := λ s,
  match wr_err data with
  | Some e => (s, Err e)
  | None => (MkHConn (hc_in s) (hc_out s ++ [data]), Ok tt)
  end.
Definition conn_Read (n : nat) : C bytes := λ s,
  match hc_in s with
  | [] => (s, Err ErrEOF)
  | p :: ps => (MkHConn (if decide (length p ≤ n) then ps else drop n p :: ps) (hc_out s), Ok (take n p))
  end.

(** ** Keys *)

Definition importPublicKey (pubKey : bytes) : outcome PubKey :=
  if decide (length pubKey = 64) then UnmarshalPubkey (x04 :: pubKey)
  else if decide (length pubKey = 65) then UnmarshalPubkey pubKey
  else Err ErrExternal.
Definition exportPubkey (pub : option PubKey) : outcome bytes :=
  match pub with None => Panic | Some p => Ok (drop 1 (elliptic_Marshal p)) end.

(** ** The state of the handshake *)

Record encHandshake := MkEncHs {
  h_initiator : bool; h_remoteID : NodeID;
  h_remotePub : option PubKey; h_initNonce : bytes; h_respNonce : bytes;
  h_randomPrivKey : option PrvKey; h_remoteRandomPub : option PubKey
}.
Record Secrets := MkSecrets { sec_RemoteID : NodeID; sec_AES : bytes; sec_MAC : bytes; sec_EgressMAC : bytes; sec_IngressMAC : bytes }.

Definition secrets (h : encHandshake) (auth authResp : bytes) : outcome Secrets :=
  ecdheSecret ← match h_randomPrivKey h, h_remoteRandomPub h with
                | Some k, Some p => GenerateShared k p
                | _, _ => Panic
                end;
  let sharedSecret := Keccak256 (ecdheSecret ++ Keccak256 (h_respNonce h ++ h_initNonce h)) in
  let aesSecret := Keccak256 (ecdheSecret ++ sharedSecret) in
  let MAC := Keccak256 (ecdheSecret ++ aesSecret) in
  x1 ← xor MAC (h_respNonce h);
  let mac1 := x1 ++ auth in
  x2 ← xor MAC (h_initNonce h);
  let mac2 := x2 ++ authResp in
  Ok (if h_initiator h then MkSecrets (h_remoteID h) aesSecret MAC mac1 mac2
      else MkSecrets (h_remoteID h) aesSecret MAC mac2 mac1).

Definition staticSharedSecret (h : encHandshake) (prv : PrvKey) : outcome bytes :=
  match h_remotePub h with Some p => GenerateShared prv p | None => Panic end.

(** ** Making and handling the messages

    The nonce that [rand.Read] writes and the key that [GenerateKey] makes are
    arguments. *)
Definition makeAuthMsg (h : encHandshake) (prv : PrvKey) (nonce : outcome bytes) (key : outcome PrvKey) :
    outcome (encHandshake * authMsgV4) :=
  rpub ← nodeid_Pubkey (h_remoteID h);
  nonce ← nonce;
  let initNonce := go_copy (replicate shaLen x00) nonce in
  key ← key;
  let h := MkEncHs (h_initiator h) (h_remoteID h) (Some rpub) initNonce (h_respNonce h) (Some key) (h_remoteRandomPub h) in
  token ← staticSharedSecret h prv;
  signed ← xor token initNonce;
  signature ← crypto_Sign signed key;
  Ok (h, MkAuth false (go_copy (replicate sigLen x00) signature)
           (go_copy (replicate pubLen x00) (drop 1 (elliptic_Marshal (pub_of prv))))
           (go_copy (replicate shaLen x00) initNonce) 4 []).

Definition handleAuthResp (h : encHandshake) (msg : authRespV4) : outcome encHandshake :=
  p ← importPublicKey (ar_RandomPubkey msg);
  Ok (MkEncHs (h_initiator h) (h_remoteID h) (h_remotePub h) (h_initNonce h) (ar_Nonce msg) (h_randomPrivKey h) (Some p)).

(** The error of importing the recovered key is dropped. *)
Definition handleAuthMsg (h : encHandshake) (msg : authMsgV4) (prv : PrvKey) (key : outcome PrvKey) : outcome encHandshake :=
  rpub ← nodeid_Pubkey (am_InitiatorPubkey msg);
  key ← match h_randomPrivKey h with Some k => Ok k | None => key end;
  let h := MkEncHs (h_initiator h) (am_InitiatorPubkey msg) (Some rpub) (am_Nonce msg) (h_respNonce h) (Some key) (h_remoteRandomPub h) in
  token ← staticSharedSecret h prv;
  signedMsg ← xor token (am_Nonce msg);
  remoteRandomPub ← RecoverPubkey signedMsg (am_Signature msg);
  match importPublicKey remoteRandomPub with
  | Panic => Panic
  | r => Ok (MkEncHs (h_initiator h) (h_remoteID h) (h_remotePub h) (h_initNonce h) (h_respNonce h) (h_randomPrivKey h)
               (match r with Ok p => Some p | _ => None end))
  end.

Definition makeAuthResp (h : encHandshake) (nonce : outcome bytes) : outcome (encHandshake * authRespV4) :=
  nonce ← nonce;
  let respNonce := go_copy (replicate shaLen x00) nonce in
  let h := MkEncHs (h_initiator h) (h_remoteID h) (h_remotePub h) (h_initNonce h) respNonce (h_randomPrivKey h) (h_remoteRandomPub h) in
  pub ← exportPubkey (pub_of <$> h_randomPrivKey h);
  Ok (h, MkResp (go_copy (replicate pubLen x00) pub) (go_copy (replicate shaLen x00) respNonce) 4 []).

(** ** Packets *)

Definition encrypt_for (h : encHandshake) (rnd m s2 : bytes) : outcome bytes :=
  match h_remotePub h with Some p => ecies_Encrypt rnd p m s2 | None => Panic end.

(** [copy(buf[n:], src)], with the new [n]. *)
Definition copy_at (buf : bytes) (n : nat) (src : bytes) : bytes * nat :=
  (take n buf ++ go_copy (drop n buf) src, n + go_copy_n (drop n buf) src).

Definition auth_sealPlain (msg : authMsgV4) (h : encHandshake) (rnd : bytes) : outcome bytes :=
  let buf := replicate authMsgLen x00 in
  let '(buf, n) := copy_at buf 0 (am_Signature msg) in
  pub ← exportPubkey (pub_of <$> h_randomPrivKey h);
  let '(buf, n) := copy_at buf n (Keccak256 pub) in
  let '(buf, n) := copy_at buf n (am_InitiatorPubkey msg) in
  let '(buf, n) := copy_at buf n (am_Nonce msg) in
  if decide (n < authMsgLen) then encrypt_for h rnd (<[n := x00]> buf) [] else Panic.
Definition auth_decodePlain (input : bytes) : outcome authMsgV4 :=
  let Signature := go_copy (replicate sigLen x00) input in
  let n := go_copy_n Signature input + shaLen in
  input1 ← slice_from n input;
  let Pubkey := go_copy (replicate pubLen x00) input1 in
  let n := n + go_copy_n Pubkey input1 in
  input2 ← slice_from n input;
  Ok (MkAuth true Signature Pubkey (go_copy (replicate shaLen x00) input2) 4 []).

Definition resp_sealPlain (msg : authRespV4) (h : encHandshake) (rnd : bytes) : outcome bytes :=
  let buf := replicate authRespLen x00 in
  let '(buf, n) := copy_at buf 0 (ar_RandomPubkey msg) in
  let '(buf, _) := copy_at buf n (ar_Nonce msg) in
  encrypt_for h rnd buf [].
Definition resp_decodePlain (input : bytes) : outcome authRespV4 :=
  let Pubkey := go_copy (replicate pubLen x00) input in
  let n := go_copy_n Pubkey input in
  input1 ← slice_from n input;
  Ok (MkResp Pubkey (go_copy (replicate shaLen x00) input1) 4 []).

(** [sealEIP8] of the encoded message; [n] is [mrand.Intn(len(padSpace)-100)]. *)
Definition sealEIP8 (enc : bytes) (h : encHandshake) (n : nat) (rnd : bytes) : outcome bytes :=
  let buf := enc ++ replicate (n + 100) x00 in
  let prefix := be_enc 2 ((Z.of_nat (length buf) + Z.of_nat eciesOverhead) mod 2 ^ 16)%Z in
  enc ← encrypt_for h rnd buf prefix;
  Ok (prefix ++ enc).

(** The packet, and the message decoded from it. *)
Definition readHandshakeMsg {A} (decodePlain dec : bytes → outcome A) (plainSize : nat) (prv : PrvKey) : C (bytes * A) :=
  read ← conn_Read (plainSize + SizePadSpace);
  let readSize := length read in
  let tmpBuf := go_copy (replicate (plainSize + SizePadSpace) x00) read in
  let buf := take plainSize tmpBuf in
  match ecies_Decrypt prv buf [] with
  | Panic => st_lift Panic
  | Ok m => msg ← st_lift (decodePlain m); mret (buf, msg)
  | Err _ =>
    let prefix := take 2 buf in
    size ← st_lift (be_uint 2 prefix);
    if (size <? Z.of_nat plainSize)%Z then st_lift (Err ErrExternal) else
    if negb (Z.of_nat readSize mod 2 ^ 16 =? (size + 2) mod 2 ^ 16)%Z then st_lift (Err P2PErrReadSize) else
    let buf := take readSize tmpBuf in
    ct ← st_lift (slice_from 2 buf);
    m ← st_lift (ecies_Decrypt prv ct prefix);
    msg ← st_lift (dec m);
    mret (buf, msg)
  end.

(** ** The two sides *)

Definition initiatorEncHandshake (prv : PrvKey) (remoteID : NodeID) (nonce : outcome bytes) (key : outcome PrvKey)
    (padn : nat) (rnd : bytes) : C Secrets :=
  let h := MkEncHs true remoteID None [] [] None None in
  '(h, authMsg) ← st_lift (makeAuthMsg h prv nonce key);
  authPacket ← st_lift (sealEIP8 (rlp_auth authMsg) h padn rnd);
  _ ← conn_Write authPacket;
  '(authRespPacket, authRespMsg) ← readHandshakeMsg resp_decodePlain rlp_resp_dec encAuthRespLen prv;
  h ← st_lift (handleAuthResp h authRespMsg);
  st_lift (secrets h authPacket authRespPacket).

Definition receiverEncHandshake (prv : PrvKey) (nonce : outcome bytes) (key : outcome PrvKey) (padn : nat) (rnd : bytes) :
    C Secrets :=
  '(authPacket, authMsg) ← readHandshakeMsg auth_decodePlain rlp_auth_dec encAuthMsgLen prv;
  let h := MkEncHs false EmptyNodeID None [] [] None None in
  h ← st_lift (handleAuthMsg h authMsg prv key);
  '(h, authRespMsg) ← st_lift (makeAuthResp h nonce);
  authRespPacket ← st_lift (if am_gotPlain authMsg then resp_sealPlain authRespMsg h rnd
                            else sealEIP8 (rlp_resp authRespMsg) h padn rnd);
  _ ← conn_Write authRespPacket;
  st_lift (secrets h authPacket authRespPacket).

(** [doEncHandshake]: [dial] is the node that is dialed, if any. *)
Definition doEncHandshake (prv : PrvKey) (dial : option NodeID) (nonce : outcome bytes) (key : outcome PrvKey)
    (padn : nat) (rnd : bytes) : C (FrameRW * NodeID) :=
  sec ← match dial with
        | None => receiverEncHandshake prv nonce key padn rnd
        | Some id => initiatorEncHandshake prv id nonce key padn rnd
        end;
  rw ← st_lift (newRLPXFrameRW (sec_AES sec) (sec_MAC sec) (sec_EgressMAC sec) (sec_IngressMAC sec));
  mret (rw, sec_RemoteID sec).

(** ** Keys and identifiers *)

Definition node_id (p : PubKey) : NodeID := drop 1 (elliptic_Marshal p).

Lemma marshal_form p : ∃ x y, (0 ≤ x < 256 ^ 32)%Z ∧ (0 ≤ y < 256 ^ 32)%Z ∧ curve_point x y = Some p ∧
  elliptic_Marshal p = x04 :: be_enc 32 x ++ be_enc 32 y.
Proof.
  destruct (elliptic_Marshal_wf p) as (x & y & Hx & Hy & Hp). exists x, y. split_and!; try done.
  - apply Hx. - apply Hx. - apply Hy. - apply Hy. - by apply elliptic_Marshal_point.
Qed.

Lemma node_id_length p : length (node_id p) = pubLen.
Proof.
  destruct (marshal_form p) as (x & y & _ & _ & _ & E). unfold node_id. rewrite E, skipn_cons, drop_0.
  by rewrite length_app, !be_enc_length.
Qed.

Lemma marshal_node_id p : elliptic_Marshal p = x04 :: node_id p.
Proof. destruct (marshal_form p) as (x & y & _ & _ & _ & E). unfold node_id. by rewrite E. Qed.

Lemma node_id_Pubkey p : nodeid_Pubkey (node_id p) = Ok p.
Proof.
  unfold nodeid_Pubkey. rewrite node_id_length. change (pubLen / 2) with 32.
  destruct (marshal_form p) as (x & y & Hx & Hy & Hp & E). unfold node_id. rewrite E, skipn_cons, drop_0.
  rewrite take_app_length', drop_app_length' by (by rewrite be_enc_length).
  rewrite !be_dec_enc, !Z.mod_small by done. by rewrite Hp.
Qed.

Lemma import_node_id p : importPublicKey (node_id p) = Ok p.
Proof. unfold importPublicKey. rewrite node_id_length, decide_True by done. rewrite <- marshal_node_id. apply unmarshal_marshal. Qed.
Lemma import_marshal p : importPublicKey (elliptic_Marshal p) = Ok p.
Proof.
  assert (length (elliptic_Marshal p) = 65) as Hl by (rewrite marshal_node_id; cbn [length]; by rewrite node_id_length).
  unfold importPublicKey. rewrite decide_False, decide_True by lia. apply unmarshal_marshal.
Qed.

(** ** A sealed packet is read *)

Lemma take_go_copy n (dst src : bytes) : n ≤ length src → length src ≤ length dst → take n (go_copy dst src) = take n src.
Proof. intros Hn Hl. unfold go_copy. rewrite (take_ge src) by lia. by apply take_app_le. Qed.

Lemma seal_read {A} (plain dec : bytes → outcome A) plainSize prv h enc n rnd msg packet ps out :
  2 ≤ plainSize → plainSize ≤ length enc + n + 213 < 1022 →
  h_remotePub h = Some (pub_of prv) → (∀ tl, dec (enc ++ tl) = Ok msg) →
  sealEIP8 enc h n rnd = Ok packet →
  length packet = length enc + n + 215 ∧
  (length packet ≤ plainSize + SizePadSpace →
   readHandshakeMsg plain dec plainSize prv (MkHConn (packet :: ps) out) = (MkHConn ps out, Ok (packet, msg))) ∧
  (plainSize + SizePadSpace < length packet →
   ∃ s, readHandshakeMsg plain dec plainSize prv (MkHConn (packet :: ps) out) = (MkHConn s out, Err P2PErrReadSize)).
Proof.
  intros Hps Hsz Hpub Hdec Hseal. unfold sealEIP8, encrypt_for in Hseal. rewrite Hpub in Hseal.
  rewrite length_app, length_replicate in Hseal.
  set (size := ((Z.of_nat (length enc + (n + 100)) + Z.of_nat eciesOverhead) mod 2 ^ 16)%Z) in *.
  assert (size = Z.of_nat (length enc + n + 213)) as Hsize.
  { unfold size. rewrite Z.mod_small; unfold eciesOverhead; lia. }
  destruct (ecies_Encrypt rnd (pub_of prv) _ _) as [ct| |] eqn:Ect; unfold mbind, outcome_bind in Hseal; try done.
  apply (inj Ok) in Hseal. destruct (encrypt_decrypt _ _ _ _ _ Ect) as [Hdc Hlc].
  rewrite length_app, length_replicate in Hlc. unfold eciesOverhead in Hlc.
  set (prefix := be_enc 2 size) in *.
  assert (length packet = length enc + n + 215) as Hlen.
  { rewrite <- Hseal, length_app. unfold prefix. rewrite be_enc_length. lia. }
  split; [done|].
  assert (take plainSize (go_copy (replicate (plainSize + SizePadSpace) x00) (take (plainSize + SizePadSpace) packet)) =
    take plainSize packet) as Hbuf.
  { rewrite take_go_copy; [by rewrite take_take, Nat.min_l by lia|..]; rewrite ?length_replicate, length_take; lia. }
  assert (take 2 (take plainSize packet) = prefix) as Hprefix.
  { rewrite take_take, Nat.min_l, <- Hseal by lia. apply take_app_length'. unfold prefix. by rewrite be_enc_length. }
  assert (∃ e, ecies_Decrypt prv (take plainSize packet) [] = Err e) as [e Hfail].
  { apply decrypt_form. rewrite <- Hseal. destruct plainSize as [|k]; [lia|]. unfold prefix. simpl.
    intros E. injection E as E. apply (f_equal byteZ) in E. rewrite byteZ_of_Z in E. revert E.
    change (byteZ x04) with 4%Z. rewrite Z.shiftr_div_pow2 by done. change (2 ^ (8 * Z.of_nat 1))%Z with 256%Z.
    clearbody size. intros E.
    assert (size / 256 < 4)%Z by (apply Z.div_lt_upper_bound; lia).
    assert (0 ≤ size / 256)%Z by (apply Z.div_pos; lia). rewrite Z.mod_small in E by lia. lia. }
  assert (be_uint 2 prefix = Ok size) as Huint.
  { unfold be_uint, prefix. rewrite be_enc_length, decide_True, take_ge, be_dec_enc by (rewrite ?be_enc_length; lia).
    f_equal. apply Z.mod_small. lia. }
  unfold readHandshakeMsg. erewrite stm_bind_ok; [|reflexivity]. cbn [hc_in hc_out]. rewrite Hbuf, Hfail, Hprefix.
  rewrite Huint, st_lift_bind. destruct (Z.ltb_spec size (Z.of_nat plainSize)) as [|_]; [lia|].
  rewrite length_take. split; intros Hfit.
  - rewrite decide_True, Nat.min_r, Hlen by done.
    replace (Z.of_nat (length enc + n + 215)) with (size + 2)%Z by lia. rewrite Z.eqb_refl. cbn [negb].
    assert (take (length enc + n + 215) (go_copy (replicate (plainSize + SizePadSpace) x00) (take (plainSize + SizePadSpace) packet)) =
      packet) as ->.
    { rewrite (take_ge packet), take_go_copy by (rewrite ?length_replicate; lia). apply take_ge. lia. }
    rewrite <- Hseal at 1. rewrite (slice_from_app prefix ct) by (unfold prefix; by rewrite be_enc_length).
    rewrite st_lift_bind, Hdc, st_lift_bind, Hdec. done.
  - rewrite decide_False, Nat.min_l by lia. unfold SizePadSpace in *.
    rewrite !Z.mod_small by lia. destruct (Z.eqb_spec (Z.of_nat (plainSize + 300)) (size + 2)); [lia|]. cbn [negb].
    by eexists.
Qed.

(** ** A run of the handshake

    The sides [I], which dials, and [R]: their keys, the ephemeral keys and
    nonces they draw, the padding and randomness of the packets. *)
Section run.
Variable prvI prvR kI kR : PrvKey.
Variable nonceI nonceR rndI rndR : bytes.
Variable padI padR : nat.
Variable token ecdhe : bytes.
Hypothesis HnonceI : length nonceI = shaLen.
Hypothesis HnonceR : length nonceR = shaLen.
Hypothesis Htoken : GenerateShared prvI (pub_of prvR) = Ok token.
Hypothesis Hecdhe : GenerateShared kI (pub_of kR) = Ok ecdhe.
Hypothesis Hsign : ∀ h, length h = 2 * sskLen → ∃ sig, crypto_Sign h kI = Ok sig.
Hypothesis Hencrypt : ∀ rnd k m s2, ∃ ct, ecies_Encrypt rnd (pub_of k) m s2 = Ok ct.
Hypothesis Hwrite : ∀ d, wr_err d = None.

Definition idI := node_id (pub_of prvI).
Definition idR := node_id (pub_of prvR).
Definition h0 := MkEncHs true idR None [] [] None None.
Definition hI1 := MkEncHs true idR (Some (pub_of prvR)) nonceI [] (Some kI) None.
Definition hI2 := MkEncHs true idR (Some (pub_of prvR)) nonceI nonceR (Some kI) (Some (pub_of kR)).
Definition hR1 := MkEncHs false idI (Some (pub_of prvI)) nonceI [] (Some kR) (Some (pub_of kI)).
Definition hR2 := MkEncHs false idI (Some (pub_of prvI)) nonceI nonceR (Some kR) (Some (pub_of kI)).
Definition resp_msg := MkResp (node_id (pub_of kR)) nonceR 4 [].

Lemma xor_ok (a b : bytes) : length a ≤ length b → xor a b = Ok (zip_with byte_xor a b).
Proof. intros Hl. unfold xor. by rewrite decide_True. Qed.

Lemma make_auth_ok : ∃ sig, makeAuthMsg h0 prvI (Ok nonceI) (Ok kI) = Ok (hI1, MkAuth false sig idI nonceI 4 []) ∧
  length sig = sigLen ∧ RecoverPubkey (zip_with byte_xor token nonceI) sig = Ok (elliptic_Marshal (pub_of kI)).
Proof using HnonceI HnonceR Htoken Hsign.
  pose proof (shared_length _ _ _ Htoken) as Ht. unfold sskLen, shaLen in *.
  destruct (Hsign (zip_with byte_xor token nonceI)) as [sig Hsig]; [rewrite length_zip_with; lia|].
  destruct (sign_recovers _ _ _ Hsig) as [Hls Hrec]. exists sig. split_and!; [|done..].
  unfold makeAuthMsg, h0, idR. cbn [h_remoteID h_initiator h_respNonce h_remoteRandomPub].
  rewrite node_id_Pubkey. cbn [mbind outcome_bind]. rewrite !go_copy_full by (rewrite ?length_replicate; done).
  unfold staticSharedSecret. cbn [h_remotePub]. rewrite Htoken. cbn [mbind outcome_bind].
  rewrite xor_ok by lia. cbn [mbind outcome_bind]. rewrite Hsig. cbn [mbind outcome_bind].
  rewrite !go_copy_full by (rewrite ?length_replicate; try done; apply node_id_length). done.
Qed.

Lemma handle_auth_ok sig :
  RecoverPubkey (zip_with byte_xor token nonceI) sig = Ok (elliptic_Marshal (pub_of kI)) →
  handleAuthMsg (MkEncHs false EmptyNodeID None [] [] None None) (MkAuth false sig idI nonceI 4 []) prvR (Ok kR) = Ok hR1.
Proof using HnonceI HnonceR Htoken.
  intros Hrec. pose proof (shared_length _ _ _ Htoken) as Ht. unfold sskLen, shaLen in *.
  unfold handleAuthMsg. cbn [am_InitiatorPubkey am_Nonce am_Signature h_randomPrivKey h_initiator h_respNonce h_remoteRandomPub].
  assert (nodeid_Pubkey idI = Ok (pub_of prvI)) as -> by apply node_id_Pubkey.
  cbn [mbind outcome_bind]. unfold staticSharedSecret. cbn [h_remotePub].
  rewrite shared_comm, Htoken. cbn [mbind outcome_bind]. rewrite xor_ok by lia. cbn [mbind outcome_bind].
  rewrite Hrec. cbn [mbind outcome_bind]. rewrite import_marshal. done.
Qed.

Lemma make_resp_ok : makeAuthResp hR1 (Ok nonceR) = Ok (hR2, resp_msg).
Proof using HnonceR.
  unfold makeAuthResp, hR1. cbn [mbind outcome_bind h_randomPrivKey fmap option_fmap option_map exportPubkey h_initiator h_remoteID h_remotePub h_initNonce h_remoteRandomPub].
  rewrite !go_copy_full by (rewrite ?length_replicate; try done; apply node_id_length). done.
Qed.

Lemma handle_resp_ok : handleAuthResp hI1 resp_msg = Ok hI2.
Proof. unfold handleAuthResp, resp_msg. cbn [ar_RandomPubkey]. by rewrite import_node_id. Qed.

(** Both derive the same keys, and the hashes of the two directions cross. *)
Lemma secrets_agree auth resp : ∃ AES MAC m1 m2,
  secrets hI2 auth resp = Ok (MkSecrets idR AES MAC m1 m2) ∧ secrets hR2 auth resp = Ok (MkSecrets idI AES MAC m2 m1) ∧
  length AES = 32 ∧ length MAC = 32.
Proof using HnonceI HnonceR Hecdhe.
  unfold secrets, hI2, hR2.
  cbn [h_randomPrivKey h_remoteRandomPub h_respNonce h_initNonce h_initiator h_remoteID].
  rewrite (shared_comm kR), Hecdhe. cbn [mbind outcome_bind].
  rewrite !xor_ok by (rewrite Keccak256_length, ?HnonceI, ?HnonceR; done). cbn [mbind outcome_bind].
  do 4 eexists. split_and!; [reflexivity..|apply Keccak256_length|apply Keccak256_length].
Qed.

Lemma seal_ok enc h n rnd k : h_remotePub h = Some (pub_of k) → ∃ packet, sealEIP8 enc h n rnd = Ok packet.
Proof using Hencrypt.
  intros Hk. unfold sealEIP8, encrypt_for. rewrite Hk.
  match goal with |- context [ecies_Encrypt rnd _ ?m ?s2] => destruct (Hencrypt rnd k m s2) as [ct ->] end. by eexists.
Qed.

Lemma receiver_ok auth sig resp :
  readHandshakeMsg auth_decodePlain rlp_auth_dec encAuthMsgLen prvR (MkHConn [auth] []) =
    (MkHConn [] [], Ok (auth, MkAuth false sig idI nonceI 4 [])) →
  RecoverPubkey (zip_with byte_xor token nonceI) sig = Ok (elliptic_Marshal (pub_of kI)) →
  sealEIP8 (rlp_resp resp_msg) hR2 padR rndR = Ok resp →
  receiverEncHandshake prvR (Ok nonceR) (Ok kR) padR rndR (MkHConn [auth] []) = (MkHConn [] [resp], secrets hR2 auth resp).
Proof using HnonceI HnonceR Htoken Hwrite.
  intros Hr Hrec Hseal. unfold receiverEncHandshake.
  rewrite (stm_bind_ok _ _ _ _ _ Hr). rewrite (handle_auth_ok _ Hrec), st_lift_bind, make_resp_ok, st_lift_bind.
  cbn [am_gotPlain]. rewrite Hseal, st_lift_bind.
  erewrite stm_bind_ok; [|unfold conn_Write; rewrite Hwrite; reflexivity]. done.
Qed.

Lemma initiator_ok sig auth resp s' r :
  makeAuthMsg h0 prvI (Ok nonceI) (Ok kI) = Ok (hI1, MkAuth false sig idI nonceI 4 []) →
  sealEIP8 (rlp_auth (MkAuth false sig idI nonceI 4 [])) hI1 padI rndI = Ok auth →
  readHandshakeMsg resp_decodePlain rlp_resp_dec encAuthRespLen prvI (MkHConn [resp] [auth]) = (s', r) →
  initiatorEncHandshake prvI idR (Ok nonceI) (Ok kI) padI rndI (MkHConn [resp] []) =
  match r with
  | Ok (packet, msg) => match handleAuthResp hI1 msg with Ok h => (s', secrets h auth packet) | Err e => (s', Err e) | Panic => (s', Panic) end
  | Err e => (s', Err e)
  | Panic => (s', Panic)
  end.
Proof using Hwrite.
  intros Hm Hseal Hr. unfold initiatorEncHandshake. fold h0. rewrite Hm, st_lift_bind, Hseal, st_lift_bind.
  erewrite stm_bind_ok; [|unfold conn_Write; rewrite Hwrite; reflexivity]. cbn [hc_in hc_out app].
  unfold mbind, stm_bind. rewrite Hr. destruct r as [[packet msg]| |]; [|done..].
  unfold st_lift. by destruct (handleAuthResp hI1 msg).
Qed.

(** C21: When both sides know the other's key and randomness and encryption work,
    the dialing side and the receiving side of the handshake end with frame
    states of which each follows the other, and with each other's identifiers,
    if the random padding of the answer is at most 193 bytes over its minimum;
    with more, the answer is longer than the buffer the dialing side reads it
    into, and its handshake fails with a wrong read size. *)
Theorem handshake_agrees : padI < 200 → padR < 200 →
  ∃ auth resp rwI rwR,
    doEncHandshake prvR None (Ok nonceR) (Ok kR) padR rndR (MkHConn [auth] []) = (MkHConn [] [resp], Ok (rwR, idI)) ∧
    follows rwI rwR ∧ follows rwR rwI ∧
    if decide (padR ≤ 193)
    then doEncHandshake prvI (Some idR) (Ok nonceI) (Ok kI) padI rndI (MkHConn [resp] []) = (MkHConn [] [auth], Ok (rwI, idR))
    else ∃ s, doEncHandshake prvI (Some idR) (Ok nonceI) (Ok kI) padI rndI (MkHConn [resp] []) =
      (MkHConn s [auth], Err P2PErrReadSize).
Proof using HnonceI HnonceR Htoken Hecdhe Hsign Hencrypt Hwrite.
  intros HpI HpR. destruct make_auth_ok as (sig & Hmake & Hsig & Hrec).
  pose proof (node_id_length (pub_of prvI)) as HidI. pose proof (node_id_length (pub_of kR)) as HkR.
  pose proof (rlp_auth_length sig idI nonceI Hsig HidI HnonceI) as Hla.
  pose proof (rlp_resp_length (node_id (pub_of kR)) nonceR HkR HnonceR) as Hlr.
  destruct (seal_ok (rlp_auth (MkAuth false sig idI nonceI 4 [])) hI1 padI rndI prvR eq_refl) as [auth Hauth].
  destruct (seal_ok (rlp_resp resp_msg) hR2 padR rndR prvI eq_refl) as [resp Hresp].
  destruct (seal_read auth_decodePlain rlp_auth_dec encAuthMsgLen prvR hI1
    (rlp_auth (MkAuth false sig idI nonceI 4 [])) padI rndI
    (MkAuth false sig idI nonceI 4 []) auth [] []) as (HlA & HrA & _); try done.
  { unfold encAuthMsgLen, authMsgLen, sigLen, shaLen, pubLen, eciesOverhead. lia. }
  { unfold encAuthMsgLen, authMsgLen, sigLen, shaLen, pubLen, eciesOverhead. lia. }
  { intros tl. by apply rlp_auth_roundtrip. }
  destruct (seal_read resp_decodePlain rlp_resp_dec encAuthRespLen prvI hR2 (rlp_resp resp_msg) padR rndR resp_msg resp [] [auth])
    as (HlR & HrR & HrR'); try done.
  { unfold encAuthRespLen, authRespLen, shaLen, pubLen, eciesOverhead. lia. }
  { unfold encAuthRespLen, authRespLen, shaLen, pubLen, eciesOverhead, resp_msg. lia. }
  { intros tl. by apply rlp_resp_roundtrip. }
  destruct (secrets_agree auth resp) as (AES & MAC & m1 & m2 & EI & ER & HA & HM).
  set (frame := λ e i, MkFrame [] [] AES MAC 0 0 e i false).
  assert (∀ e i, newRLPXFrameRW AES MAC e i = Ok (frame e i)) as Hnew.
  { intros e i. unfold newRLPXFrameRW, aes_key_ok. rewrite !bool_decide_true by lia. done. }
  exists auth, resp, (frame m1 m2), (frame m2 m1). split; [|split; [done|split; [done|]]].
  - unfold doEncHandshake.
    rewrite (stm_bind_ok _ _ _ _ _ (eq_trans (receiver_ok auth sig resp (HrA ltac:(unfold encAuthMsgLen, authMsgLen, SizePadSpace in *; simpl; lia)) Hrec Hresp) (f_equal _ ER))).
    cbn [sec_AES sec_MAC sec_EgressMAC sec_IngressMAC sec_RemoteID]. rewrite Hnew. done.
  - unfold resp_msg in HlR. case_decide as Hpad.
    + specialize (HrR ltac:(unfold encAuthRespLen, authRespLen, SizePadSpace, shaLen, pubLen, eciesOverhead, resp_msg in *; lia)).
      unfold doEncHandshake.
      erewrite stm_bind_ok; [|rewrite (initiator_ok _ _ _ _ _ Hmake Hauth HrR), handle_resp_ok, EI; reflexivity].
      cbn [sec_AES sec_MAC sec_EgressMAC sec_IngressMAC sec_RemoteID]. rewrite Hnew. done.
    + destruct (HrR' ltac:(unfold encAuthRespLen, authRespLen, SizePadSpace, shaLen, pubLen, eciesOverhead, resp_msg in *; lia)) as [s Es].
      exists s. unfold doEncHandshake.
      erewrite stm_bind_err; [reflexivity|]. by rewrite (initiator_ok _ _ _ _ _ Hmake Hauth Es).
Qed.

End run.

(** ** The protocol handshake *)

Context `{Aes, RlpUint, Snappy}.
Variable conn_write : bytes → bytes → nat * option GoErr.

Definition DiscNetworkError : Z := 1.
Definition DiscInvalidIdentity : Z := 7.

(** The handshake of the other side, or the reason it gave, or we give, for
    disconnecting. *)
Definition readProtocolHandshake : stm FrameRW (protoHandshake + Z) :=
  msg ← ReadMsg;
  if (baseProtocolMaxMsgSize <? m_Size msg)%Z then st_lift (Err ErrExternal) else
  if (m_Code msg =? discMsg)%Z then mret (inr (rlp_reason_dec (m_Payload msg))) else
  if negb (m_Code msg =? handshakeMsg)%Z then st_lift (Err ErrExternal) else
  hs ← st_lift (rlp_hs_dec (m_Payload msg));
  if bool_decide (hs_ID hs = EmptyNodeID) then mret (inr DiscInvalidIdentity) else mret (inl hs).

(** [Send]. *)
Definition Send (code : Z) (data : bytes) : stm FrameRW unit :=
  WriteMsg conn_write (MkMsg code (u32 (Z.of_nat (length data))) data).

(** Writing and reading run at the same time, on states of their own; the error
    of reading is the one returned. *)
Definition doProtoHandshake (our : protoHandshake) : stm FrameRW (protoHandshake + Z) :=
  werr ← st_try (Send handshakeMsg (rlp_hs our));
  their ← readProtocolHandshake;
  match their with
  | inr reason => mret (inr reason)
  | inl their =>
    match werr with
    | inr e => st_lift (Err e)
    | inl _ => _ ← st_mod (set_snappy (snappyProtocolVersion <=? hs_Version their)%Z); mret (inl their)
    end
  end.

(** [close]: the reason is sent when there is one worth sending and the
    deadline can be set. *)
Definition close (rw : option FrameRW) (reason : option Z) (deadline_ok : bool) (enc : bytes) : option FrameRW :=
  match rw with
  | None => None
  | Some rw =>
    match reason with
    | Some r => if negb (r =? DiscNetworkError)%Z && deadline_ok then Some (Send discMsg enc rw).1 else Some rw
    | None => Some rw
    end
  end.

(** ** Both send their handshake *)

Definition hs_ok (hs : protoHandshake) : Prop :=
  hs_wf hs ∧ hs_ID hs ≠ EmptyNodeID ∧ (Z.of_nat (length (rlp_hs hs)) ≤ baseProtocolMaxMsgSize)%Z.
Definition hs_msg (hs : protoHandshake) : Msg := MkMsg handshakeMsg (Z.of_nat (length (rlp_hs hs))) (rlp_hs hs).

Lemma hs_fits hs : hs_ok hs → fits false (hs_msg hs).
Proof.
  intros (_ & _ & Hl). unfold fits, fsize, packed, hs_msg, baseProtocolMaxMsgSize, maxUint24 in *. simpl.
  pose proof (rlp_uint_length handshakeMsg). split_and!; [|done|lia..]. unfold in_u64, handshakeMsg. lia.
Qed.

Lemma Send_hs hs rw : conn_ok conn_write → hs_ok hs → fr_snappy rw = false →
  Send handshakeMsg (rlp_hs hs) rw = (sent (header false (hs_msg hs)) (body false (hs_msg hs)) rw, Ok tt).
Proof.
  intros Hc Hhs Hsn. unfold Send. rewrite u32_small.
  - pose proof (WriteMsg_ok conn_write (hs_msg hs) rw Hc) as HW. rewrite Hsn in HW. by apply HW, hs_fits.
  - destruct Hhs as (_ & _ & Hl). unfold in_u32, baseProtocolMaxMsgSize in *. lia.
Qed.

Definition sent_hs (hs : protoHandshake) : FrameRW → FrameRW := sent (header false (hs_msg hs)) (body false (hs_msg hs)).
Definition hs_wire (hs : protoHandshake) : FrameRW → bytes := wire (header false (hs_msg hs)) (body false (hs_msg hs)).

(** What one side does, when the frame of the other is on its way. *)
Lemma proto_one our their a b rest :
  conn_ok conn_write → hs_ok our → hs_ok their → fr_snappy a = false → fr_snappy b = false → follows b a →
  ∃ a', doProtoHandshake our (set_in (hs_wire their b ++ rest) a) = (a', Ok (inl their)) ∧
    fr_in a' = rest ∧ fr_out a' = fr_out a ++ hs_wire our a ∧
    fr_snappy a' = (snappyProtocolVersion <=? hs_Version their)%Z ∧
    fr_AES a' = fr_AES b ∧ fr_MAC a' = fr_MAC b ∧
    fr_dec a' = fr_enc (sent_hs their b) ∧ fr_ingress a' = fr_egress (sent_hs their b) ∧
    fr_enc a' = fr_enc (sent_hs our a) ∧ fr_egress a' = fr_egress (sent_hs our a).
Proof.
  intros Hc Hour Hth Hsa Hsb Hf. set (a1 := set_in _ a).
  pose proof (Send_hs our a1 Hc Hour Hsa) as Hsend. fold (sent_hs our) in Hsend.
  pose proof (ReadMsg_ok (hs_msg their) b (sent_hs our a1) rest) as HR.
  rewrite Hsb in HR. destruct HR as (a2 & HR & [F1 F2 F3 F4 F5] & Hin & (W1 & W2 & W3)); try done;
    [by apply hs_fits|by destruct Hf; split|].
  unfold doProtoHandshake. rewrite (stm_bind_ok _ _ _ _ _ (st_try_ok _ _ _ _ Hsend)).
  assert (readProtocolHandshake (sent_hs our a1) = (a2, Ok (inl their))) as Erd.
  { unfold readProtocolHandshake. rewrite (stm_bind_ok _ _ _ _ _ HR). cbn [m_Size m_Code m_Payload hs_msg].
    destruct Hth as (Hwf & Hne & Hl). destruct (Z.ltb_spec baseProtocolMaxMsgSize (Z.of_nat (length (rlp_hs their)))); [lia|].
    change (handshakeMsg =? discMsg)%Z with false. change (handshakeMsg =? handshakeMsg)%Z with true. cbn [negb].
    rewrite rlp_hs_roundtrip, st_lift_bind, bool_decide_false by done. done. }
  rewrite (stm_bind_ok _ _ _ _ _ Erd).
  exists (set_snappy (snappyProtocolVersion <=? hs_Version their)%Z a2). split; [done|].
  split_and!; simpl; try done.
  rewrite W1. exact (sent_out (header false (hs_msg our)) (body false (hs_msg our)) a).
Qed.

(** Two ends whose frame states follow each other, and that send each other
    their protocol handshakes, each read the other's; when both protocol
    versions have Snappy, or neither, they follow each other again, with
    compression on exactly in the first case. *)
Theorem proto_handshake_agrees hsA hsB a b :
  conn_ok conn_write → hs_ok hsA → hs_ok hsB → follows a b → follows b a → fr_snappy a = false →
  ∃ wA wB, ∀ restA restB, ∃ a' b',
    doProtoHandshake hsA (set_in (wB ++ restA) a) = (a', Ok (inl hsB)) ∧ fr_out a' = fr_out a ++ wA ∧ fr_in a' = restA ∧
    doProtoHandshake hsB (set_in (wA ++ restB) b) = (b', Ok (inl hsA)) ∧ fr_out b' = fr_out b ++ wB ∧ fr_in b' = restB ∧
    ((snappyProtocolVersion <=? hs_Version hsA)%Z = (snappyProtocolVersion <=? hs_Version hsB)%Z →
     follows a' b' ∧ follows b' a' ∧ fr_snappy a' = (snappyProtocolVersion <=? hs_Version hsA)%Z).
Proof.
  intros Hc HA HB Hab Hba Hsa. assert (fr_snappy b = false) as Hsb by (destruct Hab; congruence).
  exists (hs_wire hsA a), (hs_wire hsB b). intros restA restB.
  destruct (proto_one hsA hsB a b restA) as (a' & Ea & A1 & A2 & A3 & A4 & A5 & A6 & A7 & A8 & A9); try done.
  destruct (proto_one hsB hsA b a restB) as (b' & Eb & B1 & B2 & B3 & B4 & B5 & B6 & B7 & B8 & B9); try done.
  exists a', b'. do 6 (split; [done|]). intros Hv. destruct Hab, Hba.
  split; [split; congruence|]. split; [split; congruence|]. congruence.
Qed.

End Handshake.

(** ** Witnesses

    Keys of one byte, which are their own points, and messages with a mark for
    what does not have a fixed size. *)

Definition byte_crypto : Crypto := {|
  PubKey := byte;
  PubkeyToAddress k := toy_hash AddressLength [k];
  Keccak256 := toy_hash 32;
  PubkeyToAddress_length k := toy_hash_length AddressLength [k];
  Keccak256_length := toy_hash_length 32 |}.

Definition byte_point (x y : Z) : option byte :=
  if decide (0 ≤ x < 256 ∧ y = 0)%Z then Some (byte_of_Z x) else None.
Definition byte_Marshal (p : byte) : bytes := x04 :: be_enc 32 (byteZ p) ++ be_enc 32 0.
Lemma byte_Marshal_point x y p : byte_point x y = Some p → byte_Marshal p = x04 :: be_enc 32 x ++ be_enc 32 y.
Proof.
  unfold byte_point. case_decide as Hd; [|done]. intros [= <-]. destruct Hd as [Hx ->].
  unfold byte_Marshal. by rewrite byteZ_of_Z, Z.mod_small.
Qed.
Lemma byte_Marshal_wf p : ∃ x y, (0 ≤ x < 256 ^ 32)%Z ∧ (0 ≤ y < 256 ^ 32)%Z ∧ byte_point x y = Some p.
Proof.
  pose proof (byteZ_range p). exists (byteZ p), 0%Z. split_and!; try lia.
  unfold byte_point. rewrite decide_True by lia. by rewrite byte_of_Z_byteZ.
Qed.
Definition byte_curve : Curve (H := byte_crypto) := {|
  curve_point := byte_point : Z → Z → option (@PubKey byte_crypto);
  elliptic_Marshal := byte_Marshal;
  RecoverPubkey _ sig := match sig with k :: _ => Ok (byte_Marshal k) | [] => Err ErrExternal end;
  elliptic_Marshal_point := byte_Marshal_point; elliptic_Marshal_wf := byte_Marshal_wf |}.

Definition byte_encrypt (p : byte) (m s2 : bytes) : bytes := x04 :: p :: replicate 111 x00 ++ m.
Definition byte_decrypt (k : byte) (c s2 : bytes) : outcome bytes :=
  match c with
  | x :: p :: rest => if decide (x = x04 ∧ p = k) then Ok (drop 111 rest) else Err ErrExternal
  | _ => Err ErrExternal
  end.
Lemma byte_shared_comm a b : toy_hash 32 [byte_xor a b] = toy_hash 32 [byte_xor b a].
Proof. f_equal. f_equal. apply byteZ_inj. by rewrite !byteZ_xor, Z.lxor_comm. Qed.
Lemma byte_unmarshal p : byte_of_Z (be_dec (take 32 (drop 1 (byte_Marshal p)))) = p.
Proof.
  unfold byte_Marshal. rewrite skipn_cons, drop_0, take_app_length' by (by rewrite be_enc_length).
  rewrite be_dec_enc. pose proof (byteZ_range p). rewrite Z.mod_small; [by rewrite byte_of_Z_byteZ|].
  split; [lia|]. apply Z.lt_le_trans with 256%Z; [lia|]. by apply (Z.pow_le_mono_r 256 1).
Qed.
#[program] Definition byte_ecies : Ecies (H := byte_crypto) (H0 := byte_curve) := {|
  PrvKey := byte; pub_of k := k : @PubKey byte_crypto;
  GenerateShared a p := Ok (toy_hash 32 [byte_xor a p]);
  crypto_Sign h k := Ok (k :: replicate 64 x00);
  UnmarshalPubkey b := Ok (byte_of_Z (be_dec (take 32 (drop 1 b))));
  ecies_Encrypt _ p m s2 := Ok (byte_encrypt p m s2);
  ecies_Decrypt := byte_decrypt |}.
Next Obligation. intros a b. exact (f_equal Ok (byte_shared_comm a b)). Qed.
Next Obligation. intros a p z [= <-]. apply toy_hash_length. Qed.
Next Obligation. intros h k sig [= <-]. done. Qed.
Next Obligation. intros p. exact (f_equal Ok (byte_unmarshal p)). Qed.
Next Obligation.
  intros rnd k m s2 c [= <-]. cbn [byte_decrypt byte_encrypt]. rewrite decide_True by done.
  rewrite drop_app_length' by done. split; [done|]. unfold byte_encrypt. cbn [length]. rewrite length_app, length_replicate.
  unfold eciesOverhead. lia.
Qed.
Next Obligation.
  intros k c s2 Hc. destruct c as [|x [|p c]]; cbn; [by eexists..|]. rewrite decide_False; [by eexists|].
  intros [-> _]. by apply Hc.
Qed.

(** What follows the fields of fixed size: [k] zeros for version 4 without
    more, otherwise a mark, the length in unary, and an encoding. *)
Definition tail_enc (k : nat) (t : Z * list bytes) : bytes :=
  if decide (t = (4%Z, [])) then x00 :: replicate k x00
  else x01 :: replicate (length (codec_enc t)) x01 ++ x00 :: codec_enc t.
Fixpoint ones (b : bytes) : nat := match b with x01 :: b => S (ones b) | _ => 0 end.
Definition tail_dec (b : bytes) : outcome (Z * list bytes) :=
  match b with
  | x01 :: b => match codec_dec (take (ones b) (drop (S (ones b)) b)) with Some t => Ok t | None => Err ErrDecode end
  | _ => Ok (4%Z, [])
  end.
Lemma ones_app n rest : ones (replicate n x01 ++ x00 :: rest) = n.
Proof. induction n as [|n IH]; [done|]. simpl. by rewrite IH. Qed.
Lemma tail_roundtrip k t tl : tail_dec (tail_enc k t ++ tl) = Ok t.
Proof.
  unfold tail_enc. case_decide as Ht; [by subst|]. cbn [tail_dec app]. rewrite <- app_assoc. cbn [app].
  rewrite ones_app. set (n := length (codec_enc t)).
  replace (replicate n x01 ++ x00 :: codec_enc t ++ tl) with ((replicate n x01 ++ [x00]) ++ codec_enc t ++ tl)
    by (by rewrite <- app_assoc).
  rewrite drop_app_length' by (rewrite length_app, length_replicate; simpl; lia).
  rewrite take_app_length' by done. by rewrite codec_dec_enc.
Qed.

Definition auth_enc (m : authMsgV4) : bytes :=
  am_Signature m ++ am_InitiatorPubkey m ++ am_Nonce m ++ tail_enc 7 (am_Version m, am_Rest m).
Definition auth_dec (b : bytes) : outcome authMsgV4 :=
  t ← tail_dec (drop 32 (drop 64 (drop 65 b)));
  Ok (MkAuth false (take 65 b) (take 64 (drop 65 b)) (take 32 (drop 64 (drop 65 b))) t.1 t.2).
Definition resp_enc (m : authRespV4) : bytes :=
  ar_RandomPubkey m ++ ar_Nonce m ++ tail_enc 5 (ar_Version m, ar_Rest m).
Definition resp_dec (b : bytes) : outcome authRespV4 :=
  t ← tail_dec (drop 32 (drop 64 b));
  Ok (MkResp (take 64 b) (take 32 (drop 64 b)) t.1 t.2).
Definition hs_fields (hs : protoHandshake) : Z * bytes * list (bytes * Z) * Z * list bytes :=
  (hs_Version hs, hs_Name hs, hs_Caps hs, hs_ListenPort hs, hs_Rest hs).
Definition hs_dec (b : bytes) : outcome protoHandshake :=
  match codec_dec (drop 64 b) with
  | Some (v, n, c, p, r) => Ok (MkHs v n c p (take 64 b) r)
  | None => Err ErrDecode
  end.

Lemma auth_roundtrip sig pub nonce v tl :
  length sig = sigLen → length pub = pubLen → length nonce = shaLen → in_u64 v →
  auth_dec (auth_enc (MkAuth false sig pub nonce v []) ++ tl) = Ok (MkAuth false sig pub nonce v []).
Proof.
  intros Hs Hp Hn _. unfold auth_dec, auth_enc. cbn [am_Signature am_InitiatorPubkey am_Nonce am_Version am_Rest].
  rewrite <- !app_assoc. rewrite !drop_app_length' by done. rewrite tail_roundtrip. cbn [mbind outcome_bind].
  by rewrite !take_app_length' by done.
Qed.
Lemma resp_roundtrip pub nonce v tl :
  length pub = pubLen → length nonce = shaLen → in_u64 v →
  resp_dec (resp_enc (MkResp pub nonce v []) ++ tl) = Ok (MkResp pub nonce v []).
Proof.
  intros Hp Hn _. unfold resp_dec, resp_enc. cbn [ar_RandomPubkey ar_Nonce ar_Version ar_Rest].
  rewrite <- !app_assoc. rewrite !drop_app_length' by done. rewrite tail_roundtrip. cbn [mbind outcome_bind].
  by rewrite !take_app_length' by done.
Qed.
Lemma hs_codec hs : hs_wf hs → hs_dec (hs_ID hs ++ codec_enc (hs_fields hs)) = Ok hs.
Proof.
  intros [Hid _]. unfold hs_dec. rewrite drop_app_length', take_app_length' by done. rewrite codec_dec_enc. by destruct hs.
Qed.
Lemma auth_enc_length sig pub nonce : length sig = sigLen → length pub = pubLen → length nonce = shaLen →
  length (auth_enc (MkAuth false sig pub nonce 4 [])) = 2 + 67 + 66 + 33 + 1.
Proof. intros Hs Hp Hn. unfold auth_enc. cbn [am_Signature am_InitiatorPubkey am_Nonce am_Version am_Rest]. rewrite !length_app, Hs, Hp, Hn. done. Qed.
Lemma resp_enc_length pub nonce : length pub = pubLen → length nonce = shaLen →
  length (resp_enc (MkResp pub nonce 4 [])) = 2 + 66 + 33 + 1.
Proof. intros Hp Hn. unfold resp_enc. cbn [ar_RandomPubkey ar_Nonce ar_Version ar_Rest]. rewrite !length_app, Hp, Hn. done. Qed.

Definition tail_rlp : HandshakeRLP := {|
  rlp_auth := auth_enc; rlp_auth_dec := auth_dec; rlp_resp := resp_enc; rlp_resp_dec := resp_dec;
  rlp_hs hs := hs_ID hs ++ codec_enc (hs_fields hs); rlp_hs_dec := hs_dec;
  rlp_reason_dec b := match b with x :: _ => byteZ x | [] => 0%Z end;
  rlp_auth_roundtrip := auth_roundtrip; rlp_resp_roundtrip := resp_roundtrip;
  rlp_hs_roundtrip := hs_codec;
  rlp_auth_length := auth_enc_length; rlp_resp_length := resp_enc_length |}.

#[local] Existing Instances byte_crypto byte_curve byte_ecies tail_rlp.

Definition no_err (_ : bytes) : option GoErr := None.
Definition run_I := @doEncHandshake byte_crypto byte_curve byte_ecies tail_rlp no_err x11 (Some (@node_id byte_crypto byte_curve x22)) (Ok (replicate 32 x01)) (Ok x33).
Definition run_R := @doEncHandshake byte_crypto byte_curve byte_ecies tail_rlp no_err x22 None (Ok (replicate 32 x02)) (Ok x44).

Lemma handshake_agrees_witness :
  (∃ auth resp rwI rwR,
     run_R 193 [] (MkHConn [auth] []) = (MkHConn [] [resp], Ok (rwR, @node_id byte_crypto byte_curve x11)) ∧
     run_I 7 [] (MkHConn [resp] []) = (MkHConn [] [auth], Ok (rwI, @node_id byte_crypto byte_curve x22)) ∧ follows rwI rwR ∧ follows rwR rwI) ∧
  (∃ auth resp s, run_I 7 [] (MkHConn [resp] []) = (MkHConn s [auth], Err P2PErrReadSize)).
Proof.
  split.
  - destruct (@handshake_agrees byte_crypto byte_curve byte_ecies tail_rlp no_err x11 x22 x33 x44 (replicate 32 x01) (replicate 32 x02) [] [] 7 193
      (toy_hash 32 [byte_xor x11 x22]) (toy_hash 32 [byte_xor x33 x44])) as (auth & resp & rwI & rwR & ER & F1 & F2 & EI);
      [reflexivity|reflexivity|reflexivity|reflexivity|by eexists|by eexists|reflexivity|lia|lia|].
    exists auth, resp, rwI, rwR. exact (conj ER (conj EI (conj F1 F2))).
  - destruct (@handshake_agrees byte_crypto byte_curve byte_ecies tail_rlp no_err x11 x22 x33 x44 (replicate 32 x01) (replicate 32 x02) [] [] 7 194
      (toy_hash 32 [byte_xor x11 x22]) (toy_hash 32 [byte_xor x33 x44])) as (auth & resp & rwI & rwR & ER & F1 & F2 & [s EI]);
      [reflexivity|reflexivity|reflexivity|reflexivity|by eexists|by eexists|reflexivity|lia|lia|].
    exists auth, resp, s. exact EI.
Defined.

Definition hs_a : protoHandshake := MkHs 5 [x61] [([x6d; x65], 1%Z)] 0 (replicate 64 x11) [].
Definition hs_b : protoHandshake := MkHs 5 [x62] [] 0 (replicate 64 x22) [].

Lemma hs_ab_wf : hs_wf hs_a ∧ hs_wf hs_b.
Proof.
  assert (∀ z : Z, (0 ≤ z < 10)%Z → in_u64 z) as Hz by (intros z Hz; unfold in_u64; lia).
  split; (split; [reflexivity|]); (split; [by apply Hz|]); (split; [by apply Hz|]);
    (split; [repeat constructor; by apply Hz|reflexivity]).
Qed.

Lemma proto_handshake_agrees_witness : ∃ wA wB a' b',
  doProtoHandshake fr_write hs_a (set_in (wB ++ []) (fr_writer false)) = (a', Ok (inl hs_b)) ∧
  doProtoHandshake fr_write hs_b (set_in (wA ++ []) (fr_reader false [])) = (b', Ok (inl hs_a)) ∧
  follows a' b' ∧ follows b' a' ∧ fr_snappy a' = true.
Proof.
  destruct (proto_handshake_agrees fr_write hs_a hs_b (fr_writer false) (fr_reader false [])) as (wA & wB & Hrun).
  - done.
  - split; [apply hs_ab_wf|]. split; [done|]. vm_compute. discriminate.
  - split; [apply hs_ab_wf|]. split; [done|]. vm_compute. discriminate.
  - by split.
  - by split.
  - done.
  - destruct (Hrun [] []) as (a' & b' & EA & _ & _ & EB & _ & _ & Hf). destruct Hf as (F1 & F2 & F3); [reflexivity|].
    exists wA, wB, a', b'. exact (conj EA (conj EB (conj F1 (conj F2 F3)))).
Defined.
