(* ===== verification/UdpLoop.v ===== *)
(** * Waiting for replies

    The loop of [p2p/discover/udp.go]: requests wait in a list, each with the
    node and kind of packet it waits for, a callback and a deadline; the loop
    takes new requests, replies and the ticks of one timer.  A request is
    answered on its channel, once.

    The list is [container/list]: an element that is removed has no next one,
    so that a loop over the list ends with the first removal. *)

From S2P Require Import Prelude Discover.

Set Default Goal Selector "!".
Set Default Proof Using "Type".

Definition respTimeout : Z := 500 * 10 ^ 6.
Definition ntpFailureThreshold : Z := 32.
Definition ntpWarningCooldown : Z := 600 * 10 ^ 9.

Inductive answer := AnsDone | AnsTimeout | AnsClosed | AnsClockWarp.

Section loop.
(** What a callback remembers, the data of a reply, and what a callback does
    besides; [callback] is also told whether it is done. *)
Context {W R E : Type}.
Variable callback : W → R → W * list E * bool.

(** [pd_id] is the address of the request. *)
Record pending := MkPending {
  pd_id : positive;
  pd_from : NodeID; pd_ptype : Z;
  pd_deadline : Z;
  pd_wait : W
}.
Definition set_deadline (d : Z) (p : pending) := MkPending (pd_id p) (pd_from p) (pd_ptype p) d (pd_wait p).
Definition set_wait (w : W) (p : pending) := MkPending (pd_id p) (pd_from p) (pd_ptype p) (pd_deadline p) w.

(** [lp_timer] is the time the timer is set for; [lp_answers] what was sent to
    the channels of requests, with the request as it was then. *)
Record loop := MkLoop {
  lp_list : list pending;
  lp_next : option positive;
  lp_timer : option Z;
  lp_cont : Z;
  lp_warn : Z;
  lp_closed : bool;
  lp_answers : list (pending * answer)
}.
Definition loop_init : loop := MkLoop [] None None 0 0 false [].

Implicit Types (s : loop) (p : pending).

Definition resetTimeout (now : Z) s : loop :=
  match lp_list s with
  | [] => s
  | p :: rest =>
    if decide (lp_next s = Some (pd_id p)) then s
    else if (pd_deadline p - now <? 2 * respTimeout)%Z then
      MkLoop (lp_list s) (Some (pd_id p)) (Some (pd_deadline p)) (lp_cont s) (lp_warn s) (lp_closed s) (lp_answers s)
    else MkLoop rest None None (lp_cont s) (lp_warn s) (lp_closed s) (lp_answers s ++ [(p, AnsClockWarp)])
  end.

Definition addpending (now : Z) p s : loop :=
  MkLoop (lp_list s ++ [set_deadline (now + respTimeout) p]) (lp_next s) (lp_timer s) (lp_cont s) (lp_warn s) (lp_closed s)
    (lp_answers s).

(** The loop over the requests: the requests that are left, whether one
    matched, the one that is done, and what the callbacks did. *)
Fixpoint match_reply (from : NodeID) (ptype : Z) (data : R) (l : list pending) :
    list pending * bool * option pending * list E :=
  match l with
  | [] => ([], false, None, [])
  | p :: l =>
    if decide (pd_from p = from ∧ pd_ptype p = ptype) then
      let '(w, effects, done) := callback (pd_wait p) data in
      if done then (l, true, Some (set_wait w p), effects)
      else let '(l, _, d, effects') := match_reply from ptype data l in (set_wait w p :: l, true, d, effects ++ effects')
    else let '(l, matched, d, effects) := match_reply from ptype data l in (p :: l, matched, d, effects)
  end.

Definition gotreply (from : NodeID) (ptype : Z) (data : R) s : loop * bool * list E :=
  let '(l, matched, done, effects) := match_reply from ptype data (lp_list s) in
  (MkLoop l (lp_next s) (lp_timer s) (if matched then 0 else lp_cont s) (lp_warn s) (lp_closed s)
     (lp_answers s ++ match done with Some p => [(p, AnsDone)] | None => [] end), matched, effects).

(** The first request whose deadline has passed. *)
Fixpoint first_expired (now : Z) (l : list pending) : list pending * option pending :=
  match l with
  | [] => ([], None)
  | p :: l =>
    if (pd_deadline p <=? now)%Z then (l, Some p)
    else let '(l, e) := first_expired now l in (p :: l, e)
  end.

Definition timeout (now : Z) s : loop :=
  let '(l, e) := first_expired now (lp_list s) in
  let cont := (lp_cont s + match e with Some _ => 1 | None => 0 end)%Z in
  let answers := lp_answers s ++ match e with Some p => [(p, AnsTimeout)] | None => [] end in
  if (ntpFailureThreshold <? cont)%Z then
    MkLoop l None None 0 (if (ntpWarningCooldown <=? now - lp_warn s)%Z then now else lp_warn s) (lp_closed s) answers
  else MkLoop l None None cont (lp_warn s) (lp_closed s) answers.

Definition closing s : loop :=
  MkLoop (lp_list s) (lp_next s) (lp_timer s) (lp_cont s) (lp_warn s) true
    (lp_answers s ++ ((λ p, (p, AnsClosed)) <$> lp_list s)).

Inductive event :=
  | EvAdd (p : pending)
  | EvReply (from : NodeID) (ptype : Z) (data : R)
  | EvTick
  | EvClose.

(** One round of the loop: the timer is reset at [t], the event comes at [t']. *)
Definition loop_event (t' : Z) (ev : event) s : loop :=
  match ev with
  | EvAdd p => addpending t' p s
  | EvReply from ptype data => (gotreply from ptype data s).1.1
  | EvTick => timeout t' s
  | EvClose => closing s
  end.
Definition loop_round (r : Z * Z * event) s : loop :=
  if lp_closed s then s else loop_event r.1.2 r.2 (resetTimeout r.1.1 s).
Definition loop_run (rs : list (Z * Z * event)) s : loop := foldl (λ s r, loop_round r s) s rs.

(** ** Every request is answered once *)

Definition answered s : list positive := (λ x, pd_id x.1) <$> lp_answers s.
Definition waiting s : list positive := if lp_closed s then [] else pd_id <$> lp_list s.

(** The requests the rounds hand to the loop while it runs. *)
Fixpoint added (rs : list (Z * Z * event)) (closed : bool) : list positive :=
  match rs with
  | [] => []
  | (_, ev) :: rs =>
    if closed then [] else
    match ev with
    | EvAdd p => pd_id p :: added rs false
    | EvClose => added rs true
    | _ => added rs false
    end
  end.

Lemma match_reply_ids from ptype data l :
  let '(l', _, d, _) := match_reply from ptype data l in
  pd_id <$> l ≡ₚ (match d with Some p => [pd_id p] | None => [] end) ++ (pd_id <$> l').
Proof.
  induction l as [|p l IH]; [cbn; reflexivity|]. cbn [match_reply].
  destruct (match_reply from ptype data l) as [[[l' m] d] es]. case_decide as Hm.
  - destruct (callback (pd_wait p) data) as [[w eff] [|]]; cbn; [reflexivity|].
    rewrite IH. destruct d; cbn; [apply perm_swap|reflexivity].
  - cbn. rewrite IH. destruct d; cbn; [apply perm_swap|reflexivity].
Qed.

Lemma first_expired_ids now l :
  let '(l', e) := first_expired now l in
  pd_id <$> l ≡ₚ (match e with Some p => [pd_id p] | None => [] end) ++ (pd_id <$> l').
Proof.
  induction l as [|p l IH]; [cbn; reflexivity|]. cbn [first_expired].
  destruct (pd_deadline p <=? now)%Z; [reflexivity|]. destruct (first_expired now l) as [l' e]. cbn. rewrite IH.
  destruct e; cbn; [apply perm_swap|reflexivity].
Qed.

Definition ids s : list positive := answered s ++ waiting s.

Lemma reset_ids t s : lp_closed s = false → ids (resetTimeout t s) ≡ₚ ids s.
Proof.
  intros Hc. unfold ids, answered, waiting, resetTimeout. rewrite Hc. destruct (lp_list s) as [|p rest] eqn:El; [by rewrite ?Hc, ?El|].
  case_decide; [by rewrite ?Hc, ?El|]. destruct (_ <? _)%Z; cbn; rewrite ?Hc, ?El; [done|].
  by rewrite fmap_app, <- app_assoc.
Qed.

Lemma reset_closed t s : lp_closed (resetTimeout t s) = lp_closed s.
Proof. unfold resetTimeout. destruct (lp_list s); [done|]. case_decide; [done|]. by destruct (_ <? _)%Z. Qed.

Lemma event_ids t' ev s : lp_closed s = false →
  ids (loop_event t' ev s) ≡ₚ ids s ++ match ev with EvAdd p => [pd_id p] | _ => [] end.
Proof.
  intros Hc. unfold ids, answered, waiting. destruct ev as [p|from ptype data| |]; cbn; rewrite ?Hc.
  - by rewrite fmap_app, app_assoc.
  - unfold gotreply. pose proof (match_reply_ids from ptype data (lp_list s)) as Hm.
    destruct (match_reply from ptype data (lp_list s)) as [[[l m] d] es]. cbn. rewrite Hc, app_nil_r, Hm, fmap_app.
    destruct d; cbn; by rewrite ?app_nil_r, <- ?app_assoc.
  - unfold timeout. pose proof (first_expired_ids t' (lp_list s)) as Hm.
    destruct (first_expired t' (lp_list s)) as [l e]. rewrite app_nil_r, Hm.
    destruct (_ <? _)%Z; cbn; rewrite Hc, fmap_app; destruct e; cbn; by rewrite ?app_nil_r, <- ?app_assoc.
  - rewrite !app_nil_r, fmap_app. f_equiv. by rewrite <- list_fmap_compose.
Qed.

Lemma event_closed t' ev s : lp_closed (loop_event t' ev s) = match ev with EvClose => true | _ => lp_closed s end.
Proof.
  destruct ev; cbn; try done.
  - unfold gotreply. by destruct (match_reply _ _ _ _) as [[[? ?] ?] ?].
  - unfold timeout. destruct (first_expired _ _). by destruct (_ <? _)%Z.
Qed.

Lemma run_ids rs s : ids (loop_run rs s) ≡ₚ ids s ++ added rs (lp_closed s).
Proof.
  revert s. induction rs as [|[[t t'] ev] rs IH]; intros s; [by rewrite app_nil_r|]. unfold loop_run in *. cbn [foldl added].
  rewrite IH. unfold loop_round. destruct (lp_closed s) eqn:Hc.
  - rewrite Hc. f_equiv. by destruct rs as [|[? ?] rs].
  - cbn [fst snd]. rewrite event_ids by (by rewrite reset_closed). rewrite reset_ids by done. rewrite event_closed, reset_closed, Hc.
    destruct ev; by rewrite ?app_nil_r, <- ?app_assoc.
Qed.

(** C20: Whatever the clock does and in whatever order requests, replies, ticks
    and the end of the loop come: the requests handed to it, each once, are
    answered at most once, and those not yet answered are exactly those that
    still wait; when the loop ends all are answered. *)
Theorem answered_once rs :
  NoDup (added rs false) →
  NoDup (answered (loop_run rs loop_init)) ∧
  (∀ i, i ∈ added rs false ↔ i ∈ answered (loop_run rs loop_init) ∨ i ∈ waiting (loop_run rs loop_init)) ∧
  (∀ i, ¬ (i ∈ answered (loop_run rs loop_init) ∧ i ∈ waiting (loop_run rs loop_init))).
Proof.
  intros Hnd. pose proof (run_ids rs loop_init) as Hp. change (ids loop_init ++ added rs (lp_closed loop_init)) with (added rs false) in Hp.
  rewrite <- Hp in Hnd. apply NoDup_app in Hnd as (H1 & H2 & _). split; [done|]. split.
  - intros i. rewrite <- Hp. apply elem_of_app.
  - intros i [Ha Hw]. by apply (H2 i).
Qed.

(** ** While requests wait, the timer is set *)

(** Times that do not go back, from [now] on; [last_time] is the last. *)
Fixpoint monotone (now : Z) (rs : list (Z * Z * event)) : Prop :=
  match rs with
  | [] => True
  | (t, t', _) :: rs => (now ≤ t ≤ t')%Z ∧ monotone t' rs
  end.
Definition last_time (now : Z) (rs : list (Z * Z * event)) : Z := foldl (λ _ r, r.1.2) now rs.

Definition by_deadline : relation pending := λ p q, (pd_deadline p ≤ pd_deadline q)%Z.

Record armed (now : Z) s : Prop := {
  ar_sorted : StronglySorted by_deadline (lp_list s);
  ar_soon : Forall (λ p, (pd_deadline p ≤ now + respTimeout)%Z) (lp_list s);
  ar_next : ∀ i, lp_next s = Some i →
    (∃ p rest, lp_list s = p :: rest ∧ pd_id p = i ∧ lp_timer s = Some (pd_deadline p)) ∨ i ∈ answered s
}.

Lemma reset_armed now t s : (now ≤ t)%Z → armed now s → NoDup (ids s) → lp_closed s = false →
  armed t (resetTimeout t s) ∧ lp_list (resetTimeout t s) = lp_list s ∧
  ∀ p rest, lp_list s = p :: rest → lp_timer (resetTimeout t s) = Some (pd_deadline p).
Proof.
  intros Ht [Hs Hd Hn] Hnd Hc. assert (Forall (λ p, (pd_deadline p ≤ t + respTimeout)%Z) (lp_list s)) as Hd'.
  { eapply Forall_impl; [exact Hd|]. cbn. intros p. lia. }
  unfold resetTimeout. destruct (lp_list s) as [|p rest] eqn:El.
  { split; [split; rewrite ?El; auto; by constructor|]. by rewrite El. }
  case_decide as Hnext.
  - destruct (Hn _ Hnext) as [(q & rest' & Eq & Hid & Htm)|Ha].
    + injection Eq as <- <-. split; [split; rewrite ?El; auto|]. split; [done|]. by intros p' rest' [= <- <-].
    + exfalso. unfold ids, waiting in Hnd. rewrite Hc, El in Hnd. apply NoDup_app in Hnd as (_ & Hx & _).
      apply (Hx _ Ha). by left.
  - apply Forall_cons in Hd' as Hd2. destruct (Z.ltb_spec (pd_deadline p - t) (2 * respTimeout));
      [|unfold respTimeout in *; lia].
    split; [split; cbn; auto; intros i [= <-]; left; by exists p, rest|]. split; [done|]. by intros p' rest' [= <- <-].
Qed.

Lemma match_reply_sublist from ptype data l :
  let l' := (match_reply from ptype data l).1.1.1 in
  (StronglySorted by_deadline l → StronglySorted by_deadline l') ∧
  (∀ P : Z → Prop, Forall (λ p, P (pd_deadline p)) l → Forall (λ p, P (pd_deadline p)) l').
Proof.
  induction l as [|p l IH]; [by cbn|]. cbn [match_reply].
  destruct (match_reply from ptype data l) as [[[l' m] d] es]. cbn in IH. destruct IH as [IH1 IH2].
  assert (∀ q, pd_deadline q = pd_deadline p → StronglySorted by_deadline (p :: l) → StronglySorted by_deadline (q :: l')) as Hss.
  { intros q Eq Hss. apply StronglySorted_inv in Hss as [H1 H2]. constructor; [by apply IH1|].
    unfold by_deadline in *. rewrite Eq. by apply (IH2 (λ d, pd_deadline p ≤ d)%Z). }
  case_decide as Hm; [destruct (callback (pd_wait p) data) as [[w eff] [|]]|]; cbn.
  - split; [intros Hs; by apply StronglySorted_inv in Hs as []|intros P HP; by apply Forall_cons in HP as []].
  - split; [by apply (Hss (set_wait w p))|]. intros P HP. apply Forall_cons in HP as [? ?]. constructor; auto.
  - split; [by apply Hss|]. intros P HP. apply Forall_cons in HP as [? ?]. constructor; auto.
Qed.

Lemma first_expired_sublist now l :
  let l' := (first_expired now l).1 in
  (StronglySorted by_deadline l → StronglySorted by_deadline l') ∧
  (∀ P : Z → Prop, Forall (λ p, P (pd_deadline p)) l → Forall (λ p, P (pd_deadline p)) l').
Proof.
  induction l as [|p l IH]; [by cbn|]. cbn [first_expired]. destruct (pd_deadline p <=? now)%Z.
  - cbn. split; [intros Hs; by apply StronglySorted_inv in Hs as []|intros P HP; by apply Forall_cons in HP as []].
  - destruct (first_expired now l) as [l' e]. cbn in *. destruct IH as [IH1 IH2]. split.
    + intros Hs. apply StronglySorted_inv in Hs as [H1 H2]. constructor; [by apply IH1|].
      by apply (IH2 (λ d, pd_deadline p ≤ d)%Z).
    + intros P HP. apply Forall_cons in HP as [? ?]. constructor; auto.
Qed.

(** The front stays, or it is answered. *)
Lemma match_reply_front from ptype data p l :
  let '(l', _, d, _) := match_reply from ptype data (p :: l) in
  (∃ q rest, l' = q :: rest ∧ pd_id q = pd_id p ∧ pd_deadline q = pd_deadline p) ∨ (∃ q, d = Some q ∧ pd_id q = pd_id p).
Proof.
  cbn [match_reply]. destruct (match_reply from ptype data l) as [[[l' m] d] es].
  case_decide; [destruct (callback (pd_wait p) data) as [[w eff] [|]]|]; [right; by eexists|left; by do 2 eexists..].
Qed.

Lemma event_answered t' ev s i : i ∈ answered s → i ∈ answered (loop_event t' ev s).
Proof.
  unfold answered. intros Hi. destruct ev as [p|from ptype data| |]; cbn.
  - done.
  - unfold gotreply. destruct (match_reply _ _ _ _) as [[[l m] d] es]. cbn. rewrite fmap_app. apply elem_of_app. by left.
  - unfold timeout. destruct (first_expired _ _). destruct (_ <? _)%Z; cbn; rewrite fmap_app; apply elem_of_app; by left.
  - rewrite fmap_app. apply elem_of_app. by left.
Qed.

Lemma sorted_snoc (l : list pending) p : StronglySorted by_deadline l → Forall (λ q, (pd_deadline q ≤ pd_deadline p)%Z) l →
  StronglySorted by_deadline (l ++ [p]).
Proof.
  induction l as [|q l IH]; intros Hs Hf; cbn; [by repeat constructor|].
  apply StronglySorted_inv in Hs as [Hs Hq]. apply Forall_cons in Hf as [Hp Hf].
  constructor; [by apply IH|]. apply Forall_app. split; [done|]. by constructor.
Qed.

Lemma event_armed t t' ev s : (t ≤ t')%Z → armed t s → armed t' (loop_event t' ev s).
Proof.
  intros Ht [Hs Hd Hn]. assert (Forall (λ p, (pd_deadline p ≤ t' + respTimeout)%Z) (lp_list s)) as Hd'.
  { eapply Forall_impl; [exact Hd|]. cbn. intros p. lia. }
  destruct ev as [p|from ptype data| |].
  - split; cbn.
    + by apply sorted_snoc.
    + apply Forall_app. split; [done|]. constructor; [|done]. cbn. lia.
    + intros i Hi. destruct (Hn i Hi) as [(q & rest & -> & Hq)|Ha]; [left; by do 2 eexists|by right].
  - pose proof (match_reply_sublist from ptype data (lp_list s)) as [H1 H2].
    pose proof (event_answered t' (EvReply from ptype data) s) as Hans. cbn [loop_event] in *. unfold gotreply in *.
    destruct (match_reply from ptype data (lp_list s)) as [[[l m] d] es] eqn:Em. cbn in *. split; cbn.
    + by apply H1.
    + by apply (H2 (λ d, (d ≤ t' + respTimeout)%Z)).
    + intros i Hi. destruct (Hn i Hi) as [(q & rest & Eq & Hq & Htm)|Ha]; [|right; by apply Hans].
      pose proof (match_reply_front from ptype data q rest) as Hf. rewrite <- Eq, Em in Hf.
      destruct Hf as [(q' & rest' & -> & Hid & Hdl)|(q' & -> & Hid)].
      * left. exists q', rest'. split; [done|]. split; congruence.
      * right. unfold answered. cbn. rewrite fmap_app. apply elem_of_app. right. cbn. rewrite Hid, Hq. by left.
  - pose proof (first_expired_sublist t' (lp_list s)) as [H1 H2]. cbn. unfold timeout.
    destruct (first_expired t' (lp_list s)) as [l e]. cbn in *.
    destruct (_ <? _)%Z; (split; cbn; [by apply H1|by apply (H2 (λ d, (d ≤ t' + respTimeout)%Z))|done]).
  - split; cbn; [done..|]. intros i Hi. destruct (Hn i Hi) as [Hl|Ha]; [by left|].
    right. by apply (event_answered t' EvClose).
Qed.

Lemma closed_run rs s : lp_closed s = true → loop_run rs s = s.
Proof. intros Hc. induction rs as [|r rs IH]; [done|]. unfold loop_run in *. cbn [foldl]. assert (loop_round r s = s) as -> by (unfold loop_round; by rewrite Hc). done. Qed.

Lemma run_armed now rs s : monotone now rs → armed now s → NoDup (ids s ++ added rs (lp_closed s)) →
  armed (last_time now rs) (loop_run rs s) ∨ lp_closed (loop_run rs s) = true.
Proof.
  revert now s. induction rs as [|[[t t'] ev] rs IH]; intros now s Hm Ha Hnd; [by left|].
  destruct Hm as [Ht Hm]. change (loop_run ((t, t', ev) :: rs) s) with (loop_run rs (loop_round (t, t', ev) s)).
  destruct (lp_closed s) eqn:Hc.
  { right. unfold loop_round. rewrite Hc. by rewrite closed_run. }
  unfold loop_round. rewrite Hc. cbn [fst snd]. apply (IH t').
  - done.
  - apply (event_armed t); [lia|]. apply (reset_armed now); [lia|done| |done].
    apply NoDup_app in Hnd as (Hnd & _). done.
  - rewrite event_ids by (by rewrite reset_closed). rewrite reset_ids by done.
    rewrite event_closed, reset_closed, Hc. cbn [added] in Hnd.
    destruct ev; rewrite ?app_nil_r in *; rewrite <- ?app_assoc; done.
Qed.

Lemma init_armed now : armed now loop_init.
Proof. split; cbn; [constructor|constructor|done]. Qed.

Lemma tick_front now t s p rest :
  (now ≤ t)%Z → armed now s → NoDup (ids s) → lp_closed s = false → lp_list s = p :: rest → (pd_deadline p ≤ t)%Z →
  let s' := loop_round (t, t, EvTick) s in
  armed t s' ∧ lp_closed s' = false ∧ lp_list s' = rest ∧ ids s' ≡ₚ ids s.
Proof.
  intros Ht Ha Hnd Hc El Hp. destruct (reset_armed now t s Ht Ha Hnd Hc) as (Ha' & Hl & _).
  cbn. unfold loop_round. rewrite Hc. cbn [fst snd]. split; [by apply (event_armed t)|].
  split; [by rewrite event_closed, reset_closed|]. split.
  - cbn. unfold timeout. rewrite Hl, El. cbn [first_expired]. rewrite (proj2 (Z.leb_le _ _) Hp). by destruct (_ <? _)%Z.
  - rewrite event_ids by (by rewrite reset_closed). rewrite app_nil_r. by apply reset_ids.
Qed.

Lemma ticks now t s :
  (now ≤ t)%Z → armed now s → NoDup (ids s) → lp_closed s = false → Forall (λ p, (pd_deadline p ≤ t)%Z) (lp_list s) →
  let s' := loop_run (replicate (length (lp_list s)) (t, t, EvTick)) s in
  lp_list s' = [] ∧ lp_closed s' = false ∧ ids s' ≡ₚ ids s.
Proof.
  intros Ht Ha Hnd Hc Hd. remember (lp_list s) as l eqn:El. symmetry in El. revert now s Ht Ha Hnd Hc El.
  induction Hd as [|p l Hp Hd IH]; intros now s Ht Ha Hnd Hc El; [done|].
  destruct (tick_front now t s p l Ht Ha Hnd Hc El Hp) as (Ha' & Hc' & Hl' & Hids).
  cbn [length replicate].
  change (loop_run ((t, t, EvTick) :: replicate (length l) (t, t, EvTick)) s) with (loop_run (replicate (length l) (t, t, EvTick)) (loop_round (t, t, EvTick) s)).
  destruct (IH t (loop_round (t, t, EvTick) s)) as (E1 & E2 & E3); [lia|done|by rewrite Hids|done|done|].
  split; [done|]. split; [done|]. by rewrite E3.
Qed.

(** C36: When the clock does not go back, no reset of the timer drops a request,
    and whenever the loop waits with requests in its list the timer is set for
    the deadline of the first, which is the earliest; ticks half a second later,
    as many as there are requests, leave every request answered. *)
Theorem replies_armed now rs t :
  monotone now rs → NoDup (added rs false) → (last_time now rs ≤ t)%Z →
  let s := loop_run rs loop_init in
  lp_closed s = false →
  lp_list (resetTimeout t s) = lp_list s ∧
  (∀ p rest, lp_list s = p :: rest →
     lp_timer (resetTimeout t s) = Some (pd_deadline p) ∧ Forall (by_deadline p) rest) ∧
  (let s' := loop_run (replicate (length (lp_list s)) (t + respTimeout, t + respTimeout, EvTick)%Z) s in
   lp_list s' = [] ∧ ∀ i, i ∈ added rs false → i ∈ answered s').
Proof.
  intros Hm Hnd Ht s Hc. pose proof (run_ids rs loop_init) as Hids. fold s in Hids.
  change (ids loop_init ++ added rs (lp_closed loop_init)) with (added rs false) in Hids.
  assert (NoDup (ids s)) as Hnd' by (by rewrite Hids).
  destruct (run_armed now rs loop_init Hm (init_armed now) Hnd) as [Ha|Hcl]; [fold s in Ha|fold s in Hcl; congruence].
  destruct (reset_armed _ t s Ht Ha Hnd' Hc) as (_ & Hl & Htm). split; [done|]. split.
  - intros p rest El. split; [by apply (Htm p rest)|]. destruct Ha as [Hs _ _]. rewrite El in Hs. by apply StronglySorted_inv in Hs as [].
  - destruct (ticks (last_time now rs) (t + respTimeout) s) as (E1 & E2 & E3); try done.
    { unfold respTimeout. lia. }
    { destruct Ha as [_ Hd _]. eapply Forall_impl; [exact Hd|]. cbn. intros p. lia. }
    split; [done|]. intros i Hi. rewrite <- Hids, <- E3 in Hi. unfold ids, waiting in Hi. rewrite E2, E1 in Hi.
    by rewrite app_nil_r in Hi.
Qed.

(** A request whose deadline is far ahead, because the clock went back, is
    answered; the others stay, without a timer. *)
Lemma clock_warp_disarms t s p q rest :
  lp_list s = p :: q :: rest → lp_next s ≠ Some (pd_id p) → (2 * respTimeout ≤ pd_deadline p - t)%Z →
  lp_list (resetTimeout t s) = q :: rest ∧ lp_timer (resetTimeout t s) = None ∧
  lp_answers (resetTimeout t s) = lp_answers s ++ [(p, AnsClockWarp)].
Proof.
  intros El Hn Hd. unfold resetTimeout. rewrite El, decide_False by done.
  destruct (Z.ltb_spec (pd_deadline p - t) (2 * respTimeout)); [lia|done].
Qed.

End loop.

(** ** Witnesses *)

Definition ul_callback (w : bool) (_ : unit) : bool * list unit * bool := (w, [], w).
Definition ul_pending (i : positive) (w : bool) : pending (W := bool) := MkPending i [x01] 2 0 w.
(** Two requests; a reply that completes the second; a tick too early. *)
Definition ul_rounds : list (Z * Z * event (W := bool) (R := unit)) :=
  [(1, 2, EvAdd (ul_pending 1 false)); (3, 4, EvAdd (ul_pending 2 true)); (5, 6, EvReply [x01] 2 tt); (7, 8, EvTick)]%Z.

Lemma answered_once_witness : NoDup (answered (loop_run ul_callback ul_rounds loop_init)) ∧
  answered (loop_run ul_callback ul_rounds loop_init) = [2%positive].
Proof.
  split; [|reflexivity].
  apply (answered_once ul_callback ul_rounds). apply NoDup_cons. split; [|apply NoDup_singleton].
  intros Hi. apply list_elem_of_singleton in Hi. discriminate Hi.
Defined.

Lemma replies_armed_witness :
  lp_timer (resetTimeout 10 (loop_run ul_callback ul_rounds loop_init)) = Some (2 + respTimeout)%Z ∧
  1%positive ∈ answered (loop_run ul_callback
    (replicate 1 (10 + respTimeout, 10 + respTimeout, EvTick)%Z) (loop_run ul_callback ul_rounds loop_init)).
Proof.
  destruct (replies_armed ul_callback 0 ul_rounds 10) as (_ & Htm & _ & Hans).
  - cbn. lia.
  - apply NoDup_cons. split; [|apply NoDup_singleton].
    intros Hi. apply list_elem_of_singleton in Hi. discriminate Hi.
  - cbn. lia.
  - reflexivity.
  - split; [exact (proj1 (Htm _ _ eq_refl))|]. apply Hans. left.
Defined.
