(* ===== verification/Udp.v ===== *)
(** * The packets of discovery

    [p2p/discover/udp.go]: nodes find each other by four kinds of signed
    packets.  A node that pings is pinged back; the answer, which carries the
    hash of the ping, shows that the node receives at its address and makes a
    bond; only nodes with a bond get an answer to [findnode]. *)

From S2P Require Import Prelude CommonTypes LevelDB Netutil Discover KadTable NodeDB RlpxFrame RlpxHandshake UdpLoop.

Set Default Goal Selector "!".
Set Default Proof Using "Type".

(** ** Packets *)

Definition expiration : Z := 20 * second.
Definition macSize : nat := 256 / 8.
Definition sigSize : nat := 520 / 8.
Definition headSize : nat := macSize + sigSize.
Definition maxPacketSize : nat := 1280.

Record UDPAddr := MkAddr { ua_IP : IP; ua_Port : Z }.
Record rpcEndpoint := MkEndpoint { ep_IP : IP; ep_UDP : Z; ep_TCP : Z }.
Record rpcNode := MkRpcNode { rn_IP : IP; rn_UDP : Z; rn_TCP : Z; rn_ID : NodeID }.

Inductive packet :=
  | ping (Version : Z) (From To : rpcEndpoint) (Expiration : Z) (Rest : list bytes)
  | pong (To : rpcEndpoint) (ReplyTok : bytes) (Expiration : Z) (Rest : list bytes)
  | findnode (Target : NodeID) (Expiration : Z) (Rest : list bytes)
  | neighbors (Nodes : list rpcNode) (Expiration : Z) (Rest : list bytes).

Definition pingPacket : Z := 1.
Definition pongPacket : Z := 2.
Definition findnodePacket : Z := 3.
Definition neighborsPacket : Z := 4.
Definition packet_type (p : packet) : Z :=
  match p with ping _ _ _ _ _ => pingPacket | pong _ _ _ _ => pongPacket | findnode _ _ _ => findnodePacket
  | neighbors _ _ _ => neighborsPacket end.

(** What the types of the fields give; the program sends no additional fields. *)
Definition in_u16 (z : Z) : Prop := (0 ≤ z < 2 ^ 16)%Z.
Definition endpoint_wf (e : rpcEndpoint) : Prop := in_u16 (ep_UDP e) ∧ in_u16 (ep_TCP e).
Definition node_rpc_wf (n : rpcNode) : Prop := in_u16 (rn_UDP n) ∧ in_u16 (rn_TCP n) ∧ nodeid_wf (rn_ID n).
Definition packet_wf (p : packet) : Prop :=
  match p with
  | ping v f t e rest => in_u64 v ∧ endpoint_wf f ∧ endpoint_wf t ∧ in_u64 e ∧ rest = []
  | pong t _ e rest => endpoint_wf t ∧ in_u64 e ∧ rest = []
  | findnode id e rest => nodeid_wf id ∧ in_u64 e ∧ rest = []
  | neighbors ns e rest => Forall node_rpc_wf ns ∧ in_u64 e ∧ rest = []
  end.

(** The bytes RLP puts before [n] bytes of a list. *)
Definition rlp_head (n : nat) : nat := if decide (n < 56) then 1 else if decide (n < 256) then 2 else 3.
(** The size of [neighbors] with [n] nodes, each of at most 16 + 1, 2 + 1, 2 + 1
    and 64 + 2 bytes and the two of the list, and an expiration of nine. *)
Definition neighbors_size (n : nat) : nat :=
  let l := n * 91 in let t := l + rlp_head l + 9 in t + rlp_head t.
Definition maxSizeNode : rpcNode := MkRpcNode (replicate 16 x00) (2 ^ 16 - 1) (2 ^ 16 - 1) EmptyNodeID.

(** RLP of the packets: decoding one off a stream ignores what follows. *)
Class PacketRLP := {
  rlp_packet : packet → outcome bytes;
  rlp_packet_dec : Z → bytes → outcome packet;
  rlp_packet_total p : packet_wf p → ∃ b, rlp_packet p = Ok b;
  rlp_packet_roundtrip p b tl : rlp_packet p = Ok b → packet_wf p → rlp_packet_dec (packet_type p) (b ++ tl) = Ok p;
  rlp_neighbors_size ns e : length ns ≤ 20 → Forall node_rpc_wf ns → Forall (λ n, length (rn_IP n) ≤ 16) ns → in_u64 e →
    ∃ b, rlp_packet (neighbors ns e []) = Ok b ∧ length b ≤ neighbors_size (length ns);
  rlp_max_size n : n ≤ 20 → ∃ b, rlp_packet (neighbors (replicate n maxSizeNode) (2 ^ 64 - 1) []) = Ok b ∧
    length b = neighbors_size n
}.

Inductive UdpErr := errPacketTooSmall | errBadHash | errExpired | errUnsolicitedReply | errUnknownNode | errUdpOther (e : GoErr).

Section Udp.
Context `{Ecies, PacketRLP} {S : Type} `{LevelDB S}.

Definition makeEndpoint (addr : UDPAddr) (tcpPort : Z) : rpcEndpoint :=
  let ip := match To4 (ua_IP addr) with Some ip => ip | None => To16 (ua_IP addr) end in
  MkEndpoint ip (ua_Port addr mod 2 ^ 16)%Z tcpPort.

Definition encodePacket (priv : PrvKey) (req : packet) : outcome (bytes * bytes) :=
  body ← rlp_packet req;
  let signed := byte_of_Z (packet_type req) :: body in
  sig ← crypto_Sign (Keccak256 signed) priv;
  let packet := go_copy (replicate sigSize x00) sig ++ signed in
  let hash := Keccak256 packet in
  Ok (go_copy (replicate macSize x00) hash ++ packet, hash).

Definition decodePacket (buf : bytes) : (packet * NodeID * bytes) + UdpErr :=
  if decide (length buf < headSize + 1) then inr errPacketTooSmall else
  let hash := take macSize buf in
  let sig := take sigSize (drop macSize buf) in
  let sigdata := drop headSize buf in
  let shouldhash := Keccak256 (drop macSize buf) in
  if negb (bool_decide (hash = shouldhash)) then inr errBadHash else
  match recoverNodeID (Keccak256 (drop headSize buf)) sig with
  | Ok fromID =>
    match sigdata with
    | [] => inr (errUdpOther ErrExternal)
    | x :: body =>
      let ptype := byteZ x in
      if bool_decide (ptype ∈ [pingPacket; pongPacket; findnodePacket; neighborsPacket]) then
        match rlp_packet_dec ptype body with
        | Ok req => inl (req, fromID, hash)
        | Err e => inr (errUdpOther e)
        | Panic => inr (errUdpOther ErrExternal)
        end
      else inr (errUdpOther ErrExternal)
    end
  | Err e => inr (errUdpOther e)
  | Panic => inr (errUdpOther ErrExternal)
  end.

(** [init]: packets with one node more are tried until one is too large. *)
Fixpoint max_loop (fuel n : nat) : nat :=
  match fuel with
  | O => n
  | Datatypes.S fuel =>
    match rlp_packet (neighbors (replicate (n + 1) maxSizeNode) (2 ^ 64 - 1) []) with
    | Ok b => if decide (maxPacketSize ≤ headSize + length b + 1) then n else max_loop fuel (n + 1)
    | _ => n
    end
  end.
Definition maxNeighbors : nat := max_loop 1280 0.

(** ** Waiting for replies

    What the callbacks remember: the hash of the ping and the node to add when
    it is answered; nothing; the address asked, the nodes so far and their
    number, bad ones included.  [snd] of a reply gives the addresses of new
    nodes. *)
Inductive wait :=
  | WaitPong (hash : bytes) (add : option Node)
  | WaitPing
  | WaitNeighbors (toaddr : UDPAddr) (nodes : list Node) (nreceived : nat).
Abbreviation reply := (packet * (nat → positive))%type.
Abbreviation uloop := (loop (W := wait)).

Variable netrestrict : option Netlist.
Definition nodeFromRPC (new : positive) (sender : UDPAddr) (rn : rpcNode) : option Node :=
  if (rn_UDP rn <=? 1024)%Z then None else
  match CheckRelayIP (ua_IP sender) (rn_IP rn) with
  | Some _ => None
  | None =>
    if match netrestrict with Some l => negb (Netlist_Contains (Some l) (rn_IP rn)) | None => false end then None else
    let n := NewNode new (rn_ID rn) (rn_IP rn) (rn_UDP rn) (rn_TCP rn) in
    match validateComplete n with Some _ => None | None => Some n end
  end.
Definition nodeToRPC (n : Node) : rpcNode := MkRpcNode (n_IP n) (n_UDP n) (n_TCP n) (n_ID n).

Definition callback (w : wait) (r : reply) : wait * list Node * bool :=
  match w, r.1 with
  | WaitPong hash add, pong _ tok _ _ =>
    let ok := bool_decide (tok = hash) in (w, if ok then match add with Some n => [n] | None => [] end else [], ok)
  | WaitPing, _ => (w, [], true)
  | WaitNeighbors toaddr nodes nreceived, neighbors rns _ _ =>
    let nodes := nodes ++ omap (λ '(i, rn), nodeFromRPC (r.2 (nreceived + i)) toaddr rn) (zip (seq 0 (length rns)) rns) in
    let nreceived := nreceived + length rns in
    (WaitNeighbors toaddr nodes nreceived, [], bool_decide (bucketSize ≤ nreceived))
  | _, _ => (w, [], false)
  end.

(** ** The state of a node *)

Record udp := MkUdp {
  u_priv : PrvKey; u_endpoint : rpcEndpoint;
  u_db : S; u_tab : Table; u_loop : uloop;
  u_out : list (UDPAddr * bytes)
}.
Definition set_udb d u := MkUdp (u_priv u) (u_endpoint u) d (u_tab u) (u_loop u) (u_out u).
Definition set_utab t u := MkUdp (u_priv u) (u_endpoint u) (u_db u) t (u_loop u) (u_out u).
Definition set_uloop l u := MkUdp (u_priv u) (u_endpoint u) (u_db u) (u_tab u) l (u_out u).
Definition set_uout o u := MkUdp (u_priv u) (u_endpoint u) (u_db u) (u_tab u) (u_loop u) o.

(** [now] is the clock while a packet is handled; an error of sending is
    ignored by those who call [send]. *)
Definition write (toaddr : UDPAddr) (packet : bytes) (u : udp) : udp := set_uout (u_out u ++ [(toaddr, packet)]) u.
Definition send (toaddr : UDPAddr) (req : packet) (u : udp) : udp :=
  match encodePacket (u_priv u) req with Ok (packet, _) => write toaddr packet u | _ => u end.
Definition expires (now : Z) : Z := u64 ((now + expiration) / second).
Definition expired (ts now : Z) : bool := (i64 ts * second <? now)%Z.

Definition tab_add (now : Z) (nodes : list Node) (u : udp) : udp :=
  set_utab (foldl (λ t n, addThroughPing t n now) (u_tab u) nodes) u.

(** [handleReply]: the loop calls the callbacks. *)
Definition handleReply (now : Z) (from : NodeID) (req : packet) (new : nat → positive) (u : udp) : udp * bool :=
  if lp_closed (u_loop u) then (u, false) else
  let '(l, matched, nodes) := gotreply callback from (packet_type req) (req, new) (resetTimeout now (u_loop u)) in
  (tab_add now nodes (set_uloop l u), matched).

(** [pending] adds a request with the address [id]. *)
Definition add_pending (now : Z) (id : positive) (from : NodeID) (ptype : Z) (w : wait) (u : udp) : udp :=
  if lp_closed (u_loop u) then u
  else set_uloop (addpending now (MkPending id from ptype 0 w) (resetTimeout now (u_loop u))) u.

Definition sendPing (now : Z) (id : positive) (toid : NodeID) (toaddr : UDPAddr) (add : option Node) (u : udp) : udp :=
  let req := ping 4 (u_endpoint u) (makeEndpoint toaddr 0) (expires now) [] in
  match encodePacket (u_priv u) req with
  | Ok (packet, hash) => write toaddr packet (add_pending now id toid pongPacket (WaitPong hash add) u)
  | _ => u
  end.

(** The two parts of [findnode]: whether a ping is solicited first, and the
    request. *)
Definition findnode_pings (now : Z) (toid : NodeID) (u : udp) : bool :=
  (nodeDBNodeExpiration <? now - lastPingReceived (u_db u) toid)%Z.
Definition send_findnode (now : Z) (id : positive) (toid : NodeID) (toaddr : UDPAddr) (target : NodeID) (u : udp) : udp :=
  send toaddr (findnode target (expires now) []) (add_pending now id toid neighborsPacket (WaitNeighbors toaddr [] 0) u).

(** ** Handling packets *)

(** The packets [findnode] is answered with. *)
Fixpoint neighbor_chunks (from : UDPAddr) (acc : list rpcNode) (nodes : list Node) : list (list rpcNode) * list rpcNode :=
  match nodes with
  | [] => ([], acc)
  | n :: nodes =>
    let acc := match CheckRelayIP (ua_IP from) (n_IP n) with None => acc ++ [nodeToRPC n] | Some _ => acc end in
    if decide (length acc = maxNeighbors) then let '(cs, r) := neighbor_chunks from [] nodes in (acc :: cs, r)
    else neighbor_chunks from acc nodes
  end.
Definition neighbor_packets (from : UDPAddr) (nodes : list Node) : list (list rpcNode) :=
  let '(cs, r) := neighbor_chunks from [] nodes in
  cs ++ if decide (0 < length r ∨ cs = []) then [r] else [].

Definition handle (now : Z) (id new : positive) (req : packet) (from : UDPAddr) (fromID : NodeID) (mac : bytes)
    (fresh : nat → positive) (u : udp) : udp * option UdpErr :=
  match req with
  | ping _ From _ Expiration _ =>
    if expired Expiration now then (u, Some errExpired) else
    let u := send from (pong (makeEndpoint from (ep_TCP From)) mac (expires now) []) u in
    let '(u, _) := handleReply now fromID req fresh u in
    let n := NewNode new fromID (ua_IP from) (ua_Port from mod 2 ^ 16)%Z (ep_TCP From) in
    let u := if (nodeDBNodeExpiration <? now - lastPongReceived (u_db u) fromID)%Z then sendPing now id fromID from (Some n) u
             else tab_add now [n] u in
    (set_udb (updateLastPingReceived (u_db u) fromID now).1 u, None)
  | pong _ _ Expiration _ =>
    if expired Expiration now then (u, Some errExpired) else
    let '(u, matched) := handleReply now fromID req fresh u in
    if matched then (set_udb (updateLastPongReceived (u_db u) fromID now).1 u, None) else (u, Some errUnsolicitedReply)
  | findnode Target Expiration _ =>
    if expired Expiration now then (u, Some errExpired) else
    if negb (hasBond (u_db u) fromID now) then (u, Some errUnknownNode) else
    let nodes := bd_entries (closest (u_tab u) (Keccak256 Target) bucketSize) in
    (foldl (λ u ns, send from (neighbors ns (expires now) []) u) u (neighbor_packets from nodes), None)
  | neighbors _ Expiration _ =>
    if expired Expiration now then (u, Some errExpired) else
    let '(u, matched) := handleReply now fromID req fresh u in
    (u, if matched then None else Some errUnsolicitedReply)
  end.

Definition handlePacket (now : Z) (id new : positive) (from : UDPAddr) (buf : bytes) (fresh : nat → positive) (u : udp) :
    udp * option UdpErr :=
  match decodePacket buf with
  | inr e => (u, Some e)
  | inl (req, fromID, hash) => handle now id new req from fromID hash fresh u
  end.

(** ** Encoding *)

Lemma packet_type_byte p : byteZ (byte_of_Z (packet_type p)) = packet_type p.
Proof. by destruct p. Qed.

Lemma encodePacket_inv prv req pkt hash : encodePacket prv req = Ok (pkt, hash) →
  ∃ body sig, rlp_packet req = Ok body ∧ length sig = sigSize ∧ length hash = macSize ∧
    hash = Keccak256 (sig ++ byte_of_Z (packet_type req) :: body) ∧
    pkt = hash ++ sig ++ byte_of_Z (packet_type req) :: body ∧
    RecoverPubkey (Keccak256 (byte_of_Z (packet_type req) :: body)) sig = Ok (elliptic_Marshal (pub_of prv)).
Proof.
  unfold encodePacket. intros E. destruct (rlp_packet req) as [body| |]; cbn [mbind outcome_bind] in E; try done.
  destruct (crypto_Sign _ prv) as [sig| |] eqn:Es; cbn [mbind outcome_bind] in E; try done.
  destruct (sign_recovers _ _ _ Es) as [Hl Hr].
  rewrite (go_copy_full (replicate sigSize x00)) in E by (rewrite length_replicate; done).
  rewrite go_copy_full in E by (rewrite length_replicate; apply Keccak256_length).
  injection E as <- <-. exists body, sig. split_and!; try done. apply Keccak256_length.
Qed.

Lemma recover_node_id h sig p : RecoverPubkey h sig = Ok (elliptic_Marshal p) → recoverNodeID h sig = Ok (node_id p).
Proof.
  intros E. unfold recoverNodeID. rewrite E. cbn [mbind outcome_bind]. pose proof (node_id_length p) as Hl.
  unfold node_id in *. rewrite length_drop in Hl. rewrite decide_False; [done|]. rewrite Hl. unfold pubLen, SizeNodeID. cbn. lia.
Qed.

Lemma decode_encoded prv req pkt hash : encodePacket prv req = Ok (pkt, hash) → packet_wf req →
  decodePacket pkt = inl (req, node_id (pub_of prv), hash).
Proof.
  intros E Hwf. apply encodePacket_inv in E as (body & sig & Hb & Hls & Hlh & Hh & -> & Hrec).
  set (signed := byte_of_Z (packet_type req) :: body) in *.
  unfold decodePacket. rewrite decide_False.
  2:{ rewrite !length_app, Hlh, Hls. unfold headSize, macSize, sigSize, signed. cbn. lia. }
  rewrite (take_app_length' hash _ macSize), (drop_app_length' hash _ macSize) by done.
  rewrite <- Hh, bool_decide_true by done. cbn [negb].
  assert (drop headSize (hash ++ sig ++ signed) = signed) as ->.
  { unfold headSize. rewrite <- drop_drop. rewrite (drop_app_length' hash _ macSize), (drop_app_length' sig _ sigSize) by done. done. }
  rewrite (take_app_length' sig _ sigSize) by done. rewrite (recover_node_id _ _ _ Hrec). unfold signed.
  rewrite packet_type_byte. rewrite bool_decide_true by (destruct req; cbn; set_solver).
  pose proof (rlp_packet_roundtrip req body [] Hb Hwf) as Hr. rewrite app_nil_r in Hr. by rewrite Hr.
Qed.

(** C22: A packet that a node encodes and signs is decoded to the same packet,
    the node's identifier and the hash; and whatever is decoded carries the
    hash of its signature and content, is signed by the node it is attributed
    to, and has room for a signature and a type. *)
Theorem packet_roundtrip :
  (∀ prv req pkt hash, encodePacket prv req = Ok (pkt, hash) → packet_wf req →
     decodePacket pkt = inl (req, node_id (pub_of prv), hash)) ∧
  (∀ buf req id hash, decodePacket buf = inl (req, id, hash) →
     headSize < length buf ∧ hash = take macSize buf ∧ hash = Keccak256 (drop macSize buf) ∧
     recoverNodeID (Keccak256 (drop headSize buf)) (take sigSize (drop macSize buf)) = Ok id).
Proof.
  split.
  - intros prv req pkt hash E Hwf. by apply decode_encoded.
  - intros buf req id hash E. unfold decodePacket in E. case_decide as Hl; [done|].
    case_bool_decide as Hh; [|done]. cbn [negb] in E.
    destruct (recoverNodeID _ _) as [fromID| |] eqn:Er; [|done..].
    destruct (drop headSize buf) as [|x body]; [done|]. case_bool_decide; [|done].
    destruct (rlp_packet_dec _ body) as [req'| |]; [|done..]. injection E as <- <- <-. split_and!; [lia|done..].
Qed.

(** ** Replies *)

Lemma match_reply_matched from ptype data (l : list (pending (W := wait))) :
  (match_reply callback from ptype data l).1.1.2 = true ↔ ∃ p, p ∈ l ∧ pd_from p = from ∧ pd_ptype p = ptype.
Proof.
  induction l as [|p l IH]; cbn [match_reply].
  - split; [done|]. intros (p & Hp & _). by apply elem_of_nil in Hp.
  - destruct (match_reply callback from ptype data l) as [[[l' m] d] es]. cbn in IH. case_decide as Hm.
    + destruct (callback (pd_wait p) data) as [[w eff] [|]]; cbn; (split; [|done]); intros _; exists p;
        (split; [by left|done]).
    + cbn. rewrite IH. split; intros (q & Hq & Hf); [exists q; split; [by right|done]|].
      apply elem_of_cons in Hq as [->|Hq]; [by destruct Hm|by exists q].
Qed.

Lemma handleReply_matched now from req new u :
  lp_closed (u_loop u) = false →
  ((handleReply now from req new u).2 = true ↔
   ∃ p, p ∈ lp_list (resetTimeout now (u_loop u)) ∧ pd_from p = from ∧ pd_ptype p = packet_type req).
Proof.
  intros Hc. unfold handleReply, gotreply. rewrite Hc.
  pose proof (match_reply_matched from (packet_type req) (req, new) (lp_list (resetTimeout now (u_loop u)))) as Hm.
  by destruct (match_reply _ _ _ _ _) as [[[l m] d] es].
Qed.

Lemma handleReply_db now from req new u :
  u_db (handleReply now from req new u).1 = u_db u ∧ u_out (handleReply now from req new u).1 = u_out u ∧
  u_priv (handleReply now from req new u).1 = u_priv u.
Proof. unfold handleReply. destruct (lp_closed _); [done|]. by destruct (gotreply _ _ _ _ _) as [[l m] ns]. Qed.

Lemma pong_recorded (s : S) id now t :
  healthy s → id ≠ nodeDBNilNodeID → (0 ≤ now)%Z → in_i64 (now / second) → (t < now / second * second + nodeDBNodeExpiration)%Z →
  hasBond (updateLastPongReceived s id now).1 id t = true.
Proof.
  intros Hs _ Hn Hi Ht. unfold hasBond, updateLastPongReceived, lastPongReceived.
  destruct (fetch_store s (makeKey id nodeDBDiscoverPong) (now / second) (makeKey id nodeDBDiscoverPong) Hs Hi) as (_ & _ & E).
  rewrite E, decide_True by done. apply Z.ltb_lt. lia.
Qed.

(** C27: A pong is accepted when a request for a pong of its sender waits,
    whatever hash it carries: then its time is recorded and the sender has a
    bond for a day.  Otherwise it is unsolicited and nothing is recorded.  An
    expired one is refused. *)
Theorem pong_bonds now id new to tok exp rest from fromID mac fresh u t :
  healthy (u_db u) → fromID ≠ nodeDBNilNodeID → (0 ≤ now)%Z → in_i64 (now / second) → lp_closed (u_loop u) = false →
  (t < now / second * second + nodeDBNodeExpiration)%Z →
  let r := handle now id new (pong to tok exp rest) from fromID mac fresh u in
  let asked := ∃ p, p ∈ lp_list (resetTimeout now (u_loop u)) ∧ pd_from p = fromID ∧ pd_ptype p = pongPacket in
  if expired exp now then r = (u, Some errExpired)
  else (asked → r.2 = None ∧ hasBond (u_db r.1) fromID t = true) ∧
       (¬ asked → r.2 = Some errUnsolicitedReply ∧ u_db r.1 = u_db u).
Proof.
  intros Hs Hid Hn Hi Hc Ht. cbn [handle]. destruct (expired exp now); [done|].
  pose proof (handleReply_matched now fromID (pong to tok exp rest) fresh u Hc) as Hm.
  destruct (handleReply_db now fromID (pong to tok exp rest) fresh u) as (Edb & _ & _).
  destruct (handleReply now fromID (pong to tok exp rest) fresh u) as [u' matched]. cbn [fst snd packet_type] in *. split; intros Ha.
  - rewrite (proj2 Hm Ha). split; [done|]. cbn. rewrite Edb. by apply pong_recorded.
  - destruct matched; [by destruct Ha; apply Hm|done].
Qed.

(** ** Neighbors *)

Lemma max_neighbors : maxNeighbors = 12.
Proof.
  assert (∀ k fuel n, n + k = 12 → k < fuel → max_loop fuel n = 12) as Hk.
  { induction k as [|k IH]; intros [|fuel] n Hn Hf; try lia; cbn [max_loop];
      (destruct (rlp_max_size (n + 1)) as (b & -> & ->); [lia|]).
    - assert (n = 12) as -> by lia. rewrite decide_True; [done|]. apply Nat.leb_le. vm_compute. done.
    - rewrite decide_False; [apply IH; lia|].
      assert (∀ m, m ≤ 12 → neighbors_size m ≤ 91 * 12 + 15) as Hsz.
      { intros m Hm. unfold neighbors_size, rlp_head. repeat case_decide; lia. }
      specialize (Hsz (n + 1) ltac:(lia)). change headSize with 97. unfold maxPacketSize. lia. }
  unfold maxNeighbors. apply (Hk 12 1280 0); lia.
Qed.

#[local] Opaque maxNeighbors.

Definition relayed (from : UDPAddr) (nodes : list Node) : list rpcNode :=
  nodeToRPC <$> filter (λ n, CheckRelayIP (ua_IP from) (n_IP n) = None) nodes.

Lemma chunks_spec from nodes : ∀ acc, length acc < maxNeighbors →
  let '(cs, r) := neighbor_chunks from acc nodes in
  concat cs ++ r = acc ++ relayed from nodes ∧ Forall (λ c, length c = maxNeighbors) cs ∧ length r < maxNeighbors.
Proof.
  unfold relayed. induction nodes as [|n nodes IH]; intros acc Hacc; cbn [neighbor_chunks].
  { cbn. by rewrite app_nil_r. }
  rewrite filter_cons. set (acc' := match CheckRelayIP _ _ with None => _ | Some _ => _ end).
  assert (acc' ++ relayed from nodes = acc ++ (nodeToRPC <$>
    (if decide (CheckRelayIP (ua_IP from) (n_IP n) = None)
     then n :: filter (λ n, CheckRelayIP (ua_IP from) (n_IP n) = None) nodes
     else filter (λ n, CheckRelayIP (ua_IP from) (n_IP n) = None) nodes))) as <-.
  { subst acc'. destruct (CheckRelayIP (ua_IP from) (n_IP n)); [by rewrite decide_False|].
    rewrite decide_True by done. by rewrite <- app_assoc. }
  assert (length acc' ≤ maxNeighbors) as Hl.
  { subst acc'. destruct (CheckRelayIP _ _); rewrite ?length_app; cbn; lia. }
  case_decide as Hf.
  - specialize (IH [] ltac:(cbn; rewrite max_neighbors; lia)). destruct (neighbor_chunks from [] nodes) as [cs r].
    destruct IH as (E & Hcs & Hr). cbn [concat]. rewrite <- app_assoc, E. by repeat constructor.
  - specialize (IH acc' ltac:(lia)). by destruct (neighbor_chunks from acc' nodes) as [cs r].
Qed.

Lemma packets_spec from nodes :
  concat (neighbor_packets from nodes) = relayed from nodes ∧
  Forall (λ c, length c ≤ maxNeighbors) (neighbor_packets from nodes) ∧ neighbor_packets from nodes ≠ [].
Proof.
  unfold neighbor_packets. pose proof (chunks_spec from nodes [] ltac:(cbn; rewrite max_neighbors; lia)) as Hc.
  destruct (neighbor_chunks from [] nodes) as [cs r]. destruct Hc as (E & Hcs & Hr). rewrite app_nil_l in E. split_and!.
  - rewrite concat_app, <- E. case_decide as Hd; cbn; [by rewrite app_nil_r|]. destruct r; [done|]. destruct Hd. left. cbn. lia.
  - apply Forall_app. split; [eapply Forall_impl; [exact Hcs|]; cbn; lia|]. case_decide; repeat constructor. lia.
  - destruct cs; [|done]. rewrite decide_True by by right. done.
Qed.

Lemma relayed_wf (P : Node → Prop) (Q : rpcNode → Prop) from nodes :
  Forall P nodes → (∀ n, P n → Q (nodeToRPC n)) → Forall (Forall Q) (neighbor_packets from nodes).
Proof.
  intros Hn HPQ. destruct (packets_spec from nodes) as (E & _ & _). apply Forall_concat. rewrite E. unfold relayed.
  apply Forall_fmap. apply Forall_forall. intros n Hin. apply list_elem_of_filter in Hin as [_ Hin]. apply HPQ.
  by apply (proj1 (Forall_forall P nodes) Hn).
Qed.

Definition node_sendable (n : Node) : Prop := node_rpc_wf (nodeToRPC n) ∧ length (n_IP n) ≤ 16.
Definition can_sign (prv : PrvKey) : Prop := ∀ h, ∃ sig, crypto_Sign h prv = Ok sig.

Lemma encode_ok prv req body : can_sign prv → rlp_packet req = Ok body →
  ∃ pkt hash, encodePacket prv req = Ok (pkt, hash) ∧ length pkt = headSize + 1 + length body.
Proof.
  intros Hs Hb. destruct (encodePacket prv req) as [[pkt hash]|e|] eqn:E.
  - exists pkt, hash. split; [done|]. apply encodePacket_inv in E as (body' & sig & Hb' & Hls & Hlh & _ & -> & _).
    rewrite Hb in Hb'. injection Hb' as <-. rewrite !length_app, Hls, Hlh. unfold headSize. cbn [length]. lia.
  - unfold encodePacket in E. rewrite Hb in E. cbn [mbind outcome_bind] in E.
    destruct (Hs (Keccak256 (byte_of_Z (packet_type req) :: body))) as [sig Hsig]. rewrite Hsig in E. done.
  - unfold encodePacket in E. rewrite Hb in E. cbn [mbind outcome_bind] in E.
    destruct (Hs (Keccak256 (byte_of_Z (packet_type req) :: body))) as [sig Hsig]. rewrite Hsig in E. done.
Qed.

Lemma expires_u64 now : in_u64 (expires now).
Proof. apply u64_range. Qed.

(** What is sent for one list of neighbors. *)
Definition neighbors_datagram (prv : PrvKey) (now : Z) (pkt : bytes) (ns : list rpcNode) : Prop :=
  length pkt ≤ maxPacketSize ∧
  ∃ hash, decodePacket pkt = inl (neighbors ns (expires now) [], node_id (pub_of prv), hash).

Lemma neighbors_encoded prv now ns :
  can_sign prv → length ns ≤ maxNeighbors → Forall (λ n, node_rpc_wf n ∧ length (rn_IP n) ≤ 16) ns →
  ∃ pkt hash, encodePacket prv (neighbors ns (expires now) []) = Ok (pkt, hash) ∧ neighbors_datagram prv now pkt ns.
Proof.
  intros Hs Hl Hw. rewrite max_neighbors in Hl. apply Forall_and in Hw as [Hw Hip].
  destruct (rlp_neighbors_size ns (expires now)) as (b & Hb & Hsz); [lia|done|done|apply expires_u64|].
  destruct (encode_ok prv _ b Hs Hb) as (pkt & hash & He & Hlen). exists pkt, hash. split; [done|]. split.
  - assert (neighbors_size (length ns) ≤ 91 * 12 + 15).
    { unfold neighbors_size, rlp_head. repeat case_decide; lia. }
    change headSize with 97 in Hlen. unfold maxPacketSize. lia.
  - exists hash. apply decode_encoded; [done|]. split; [done|]. split; [apply expires_u64|done].
Qed.

Lemma sends_neighbors now from chunks : ∀ u,
  can_sign (u_priv u) →
  Forall (λ c, length c ≤ maxNeighbors) chunks → Forall (Forall (λ n, node_rpc_wf n ∧ length (rn_IP n) ≤ 16)) chunks →
  ∃ pkts, foldl (λ u ns, send from (neighbors ns (expires now) []) u) u chunks = set_uout (u_out u ++ ((from,.) <$> pkts)) u ∧
    Forall2 (neighbors_datagram (u_priv u) now) pkts chunks.
Proof.
  induction chunks as [|c chunks IH]; intros u Hs Hl Hw.
  { exists []. cbn. rewrite app_nil_r. split; [by destruct u|constructor]. }
  apply Forall_cons in Hl as [Hc Hl]. apply Forall_cons in Hw as [Hcw Hw].
  destruct (neighbors_encoded (u_priv u) now c Hs Hc Hcw) as (pkt & hash & He & Hd).
  cbn [foldl]. unfold send at 2. rewrite He. destruct (IH (write from pkt u) Hs Hl Hw) as (pkts & E & Hpk).
  exists (pkt :: pkts). rewrite E. cbn. rewrite <- app_assoc. split; [done|]. by constructor.
Qed.


(** ** Ping and pong *)

Lemma reset_keeps now (s : uloop) p :
  p ∈ lp_list s → (pd_deadline p - now < 2 * respTimeout)%Z → p ∈ lp_list (resetTimeout now s).
Proof.
  intros Hp Hd. unfold resetTimeout. destruct (lp_list s) as [|q rest] eqn:El; [by apply elem_of_nil in Hp|].
  case_decide; [by rewrite El|]. destruct (Z.ltb_spec (pd_deadline q - now) (2 * respTimeout)); cbn; [done|].
  apply elem_of_cons in Hp as [->|Hp]; [lia|done].
Qed.

Lemma makeEndpoint_wf addr tcp : in_u16 tcp → endpoint_wf (makeEndpoint addr tcp).
Proof. intros Ht. split; [|done]. unfold in_u16. cbn. apply Z.mod_pos_bound. lia. Qed.

Lemma not_expired t0 t : (0 ≤ t0)%Z → (t0 + expiration < 2 ^ 63)%Z → (t ≤ t0 + 19 * second)%Z → expired (expires t0) t = false.
Proof.
  intros Hz Hb Ht. unfold expired, expires, expiration in *. apply Z.ltb_ge.
  assert (0 ≤ (t0 + 20 * second) / second < 2 ^ 63)%Z as Hq.
  { split; [apply Z.div_pos; unfold second in *; lia|]. apply Z.div_lt_upper_bound; unfold second in *; lia. }
  rewrite u64_small by (unfold in_u64; lia). rewrite i64_small by (unfold in_i64; lia).
  pose proof (Z.div_mod (t0 + 20 * second) second ltac:(done)) as Hdm.
  pose proof (Z.mod_pos_bound (t0 + 20 * second) second ltac:(done)). lia.
Qed.

Lemma sendPing_ok now i toid toaddr add u : endpoint_wf (u_endpoint u) → can_sign (u_priv u) →
  ∃ pkt hash, let req := ping 4 (u_endpoint u) (makeEndpoint toaddr 0) (expires now) [] in
    encodePacket (u_priv u) req = Ok (pkt, hash) ∧ packet_wf req ∧
    sendPing now i toid toaddr add u = write toaddr pkt (add_pending now i toid pongPacket (WaitPong hash add) u).
Proof.
  intros He Hs. set (req := ping 4 (u_endpoint u) (makeEndpoint toaddr 0) (expires now) []).
  assert (packet_wf req) as Hw.
  { split; [by word|]. split; [done|]. split; [by apply makeEndpoint_wf; unfold in_u16|]. split; [apply expires_u64|done]. }
  destruct (rlp_packet_total req Hw) as [b Hb]. destruct (encode_ok _ req b Hs Hb) as (pkt & hash & E & _).
  exists pkt, hash. cbn zeta. split; [done|]. split; [done|]. unfold sendPing. fold req. by rewrite E.
Qed.

Lemma add_pending_same now i from pt w u :
  u_out (add_pending now i from pt w u) = u_out u ∧ u_db (add_pending now i from pt w u) = u_db u ∧
  lp_closed (u_loop (add_pending now i from pt w u)) = lp_closed (u_loop u) ∧
  (lp_closed (u_loop u) = false → ∃ p, p ∈ lp_list (u_loop (add_pending now i from pt w u)) ∧
     pd_from p = from ∧ pd_ptype p = pt ∧ pd_deadline p = (now + respTimeout)%Z).
Proof.
  unfold add_pending. destruct (lp_closed (u_loop u)) eqn:Ec; [by rewrite Ec|]. cbn. rewrite reset_closed, Ec.
  split_and!; try done. intros _. eexists. rewrite elem_of_app, list_elem_of_singleton. split; [by right|]. done.
Qed.

Lemma sendPing_out now i toid toaddr add u : ∃ more, u_out (sendPing now i toid toaddr add u) = u_out u ++ more.
Proof.
  unfold sendPing. destruct (encodePacket _ _) as [[pkt hash]| |]; [|exists []; by rewrite app_nil_r..].
  exists [(toaddr, pkt)]. cbn. by destruct (add_pending_same now i toid pongPacket (WaitPong hash add) u) as [-> _].
Qed.

(** The node that is pinged answers with a pong that carries the hash. *)
Lemma ping_answered now i new v f to exp rest from fromID mac fresh u :
  expired exp now = false → endpoint_wf f → can_sign (u_priv u) →
  ∃ pkt hash u' more,
    let req := pong (makeEndpoint from (ep_TCP f)) mac (expires now) [] in
    encodePacket (u_priv u) req = Ok (pkt, hash) ∧ packet_wf req ∧
    handle now i new (ping v f to exp rest) from fromID mac fresh u = (u', None) ∧ u_out u' = u_out u ++ (from, pkt) :: more.
Proof.
  intros He Hf Hs. set (req := pong (makeEndpoint from (ep_TCP f)) mac (expires now) []).
  assert (packet_wf req) as Hw. { split; [by apply makeEndpoint_wf, Hf|]. split; [apply expires_u64|done]. }
  destruct (rlp_packet_total req Hw) as [b Hb]. destruct (encode_ok _ req b Hs Hb) as (pkt & hash & E & _).
  exists pkt, hash. cbn [handle]. rewrite He. unfold send. fold req. rewrite E.
  destruct (handleReply_db now fromID (ping v f to exp rest) fresh (write from pkt u)) as (_ & Eo & _).
  destruct (handleReply now fromID _ fresh (write from pkt u)) as [u1 m]. cbn [fst] in Eo.
  set (n := NewNode _ _ _ _ _). set (u2 := if (_ <? _)%Z then _ else _).
  assert (∃ more, u_out u2 = u_out u1 ++ more) as [more Em].
  { subst u2. destruct (_ <? _)%Z; [apply sendPing_out|]. exists []. by rewrite app_nil_r. }
  exists (set_udb (updateLastPingReceived (u_db u2) fromID now).1 u2), more. cbn zeta. split_and!; [done|done|done|].
  cbn. rewrite Em, Eo. cbn. by rewrite <- app_assoc.
Qed.


End Udp.

(** ** Witnesses

    An encoding with fixed sizes: lengths are one byte, or 255 and the length
    in unary; a node takes 91 bytes when its address has 16, and the packet is
    filled up to the size RLP would take. *)

Definition put_len (n : nat) : bytes := if decide (n < 255) then [byte_of_Z (Z.of_nat n)] else xff :: replicate n x01 ++ [x00].
Definition get_len (b : bytes) : option (nat * bytes) :=
  match b with
  | [] => None
  | x :: b => if decide (x = xff) then Some (ones b, drop (S (ones b)) b) else Some (Z.to_nat (byteZ x), b)
  end.
Definition put_str (s : bytes) : bytes := put_len (length s) ++ s.
Definition get_str (b : bytes) : option (bytes * bytes) :=
  '(n, b) ← get_len b; Some (take n b, drop n b).
Definition get_int (k : nat) (b : bytes) : option (Z * bytes) := Some (be_dec (take k b), drop k b).

Lemma get_put_len n tl : get_len (put_len n ++ tl) = Some (n, tl).
Proof.
  unfold put_len. case_decide as Hn.
  - cbn [app get_len]. rewrite decide_False.
    2:{ intros E. apply (f_equal byteZ) in E. rewrite byteZ_of_Z, Z.mod_small in E by lia. change (byteZ xff) with 255%Z in E. lia. }
    rewrite byteZ_of_Z, Z.mod_small, Nat2Z.id by lia. done.
  - cbn [app get_len]. rewrite decide_True by done. rewrite <- app_assoc. cbn [app]. rewrite ones_app.
    change (x00 :: tl) with ([x00] ++ tl). rewrite app_assoc, drop_app_length'; [done|].
    rewrite length_app, length_replicate. cbn. lia.
Qed.
Lemma get_put_str s tl : get_str (put_str s ++ tl) = Some (s, tl).
Proof.
  unfold get_str, put_str. rewrite <- app_assoc, get_put_len. cbn. by rewrite take_app_length, drop_app_length.
Qed.
Lemma get_put_int k z tl : (0 ≤ z < 256 ^ Z.of_nat k)%Z → get_int k (be_enc k z ++ tl) = Some (z, tl).
Proof.
  intros Hz. unfold get_int. rewrite take_app_length', drop_app_length' by (by rewrite be_enc_length).
  by rewrite be_dec_enc, Z.mod_small.
Qed.

Definition put_endpoint (e : rpcEndpoint) : bytes := put_str (ep_IP e) ++ be_enc 2 (ep_UDP e) ++ be_enc 2 (ep_TCP e).
Definition get_endpoint (b : bytes) : option (rpcEndpoint * bytes) :=
  '(ip, b) ← get_str b; '(u, b) ← get_int 2 b; '(t, b) ← get_int 2 b; Some (MkEndpoint ip u t, b).
Definition put_node (n : rpcNode) : bytes :=
  put_str (rn_IP n) ++ be_enc 2 (rn_UDP n) ++ be_enc 2 (rn_TCP n) ++ rn_ID n ++ replicate 6 x00.
Definition get_node (b : bytes) : option (rpcNode * bytes) :=
  '(ip, b) ← get_str b; '(u, b) ← get_int 2 b; '(t, b) ← get_int 2 b;
  Some (MkRpcNode ip u t (take 64 b), drop 70 b).
Fixpoint get_nodes (n : nat) (b : bytes) : option (list rpcNode * bytes) :=
  match n with
  | O => Some ([], b)
  | S n => '(x, b) ← get_node b; '(l, b) ← get_nodes n b; Some (x :: l, b)
  end.

Lemma get_put_endpoint e tl : endpoint_wf e → get_endpoint (put_endpoint e ++ tl) = Some (e, tl).
Proof.
  intros [Hu Ht]. unfold get_endpoint, put_endpoint. rewrite <- !app_assoc, get_put_str. cbn [mbind option_bind].
  rewrite (get_put_int 2) by exact Hu. cbn [mbind option_bind]. rewrite (get_put_int 2) by exact Ht. by destruct e.
Qed.
Lemma get_put_node n tl : node_rpc_wf n → get_node (put_node n ++ tl) = Some (n, tl).
Proof.
  intros (Hu & Ht & Hid). unfold get_node, put_node. rewrite <- !app_assoc, get_put_str. cbn [mbind option_bind].
  rewrite (get_put_int 2) by exact Hu. cbn [mbind option_bind]. rewrite (get_put_int 2) by exact Ht. cbn [mbind option_bind].
  rewrite take_app_length' by (symmetry; exact Hid). rewrite app_assoc, drop_app_length'; [by destruct n|].
  rewrite length_app, length_replicate. by rewrite Hid.
Qed.
Lemma get_put_nodes ns tl : Forall node_rpc_wf ns → get_nodes (length ns) (concat (put_node <$> ns) ++ tl) = Some (ns, tl).
Proof.
  induction 1 as [|n ns Hn _ IH]; [done|]. cbn [length get_nodes fmap list_fmap concat].
  rewrite <- app_assoc, get_put_node by done. cbn [mbind option_bind]. by rewrite IH.
Qed.

Definition put_packet (p : packet) : bytes :=
  match p with
  | ping v f t e _ => be_enc 8 v ++ put_endpoint f ++ put_endpoint t ++ be_enc 8 e
  | pong t tok e _ => put_endpoint t ++ put_str tok ++ be_enc 8 e
  | findnode id e _ => id ++ be_enc 8 e
  | neighbors ns e _ =>
    let n := length ns in
    put_len n ++ concat (put_node <$> ns) ++ be_enc 8 e ++
    replicate (rlp_head (n * 91) + rlp_head (n * 91 + rlp_head (n * 91) + 9)) x00
  end.
Definition get_packet (ptype : Z) (b : bytes) : option packet :=
  if decide (ptype = pingPacket) then
    '(v, b) ← get_int 8 b; '(f, b) ← get_endpoint b; '(t, b) ← get_endpoint b; '(e, _) ← get_int 8 b; Some (ping v f t e [])
  else if decide (ptype = pongPacket) then
    '(t, b) ← get_endpoint b; '(tok, b) ← get_str b; '(e, _) ← get_int 8 b; Some (pong t tok e [])
  else if decide (ptype = findnodePacket) then
    '(e, _) ← get_int 8 (drop 64 b); Some (findnode (take 64 b) e [])
  else '(n, b) ← get_len b; '(ns, b) ← get_nodes n b; '(e, _) ← get_int 8 b; Some (neighbors ns e []).
Definition get_packet_ok (ptype : Z) (b : bytes) : outcome packet :=
  match get_packet ptype b with Some p => Ok p | None => Err ErrDecode end.

Lemma fixed_roundtrip p b tl : Ok (put_packet p) = Ok b → packet_wf p → get_packet_ok (packet_type p) (b ++ tl) = Ok p.
Proof.
  intros [= <-] Hw. unfold get_packet_ok, get_packet. destruct p as [v f t e rest|t tok e rest|id e rest|ns e rest]; cbn [packet_type put_packet].
  - destruct Hw as (Hv & Hf & Ht & He & ->). rewrite decide_True by done. rewrite <- !app_assoc.
    rewrite (get_put_int 8) by exact Hv. cbn [mbind option_bind]. rewrite get_put_endpoint by done. cbn [mbind option_bind].
    rewrite get_put_endpoint by done. cbn [mbind option_bind]. by rewrite (get_put_int 8) by exact He.
  - destruct Hw as (Ht & He & ->). rewrite decide_False, decide_True by done. rewrite <- !app_assoc. rewrite get_put_endpoint by done. cbn [mbind option_bind].
    rewrite get_put_str. cbn [mbind option_bind]. by rewrite (get_put_int 8) by exact He.
  - destruct Hw as (Hid & He & ->). rewrite !decide_False, decide_True by done. rewrite <- !app_assoc. rewrite drop_app_length', take_app_length' by (symmetry; exact Hid).
    by rewrite (get_put_int 8) by exact He.
  - destruct Hw as (Hns & He & ->). rewrite !decide_False by done. rewrite <- !app_assoc.
    rewrite get_put_len. cbn [mbind option_bind]. rewrite get_put_nodes by done. cbn [mbind option_bind].
    by rewrite (get_put_int 8) by exact He.
Qed.

Lemma put_node_length n : node_rpc_wf n → length (rn_IP n) ≤ 16 → length (put_node n) = 75 + length (rn_IP n).
Proof.
  intros (_ & _ & Hid) Hip. unfold put_node, put_str, put_len. rewrite decide_True by lia.
  rewrite !length_app, !be_enc_length, length_replicate, Hid. cbn. lia.
Qed.
Lemma put_nodes_length ns : Forall node_rpc_wf ns → Forall (λ n, length (rn_IP n) ≤ 16) ns →
  length (concat (put_node <$> ns)) ≤ 91 * length ns ∧
  (Forall (λ n, length (rn_IP n) = 16) ns → length (concat (put_node <$> ns)) = 91 * length ns).
Proof.
  intros Hw Hip. induction Hw as [|n ns Hn _ IH]; [done|]. apply Forall_cons in Hip as [Hi Hip]. destruct (IH Hip) as [I1 I2].
  cbn [fmap list_fmap concat length]. rewrite length_app, put_node_length by done. split; [lia|].
  intros Hf. apply Forall_cons in Hf as [Hf Hfs]. rewrite Hf, I2 by done. lia.
Qed.

#[program] Definition fixed_rlp : PacketRLP := {| rlp_packet p := Ok (put_packet p); rlp_packet_dec := get_packet_ok |}.
Next Obligation. intros p _. by eexists. Qed.
Next Obligation. exact fixed_roundtrip. Qed.
Next Obligation.
  intros ns e Hl Hw Hip He. eexists. split; [done|]. destruct (put_nodes_length ns Hw Hip) as [Hc _].
  cbn [put_packet]. unfold put_len, neighbors_size. rewrite decide_True by lia.
  rewrite !length_app, be_enc_length, length_replicate. cbn [length]. lia.
Qed.
Next Obligation.
  intros n Hl. eexists. split; [done|]. destruct (put_nodes_length (replicate n maxSizeNode)) as [_ Hc].
  - apply Forall_replicate. by split_and!.
  - apply Forall_replicate. cbn. lia.
  - cbn [put_packet]. rewrite length_replicate in *. unfold put_len, neighbors_size. rewrite decide_True by lia.
    rewrite !length_app, be_enc_length, length_replicate, Hc by (by apply Forall_replicate). cbn [length]. lia.
Qed.

#[local] Existing Instances byte_crypto byte_curve byte_ecies fixed_rlp.

Definition ud_ip (h : byte) : IP := [x52; x01; x00; h].
Definition ud_node (k : byte) : Node := NewNode (Pos.of_succ_nat (Z.to_nat (byteZ k))) (node_id (k : PubKey)) (ud_ip k) 30303 30303.
Definition ud_addr (k : byte) : UDPAddr := MkAddr (ud_ip k) 30303.
Definition ud_start (k : byte) (nodes : list Node) (db : mem_store) : udp :=
  MkUdp (k : PrvKey) (makeEndpoint (ud_addr k) 30303) db (foldl (λ t n, add t n 0) (newTable_state (ud_node k) []) nodes)
    loop_init [].
Definition ud_db : mem_store := MkMem ∅ false.
Definition ud_new : nat → positive := Pos.of_succ_nat.

Lemma ud_sign (k : byte) : can_sign (k : PrvKey).
Proof. intros h. by eexists. Qed.

Lemma packet_roundtrip_witness : ∃ pkt hash,
  encodePacket (x11 : PrvKey) (findnode (replicate 64 x07) 20 []) = Ok (pkt, hash) ∧
  decodePacket pkt = inl (findnode (replicate 64 x07) 20 [], node_id (pub_of (x11 : PrvKey)), hash).
Proof.
  assert (∃ pkt hash, encodePacket (x11 : PrvKey) (findnode (replicate 64 x07) 20 []) = Ok (pkt, hash)) as (pkt & hash & E)
    by (eexists _, _; vm_compute; reflexivity).
  exists pkt, hash. refine (conj E (proj1 packet_roundtrip _ _ _ _ E _)).
  split; [reflexivity|]. split; [split; [discriminate|reflexivity]|reflexivity].
Defined.

(** A bond of the node 0x22 from a pong at a thousand seconds. *)
Definition ud_bonded : mem_store := (updateLastPongReceived ud_db (node_id (x22 : PubKey)) (1000 * second)).1.
Definition ud_table : udp := ud_start x11 [ud_node x33; ud_node x44] ud_bonded.
Definition ud_target : NodeID := replicate 64 x07.


(** Node 0x11 waits for a pong of node 0x22: one with the empty hash is taken. *)
Definition ud_waiting : udp := sendPing 1000 1 (node_id (x22 : PubKey)) (ud_addr x22) None (ud_start x11 [] ud_db).

Lemma pong_bonds_witness :
  hasBond (u_db (handle None (2 * second) 2 3 (pong (makeEndpoint (ud_addr x11) 0) [] 20 []) (ud_addr x22)
    (node_id (x22 : PubKey)) [] ud_new ud_waiting).1) (node_id (x22 : PubKey)) (100 * second) = true.
Proof.
  pose proof (pong_bonds None (2 * second) 2 3 (makeEndpoint (ud_addr x11) 0) [] 20 [] (ud_addr x22) (node_id (x22 : PubKey)) []
    ud_new ud_waiting (100 * second)) as Hp.
  destruct Hp as [Ha _].
  - reflexivity.
  - vm_compute. discriminate.
  - vm_compute. discriminate.
  - vm_compute. split; [discriminate|reflexivity].
  - reflexivity.
  - vm_compute. reflexivity.
  - apply Ha. eexists. vm_compute. split; [left|split; reflexivity].
Defined.

