(* ===== verification/PttPeer.v ===== *)
(** * Peers, sets of peers, recent dials

    [service/ptt_peer.go], [service/ptt_peer_set.go], [service/dial_history.go],
    the peer types of [service/types.go]: a connection to another node, who is
    behind it, the connections an entity uses, sorted by what they are to it,
    and the entity for which a node was dialled.

    A connection is a pointer (a [positive]); its node never changes. *)

From S2P Require Import Prelude GoTime CommonTypes Discover.

Set Default Goal Selector "!".
Set Default Proof Using "Type".

(** ** Types of peers *)

Inductive PeerType :=
  | PeerTypeErr | PeerTypeRemoved | PeerTypeRandom | PeerTypePending
  | PeerTypeMember | PeerTypeImportant | PeerTypeHub | PeerTypeMe.
#[global] Instance PeerType_eq_dec : EqDecision PeerType.
Proof. solve_decision. Defined.
Definition pt_num (t : PeerType) : nat :=
  match t with
  | PeerTypeErr => 0 | PeerTypeRemoved => 1 | PeerTypeRandom => 2 | PeerTypePending => 3
  | PeerTypeMember => 4 | PeerTypeImportant => 5 | PeerTypeHub => 6 | PeerTypeMe => 7
  end.
Lemma pt_num_inj t u : pt_num t = pt_num u → t = u.
Proof. by destruct t, u. Qed.

(** ** A connection *)

Record PttPeer := MkPeer {
  p_ID : NodeID;
  p_PeerType : PeerType;
  p_version : Z;
  p_UserID : option PttID;
  p_IDEntityID : option PttID;
  p_IDChallenge : option bytes;
  p_IsRegistered : bool;
  p_IsToClose : bool
}.
Definition set_type (t : PeerType) (p : PttPeer) :=
  MkPeer (p_ID p) t (p_version p) (p_UserID p) (p_IDEntityID p) (p_IDChallenge p) (p_IsRegistered p) (p_IsToClose p).
Definition set_user (u : option PttID) (p : PttPeer) :=
  MkPeer (p_ID p) (p_PeerType p) (p_version p) u (p_IDEntityID p) (p_IDChallenge p) (p_IsRegistered p) (p_IsToClose p).
Definition set_challenge (e : option PttID) (c : option bytes) (p : PttPeer) :=
  MkPeer (p_ID p) (p_PeerType p) (p_version p) (p_UserID p) e c (p_IsRegistered p) (p_IsToClose p).
Definition set_registered (b : bool) (p : PttPeer) :=
  MkPeer (p_ID p) (p_PeerType p) (p_version p) (p_UserID p) (p_IDEntityID p) (p_IDChallenge p) b (p_IsToClose p).
Definition set_toclose (p : PttPeer) :=
  MkPeer (p_ID p) (p_PeerType p) (p_version p) (p_UserID p) (p_IDEntityID p) (p_IDChallenge p) (p_IsRegistered p) true.

Definition NewPttPeer (version : Z) (id : NodeID) : PttPeer := MkPeer id PeerTypeErr version None None None false false.
#[global] Instance PttPeer_inhabited : Inhabited PttPeer := populate (NewPttPeer 0 EmptyNodeID).

(** [InitID]; [salt] is the result of [NewSalt].  The goroutine it starts calls
    [FinishID] when the time is over. *)
Definition InitID (entityID : PttID) (salt : outcome bytes) (isForce : bool) (p : PttPeer) : PttPeer * outcome bytes :=
  match p_UserID p with
  | Some _ => (p, Err ErrAlreadyExists)
  | None =>
    let p := if isForce && bool_decide (is_Some (p_IDEntityID p)) then set_challenge None None p else p in
    match p_IDEntityID p with
    | Some _ => (p, Err ErrAlreadyExists)
    | None =>
      match salt with
      | Ok salt => (set_challenge (Some entityID) (Some salt) p, Ok salt)
      | r => (p, r)
      end
    end
  end.
Definition ResetInitID (p : PttPeer) : PttPeer := set_challenge None None p.
Definition FinishID (entityID : PttID) (p : PttPeer) : PttPeer :=
  if decide (p_IDEntityID p = Some entityID) then set_challenge None None p else p.

(** [ReadStatus] of a message that was read: its code, size and content. *)
Definition CodeTypeStatus : Z := 1.
Definition ReadStatus (version networkID ProtocolMaxMsgSize : Z) (code size : Z) (status : (Z * Z) + GoErr) : option GoErr :=
  if negb (code =? CodeTypeStatus)%Z then Some SvcErrInvalidMsgCode
  else if (ProtocolMaxMsgSize <? size)%Z then Some SvcErrMsgTooLarge
  else match status with
       | inr e => Some e
       | inl (v, n) =>
         if negb (n =? networkID)%Z then Some SvcErrInvalidData
         else if negb (v =? version)%Z then Some SvcErrInvalidData else None
       end.

(** ** Dials in the last half minute

    The heap by time is the list in its order, the first the oldest; the map
    has the last dial of a node, by the address of its record. *)

Definition ExpireDialHistorySeconds : Z := 30.
Record DialInfo := MkDialInfo { di_NodeID : NodeID; di_UpdateTS : Timestamp; di_OpKey : bytes }.
Record DialHistory := MkDialHist { dh_hist : list DialInfo; dh_map : gmap NodeID DialInfo }.
Definition NewDialHistory : DialHistory := MkDialHist [] ∅.

Fixpoint heap_push (d : DialInfo) (h : list DialInfo) : list DialInfo :=
  match h with
  | [] => [d]
  | e :: h => if IsLess (di_UpdateTS d) (di_UpdateTS e) then d :: e :: h else e :: heap_push d h
  end.
Definition dh_Add (ts : Timestamp) (id : NodeID) (opKey : bytes) (h : DialHistory) : DialHistory :=
  let d := MkDialInfo id ts opKey in
  MkDialHist (heap_push d (dh_hist h)) (<[id := d]> (dh_map h)).
Definition dh_Get (id : NodeID) (h : DialHistory) : option DialInfo := dh_map h !! id.
Definition dh_Pop (h : DialHistory) : DialHistory :=
  match dh_hist h with
  | [] => h
  | d :: rest => MkDialHist rest (delete (di_NodeID d) (dh_map h))
  end.
Fixpoint expire_while (fuel : nat) (expireTS : Timestamp) (h : DialHistory) : DialHistory :=
  match fuel, dh_hist h with
  | Datatypes.S fuel, d :: _ => if IsLess (di_UpdateTS d) expireTS then expire_while fuel expireTS (dh_Pop h) else h
  | _, _ => h
  end.
Definition dh_Expire (now : Timestamp) (h : DialHistory) : DialHistory :=
  let expireTS := MkTs (i64 (Ts now - ExpireDialHistorySeconds)) (NanoTs now) in
  expire_while (length (dh_hist h)) expireTS h.

(** ** The set of peers of an entity *)

Record PttPeerSet := MkPeerSet {
  ps_peerTypes : gmap NodeID PeerType;
  ps_mePeers : gmap NodeID positive; ps_mePeerList : list positive;
  ps_importantPeers : gmap NodeID positive; ps_importantPeerList : list positive;
  ps_memberPeers : gmap NodeID positive; ps_memberPeerList : list positive;
  ps_pendingPeers : gmap NodeID positive; ps_pendingPeerList : list positive;
  ps_peerList : list positive;
  ps_closed : bool
}.
Definition NewPttPeerSet : PttPeerSet := MkPeerSet ∅ ∅ [] ∅ [] ∅ [] ∅ [] [] false.

(** The fields that belong to a type, as the [switch]es choose them. *)
Definition ps_of (t : PeerType) (s : PttPeerSet) : gmap NodeID positive :=
  match t with
  | PeerTypeMe => ps_mePeers s | PeerTypeImportant => ps_importantPeers s
  | PeerTypeMember => ps_memberPeers s | PeerTypePending => ps_pendingPeers s
  | _ => ∅
  end.
Definition ps_list_of (t : PeerType) (s : PttPeerSet) : list positive :=
  match t with
  | PeerTypeMe => ps_mePeerList s | PeerTypeImportant => ps_importantPeerList s
  | PeerTypeMember => ps_memberPeerList s | PeerTypePending => ps_pendingPeerList s
  | _ => []
  end.
Definition set_ps_types (m : gmap NodeID PeerType) (s : PttPeerSet) :=
  MkPeerSet m (ps_mePeers s) (ps_mePeerList s) (ps_importantPeers s) (ps_importantPeerList s) (ps_memberPeers s)
    (ps_memberPeerList s) (ps_pendingPeers s) (ps_pendingPeerList s) (ps_peerList s) (ps_closed s).
Definition set_ps_of (t : PeerType) (f : gmap NodeID positive → gmap NodeID positive) (s : PttPeerSet) : PttPeerSet :=
  match t with
  | PeerTypeMe => MkPeerSet (ps_peerTypes s) (f (ps_mePeers s)) (ps_mePeerList s) (ps_importantPeers s) (ps_importantPeerList s)
      (ps_memberPeers s) (ps_memberPeerList s) (ps_pendingPeers s) (ps_pendingPeerList s) (ps_peerList s) (ps_closed s)
  | PeerTypeImportant => MkPeerSet (ps_peerTypes s) (ps_mePeers s) (ps_mePeerList s) (f (ps_importantPeers s)) (ps_importantPeerList s)
      (ps_memberPeers s) (ps_memberPeerList s) (ps_pendingPeers s) (ps_pendingPeerList s) (ps_peerList s) (ps_closed s)
  | PeerTypeMember => MkPeerSet (ps_peerTypes s) (ps_mePeers s) (ps_mePeerList s) (ps_importantPeers s) (ps_importantPeerList s)
      (f (ps_memberPeers s)) (ps_memberPeerList s) (ps_pendingPeers s) (ps_pendingPeerList s) (ps_peerList s) (ps_closed s)
  | PeerTypePending => MkPeerSet (ps_peerTypes s) (ps_mePeers s) (ps_mePeerList s) (ps_importantPeers s) (ps_importantPeerList s)
      (ps_memberPeers s) (ps_memberPeerList s) (f (ps_pendingPeers s)) (ps_pendingPeerList s) (ps_peerList s) (ps_closed s)
  | _ => s
  end.

Abbreviation peer_map := (gmap NodeID (PeerType * positive)).

(** Membership of a type in a list of types. *)
Ltac pt_in := apply (bool_decide_unpack _); vm_compute; exact I.

Section PeerSet.
(** The node of a connection, who is behind it, and the order in which [range]
    goes over a map. *)
Variable id_of : positive → NodeID.
Variable user_of : positive → option PttID.
Implicit Types (s : PttPeerSet) (ord : gmap NodeID positive → list positive) (t : PeerType).

Definition PeersToPeerList ord (peers : gmap NodeID positive) : list positive := ord peers.
Definition range_ok ord : Prop := ∀ m, ord m ≡ₚ (map_to_list m).*2.

(** The lists of the two types that changed are made anew, then the list of all. *)
Definition new_lists ord (ts : list PeerType) s : PttPeerSet :=
  let l t old := if decide (t ∈ ts) then PeersToPeerList ord (ps_of t s) else old in
  let me := l PeerTypeMe (ps_mePeerList s) in
  let important := l PeerTypeImportant (ps_importantPeerList s) in
  let member := l PeerTypeMember (ps_memberPeerList s) in
  MkPeerSet (ps_peerTypes s) (ps_mePeers s) me (ps_importantPeers s) important (ps_memberPeers s) member
    (ps_pendingPeers s) (l PeerTypePending (ps_pendingPeerList s)) ((me ++ important) ++ member) (ps_closed s).

Definition GetPeerWithPeerType (id : NodeID) t s : option positive := ps_of t s !! id.

Definition ps_Register ord (peer : positive) t s : PttPeerSet * option GoErr :=
  if ps_closed s then (s, Some SvcErrClosed) else
  let id := id_of peer in
  let do origPeerType :=
    let s := set_ps_types (<[id := t]> (ps_peerTypes s)) s in
    let s := set_ps_of origPeerType (delete id) s in
    let s := set_ps_of t <[id := peer]> s in
    (new_lists ord [origPeerType; t] s, None) in
  match ps_peerTypes s !! id with
  | None => do PeerTypeErr
  | Some origPeerType =>
    match GetPeerWithPeerType id origPeerType s with
    | Some origPeer =>
      if decide (origPeer ≠ peer) then (s, Some SvcErrAlreadyRegistered)
      else if decide (origPeerType = t) then (s, None) else do origPeerType
    | None => if decide (origPeerType = t) then (s, None) else do origPeerType
    end
  end.

Definition ps_Unregister ord (peer : positive) s : PttPeerSet * option GoErr :=
  let id := id_of peer in
  match ps_peerTypes s !! id with
  | None => (s, Some SvcErrNotRegistered)
  | Some origPeerType =>
    let do s :=
      let s := set_ps_types (delete id (ps_peerTypes s)) s in
      (new_lists ord [origPeerType] s, None) in
    if decide (origPeerType ∈ [PeerTypeMe; PeerTypeImportant; PeerTypeMember; PeerTypePending]) then
      match ps_of origPeerType s !! id with
      | Some origPeer =>
        if decide (origPeer ≠ peer) then (s, Some SvcErrNotRegistered) else do (set_ps_of origPeerType (delete id) s)
      | None => (s, Some SvcErrNotRegistered)
      end
    else do s
  end.

Definition by_user (u : option PttID) (l : list positive) : option positive :=
  snd <$> list_find (λ p, user_of p = u) l.
Definition GetPendingPeerByUserID (u : PttID) s : option positive := by_user (Some u) (ps_pendingPeerList s).
Definition ps_UnregisterPeerByOtherUserID ord (u : PttID) s : PttPeerSet * option positive * PeerType :=
  match by_user (Some u) (ps_importantPeerList s) with
  | Some p => ((ps_Unregister ord p s).1, Some p, PeerTypeImportant)
  | None =>
    match by_user (Some u) (ps_memberPeerList s) with
    | Some p => ((ps_Unregister ord p s).1, Some p, PeerTypeMember)
    | None =>
      match by_user (Some u) (ps_pendingPeerList s) with
      | Some p => ((ps_Unregister ord p s).1, Some p, PeerTypePending)
      | None => (s, None, PeerTypeRandom)
      end
    end
  end.

Definition ps_Peer (id : NodeID) s : option positive := t ← ps_peerTypes s !! id; ps_of t s !! id.
Definition ps_Len s : nat := size (ps_peerTypes s).
Definition ps_Close s : PttPeerSet := MkPeerSet ∅ ∅ [] ∅ [] ∅ [] ∅ [] [] true.
Definition ps_IsPendingPeer (id : NodeID) s : bool := bool_decide (is_Some (ps_pendingPeers s !! id)).
Definition CountPeers s : nat := length (ps_peerList s) + length (ps_pendingPeerList s).
Definition GetPeers s : list positive := ps_peerList s ++ ps_pendingPeerList s.

(** ** What a set of peers promises

    A map from nodes to the type and the connection; at most one connection for
    a node.  [cmd]s carry the order of [range] and the users of the time. *)

Definition set_types : list PeerType := [PeerTypeMe; PeerTypeImportant; PeerTypeMember; PeerTypePending].

Record ps_rel s (a : peer_map) : Prop := {
  rel_types id : ps_peerTypes s !! id = fst <$> a !! id;
  rel_of t id : ps_of t s !! id = '(t', p) ← a !! id; if decide (t' = t) then Some p else None;
  rel_wf id t p : a !! id = Some (t, p) → id_of p = id ∧ t ∈ set_types;
  rel_lists t : ps_list_of t s ≡ₚ (map_to_list (ps_of t s)).*2;
  rel_all : ps_peerList s = (ps_mePeerList s ++ ps_importantPeerList s) ++ ps_memberPeerList s
}.

Inductive ps_cmd :=
  | CRegister (peer : positive) (t : PeerType)
  | CUnregister (peer : positive)
  | CUnregisterUser (u : PttID)
  | CClose.
Inductive ps_result := RErr (e : option GoErr) | RPeer (p : option positive) (t : PeerType).
Definition ps_step ord (c : ps_cmd) s : PttPeerSet * ps_result :=
  match c with
  | CRegister p t => let '(s, e) := ps_Register ord p t s in (s, RErr e)
  | CUnregister p => let '(s, e) := ps_Unregister ord p s in (s, RErr e)
  | CUnregisterUser u => let '(s, p, t) := ps_UnregisterPeerByOtherUserID ord u s in (s, RPeer p t)
  | CClose => (ps_Close s, RErr None)
  end.

(** The types in the order in which a user is looked for. *)
Definition user_types : list PeerType := [PeerTypeImportant; PeerTypeMember; PeerTypePending].
Definition has_user (a : peer_map) (u : PttID) t (p : positive) : Prop :=
  a !! id_of p = Some (t, p) ∧ user_of p = Some u.

Inductive ps_spec : peer_map * bool → ps_cmd → ps_result → peer_map * bool → Prop :=
  | spec_closed a p t : ps_spec (a, true) (CRegister p t) (RErr (Some SvcErrClosed)) (a, true)
  | spec_register a p t :
      (∀ t' q, a !! id_of p = Some (t', q) → q = p) →
      ps_spec (a, false) (CRegister p t) (RErr None) (<[id_of p := (t, p)]> a, false)
  | spec_other a p t t' q : a !! id_of p = Some (t', q) → q ≠ p →
      ps_spec (a, false) (CRegister p t) (RErr (Some SvcErrAlreadyRegistered)) (a, false)
  | spec_unregister a c p t : a !! id_of p = Some (t, p) →
      ps_spec (a, c) (CUnregister p) (RErr None) (delete (id_of p) a, c)
  | spec_absent a c p : (∀ t, a !! id_of p ≠ Some (t, p)) →
      ps_spec (a, c) (CUnregister p) (RErr (Some SvcErrNotRegistered)) (a, c)
  | spec_user a c u t p : t ∈ user_types → has_user a u t p →
      (∀ t' p', t' ∈ user_types → has_user a u t' p' → pt_num t' ≤ pt_num t) →
      ps_spec (a, c) (CUnregisterUser u) (RPeer (Some p) t) (delete (id_of p) a, c)
  | spec_no_user a c u : (∀ t p, t ∈ user_types → ¬ has_user a u t p) →
      ps_spec (a, c) (CUnregisterUser u) (RPeer None PeerTypeRandom) (a, c)
  | spec_close a c : ps_spec (a, c) CClose (RErr None) (∅, true).

(** ** The fields *)

Lemma set_types_cases t (P : PeerType → Prop) :
  t ∈ set_types → P PeerTypeMe → P PeerTypeImportant → P PeerTypeMember → P PeerTypePending → P t.
Proof. intros Ht. unfold set_types in Ht. repeat (apply elem_of_cons in Ht as [->|Ht]; [done|]). by apply elem_of_nil in Ht. Qed.
Lemma ps_of_set t t' f s : t' ∈ set_types → ps_of t (set_ps_of t' f s) = if decide (t = t') then f (ps_of t s) else ps_of t s.
Proof. intros Ht. pattern t'. apply (set_types_cases t' _ Ht); by destruct t. Qed.
Lemma not_set_type t (P : PeerType → Prop) :
  t ∉ set_types → P PeerTypeErr → P PeerTypeRemoved → P PeerTypeRandom → P PeerTypeHub → P t.
Proof. intros Ht. destruct t; try done; destruct Ht; pt_in. Qed.
Lemma set_ps_of_none t f s : t ∉ set_types → set_ps_of t f s = s.
Proof. intros Ht. pattern t. by apply (not_set_type t _ Ht). Qed.
Lemma ps_of_none t s : t ∉ set_types → ps_of t s = ∅ ∧ ps_list_of t s = [].
Proof. intros Ht. pattern t. by apply (not_set_type t _ Ht). Qed.
Lemma set_ps_of_types t f s : ps_peerTypes (set_ps_of t f s) = ps_peerTypes s.
Proof. by destruct t. Qed.
Lemma set_ps_of_closed t f s : ps_closed (set_ps_of t f s) = ps_closed s.
Proof. by destruct t. Qed.
Lemma set_ps_of_lists t t' f s : ps_list_of t' (set_ps_of t f s) = ps_list_of t' s.
Proof. by destruct t, t'. Qed.
Lemma ps_of_types t m s : ps_of t (set_ps_types m s) = ps_of t s.
Proof. by destruct t. Qed.
Lemma new_lists_same ord ts s :
  ps_peerTypes (new_lists ord ts s) = ps_peerTypes s ∧ ps_closed (new_lists ord ts s) = ps_closed s ∧
  ∀ t, ps_of t (new_lists ord ts s) = ps_of t s.
Proof. split; [done|]. split; [done|]. intros t. by destruct t. Qed.
Lemma new_lists_of ord ts s t :
  t ∈ set_types → ps_list_of t (new_lists ord ts s) = if decide (t ∈ ts) then ord (ps_of t s) else ps_list_of t s.
Proof. intros Ht. pattern t. by apply (set_types_cases t _ Ht). Qed.

(** The lists are those of the maps again when those of the changed types are
    made anew. *)
Lemma rel_build ord ts s s1 a :
  range_ok ord →
  (∀ t, ps_list_of t s ≡ₚ (map_to_list (ps_of t s)).*2) →
  (∀ id, ps_peerTypes s1 !! id = fst <$> a !! id) →
  (∀ t id, ps_of t s1 !! id = '(t', p) ← a !! id; if decide (t' = t) then Some p else None) →
  (∀ id t p, a !! id = Some (t, p) → id_of p = id ∧ t ∈ set_types) →
  (∀ t, t ∈ set_types → t ∉ ts → ps_of t s1 = ps_of t s) →
  (∀ t, ps_list_of t s1 = ps_list_of t s) →
  ps_rel (new_lists ord ts s1) a.
Proof.
  intros Ho Hl Ht Hm Hw Hsame Hls. destruct (new_lists_same ord ts s1) as (E1 & _ & E3). split.
  - intros id. by rewrite E1.
  - intros t id. by rewrite E3.
  - done.
  - intros t. rewrite E3. destruct (decide (t ∈ set_types)) as [Hin|Hin].
    + rewrite new_lists_of by done. case_decide as Hts; [apply Ho|]. by rewrite Hls, Hl, Hsame.
    + destruct (ps_of_none t s1 Hin) as [-> _]. destruct (ps_of_none t (new_lists ord ts s1) Hin) as [_ ->]. by rewrite map_to_list_empty.
  - done.
Qed.

Lemma rel_get s a id t p : ps_rel s a → a !! id = Some (t, p) → ps_of t s !! id = Some p.
Proof. intros Hr E. rewrite (rel_of _ _ Hr), E. cbn. by rewrite decide_True. Qed.

Lemma Register_refines ord p t s a :
  range_ok ord → t ∈ set_types → ps_rel s a → ps_closed s = false →
  ∃ a', ps_spec (a, false) (CRegister p t) (RErr (ps_Register ord p t s).2) (a', false) ∧
    ps_rel (ps_Register ord p t s).1 a' ∧ ps_closed (ps_Register ord p t s).1 = false.
Proof.
  intros Ho Ht Hr Hc. unfold ps_Register. rewrite Hc, (rel_types _ _ Hr).
  assert (∀ t0, (∀ t1, fst <$> a !! id_of p = Some t1 → t1 = t0) → (a !! id_of p = None → t0 ∉ set_types) →
    (∀ t' q, a !! id_of p = Some (t', q) → q = p) → t0 ≠ t →
    let s1 := set_ps_of t <[id_of p := p]> (set_ps_of t0 (delete (id_of p)) (set_ps_types (<[id_of p := t]> (ps_peerTypes s)) s)) in
    ps_rel (new_lists ord [t0; t] s1) (<[id_of p := (t, p)]> a) ∧ ps_closed (new_lists ord [t0; t] s1) = false) as Hdo.
  { intros t0 Ht0 Hn Hq Hne s1. subst s1. set (s0 := set_ps_types _ s).
    assert (∀ t', ps_of t' (set_ps_of t0 (delete (id_of p)) s0) = if decide (t' = t0) then delete (id_of p) (ps_of t' s) else ps_of t' s) as E0.
    { intros t'. destruct (decide (t0 ∈ set_types)) as [Hin|Hin].
      - rewrite ps_of_set by done. subst s0. by rewrite ps_of_types.
      - rewrite set_ps_of_none by done. subst s0. rewrite ps_of_types. case_decide as E; [subst t'|done].
        destruct (ps_of_none t0 s Hin) as [-> _]. by rewrite delete_empty. }
    split.
    - apply (rel_build ord _ s); [done|apply Hr|..].
      + intros id. rewrite !set_ps_of_types. subst s0. cbn [ps_peerTypes set_ps_types].
        destruct (decide (id = id_of p)) as [->|Hid]; [by rewrite !lookup_insert_eq|].
        rewrite !lookup_insert_ne by done. apply Hr.
      + intros t' id. rewrite ps_of_set by done. rewrite E0.
        destruct (decide (id = id_of p)) as [->|Hid].
        * rewrite lookup_insert_eq. cbn. destruct (decide (t' = t)) as [->|Htt].
          { by rewrite lookup_insert_eq, decide_True. }
          rewrite (decide_False (P := t = t')) by done. case_decide as Hd; [by rewrite lookup_delete_eq|].
          rewrite (rel_of _ _ Hr). destruct (a !! id_of p) as [[t1 q]|] eqn:Ea; [|done]. cbn.
          rewrite decide_False; [done|]. rewrite (Ht0 t1); [done|done].
        * rewrite lookup_insert_ne by done. rewrite <- (rel_of _ _ Hr).
          repeat case_decide; rewrite ?lookup_insert_ne, ?lookup_delete_ne by done; done.
      + intros id t' q. destruct (decide (id = id_of p)) as [->|Hid].
        * rewrite lookup_insert_eq. by intros [= <- <-].
        * rewrite lookup_insert_ne by done. apply Hr.
      + intros t' Hin Hts. rewrite ps_of_set by done. rewrite E0, !decide_False; [done|set_solver..].
      + intros t'. rewrite !set_ps_of_lists. by destruct t'.
    - cbn [new_lists ps_closed]. by rewrite !set_ps_of_closed. }
  destruct (a !! id_of p) as [[t0 q]|] eqn:Ea; cbn [fmap option_fmap option_map fst].
  - unfold GetPeerWithPeerType. rewrite (rel_get _ _ _ _ _ Hr Ea). case_decide as Hq.
    + exists a. split; [by apply (spec_other a p t t0 q)|done].
    + assert (q = p) as -> by (by destruct (decide (q = p))). case_decide as Htt.
      * subst t0. exists a. split; [|done]. replace (a, false) with (<[id_of p := (t, p)]> a, false) at 2.
        { apply spec_register. rewrite Ea. by intros t' q' [= <- <-]. }
        by rewrite insert_id.
      * exists (<[id_of p := (t, p)]> a). destruct (Hdo t0) as [H1 H2]; try done.
        { by intros t1 [= <-]. } { by intros t' q [= <- <-]. }
        split; [|done]. apply spec_register. rewrite Ea. by intros t' q' [= <- <-].
  - exists (<[id_of p := (t, p)]> a). destruct (Hdo PeerTypeErr) as [H1 H2]; try done.
    { intros _ Hin. by apply (set_types_cases _ (λ t, t ≠ PeerTypeErr) Hin). }
    { intros <-. by apply (set_types_cases _ (λ t, t ≠ PeerTypeErr) Ht). }
    split; [|done]. apply spec_register. by rewrite Ea.
Qed.

Lemma Unregister_refines ord p s a c :
  range_ok ord → ps_rel s a → ps_closed s = c →
  ∃ a', ps_spec (a, c) (CUnregister p) (RErr (ps_Unregister ord p s).2) (a', c) ∧
    ps_rel (ps_Unregister ord p s).1 a' ∧ ps_closed (ps_Unregister ord p s).1 = c ∧
    (∀ t, a !! id_of p = Some (t, p) → a' = delete (id_of p) a).
Proof.
  intros Ho Hr Hc. unfold ps_Unregister. rewrite (rel_types _ _ Hr).
  destruct (a !! id_of p) as [[t q]|] eqn:Ea; cbn [fmap option_fmap option_map fst].
  2:{ exists a. split; [apply spec_absent; by rewrite Ea|]. done. }
  destruct (rel_wf _ _ Hr _ _ _ Ea) as [_ Hin]. rewrite decide_True by exact Hin.
  rewrite (rel_get _ _ _ _ _ Hr Ea). case_decide as Hq.
  { exists a. split; [apply spec_absent; rewrite Ea; by intros t' [= _ ->]|]. split; [done|]. split; [done|]. by intros t' [= _ ->]. }
  assert (q = p) as -> by (by destruct (decide (q = p))). exists (delete (id_of p) a).
  split; [by apply (spec_unregister a c p t)|]. cbn [fst]. split; [|split; [|done]].
  2:{ cbn [new_lists ps_closed set_ps_types]. by rewrite set_ps_of_closed. }
  apply (rel_build ord _ s); [done|apply Hr|..].
  - intros id. cbn [ps_peerTypes set_ps_types]. rewrite set_ps_of_types. destruct (decide (id = id_of p)) as [->|Hid].
    + by rewrite !lookup_delete_eq.
    + rewrite !lookup_delete_ne by done. apply Hr.
  - intros t' id. rewrite ps_of_types, ps_of_set by done. destruct (decide (id = id_of p)) as [->|Hid].
    + rewrite lookup_delete_eq. cbn. case_decide as Htt; [by rewrite lookup_delete_eq|].
      rewrite (rel_of _ _ Hr), Ea. cbn. by rewrite decide_False.
    + rewrite lookup_delete_ne by done. rewrite <- (rel_of _ _ Hr). case_decide; [|done]. by rewrite lookup_delete_ne.
  - intros id t' q. destruct (decide (id = id_of p)) as [->|Hid]; [by rewrite lookup_delete_eq|].
    rewrite lookup_delete_ne by done. apply Hr.
  - intros t' _ Hts. rewrite ps_of_types, ps_of_set by done. rewrite decide_False; [done|]. intros ->. apply Hts. by left.
  - intros t'. replace (ps_list_of t' (set_ps_types _ _)) with (ps_list_of t' (set_ps_of t (delete (id_of p)) s)) by (by destruct t').
    by rewrite set_ps_of_lists.
Qed.

Lemma by_user_Some u l p : by_user u l = Some p → p ∈ l ∧ user_of p = u.
Proof.
  unfold by_user. destruct (list_find _ l) as [[i q]|] eqn:E; [|done]. intros [= <-].
  apply list_find_Some in E as (Hl & Hu & _). split; [by eapply list_elem_of_lookup_2|done].
Qed.
Lemma by_user_None u l p : by_user u l = None → p ∈ l → user_of p ≠ u.
Proof.
  unfold by_user. destruct (list_find _ l) eqn:E; [done|]. intros _ Hp.
  apply list_find_None in E. by apply (proj1 (Forall_forall _ l) E).
Qed.

Lemma list_elem s a t p : ps_rel s a → p ∈ ps_list_of t s ↔ a !! id_of p = Some (t, p).
Proof.
  intros Hr. rewrite (rel_lists _ _ Hr), list_elem_of_fmap. split.
  - intros ([id q] & -> & Hin). apply elem_of_map_to_list in Hin. rewrite (rel_of _ _ Hr) in Hin.
    destruct (a !! id) as [[t' q']|] eqn:Ea; [|done]. cbn in Hin. case_decide as Ht; [|done]. injection Hin as ->. subst t'.
    destruct (rel_wf _ _ Hr _ _ _ Ea) as [E _]. cbn. by rewrite E.
  - intros Ea. exists (id_of p, p). split; [done|]. apply elem_of_map_to_list. by apply (rel_get _ _ _ _ _ Hr).
Qed.

Lemma user_unregister ord u t p s a c :
  range_ok ord → ps_rel s a → ps_closed s = c → t ∈ user_types → by_user (Some u) (ps_list_of t s) = Some p →
  (∀ t' p', t' ∈ user_types → pt_num t < pt_num t' → ¬ has_user a u t' p') →
  ∃ a', ps_spec (a, c) (CUnregisterUser u) (RPeer (Some p) t) (a', c) ∧
    ps_rel (ps_Unregister ord p s).1 a' ∧ ps_closed (ps_Unregister ord p s).1 = c.
Proof.
  intros Ho Hr Hc Ht Hu Hno. apply by_user_Some in Hu as [Hin Hu]. apply (list_elem _ _ _ _ Hr) in Hin.
  destruct (Unregister_refines ord p s a c Ho Hr Hc) as (a' & _ & Hr' & Hc' & Ha'). rewrite (Ha' _ Hin) in Hr'.
  exists (delete (id_of p) a). split; [|done]. apply spec_user; [done|by split|]. intros t' p' Ht' Hh.
  destruct (decide (pt_num t' ≤ pt_num t)) as [|Hlt]; [done|]. exfalso. apply (Hno t' p'); [done|lia|done].
Qed.

Lemma UnregisterUser_refines ord u s a c :
  range_ok ord → ps_rel s a → ps_closed s = c →
  let '(s', p, t) := ps_UnregisterPeerByOtherUserID ord u s in
  ∃ a', ps_spec (a, c) (CUnregisterUser u) (RPeer p t) (a', c) ∧ ps_rel s' a' ∧ ps_closed s' = c.
Proof.
  intros Ho Hr Hc. unfold ps_UnregisterPeerByOtherUserID.
  assert (∀ t, by_user (Some u) (ps_list_of t s) = None → ∀ p, ¬ has_user a u t p) as Hno.
  { intros t Hn p [Ha Hp]. apply (by_user_None _ _ p Hn); [|done]. by apply (list_elem _ _ _ _ Hr). }
  assert (∀ t (P : PeerType → Prop), t ∈ user_types → P PeerTypeImportant → P PeerTypeMember → P PeerTypePending → P t) as Hcases.
  { intros t P Ht P1 P2 P3. unfold user_types in Ht. repeat (apply elem_of_cons in Ht as [->|Ht]; [done|]). by apply elem_of_nil in Ht. }
  destruct (by_user (Some u) (ps_importantPeerList s)) as [p|] eqn:E1.
  { apply user_unregister; try done; [pt_in|]. intros t' p' Ht'. pattern t'. apply (Hcases t' _ Ht'); cbn; lia. }
  pose proof (Hno PeerTypeImportant E1) as N1.
  destruct (by_user (Some u) (ps_memberPeerList s)) as [p|] eqn:E2.
  { apply user_unregister; try done; [pt_in|]. intros t' p' Ht'. pattern t'. apply (Hcases t' _ Ht'); cbn; try lia. by intros _. }
  pose proof (Hno PeerTypeMember E2) as N2.
  destruct (by_user (Some u) (ps_pendingPeerList s)) as [p|] eqn:E3.
  { apply user_unregister; try done; [pt_in|]. intros t' p' Ht'. pattern t'. apply (Hcases t' _ Ht'); cbn; try lia; by intros _. }
  pose proof (Hno PeerTypePending E3) as N3.
  exists a. split; [|done]. apply spec_no_user. intros t p Ht. pattern t. by apply (Hcases t _ Ht).
Qed.

Lemma list_nodup s a t : ps_rel s a → NoDup (ps_list_of t s).
Proof.
  intros Hr. rewrite (rel_lists _ _ Hr). apply NoDup_fmap_2_strong; [|apply NoDup_map_to_list].
  intros [i p] [j q] Hp Hq E. cbn in E. subst q. apply elem_of_map_to_list in Hp, Hq. f_equal.
  assert (∀ k, ps_of t s !! k = Some p → k = id_of p) as Hk.
  { intros k Ek. rewrite (rel_of _ _ Hr) in Ek. destruct (a !! k) as [[t' p']|] eqn:Ea; [|done]. cbn in Ek.
    case_decide; [|done]. injection Ek as ->. by destruct (rel_wf _ _ Hr _ _ _ Ea) as [-> _]. }
  by rewrite (Hk i), (Hk j).
Qed.

(** Lists of different types one after the other. *)
Lemma lists_nodup s a ts : ps_rel s a → NoDup ts → NoDup (concat ((λ t, ps_list_of t s) <$> ts)).
Proof.
  intros Hr Hts. induction Hts as [|t ts Ht _ IH]; [constructor|]. cbn. apply NoDup_app. split; [by apply (list_nodup s a)|].
  split; [|done]. intros p Hp Hq. apply (list_elem _ _ _ _ Hr) in Hp. apply list_elem_of_In, in_concat in Hq as (l & Hl & Hq).
  apply list_elem_of_In, list_elem_of_fmap in Hl as (t' & -> & Ht'). apply list_elem_of_In, (list_elem _ _ _ _ Hr) in Hq.
  rewrite Hp in Hq. injection Hq as ->. done.
Qed.

Lemma all_peers s a : ps_rel s a → GetPeers s = concat ((λ t, ps_list_of t s) <$> set_types).
Proof. intros Hr. unfold GetPeers. rewrite (rel_all _ _ Hr). cbn. by rewrite app_nil_r, <- !app_assoc. Qed.

Lemma rel_facts s a : ps_rel s a →
  (∀ id, ps_Peer id s = snd <$> a !! id) ∧ ps_Len s = size a ∧ NoDup (GetPeers s) ∧ CountPeers s = size a ∧
  (∀ p, p ∈ ps_peerList s ↔ ∃ t, a !! id_of p = Some (t, p) ∧ t ≠ PeerTypePending).
Proof.
  intros Hr. assert (NoDup set_types) as Hts by (apply (bool_decide_unpack _); by vm_compute).
  assert (NoDup (GetPeers s)) as Hnd by (rewrite (all_peers s a Hr); by apply (lists_nodup s a)).
  assert (∀ p, p ∈ ps_peerList s ↔ ∃ t, a !! id_of p = Some (t, p) ∧ t ≠ PeerTypePending) as Hall.
  { intros p. rewrite (rel_all _ _ Hr), !elem_of_app.
    rewrite (list_elem s a PeerTypeMe p Hr : p ∈ ps_mePeerList s ↔ _), (list_elem s a PeerTypeImportant p Hr : p ∈ ps_importantPeerList s ↔ _),
      (list_elem s a PeerTypeMember p Hr : p ∈ ps_memberPeerList s ↔ _). split.
    - intros [[E|E]|E]; by eexists.
    - intros (t & E & Ht). destruct (rel_wf _ _ Hr _ _ _ E) as [_ Hin]. revert E Ht. pattern t.
      apply (set_types_cases t _ Hin); auto. by intros _. }
  split_and!; try done.
  - intros id. unfold ps_Peer. rewrite (rel_types _ _ Hr). destruct (a !! id) as [[t p]|] eqn:Ea; [|done]. cbn.
    by rewrite (rel_get _ _ _ _ _ Hr Ea).
  - unfold ps_Len. replace (ps_peerTypes s) with (fst <$> a) by (apply map_eq; intros id; rewrite lookup_fmap; by rewrite (rel_types _ _ Hr)).
    apply map_size_fmap.
  - unfold CountPeers. rewrite <- length_app. fold (GetPeers s).
    assert (GetPeers s ≡ₚ (λ x, x.2.2) <$> map_to_list a) as ->.
    { apply NoDup_Permutation; [done| |].
      - apply NoDup_fmap_2_strong; [|apply NoDup_map_to_list]. intros [i [t p]] [j [u q]] Hp Hq E. cbn in E. subst q.
        apply elem_of_map_to_list in Hp, Hq. destruct (rel_wf _ _ Hr _ _ _ Hp) as [E1 _], (rel_wf _ _ Hr _ _ _ Hq) as [E2 _].
        subst i j. rewrite Hp in Hq. by injection Hq as ->.
      - intros p. unfold GetPeers. rewrite elem_of_app, Hall, (list_elem s a PeerTypePending p Hr : p ∈ ps_pendingPeerList s ↔ _).
        rewrite list_elem_of_fmap. split.
        + intros [(t & E & _)|E]; [exists (id_of p, (t, p))|exists (id_of p, (PeerTypePending, p))]; (split; [done|]);
            by apply elem_of_map_to_list.
        + intros ([id [t q]] & -> & Hin). cbn. apply elem_of_map_to_list in Hin. destruct (rel_wf _ _ Hr _ _ _ Hin) as [E _].
          subst id. destruct (decide (t = PeerTypePending)) as [->|Ht]; [by right|left; by exists t]. }
    by rewrite length_fmap, length_map_to_list.
Qed.

Lemma empty_rel c : ps_rel (MkPeerSet ∅ ∅ [] ∅ [] ∅ [] ∅ [] [] c) ∅.
Proof.
  split.
  - intros id. by rewrite !lookup_empty.
  - intros t id. rewrite lookup_empty. by destruct t.
  - intros id t p. by rewrite lookup_empty.
  - intros t. by destruct t.
  - done.
Qed.

Lemma ps_step_refines ord cmd s a :
  range_ok ord → (∀ p t, cmd = CRegister p t → t ∈ set_types) → ps_rel s a →
  ∃ a', ps_spec (a, ps_closed s) cmd (ps_step ord cmd s).2 (a', ps_closed (ps_step ord cmd s).1) ∧ ps_rel (ps_step ord cmd s).1 a'.
Proof.
  intros Ho Ht Hr. destruct cmd as [p t|p|u|]; cbn [ps_step].
  - destruct (ps_closed s) eqn:Hc.
    + exists a. unfold ps_Register. rewrite Hc. cbn. rewrite Hc. split; [constructor|done].
    + destruct (Register_refines ord p t s a Ho (Ht p t eq_refl) Hr Hc) as (a' & H1 & H2 & H3). exists a'.
      destruct (ps_Register ord p t s). cbn in *. by rewrite H3.
  - destruct (Unregister_refines ord p s a _ Ho Hr eq_refl) as (a' & H1 & H2 & H3 & _). exists a'.
    destruct (ps_Unregister ord p s). cbn in *. by rewrite H3.
  - pose proof (UnregisterUser_refines ord u s a _ Ho Hr eq_refl) as Hu.
    destruct (ps_UnregisterPeerByOtherUserID ord u s) as [[s' p] t]. destruct Hu as (a' & H1 & H2 & H3). exists a'. cbn. by rewrite H3.
  - exists ∅. split; [constructor|apply empty_rel].
Qed.

End PeerSet.

(** ** Runs

    Commands with the order of [range] and who is behind the connections at the
    time; what they return. *)

Definition ps_cmd_at : Type := (gmap NodeID positive → list positive) * (positive → option PttID) * ps_cmd.
Fixpoint ps_run (id_of : positive → NodeID) (cs : list ps_cmd_at) (s : PttPeerSet) : PttPeerSet * list ps_result :=
  match cs with
  | [] => (s, [])
  | (ord, user_of, c) :: cs =>
    let '(s, r) := ps_step id_of user_of ord c s in let '(s, rs) := ps_run id_of cs s in (s, r :: rs)
  end.
Inductive ps_spec_run (id_of : positive → NodeID) : list ps_cmd_at → peer_map * bool → list ps_result → peer_map * bool → Prop :=
  | run_nil a : ps_spec_run id_of [] a [] a
  | run_cons ord user_of c cs a a1 a2 r rs :
      ps_spec id_of user_of a c r a1 → ps_spec_run id_of cs a1 rs a2 → ps_spec_run id_of ((ord, user_of, c) :: cs) a (r :: rs) a2.
Definition ps_cmds_ok (cs : list ps_cmd_at) : Prop :=
  Forall (λ '(ord, _, c), range_ok ord ∧ ∀ p t, c = CRegister p t → t ∈ set_types) cs.

Lemma ps_run_refines id_of cs s a :
  ps_cmds_ok cs → ps_rel id_of s a →
  ∃ a', ps_spec_run id_of cs (a, ps_closed s) (ps_run id_of cs s).2 (a', ps_closed (ps_run id_of cs s).1) ∧
    ps_rel id_of (ps_run id_of cs s).1 a'.
Proof.
  intros Hok. revert s a. induction Hok as [|[[ord user_of] c] cs [Ho Hc] _ IH]; intros s a Hr.
  { exists a. split; [constructor|done]. }
  cbn [ps_run]. destruct (ps_step_refines id_of user_of ord c s a Ho Hc Hr) as (a1 & H1 & H2).
  destruct (ps_step id_of user_of ord c s) as [s1 r]. cbn [fst snd] in *. destruct (IH s1 a1 H2) as (a2 & H3 & H4).
  destruct (ps_run id_of cs s1) as [s2 rs]. exists a2. split; [by eapply run_cons|done].
Qed.


(** A second dial of a node is forgotten when the first expires, and stays in
    the heap without an entry of the map. *)
Lemma dial_forgotten now id k1 k2 ts1 ts2 :
  let expireTS := MkTs (i64 (Ts now - ExpireDialHistorySeconds)) (NanoTs now) in
  IsLess ts1 ts2 = true → IsLess ts1 expireTS = true → IsLess ts2 expireTS = false →
  let h := dh_Expire now (dh_Add ts2 id k2 (dh_Add ts1 id k1 NewDialHistory)) in
  dh_hist h = [MkDialInfo id ts2 k2] ∧ dh_Get id h = None.
Proof.
  intros expireTS H12 H1 H2. assert (IsLess ts2 ts1 = false) as H21.
  { destruct (IsLess ts2 ts1) eqn:E; [|done]. apply IsLess_spec in E, H12. exfalso. by apply (ts_lt_irrefl ts1), (ts_lt_trans _ ts2). }
  assert (dh_Add ts2 id k2 (dh_Add ts1 id k1 NewDialHistory) =
    MkDialHist [MkDialInfo id ts1 k1; MkDialInfo id ts2 k2] (<[id := MkDialInfo id ts2 k2]> (<[id := MkDialInfo id ts1 k1]> ∅))) as E.
  { unfold dh_Add. cbn. by rewrite H21. }
  cbn zeta. unfold dh_Expire. fold expireTS. clearbody expireTS. rewrite E. cbn [dh_hist length expire_while di_UpdateTS].
  rewrite H1. cbn [dh_Pop dh_hist expire_while di_UpdateTS]. rewrite H2. split; [done|]. unfold dh_Get. cbn. apply lookup_delete_eq.
Qed.

(** ** Witnesses *)

Definition pp_id (p : positive) : NodeID := [byte_of_Z (Zpos p)].
Definition pp_ord (m : gmap NodeID positive) : list positive := (map_to_list m).*2.
(** Connection 2 is of the user 7. *)
Definition pp_user (p : positive) : option PttID := if decide (p = 2%positive) then Some [x07] else None.
Definition pp_cmds : list ps_cmd_at :=
  (λ c, (pp_ord, pp_user, c)) <$>
  [CRegister 1 PeerTypeMe; CRegister 2 PeerTypePending; CRegister 2 PeerTypeMember; CUnregister 3; CUnregisterUser [x07]].

