(* ===== verification/Router.v ===== *)
(** * The peers of the router

    [service/router_utils_peer.go], with the parts of
    [router_utils_entity.go], [protocol_manager_utils_peer.go] and
    [protocol_identify_peer*.go] that concern peers: a new connection is a
    random peer; when its user is known it becomes what it is to the entities -
    mine, important, a member, pending - within the limits of the
    configuration, and is handed to the entities; a connection that ends is
    taken out of all.

    Operations run one at a time, as under [peerLock]. *)

From S2P Require Import Prelude GoTime CommonTypes Discover PttPeer.

Set Default Goal Selector "!".
Set Default Proof Using "Type".

(** ** Entities *)

(** What a protocol manager tells about a peer; [pm_taken] is whether its
    synchronisation takes a new peer from the channel (otherwise there are no
    more peers). *)
Record PM := MkPM {
  pm_isMyDevice : PttPeer → bool;
  pm_isImportantPeer : PttPeer → bool;
  pm_isMemberPeer : PttPeer → bool;
  pm_isPendingPeer : PttPeerSet → PttPeer → bool;
  pm_getPeerType : PttPeerSet → PttPeer → PeerType;
  pm_isStart : bool; pm_taken : bool
}.
Record Entity := MkEntity { e_pm : PM; e_peers : PttPeerSet }.
Definition set_peers (s : PttPeerSet) (e : Entity) := MkEntity (e_pm e) s.

Definition defaultIsMyDevice (peer : PttPeer) : bool := bool_decide (p_PeerType peer = PeerTypeMe).
Definition defaultIsImportantPeer (isMaster : PttID → bool) (peer : PttPeer) : bool :=
  match p_UserID peer with None => false | Some u => isMaster u end.
Definition defaultIsMemberPeer (isMember : PttID → bool) (peer : PttPeer) : bool :=
  match p_UserID peer with None => false | Some u => isMember u end.
Definition defaultIsPendingPeer (s : PttPeerSet) (peer : PttPeer) : bool := ps_IsPendingPeer (p_ID peer) s.
Definition defaultGetPeerType (important member : PttPeer → bool) (pending : PttPeerSet → PttPeer → bool)
    (s : PttPeerSet) (peer : PttPeer) : PeerType :=
  if decide (p_PeerType peer = PeerTypeMe) then PeerTypeMe
  else if important peer then PeerTypeImportant
  else if member peer then PeerTypeMember
  else if pending s peer then PeerTypePending
  else PeerTypeRandom.

(** A protocol manager that overrides none of them. *)
Definition default_pm (isMaster isMember : PttID → bool) (isStart taken : bool) : PM :=
  MkPM defaultIsMyDevice (defaultIsImportantPeer isMaster) (defaultIsMemberPeer isMember) defaultIsPendingPeer
    (defaultGetPeerType (defaultIsImportantPeer isMaster) (defaultIsMemberPeer isMember) defaultIsPendingPeer) isStart taken.

(** ** The router *)

Record Config := MkConfig {
  MaxPeers : Z; MaxHubPeers : Z; MaxImportantPeers : Z; MaxMemberPeers : Z; MaxPendingPeers : Z; MaxRandomPeers : Z
}.
(** [r_heap] has the connections by address; [r_removed] the nodes the server was
    told to remove and [r_added] those to add, [r_sent] the challenges of
    [IdentifyPeer] that were sent, with the entity. *)
Record BaseRouter := MkRouter {
  r_heap : gmap positive PttPeer;
  r_myPeers : gmap NodeID positive; r_hubPeers : gmap NodeID positive; r_importantPeers : gmap NodeID positive;
  r_memberPeers : gmap NodeID positive; r_pendingPeers : gmap NodeID positive; r_randomPeers : gmap NodeID positive;
  r_userPeerMap : gmap PttID NodeID;
  r_dialHist : DialHistory;
  r_entities : gmap PttID Entity;
  r_myDevice : option (PttPeer → bool);
  r_ops : gmap bytes PttID;
  r_removed : list NodeID; r_added : list NodeID; r_sent : list (positive * PttID * bytes)
}.
Implicit Types (r : BaseRouter) (p : positive) (t : PeerType).

Definition peer_at r p : PttPeer := r_heap r !!! p.
Definition set_heap h r := MkRouter h (r_myPeers r) (r_hubPeers r) (r_importantPeers r) (r_memberPeers r) (r_pendingPeers r)
  (r_randomPeers r) (r_userPeerMap r) (r_dialHist r) (r_entities r) (r_myDevice r) (r_ops r) (r_removed r) (r_added r) (r_sent r).
Definition on_peer (f : PttPeer → PttPeer) p r := set_heap (<[p := f (peer_at r p)]> (r_heap r)) r.
Definition set_users m r := MkRouter (r_heap r) (r_myPeers r) (r_hubPeers r) (r_importantPeers r) (r_memberPeers r)
  (r_pendingPeers r) (r_randomPeers r) m (r_dialHist r) (r_entities r) (r_myDevice r) (r_ops r) (r_removed r) (r_added r) (r_sent r).
Definition set_hist h r := MkRouter (r_heap r) (r_myPeers r) (r_hubPeers r) (r_importantPeers r) (r_memberPeers r)
  (r_pendingPeers r) (r_randomPeers r) (r_userPeerMap r) h (r_entities r) (r_myDevice r) (r_ops r) (r_removed r) (r_added r) (r_sent r).
Definition set_entities m r := MkRouter (r_heap r) (r_myPeers r) (r_hubPeers r) (r_importantPeers r) (r_memberPeers r)
  (r_pendingPeers r) (r_randomPeers r) (r_userPeerMap r) (r_dialHist r) m (r_myDevice r) (r_ops r) (r_removed r) (r_added r) (r_sent r).
Definition set_out removed added sent r := MkRouter (r_heap r) (r_myPeers r) (r_hubPeers r) (r_importantPeers r) (r_memberPeers r)
  (r_pendingPeers r) (r_randomPeers r) (r_userPeerMap r) (r_dialHist r) (r_entities r) (r_myDevice r) (r_ops r) removed added sent.

(** The map of a type, as the [switch]es choose it. *)
Definition r_of t r : gmap NodeID positive :=
  match t with
  | PeerTypeMe => r_myPeers r | PeerTypeHub => r_hubPeers r | PeerTypeImportant => r_importantPeers r
  | PeerTypeMember => r_memberPeers r | PeerTypePending => r_pendingPeers r | PeerTypeRandom => r_randomPeers r
  | _ => ∅
  end.
Definition set_r_of t (f : gmap NodeID positive → gmap NodeID positive) r : BaseRouter :=
  let g u m := if decide (u = t) then f m else m in
  MkRouter (r_heap r) (g PeerTypeMe (r_myPeers r)) (g PeerTypeHub (r_hubPeers r)) (g PeerTypeImportant (r_importantPeers r))
    (g PeerTypeMember (r_memberPeers r)) (g PeerTypePending (r_pendingPeers r)) (g PeerTypeRandom (r_randomPeers r))
    (r_userPeerMap r) (r_dialHist r) (r_entities r) (r_myDevice r) (r_ops r) (r_removed r) (r_added r) (r_sent r).
Definition max_of (c : Config) t : option Z :=
  match t with
  | PeerTypeHub => Some (MaxHubPeers c) | PeerTypeImportant => Some (MaxImportantPeers c) | PeerTypeMember => Some (MaxMemberPeers c)
  | PeerTypePending => Some (MaxPendingPeers c) | PeerTypeRandom => Some (MaxRandomPeers c)
  | _ => None
  end.
Definition router_types : list PeerType :=
  [PeerTypeMe; PeerTypeHub; PeerTypeImportant; PeerTypeMember; PeerTypePending; PeerTypeRandom].

Section Router.
Variable config : Config.
(** The order in which [range] goes over a map, and the peer at the random
    index of [dropAnyPeerCore]. *)
Variable ord : gmap NodeID positive → list positive.
Variable pick : gmap NodeID positive → option NodeID.

(** ** The maps *)

Definition GetPeer (id : NodeID) r : option positive :=
  foldr (λ t rest, match r_of t r !! id with Some p => Some p | None => rest end) None router_types.

(** In the order of the code; my own peers are not looked at. *)
Definition GetPeerByUserID (u : PttID) r : option positive :=
  foldr (λ t rest, match by_user (p_UserID ∘ peer_at r) (Some u) (ord (r_of t r)) with Some p => Some p | None => rest end)
    None (tail router_types).

Definition server_RemovePeer (id : NodeID) r : BaseRouter := set_out (r_removed r ++ [id]) (r_added r) (r_sent r) r.
Definition dropAnyPeerCore (peers : gmap NodeID positive) r : BaseRouter :=
  match pick peers with Some id => server_RemovePeer id r | None => r end.
(** From random peers upwards, to the type of the new one. *)
Fixpoint drop_loop t (ts : list PeerType) r : BaseRouter * option GoErr :=
  match ts with
  | [] => (r, None)
  | u :: ts =>
    if decide (size (r_of u r) ≠ 0) then (dropAnyPeerCore (r_of u r) r, None)
    else if decide (t = u) then (r, Some P2PDiscTooManyPeers) else drop_loop t ts r
  end.
Definition dropAnyPeer t r : BaseRouter * option GoErr :=
  drop_loop t [PeerTypeRandom; PeerTypePending; PeerTypeMember; PeerTypeImportant; PeerTypeHub] r.

Definition len_of t r : Z := Z.of_nat (size (r_of t r)).
Definition lenPeers r : Z := foldr (λ t n, len_of t r + n)%Z 0%Z router_types.
Definition ValidatePeer (nodeID : NodeID) (userID : option PttID) t r : BaseRouter * option GoErr :=
  if decide (t = PeerTypeMe) then (r, None) else
  if match userID with
     | Some u => match r_userPeerMap r !! u with Some orig => negb (bool_decide (orig = nodeID)) | None => false end
     | None => false
     end then (r, Some SvcErrAlreadyRegistered) else
  if match max_of config t with Some m => (m <=? len_of t r)%Z | None => false end then (r, Some P2PDiscTooManyPeers) else
  if (MaxPeers config <=? lenPeers r)%Z then dropAnyPeer t r else (r, None).

Definition SetPeerType p t (isForce : bool) r : BaseRouter * option GoErr :=
  let peer := peer_at r p in
  if p_IsToClose peer then (r, Some SvcErrToClose) else
  let origPeerType := p_PeerType peer in
  if negb isForce && (pt_num t <=? pt_num origPeerType) then (r, None) else
  let r := on_peer (set_type t) p r in
  let r := set_r_of origPeerType (delete (p_ID peer)) r in
  let r := set_r_of t <[p_ID peer := p]> r in
  (match p_UserID peer with Some u => set_users (<[u := p_ID peer]> (r_userPeerMap r)) r | None => r end, None).

Definition UnsetPeerType p r : BaseRouter * option GoErr :=
  let peer := peer_at r p in
  let t := p_PeerType peer in
  if decide (t ∈ router_types) then
    if decide (r_of t r !! p_ID peer = Some p) then (set_r_of t (delete (p_ID peer)) r, None) else (r, Some SvcErrNotRegistered)
  else (r, None).

(** ** Entities and peers *)

Definition id_at r : positive → NodeID := λ p, p_ID (peer_at r p).
Definition pm_Register r p t (e : Entity) : Entity * option GoErr :=
  let '(s, err) := ps_Register (id_at r) ord p t (e_peers e) in (set_peers s e, err).
Definition checkOrigPeerAndRegister r p t (e : Entity) : Entity * option GoErr :=
  match ps_Peer (id_at r p) (e_peers e) with
  | None => (e, Some SvcErrNotRegistered)
  | Some origPeer => if decide (origPeer ≠ p) then (e, Some SvcErrAlreadyRegistered) else pm_Register r p t e
  end.
Definition RegisterPeer r p t (e : Entity) : Entity * option GoErr :=
  if decide (t = PeerTypeRandom) then (e, None) else
  if decide (t = PeerTypePending) then pm_Register r p PeerTypePending e else
  let '(e, err) := checkOrigPeerAndRegister r p t e in
  match err with
  | None => (e, None)
  | Some SvcErrAlreadyRegistered => (e, err)
  | Some _ =>
    if negb (pm_isStart (e_pm e)) then (e, None)
    else if pm_taken (e_pm e) then pm_Register r p t e else (e, Some P2PDiscQuitting)
  end.

(** [peers.Unregister], the first part of [UnregisterPeer]. *)
Definition pm_Unregister r p (e : Entity) : Entity * option GoErr :=
  let '(s, err) := ps_Unregister (id_at r) ord p (e_peers e) in (set_peers s e, err).

Definition any_entity r (f : Entity → bool) : bool := existsb (λ x, f x.2) (map_to_list (r_entities r)).
Definition IsHubPeer (peer : PttPeer) : bool := false.
Definition determinePeerTypeFromAllEntities r p : PeerType :=
  let peer := peer_at r p in
  if match r_myDevice r with Some f => f peer | None => false end then PeerTypeMe
  else if IsHubPeer peer then PeerTypeHub
  else if any_entity r (λ e, pm_isImportantPeer (e_pm e) peer) then PeerTypeImportant
  else if any_entity r (λ e, pm_isMemberPeer (e_pm e) peer) then PeerTypeMember
  else if any_entity r (λ e, pm_isPendingPeer (e_pm e) (e_peers e) peer) then PeerTypePending
  else PeerTypeRandom.

Definition addPeerKnownUserID p t r : BaseRouter * option GoErr :=
  let peer := peer_at r p in
  match ValidatePeer (p_ID peer) (p_UserID peer) t r with
  | (r, Some e) => (r, Some e)
  | (r, None) => SetPeerType p t false r
  end.

Definition RegisterPeerToEntities p r : BaseRouter :=
  let peer := peer_at r p in
  if p_IsRegistered peer then r else
  let register e :=
    let fitPeerType := pm_getPeerType (e_pm e) (e_peers e) peer in
    if pt_num fitPeerType <? pt_num PeerTypePending then e else (RegisterPeer r p fitPeerType e).1 in
  on_peer (set_registered true) p (set_entities (register <$> r_entities r) r).

Definition UnregisterPeerFromEntities p r : BaseRouter :=
  set_entities ((λ e, (pm_Unregister r p e).1) <$> r_entities r) r.

Definition SetupPeer p t r : BaseRouter * option GoErr :=
  match p_UserID (peer_at r p) with
  | None => (r, Some SvcErrPeerUserID)
  | Some _ =>
    match addPeerKnownUserID p t r with
    | (r, Some e) => (r, Some e)
    | (r, None) => (RegisterPeerToEntities p r, None)
    end
  end.

Definition FinishIdentifyPeer p (isResetPeerType : bool) r : BaseRouter * option GoErr :=
  match p_UserID (peer_at r p) with
  | None => (r, Some SvcErrPeerUserID)
  | Some _ =>
    let r := if isResetPeerType then (SetPeerType p PeerTypeRandom true (on_peer (set_registered false) p r)).1 else r in
    if p_IsRegistered (peer_at r p) then (r, None) else SetupPeer p (determinePeerTypeFromAllEntities r p) r
  end.

Definition ResetPeerType p (isForceReset : bool) r : BaseRouter * option GoErr :=
  if p_IsToClose (peer_at r p) then (r, Some SvcErrToClose) else
  match p_UserID (peer_at r p) with
  | None => (r, Some SvcErrPeerUserID)
  | Some _ =>
    let r := if isForceReset then (SetPeerType p PeerTypeRandom true r).1 else r in
    addPeerKnownUserID p (determinePeerTypeFromAllEntities r p) r
  end.

(** [UnregisterPeer] of the protocol manager of the entity [id]. *)
Definition UnregisterPeer (id : PttID) p (isForceReset isForceNotReset : bool) r : BaseRouter * option GoErr :=
  match r_entities r !! id with
  | None => (r, None)
  | Some e =>
    let peer := peer_at r p in
    let peerType := pm_getPeerType (e_pm e) (e_peers e) peer in
    let '(e, err) := pm_Unregister r p e in
    let r := set_entities (<[id := e]> (r_entities r)) r in
    match err with
    | Some _ => (r, err)
    | None =>
      if isForceNotReset then (r, None)
      else if negb isForceReset && (pt_num peerType <? pt_num (p_PeerType peer)) then (r, None)
      else ((ResetPeerType p isForceReset r).1, None)
    end
  end.

Definition UnregisterPeerByOtherUserID (id u : PttID) (isResetPeerType : bool) r : BaseRouter :=
  match r_entities r !! id with
  | None => r
  | Some e =>
    let '(s, peer, peerType) := ps_UnregisterPeerByOtherUserID (id_at r) (p_UserID ∘ peer_at r) ord u (e_peers e) in
    let r := set_entities (<[id := set_peers s e]> (r_entities r)) r in
    match peer with
    | None => r
    | Some p =>
      if negb isResetPeerType && (pt_num peerType <? pt_num (p_PeerType (peer_at r p))) then r
      else (ResetPeerType p isResetPeerType r).1
    end
  end.

Definition CleanPeers (id : PttID) r : BaseRouter :=
  let clean f r := match r_entities r !! id with
                   | None => r
                   | Some e => foldl (λ r p, (UnregisterPeer id p false false r).1) r (f (e_peers e))
                   end in
  clean ps_pendingPeerList (clean ps_peerList r).

Definition RemovePeer p r : BaseRouter :=
  let r := on_peer set_toclose p r in
  let r := UnregisterPeerFromEntities p r in
  let r := (UnsetPeerType p r).1 in
  server_RemovePeer (p_ID (peer_at r p)) r.

Definition ClosePeers r : BaseRouter :=
  foldl (λ r p, server_RemovePeer (id_at r p) r) r (concat ((λ t, ord (r_of t r)) <$> router_types)).

(** ** An entity and the peers there are *)

(** What a peer is to an entity, as the loops of [registerEntityPeers] ask. *)
Definition fit_type (e : Entity) (peer : PttPeer) : PeerType :=
  if pm_isMyDevice (e_pm e) peer then PeerTypeMe
  else if pm_isImportantPeer (e_pm e) peer then PeerTypeImportant
  else if pm_isMemberPeer (e_pm e) peer then PeerTypeMember
  else if pm_isPendingPeer (e_pm e) (e_peers e) peer then PeerTypePending
  else PeerTypeRandom.
(** One loop: the entity with those that fit, those to move to a higher type. *)
Definition fit_loop r t (e : Entity) : Entity * list (positive * PeerType) :=
  foldl (λ '(e, moves) p,
    let u := if decide (t = PeerTypeMe) then PeerTypeMe else fit_type e (peer_at r p) in
    ((RegisterPeer r p u e).1,
     if decide ((t ∉ [PeerTypeMe; PeerTypeHub]) ∧ pt_num t < pt_num u) then moves ++ [(p, u)] else moves))
    (e, []) (ord (r_of t r)).
(** Those to move are taken out of their map first; those of [pendingPeers] out
    of [memberPeers]. *)
Definition fit_round t (st : BaseRouter * Entity * list (positive * PeerType)) : BaseRouter * Entity * list (positive * PeerType) :=
  let '(r, e, moves) := st in
  let '(e, moves') := fit_loop r t e in
  let from := if decide (t = PeerTypePending) then PeerTypeMember else t in
  (foldl (λ r x, set_r_of from (delete (id_at r x.1)) r) r moves', e, moves ++ moves').
(** First those that become mine, then the important ones, and so on. *)
Definition in_order (moves : list (positive * PeerType)) : list (positive * PeerType) :=
  concat ((λ t, filter (λ x, x.2 = t) moves) <$> set_types).
Definition registerEntityPeers (e : Entity) r : BaseRouter * Entity :=
  let '(r, e, moves) := foldl (λ st t, fit_round t st) (r, e, []) router_types in
  (foldl (λ r x, (SetPeerType x.1 x.2 false r).1) r (in_order moves), e).
Definition RegisterEntity (id : PttID) (e : Entity) r : BaseRouter :=
  let r := set_entities (<[id := e]> (r_entities r)) r in
  let '(r, e) := registerEntityPeers e r in
  set_entities (<[id := e]> (r_entities r)) r.
Definition UnregisterEntity (id : PttID) r : BaseRouter := set_entities (delete id (r_entities r)) r.

Definition RegisterEntityPeerWithOtherUserID (id : PttID) (myID u : PttID) t r : BaseRouter * option GoErr :=
  if decide (myID = u) then (r, None) else
  match GetPeerByUserID u r with
  | None => (r, Some ErrInvalidID)
  | Some p =>
    match r_entities r !! id with
    | None => (r, None)
    | Some e => let '(e, err) := RegisterPeer r p t e in (set_entities (<[id := e]> (r_entities r)) r, err)
    end
  end.

Definition getEntityFromHash (hash : bytes) r : (PttID * Entity) + GoErr :=
  match r_ops r !! hash with
  | None => inr SvcErrInvalidData
  | Some id => match r_entities r !! id with Some e => inl (id, e) | None => inr SvcErrInvalidData end
  end.

(** ** New connections and dials

    [salt] is the result of [NewSalt]. *)

Definition sends p (id : PttID) (c : bytes) r := set_out (r_removed r) (r_added r) (r_sent r ++ [(p, id, c)]) r.
(** [IdentifyPeer] of the protocol manager and of the router. *)
Definition IdentifyPeer (id : PttID) p (salt : outcome bytes) (isForce : bool) r : BaseRouter * outcome bytes :=
  let '(peer, res) := InitID id salt isForce (peer_at r p) in (on_peer (λ _, peer) p r, res).
Definition pm_IdentifyPeer (id : PttID) p (salt : outcome bytes) r : BaseRouter :=
  match p_UserID (peer_at r p) with
  | Some _ => r
  | None =>
    match IdentifyPeer id p salt false r with
    | (r, Ok c) => sends p id c r
    | (r, _) => r
    end
  end.

Definition checkDialEntity p r : option PttID :=
  d ← dh_Get (p_ID (peer_at r p)) (r_dialHist r);
  id ← (r_ops r !! di_OpKey d);
  _ ← (r_entities r !! id);
  Some id.
Definition CheckDialEntityAndIdentifyPeer p (salt : outcome bytes) r : BaseRouter :=
  match checkDialEntity p r with Some id => pm_IdentifyPeer id p salt r | None => r end.

Definition AddNewPeer p (salt : outcome bytes) r : BaseRouter * option GoErr :=
  match ValidatePeer (p_ID (peer_at r p)) (p_UserID (peer_at r p)) PeerTypeRandom r with
  | (r, Some e) => (r, Some e)
  | (r, None) =>
    match SetPeerType p PeerTypeRandom false r with
    | (r, Some e) => (r, Some e)
    | (r, None) => (CheckDialEntityAndIdentifyPeer p salt r, None)
    end
  end.

(** [now] is the timestamp of the dial, or the error of reading the clock. *)
Definition AddDial (nodeID : NodeID) (opKey : bytes) t (isAddPeer : bool) (now : outcome Timestamp) (salt : outcome bytes) r :
    BaseRouter * option GoErr :=
  let peer := GetPeer nodeID r in
  let dial r :=
    match now with
    | Ok ts =>
      let r := set_hist (dh_Add ts nodeID opKey (r_dialHist r)) r in
      match peer with
      | Some p => (CheckDialEntityAndIdentifyPeer p salt r, None)
      | None => (if isAddPeer then set_out (r_removed r) (r_added r ++ [nodeID]) (r_sent r) r else r, None)
      end
    | Err e => (r, Some e)
    | Panic => (r, Some ErrExternal)
    end in
  match peer with
  | Some p =>
    match p_UserID (peer_at r p) with
    | Some _ =>
      let r := if pt_num (p_PeerType (peer_at r p)) <? pt_num t then (ResetPeerType p false r).1 else r in
      match getEntityFromHash opKey r with
      | inr e => (r, Some e)
      | inl (id, e) => (set_entities (<[id := (RegisterPeer r p t e).1]> (r_entities r)) r, None)
      end
    | None => dial r
    end
  | None => dial r
  end.

(** ** The maps are those of the connections

    A connection is live from when it is a random peer until it is to close. *)

Definition live (q : PttPeer) : Prop := p_IsToClose q = false ∧ p_PeerType q ∈ router_types.
Definition in_heap r p (P : PttPeer → Prop) : Prop := ∃ q, r_heap r !! p = Some q ∧ P q.

(** All but the connections of [S], which are out of their map. *)
Record maps_ok (S : positive → Prop) r : Prop := {
  mo_sound t id p : r_of t r !! id = Some p → in_heap r p (λ q, live q ∧ p_ID q = id ∧ p_PeerType q = t);
  mo_complete p q : r_heap r !! p = Some q → live q → ¬ S p → r_of (p_PeerType q) r !! p_ID q = Some p;
  mo_unique p p' q q' : r_heap r !! p = Some q → r_heap r !! p' = Some q' → live q → live q' → p_ID q = p_ID q' → p = p'
}.
Definition nobody (p : positive) : Prop := False.

Lemma router_type_cases t (P : PeerType → Prop) :
  t ∈ router_types → P PeerTypeMe → P PeerTypeHub → P PeerTypeImportant → P PeerTypeMember → P PeerTypePending → P PeerTypeRandom → P t.
Proof. intros Ht. unfold router_types in Ht. repeat (apply elem_of_cons in Ht as [->|Ht]; [done|]). by apply elem_of_nil in Ht. Qed.
Lemma r_of_set t u f r : t ∈ router_types → r_of t (set_r_of u f r) = if decide (t = u) then f (r_of t r) else r_of t r.
Proof. intros Ht. pattern t. by apply (router_type_cases t _ Ht). Qed.
Lemma r_of_none t r : t ∉ router_types → r_of t r = ∅.
Proof. intros Ht. destruct t; try done; destruct Ht; pt_in. Qed.
Lemma r_of_in t r id p : r_of t r !! id = Some p → t ∈ router_types.
Proof. intros E. destruct (decide (t ∈ router_types)) as [|Hn]; [done|]. by rewrite r_of_none in E. Qed.

(** [r] and [r'] have the same connections in the same maps. *)
Definition same_maps r r' : Prop := r_heap r' = r_heap r ∧ ∀ t, r_of t r' = r_of t r.
Lemma maps_ok_same S r r' : same_maps r r' → maps_ok S r → maps_ok S r'.
Proof.
  intros [Eh Em] [H1 H2 H3]. split.
  - intros t id p. rewrite Em. unfold in_heap. rewrite Eh. apply H1.
  - intros p q. rewrite Eh, Em. apply H2.
  - intros p p' q q'. rewrite Eh. apply H3.
Qed.
#[local] Instance same_maps_refl : Reflexive same_maps.
Proof. by intros r. Qed.

(** A change of what does not matter to the maps. *)
Definition keeps (f : PttPeer → PttPeer) : Prop :=
  ∀ q, p_ID (f q) = p_ID q ∧ p_PeerType (f q) = p_PeerType q ∧ p_IsToClose (f q) = p_IsToClose q.
Lemma keeps_live f q : keeps f → live (f q) ↔ live q.
Proof. intros Hf. destruct (Hf q) as (_ & E2 & E3). unfold live. by rewrite E2, E3. Qed.

Lemma on_peer_lookup f p r p' q' : is_Some (r_heap r !! p) → r_heap (on_peer f p r) !! p' = Some q' →
  ∃ q, r_heap r !! p' = Some q ∧ (p' = p ∧ q' = f q ∨ p' ≠ p ∧ q' = q).
Proof.
  intros [q Eq] E. unfold on_peer in E. cbn in E. destruct (decide (p' = p)) as [->|Hp].
  - rewrite lookup_insert_eq in E. injection E as <-. exists q. split; [done|]. left. unfold peer_at.
    by rewrite (lookup_total_correct _ _ _ Eq).
  - rewrite lookup_insert_ne in E by done. exists q'. split; [done|]. by right.
Qed.
Lemma on_peer_at f p r : is_Some (r_heap r !! p) → r_heap (on_peer f p r) !! p = Some (f (peer_at r p)).
Proof. intros _. unfold on_peer. cbn. apply lookup_insert_eq. Qed.
Lemma peer_at_eq r p q : r_heap r !! p = Some q → peer_at r p = q.
Proof. apply lookup_total_correct. Qed.

Lemma maps_ok_keeps S f p r : keeps f → is_Some (r_heap r !! p) → maps_ok S r → maps_ok S (on_peer f p r).
Proof.
  intros Hf Hp [H1 H2 H3]. assert (∀ t, r_of t (on_peer f p r) = r_of t r) as Em by (by intros []).
  assert (∀ p' q', r_heap (on_peer f p r) !! p' = Some q' → ∃ q, r_heap r !! p' = Some q ∧
    p_ID q' = p_ID q ∧ p_PeerType q' = p_PeerType q ∧ (live q' ↔ live q)) as Hl.
  { intros p' q' E. destruct (on_peer_lookup _ _ _ _ _ Hp E) as (q & Eq & [[-> ->]|[_ ->]]); exists q; [|done].
    destruct (Hf q) as (E1 & E2 & _). split_and!; try done. all: by apply keeps_live. }
  split.
  - intros t id p'. rewrite Em. intros E. destruct (H1 _ _ _ E) as (q & Eq & Hlive & Hid & Ht).
    destruct (decide (p' = p)) as [->|Hne].
    + exists (f q). split; [rewrite on_peer_at, (peer_at_eq _ _ _ Eq); done|]. destruct (Hf q) as (E1 & E2 & _).
      split; [by apply keeps_live|]. by rewrite E1, E2.
    + exists q. split; [|done]. cbn. by rewrite lookup_insert_ne.
  - intros p' q' E Hlive HS. destruct (Hl _ _ E) as (q & Eq & E1 & E2 & E3). rewrite Em, E1, E2. apply H2; [done|by apply E3|done].
  - intros p1 p2 q1 q2 Ea Eb L1 L2. destruct (Hl _ _ Ea) as (q1' & Ea' & I1 & _ & L1'), (Hl _ _ Eb) as (q2' & Eb' & I2 & _ & L2').
    rewrite I1, I2. apply (H3 p1 p2 q1' q2'); [done|done|by apply L1'|by apply L2'].
Qed.

Lemma maps_ok_weaken (S S' : positive → Prop) r : (∀ p, S p → S' p) → maps_ok S r → maps_ok S' r.
Proof. intros Hs [H1 H2 H3]. split; [done| |done]. intros p q Eq Hl Hn. apply H2; auto. Qed.

(** [SetPeerType] that does something, on a connection that is live or the first
    of its node. *)
Lemma SetPeerType_moves S p t force r q :
  maps_ok S r → t ∈ router_types → r_heap r !! p = Some q → p_IsToClose q = false →
  force = true ∨ pt_num (p_PeerType q) < pt_num t →
  live q ∨ (∀ p' q', r_heap r !! p' = Some q' → live q' → p_ID q' ≠ p_ID q) →
  maps_ok (λ x, S x ∧ x ≠ p) (SetPeerType p t force r).1 ∧
  r_heap (SetPeerType p t force r).1 = <[p := set_type t q]> (r_heap r) ∧ (SetPeerType p t force r).2 = None.
Proof.
  intros [H1 H2 H3] Ht Eq Hc Hm Hl. unfold SetPeerType. rewrite (peer_at_eq _ _ _ Eq), Hc.
  assert (negb force && (pt_num t <=? pt_num (p_PeerType q)) = false) as ->.
  { destruct Hm as [->|Hm]; [done|]. destruct force; [done|]. cbn. apply Nat.leb_gt. lia. }
  cbn [fst snd]. set (r1 := set_r_of t _ _).
  assert (r_heap r1 = <[p := set_type t q]> (r_heap r)) as Eh.
  { subst r1. unfold on_peer. cbn. by rewrite (peer_at_eq _ _ _ Eq). }
  assert (∀ u, u ∈ router_types → r_of u r1 =
    (if decide (u = t) then <[p_ID q := p]> else id) (if decide (u = p_PeerType q) then delete (p_ID q) (r_of u r) else r_of u r)) as Em.
  { intros u Hu. subst r1. rewrite !r_of_set by done. replace (r_of u (on_peer (set_type t) p r)) with (r_of u r) by (by destruct u).
    by case_decide. }
  assert (∀ u id p', r_of u r1 !! id = Some p' → u = t ∧ id = p_ID q ∧ p' = p ∨ r_of u r !! id = Some p' ∧ p' ≠ p) as Hent.
  { intros u id p' E. pose proof (r_of_in _ _ _ _ E) as Hu. rewrite Em in E by done.
    assert (∀ id, (if decide (u = p_PeerType q) then delete (p_ID q) (r_of u r) else r_of u r) !! id = Some p' →
      r_of u r !! id = Some p' ∧ p' ≠ p) as Hdel.
    { intros i Ei. assert (r_of u r !! i = Some p') as Ei'.
      { case_decide; [|done]. by apply lookup_delete_Some in Ei as []. }
      split; [done|]. intros ->. destruct (H1 _ _ _ Ei') as (q' & Eq' & _ & Hi & Hty). rewrite Eq in Eq'. injection Eq' as <-.
      rewrite decide_True in Ei by done. apply lookup_delete_Some in Ei as []. done. }
    destruct (decide (u = t)) as [Hut|Hut]; [|right; by apply Hdel]. destruct (decide (id = p_ID q)) as [->|Hid].
    - rewrite lookup_insert_eq in E. injection E as <-. by left.
    - rewrite lookup_insert_ne in E by done. right. by apply Hdel. }
  assert (maps_ok (λ x, S x ∧ x ≠ p) r1) as Hok.
  { split.
    - intros u id p' E. destruct (Hent _ _ _ E) as [(-> & -> & ->)|[E' Hne]].
      + exists (set_type t q). rewrite Eh. split; [apply lookup_insert_eq|done].
      + destruct (H1 _ _ _ E') as (q' & Eq' & Hq'). exists q'. rewrite Eh, lookup_insert_ne by done. done.
    - intros p' q' E Hlive HS. rewrite Eh in E. destruct (decide (p' = p)) as [->|Hne].
      + rewrite lookup_insert_eq in E. injection E as <-. cbn. rewrite Em by done. rewrite decide_True by done. apply lookup_insert_eq.
      + rewrite lookup_insert_ne in E by done. assert (p_ID q ≠ p_ID q') as Hid.
        { destruct Hl as [Hl|Hl]; [|intros Ei; by apply (Hl p' q')]. intros Ei. apply Hne. by apply (H3 p' p q' q). }
        rewrite Em by apply Hlive. rewrite <- (H2 p' q' E Hlive); [|by intros Hs; apply HS].
        repeat case_decide; unfold id; rewrite ?lookup_insert_ne, ?lookup_delete_ne by done; done.
    - intros p1 p2 q1 q2 Ea Eb L1 L2 Ei. rewrite Eh in Ea, Eb. destruct (decide (p1 = p)) as [->|N1], (decide (p2 = p)) as [->|N2]; [done|..].
      + rewrite lookup_insert_eq in Ea. rewrite lookup_insert_ne in Eb by done. injection Ea as <-. cbn in Ei.
        destruct Hl as [Hl|Hl]; [by apply (H3 p p2 q q2)|]. exfalso. by apply (Hl p2 q2).
      + rewrite lookup_insert_ne in Ea by done. rewrite lookup_insert_eq in Eb. injection Eb as <-. cbn in Ei.
        destruct Hl as [Hl|Hl]; [by apply (H3 p1 p q1 q)|]. exfalso. by apply (Hl p1 q1).
      + rewrite lookup_insert_ne in Ea, Eb by done. by apply (H3 p1 p2 q1 q2). }
  split; [|by destruct (p_UserID q)]. apply (maps_ok_same _ r1); [|done]. split; [by destruct (p_UserID q)|].
  intros u. destruct (p_UserID q); [by destruct u|done].
Qed.

(** The connection's node, type and whether it is to close. *)
Definition attached r p : Prop := in_heap r p (λ q, p_PeerType q ∈ router_types).
Lemma SetPeerType_ok S p t force r :
  maps_ok S r → t ∈ router_types → attached r p →
  maps_ok S (SetPeerType p t force r).1 ∧ ∀ p', attached r p' → attached (SetPeerType p t force r).1 p'.
Proof.
  intros Hok Ht (q & Eq & Hq). destruct (p_IsToClose q) eqn:Hc.
  { unfold SetPeerType. rewrite (peer_at_eq _ _ _ Eq), Hc. done. }
  destruct (decide (force = true ∨ pt_num (p_PeerType q) < pt_num t)) as [Hm|Hm].
  - destruct (SetPeerType_moves S p t force r q Hok Ht Eq Hc Hm) as (M1 & M2 & _); [by left; split|]. split.
    + eapply maps_ok_weaken; [|exact M1]. by intros x [].
    + intros p' (q' & Eq' & Hq'). unfold attached, in_heap. rewrite M2. destruct (decide (p' = p)) as [->|Hne].
      * rewrite lookup_insert_eq. by eexists.
      * rewrite lookup_insert_ne by done. by exists q'.
  - unfold SetPeerType. rewrite (peer_at_eq _ _ _ Eq), Hc.
    assert (negb force && (pt_num t <=? pt_num (p_PeerType q)) = true) as ->; [|done].
    destruct force; [exfalso; apply Hm; by left|]. cbn. apply Nat.leb_le.
    destruct (decide (pt_num t ≤ pt_num (p_PeerType q))) as [|Hlt]; [done|]. exfalso. apply Hm. right. lia.
Qed.

(** ** Operations that keep the maps *)

Definition pres r r' : Prop := ∀ S, maps_ok S r → maps_ok S r' ∧ ∀ p, attached r p → attached r' p.
#[local] Instance pres_refl : Reflexive pres.
Proof. by intros r S Hr. Qed.
#[local] Instance pres_trans : Transitive pres.
Proof.
  intros r1 r2 r3 H12 H23 S Hr. destruct (H12 S Hr) as [Hr2 A12], (H23 S Hr2) as [Hr3 A23]. split; [done|]. auto.
Qed.
Lemma pres_same r r' : same_maps r r' → pres r r'.
Proof.
  intros Hs S Hr. split; [by apply (maps_ok_same S r)|]. destruct Hs as [Eh _]. intros p. unfold attached, in_heap. by rewrite Eh.
Qed.
Lemma pres_SetPeerType p t force r : t ∈ router_types → attached r p → pres r (SetPeerType p t force r).1.
Proof. intros Ht Hp S Hr. by apply SetPeerType_ok. Qed.
Lemma pres_keeps f p r : keeps f → attached r p → pres r (on_peer f p r).
Proof.
  intros Hf (q & Eq & Hq) S Hr. split; [by apply maps_ok_keeps|].
  intros p' (q' & Eq' & Hq'). destruct (decide (p' = p)) as [->|Hne].
  - rewrite Eq in Eq'. injection Eq' as <-. exists (f q). rewrite on_peer_at, (peer_at_eq _ _ _ Eq) by done. split; [done|].
    by destruct (Hf q) as (_ & -> & _).
  - exists q'. split; [|done]. cbn. by rewrite lookup_insert_ne.
Qed.

Lemma set_entities_same m r : same_maps r (set_entities m r).
Proof. split; [done|]. by intros []. Qed.
Lemma set_out_same a b c r : same_maps r (set_out a b c r).
Proof. split; [done|]. by intros []. Qed.
Lemma drop_loop_same t ts r : same_maps r (drop_loop t ts r).1.
Proof.
  induction ts as [|u ts IH]; [done|]. cbn [drop_loop]. case_decide; [|by case_decide].
  cbn. unfold dropAnyPeerCore. destruct (pick _); [apply set_out_same|done].
Qed.
Lemma ValidatePeer_same id u t r : same_maps r (ValidatePeer id u t r).1.
Proof.
  unfold ValidatePeer. case_decide; [done|]. destruct (match u with Some _ => _ | None => _ end); [done|].
  destruct (match max_of config t with Some _ => _ | None => _ end); [done|]. destruct (_ <=? _)%Z; [apply drop_loop_same|done].
Qed.

Lemma determine_type r p : determinePeerTypeFromAllEntities r p ∈ router_types.
Proof.
  unfold determinePeerTypeFromAllEntities. destruct (match r_myDevice r with Some _ => _ | None => _ end); [pt_in|]. cbn.
  repeat (destruct (any_entity r _); [pt_in|]). pt_in.
Qed.

(** Transitivity along the definition of an operation. *)
Lemma pres_step r r1 r2 p : pres r r1 → (attached r1 p → pres r1 r2) → attached r p → pres r r2.
Proof. intros H1 H2 Hp S Hr. destruct (H1 S Hr) as [Hr1 A1]. destruct (H2 (A1 p Hp) S Hr1) as [Hr2 A2]. split; [done|]. auto. Qed.

Lemma pres_addKnown p t r : t ∈ router_types → attached r p → pres r (addPeerKnownUserID p t r).1.
Proof.
  intros Ht Hp. unfold addPeerKnownUserID. pose proof (ValidatePeer_same (p_ID (peer_at r p)) (p_UserID (peer_at r p)) t r) as Hv.
  destruct (ValidatePeer _ _ _ _) as [r1 [e|]]; [by apply pres_same|]. apply (pres_step _ r1 _ p); [by apply pres_same| |done].
  intros Hp1. by apply pres_SetPeerType.
Qed.
Lemma pres_registered p r : attached r p → pres r (RegisterPeerToEntities p r).
Proof.
  intros Hp. unfold RegisterPeerToEntities. destruct (p_IsRegistered _); [done|].
  eapply (pres_step _ _ _ p); [apply pres_same, set_entities_same| |done]. intros Hp1. by apply pres_keeps.
Qed.
Lemma pres_SetupPeer p t r : t ∈ router_types → attached r p → pres r (SetupPeer p t r).1.
Proof.
  intros Ht Hp. unfold SetupPeer. destruct (p_UserID _); [|done]. pose proof (pres_addKnown p t r Ht Hp) as Ha.
  destruct (addPeerKnownUserID p t r) as [r1 [e|]]; [done|]. apply (pres_step _ r1 _ p); [done| |done]. apply pres_registered.
Qed.
Lemma pres_Finish p b r : attached r p → pres r (FinishIdentifyPeer p b r).1.
Proof.
  intros Hp. unfold FinishIdentifyPeer. destruct (p_UserID _); [|done]. set (r1 := if b then _ else r).
  assert (pres r r1) as H1.
  { subst r1. destruct b; [|done]. eapply (pres_step _ _ _ p); [by apply (pres_keeps (set_registered false))| |done].
    intros Hp1. apply pres_SetPeerType; [pt_in|done]. }
  apply (pres_step _ r1 _ p); [done| |done]. intros Hp1. destruct (p_IsRegistered _); [done|].
  apply pres_SetupPeer; [apply determine_type|done].
Qed.
Lemma pres_Reset p b r : attached r p → pres r (ResetPeerType p b r).1.
Proof.
  intros Hp. unfold ResetPeerType. destruct (p_IsToClose _); [done|]. destruct (p_UserID _); [|done]. set (r1 := if b then _ else r).
  assert (pres r r1) as H1. { subst r1. destruct b; [|done]. apply pres_SetPeerType; [pt_in|done]. }
  apply (pres_step _ r1 _ p); [done| |done]. intros Hp1. apply pres_addKnown; [apply determine_type|done].
Qed.
Lemma pres_Unregister id p b1 b2 r : attached r p → pres r (UnregisterPeer id p b1 b2 r).1.
Proof.
  intros Hp. unfold UnregisterPeer. destruct (r_entities r !! id) as [e|]; [|done]. destruct (pm_Unregister r p e) as [e' [err|]].
  { apply pres_same, set_entities_same. }
  destruct b2; [apply pres_same, set_entities_same|]. destruct (_ && _); [apply pres_same, set_entities_same|].
  eapply (pres_step _ _ _ p); [apply pres_same, set_entities_same| |done]. apply pres_Reset.
Qed.
Lemma pres_Identify id p salt force r : attached r p → pres r (IdentifyPeer id p salt force r).1.
Proof.
  intros Hp. unfold IdentifyPeer. destruct (InitID id salt force (peer_at r p)) as [q res] eqn:Ei.
  destruct Hp as (q0 & Eq & Hq). rewrite (peer_at_eq _ _ _ Eq) in Ei. cbn [fst].
  assert (∃ e c, q = set_challenge e c q0) as (e & c & ->).
  { unfold InitID in Ei. destruct (p_UserID q0); [|destruct (force && _)].
    1: by exists (p_IDEntityID q0), (p_IDChallenge q0); injection Ei as <- _; destruct q0.
    all: destruct (p_IDEntityID _); [|destruct salt]; injection Ei as <- _; try (by do 2 eexists);
      by exists (p_IDEntityID q0), (p_IDChallenge q0); destruct q0. }
  replace (on_peer (λ _, set_challenge e c q0) p r) with (on_peer (set_challenge e c) p r).
  - apply pres_keeps; [by intros x|]. by exists q0.
  - unfold on_peer. by rewrite (peer_at_eq _ _ _ Eq).
Qed.
Lemma pres_pm_Identify id p salt r : attached r p → pres r (pm_IdentifyPeer id p salt r).
Proof.
  intros Hp. unfold pm_IdentifyPeer. destruct (p_UserID _); [done|]. pose proof (pres_Identify id p salt false r Hp) as Hi.
  destruct (IdentifyPeer id p salt false r) as [r1 [c|e|]]; [|done..].
  apply (pres_step _ r1 _ p); [done| |done]. intros _. apply pres_same, set_out_same.
Qed.
Lemma pres_CheckDial p salt r : attached r p → pres r (CheckDialEntityAndIdentifyPeer p salt r).
Proof. intros Hp. unfold CheckDialEntityAndIdentifyPeer. destruct (checkDialEntity p r); [by apply pres_pm_Identify|done]. Qed.

Lemma GetPeer_Some id r p : GetPeer id r = Some p → ∃ t, r_of t r !! id = Some p.
Proof.
  unfold GetPeer. induction router_types as [|t ts IH]; [done|]. cbn. destruct (r_of t r !! id) eqn:E; [|done].
  intros [= <-]. by exists t.
Qed.
Lemma found_attached S id r p : maps_ok S r → GetPeer id r = Some p → attached r p.
Proof. intros Hr Hg. destruct (GetPeer_Some _ _ _ Hg) as [t E]. destruct (mo_sound _ _ Hr _ _ _ E) as (q & Eq & [_ Hq] & _). by exists q. Qed.

Lemma pres_AddDial S id opKey t b now salt r : maps_ok S r → maps_ok S (AddDial id opKey t b now salt r).1.
Proof.
  intros Hr. unfold AddDial. destruct (GetPeer id r) as [p|] eqn:Hg.
  - pose proof (found_attached _ _ _ _ Hr Hg) as Hp.
    assert (∀ ts, maps_ok S (CheckDialEntityAndIdentifyPeer p salt (set_hist (dh_Add ts id opKey (r_dialHist r)) r))) as Hd.
    { intros ts. apply (pres_step r (set_hist (dh_Add ts id opKey (r_dialHist r)) r) _ p); [apply pres_same; split; [done|by intros []]|
        apply pres_CheckDial|done|done]. }
    destruct (p_UserID _); [|destruct now as [ts| |]; [apply Hd|done|done]]. set (r1 := if _ <? _ then _ else r).
    assert (maps_ok S r1) as H1. { subst r1. destruct (_ <? _); [|done]. by apply pres_Reset. }
    destruct (getEntityFromHash opKey r1) as [[id' e]|e]; [|done]. apply (maps_ok_same _ r1); [apply set_entities_same|done].
  - destruct now as [ts| |]; [|done..]. assert (maps_ok S (set_hist (dh_Add ts id opKey (r_dialHist r)) r)) as H1.
    { apply (maps_ok_same _ r); [split; [done|by intros []]|done]. }
    destruct b; [|done]. cbn. eapply maps_ok_same; [apply set_out_same|done].
Qed.

Lemma pres_AddNewPeer p salt r q :
  maps_ok nobody r → r_heap r !! p = Some q → p_PeerType q = PeerTypeErr →
  (∀ p' q', r_heap r !! p' = Some q' → live q' → p_ID q' ≠ p_ID q) → maps_ok nobody (AddNewPeer p salt r).1.
Proof.
  intros Hr Eq Ht Hn. unfold AddNewPeer. pose proof (ValidatePeer_same (p_ID (peer_at r p)) (p_UserID (peer_at r p)) PeerTypeRandom r) as Hv.
  destruct (ValidatePeer _ _ _ _) as [r1 [e|]]; cbn [fst] in Hv; [by apply (maps_ok_same _ r)|].
  destruct Hv as [Eh Em]. assert (maps_ok nobody r1) as Hr1 by (by apply (maps_ok_same _ r)). rewrite <- Eh in Eq.
  destruct (p_IsToClose q) eqn:Hc.
  { unfold SetPeerType. rewrite (peer_at_eq _ _ _ Eq), Hc. done. }
  destruct (SetPeerType_moves nobody p PeerTypeRandom false r1 q Hr1) as (M1 & M2 & M3); try done.
  { pt_in. } { right. rewrite Ht. cbn. lia. } { right. by rewrite Eh. }
  destruct (SetPeerType p PeerTypeRandom false r1) as [r2 e]. cbn in M1, M2, M3. subst e. cbn.
  apply pres_CheckDial.
  - exists (set_type PeerTypeRandom q). rewrite M2. split; [apply lookup_insert_eq|]. cbn. pt_in.
  - eapply maps_ok_weaken; [|exact M1]. by intros x [].
Qed.

(** ** Connections that end *)

Lemma RemovePeer_ok p r : maps_ok nobody r → attached r p → maps_ok nobody (RemovePeer p r).
Proof.
  intros [H1 H2 H3] (q & Eq & Hq). unfold RemovePeer, server_RemovePeer. eapply maps_ok_same; [apply set_out_same|].
  set (r1 := on_peer set_toclose p r). set (r2 := UnregisterPeerFromEntities p r1).
  assert (r_heap r2 = <[p := set_toclose q]> (r_heap r)) as Eh by (subst r2 r1; cbn; by rewrite (peer_at_eq _ _ _ Eq)).
  assert (∀ t, r_of t r2 = r_of t r) as Em by (by intros []).
  assert (peer_at r2 p = set_toclose q) as Ep by (apply lookup_total_correct; rewrite Eh; apply lookup_insert_eq).
  (* what is in a map afterwards is not the connection *)
  assert (∀ r3, r_heap r3 = r_heap r2 → (∀ t id p', r_of t r3 !! id = Some p' ↔ r_of t r !! id = Some p' ∧ p' ≠ p) → maps_ok nobody r3) as Hdone.
  { intros r3 Eh3 Hm. split.
    - intros t id p' [E Hne]%Hm. destruct (H1 _ _ _ E) as (q' & Eq' & Hq'). exists q'. rewrite Eh3, Eh, lookup_insert_ne by done. done.
    - intros p' q' E Hl _. rewrite Eh3, Eh in E. destruct (decide (p' = p)) as [->|Hne].
      + rewrite lookup_insert_eq in E. injection E as <-. by destruct Hl.
      + rewrite lookup_insert_ne in E by done. apply Hm. split; [apply H2; [done|done|by intros []]|done].
    - intros p1 p2 q1 q2 Ea Eb L1 L2. rewrite Eh3, Eh in Ea, Eb.
      destruct (decide (p1 = p)) as [->|N1]; [rewrite lookup_insert_eq in Ea; injection Ea as <-; by destruct L1|].
      destruct (decide (p2 = p)) as [->|N2]; [rewrite lookup_insert_eq in Eb; injection Eb as <-; by destruct L2|].
      rewrite lookup_insert_ne in Ea, Eb by done. by apply (H3 p1 p2 q1 q2). }
  assert (∀ t id, r_of t r !! id = Some p → t = p_PeerType q ∧ id = p_ID q) as Hat.
  { intros t id E. destruct (H1 _ _ _ E) as (q' & Eq' & _ & Hi & Ht). rewrite Eq in Eq'. by injection Eq' as <-. }
  unfold UnsetPeerType. rewrite Ep. cbn [set_toclose p_PeerType p_ID]. rewrite decide_True by done. rewrite Em. case_decide as Hin; cbn [fst].
  - apply Hdone; [done|]. intros t id p'. destruct (decide (t ∈ router_types)) as [Ht|Ht].
    2:{ rewrite !r_of_none by done. rewrite !lookup_empty. by split; [|intros []]. }
    rewrite r_of_set by done. rewrite Em. case_decide as Htt.
    + subst t. rewrite lookup_delete_Some. split.
      * intros [Hne E]. split; [done|]. intros ->. apply Hne. symmetry. by apply (Hat _ _ E).
      * intros [E Hne]. split; [|done]. intros <-. rewrite Hin in E. by injection E as <-.
    + split; [|by intros []]. intros E. split; [done|]. intros ->. apply Htt. by apply (Hat _ _ E).
  - apply Hdone; [done|]. intros t id p'. rewrite Em. split; [|by intros []]. intros E. split; [done|]. intros ->.
    apply Hin. by destruct (Hat _ _ E) as [-> ->].
Qed.

(** ** Registering an entity *)

Definition to_move r (x : positive * PeerType) : Prop :=
  x.2 ∈ set_types ∧ ∃ q, r_heap r !! x.1 = Some q ∧ live q ∧ pt_num (p_PeerType q) < pt_num x.2.

Lemma fit_type_cases e q : fit_type e q ∈ set_types ∨ fit_type e q = PeerTypeRandom.
Proof. unfold fit_type. repeat (case_match; [left; pt_in|]). by right. Qed.

Hypothesis Hord : range_ok ord.
Lemma ord_elem m p : p ∈ ord m → ∃ id, m !! id = Some p.
Proof using Hord. rewrite (Hord m), list_elem_of_fmap. intros ([id p'] & -> & E). exists id. by apply elem_of_map_to_list. Qed.

Lemma fit_loop_moves S r t e : maps_ok S r → t ∈ router_types → Forall (to_move r) (fit_loop r t e).2.
Proof using Hord.
  intros Hr Ht. unfold fit_loop. assert (∀ l, (∀ p, p ∈ l → p ∈ ord (r_of t r)) → ∀ e moves, Forall (to_move r) moves →
    Forall (to_move r) (foldl (λ '(e, moves) p,
      let u := if decide (t = PeerTypeMe) then PeerTypeMe else fit_type e (peer_at r p) in
      ((RegisterPeer r p u e).1,
       if decide ((t ∉ [PeerTypeMe; PeerTypeHub]) ∧ pt_num t < pt_num u) then moves ++ [(p, u)] else moves)) (e, moves) l).2) as Hl.
  { induction l as [|p l IH]; intros Hin e' moves Hm; [done|]. cbn [foldl]. apply IH; [intros x Hx; apply Hin; by right|].
    cbn zeta. destruct (decide (t = PeerTypeMe)) as [->|Hme].
    { rewrite decide_False; [done|]. intros [Hn _]. apply Hn. by left. }
    destruct (decide ((t ∉ [PeerTypeMe; PeerTypeHub]) ∧ pt_num t < pt_num (fit_type e' (peer_at r p)))) as [[Hne Hlt]|]; [|exact Hm].
    apply Forall_app. split; [done|]. constructor; [|done].
    destruct (ord_elem _ _ (Hin p ltac:(by left))) as [id E]. destruct (mo_sound _ _ Hr _ _ _ E) as (q & Eq & Hq & _ & Hty).
    split.
    - cbn. destruct (fit_type_cases e' (peer_at r p)) as [|Er]; [done|]. rewrite Er in Hlt. exfalso. revert Hlt.
      pattern t. apply (router_type_cases t _ Ht); cbn; lia.
    - exists q. cbn. by rewrite Hty. }
  apply Hl; [done|constructor].
Qed.

Lemma maps_ok_delete (S : positive → Prop) u p q r : maps_ok S r → r_heap r !! p = Some q → live q → S p →
  maps_ok S (set_r_of u (delete (p_ID q)) r).
Proof.
  intros [H1 H2 H3] Eq Hl HS.
  assert (∀ t id p', r_of t (set_r_of u (delete (p_ID q)) r) !! id = Some p' → r_of t r !! id = Some p') as Hsub.
  { intros t id p' E. rewrite r_of_set in E by (by eapply r_of_in). case_decide; [by apply lookup_delete_Some in E as []|done]. }
  split; [by intros t id p' E%Hsub; apply (H1 t)| |done].
  intros p' q' E Hl' HS'. cbn in E. rewrite r_of_set by apply Hl'. pose proof (H2 p' q' E Hl' HS') as Em. case_decide; [|done].
  rewrite lookup_delete_ne; [done|]. intros Ei. apply HS'. by rewrite (H3 p' p q' q).
Qed.

Lemma deletes_ok (S : positive → Prop) u moves : ∀ r, maps_ok S r → Forall (to_move r) moves → (∀ x, x ∈ moves → S x.1) →
  let r' := foldl (λ r x, set_r_of u (delete (id_at r x.1)) r) r moves in maps_ok S r' ∧ r_heap r' = r_heap r.
Proof.
  induction moves as [|x moves IH]; intros r Hr Hm HS; [done|]. cbn [foldl]. apply Forall_cons in Hm as [(_ & q & Eq & Hl & _) Hm].
  unfold id_at at 2 4. rewrite (peer_at_eq _ _ _ Eq). destruct (IH (set_r_of u (delete (p_ID q)) r)) as [I1 I2].
  - apply (maps_ok_delete S u x.1); [done|done|done|]. apply HS. by left.
  - done.
  - intros y Hy. apply HS. by right.
  - split; [done|]. by rewrite I2.
Qed.

Definition moved (moves : list (positive * PeerType)) (p : positive) : Prop := p ∈ moves.*1.
Lemma rounds_ok ts : ∀ r e moves, (∀ t, t ∈ ts → t ∈ router_types) → maps_ok (moved moves) r → Forall (to_move r) moves →
  let '(r', _, moves') := foldl (λ st t, fit_round t st) (r, e, moves) ts in
  maps_ok (moved moves') r' ∧ Forall (to_move r') moves' ∧ r_heap r' = r_heap r.
Proof using Hord.
  induction ts as [|t ts IH]; intros r e moves Hts Hr Hm; [done|]. cbn [foldl fit_round].
  pose proof (fit_loop_moves (moved moves) r t e Hr (Hts t ltac:(by left))) as Hf. destruct (fit_loop r t e) as [e' moves'].
  cbn [snd] in Hf. set (from := if decide (t = PeerTypePending) then _ else t). set (r1 := foldl _ r moves').
  destruct (deletes_ok (moved (moves ++ moves')) from moves' r) as [Hr1 Eh]; [|done|..].
  { eapply maps_ok_weaken; [|exact Hr]. intros p Hp. unfold moved. rewrite fmap_app. apply elem_of_app. by left. }
  { intros x Hx. unfold moved. rewrite fmap_app. apply elem_of_app. right. by apply list_elem_of_fmap_2. }
  fold r1 in Hr1, Eh. specialize (IH r1 e' (moves ++ moves')).
  destruct (foldl _ (r1, e', moves ++ moves') ts) as [[r' e''] moves'']. rewrite <- Eh. apply IH; [intros u Hu; apply Hts; by right|done|].
  apply Forall_app. split; (eapply Forall_impl; [eassumption|]); intros x; unfold to_move; by rewrite Eh.
Qed.

Lemma moving_ok L : ∀ S r, maps_ok S r → Forall (λ x, x.2 ∈ set_types ∧ attached r x.1) L →
  (∀ x q, x ∈ L → S x.1 → r_heap r !! x.1 = Some q → live q ∧ pt_num (p_PeerType q) < pt_num x.2) →
  maps_ok (λ p, S p ∧ p ∉ L.*1) (foldl (λ r x, (SetPeerType x.1 x.2 false r).1) r L).
Proof.
  induction L as [|x L IH]; intros S r Hr HL HS; [eapply maps_ok_weaken; [|exact Hr]; intros p Hp; split; [done|apply not_elem_of_nil]|].
  cbn [foldl]. apply Forall_cons in HL as [[Hx2 Hx1] HL]. assert (x.2 ∈ router_types) as Hrt.
  { pattern (x.2). apply (set_types_cases _ _ Hx2); pt_in. }
  destruct (SetPeerType_ok S x.1 x.2 false r Hr Hrt Hx1) as [Hsame Hatt].
  destruct Hx1 as (q & Eq & Hq).
  destruct (decide (p_IsToClose q = false ∧ pt_num (p_PeerType q) < pt_num x.2)) as [[Hc Hlt]|Hn].
  - destruct (SetPeerType_moves S x.1 x.2 false r q Hr Hrt Eq Hc) as (M1 & M2 & _); [by right|by left; split|].
    eapply maps_ok_weaken; [|apply (IH (λ p, S p ∧ p ≠ x.1)); [exact M1|..]].
    + intros p [[Hp Hne] Hni]. split; [done|]. cbn. by apply not_elem_of_cons.
    + eapply Forall_impl; [exact HL|]. intros y [Hy1 Hy2]. split; [done|]. by apply Hatt.
    + intros y q' Hy [HSy Hne] E. rewrite M2, lookup_insert_ne in E by done. apply (HS y q'); [by right|done|done].
  - assert (¬ S x.1) as HnS.
    { intros HSx. destruct (HS x q ltac:(by left) HSx Eq) as [[? _] ?]. by apply Hn. }
    assert (∀ p', p' ≠ x.1 → r_heap (SetPeerType x.1 x.2 false r).1 !! p' = r_heap r !! p') as Hh.
    { intros p' Hp'. unfold SetPeerType. rewrite (peer_at_eq _ _ _ Eq). destruct (p_IsToClose q) eqn:Hc; [done|].
      cbn zeta. destruct (negb false && _); [done|]. destruct (p_UserID q); cbn; by rewrite lookup_insert_ne. }
    eapply maps_ok_weaken; [|apply (IH S); [exact Hsame|..]].
    + intros p [Hp Hni]. split; [done|]. cbn. apply not_elem_of_cons. split; [|done]. intros Ep. apply HnS. by rewrite <- Ep.
    + eapply Forall_impl; [exact HL|]. intros y [Hy1 Hy2]. split; [done|]. by apply Hatt.
    + intros y q' Hy HSy E. rewrite Hh in E by (intros Ey; apply HnS; by rewrite <- Ey). apply (HS y q'); [by right|done|done].
Qed.

Lemma in_order_elem moves x : Forall (λ x, x.2 ∈ set_types) moves → x ∈ in_order moves ↔ x ∈ moves.
Proof.
  intros Hm. unfold in_order. rewrite list_elem_of_In, in_concat. split.
  - intros (l & Hl & Hx). apply list_elem_of_In, list_elem_of_fmap in Hl as (t & -> & _). apply list_elem_of_In in Hx.
    by apply list_elem_of_filter in Hx as [_ Hx].
  - intros Hx. exists (filter (λ y, y.2 = x.2) moves). split; [apply list_elem_of_In, list_elem_of_fmap; exists (x.2); split; [done|]|].
    + by apply (proj1 (Forall_forall _ _) Hm).
    + apply list_elem_of_In, list_elem_of_filter. done.
Qed.

Lemma registerEntityPeers_ok e r : maps_ok nobody r → maps_ok nobody (registerEntityPeers e r).1.
Proof using Hord.
  intros Hr. unfold registerEntityPeers.
  pose proof (rounds_ok router_types r e [] (λ t Ht, Ht)) as Hro. destruct (foldl _ (r, e, []) router_types) as [[r1 e1] moves].
  destruct Hro as (H1 & H2 & H3).
  { eapply maps_ok_weaken; [|exact Hr]. by intros p []. }
  { constructor. }
  cbn [fst]. assert (Forall (λ x, x.2 ∈ set_types) moves) as Hty by (eapply Forall_impl; [exact H2|]; by intros x []).
  eapply maps_ok_weaken; [|apply (moving_ok (in_order moves) (moved moves)); [exact H1|..]].
  - intros p [Hp Hn]. apply Hn. apply list_elem_of_fmap in Hp as (x & -> & Hx). apply list_elem_of_fmap_2. by apply in_order_elem.
  - apply Forall_forall. intros x Hx. apply (in_order_elem _ _ Hty) in Hx.
    destruct (proj1 (Forall_forall _ _) H2 x Hx) as (Hx2 & q & Eq & [_ Hq] & _). split; [done|]. by exists q.
  - intros x q Hx _ Eq. apply (in_order_elem _ _ Hty) in Hx.
    destruct (proj1 (Forall_forall _ _) H2 x Hx) as (_ & q' & Eq' & Hl & Hlt). rewrite Eq in Eq'. by injection Eq' as <-.
Qed.

(** ** Admission *)

Lemma drop_loop_drops t ts r : t ∈ ts → (∀ m, m ≠ ∅ → ∃ id, pick m = Some id ∧ is_Some (m !! id)) →
  (drop_loop t ts r).2 = None →
  ∃ u id, u ∈ ts ∧ is_Some (r_of u r !! id) ∧ r_removed (drop_loop t ts r).1 = r_removed r ++ [id].
Proof.
  intros Ht Hp. induction ts as [|u ts IH]; [by apply elem_of_nil in Ht|]. cbn [drop_loop]. case_decide as Hs.
  - intros _. destruct (Hp (r_of u r)) as (id & Ei & Hin); [intros E; apply Hs; by rewrite E|].
    exists u, id. split; [by left|]. split; [done|]. cbn. unfold dropAnyPeerCore. by rewrite Ei.
  - case_decide as Htu; [done|]. intros E. apply elem_of_cons in Ht as [->|Ht]; [done|].
    destruct (IH Ht E) as (u' & id & Hu & Hi & Hr). exists u', id. split; [by right|done].
Qed.

Lemma SetPeerType_size p t force r q : r_heap r !! p = Some q → t ∈ router_types →
  size (r_of t (SetPeerType p t force r).1) ≤ 1 + size (r_of t r) ∧ r_removed (SetPeerType p t force r).1 = r_removed r.
Proof.
  intros Eq Ht. unfold SetPeerType. rewrite (peer_at_eq _ _ _ Eq). destruct (p_IsToClose q); [split; [cbn; lia|done]|].
  destruct (negb force && _); [split; [cbn; lia|done]|]. set (r1 := set_r_of t _ _).
  assert (size (r_of t r1) ≤ 1 + size (r_of t r) ∧ r_removed r1 = r_removed r) as [H1 H2].
  { split; [|done]. subst r1. rewrite r_of_set, decide_True, r_of_set by done.
    replace (r_of t (on_peer (set_type t) p r)) with (r_of t r) by (by destruct t).
    assert (∀ m : gmap NodeID positive, size (<[p_ID q := p]> m) ≤ 1 + size m) as Hins.
    { intros m. rewrite map_size_insert. destruct (m !! p_ID q); unfold id; lia. }
    case_decide; [|apply Hins]. etrans; [apply Hins|]. apply le_n_S, map_subseteq_size, delete_subseteq. }
  destruct (p_UserID q); cbn [fst]; [|done]. split; [|done].
  by replace (r_of t (set_users _ r1)) with (r_of t r1) by (by destruct t).
Qed.

End Router.

(** ** Runs *)

Definition NewRouter (myDevice : option (PttPeer → bool)) : BaseRouter :=
  MkRouter ∅ ∅ ∅ ∅ ∅ ∅ ∅ ∅ NewDialHistory ∅ myDevice ∅ [] [] [].

(** What happens to the peers: a connection starts - the server has one to a
    node at a time -, its user becomes known, it is set up or looked at again,
    a node is dialled, a connection ends, entities come and go.  Each with its
    own order of [range] and choice of a peer to drop. *)
Inductive router_step (config : Config) : BaseRouter → BaseRouter → Prop :=
  | st_connect pick r p id version salt :
      r_heap r !! p = None → (∀ p' q', r_heap r !! p' = Some q' → live q' → p_ID q' ≠ id) →
      router_step config r (AddNewPeer config pick p salt (set_heap (<[p := NewPttPeer version id]> (r_heap r)) r)).1
  | st_user r p u : attached r p → p_UserID (peer_at r p) = None → router_step config r (on_peer (set_user (Some u)) p r)
  | st_id_over r p id : attached r p → router_step config r (on_peer (FinishID id) p r)
  | st_identify r p id salt force : attached r p → router_step config r (IdentifyPeer id p salt force r).1
  | st_finish ord pick r p b : range_ok ord → attached r p → router_step config r (FinishIdentifyPeer config ord pick p b r).1
  | st_reset pick r p b : attached r p → router_step config r (ResetPeerType config pick p b r).1
  | st_dial ord pick r id opKey t b now salt :
      range_ok ord → router_step config r (AddDial config ord pick id opKey t b now salt r).1
  | st_remove ord r p : range_ok ord → attached r p → router_step config r (RemovePeer ord p r)
  | st_entity ord r id e : range_ok ord → router_step config r (RegisterEntity ord id e r)
  | st_entity_gone r id : router_step config r (UnregisterEntity id r)
  | st_unregister ord pick r id p b1 b2 :
      range_ok ord → attached r p → router_step config r (UnregisterPeer config ord pick id p b1 b2 r).1.

Lemma step_maps_ok config r r' : maps_ok nobody r → router_step config r r' → maps_ok nobody r'.
Proof.
  intros Hr Hs. destruct Hs as [pick r p id v salt Hn Hid|r p u Hp _|r p id Hp|r p id salt force Hp|ord pick r p b Ho Hp|
    pick r p b Hp|ord pick r id k t b now salt Ho|ord r p Ho Hp|ord r id e Ho|r id|ord pick r id p b1 b2 Ho Hp].
  - destruct Hr as [H1 H2 H3]. set (r1 := set_heap _ r). assert (∀ t, r_of t r1 = r_of t r) as Em by (by intros []).
    assert (∀ p' q', r_heap r1 !! p' = Some q' → live q' → r_heap r !! p' = Some q') as Hl.
    { intros p' q' E Hq. cbn in E. destruct (decide (p' = p)) as [->|Hne]; [|by rewrite lookup_insert_ne in E].
      rewrite lookup_insert_eq in E. injection E as <-. destruct Hq as [_ Hq]. exfalso.
      by apply (router_type_cases PeerTypeErr (λ t, t ≠ PeerTypeErr) Hq). }
    apply (pres_AddNewPeer config pick p salt r1 (NewPttPeer v id)); [|apply lookup_insert_eq|done|by intros p' q' E Hq; apply (Hid p'); [apply Hl|]].
    split.
    + intros t i p'. rewrite Em. intros E. destruct (H1 _ _ _ E) as (q & Eq & Hq). exists q. split; [|done]. cbn.
      rewrite lookup_insert_ne; [done|]. intros ->. by rewrite Hn in Eq.
    + intros p' q' E Hq Hno. rewrite Em. apply H2; [by apply Hl|done|done].
    + intros p1 p2 q1 q2 Ea Eb L1 L2. apply (H3 p1 p2 q1 q2); [by apply Hl|by apply Hl|done|done].
  - by apply pres_keeps.
  - apply pres_keeps; [|done|done]. intros q. unfold FinishID. by case_decide.
  - by apply pres_Identify.
  - by apply pres_Finish.
  - by apply pres_Reset.
  - by apply pres_AddDial.
  - by apply RemovePeer_ok.
  - unfold RegisterEntity. set (r1 := set_entities _ r). assert (maps_ok nobody r1) as Hr1 by (eapply maps_ok_same; [apply set_entities_same|done]).
    pose proof (registerEntityPeers_ok ord Ho e r1 Hr1) as He. destruct (registerEntityPeers ord e r1) as [r2 e2].
    eapply maps_ok_same; [apply set_entities_same|done].
  - eapply maps_ok_same; [apply set_entities_same|done].
  - by apply pres_Unregister.
Qed.

(** C4: However connections come and go, users become known, peers are moved
    between types and entities are registered: a node is found by [GetPeer] when
    and only when there is a live connection to it, which is the one found; and
    the six maps sort the live connections by their type, under their nodes, so
    that no node is in two of them. *)
Theorem router_peers config myDevice r :
  rtc (router_step config) (NewRouter myDevice) r →
  (∀ id p, GetPeer id r = Some p ↔ in_heap r p (λ q, live q ∧ p_ID q = id)) ∧
  (∀ t id p, t ∈ router_types → r_of t r !! id = Some p ↔ in_heap r p (λ q, live q ∧ p_ID q = id ∧ p_PeerType q = t)).
Proof.
  intros Hrun. assert (maps_ok nobody r) as Hr.
  { assert (maps_ok nobody (NewRouter myDevice)) as H0.
    { split; [|intros p q E; by destruct (lookup_empty_Some _ _ E)|intros p p' q q' E; by destruct (lookup_empty_Some _ _ E)].
      intros t id p E. by destruct t. }
    induction Hrun as [|r1 r2 r3 Hs _ IH]; [done|]. apply IH. by eapply step_maps_ok. }
  assert (∀ t id p, in_heap r p (λ q, live q ∧ p_ID q = id ∧ p_PeerType q = t) → r_of t r !! id = Some p) as Hin.
  { intros t id p (q & Eq & Hl & <- & <-). apply (mo_complete _ _ Hr _ _ Eq Hl). by intros []. }
  split; [|intros t id p _; split; [apply (mo_sound _ _ Hr)|apply Hin]].
  intros id p. split.
  - intros Hg. destruct (GetPeer_Some _ _ _ Hg) as [t E]. destruct (mo_sound _ _ Hr _ _ _ E) as (q & Eq & Hl & Hid & _). by exists q.
  - intros (q & Eq & Hl & <-). destruct (GetPeer (p_ID q) r) as [p'|] eqn:Hg.
    + destruct (GetPeer_Some _ _ _ Hg) as [t E]. destruct (mo_sound _ _ Hr _ _ _ E) as (q' & Eq' & Hl' & Hid & _).
      f_equal. by apply (mo_unique _ _ Hr p' p q' q).
    + exfalso. pose proof (Hin (p_PeerType q) (p_ID q) p) as E. unfold GetPeer in Hg.
      assert (∀ ts, p_PeerType q ∈ ts → foldr (λ t rest, match r_of t r !! p_ID q with Some p => Some p | None => rest end) None ts ≠ None) as Hf.
      { induction ts as [|t ts IH]; intros Ht; [by apply elem_of_nil in Ht|]. cbn. destruct (r_of t r !! p_ID q) eqn:Et; [done|].
        apply elem_of_cons in Ht as [<-|Ht]; [|by apply IH]. rewrite E in Et; [done|]. by exists q. }
      by apply (Hf router_types (proj2 Hl)).
Qed.

(** C25: A peer is admitted to a type that is not mine only while the type has
    room and its user is not known from another node; its user then belongs to
    its node; when there are too many peers in all, one of at most that type is
    told to go; and a peer that is refused leaves the maps and the users as
    they were. *)
Theorem peer_admission config pick p t r q :
  (∀ m, m ≠ ∅ → ∃ id, pick m = Some id ∧ is_Some (m !! id)) →
  r_heap r !! p = Some q → t ∈ router_types → t ≠ PeerTypeMe → pt_num (p_PeerType q) < pt_num t →
  let '(r', e) := addPeerKnownUserID config pick p t r in
  match e with
  | Some _ => same_maps r r' ∧ r_userPeerMap r' = r_userPeerMap r
  | None =>
    (∀ m, max_of config t = Some m → (Z.of_nat (size (r_of t r')) ≤ m)%Z) ∧
    (∀ u, p_UserID q = Some u → r_userPeerMap r' !! u = Some (p_ID q) ∧ default (p_ID q) (r_userPeerMap r !! u) = p_ID q) ∧
    ((MaxPeers config ≤ lenPeers r)%Z → ∃ v id, is_Some (r_of v r !! id) ∧ v ≠ PeerTypeMe ∧ r_removed r' = r_removed r ++ [id])
  end.
Proof.
  intros Hpick Eq Ht Hme Hlt. unfold addPeerKnownUserID. rewrite (peer_at_eq _ _ _ Eq).
  destruct (ValidatePeer config pick (p_ID q) (p_UserID q) t r) as [r1 e] eqn:Ev.
  assert (same_maps r r1 ∧ r_userPeerMap r1 = r_userPeerMap r) as [[Eh Em] Eu].
  { assert (∀ ts, r_userPeerMap (drop_loop pick t ts r).1 = r_userPeerMap r) as Hd.
    { induction ts as [|v ts IH]; [done|]. cbn [drop_loop]. case_decide; [|by case_decide]. unfold dropAnyPeerCore. by destruct (pick _). }
    split; [pose proof (ValidatePeer_same config pick (p_ID q) (p_UserID q) t r) as Hs; by rewrite Ev in Hs|].
    unfold ValidatePeer in Ev. rewrite decide_False in Ev by done. repeat case_match; injection Ev as <- _ || idtac; try done.
    all: pose proof (Hd [PeerTypeRandom; PeerTypePending; PeerTypeMember; PeerTypeImportant; PeerTypeHub]) as Hd';
      unfold dropAnyPeer in Ev; rewrite Ev in Hd'; done. }
  destruct e as [e|]; [by split|]. rewrite <- Eh in Eq.
  pose proof (SetPeerType_size p t false r1 q Eq Ht) as [Hsz Hrm].
  destruct (SetPeerType p t false r1) as [r2 e2] eqn:Es.
  assert (p_IsToClose q = true ∧ r2 = r1 ∧ e2 ≠ None ∨ e2 = None ∧ ∀ u, p_UserID q = Some u → r_userPeerMap r2 !! u = Some (p_ID q)) as Hset.
  { unfold SetPeerType in Es. rewrite (peer_at_eq _ _ _ Eq) in Es. destruct (p_IsToClose q); [left; by injection Es as <- <-|].
    assert (negb false && (pt_num t <=? pt_num (p_PeerType q)) = false) as Hle by (cbn; apply Nat.leb_gt; lia). rewrite Hle in Es.
    right. injection Es as <- <-. split; [done|]. intros u Hu. rewrite Hu. cbn. apply lookup_insert_eq. }
  destruct Hset as [(_ & -> & He)|[-> Hu]]; [by destruct e2; [|done]|]. cbn [fst] in *. rewrite Em in Hsz.
  unfold ValidatePeer in Ev. rewrite decide_False in Ev by done.
  destruct (match p_UserID q with Some _ => _ | None => _ end) eqn:Eusr; [done|].
  destruct (match max_of config t with Some _ => _ | None => _ end) eqn:Emax; [done|]. split; [|split].
  - intros m Hm. rewrite Hm in Emax. apply Z.leb_gt in Emax. unfold len_of in Emax. lia.
  - intros u Equ. split; [by apply Hu|]. rewrite Equ in Eusr. destruct (r_userPeerMap r !! u) as [n|]; [|done]. cbn.
    apply negb_false_iff in Eusr. by apply bool_decide_eq_true in Eusr.
  - intros Hmax. rewrite (proj2 (Z.leb_le _ _) Hmax) in Ev. unfold dropAnyPeer in Ev.
    destruct (drop_loop_drops pick t [PeerTypeRandom; PeerTypePending; PeerTypeMember; PeerTypeImportant; PeerTypeHub] r)
      as (v & id & Hv & Hi & Hr); [|done|by rewrite Ev|].
    { revert Hme. pattern t. apply (router_type_cases t _ Ht); intros Hn; (done || pt_in). }
    rewrite Ev in Hr. exists v, id. split; [done|]. split; [|by rewrite Hrm].
    intros ->. repeat (apply elem_of_cons in Hv as [Hv|Hv]; [done|]). by apply elem_of_nil in Hv.
Qed.

(** ** A user who comes from another node

    [userPeerMap] keeps the node after the connection ended: the user is refused
    from any other. *)
Lemma moved_user_refused config ord pick p0 p t u n r :
  r_userPeerMap r !! u = Some n → let r' := RemovePeer ord p0 r in
  p_UserID (peer_at r' p) = Some u → p_ID (peer_at r' p) ≠ n → t ≠ PeerTypeMe →
  addPeerKnownUserID config pick p t r' = (r', Some SvcErrAlreadyRegistered).
Proof.
  intros Hu r' Hp Hn Ht. assert (r_userPeerMap r' = r_userPeerMap r) as Eu.
  { subst r'. unfold RemovePeer, UnsetPeerType. case_decide; [case_decide|]; done. }
  unfold addPeerKnownUserID, ValidatePeer. rewrite decide_False by done. rewrite Hp, Eu, Hu.
  rewrite bool_decide_false by congruence. done.
Qed.

(** ** Witnesses *)

Definition ro_config : Config := MkConfig 3 1 1 1 1 1.
Definition ro_ord (m : gmap NodeID positive) : list positive := (map_to_list m).*2.
Definition ro_pick (m : gmap NodeID positive) : option NodeID := head (map_to_list m).*1.
(** Node 1 connects. *)
Definition ro_one : BaseRouter :=
  (AddNewPeer ro_config ro_pick 1 (Err ErrRand) (set_heap (<[1%positive := NewPttPeer 1 [x01]]> ∅) (NewRouter None))).1.

Lemma router_peers_witness : GetPeer [x01] ro_one = Some 1%positive ∧ GetPeer [x02] ro_one = None.
Proof.
  split; [|vm_compute; reflexivity].
  apply (router_peers ro_config None).
  - apply (rtc_l _ _ ro_one); [|reflexivity].
    apply (st_connect ro_config ro_pick (NewRouter None) 1 [x01] 1 (Err ErrRand)); [reflexivity|].
    intros p' q' E. destruct (lookup_empty_Some _ _ E).
  - exists (MkPeer [x01] PeerTypeRandom 1 None None None false false). split; [vm_compute; reflexivity|].
    split; [split; [reflexivity|pt_in]|reflexivity].
Defined.

(** Its user is 7: it becomes a member, of whom there may be one. *)
Definition ro_known : BaseRouter := on_peer (set_user (Some [x07])) 1 ro_one.
Lemma peer_admission_witness :
  (Z.of_nat (size (r_of PeerTypeMember (addPeerKnownUserID ro_config ro_pick 1 PeerTypeMember ro_known).1)) ≤ 1)%Z ∧
  r_userPeerMap (addPeerKnownUserID ro_config ro_pick 1 PeerTypeMember ro_known).1 !! ([x07] : PttID) = Some [x01].
Proof.
  pose proof (peer_admission ro_config ro_pick 1 PeerTypeMember ro_known
    (MkPeer [x01] PeerTypeRandom 1 (Some [x07]) None None false false)) as Ha.
  assert ((addPeerKnownUserID ro_config ro_pick 1 PeerTypeMember ro_known).2 = None) as He by (vm_compute; reflexivity).
  destruct (addPeerKnownUserID ro_config ro_pick 1 PeerTypeMember ro_known) as [r' e]. cbn in He. subst e.
  destruct Ha as (H1 & H2 & _).
  - intros m Hm. unfold ro_pick. destruct (map_to_list m) as [|[i p] l] eqn:E; [by apply map_to_list_empty_iff in E|].
    exists i. split; [reflexivity|]. exists p. apply elem_of_map_to_list. rewrite E. left.
  - vm_compute. reflexivity.
  - pt_in.
  - discriminate.
  - vm_compute. lia.
  - split; [exact (H1 1%Z eq_refl)|exact (proj1 (H2 [x07] eq_refl))].
Defined.
