(* ===== verification/Identify.v ===== *)
(** * Who is behind a connection

    [service/protocol_identify_peer*.go]: a node sends a challenge - by the key
    of an entity, or with its own identifier - and the other returns it with
    more salt, signed by the key of its user; then the user of the connection
    is known and the peer is set up ([Router.FinishIdentifyPeer]). *)

From S2P Require Import Prelude GoTime CommonTypes Discover OplogSign PttPeer Router.

Set Default Goal Selector "!".
Set Default Proof Using "Type".

(** ** Messages

    Pointers in the data of a message may be missing. *)
Record IdentifyPeerAckData := MkAckData {
  ak_AckChallenge : option bytes;
  ak_Hash : bytes; ak_Sig : bytes; ak_PubBytes : bytes;
  ak_Extra : option KeyExtraInfo; ak_MyID : option PttID
}.
Inductive id_msg :=
  | MIdentifyPeer (entityID : PttID) (challenge : option bytes)
  | MIdentifyPeerAck (entityID : PttID) (data : IdentifyPeerAckData)
  | MWithMyID (id : PttID) (challenge : option bytes)
  | MWithMyIDChallenge (challenge : option bytes)
  | MWithMyIDChallengeAck (challenge : option bytes) (data : option IdentifyPeerAckData)
  | MWithMyIDAck (data : IdentifyPeerAckData).

Section Identify.
Context `{Crypto, !Signing}.
Variable config : Config.
Variable ord : gmap NodeID positive → list positive.
Variable pick : gmap NodeID positive → option NodeID.

(** ** A node: the router, the identifier and sign key of my entity, what was
    sent *)
Record NodeSt := MkNodeSt { nd_r : BaseRouter; nd_me : option (PttID * option KeyInfo); nd_out : list (positive * id_msg) }.
Implicit Types (n : NodeSt) (p : positive).
Definition set_nd_r r n := MkNodeSt r (nd_me n) (nd_out n).
Definition set_nd_me m n := MkNodeSt (nd_r n) m (nd_out n).
Definition nd_send p m n := MkNodeSt (nd_r n) (nd_me n) (nd_out n ++ [(p, m)]).
Abbreviation ND := (stm NodeSt).

(** [IdentifyPeerAck] of the router; [salt] is the result of [NewSalt] in
    [SignData]. *)
Definition ack_data (challenge : option bytes) (salt : outcome bytes) : ND IdentifyPeerAckData := λ n,
  match nd_me n with
  | None => (n, Err SvcErrInvalidEntity)
  | Some (_, None) => (n, Err SvcErrInvalidKey)
  | Some (myID, Some signKey) =>
    match challenge with
    | None => (n, Panic)
    | Some c =>
      match SignData c signKey salt with
      | Ok (bytesWithSalt, hash, sig, pubBytes, signKey) =>
        (set_nd_me (Some (myID, Some signKey)) n,
         Ok (MkAckData (Some bytesWithSalt) hash sig pubBytes (ki_Extra signKey) (Some myID)))
      | Err e => (n, Err e)
      | Panic => (n, Panic)
      end
    end
  end.

(** [VerifyData] for an identifier that may be missing: it is looked at once a
    public key was read. *)
Definition verify_ack (challenge : bytes) (data : IdentifyPeerAckData) : outcome unit :=
  match ak_MyID data with
  | Some id => VerifyData challenge (ak_Hash data) (ak_Sig data) (ak_PubBytes data) id (ak_Extra data)
  | None =>
    let key := match ak_Extra data with
               | None => UnmarshalPubkey (ak_PubBytes data)
               | Some k => if (ke_KeyType k =? KeyTypeBIP32)%Z then kb ← ke_Data k; UnmarshalPubkey (kb_Parent kb) else None
               end in
    match key with Some _ => Panic | None => Err SvcErrInvalidKey end
  end.

Definition HandleIdentifyPeerAck (entityID : PttID) (data : option IdentifyPeerAckData) p : ND unit := λ n,
  let peer := peer_at (nd_r n) p in
  match p_IDChallenge peer with
  | None => (n, Err SvcErrInvalidData)
  | Some c =>
    match data with
    | None => (n, Panic)
    | Some data =>
      match ak_AckChallenge data with
      | None => (n, Err SvcErrInvalidData)
      | Some a =>
        match slice 0 SizeSalt a with
        | Ok prefix =>
          if negb (bool_decide (c = prefix)) then (n, Err SvcErrInvalidData) else
          match verify_ack a data with
          | Ok _ =>
            match p_UserID peer with
            | Some _ => (n, Ok tt)
            | None =>
              let r := on_peer (FinishID entityID) p (on_peer (set_user (ak_MyID data)) p (nd_r n)) in
              match FinishIdentifyPeer config ord pick p false r with
              | (r, None) => (set_nd_r r n, Ok tt)
              | (r, Some e) => (set_nd_r r n, Err e)
              end
            end
          | Err e => (n, Err e)
          | Panic => (n, Panic)
          end
        | _ => (n, Panic)
        end
      end
    end
  end.

(** ** By the key of an entity *)

Definition nd_IdentifyPeer (id : PttID) p (salt : outcome bytes) : ND unit := λ n,
  match p_UserID (peer_at (nd_r n) p) with
  | Some _ => (n, Ok tt)
  | None =>
    match IdentifyPeer id p salt false (nd_r n) with
    | (r, Ok c) => (nd_send p (MIdentifyPeer id (Some c)) (set_nd_r r n), Ok tt)
    | (r, _) => (set_nd_r r n, Ok tt)
    end
  end.
Definition pm_IdentifyPeerAck (id : PttID) (challenge : option bytes) p (salt salt' : outcome bytes) : ND unit :=
  data ← ack_data challenge salt;
  ((λ n, let n := nd_send p (MIdentifyPeerAck id data) n in
         match p_UserID (peer_at (nd_r n) p) with
         | Some _ => (n, Ok tt)
         | None => nd_IdentifyPeer id p salt' n
         end) : ND unit).
(** [deleted] is whether the entity is past being alive. *)
Definition HandleIdentifyPeer (id : PttID) (deleted : bool) (challenge : option bytes) p (salt salt' : outcome bytes) : ND unit :=
  if deleted then λ n, (n, Err ErrAlreadyDeleted) else pm_IdentifyPeerAck id challenge p salt salt'.

(** ** With my own identifier *)

Definition with_me {A} (f : PttID → ND A) : ND A := λ n,
  match nd_me n with None => (n, Err SvcErrInvalidEntity) | Some (myID, _) => f myID n end.
Definition IdentifyPeerWithMyID p (salt : outcome bytes) : ND unit := with_me (λ myID n,
  match IdentifyPeer myID p salt true (nd_r n) with
  | (r, Ok c) =>
    let r := on_peer (λ q, set_challenge None (p_IDChallenge q) q) p r in
    (nd_send p (MWithMyID myID (Some c)) (set_nd_r r n), Ok tt)
  | (r, Err e) => (set_nd_r r n, Err e)
  | (r, Panic) => (set_nd_r r n, Panic)
  end).
(** The other side refuses to identify me by an entity. *)
Definition HandleIdentifyPeerFail p (salt : outcome bytes) : ND unit := IdentifyPeerWithMyID p salt.

Definition IdentifyPeerWithMyIDAck (challenge : option bytes) p (salt : outcome bytes) : ND unit :=
  data ← ack_data challenge salt;
  ((λ n, (nd_send p (MWithMyIDAck data) n, Ok tt)) : ND unit).
Definition IdentifyPeerWithMyIDChallenge (userID : PttID) p (salt : outcome bytes) : ND unit := λ n,
  match IdentifyPeer userID p salt true (nd_r n) with
  | (r, Ok c) => (nd_send p (MWithMyIDChallenge (Some c)) (set_nd_r r n), Ok tt)
  | (r, Err e) => (set_nd_r r n, Err e)
  | (r, Panic) => (set_nd_r r n, Panic)
  end.
Definition HandleIdentifyPeerWithMyID (id : PttID) (challenge : option bytes) p (salt : outcome bytes) : ND unit := λ n,
  match p_UserID (peer_at (nd_r n) p) with
  | Some u => if decide (u = id) then IdentifyPeerWithMyIDAck challenge p salt n else (n, Err ErrInvalidID)
  | None => IdentifyPeerWithMyIDChallenge id p salt n
  end.
Definition HandleIdentifyPeerWithMyIDChallenge (challenge : option bytes) p (salt : outcome bytes) : ND unit := with_me (λ _,
  data ← ack_data challenge salt;
  ((λ n, (nd_send p (MWithMyIDChallengeAck (p_IDChallenge (peer_at (nd_r n) p)) (Some data)) n, Ok tt)) : ND unit)).
Definition HandleIdentifyPeerWithMyIDChallengeAck (challenge : option bytes) (data : option IdentifyPeerAckData) p
    (salt : outcome bytes) : ND unit := with_me (λ myID,
  _ ← HandleIdentifyPeerAck myID data p;
  ((λ n, if decide (p_PeerType (peer_at (nd_r n) p) = PeerTypeRandom) then (n, Ok tt)
         else IdentifyPeerWithMyIDAck challenge p salt n) : ND unit)).
Definition HandleIdentifyPeerWithMyIDAck (data : IdentifyPeerAckData) p : ND unit := with_me (λ myID,
  HandleIdentifyPeerAck myID (Some data) p).

(** ** Setting a peer up leaves its user and challenge *)

Definition same_user (r r' : BaseRouter) : Prop :=
  ∀ p, p_UserID (peer_at r' p) = p_UserID (peer_at r p) ∧ p_IDChallenge (peer_at r' p) = p_IDChallenge (peer_at r p).
Lemma same_user_trans r1 r2 r3 : same_user r1 r2 → same_user r2 r3 → same_user r1 r3.
Proof. intros H12 H23 p. destruct (H12 p) as [E1 E2], (H23 p) as [E3 E4]. by rewrite E3, E4. Qed.
Lemma same_user_heap r r' : r_heap r' = r_heap r → same_user r r'.
Proof. intros E p. unfold peer_at. by rewrite E. Qed.
Lemma peer_at_on f p p' r : peer_at (on_peer f p r) p' = if decide (p' = p) then f (peer_at r p) else peer_at r p'.
Proof.
  unfold peer_at at 1. unfold on_peer. cbn. rewrite lookup_total_alt. case_decide as Hp; [subst p'; by rewrite lookup_insert_eq|].
  rewrite lookup_insert_ne by done. by rewrite <- lookup_total_alt.
Qed.
Lemma same_user_on f p r : (∀ q, p_UserID (f q) = p_UserID q ∧ p_IDChallenge (f q) = p_IDChallenge q) → same_user r (on_peer f p r).
Proof. intros Hf p'. rewrite peer_at_on. case_decide; [subst p'; apply Hf|done]. Qed.
Lemma same_user_SetPeerType p t force r : same_user r (SetPeerType p t force r).1.
Proof.
  unfold SetPeerType. destruct (p_IsToClose (peer_at r p)); [done|]. destruct (negb force && _); [done|]. cbn [fst].
  apply (same_user_trans _ (on_peer (set_type t) p r)); [by apply same_user_on|]. apply same_user_heap. by destruct (p_UserID _).
Qed.
Lemma same_user_Finish p r : same_user r (FinishIdentifyPeer config ord pick p false r).1.
Proof.
  unfold FinishIdentifyPeer. destruct (p_UserID _); [|done]. destruct (p_IsRegistered _); [done|].
  unfold SetupPeer. destruct (p_UserID _); [|done]. unfold addPeerKnownUserID.
  pose proof (ValidatePeer_same config pick (p_ID (peer_at r p)) (p_UserID (peer_at r p)) (determinePeerTypeFromAllEntities r p) r) as [Hv _].
  destruct (ValidatePeer _ _ _ _ _ r) as [r1 [e|]]; [by apply same_user_heap|].
  pose proof (same_user_SetPeerType p (determinePeerTypeFromAllEntities r p) false r1) as Hs.
  destruct (SetPeerType p _ false r1) as [r2 [e|]]; (eapply same_user_trans; [by apply same_user_heap|]); [done|].
  eapply same_user_trans; [done|]. cbn [fst]. unfold RegisterPeerToEntities. destruct (p_IsRegistered _); [done|].
  eapply same_user_trans; [|by apply same_user_on]. by apply same_user_heap.
Qed.

Lemma verify_ack_ok a d : verify_ack a d = Ok tt → ∃ u, ak_MyID d = Some u ∧
  VerifyData a (ak_Hash d) (ak_Sig d) (ak_PubBytes d) u (ak_Extra d) = Ok tt.
Proof. unfold verify_ack. destruct (ak_MyID d) as [u|]; [intros E; by exists u|]. repeat case_match; done. Qed.


Lemma IdentifyPeer_new id p c r :
  p_UserID (peer_at r p) = None → p_IDEntityID (peer_at r p) = None →
  IdentifyPeer id p (Ok c) false r = (on_peer (λ _, set_challenge (Some id) (Some c) (peer_at r p)) p r, Ok c).
Proof. intros Hu He. unfold IdentifyPeer, InitID. rewrite Hu. cbn. by rewrite He. Qed.

(** C29: One node challenges another, which answers with the challenge signed by
    the key of its user; the first takes the answer: the user of the connection
    is the other's, the challenge is over, and what comes out is what setting
    the peer up gives. *)
Theorem identify_exchange ent p c s nA nB idB ki :
  p_UserID (peer_at (nd_r nA) p) = None → p_IDEntityID (peer_at (nd_r nA) p) = None → length c = SizeSalt →
  nd_me nB = Some (idB, Some ki) → key_ok ki idB →
  ∃ nA' data,
    nd_IdentifyPeer ent p (Ok c) nA = (nA', Ok tt) ∧ nd_out nA' = nd_out nA ++ [(p, MIdentifyPeer ent (Some c))] ∧
    (ack_data (Some c) (Ok s) nB).2 = Ok data ∧
    let '(nA'', res) := HandleIdentifyPeerAck ent (Some data) p nA' in
    p_UserID (peer_at (nd_r nA'') p) = Some idB ∧ p_IDChallenge (peer_at (nd_r nA'') p) = None ∧
    ∃ r, p_UserID (peer_at r p) = Some idB ∧ FinishIdentifyPeer config ord pick p false r =
      (nd_r nA'', match res with Err e => Some e | _ => None end) ∧ res ≠ Panic.
Proof.
  intros Hu He Hc Hme Hk. unfold nd_IdentifyPeer. rewrite Hu, IdentifyPeer_new by done.
  set (r1 := on_peer (λ _, set_challenge _ _ _) p _). set (nA' := nd_send _ _ _).
  exists nA'. unfold ack_data. rewrite Hme, SignData_eq. cbn [snd]. eexists. split; [done|]. split; [done|]. split; [done|].
  unfold HandleIdentifyPeerAck. change (nd_r nA') with r1. cbn [ak_AckChallenge ak_MyID].
  assert (peer_at r1 p = set_challenge (Some ent) (Some c) (peer_at (nd_r nA) p)) as E1 by (unfold r1; by rewrite peer_at_on, decide_True).
  rewrite E1. cbn [set_challenge p_IDChallenge p_UserID]. rewrite slice_prefix by (rewrite length_app; lia).
  rewrite take_app_length' by done. rewrite bool_decide_true by done. cbn [negb]. unfold verify_ack. cbn [ak_MyID ak_Hash ak_Sig ak_PubBytes ak_Extra ki_Extra].
  rewrite VerifyData_signed by done. rewrite Hu.
  set (r2 := on_peer (FinishID ent) p _). pose proof (same_user_Finish p r2) as Hf.
  assert (peer_at r2 p = set_challenge None None (set_user (Some idB) (set_challenge (Some ent) (Some c) (peer_at (nd_r nA) p)))) as E2.
  { unfold r2. rewrite peer_at_on, decide_True by done. rewrite peer_at_on, decide_True by done. rewrite E1. unfold FinishID.
    by rewrite decide_True. }
  destruct (FinishIdentifyPeer config ord pick p false r2) as [r3 o] eqn:Ef. cbn [fst] in Hf. destruct (Hf p) as [F1 F2].
  rewrite E2 in F1, F2. destruct o as [e|]; cbn; (split; [done|]); (split; [done|]); exists r2; (split; [by rewrite E2|]); by split.
Qed.

End Identify.

(** An answer whose challenge is shorter than a salt, or that is missing, ends
    the program. *)
Lemma short_answer_panics `{Crypto, !Signing} config ord pick ent p n c data :
  p_IDChallenge (peer_at (nd_r n) p) = Some c →
  match data with None => True | Some d => ∃ a, ak_AckChallenge d = Some a ∧ length a < SizeSalt end →
  HandleIdentifyPeerAck config ord pick ent data p n = (n, Panic).
Proof.
  intros Hc Hd. unfold HandleIdentifyPeerAck. rewrite Hc. destruct data as [d|]; [|done]. destruct Hd as (a & -> & Hl).
  unfold slice. by rewrite decide_False by lia.
Qed.

(** ** Witnesses *)

Definition id_A : NodeSt := MkNodeSt ro_one None [].
Definition id_B : NodeSt := MkNodeSt (NewRouter None) (Some (w_signer, Some w_key)) [].
Definition id_sent : NodeSt := (nd_IdentifyPeer [x05] 1 (Ok w_salt) id_A).1.
Definition id_answer : outcome IdentifyPeerAckData := (ack_data (Some w_salt) (Ok w_salt) id_B).2.

Lemma identify_exchange_witness : ∃ data,
  id_answer = Ok data ∧
  p_UserID (peer_at (nd_r (HandleIdentifyPeerAck ro_config ro_ord ro_pick [x05] (Some data) 1 id_sent).1) 1) = Some w_signer.
Proof.
  destruct (identify_exchange ro_config ro_ord ro_pick [x05] 1 w_salt w_salt id_A id_B w_signer w_key)
    as (nA' & data & E1 & _ & E2 & E3).
  - vm_compute. reflexivity.
  - vm_compute. reflexivity.
  - vm_compute. reflexivity.
  - reflexivity.
  - exact w_key_ok.
  - exists data. split; [exact E2|]. unfold id_sent. rewrite E1. cbn [fst].
    destruct (HandleIdentifyPeerAck ro_config ro_ord ro_pick [x05] (Some data) 1 nA') as [n'' res]. exact (proj1 E3).
Defined.

