(* ===== verification/Envelope.v ===== *)
(** * Messages between entities

    [service/router_utils.go], the parts of [protocol_manager_utils.go] that
    send, [router_utils_handle_message.go] and
    [protocol_manager_utils_handle_message.go]: the data of an operation is
    encrypted with an operation key and wrapped with a code, the hash of the
    key and a checksum; the other side unwraps it, finds the entity by the
    hash, decrypts it, and looks at who sent it before the operation is
    handled. *)

From S2P Require Import Prelude GoTime CommonTypes Discover PttPeer Router RlpxFrame.

Set Default Goal Selector "!".
Set Default Proof Using "Type".

Definition BlockSize : nat := 16.

(** The JSON of [RouterEventData]; bytes in [omitempty] fields come back as they
    were. *)
Record RouterEventData := MkEvent { ev_Code : Z; ev_Hash : bytes; ev_EncData : bytes }.
Class EventJson := {
  ev_Marshal : RouterEventData → bytes;
  ev_Unmarshal : bytes → option RouterEventData;
  ev_roundtrip e : (0 ≤ ev_Code e < 2 ^ 64)%Z → ev_Unmarshal (ev_Marshal e) = Some e
}.

Record RouterData := MkData { rd_Node : bytes; rd_Code : Z; rd_Hash : bytes; rd_EvWithSalt : bytes; rd_Checksum : bytes; rd_Relay : Z }.

Section Envelope.
Context `{Aes, Crypto, EventJson}.

(** ** AES in CFB mode

    [cipher.NewCFBEncrypter] and [NewCFBDecrypter] of Go's library, block by
    block: the key stream of a block is the encryption of the ciphertext before
    it. *)
Fixpoint cfb_encrypt (fuel : nat) (key iv src : bytes) : bytes :=
  match fuel, src with
  | Datatypes.S fuel, _ :: _ =>
    let c := zip_with byte_xor (take BlockSize src) (aes_block key iv) in
    c ++ cfb_encrypt fuel key c (drop BlockSize src)
  | _, _ => []
  end.
Fixpoint cfb_decrypt (fuel : nat) (key iv src : bytes) : bytes :=
  match fuel, src with
  | Datatypes.S fuel, _ :: _ =>
    let c := take BlockSize src in
    zip_with byte_xor c (aes_block key iv) ++ cfb_decrypt fuel key c (drop BlockSize src)
  | _, _ => []
  end.

Definition aesPad (src : bytes) : bytes :=
  let padding := BlockSize - length src mod BlockSize in src ++ replicate padding (byte_of_Z (Z.of_nat padding)).
(** The slice of the last byte of nothing panics. *)
Definition aesUnpad (src : bytes) : outcome bytes :=
  match last src with
  | None => Panic
  | Some b =>
    let unpadding := Z.to_nat (byteZ b) in
    if decide (length src < unpadding) then Err SvcErrInvalidData else Ok (take (length src - unpadding) src)
  end.

(** [iv] is what [genIV] gives. *)
Definition EncryptData (op : Z) (data keyBytes : bytes) (iv : outcome bytes) : outcome bytes :=
  let marshaled := be_enc 4 op ++ data in
  if negb (aes_key_ok keyBytes) then Err ErrExternal else
  let msg := aesPad marshaled in
  iv ← iv;
  Ok (iv ++ cfb_encrypt (length msg) keyBytes iv msg).

Definition DecryptData (ciphertext keyBytes : bytes) : outcome (Z * bytes) :=
  if negb (aes_key_ok keyBytes) then Err ErrExternal else
  if decide (length ciphertext mod BlockSize ≠ 0) then Err SvcErrInvalidData else
  iv ← slice 0 BlockSize ciphertext;
  msg ← slice_from BlockSize ciphertext;
  let msg := cfb_decrypt (length msg) keyBytes iv msg in
  marshaled ← aesUnpad msg;
  data ← slice_from 4 marshaled;
  Ok (be_dec (take 4 marshaled), data).

(** ** The envelope *)

Definition checksumData (bs : bytes) (salt : outcome bytes) : outcome (bytes * bytes) :=
  salt ← salt;
  let bytesWithSalt := Concat [Some bs; Some salt] in
  Ok (bytesWithSalt, Keccak256 bytesWithSalt).
Definition checksumPttEventData (ev : RouterEventData) (salt : outcome bytes) : outcome (bytes * bytes) :=
  checksumData (ev_Marshal ev) salt.
Definition MarshalData (code : Z) (hash encData : bytes) (salt : outcome bytes) : outcome RouterData :=
  '(evWithSalt, checksum) ← checksumPttEventData (MkEvent code hash encData) salt;
  Ok (MkData [] code hash evWithSalt checksum 0).
Definition MarshalDataWithoutHash (code : Z) (encData : bytes) (salt : outcome bytes) : outcome RouterData :=
  '(evWithSalt, checksum) ← checksumPttEventData (MkEvent code [] encData) salt;
  Ok (MkData [] code [] evWithSalt checksum 0).

Definition verifyChecksumData (bytesWithSalt checksum : bytes) : outcome unit :=
  if bool_decide (Keccak256 bytesWithSalt = checksum) then Ok tt else Err SvcErrInvalidData.
Definition verifyChecksumEventData (d : RouterData) : outcome RouterEventData :=
  _ ← verifyChecksumData (rd_EvWithSalt d) (rd_Checksum d);
  let n := length (rd_EvWithSalt d) in
  evBytes ← (if decide (n < SizeSalt) then Panic else slice 0 (n - SizeSalt) (rd_EvWithSalt d));
  match ev_Unmarshal evBytes with Some ev => Ok ev | None => Err ErrDecode end.
Definition UnmarshalData (d : RouterData) : outcome (Z * bytes * bytes) :=
  ev ← verifyChecksumEventData d;
  Ok (ev_Code ev, go_copy (replicate AddressLength x00) (ev_Hash ev), ev_EncData ev).

(** ** Sending with an operation key *)

Definition CodeTypeJoin : Z := 2.
Definition CodeTypeOp : Z := 4.
Definition CodeTypeRequireHash : Z := 6.
Definition CodeTypeIdentifyPeer : Z := 12.
Definition IdentifyPeerMsg : Z := 52.
Definition IdentifyPeerAckMsg : Z := 53.

Record OpKey := MkOpKey { ok_Hash : bytes; ok_KeyBytes : bytes }.
Definition set_node (id : NodeID) (d : RouterData) :=
  MkData id (rd_Code d) (rd_Hash d) (rd_EvWithSalt d) (rd_Checksum d) (rd_Relay d).
(** [oldest] is [GetOldestOpKey]; what is sent to the node [id]. *)
Definition sendDataToPeerWithCode (oldest : outcome OpKey) (code op : Z) (dataBytes : bytes) (iv salt : outcome bytes) (id : NodeID) :
    outcome RouterData :=
  opKeyInfo ← oldest;
  encData ← EncryptData op dataBytes (ok_KeyBytes opKeyInfo) iv;
  pttData ← MarshalData code (ok_Hash opKeyInfo) encData salt;
  Ok (set_node id pttData).
(** To some peers, the same data; [sent] tells whether [SendData] works. *)
Definition sendDataToPeers (oldest : outcome OpKey) (op : Z) (dataBytes : bytes) (iv salt : outcome bytes) (ids : list NodeID)
    (sent : NodeID → bool) : outcome (list RouterData) :=
  match ids with
  | [] => Ok []
  | _ =>
    opKeyInfo ← oldest;
    encData ← EncryptData op dataBytes (ok_KeyBytes opKeyInfo) iv;
    pttData ← MarshalData CodeTypeOp (ok_Hash opKeyInfo) encData salt;
    match filter (λ id, sent id) ids with
    | [] => Err SvcErrNotSent
    | ok => Ok ((λ id, set_node id pttData) <$> ok)
    end
  end.

(** ** Receiving

    What the [switch] of [HandleMessage] calls, by the code; the error of a code
    without a handler is only logged, like those of the handlers. *)
Inductive CodeHandler :=
  | HandleCodeJoin | HandleCodeJoinAck | HandleCodeOp | HandleCodeOpFail
  | HandleCodeRequestOpKey | HandleCodeRequestOpKeyFail | HandleCodeRequestOpKeyAck | HandleCodeEntityDeleted
  | HandleCodeOpCheckMember | HandleCodeOpCheckMemberAck
  | HandleCodeIdentifyPeer | HandleCodeIdentifyPeerFail | HandleCodeIdentifyPeerWithMyID
  | HandleCodeIdentifyPeerWithMyIDChallenge | HandleCodeIdentifyPeerWithMyIDChallengeAck | HandleCodeIdentifyPeerWithMyIDAck.
Definition code_handlers : list (option CodeHandler) :=
  [None; None; Some HandleCodeJoin; Some HandleCodeJoinAck; Some HandleCodeOp; None; None; Some HandleCodeOpFail;
   Some HandleCodeRequestOpKey; Some HandleCodeRequestOpKeyAck; Some HandleCodeRequestOpKeyFail; Some HandleCodeEntityDeleted;
   Some HandleCodeIdentifyPeer; None; Some HandleCodeIdentifyPeerFail; Some HandleCodeIdentifyPeerWithMyID;
   Some HandleCodeIdentifyPeerWithMyIDChallenge; Some HandleCodeIdentifyPeerWithMyIDChallengeAck;
   Some HandleCodeIdentifyPeerWithMyIDAck; Some HandleCodeOpCheckMember; Some HandleCodeOpCheckMemberAck].
Definition handler_of (code : Z) : option CodeHandler := mjoin (code_handlers !! Z.to_nat code).

(** The node of the data is compared with the empty node, an array, and with
    the bytes of mine; bytes are never equal to an array. *)
Definition HandleMessage (myNodeID : NodeID) (code : Z) (d : RouterData) : outcome (option CodeHandler * bytes * bytes) :=
  if negb (bool_decide (rd_Node d = myNodeID)) then Err SvcErrInvalidData else
  '(evCode, evHash, encData) ← UnmarshalData d;
  if negb (evCode =? code)%Z || ((code <? CodeTypeRequireHash)%Z && negb (bool_decide (evHash = rd_Hash d)))
  then Err SvcErrInvalidData else Ok (handler_of code, evHash, encData).

(** What a message of an operation comes to: the operation that is handled, or
    that the sender is told that its hash is of no entity. *)
Inductive delivered :=
  | DIdentifyPeer (data : bytes) | DIdentifyPeerAck (data : bytes)
  | DNonRegistered (op : Z) (data : bytes) | DOp (op : Z) (data : bytes)
  | DOpFail (hash : bytes).

Section Gate.
Variable config : Config.
Variable ord : gmap NodeID positive → list positive.
Variable pick : gmap NodeID positive → option NodeID.
(** [GetOpKeyFromHash] of the entity, and [HandleNonRegisteredMessage]. *)
Variable GetOpKeyFromHash : bytes → outcome OpKey.
Variable HandleNonRegisteredMessage : Z → bytes → option GoErr.

Definition PMHandleMessageWrapper (id : PttID) (e : Entity) (hash encData : bytes) (p : positive) (r : BaseRouter) :
    BaseRouter * outcome delivered :=
  match '(opKeyInfo) ← GetOpKeyFromHash hash; DecryptData encData (ok_KeyBytes opKeyInfo) with
  | Err err => (r, Err err)
  | Panic => (r, Panic)
  | Ok (op, dataBytes) =>
    if (op =? IdentifyPeerMsg)%Z then (r, Ok (DIdentifyPeer dataBytes)) else
    if (op =? IdentifyPeerAckMsg)%Z then (r, Ok (DIdentifyPeerAck dataBytes)) else
    let peer := peer_at r p in
    let fitPeerType := pm_getPeerType (e_pm e) (e_peers e) peer in
    if pt_num fitPeerType <? pt_num PeerTypePending then
      let r := match ps_Peer (p_ID peer) (e_peers e) with
               | Some _ => (UnregisterPeer config ord pick id p false false r).1
               | None => r
               end in
      (r, Err SvcErrInvalidEntity)
    else
    match HandleNonRegisteredMessage op dataBytes with
    | None => (r, Ok (DNonRegistered op dataBytes))
    | Some _ =>
      if negb (p_IsRegistered peer) then (r, Err SvcErrNotRegistered) else
      let r := match GetPeerWithPeerType (p_ID peer) fitPeerType (e_peers e) with
               | Some _ => r
               | None => set_entities (<[id := (RegisterPeer ord r p fitPeerType e).1]> (r_entities r)) r
               end in
      (r, Ok (DOp op dataBytes))
    end
  end.

Definition handle_op (hash encData : bytes) (p : positive) (r : BaseRouter) : BaseRouter * outcome delivered :=
  match getEntityFromHash hash r with
  | inr _ => (r, Ok (DOpFail hash))
  | inl (id, e) => PMHandleMessageWrapper id e hash encData p r
  end.
End Gate.

(** ** CFB *)

Lemma cfb_length fuel key iv src : length src ≤ fuel → length iv = BlockSize → length (cfb_encrypt fuel key iv src) = length src.
Proof.
  revert iv src. induction fuel as [|fuel IH]; intros iv src Hf Hiv; [destruct src; [done|cbn in Hf; lia]|].
  destruct src as [|x src]; [done|]. set (s := x :: src). change (cfb_encrypt (Datatypes.S fuel) key iv s) with
    (zip_with byte_xor (take BlockSize s) (aes_block key iv) ++ cfb_encrypt fuel key (zip_with byte_xor (take BlockSize s) (aes_block key iv)) (drop BlockSize s)).
  rewrite length_app. destruct (decide (BlockSize ≤ length s)) as [Hb|Hb].
  - rewrite IH.
    + rewrite length_zip_with, aes_block_length, length_take, length_drop. unfold BlockSize in *. lia.
    + rewrite length_drop. subst s. unfold BlockSize. cbn [length] in *. lia.
    + rewrite length_zip_with, aes_block_length, length_take. unfold BlockSize in *. lia.
  - rewrite drop_ge by lia. rewrite length_zip_with, aes_block_length, length_take.
    destruct fuel; cbn [cfb_encrypt length]; unfold BlockSize in *; lia.
Qed.

Lemma zip_xor_twice (src ks : bytes) : length src ≤ length ks → zip_with byte_xor (zip_with byte_xor src ks) ks = src.
Proof.
  revert ks. induction src as [|x src IH]; intros [|k ks] Hl; simpl in *; try done; [lia|].
  rewrite byte_xor_cancel. f_equal. apply IH. lia.
Qed.

Lemma cfb_roundtrip fuel key iv src : length src ≤ fuel →
  cfb_decrypt fuel key iv (cfb_encrypt fuel key iv src) = src.
Proof.
  revert iv src. induction fuel as [|fuel IH]; intros iv src Hf; [destruct src; [done|cbn in Hf; lia]|].
  destruct src as [|x src]; [done|]. set (s := x :: src). set (c := zip_with byte_xor (take BlockSize s) (aes_block key iv)).
  change (cfb_encrypt (Datatypes.S fuel) key iv s) with (c ++ cfb_encrypt fuel key c (drop BlockSize s)).
  assert (length c = length s `min` 16) as Hc.
  { subst c. rewrite length_zip_with, aes_block_length, length_take. unfold BlockSize. lia. }
  destruct c as [|y c'] eqn:Ec; [subst s; cbn in Hc; lia|]. rewrite <- Ec in *. clear c' y Ec.
  assert (∀ rest, length c = 16 ∨ rest = [] → cfb_decrypt (Datatypes.S fuel) key iv (c ++ rest) =
    zip_with byte_xor c (aes_block key iv) ++ cfb_decrypt fuel key c rest) as Hd.
  { intros rest Hr. destruct (c ++ rest) as [|z zs] eqn:Ez; [apply app_nil in Ez as [Ec ->]; rewrite Ec in Hc; subst s; cbn in Hc; lia|].
    cbn [cfb_decrypt]. rewrite <- Ez. destruct Hr as [Hl| ->].
    - by rewrite take_app_length', drop_app_length' by done.
    - rewrite app_nil_r, take_ge, drop_ge by (unfold BlockSize; lia). done. }
  rewrite Hd.
  - assert (zip_with byte_xor c (aes_block key iv) = take BlockSize s) as ->.
    { subst c. apply zip_xor_twice. rewrite length_take, aes_block_length. unfold BlockSize. lia. }
    rewrite IH; [apply take_drop|]. rewrite length_drop. subst s. unfold BlockSize. cbn [length] in *. lia.
  - destruct (decide (16 ≤ length s)) as [Hl|Hl]; [left; lia|right]. rewrite drop_ge by (unfold BlockSize; lia). by destruct fuel.
Qed.

(** ** Padding *)

Lemma pad_length src : length (aesPad src) mod BlockSize = 0 ∧ BlockSize ≤ length (aesPad src).
Proof.
  unfold aesPad. rewrite length_app, length_replicate. pose proof (Nat.div_mod (length src) BlockSize ltac:(done)) as Hd.
  pose proof (Nat.mod_upper_bound (length src) BlockSize ltac:(done)) as Hu. split.
  - replace (length src + (BlockSize - length src mod BlockSize)) with ((length src / BlockSize + 1) * BlockSize) by lia.
    by apply Nat.Div0.mod_mul.
  - unfold BlockSize in *. lia.
Qed.

Lemma aesUnpad_pad src : aesUnpad (aesPad src) = Ok src.
Proof.
  unfold aesUnpad, aesPad. set (k := BlockSize - length src mod BlockSize).
  assert (0 < k ≤ 16) as Hk by (pose proof (Nat.mod_upper_bound (length src) BlockSize ltac:(done)); unfold BlockSize in *; lia).
  assert (last (src ++ replicate k (byte_of_Z (Z.of_nat k))) = Some (byte_of_Z (Z.of_nat k))) as ->.
  { destruct k as [|k']; [lia|]. rewrite replicate_S_end, app_assoc. apply last_snoc. }
  rewrite byteZ_of_Z, Z.mod_small, Nat2Z.id by lia. rewrite length_app, length_replicate, decide_False by lia.
  rewrite Nat.add_sub. by rewrite take_app_length.
Qed.

(** ** Encryption *)

Lemma slice_first (b c : bytes) n : n = length b → slice 0 n (b ++ c) = Ok b.
Proof. intros ->. apply (slice_app [] b c); [done|cbn; lia]. Qed.

Lemma EncryptData_ok op data key iv : aes_key_ok key = true → length iv = BlockSize →
  ∃ ct, EncryptData op data key (Ok iv) = Ok ct ∧ (in_u32 op → DecryptData ct key = Ok (op, data)).
Proof.
  intros Hk Hiv. unfold EncryptData. rewrite Hk. cbn [negb mbind outcome_bind]. set (msg := aesPad _).
  eexists. split; [done|]. intros Hop. destruct (pad_length (be_enc 4 op ++ data)) as [Hm _]. fold msg in Hm.
  assert (length (cfb_encrypt (length msg) key iv msg) = length msg) as Hl by (by apply cfb_length).
  unfold DecryptData. rewrite Hk. cbn [negb]. rewrite length_app, Hl, Hiv.
  rewrite decide_False by (rewrite Nat.Div0.add_mod, Hm, Nat.Div0.mod_same; intros Hn; by apply Hn).
  rewrite slice_first by done. cbn [mbind outcome_bind]. rewrite slice_from_app by done. cbn [mbind outcome_bind].
  rewrite Hl, cfb_roundtrip by done. unfold msg. rewrite aesUnpad_pad. cbn [mbind outcome_bind].
  rewrite slice_from_app by (by rewrite be_enc_length). cbn [mbind outcome_bind].
  rewrite take_app_length' by (by rewrite be_enc_length). rewrite be_dec_enc, Z.mod_small; [done|]. unfold in_u32 in Hop. lia.
Qed.

Lemma MarshalData_ok code hash encData salt :
  length salt = SizeSalt → length hash = AddressLength → in_u64 code →
  ∃ d, MarshalData code hash encData (Ok salt) = Ok d ∧ rd_Code d = code ∧ rd_Hash d = hash ∧
    ∀ id, UnmarshalData (set_node id d) = Ok (code, hash, encData).
Proof.
  intros Hs Hh Hc. unfold MarshalData, checksumPttEventData, checksumData. cbn [mbind outcome_bind].
  set (ev := MkEvent code hash encData). rewrite (Concat_Some [ev_Marshal ev; salt] : Concat [Some (ev_Marshal ev); Some salt] = _). cbn [concat]. rewrite app_nil_r.
  eexists. split; [done|]. split; [done|]. split; [done|]. intros id.
  unfold UnmarshalData, verifyChecksumEventData, verifyChecksumData. cbn [set_node rd_EvWithSalt rd_Checksum].
  rewrite bool_decide_true by done. cbn [mbind outcome_bind]. rewrite length_app, Hs, decide_False by lia.
  rewrite slice_first by lia. cbn [mbind outcome_bind]. rewrite ev_roundtrip by done.
  cbn [mbind outcome_bind ev ev_Code ev_Hash ev_EncData]. by rewrite go_copy_full by (by rewrite length_replicate).
Qed.

Lemma HandleMessage_ok id code hash encData d :
  rd_Hash d = hash → UnmarshalData (set_node id d) = Ok (code, hash, encData) →
  HandleMessage id code (set_node id d) = Ok (handler_of code, hash, encData).
Proof.
  intros Eh Hun. unfold HandleMessage. cbn [rd_Node set_node rd_Hash]. rewrite bool_decide_true by done. cbn [negb].
  rewrite Hun. cbn [mbind outcome_bind]. rewrite Eh, Z.eqb_refl, bool_decide_true by done. cbn. by rewrite andb_false_r.
Qed.

(** C7: What is sent with an operation key to a node is refused by every other
    node; the node it is sent to, when it has the key for the same hash, gets
    the operation and its data, and looks at the sender: the operation is
    handled when the sender is at least pending for the entity and registered,
    not when it is nothing to the entity, and only those that identify the
    sender are handled in any case. *)
Theorem message_delivered config ord pick keys nonreg k op data iv salt id eid e p r :
  aes_key_ok (ok_KeyBytes k) = true → length (ok_Hash k) = AddressLength → length iv = BlockSize → length salt = SizeSalt →
  in_u32 op → keys (ok_Hash k) = Ok k → r_ops r !! ok_Hash k = Some eid → r_entities r !! eid = Some e →
  ∃ d enc, sendDataToPeerWithCode (Ok k) CodeTypeOp op data (Ok iv) (Ok salt) id = Ok d ∧
    (∀ other, other ≠ id → HandleMessage other CodeTypeOp d = Err SvcErrInvalidData) ∧
    HandleMessage id CodeTypeOp d = Ok (Some HandleCodeOp, ok_Hash k, enc) ∧
    let res := (handle_op config ord pick keys nonreg (ok_Hash k) enc p r).2 in
    let fit := pm_getPeerType (e_pm e) (e_peers e) (peer_at r p) in
    if (op =? IdentifyPeerMsg)%Z then res = Ok (DIdentifyPeer data)
    else if (op =? IdentifyPeerAckMsg)%Z then res = Ok (DIdentifyPeerAck data)
    else if pt_num fit <? pt_num PeerTypePending then res = Err SvcErrInvalidEntity
    else match nonreg op data with
         | None => res = Ok (DNonRegistered op data)
         | Some _ => res = if p_IsRegistered (peer_at r p) then Ok (DOp op data) else Err SvcErrNotRegistered
         end.
Proof.
  intros Hk Hh Hiv Hs Hop Hkeys Hops He. destruct (EncryptData_ok op data (ok_KeyBytes k) iv Hk Hiv) as (enc & E1 & Hdec).
  destruct (MarshalData_ok CodeTypeOp (ok_Hash k) enc salt Hs Hh) as (d & E2 & Ecode & Ehash & Hun); [by unfold in_u64, CodeTypeOp|].
  exists (set_node id d), enc. unfold sendDataToPeerWithCode. cbn [mbind outcome_bind]. rewrite E1. cbn [mbind outcome_bind]. rewrite E2.
  split; [done|]. split; [|split].
  - intros other Ho. unfold HandleMessage. cbn [rd_Node set_node]. by rewrite bool_decide_false by congruence.
  - by apply (HandleMessage_ok id CodeTypeOp).
  - cbn zeta. unfold handle_op, getEntityFromHash. rewrite Hops, He. unfold PMHandleMessageWrapper. rewrite Hkeys.
    cbn [mbind outcome_bind]. rewrite (Hdec Hop). destruct (op =? IdentifyPeerMsg)%Z; [done|]. destruct (op =? IdentifyPeerAckMsg)%Z; [done|].
    destruct (_ <? _); [done|]. destruct (nonreg op data); [|done]. by destruct (p_IsRegistered _).
Qed.

(** Data shorter than a salt, whose checksum anyone can compute, and an empty
    ciphertext, end the program. *)
Lemma short_data_panics d : Keccak256 (rd_EvWithSalt d) = rd_Checksum d → length (rd_EvWithSalt d) < SizeSalt → UnmarshalData d = Panic.
Proof.
  intros Hc Hl. unfold UnmarshalData, verifyChecksumEventData, verifyChecksumData. rewrite bool_decide_true by done.
  cbn [mbind outcome_bind]. by rewrite decide_True by done.
Qed.
Lemma empty_ciphertext_panics key : aes_key_ok key = true → DecryptData [] key = Panic.
Proof. intros Hk. unfold DecryptData. rewrite Hk. cbn. done. Qed.

End Envelope.

(** ** Witnesses *)

Definition en_json : EventJson.
Proof.
  refine {| ev_Marshal e := codec_enc (ev_Code e, ev_Hash e, ev_EncData e);
            ev_Unmarshal b := '(c, h, d) ← codec_dec b; Some (MkEvent c h d) |}.
  intros [c h d] _. cbn. by rewrite codec_dec_enc.
Defined.
#[local] Existing Instances en_json plain_aes toy_crypto.

Definition en_hash : bytes := replicate 20 x01.
Definition en_key : OpKey := MkOpKey en_hash (replicate 16 x02).
Definition en_entity : Entity := MkEntity (default_pm (λ _, false) (λ _, true) true true) NewPttPeerSet.
Definition en_router : BaseRouter :=
  MkRouter {[1%positive := set_registered true (set_user (Some (replicate 40 x03)) (NewPttPeer 1 (replicate 64 x04)))]}
    ∅ ∅ ∅ ∅ ∅ ∅ ∅ NewDialHistory {[EmptyID := en_entity]} None {[en_hash := EmptyID]} [] [] [].

Lemma message_delivered_witness : ∃ d enc,
  sendDataToPeerWithCode (Ok en_key) CodeTypeOp 77 [x05; x06] (Ok (replicate 16 x07)) (Ok (replicate 32 x08)) (replicate 64 x09) = Ok d ∧
  HandleMessage (replicate 64 x09) CodeTypeOp d = Ok (Some HandleCodeOp, en_hash, enc) ∧
  (handle_op ro_config ro_ord ro_pick (λ _, Ok en_key) (λ _ _, Some ErrExternal) en_hash enc 1 en_router).2 = Ok (DOp 77 [x05; x06]).
Proof.
  destruct (message_delivered ro_config ro_ord ro_pick (λ _, Ok en_key) (λ _ _, Some ErrExternal) en_key 77 [x05; x06]
    (replicate 16 x07) (replicate 32 x08) (replicate 64 x09) EmptyID en_entity 1 en_router) as (d & enc & E1 & _ & E2 & E3).
  1: vm_compute; reflexivity. 1-3: reflexivity. 1: unfold in_u32; lia. 1: reflexivity. 1,2: apply lookup_insert_eq.
  exists d, enc. exact (conj E1 (conj E2 E3)).
Defined.
