(* ===== verification/OpKeys.v ===== *)
(** * The operation keys of an entity

    [service/protocol_manager_utils_op_key.go], [service/router_utils_op.go] and
    the decision to make a new key in [service/protocol_create_op_key.go]: the
    messages of an entity are encrypted with keys that masters make, hand
    around and renew; a node registers those that are alive, encrypts with one
    and finds the key of a message by its hash.

    A key that is registered does not change; operations run one at a time, as
    under [lockOpKeyInfo]. *)

From S2P Require Import Prelude GoTime CommonTypes.

Set Default Goal Selector "!".
Set Default Proof Using "Type".

Record KeyInfo := MkKey {
  k_ID : PttID; k_Status : Status; k_Hash : option bytes; k_KeyBytes : option bytes;
  k_UpdateTS : Timestamp; k_LogID : option PttID; k_CreateLogID : option PttID
}.

(** What is deleted from the database. *)
Inductive removed := RemovedOplog (logID : PttID) | RemovedKey (id : PttID) | RemovedRecord (key : bytes).

(** The fields of the protocol manager; [pm_ops] are the operation keys of the
    router, with the entity they belong to. *)
Record PMKeys := MkKeys {
  opKeyInfos : gmap bytes KeyInfo;
  newestOpKeyInfo : option KeyInfo; oldestOpKeyInfo : option KeyInfo;
  pm_ops : gmap bytes PttID;
  pm_removed : list removed
}.
Definition NewPMKeys : PMKeys := MkKeys ∅ None None ∅ [].
Implicit Types (s : PMKeys) (k : KeyInfo).
Definition set_infos m s := MkKeys m (newestOpKeyInfo s) (oldestOpKeyInfo s) (pm_ops s) (pm_removed s).
Definition set_newest n s := MkKeys (opKeyInfos s) n (oldestOpKeyInfo s) (pm_ops s) (pm_removed s).
Definition set_oldest o s := MkKeys (opKeyInfos s) (newestOpKeyInfo s) o (pm_ops s) (pm_removed s).
Definition set_ops m s := MkKeys (opKeyInfos s) (newestOpKeyInfo s) (oldestOpKeyInfo s) m (pm_removed s).
Definition add_removed l s := MkKeys (opKeyInfos s) (newestOpKeyInfo s) (oldestOpKeyInfo s) (pm_ops s) (pm_removed s ++ l).

Section OpKeys.
Variable expireOpKeySeconds renewOpKeySeconds : Z.
Variable entityID : PttID.
(** The order in which [range] goes over the keys. *)
Variable ord : gmap bytes KeyInfo → list KeyInfo.
Abbreviation PK := (stm PMKeys).

(** [now] is the result of [GetTimestamp]. *)
Definition getExpireOpKeyTS (now : outcome Timestamp) : outcome Timestamp :=
  now ← now; Ok (MkTs (i64 (Ts now - expireOpKeySeconds)) (NanoTs now)).
Definition getExpireRenewOpKeyTS (now : outcome Timestamp) : outcome Timestamp :=
  now ← now;
  let now := MkTs (i64 (Ts now - expireOpKeySeconds)) (NanoTs now) in
  if (expireOpKeySeconds <? renewOpKeySeconds)%Z then Ok now
  else Ok (MkTs (i64 (Ts now + renewOpKeySeconds)) (NanoTs now)).

Definition checkNewestOpKeyInfo k (expireRenewTS : Timestamp) s : PMKeys :=
  if IsLess (k_UpdateTS k) expireRenewTS then s else
  if decide (k_Status k ≠ StatusAlive) then s else
  match newestOpKeyInfo s with
  | None => set_newest (Some k) s
  | Some n => if IsLess (k_UpdateTS n) (k_UpdateTS k) then set_newest (Some k) s else s
  end.
Definition checkOldestOpKeyInfo k (expireRenewTS : Timestamp) s : PMKeys :=
  if IsLess (k_UpdateTS k) expireRenewTS then s else
  if decide (k_Status k ≠ StatusAlive) then s else
  match oldestOpKeyInfo s with
  | None => set_oldest (Some k) s
  | Some o => if IsLess (k_UpdateTS k) (k_UpdateTS o) then set_oldest (Some k) s else s
  end.

(** ** Keys of the router *)

Definition AddOpKey (hash : bytes) (id : PttID) s : PMKeys := set_ops (<[hash := id]> (pm_ops s)) s.
Definition RouterRemoveOpKey (hash : bytes) s : PMKeys := set_ops (delete hash (pm_ops s)) s.

(** ** Registration *)

Definition RegisterOpKey (now : outcome Timestamp) k : PK unit := λ s,
  if decide (k_Status k ≠ StatusAlive) then (s, Ok tt) else
  match k_KeyBytes k, k_Hash k with
  | None, _ => (s, Err SvcErrInvalidKeyInfo)
  | _, None => (s, Panic)
  | Some _, Some hash =>
    let s := set_infos (<[hash := k]> (opKeyInfos s)) s in
    match getExpireRenewOpKeyTS now with
    | Ok expireRenewTS =>
      let s := checkNewestOpKeyInfo k expireRenewTS s in
      let s := match oldestOpKeyInfo s with None => checkOldestOpKeyInfo k expireRenewTS s | Some _ => s end in
      (AddOpKey hash entityID s, Ok tt)
    | Err e => (s, Err e)
    | Panic => (s, Panic)
    end
  end.
(** The errors of [RegisterOpKey] are dropped. *)
Fixpoint registerOpKeys (nows : list (outcome Timestamp)) (keys : list KeyInfo) : PK unit :=
  match keys, nows with
  | k :: keys, now :: nows => _ ← st_try (RegisterOpKey now k); registerOpKeys nows keys
  | _, _ => mret tt
  end.

(** ** Looking for a key *)

Definition GetOpKeyFromHash (hash : bytes) s : outcome KeyInfo :=
  match opKeyInfos s !! hash with Some k => Ok k | None => Err SvcErrInvalidKeyInfo end.

Definition getNewestOpKeyFullScan (now : outcome Timestamp) : PK KeyInfo := λ s,
  match getExpireRenewOpKeyTS now with
  | Ok ts =>
    let s := foldl (λ s k, checkNewestOpKeyInfo k ts s) (set_newest None s) (ord (opKeyInfos s)) in
    (s, match newestOpKeyInfo s with Some k => Ok k | None => Err SvcErrInvalidKey end)
  | Err e => (s, Err e)
  | Panic => (s, Panic)
  end.
Definition getOldestOpKeyFullScan (now : outcome Timestamp) : PK KeyInfo := λ s,
  match getExpireRenewOpKeyTS now with
  | Ok ts =>
    let s := foldl (λ s k, checkOldestOpKeyInfo k ts s) (set_oldest None s) (ord (opKeyInfos s)) in
    (s, match oldestOpKeyInfo s with Some k => Ok k | None => Err SvcErrInvalidKey end)
  | Err e => (s, Err e)
  | Panic => (s, Panic)
  end.

Definition GetNewestOpKey (now : outcome Timestamp) : PK KeyInfo := λ s,
  match newestOpKeyInfo s with
  | None => getNewestOpKeyFullScan now s
  | Some n =>
    match getExpireRenewOpKeyTS now with
    | Ok ts => (s, if IsLess (k_UpdateTS n) ts then Err SvcErrInvalidKey else Ok n)
    | Err e => (s, Err e)
    | Panic => (s, Panic)
    end
  end.
(** [now'] is the clock in the scan. *)
Definition GetOldestOpKey (now now' : outcome Timestamp) : PK KeyInfo := λ s,
  if decide (size (opKeyInfos s) = 0) then (s, Err SvcErrInvalidKey) else
  match getExpireRenewOpKeyTS now with
  | Ok ts =>
    match oldestOpKeyInfo s with
    | Some o => if negb (IsLess (k_UpdateTS o) ts) then (s, Ok o) else (s, Ok o)
    | None => getOldestOpKeyFullScan now' s
    end
  | Err e => (s, Err e)
  | Panic => (s, Panic)
  end.

(** ** Removal; [now] and [now'] are the clock in the two scans *)

Definition RemoveOpKey (now now' : outcome Timestamp) k (isDeleteOplog isDeleteDB : bool) s : PMKeys :=
  let s := match k_Hash k with Some hash => set_infos (delete hash (opKeyInfos s)) s | None => s end in
  let oplogs := if isDeleteOplog then RemovedOplog <$> (option_list (k_LogID k) ++ option_list (k_CreateLogID k)) else [] in
  let s := add_removed (oplogs ++ if isDeleteDB then [RemovedKey (k_ID k)] else []) s in
  let s := match k_Hash k with Some hash => RouterRemoveOpKey hash s | None => s end in
  (getOldestOpKeyFullScan now' (getNewestOpKeyFullScan now s).1).1.
Definition ExpireOpKeyInfo (now now' : outcome Timestamp) k s : PMKeys := RemoveOpKey now now' k true true s.
Definition RemoveOpKeyFromHash (now now' : outcome Timestamp) (hash : option bytes) (isDeleteOplog isDeleteDB : bool) s : PMKeys :=
  match hash with
  | None => s
  | Some hash =>
    match opKeyInfos s !! hash with
    | None => s
    | Some k => RemoveOpKey now now' k isDeleteOplog isDeleteDB s
    end
  end.
(** Keys are taken out of the map while [range] goes over it. *)
Definition CleanOpKey (nows : nat → outcome Timestamp * outcome Timestamp) s : PMKeys :=
  foldl (λ s '(i, k), RemoveOpKeyFromHash (nows i).1 (nows i).2 (k_Hash k) true true s) s
    (zip (seq 0 (length (ord (opKeyInfos s)))) (ord (opKeyInfos s))).
Definition RemoveOpHash (now now' : outcome Timestamp) (hash : bytes) (known : bool) s : PMKeys :=
  match pm_ops s !! hash with
  | None => s
  | Some _ => if known then RemoveOpKeyFromHash now now' (Some hash) true true s else RouterRemoveOpKey hash s
  end.

(** ** Start: the keys in the database, some of them not decoded *)

Fixpoint load_keys (expireTS : Timestamp) (iter : list (bytes * option KeyInfo)) : list bytes * list KeyInfo * list KeyInfo :=
  match iter with
  | [] => ([], [], [])
  | (key, v) :: iter =>
    let '(toRemove, toExpire, infos) := load_keys expireTS iter in
    match v with
    | None => (key :: toRemove, toExpire, infos)
    | Some k =>
      if IsLess (k_UpdateTS k) expireTS then (toRemove, k :: toExpire, infos)
      else if decide (k_Status k ≠ StatusAlive) then (toRemove, toExpire, infos)
      else (toRemove, toExpire, k :: infos)
    end
  end.
Definition loadOpKeyInfos (now : outcome Timestamp) (nows : nat → outcome Timestamp * outcome Timestamp)
    (iter : list (bytes * option KeyInfo)) : PK (list KeyInfo) := λ s,
  match getExpireOpKeyTS now with
  | Ok expireTS =>
    let '(toRemove, toExpire, infos) := load_keys expireTS iter in
    let s := add_removed (RemovedRecord <$> toRemove) s in
    (foldl (λ s '(i, k), ExpireOpKeyInfo (nows i).1 (nows i).2 k s) s (zip (seq 0 (length toExpire)) toExpire), Ok infos)
  | Err e => (s, Err e)
  | Panic => (s, Panic)
  end.

(** ** Whether to make a new key *)

Definition ToRenewOpKeyTS (now : outcome Timestamp) : outcome Timestamp :=
  now ← now; Ok (MkTs (i64 (Ts now - renewOpKeySeconds)) (NanoTs now)).
(** Whether [TryCreateOpKeyInfo] goes on to [CreateOpKey]. *)
Definition TryCreateOpKeyInfo (now now' : outcome Timestamp) : PK bool := λ s,
  match ToRenewOpKeyTS now with
  | Ok toRenewTS =>
    let '(s, r) := GetNewestOpKey now' s in
    (s, match r with
        | Ok k => Ok (negb (IsLess toRenewTS (k_UpdateTS k)))
        | Err _ => Ok true
        | Panic => Panic
        end)
  | Err e => (s, Err e)
  | Panic => (s, Panic)
  end.

(** ** The key a scan chooses

    [renewal t] is the time at [t] before which a key is too old to be used. *)

Definition fresh (ts : Timestamp) k : Prop := k_Status k = StatusAlive ∧ ts_le ts (k_UpdateTS k).
Definition registered s k : Prop := ∃ hash, opKeyInfos s !! hash = Some k.
Definition renewal (t : Timestamp) : Timestamp :=
  MkTs (Ts t - expireOpKeySeconds + if (expireOpKeySeconds <? renewOpKeySeconds)%Z then 0 else renewOpKeySeconds) (NanoTs t).
Definition time_ok (t : Timestamp) : Prop := (0 ≤ Ts t < 2 ^ 62)%Z.

(** [o] is a key of [P] that no fresh one precedes in [R]; there is none only if
    no key is fresh. *)
Definition best (R : Timestamp → Timestamp → Prop) (ts : Timestamp) (o : option KeyInfo) (P : KeyInfo → Prop) : Prop :=
  match o with
  | Some k => P k ∧ ∀ k', P k' → fresh ts k' → R (k_UpdateTS k') (k_UpdateTS k)
  | None => ∀ k, P k → ¬ fresh ts k
  end.

Lemma fresh_later t t' k : ts_le t t' → fresh t' k → fresh t k.
Proof. intros Ht [Ha Hf]. split; [done|]. by etrans. Qed.
Lemma best_later R t t' o P : ts_le t t' → best R t o P → best R t' o P.
Proof.
  intros Ht. destruct o as [k|]; simpl.
  - intros [Hk Hb]. split; [done|]. intros k' Hk' Hf. apply Hb; [done|]. by eapply fresh_later.
  - intros Hb k Hk Hf. eapply Hb; [done|]. by eapply fresh_later.
Qed.
Lemma best_ext R ts o (P Q : KeyInfo → Prop) : (∀ k, P k ↔ Q k) → best R ts o P → best R ts o Q.
Proof.
  intros Hpq. destruct o as [k|]; simpl.
  - intros [Hk Hb]. split; [by apply Hpq|]. intros k' Hk'. by apply Hb, Hpq.
  - intros Hb k Hk. by apply Hb, Hpq.
Qed.
Lemma best_weak R ts o P : best R ts o P → best (λ _ _, True) ts o P.
Proof. destruct o as [k|]; simpl; [|done]. by intros [Hk _]. Qed.

(** One more key, as the two checks look at it. *)
Definition choose (better : Timestamp → Timestamp → bool) (ts : Timestamp) (o : option KeyInfo) k : option KeyInfo :=
  if IsLess (k_UpdateTS k) ts then o else if decide (k_Status k ≠ StatusAlive) then o else
  match o with
  | None => Some k
  | Some n => if better (k_UpdateTS n) (k_UpdateTS k) then Some k else o
  end.
Lemma not_less a b : IsLess a b = false → ts_le b a.
Proof. intros Hl. destruct (decide (ts_le b a)) as [|Hn]; [done|]. apply ts_lt_not_le, IsLess_spec in Hn. congruence. Qed.
Lemma choose_best R better ts o k P :
  Transitive R → Reflexive R → (∀ a b, better a b = true → R a b) → (∀ a b, better a b = false → R b a) →
  best R ts o P → best R ts (choose better ts o k) (λ x, P x ∨ x = k).
Proof.
  intros Htr Hrf Hlt Hge Hb. unfold choose. destruct (IsLess (k_UpdateTS k) ts) eqn:Hl; [|destruct (decide (k_Status k ≠ StatusAlive)) as [Hs|Hs]].
  - assert (¬ fresh ts k) as Hn by (intros [_ Hf]; apply IsLess_spec, ts_lt_not_le in Hl; done).
    destruct o as [n|]; simpl in *; [destruct Hb as [Hk Hb]; split; [by left|]|]; intros x [Hx| ->]; auto; done.
  - assert (¬ fresh ts k) as Hn by (by intros [Ha _]).
    destruct o as [n|]; simpl in *; [destruct Hb as [Hk Hb]; split; [by left|]|]; intros x [Hx| ->]; auto; done.
  - destruct o as [n|]; simpl in Hb.
    + destruct Hb as [Hk Hb]. destruct (better (k_UpdateTS n) (k_UpdateTS k)) eqn:E; simpl.
      * split; [by right|]. intros x [Hx| ->] Hf; [|done]. etrans; [by apply Hb|]. by apply Hlt.
      * split; [by left|]. intros x [Hx| ->] Hf; [by apply Hb|]. by apply Hge.
    + simpl. split; [by right|]. intros x [Hx| ->] Hf; [by destruct (Hb x)|done].
Qed.
Definition newer (a b : Timestamp) : bool := IsLess a b.
Definition older (a b : Timestamp) : bool := IsLess b a.
Lemma choose_newest ts o k P : best ts_le ts o P → best ts_le ts (choose newer ts o k) (λ x, P x ∨ x = k).
Proof. apply choose_best; [apply _..| |]; intros a b E; [left; by apply IsLess_spec|by apply not_less]. Qed.
Lemma choose_oldest ts o k P : best (flip ts_le) ts o P → best (flip ts_le) ts (choose older ts o k) (λ x, P x ∨ x = k).
Proof. apply choose_best; [intros a b c ??; by etrans|by intros a| |]; intros a b E; [left; by apply IsLess_spec|by apply not_less]. Qed.

Lemma checkNewest_eq k ts s : checkNewestOpKeyInfo k ts s = set_newest (choose newer ts (newestOpKeyInfo s) k) s.
Proof. unfold checkNewestOpKeyInfo, choose, newer. destruct s as [m [n|] o ops del]; simpl; repeat case_match; done. Qed.
Lemma checkOldest_eq k ts s : checkOldestOpKeyInfo k ts s = set_oldest (choose older ts (oldestOpKeyInfo s) k) s.
Proof. unfold checkOldestOpKeyInfo, choose, older. destruct s as [m n [o|] ops del]; simpl; repeat case_match; done. Qed.

Lemma scan_best R (c : option KeyInfo → KeyInfo → option KeyInfo) ts l o P :
  (∀ o k P, best R ts o P → best R ts (c o k) (λ x, P x ∨ x = k)) →
  best R ts o P → best R ts (foldl c o l) (λ x, P x ∨ x ∈ l).
Proof.
  intros Hc. revert o P. induction l as [|k l IH]; intros o P Hb; simpl.
  - eapply best_ext; [|done]. intros x. split; [by left|]. intros [Hx|Hx]; [done|by apply elem_of_nil in Hx].
  - eapply best_ext; [|by apply IH, Hc]. intros x. rewrite elem_of_cons. tauto.
Qed.
Lemma scan_fresh better ts l o x : foldl (choose better ts) o l = Some x → o = Some x ∨ fresh ts x.
Proof.
  revert o. induction l as [|k l IH]; intros o E; simpl in E; [by left|]. destruct (IH _ E) as [Hc|]; [|by right].
  unfold choose in Hc. destruct (IsLess (k_UpdateTS k) ts) eqn:Hl; [by left|]. destruct (decide (k_Status k ≠ StatusAlive)) as [|Ha]; [by left|].
  apply dec_stable in Ha. apply not_less in Hl. destruct o as [n|]; [destruct (better _ _); [|by left]|]; injection Hc as <-; right; by split.
Qed.
Lemma scan_newest ts l s :
  foldl (λ s k, checkNewestOpKeyInfo k ts s) s l = set_newest (foldl (choose newer ts) (newestOpKeyInfo s) l) s.
Proof. revert s. induction l as [|k l IH]; intros s; simpl; [by destruct s|]. by rewrite IH, checkNewest_eq. Qed.
Lemma scan_oldest ts l s :
  foldl (λ s k, checkOldestOpKeyInfo k ts s) s l = set_oldest (foldl (choose older ts) (oldestOpKeyInfo s) l) s.
Proof. revert s. induction l as [|k l IH]; intros s; simpl; [by destruct s|]. by rewrite IH, checkOldest_eq. Qed.

(** ** What the operations keep *)

Hypothesis Hexpire : (0 ≤ expireOpKeySeconds < 2 ^ 61)%Z.
Hypothesis Hrenew : (0 ≤ renewOpKeySeconds < 2 ^ 61)%Z.
Hypothesis Hord : ∀ m, ord m ≡ₚ (map_to_list m).*2.

Lemma getExpireRenew_eq t : time_ok t → getExpireRenewOpKeyTS (Ok t) = Ok (renewal t).
Proof using Hexpire Hrenew.
  intros Ht. unfold getExpireRenewOpKeyTS, renewal, time_ok in *. cbn [mbind outcome_bind Ts NanoTs].
  rewrite (i64_small (Ts t - expireOpKeySeconds)) by (unfold in_i64; lia). destruct (_ <? _)%Z; [by rewrite Z.add_0_r|].
  rewrite i64_small by (unfold in_i64; lia). done.
Qed.
Lemma renewal_later t t' : ts_le t t' → ts_le (renewal t) (renewal t').
Proof. unfold renewal. intros [Hl| ->]; [|done]. left. unfold ts_lt in *. simpl. lia. Qed.

Record keys_ok (t : Timestamp) s : Prop := {
  ko_keys hash k : opKeyInfos s !! hash = Some k → k_Hash k = Some hash;
  ko_newest : best ts_le (renewal t) (newestOpKeyInfo s) (registered s);
  ko_oldest : best (λ _ _, True) (renewal t) (oldestOpKeyInfo s) (registered s);
  ko_ops hash k : opKeyInfos s !! hash = Some k → pm_ops s !! hash = Some entityID
}.

Lemma keys_ok_later t t' s : ts_le t t' → keys_ok t s → keys_ok t' s.
Proof. intros Ht [H1 H2 H3 H4]. split; [done|by eapply best_later, H2; apply renewal_later|by eapply best_later, H3; apply renewal_later|done]. Qed.
Lemma in_ord s k : k ∈ ord (opKeyInfos s) ↔ registered s k.
Proof using Hord.
  rewrite Hord, list_elem_of_fmap. unfold registered. split.
  - intros ([h x] & -> & Hx). exists h. by apply elem_of_map_to_list.
  - intros [h Hh]. exists (h, k). split; [done|]. by apply elem_of_map_to_list.
Qed.
Lemma scanned R c ts s : (∀ o k P, best R ts o P → best R ts (c o k) (λ x, P x ∨ x = k)) →
  best R ts (foldl c None (ord (opKeyInfos s))) (registered s).
Proof using Hord.
  intros Hc. eapply best_ext; [|apply (scan_best R c ts _ None (λ _, False)); [done|by intros k []]].
  intros k. cbn beta. rewrite in_ord. split; [by intros [[]|]|by right].
Qed.

(** A scan finds the newest, or the oldest, of the keys that are fresh. *)
Lemma newest_scan t s : time_ok t →
  ∃ n, getNewestOpKeyFullScan (Ok t) s = (set_newest n s, match n with Some k => Ok k | None => Err SvcErrInvalidKey end) ∧
    best ts_le (renewal t) n (registered s) ∧ ∀ k, n = Some k → fresh (renewal t) k.
Proof using Hexpire Hrenew Hord.
  intros Ht. unfold getNewestOpKeyFullScan. rewrite getExpireRenew_eq by done. cbn zeta. rewrite scan_newest.
  eexists. split; [done|]. split; [apply scanned, choose_newest|]. intros k E. by destruct (scan_fresh _ _ _ _ _ E).
Qed.
Lemma oldest_scan t s : time_ok t →
  ∃ o, getOldestOpKeyFullScan (Ok t) s = (set_oldest o s, match o with Some k => Ok k | None => Err SvcErrInvalidKey end) ∧
    best (flip ts_le) (renewal t) o (registered s).
Proof using Hexpire Hrenew Hord.
  intros Ht. unfold getOldestOpKeyFullScan. rewrite getExpireRenew_eq by done. cbn zeta. rewrite scan_oldest.
  eexists. split; [done|]. apply scanned, choose_oldest.
Qed.

Lemma newest_scan_ok t s : time_ok t → keys_ok t s → keys_ok t (getNewestOpKeyFullScan (Ok t) s).1.
Proof using Hexpire Hrenew Hord. intros Ht [H1 H2 H3 H4]. destruct (newest_scan t s Ht) as (n & -> & Hn & _). by split. Qed.
Lemma oldest_scan_ok t s : time_ok t → keys_ok t s → keys_ok t (getOldestOpKeyFullScan (Ok t) s).1.
Proof using Hexpire Hrenew Hord.
  intros Ht [H1 H2 H3 H4]. destruct (oldest_scan t s Ht) as (o & -> & Ho). split; try done. by eapply best_weak.
Qed.

(** ** Runs: the clock goes on; a hash stands for one key *)

Inductive keys_run : Timestamp → PMKeys → Prop :=
  | run_start t : keys_run t NewPMKeys
  | run_register t t' k s : keys_run t s → ts_le t t' → time_ok t' →
      (∀ hash k', k_Hash k = Some hash → opKeyInfos s !! hash = Some k' → k' = k) →
      keys_run t' (RegisterOpKey (Ok t') k s).1
  | run_remove t t1 t2 k b b' s : keys_run t s → ts_le t t1 → ts_le t1 t2 → time_ok t1 → time_ok t2 →
      keys_run t2 (RemoveOpKey (Ok t1) (Ok t2) k b b' s)
  | run_newest t t' s : keys_run t s → ts_le t t' → time_ok t' → keys_run t' (GetNewestOpKey (Ok t') s).1
  | run_oldest t t1 t2 s : keys_run t s → ts_le t t1 → ts_le t1 t2 → time_ok t1 → time_ok t2 →
      keys_run t2 (GetOldestOpKey (Ok t1) (Ok t2) s).1.

Lemma register_ok t k s : time_ok t → keys_ok t s →
  (∀ hash k', k_Hash k = Some hash → opKeyInfos s !! hash = Some k' → k' = k) →
  keys_ok t (RegisterOpKey (Ok t) k s).1.
Proof using Hexpire Hrenew.
  intros Ht Hk Hsame. unfold RegisterOpKey. destruct (decide (k_Status k ≠ StatusAlive)) as [|_]; [done|].
  destruct (k_KeyBytes k) as [kb|]; [|done]. destruct (k_Hash k) as [hash|] eqn:Eh; [|done].
  rewrite getExpireRenew_eq by done. cbn zeta. rewrite checkNewest_eq. destruct Hk as [H1 H2 H3 H4].
  set (m := <[hash := k]> (opKeyInfos s)).
  assert (∀ x, registered (set_infos m s) x ↔ registered s x ∨ x = k) as Hreg.
  { intros x. unfold registered. simpl. split.
    - intros [h Hh]. apply lookup_insert_Some in Hh as [[_ ->]|[_ Hh]]; [by right|left; by exists h].
    - intros [[h Hh]| ->]; [|exists hash; apply lookup_insert_eq]. destruct (decide (h = hash)) as [->|Hne].
      + exists hash. rewrite (Hsame _ _ eq_refl Hh). apply lookup_insert_eq.
      + exists h. by apply lookup_insert_Some; right. }
  set (s1 := set_newest _ _).
  assert (best ts_le (renewal t) (newestOpKeyInfo s1) (registered s1)) as Hn.
  { eapply best_ext; [|apply choose_newest, H2]. intros x. symmetry. apply Hreg. }
  assert (best (λ _ _, True) (renewal t) (match oldestOpKeyInfo s1 with None => choose older (renewal t) None k | o => o end) (registered s1)) as Ho.
  { destruct (oldestOpKeyInfo s1) as [o|] eqn:Eo.
    - simpl. split; [|done]. apply Hreg. left. change (oldestOpKeyInfo s = Some o) in Eo. rewrite Eo in H3. by destruct H3.
    - eapply best_weak, best_ext; [|apply choose_oldest]; [intros x; symmetry; apply Hreg|].
      change (oldestOpKeyInfo s = None) in Eo. rewrite Eo in H3. exact H3. }
  assert (∀ s2, opKeyInfos s2 = m → newestOpKeyInfo s2 = newestOpKeyInfo s1 → oldestOpKeyInfo s2 =
    match oldestOpKeyInfo s1 with None => choose older (renewal t) None k | o => o end → pm_ops s2 = pm_ops s →
    keys_ok t (AddOpKey hash entityID s2)) as Hfin.
  { intros s2 E1 E2 E3 E4. split; simpl; unfold registered; simpl; rewrite ?E1, ?E2, ?E3, ?E4; [|done|done|].
    - intros h x Hx. apply lookup_insert_Some in Hx as [[<- <-]|[_ Hx]]; [done|by apply H1].
    - intros h x Hx. apply lookup_insert_Some. apply lookup_insert_Some in Hx as [[<- _]|[Hne Hx]]; [by left|right; split; [done|by eapply H4]]. }
  destruct (oldestOpKeyInfo s1) as [o|] eqn:Eo; [|rewrite checkOldest_eq]; apply Hfin; rewrite ?Eo; try done. all: cbn [oldestOpKeyInfo set_oldest set_newest]; by rewrite ?Eo.
Qed.

Lemma remove_ok t1 t2 k b b' s : time_ok t1 → time_ok t2 → ts_le t1 t2 → keys_ok t1 s →
  keys_ok t2 (RemoveOpKey (Ok t1) (Ok t2) k b b' s).
Proof using Hexpire Hrenew Hord.
  intros Ht1 Ht2 Hle [H1 H2 H3 H4]. unfold RemoveOpKey. cbn zeta. set (l := _ ++ _). set (s1 := match k_Hash k with None => _ | Some _ => _ end).
  assert (∃ m, opKeyInfos s1 = m ∧ ∀ h x, m !! h = Some x → opKeyInfos s !! h = Some x ∧ pm_ops s1 !! h = Some entityID) as (m & Em & Hm).
  { exists (opKeyInfos s1). split; [done|]. intros h x. subst s1. destruct (k_Hash k) as [hash|]; simpl.
    - rewrite !lookup_delete_Some. intros [Hne Hx]. split; [done|]. split; [done|]. by eapply H4.
    - intros Hx. split; [done|]. by eapply H4. }
  destruct (newest_scan t1 s1 Ht1) as (n & -> & Hn & _). cbn [fst].
  destruct (oldest_scan t2 (set_newest n s1) Ht2) as (o & -> & Ho). cbn [fst]. split; simpl.
  - rewrite Em. intros h x Hx. apply H1. by apply (Hm h x).
  - eapply best_later, Hn. by apply renewal_later.
  - by eapply best_weak.
  - rewrite Em. intros h x Hx. by apply (Hm h x).
Qed.

Lemma run_ok t s : keys_run t s → keys_ok t s.
Proof using Hexpire Hrenew Hord.
  induction 1 as [t|t t' k s _ IH Hle Ht Hs|t t1 t2 k b b' s _ IH Hle Hle' Ht1 Ht2|t t' s _ IH Hle Ht|t t1 t2 s _ IH Hle Hle' Ht1 Ht2].
  - split; [intros h k E; by destruct (lookup_empty_Some _ _ E)|intros k [h E]; by destruct (lookup_empty_Some _ _ E)..|].
    intros h k E; by destruct (lookup_empty_Some _ _ E).
  - apply register_ok; [done|by eapply keys_ok_later|done].
  - apply remove_ok; [done..|]. by eapply keys_ok_later.
  - apply (keys_ok_later _ _ _ Hle) in IH. unfold GetNewestOpKey. destruct (newestOpKeyInfo s); [|by apply newest_scan_ok].
    by rewrite getExpireRenew_eq.
  - apply (keys_ok_later _ _ _ Hle) in IH. unfold GetOldestOpKey. pose proof (keys_ok_later _ _ _ Hle' IH) as IH'.
    destruct (decide _); [done|]. rewrite getExpireRenew_eq by done. destruct (oldestOpKeyInfo s).
    + by destruct (negb _).
    + by apply oldest_scan_ok.
Qed.

(** C32: However keys were registered, looked for and removed while time went
    on: the key for new messages is registered, fresh, and no registered key is
    newer; there is one whenever some registered key is fresh; the other key
    messages are encrypted with is registered, and there whenever one is
    fresh; and the key of each is found by its hash, the entity by the router. *)
Theorem op_key_newest t s now now' :
  keys_run t s → ts_le t now → ts_le now now' → time_ok now → time_ok now' →
  let newest := (GetNewestOpKey (Ok now) s).2 in
  let oldest := (GetOldestOpKey (Ok now) (Ok now') s).2 in
  (∀ k, newest = Ok k → registered s k ∧ ts_le (renewal now) (k_UpdateTS k) ∧
     ∀ k', registered s k' → k_Status k' = StatusAlive → ts_le (k_UpdateTS k') (k_UpdateTS k)) ∧
  ((∃ k, registered s k ∧ fresh (renewal now) k) → ∃ k, newest = Ok k) ∧
  (∀ k, oldest = Ok k → registered s k) ∧
  ((∃ k, registered s k ∧ fresh (renewal now') k) → ∃ k, oldest = Ok k) ∧
  (∀ k, registered s k → ∃ hash, k_Hash k = Some hash ∧ GetOpKeyFromHash hash s = Ok k ∧ pm_ops s !! hash = Some entityID).
Proof using Hexpire Hrenew Hord.
  intros Hrun Hle Hle' Hn Hn'. pose proof (keys_ok_later _ _ _ Hle (run_ok _ _ Hrun)) as [H1 H2 H3 H4]. cbn zeta.
  assert (∀ k, best ts_le (renewal now) (Some k) (registered s) → ts_le (renewal now) (k_UpdateTS k) →
    ∀ k', registered s k' → k_Status k' = StatusAlive → ts_le (k_UpdateTS k') (k_UpdateTS k)) as Hbest.
  { intros k [_ Hb] Hf k' Hk' Ha. destruct (decide (ts_le (renewal now) (k_UpdateTS k'))) as [Hf'|Hs]; [by apply Hb|].
    apply ts_lt_not_le in Hs. left. by eapply ts_lt_le_trans. }
  assert (size (opKeyInfos s) = 0 → ∀ k, ¬ registered s k) as Hsz.
  { intros Hz k [h Hh]. apply map_size_empty_iff in Hz. by rewrite Hz, lookup_empty in Hh. }
  split_and!.
  - intros k. unfold GetNewestOpKey. destruct (newestOpKeyInfo s) as [n|] eqn:En.
    + rewrite getExpireRenew_eq by done. cbn [snd]. destruct (IsLess _ _) eqn:El; [done|]. intros [= <-].
      apply not_less in El. split; [by destruct H2|]. split; [done|]. by apply Hbest.
    + destruct (newest_scan now s Hn) as (o & -> & Hb & Hf). cbn [snd]. destruct o as [x|]; [|done]. intros [= <-].
      destruct (Hf x eq_refl) as [_ Hx]. split; [by destruct Hb|]. split; [done|]. by apply Hbest.
  - intros (k & Hk & Hf). unfold GetNewestOpKey. destruct (newestOpKeyInfo s) as [n|] eqn:En.
    + rewrite getExpireRenew_eq by done. cbn [snd]. destruct (IsLess _ _) eqn:El; [|by exists n].
      apply IsLess_spec in El. destruct H2 as [_ Hb]. exfalso. pose proof (Hb k Hk Hf) as Hkn. destruct Hf as [_ Hf].
      apply ts_lt_not_le in El. destruct El. by etrans.
    + by destruct (H2 k Hk).
  - intros k. unfold GetOldestOpKey. destruct (decide _); [done|]. rewrite getExpireRenew_eq by done.
    destruct (oldestOpKeyInfo s) as [o|].
    + destruct (negb _); intros [= <-]; by destruct H3.
    + destruct (oldest_scan now' s Hn') as (o & -> & Hb). cbn [snd]. destruct o as [x|]; [|done]. intros [= <-]. by destruct Hb.
  - intros (k & Hk & Hf). unfold GetOldestOpKey. destruct (decide _) as [Hz|_]; [by destruct (Hsz Hz k)|].
    rewrite getExpireRenew_eq by done. destruct (oldestOpKeyInfo s) as [o|]; [exists o; by destruct (negb _)|].
    destruct (oldest_scan now' s Hn') as (o & -> & Hb). cbn [snd]. destruct o as [x|]; [by exists x|]. by destruct (Hb k Hk).
  - intros k [h Hh]. exists h. split; [by apply H1|]. unfold GetOpKeyFromHash. rewrite Hh. split; [done|]. by eapply H4.
Qed.

End OpKeys.

(** ** Witnesses *)

Definition kk_key (x : Byte.byte) (t : Z) : KeyInfo := MkKey (replicate 40 x) StatusAlive (Some [x]) (Some [x]) (MkTs t 0) None None.
Definition kk_ord (m : gmap bytes KeyInfo) : list KeyInfo := (map_to_list m).*2.
(** Two keys are registered, the newer first. *)
Definition kk_state : PMKeys :=
  (RegisterOpKey 259200 86400 EmptyID (Ok (MkTs 1000020 0)) (kk_key x01 1000000)
     (RegisterOpKey 259200 86400 EmptyID (Ok (MkTs 1000010 0)) (kk_key x02 1000005) NewPMKeys).1).1.

Lemma kk_run : keys_run 259200 86400 EmptyID kk_ord (MkTs 1000020 0) kk_state.
Proof.
  apply (run_register _ _ _ _ (MkTs 1000010 0)); [|left; unfold ts_lt; cbn; lia|unfold time_ok; cbn; lia|].
  - apply (run_register _ _ _ _ (MkTs 0 0)); [apply run_start|left; unfold ts_lt; cbn; lia|unfold time_ok; cbn; lia|].
    intros hash k' _ E. by destruct (lookup_empty_Some _ _ E).
  - intros hash k' [= <-] E. vm_compute in E. done.
Defined.

Lemma op_key_newest_witness : (GetNewestOpKey 259200 86400 kk_ord (Ok (MkTs 1000030 0)) kk_state).2 = Ok (kk_key x02 1000005) ∧
  registered kk_state (kk_key x02 1000005) ∧
  ∃ k, (GetOldestOpKey 259200 86400 kk_ord (Ok (MkTs 1000030 0)) (Ok (MkTs 1000030 0)) kk_state).2 = Ok k.
Proof.
  pose proof (op_key_newest 259200 86400 EmptyID kk_ord ltac:(lia) ltac:(lia) ltac:(intros m; reflexivity)
    (MkTs 1000020 0) kk_state (MkTs 1000030 0) (MkTs 1000030 0) kk_run ltac:(left; unfold ts_lt; cbn; lia) ltac:(right; reflexivity)
    ltac:(unfold time_ok; cbn; lia) ltac:(unfold time_ok; cbn; lia)) as (Hk & _ & _ & Ho & _).
  assert ((GetNewestOpKey 259200 86400 kk_ord (Ok (MkTs 1000030 0)) kk_state).2 = Ok (kk_key x02 1000005)) as E by (vm_compute; reflexivity).
  split; [exact E|]. destruct (Hk _ E) as (Hr & Hf & _). split; [exact Hr|]. apply Ho.
  exists (kk_key x02 1000005). split; [exact Hr|]. split; [reflexivity|exact Hf].
Defined.

(** The oldest key is the one that was registered first, until one is removed. *)
Example oldest_is_first :
  (GetOldestOpKey 259200 86400 kk_ord (Ok (MkTs 1000030 0)) (Ok (MkTs 1000030 0)) kk_state).2 = Ok (kk_key x02 1000005) ∧
  IsLess (k_UpdateTS (kk_key x01 1000000)) (k_UpdateTS (kk_key x02 1000005)) = true ∧ registered kk_state (kk_key x01 1000000).
Proof. split; [vm_compute; reflexivity|]. split; [reflexivity|]. exists [x01]. vm_compute. reflexivity. Qed.
