(* ===== verification/Join.v ===== *)
(** * Joining

    [service/protocol_join*.go], [protocol_approve_join.go],
    [protocol_to_confirm_join.go], [router_utils_join.go],
    [protocol_manager_utils_join_key.go], the part of
    [router_utils_handle_message.go] for these messages, and the requests of
    [me/protocol_join_me.go], [protocol_join_friend.go],
    [protocol_manager_utils_join.go]: whoever has a join key, handed out of
    band, asks the node of the entity for it; the node proves that it knows the
    key, is told who joins, and approves.

    The messages travel in the envelope of [Envelope], encrypted with the key. *)

From S2P Require Import Prelude GoTime CommonTypes Discover PttPeer Router RlpxFrame Envelope.

Set Default Goal Selector "!".
Set Default Proof Using "Type".

(** ** Data *)

Definition JoinMsg : Z := 1.
Definition JoinAckChallengeMsg : Z := 2.
Definition JoinEntityMsg : Z := 3.
Definition ApproveJoinMsg : Z := 4.
Definition CodeTypeJoinAck : Z := 3.
Definition IntRenewJoinKeySeconds : Z := 86400.

Inductive JoinStatus := JoinStatusNone | JoinStatusPending | JoinStatusRequested | JoinStatusWaitAccepted | JoinStatusAccepted.
#[global] Instance JoinStatus_eq_dec : EqDecision JoinStatus.
Proof. solve_decision. Defined.

(** [jr_Key] are the bytes of the key. *)
Record JoinRequest := MkRequest {
  jr_CreatorID : PttID; jr_CreateTS : Timestamp; jr_NodeID : NodeID; jr_Hash : bytes; jr_Key : bytes;
  jr_Name : bytes; jr_Status : JoinStatus; jr_Master0Hash : bytes; jr_Challenge : bytes; jr_ID : option PttID
}.
Record Join := MkJoin { jn_Hash : bytes; jn_Challenge : bytes }.
Record JoinAckChallenge := MkJoinAck { ja_Challenge : bytes; ja_ID : option PttID; ja_Name : bytes; ja_Master0Hash : bytes }.
Record JoinEntity := MkJoinEntity { je_ID : option PttID; je_Name : bytes; je_Master0Hash : bytes }.
(** [aj_Data] is the JSON of the data the entity approves with. *)
Record ApproveJoin := MkApprove { aj_ID : PttID; aj_Name : bytes; aj_OpKeyBytes : bytes; aj_Data : bytes }.

(** The JSON of the messages; an identifier that is there has its length. *)
Class JoinJson := {
  join_Marshal : Join → bytes; join_Unmarshal : bytes → option Join;
  ack_Marshal : JoinAckChallenge → bytes; ack_Unmarshal : bytes → option JoinAckChallenge;
  entity_Marshal : JoinEntity → bytes; entity_Unmarshal : bytes → option JoinEntity;
  approve_Marshal : ApproveJoin → bytes;
  join_json j : join_Unmarshal (join_Marshal j) = Some j;
  ack_json a id : ja_ID a = Some id → length id = SizePttID → ack_Unmarshal (ack_Marshal a) = Some a;
  entity_json e id : je_ID e = Some id → length id = SizePttID → entity_Unmarshal (entity_Marshal e) = Some e
}.

(** An entity as joining sees it, with the keys it is joined with (of my own
    entity those of both lists, mine and friends'); [jt_ApproveJoin] is [ApproveJoin] of its protocol
    manager: the bytes of an operation key and the data; it may register the
    connection.  Entities stay. *)
Record JEntity := MkJEntity {
  jt_Name : bytes; jt_Status : Status; jt_MasterLog0Hash : bytes;
  joinKeyInfos : list OpKey;
  jt_GetJoinType : bytes → outcome Z;
  jt_IsSuspiciousID : option PttID → NodeID → bool; jt_IsGoodID : option PttID → NodeID → bool;
  jt_ApproveJoin : JoinEntity → OpKey → positive → BaseRouter → BaseRouter * outcome (bytes * bytes)
}.
Record ConfirmJoin := MkConfirm {
  cj_Entity : PttID; cj_JoinEntity : JoinEntity; cj_KeyInfo : OpKey; cj_Peer : positive; cj_UpdateTS : Timestamp; cj_JoinType : Z
}.

(** A node: its connections, entities, keys and requests; [j_out] is what was
    sent, [j_approved] what my entity was told is approved, by the hash of the
    request. *)
Record JNode := MkJNode {
  j_r : BaseRouter;
  j_me : PttID * bytes;
  j_entities : gmap PttID JEntity;
  joins : gmap bytes PttID;
  confirmJoins : gmap bytes ConfirmJoin;
  joinFriendRequests : gmap bytes JoinRequest; joinMeRequests : gmap bytes JoinRequest;
  j_out : list (positive * RouterData);
  j_approved : list (bytes * bytes * positive)
}.
Implicit Types (n : JNode) (p : positive).
Definition set_j_r r n := MkJNode r (j_me n) (j_entities n) (joins n) (confirmJoins n) (joinFriendRequests n) (joinMeRequests n) (j_out n) (j_approved n).
Definition set_j_entities m n := MkJNode (j_r n) (j_me n) m (joins n) (confirmJoins n) (joinFriendRequests n) (joinMeRequests n) (j_out n) (j_approved n).
Definition set_joins m n := MkJNode (j_r n) (j_me n) (j_entities n) m (confirmJoins n) (joinFriendRequests n) (joinMeRequests n) (j_out n) (j_approved n).
Definition set_confirms m n := MkJNode (j_r n) (j_me n) (j_entities n) (joins n) m (joinFriendRequests n) (joinMeRequests n) (j_out n) (j_approved n).
Definition set_requests f m n := MkJNode (j_r n) (j_me n) (j_entities n) (joins n) (confirmJoins n) f m (j_out n) (j_approved n).
Definition j_send p d n := MkJNode (j_r n) (j_me n) (j_entities n) (joins n) (confirmJoins n) (joinFriendRequests n) (joinMeRequests n)
  (j_out n ++ [(p, d)]) (j_approved n).
Definition j_approve hash data p n := MkJNode (j_r n) (j_me n) (j_entities n) (joins n) (confirmJoins n) (joinFriendRequests n) (joinMeRequests n)
  (j_out n) (j_approved n ++ [(hash, data, p)]).
Definition set_status (s : JoinStatus) (r : JoinRequest) := MkRequest (jr_CreatorID r) (jr_CreateTS r) (jr_NodeID r) (jr_Hash r) (jr_Key r)
  (jr_Name r) s (jr_Master0Hash r) (jr_Challenge r) (jr_ID r).
Abbreviation JN := (stm JNode).

(** ** Join keys *)

Definition AddJoinKey (hash : bytes) (entityID : PttID) n : JNode := set_joins (<[hash := entityID]> (joins n)) n.
Definition RemoveJoinKey (hash : bytes) n : JNode := set_joins (delete hash (joins n)) n.
Definition set_keys (l : list OpKey) (e : JEntity) := MkJEntity (jt_Name e) (jt_Status e) (jt_MasterLog0Hash e) l (jt_GetJoinType e)
  (jt_IsSuspiciousID e) (jt_IsGoodID e) (jt_ApproveJoin e).

Definition GetJoinKeyFromHash (hash : bytes) (e : JEntity) : outcome OpKey :=
  match list_find (λ k, hash = ok_Hash k) (joinKeyInfos e) with Some (_, k) => Ok k | None => Err SvcErrInvalidKeyInfo end.
Definition GetJoinKey (e : JEntity) : outcome OpKey := match last (joinKeyInfos e) with Some k => Ok k | None => Err SvcErrInvalidKeyInfo end.
(** [alive] is whether neither the entity nor mine is deleted, [master] whether I
    am a master of it, [key] is what [NewJoinKeyInfo] makes. *)
Definition createJoinKey (entityID : PttID) (alive master : bool) (key : outcome OpKey) : JN unit := λ n,
  match j_entities n !! entityID with
  | None => (n, Ok tt)
  | Some e =>
    if negb alive then (n, Ok tt) else if negb master then (n, Ok tt) else
    match key with
    | Ok k =>
      let '(n, keys) := match joinKeyInfos e with
                        | k0 :: keys => if decide (2 < length (joinKeyInfos e)) then (RemoveJoinKey (ok_Hash k0) n, keys) else (n, k0 :: keys)
                        | [] => (n, [])
                        end in
      let n := set_j_entities (<[entityID := set_keys (keys ++ [k]) e]> (j_entities n)) n in
      (AddJoinKey (ok_Hash k) entityID n, Ok tt)
    | Err e => (n, Err e)
    | Panic => (n, Panic)
    end
  end.
Definition IsJoinKeyHash (hash : bytes) (e : JEntity) : bool := existsb (λ k, bool_decide (ok_Hash k = hash)) (joinKeyInfos e).
Definition CleanJoinKey (entityID : PttID) n : JNode :=
  match j_entities n !! entityID with None => n | Some e => foldl (λ n k, RemoveJoinKey (ok_Hash k) n) n (joinKeyInfos e) end.

Section Join.
Context `{Aes, Crypto, EventJson, JoinJson}.

(** Encrypting with a join key and sending to a connection, which takes what is
    sent. *)
Definition join_data (code op : Z) (payload hash keyBytes : bytes) (iv salt : outcome bytes) (id : NodeID) : outcome RouterData :=
  encData ← EncryptData op payload keyBytes iv;
  pttData ← MarshalData code hash encData salt;
  Ok (set_node id pttData).
Definition join_send (code op : Z) (payload hash keyBytes : bytes) (iv salt : outcome bytes) p : JN unit := λ n,
  match join_data code op payload hash keyBytes iv salt (p_ID (peer_at (j_r n) p)) with
  | Ok d => (j_send p d n, Ok tt)
  | Err e => (n, Err e)
  | Panic => (n, Panic)
  end.

(** ** The one who joins *)

Definition GetJoinRequest (hash : bytes) n : outcome JoinRequest :=
  match joinFriendRequests n !! hash with
  | Some r => Ok r
  | None => match joinMeRequests n !! hash with Some r => Ok r | None => Err SvcErrInvalidMsg end
  end.
(** The request is an object that one of the maps refers to. *)
Definition set_request (r : JoinRequest) n : JNode :=
  let h := jr_Hash r in
  match joinFriendRequests n !! h with
  | Some _ => set_requests (<[h := r]> (joinFriendRequests n)) (joinMeRequests n) n
  | None => match joinMeRequests n !! h with
            | Some _ => set_requests (joinFriendRequests n) (<[h := r]> (joinMeRequests n)) n
            | None => n
            end
  end.

Definition join (challenge hash keyBytes : bytes) (iv salt : outcome bytes) p : JN unit :=
  join_send CodeTypeJoin JoinMsg (join_Marshal (MkJoin hash challenge)) hash keyBytes iv salt p.
(** A request is a pointer: what becomes of it is returned. *)
Definition TryJoin (request : JoinRequest) (iv salt : outcome bytes) n : JNode * JoinRequest * outcome unit :=
  let id := jr_NodeID request in
  if bool_decide (is_Some (r_myPeers (j_r n) !! id)) then (n, request, Err SvcErrAlreadyMyNode) else
  let peer := foldr (λ t rest, match r_of t (j_r n) !! id with Some p => Some p | None => rest end) None
    [PeerTypeHub; PeerTypeImportant; PeerTypeMember; PeerTypePending; PeerTypeRandom] in
  match peer with
  | Some p =>
    match join (jr_Challenge request) (jr_Hash request) (jr_Key request) iv salt p n with
    | (n, Ok _) => (n, set_status JoinStatusRequested request, Ok tt)
    | (n, r) => (n, request, r)
    end
  | None => (set_j_r (Router.set_out (r_removed (j_r n)) (r_added (j_r n) ++ [id]) (r_sent (j_r n)) (j_r n)) n, request, Ok tt)
  end.
(** [processJoinFriendEvent] and [processJoinMeEvent]. *)
Definition processJoinEvent (request : JoinRequest) (iv salt : outcome bytes) n : JNode * JoinRequest * outcome unit :=
  if decide (jr_Status request ≠ JoinStatusPending) then (n, request, Err SvcErrInvalidStatus) else TryJoin request iv salt n.

(** [JoinFriend] and [JoinMe], with the event they post.  [nodes] is the number of
    my nodes, [good] whether the key that was given is mine. *)
Definition put_friend (r : JoinRequest) n : JNode := set_requests (<[jr_Hash r := r]> (joinFriendRequests n)) (joinMeRequests n) n.
Definition put_me (r : JoinRequest) n : JNode := set_requests (joinFriendRequests n) (<[jr_Hash r := r]> (joinMeRequests n)) n.
Definition process_put (put : JoinRequest → JNode → JNode) (r : JoinRequest) (iv salt : outcome bytes) n : JNode :=
  let '(n, r, _) := processJoinEvent r iv salt n in put r n.
Definition JoinFriend (alive : bool) (r : JoinRequest) (iv salt : outcome bytes) : JN unit := λ n,
  if negb alive then (n, Ok tt) else
  match joinFriendRequests n !! jr_Hash r with
  | Some _ => (n, Err ErrAlreadyExists)
  | None => (process_put put_friend r iv salt (put_friend r n), Ok tt)
  end.
Definition JoinMe (alive : bool) (nodes : nat) (good : outcome bool) (r : JoinRequest) (iv salt : outcome bytes) : JN unit := λ n,
  if negb alive then (n, Ok tt) else
  if decide (1 < nodes) then (n, Err MeErrAlreadyMyNode) else
  match good with
  | Ok good =>
    if negb good then (n, Err MeErrInvalidMe) else
    match joinMeRequests n !! jr_Hash r with
    | Some _ => (n, Err ErrAlreadyExists)
    | None => (process_put put_me r iv salt (put_me r n), Ok tt)
    end
  | Err e => (n, Err e)
  | Panic => (n, Panic)
  end.

(** [SyncJoinFriend] and [SyncJoinMe] on the requests in the order of [range];
    [rs] are the initial vectors and salts.  The requests that expired are
    returned, to be deleted after the others. *)
Fixpoint sync_requests (put : JoinRequest → JNode → JNode) (now : Timestamp) (reqs : list JoinRequest)
    (rs : list (outcome bytes * outcome bytes)) n : JNode * list bytes :=
  match reqs, rs with
  | r :: reqs, (iv, salt) :: rs =>
    if (Ts (jr_CreateTS r) <? i64 (Ts now - IntRenewJoinKeySeconds))%Z then
      let '(n, l) := sync_requests put now reqs rs n in (n, jr_Hash r :: l)
    else if decide (jr_Status r ≠ JoinStatusPending) then sync_requests put now reqs rs n
    else sync_requests put now reqs rs (process_put put r iv salt n)
  | _, _ => (n, [])
  end.
Definition SyncJoinFriend (ord : gmap bytes JoinRequest → list JoinRequest) (now : Timestamp) (rs : list (outcome bytes * outcome bytes)) n : JNode :=
  let '(n, l) := sync_requests put_friend now (ord (joinFriendRequests n)) rs n in
  set_requests (foldr delete (joinFriendRequests n) l) (joinMeRequests n) n.
Definition SyncJoinMe (ord : gmap bytes JoinRequest → list JoinRequest) (now : Timestamp) (rs : list (outcome bytes * outcome bytes)) n : JNode :=
  let '(n, l) := sync_requests put_me now (ord (joinMeRequests n)) rs n in
  set_requests (joinFriendRequests n) (foldr delete (joinMeRequests n) l) n.

(** ** The node of the entity: answering a challenge *)

Definition send_JoinAckChallenge (k : OpKey) (j : Join) (id : PttID) (e : JEntity) (iv salt : outcome bytes) p : JN unit :=
  join_send CodeTypeJoinAck JoinAckChallengeMsg (ack_Marshal (MkJoinAck (jn_Challenge j) (Some id) (jt_Name e) (jt_MasterLog0Hash e)))
    (ok_Hash k) (ok_KeyBytes k) iv salt p.
Definition HandleJoin (data hash : bytes) (id : PttID) (e : JEntity) (k : OpKey) (iv salt : outcome bytes) p : JN unit := λ n,
  match join_Unmarshal data with
  | None => (n, Err ErrDecode)
  | Some j => if negb (bool_decide (jn_Hash j = hash)) then (n, Err SvcErrInvalidData) else send_JoinAckChallenge k j id e iv salt p n
  end.

(** ** The one who joins: telling who I am

    The end of the identifier of the entity is the start of its creator's, or
    it is the creator itself. *)
Definition fits_creator (id creator : PttID) : bool :=
  bool_decide (drop AddressLength id = take AddressLength creator) || bool_decide (id = creator).
Definition send_JoinEntity (r : JoinRequest) (a : JoinAckChallenge) (iv salt : outcome bytes) p : JN unit := λ n,
  let r := MkRequest (jr_CreatorID r) (jr_CreateTS r) (jr_NodeID r) (jr_Hash r) (jr_Key r) (ja_Name a) JoinStatusWaitAccepted
    (ja_Master0Hash a) (jr_Challenge r) (ja_ID a) in
  let n := set_request r n in
  join_send CodeTypeJoin JoinEntityMsg (entity_Marshal (MkJoinEntity (Some (j_me n).1) (j_me n).2 (jr_Master0Hash r)))
    (jr_Hash r) (jr_Key r) iv salt p n.
Definition HandleJoinAckChallenge (data : bytes) (r : JoinRequest) (iv salt : outcome bytes) p : JN unit := λ n,
  if decide (jr_Status r ≠ JoinStatusRequested) then (n, Err SvcErrInvalidData) else
  match ack_Unmarshal data with
  | None => (n, Err SvcErrInvalidData)
  | Some a =>
    if negb (bool_decide (jr_Challenge r = ja_Challenge a)) then (n, Err SvcErrInvalidData) else
    match ja_ID a with
    | None => (n, Panic)
    | Some id =>
      if match j_entities n !! id with Some e => bool_decide (jt_Status e = StatusAlive) | None => false end
      then (n, Err SvcErrAlreadyRegistered) else
      if negb (fits_creator id (jr_CreatorID r)) then (n, Err SvcErrInvalidData) else
      send_JoinEntity r a iv salt p n
    end
  end.

(** ** The node of the entity: confirming *)

Definition getConfirmKey (id entityID : PttID) : bytes :=
  go_copy (replicate SizePttID x00) id ++ go_copy (replicate SizePttID x00) entityID.
Definition ToConfirmJoin (confirmKey : bytes) (c : ConfirmJoin) n : JNode * outcome unit :=
  match confirmJoins n !! confirmKey with
  | Some _ => (n, Err ErrAlreadyExists)
  | None => (set_confirms (<[confirmKey := c]> (confirmJoins n)) n, Ok tt)
  end.
Definition do_ApproveJoin (confirmKey : bytes) (iv salt : outcome bytes) : JN unit := λ n,
  match confirmJoins n !! confirmKey with
  | None => (n, Err SvcErrInvalidKey)
  | Some c =>
    match j_entities n !! cj_Entity c with
    | None => (n, Panic)
    | Some e =>
      let '(r, res) := jt_ApproveJoin e (cj_JoinEntity c) (cj_KeyInfo c) (cj_Peer c) (j_r n) in
      let n := set_j_r r n in
      match res with
      | Ok (opKeyBytes, data) =>
        (_ ← join_send CodeTypeJoinAck ApproveJoinMsg (approve_Marshal (MkApprove (cj_Entity c) (jt_Name e) opKeyBytes data))
              (ok_Hash (cj_KeyInfo c)) (ok_KeyBytes (cj_KeyInfo c)) iv salt (cj_Peer c);
         st_mod (λ n, set_confirms (delete confirmKey (confirmJoins n)) n)) n
      | Err e => (n, Err e)
      | Panic => (n, Panic)
      end
    end
  end.
Definition HandleJoinEntity (data hash : bytes) (entityID : PttID) (e : JEntity) (k : OpKey) (ts : outcome Timestamp) (iv salt : outcome bytes) p : JN unit := λ n,
  match entity_Unmarshal data with
  | None => (n, Err ErrDecode)
  | Some je =>
    if negb (bool_decide (je_Master0Hash je = jt_MasterLog0Hash e)) then (n, Err SvcErrInvalidData) else
    let nodeID := p_ID (peer_at (j_r n) p) in
    if jt_IsSuspiciousID e (je_ID je) nodeID then (n, Err SvcErrInvalidData) else
    match je_ID je with
    | None => (n, Panic)
    | Some id =>
      let confirmKey := getConfirmKey id entityID in
      match jt_GetJoinType e hash, ts with
      | Ok t, Ok ts =>
        match ToConfirmJoin confirmKey (MkConfirm entityID je k p ts t) n with
        | (n, Ok _) => if jt_IsGoodID e (Some id) nodeID then do_ApproveJoin confirmKey iv salt n else (n, Ok tt)
        | r => r
        end
      | Err err, _ | Ok _, Err err => (n, Err err)
      | _, _ => (n, Panic)
      end
    end
  end.

Definition HandleApproveJoin (data hash : bytes) (r : JoinRequest) p n : JNode * outcome unit :=
  if decide (jr_Status r ≠ JoinStatusWaitAccepted) then (n, Err SvcErrInvalidData) else (j_approve hash data p n, Ok tt).

(** ** Dispatch *)

Definition handle_join (hash encData : bytes) (ts : outcome Timestamp) (iv salt : outcome bytes) p : JN unit := λ n,
  match joins n !! hash with
  | None => (n, Err SvcErrInvalidData)
  | Some id =>
    match j_entities n !! id with
    | None => (n, Err SvcErrInvalidData)
    | Some e =>
      match k ← GetJoinKeyFromHash hash e; '(op, data) ← DecryptData encData (ok_KeyBytes k); Ok (k, op, data) with
      | Ok (k, op, data) =>
        if (op =? JoinMsg)%Z then HandleJoin data hash id e k iv salt p n
        else if (op =? JoinEntityMsg)%Z then HandleJoinEntity data hash id e k ts iv salt p n
        else (n, Err SvcErrInvalidMsgCode)
      | Err e => (n, Err e)
      | Panic => (n, Panic)
      end
    end
  end.
Definition handle_joinAck (hash encData : bytes) (iv salt : outcome bytes) p : JN unit := λ n,
  match r ← GetJoinRequest hash n; '(op, data) ← DecryptData encData (jr_Key r); Ok (r, op, data) with
  | Ok (r, op, data) =>
    if (op =? JoinAckChallengeMsg)%Z then HandleJoinAckChallenge data r iv salt p n
    else if (op =? ApproveJoinMsg)%Z then HandleApproveJoin data hash r p n
    else (n, Err SvcErrInvalidMsgCode)
  | Err e => (n, Err e)
  | Panic => (n, Panic)
  end.
(** A message that comes in, for the two codes of joining; the errors of the
    handlers are logged. *)
Definition receive (myNodeID : NodeID) (code : Z) (d : RouterData) (ts : outcome Timestamp) (iv salt : outcome bytes) p : JN unit := λ n,
  match HandleMessage myNodeID code d with
  | Ok (h, hash, encData) =>
    let r := match h with
             | Some HandleCodeJoin => Some (handle_join hash encData ts iv salt p n)
             | Some HandleCodeJoinAck => Some (handle_joinAck hash encData iv salt p n)
             | _ => None
             end in
    match r with Some (n, Panic) => (n, Panic) | Some (n, _) => (n, Ok tt) | None => (n, Ok tt) end
  | Err e => (n, Err e)
  | Panic => (n, Panic)
  end.

(** ** Messages with a join key *)

(** [d] is a message for [id], under the key [kb] of the hash [h]. *)
Definition sealed (id : NodeID) (code op : Z) (payload h kb : bytes) (d : RouterData) : Prop :=
  ∃ enc, HandleMessage id code d = Ok (handler_of code, h, enc) ∧ DecryptData enc kb = Ok (op, payload).

Lemma join_codes : in_u64 CodeTypeJoin ∧ in_u64 CodeTypeJoinAck ∧
  in_u32 JoinMsg ∧ in_u32 JoinAckChallengeMsg ∧ in_u32 JoinEntityMsg ∧ in_u32 ApproveJoinMsg.
Proof. unfold in_u64, in_u32, CodeTypeJoin, CodeTypeJoinAck, JoinMsg, JoinAckChallengeMsg, JoinEntityMsg, ApproveJoinMsg. lia. Qed.

Section key.
Variables h kb : bytes.
Hypothesis Hkey : aes_key_ok kb = true.
Hypothesis Hhash : length h = AddressLength.

Lemma join_send_ok code op payload iv salt p n :
  length iv = BlockSize → length salt = SizeSalt → in_u64 code → in_u32 op →
  ∃ d, join_send code op payload h kb (Ok iv) (Ok salt) p n = (j_send p d n, Ok tt) ∧
    sealed (p_ID (peer_at (j_r n) p)) code op payload h kb d.
Proof using Hkey Hhash.
  intros Hiv Hs Hc Hop. destruct (EncryptData_ok op payload kb iv Hkey Hiv) as (enc & E1 & Hdec).
  destruct (MarshalData_ok code h enc salt Hs Hhash Hc) as (d & E2 & _ & Eh & Hun).
  exists (set_node (p_ID (peer_at (j_r n) p)) d). split.
  - unfold join_send, join_data. cbn [mbind outcome_bind]. rewrite E1. cbn [mbind outcome_bind]. by rewrite E2.
  - exists enc. split; [by apply HandleMessage_ok|by apply Hdec].
Qed.

(** The entity with the key. *)
Definition invites (id : PttID) (e : JEntity) n : Prop :=
  joins n !! h = Some id ∧ j_entities n !! id = Some e ∧ GetJoinKeyFromHash h e = Ok (MkOpKey h kb).

Lemma receive_join id d ts iv salt p n eid e op payload :
  sealed id CodeTypeJoin op payload h kb d → invites eid e n →
  receive id CodeTypeJoin d ts iv salt p n =
    let r := if (op =? JoinMsg)%Z then HandleJoin payload h eid e (MkOpKey h kb) iv salt p n
             else if (op =? JoinEntityMsg)%Z then HandleJoinEntity payload h eid e (MkOpKey h kb) ts iv salt p n
             else (n, Err SvcErrInvalidMsgCode) in
    (r.1, match r.2 with Panic => Panic | _ => Ok tt end).
Proof.
  intros (enc & E & Ed) (I1 & I2 & I3). unfold receive. rewrite E. change (handler_of CodeTypeJoin) with (Some HandleCodeJoin). cbn zeta.
  unfold handle_join. rewrite I1, I2, I3. cbn [mbind outcome_bind ok_KeyBytes]. rewrite Ed. cbn [mbind outcome_bind].
  destruct (if (op =? JoinMsg)%Z then _ else _) as [n' [[]| |]]; done.
Qed.

Lemma receive_ack id d ts iv salt p n r op payload :
  sealed id CodeTypeJoinAck op payload h kb d → GetJoinRequest h n = Ok r → jr_Key r = kb →
  receive id CodeTypeJoinAck d ts iv salt p n =
    let r := if (op =? JoinAckChallengeMsg)%Z then HandleJoinAckChallenge payload r iv salt p n
             else if (op =? ApproveJoinMsg)%Z then HandleApproveJoin payload h r p n
             else (n, Err SvcErrInvalidMsgCode) in
    (r.1, match r.2 with Panic => Panic | _ => Ok tt end).
Proof.
  intros (enc & E & Ed) I1 I2. unfold receive. rewrite E. change (handler_of CodeTypeJoinAck) with (Some HandleCodeJoinAck). cbn zeta.
  unfold handle_joinAck. rewrite I1. cbn [mbind outcome_bind]. rewrite I2, Ed. cbn [mbind outcome_bind].
  destruct (if (op =? JoinAckChallengeMsg)%Z then _ else _) as [n' [[]| |]]; done.
Qed.

(** ** The steps of an exchange *)

Lemma step_join r iv salt n p :
  jr_Hash r = h → jr_Key r = kb → jr_Status r = JoinStatusPending → joinFriendRequests n !! h = None →
  r_myPeers (j_r n) !! jr_NodeID r = None →
  foldr (λ t rest, match r_of t (j_r n) !! jr_NodeID r with Some p => Some p | None => rest end) None
    [PeerTypeHub; PeerTypeImportant; PeerTypeMember; PeerTypePending; PeerTypeRandom] = Some p →
  length iv = BlockSize → length salt = SizeSalt →
  ∃ d, (JoinFriend true r (Ok iv) (Ok salt) n).1 = put_friend (set_status JoinStatusRequested r) (j_send p d (put_friend r n)) ∧
    sealed (p_ID (peer_at (j_r n) p)) CodeTypeJoin JoinMsg (join_Marshal (MkJoin h (jr_Challenge r))) h kb d.
Proof using Hkey Hhash.
  intros Eh Ek Es Hn Hme Hp Hiv Hs. destruct join_codes as (C1 & _ & C3 & _).
  unfold JoinFriend. cbn [negb]. rewrite Eh, Hn. unfold process_put, processJoinEvent. rewrite decide_False by (intros Hne; by apply Hne).
  unfold TryJoin. cbn zeta. rewrite bool_decide_false by (change (j_r (put_friend r n)) with (j_r n); rewrite Hme; apply is_Some_None).
  change (j_r (put_friend r n)) with (j_r n). rewrite Hp. unfold join. rewrite Eh, Ek.
  destruct (join_send_ok CodeTypeJoin JoinMsg (join_Marshal (MkJoin h (jr_Challenge r))) iv salt p (put_friend r n)) as (d & E & Hd); try done.
  rewrite E. by exists d.
Qed.

Lemma step_challenge id d ts iv salt p n eid e c :
  sealed id CodeTypeJoin JoinMsg (join_Marshal (MkJoin h c)) h kb d → invites eid e n →
  length iv = BlockSize → length salt = SizeSalt →
  ∃ d', receive id CodeTypeJoin d ts (Ok iv) (Ok salt) p n = (j_send p d' n, Ok tt) ∧
    sealed (p_ID (peer_at (j_r n) p)) CodeTypeJoinAck JoinAckChallengeMsg
      (ack_Marshal (MkJoinAck c (Some eid) (jt_Name e) (jt_MasterLog0Hash e))) h kb d'.
Proof using Hkey Hhash.
  intros Hd Hi Hiv Hs. destruct join_codes as (_ & C2 & _ & C4 & _). rewrite (receive_join _ _ _ _ _ _ _ _ _ _ _ Hd Hi). cbn zeta.
  change (JoinMsg =? JoinMsg)%Z with true. cbn iota. unfold HandleJoin. rewrite join_json. cbn [jn_Hash]. rewrite bool_decide_true by done. cbn [negb].
  unfold send_JoinAckChallenge. cbn [ok_Hash ok_KeyBytes jn_Challenge].
  destruct (join_send_ok CodeTypeJoinAck JoinAckChallengeMsg (ack_Marshal (MkJoinAck c (Some eid) (jt_Name e) (jt_MasterLog0Hash e))) iv salt p n)
    as (d' & E & Hd'); try done. rewrite E. by exists d'.
Qed.

(** The request once the challenge was answered. *)
Definition accepted (r : JoinRequest) (eid : PttID) (e : JEntity) : JoinRequest :=
  MkRequest (jr_CreatorID r) (jr_CreateTS r) (jr_NodeID r) (jr_Hash r) (jr_Key r) (jt_Name e) JoinStatusWaitAccepted
    (jt_MasterLog0Hash e) (jr_Challenge r) (Some eid).

Lemma step_entity id d ts iv salt p n r eid e :
  sealed id CodeTypeJoinAck JoinAckChallengeMsg (ack_Marshal (MkJoinAck (jr_Challenge r) (Some eid) (jt_Name e) (jt_MasterLog0Hash e))) h kb d →
  joinFriendRequests n !! h = Some r → jr_Hash r = h → jr_Key r = kb → jr_Status r = JoinStatusRequested →
  length eid = SizePttID → fits_creator eid (jr_CreatorID r) = true →
  (∀ e', j_entities n !! eid = Some e' → jt_Status e' ≠ StatusAlive) →
  length iv = BlockSize → length salt = SizeSalt →
  ∃ d', receive id CodeTypeJoinAck d ts (Ok iv) (Ok salt) p n = (j_send p d' (put_friend (accepted r eid e) n), Ok tt) ∧
    sealed (p_ID (peer_at (j_r n) p)) CodeTypeJoin JoinEntityMsg
      (entity_Marshal (MkJoinEntity (Some (j_me n).1) (j_me n).2 (jt_MasterLog0Hash e))) h kb d'.
Proof using Hkey Hhash.
  intros Hd Hr Eh Ek Es Hl Hf Ha Hiv Hs. destruct join_codes as (C1 & _ & _ & _ & C5 & _).
  assert (GetJoinRequest h n = Ok r) as Hg by (unfold GetJoinRequest; by rewrite Hr).
  rewrite (receive_ack _ _ _ _ _ _ _ _ _ _ Hd Hg Ek). cbn zeta. change (JoinAckChallengeMsg =? JoinAckChallengeMsg)%Z with true. cbn iota.
  unfold HandleJoinAckChallenge. rewrite decide_False by (intros Hne; by apply Hne). rewrite (ack_json _ eid) by done. cbn [ja_Challenge ja_ID].
  rewrite bool_decide_true by done. cbn [negb].
  assert (match j_entities n !! eid with Some e => bool_decide (jt_Status e = StatusAlive) | None => false end = false) as ->.
  { destruct (j_entities n !! eid) as [e'|] eqn:Ee; [|done]. apply bool_decide_false. by apply Ha. }
  rewrite Hf. cbn [negb]. unfold send_JoinEntity. cbn [ja_Name ja_Master0Hash ja_ID jr_Hash jr_Key jr_Master0Hash].
  change (MkRequest _ _ _ _ _ _ _ _ _ _) with (accepted r eid e).
  assert (set_request (accepted r eid e) n = put_friend (accepted r eid e) n) as ->.
  { unfold set_request. cbn [accepted jr_Hash]. rewrite Eh, Hr. unfold put_friend. cbn [accepted jr_Hash]. by rewrite Eh. }
  rewrite Eh, Ek.
  destruct (join_send_ok CodeTypeJoin JoinEntityMsg (entity_Marshal (MkJoinEntity (Some (j_me n).1) (j_me n).2 (jt_MasterLog0Hash e))) iv salt p
    (put_friend (accepted r eid e) n)) as (d' & E & Hd'); try done.
  change (j_me (put_friend (accepted r eid e) n)) with (j_me n). rewrite E. by exists d'.
Qed.

Definition confirm_of (me : PttID) (name : bytes) (eid : PttID) (e : JEntity) p (ts : Timestamp) (t : Z) : ConfirmJoin :=
  MkConfirm eid (MkJoinEntity (Some me) name (jt_MasterLog0Hash e)) (MkOpKey h kb) p ts t.

Lemma step_confirm id d ts iv salt p n me name eid e t :
  sealed id CodeTypeJoin JoinEntityMsg (entity_Marshal (MkJoinEntity (Some me) name (jt_MasterLog0Hash e))) h kb d → invites eid e n →
  length me = SizePttID → jt_IsSuspiciousID e (Some me) (p_ID (peer_at (j_r n) p)) = false → jt_GetJoinType e h = Ok t →
  confirmJoins n !! getConfirmKey me eid = None →
  (receive id CodeTypeJoin d (Ok ts) iv salt p n).1 =
    let n' := set_confirms (<[getConfirmKey me eid := confirm_of me name eid e p ts t]> (confirmJoins n)) n in
    if jt_IsGoodID e (Some me) (p_ID (peer_at (j_r n) p)) then (do_ApproveJoin (getConfirmKey me eid) iv salt n').1 else n'.
Proof.
  intros Hd Hi Hl Hsus Ht Hc. rewrite (receive_join _ _ _ _ _ _ _ _ _ _ _ Hd Hi). cbn zeta. cbn [fst].
  change (JoinEntityMsg =? JoinMsg)%Z with false. change (JoinEntityMsg =? JoinEntityMsg)%Z with true. cbn iota.
  unfold HandleJoinEntity. rewrite (entity_json _ me) by done. cbn [je_Master0Hash je_ID]. rewrite bool_decide_true by done. cbn [negb].
  rewrite Hsus, Ht. unfold ToConfirmJoin. rewrite Hc. by destruct (jt_IsGoodID e (Some me) _).
Qed.

Lemma step_approve me name eid e p ts t n iv salt r okb dat :
  confirmJoins n !! getConfirmKey me eid = Some (confirm_of me name eid e p ts t) → j_entities n !! eid = Some e →
  jt_ApproveJoin e (MkJoinEntity (Some me) name (jt_MasterLog0Hash e)) (MkOpKey h kb) p (j_r n) = (r, Ok (okb, dat)) →
  p_ID (peer_at r p) = p_ID (peer_at (j_r n) p) → length iv = BlockSize → length salt = SizeSalt →
  ∃ d, do_ApproveJoin (getConfirmKey me eid) (Ok iv) (Ok salt) n =
      (set_confirms (delete (getConfirmKey me eid) (confirmJoins n)) (j_send p d (set_j_r r n)), Ok tt) ∧
    sealed (p_ID (peer_at (j_r n) p)) CodeTypeJoinAck ApproveJoinMsg (approve_Marshal (MkApprove eid (jt_Name e) okb dat)) h kb d.
Proof using Hkey Hhash.
  intros Hc He Ha Hp Hiv Hs. destruct join_codes as (_ & C2 & _ & _ & _ & C6).
  unfold do_ApproveJoin. rewrite Hc. cbn [confirm_of cj_Entity cj_JoinEntity cj_KeyInfo cj_Peer]. rewrite He, Ha. cbn zeta. cbn [ok_Hash ok_KeyBytes].
  destruct (join_send_ok CodeTypeJoinAck ApproveJoinMsg (approve_Marshal (MkApprove eid (jt_Name e) okb dat)) iv salt p (set_j_r r n))
    as (d & E & Hd); try done. rewrite (stm_bind_ok _ _ _ _ _ E). exists d. split; [done|]. cbn in Hd. by rewrite Hp in Hd.
Qed.

Lemma step_approved id d ts iv salt p n r data :
  sealed id CodeTypeJoinAck ApproveJoinMsg data h kb d → joinFriendRequests n !! h = Some r → jr_Key r = kb →
  jr_Status r = JoinStatusWaitAccepted →
  receive id CodeTypeJoinAck d ts iv salt p n = (j_approve h data p n, Ok tt).
Proof.
  intros Hd Hr Ek Es. assert (GetJoinRequest h n = Ok r) as Hg by (unfold GetJoinRequest; by rewrite Hr).
  rewrite (receive_ack _ _ _ _ _ _ _ _ _ _ Hd Hg Ek). cbn zeta. change (ApproveJoinMsg =? JoinAckChallengeMsg)%Z with false.
  change (ApproveJoinMsg =? ApproveJoinMsg)%Z with true. cbn iota. unfold HandleApproveJoin. by rewrite decide_False by (intros Hne; by apply Hne).
Qed.

End key.

(** C8: Who has a join key of an entity, and is connected with a node of the
    entity that knows the key, joins: the node answers the challenge, is told who
    asks, and approves at once or when the request is confirmed; the request is
    then waiting for what it was told, and my entity is handed what the entity
    approved with, from that connection; nothing is left to confirm. *)
Theorem join_exchange r nA nB pA pB eid e ts t rB okb dat iv1 s1 iv2 s2 iv3 s3 iv4 s4 iv5 s5 iv6 s6 :
  let h := jr_Hash r in let idA := p_ID (peer_at (j_r nB) pA) in let idB := p_ID (peer_at (j_r nA) pB) in let me := (j_me nA).1 in
  aes_key_ok (jr_Key r) = true → length h = AddressLength →
  Forall (λ iv, length iv = BlockSize) [iv1; iv2; iv3; iv4; iv5] → Forall (λ s, length s = SizeSalt) [s1; s2; s3; s4; s5] →
  jr_Status r = JoinStatusPending → joinFriendRequests nA !! h = None → r_myPeers (j_r nA) !! jr_NodeID r = None →
  foldr (λ t rest, match r_of t (j_r nA) !! jr_NodeID r with Some p => Some p | None => rest end) None
    [PeerTypeHub; PeerTypeImportant; PeerTypeMember; PeerTypePending; PeerTypeRandom] = Some pB →
  invites h (jr_Key r) eid e nB → length eid = SizePttID → length me = SizePttID → fits_creator eid (jr_CreatorID r) = true →
  (∀ e', j_entities nA !! eid = Some e' → jt_Status e' ≠ StatusAlive) →
  jt_IsSuspiciousID e (Some me) idA = false → jt_GetJoinType e h = Ok t → confirmJoins nB !! getConfirmKey me eid = None →
  jt_ApproveJoin e (MkJoinEntity (Some me) (j_me nA).2 (jt_MasterLog0Hash e)) (MkOpKey h (jr_Key r)) pA (j_r nB) = (rB, Ok (okb, dat)) →
  p_ID (peer_at rB pA) = idA →
  ∃ d1 d2 d3 d4,
    let nA1 := (JoinFriend true r (Ok iv1) (Ok s1) nA).1 in
    let nB1 := (receive idB CodeTypeJoin d1 (Ok ts) (Ok iv2) (Ok s2) pA nB).1 in
    let nA2 := (receive idA CodeTypeJoinAck d2 (Ok ts) (Ok iv3) (Ok s3) pB nA1).1 in
    let nB2 := (receive idB CodeTypeJoin d3 (Ok ts) (Ok iv4) (Ok s4) pA nB1).1 in
    let nB3 := if jt_IsGoodID e (Some me) idA then nB2 else (do_ApproveJoin (getConfirmKey me eid) (Ok iv5) (Ok s5) nB2).1 in
    let nA3 := (receive idA CodeTypeJoinAck d4 (Ok ts) iv6 s6 pB nA2).1 in
    j_out nA1 = j_out nA ++ [(pB, d1)] ∧ j_out nB1 = j_out nB ++ [(pA, d2)] ∧ j_out nA2 = j_out nA1 ++ [(pB, d3)] ∧
    j_out nB3 = j_out nB1 ++ [(pA, d4)] ∧ confirmJoins nB3 = confirmJoins nB ∧
    joinFriendRequests nA3 !! h = Some (accepted r eid e) ∧
    j_approved nA3 = j_approved nA ++ [(h, approve_Marshal (MkApprove eid (jt_Name e) okb dat), pB)].
Proof.
  intros h idA idB me Hkey Hh Hivs Hss Hst Hnone Hmy Hp Hinv Hle Hlm Hfit Hal Hsus Ht Hconf Happ Hid.
  repeat (apply Forall_cons in Hivs as [? Hivs]). repeat (apply Forall_cons in Hss as [? Hss]).
  destruct (step_join h (jr_Key r) Hkey Hh r iv1 s1 nA pB) as (d1 & E1 & Hd1); try done.
  destruct (step_challenge h (jr_Key r) Hkey Hh idB d1 (Ok ts) iv2 s2 pA nB eid e (jr_Challenge r) Hd1 Hinv) as (d2 & E2 & Hd2); [done..|].
  set (r1 := set_status JoinStatusRequested r) in *. set (nA1 := put_friend r1 (j_send pB d1 (put_friend r nA))) in *.
  assert (joinFriendRequests nA1 !! h = Some r1) as Hr1 by apply lookup_insert_eq.
  destruct (step_entity h (jr_Key r) Hkey Hh idA d2 (Ok ts) iv3 s3 pB nA1 r1 eid e Hd2 Hr1) as (d3 & E3 & Hd3); [done..|].
  set (nB1 := j_send pA d2 nB) in *.
  pose proof (step_confirm h (jr_Key r) idB d3 ts (Ok iv4) (Ok s4) pA nB1 me (j_me nA).2 eid e t Hd3 Hinv Hlm Hsus Ht Hconf) as E4.
  set (c := confirm_of h (jr_Key r) me (j_me nA).2 eid e pA ts t) in *.
  set (nc := set_confirms (<[getConfirmKey me eid := c]> (confirmJoins nB1)) nB1) in *.
  assert (∀ iv s, length iv = BlockSize → length s = SizeSalt → ∃ d, do_ApproveJoin (getConfirmKey me eid) (Ok iv) (Ok s) nc =
      (set_confirms (delete (getConfirmKey me eid) (confirmJoins nc)) (j_send pA d (set_j_r rB nc)), Ok tt) ∧
    sealed idA CodeTypeJoinAck ApproveJoinMsg (approve_Marshal (MkApprove eid (jt_Name e) okb dat)) h (jr_Key r) d) as Happr.
  { intros iv s Hiv Hs. apply (step_approve h (jr_Key r) Hkey Hh me (j_me nA).2 eid e pA ts t nc); try done.
    - apply lookup_insert_eq.
    - by destruct Hinv as (_ & He & _). }
  assert (∃ d4, let n3 := if jt_IsGoodID e (Some me) idA then (receive idB CodeTypeJoin d3 (Ok ts) (Ok iv4) (Ok s4) pA nB1).1
      else (do_ApproveJoin (getConfirmKey me eid) (Ok iv5) (Ok s5) (receive idB CodeTypeJoin d3 (Ok ts) (Ok iv4) (Ok s4) pA nB1).1).1 in
    j_out n3 = j_out nB1 ++ [(pA, d4)] ∧ confirmJoins n3 = delete (getConfirmKey me eid) (confirmJoins nc) ∧
    sealed idA CodeTypeJoinAck ApproveJoinMsg (approve_Marshal (MkApprove eid (jt_Name e) okb dat)) h (jr_Key r) d4) as (d4 & Eo & Ec & Hd4).
  { rewrite E4. cbn zeta. change (p_ID (peer_at (j_r nB1) pA)) with idA.
    destruct (jt_IsGoodID e (Some me) idA); [destruct (Happr iv4 s4) as (d4 & -> & Hd4)|destruct (Happr iv5 s5) as (d4 & -> & Hd4)]; try done; by exists d4. }
  exists d1, d2, d3, d4. cbn zeta. rewrite E1, E2. cbn [fst]. fold nB1. rewrite E3. cbn [fst].
  set (nA2 := j_send pB d3 (put_friend (accepted r1 eid e) nA1)) in *.
  assert (joinFriendRequests nA2 !! h = Some (accepted r1 eid e)) as Hr2 by apply lookup_insert_eq.
  rewrite (step_approved h (jr_Key r) idA d4 (Ok ts) iv6 s6 pB nA2 _ _ Hd4 Hr2) by done. cbn [fst].
  split; [done|]. split; [done|]. split; [done|]. split; [exact Eo|]. split; [|split; [exact Hr2|done]].
  rewrite Ec. unfold nc. cbn. by apply delete_insert_id.
Qed.

(** C31: An answer changes a request only when it waits for one: then the answer
    is encrypted with the key of the request, carries its challenge, and names
    an entity of the creator that I am not in; the request waits to be accepted
    by it.  My entity is handed an approval only for a request that waits to be
    accepted, encrypted with its key. *)
Theorem request_progress h encData iv salt p n n' res r r' :
  handle_joinAck h encData iv salt p n = (n', res) →
  GetJoinRequest h n = Ok r → jr_Hash r = h → GetJoinRequest h n' = Ok r' →
  (r' = r ∨
   jr_Status r = JoinStatusRequested ∧ jr_Status r' = JoinStatusWaitAccepted ∧
   ∃ data a id, DecryptData encData (jr_Key r) = Ok (JoinAckChallengeMsg, data) ∧ ack_Unmarshal data = Some a ∧
     ja_Challenge a = jr_Challenge r ∧ ja_ID a = Some id ∧ jr_ID r' = Some id ∧ fits_creator id (jr_CreatorID r) = true ∧
     jr_Key r' = jr_Key r ∧ ∀ e, j_entities n !! id = Some e → jt_Status e ≠ StatusAlive) ∧
  (j_approved n' = j_approved n ∨
   jr_Status r = JoinStatusWaitAccepted ∧ ∃ data, DecryptData encData (jr_Key r) = Ok (ApproveJoinMsg, data) ∧
     j_approved n' = j_approved n ++ [(h, data, p)]).
Proof.
  intros E Hr Eh Hr'. unfold handle_joinAck in E. rewrite Hr in E. cbn [mbind outcome_bind] in E.
  assert (∀ P Q : Prop, n' = n → (r' = r ∨ P) ∧ (j_approved n' = j_approved n ∨ Q)) as Hsame.
  { intros P Q ->. split; left; [congruence|done]. }
  destruct (DecryptData encData (jr_Key r)) as [[op data]| |] eqn:Ed; cbn [mbind outcome_bind] in E; [|injection E as <- _; by apply Hsame..].
  destruct (Z.eqb_spec op JoinAckChallengeMsg) as [->|_].
  - unfold HandleJoinAckChallenge in E. destruct (decide (jr_Status r ≠ JoinStatusRequested)) as [|Hs]; [injection E as <- _; by apply Hsame|].
    apply dec_stable in Hs. destruct (ack_Unmarshal data) as [a|] eqn:Ea; [|injection E as <- _; by apply Hsame].
    case_bool_decide as Hc; [|injection E as <- _; by apply Hsame]. cbn [negb] in E.
    destruct (ja_ID a) as [id|] eqn:Eid; [|injection E as <- _; by apply Hsame].
    destruct (match j_entities n !! id with Some e => _ | None => false end) eqn:Eal; [injection E as <- _; by apply Hsame|].
    destruct (fits_creator id (jr_CreatorID r)) eqn:Ef; [|injection E as <- _; by apply Hsame]. cbn [negb] in E.
    unfold send_JoinEntity in E. set (r1 := MkRequest _ _ _ _ _ _ _ _ _ _) in E.
    assert (∃ m, GetJoinRequest h (set_request r1 n) = Ok r1 ∧ m = set_request r1 n ∧ j_approved m = j_approved n) as (m & Hg & -> & Ha).
    { exists (set_request r1 n). unfold set_request, GetJoinRequest in *. change (jr_Hash r1) with (jr_Hash r). rewrite Eh.
      destruct (joinFriendRequests n !! h) as [x|] eqn:Ex; cbn [joinFriendRequests joinMeRequests set_requests].
      - by rewrite lookup_insert_eq.
      - destruct (joinMeRequests n !! h) as [x|] eqn:Ey; [|by simplify_option_eq].
        cbn [joinFriendRequests joinMeRequests set_requests]. by rewrite Ex, lookup_insert_eq. }
    assert (GetJoinRequest h n' = GetJoinRequest h (set_request r1 n) ∧ j_approved n' = j_approved (set_request r1 n)) as [Hg' Ha'].
    { unfold join_send in E. destruct (join_data _ _ _ _ _ _ _ _); injection E as <- _; done. }
    rewrite Hg', Hg in Hr'. injection Hr' as <-. split; [right|left; congruence].
    split; [done|]. split; [done|]. exists data, a, id. split_and!; try done.
    intros e He. rewrite He in Eal. by apply bool_decide_eq_false in Eal.
  - destruct (Z.eqb_spec op ApproveJoinMsg) as [->|_]; [|injection E as <- _; by apply Hsame].
    unfold HandleApproveJoin in E. destruct (decide (jr_Status r ≠ JoinStatusWaitAccepted)) as [|Hs]; [injection E as <- _; by apply Hsame|].
    apply dec_stable in Hs. injection E as <- _. split; [left|right; split; [done|by exists data]].
    unfold GetJoinRequest in *. cbn in Hr'. congruence.
Qed.

End Join.

(** ** The keys of an entity are the last three that were made *)

Definition last3 {A} (l : list A) : list A := drop (length l - 3) l.
Lemma tail_drop {A} m (l : list A) : tail (drop m l) = drop (S m) l.
Proof. revert l. induction m as [|m IH]; intros [|y l]; try done. apply (IH l). Qed.
Lemma last3_snoc {A} (l : list A) x :
  last3 (l ++ [x]) = (if decide (2 < length (last3 l)) then tail (last3 l) else last3 l) ++ [x].
Proof.
  unfold last3. rewrite length_app, length_drop. cbn [length]. destruct (decide _) as [Hl|Hl].
  - rewrite drop_app_le by lia. rewrite tail_drop. do 2 f_equal. lia.
  - rewrite drop_app_le by lia. do 2 f_equal. lia.
Qed.

Lemma join_keys_window id e0 keys n :
  j_entities n !! id = Some e0 → joinKeyInfos e0 = [] → (∀ h, joins n !! h ≠ Some id) →
  NoDup (ok_Hash <$> keys) →
  let n' := foldl (λ n k, (createJoinKey id true true (Ok k) n).1) n keys in
  ∃ e, j_entities n' !! id = Some e ∧ joinKeyInfos e = last3 keys ∧ ∀ h, joins n' !! h = Some id ↔ h ∈ ok_Hash <$> last3 keys.
Proof.
  intros He0 Hnil Hnone. induction keys as [|k keys IH] using rev_ind; intros Hnd.
  - exists e0. split_and!; [done|done|]. intros h. cbn. split; [by intros Hx; destruct (Hnone h)|by intros Hx%elem_of_nil].
  - rewrite fmap_app in Hnd. apply NoDup_app in Hnd as (Hnd & Hdis & _). destruct (IH Hnd) as (e & He & Hk & Hj).
    rewrite foldl_app. cbn [foldl]. set (n1 := foldl _ n keys) in *. cbn zeta.
    assert (NoDup (ok_Hash <$> last3 keys)) as Hnd3.
    { unfold last3. rewrite fmap_drop. by apply (NoDup_app (take (length keys - 3) (ok_Hash <$> keys))); rewrite take_drop. }
    assert (ok_Hash k ∉ ok_Hash <$> last3 keys) as Hnew.
    { intros Hin. unfold last3 in Hin. rewrite fmap_drop in Hin. apply (Hdis (ok_Hash k)).
      - rewrite <- (take_drop (length keys - 3)). apply elem_of_app. by right.
      - cbn. by left. }
    unfold createJoinKey. rewrite He. cbn [negb]. rewrite Hk. rewrite last3_snoc.
    destruct (last3 keys) as [|k0 l] eqn:El; cbn [length].
    + rewrite decide_False by lia. eexists. split; [apply lookup_insert_eq|]. split; [done|]. intros h. cbn -[lookup].
      rewrite lookup_insert_Some, list_elem_of_singleton, Hj. cbn. split; [intros [[<- _]|[_ Hx%elem_of_nil]]; done|intros ->; by left].
    + destruct (decide (2 < Datatypes.S (length l))) as [Hl|Hl].
      * eexists. split; [apply lookup_insert_eq|]. split; [done|]. intros h. cbn [tail joins AddJoinKey set_joins set_j_entities RemoveJoinKey fst].
        rewrite lookup_insert_Some, lookup_delete_Some, Hj, fmap_cons, elem_of_cons, fmap_app, elem_of_app. cbn [fmap list_fmap].
        rewrite list_elem_of_singleton. apply NoDup_cons in Hnd3 as [Hk0 _]. split.
        -- intros [[<- _]|(_ & Hn0 & [->|Hx])]; [by right|done|by left].
        -- intros [Hx| ->]; [|by left]. right. split_and!; [intros <-; apply Hnew; by right|by intros <-|by right].
      * eexists. split; [apply lookup_insert_eq|]. split; [done|]. intros h. cbn [joins AddJoinKey set_joins set_j_entities fst].
        rewrite lookup_insert_Some, Hj, fmap_app, elem_of_app. cbn [fmap list_fmap]. rewrite list_elem_of_singleton. split.
        -- intros [[<- _]|[_ Hx]]; [by right|by left].
        -- intros [Hx| ->]; [|by left]. right. split; [intros <-; by apply Hnew|done].
Qed.

(** ** Witnesses *)

Definition jw_json : JoinJson.
Proof.
  refine {| join_Marshal j := codec_enc (jn_Hash j, jn_Challenge j);
            join_Unmarshal b := '(h, c) ← codec_dec b; Some (MkJoin h c);
            ack_Marshal a := codec_enc (ja_Challenge a, ja_ID a, ja_Name a, ja_Master0Hash a);
            ack_Unmarshal b := '(c, i, n, m) ← codec_dec b; Some (MkJoinAck c i n m);
            entity_Marshal e := codec_enc (je_ID e, je_Name e, je_Master0Hash e);
            entity_Unmarshal b := '(i, n, m) ← codec_dec b; Some (MkJoinEntity i n m);
            approve_Marshal a := codec_enc (aj_ID a, aj_Name a, aj_OpKeyBytes a, aj_Data a) |}.
  - intros [h c]. cbn. by rewrite codec_dec_enc.
  - intros [c i n m] id _ _. cbn. by rewrite codec_dec_enc.
  - intros [i n m] id _ _. cbn. by rewrite codec_dec_enc.
Defined.
#[local] Existing Instances en_json jw_json plain_aes toy_crypto.

Definition jw_hash : bytes := replicate 20 x01.
Definition jw_key : bytes := replicate 16 x02.
Definition jw_creator : PttID := replicate 40 x03.
Definition jw_eid : PttID := replicate 20 x04 ++ replicate 20 x03.
Definition jw_idA : NodeID := replicate 64 x05.
Definition jw_idB : NodeID := replicate 64 x06.
Definition jw_request : JoinRequest :=
  MkRequest jw_creator (MkTs 1000 0) jw_idB jw_hash jw_key [] JoinStatusPending [] (replicate 16 x07) None.
Definition jw_entity : JEntity :=
  MkJEntity [x08] StatusAlive [x09] [MkOpKey jw_hash jw_key] (λ _, Ok 2%Z) (λ _ _, false) (λ _ _, true) (λ _ _ _ r, (r, Ok ([x0a], [x0b]))).
Definition jw_router (id : NodeID) : BaseRouter :=
  MkRouter {[1%positive := NewPttPeer 1 id]} ∅ ∅ ∅ ∅ ∅ {[id := 1%positive]} ∅ NewDialHistory ∅ None ∅ [] [] [].
Definition jw_A : JNode := MkJNode (jw_router jw_idB) (replicate 40 x0c, [x0d]) ∅ ∅ ∅ ∅ ∅ [] [].
Definition jw_B : JNode := MkJNode (jw_router jw_idA) (jw_creator, [x0e]) {[jw_eid := jw_entity]} {[jw_hash := jw_eid]} ∅ ∅ ∅ [] [].

Lemma join_exchange_witness : ∃ d1 d2 d3 d4,
  let iv := Ok (replicate 16 x0f) in let salt := Ok (replicate 32 x10) in let ts := Ok (MkTs 2000 0) in
  let nA1 := (JoinFriend true jw_request iv salt jw_A).1 in
  let nB1 := (receive jw_idB CodeTypeJoin d1 ts iv salt 1 jw_B).1 in
  let nA2 := (receive jw_idA CodeTypeJoinAck d2 ts iv salt 1 nA1).1 in
  let nB2 := (receive jw_idB CodeTypeJoin d3 ts iv salt 1 nB1).1 in
  let nA3 := (receive jw_idA CodeTypeJoinAck d4 ts iv salt 1 nA2).1 in
  j_out nA1 = [(1%positive, d1)] ∧ j_out nB2 = [(1%positive, d2); (1%positive, d4)] ∧
  j_approved nA3 = [(jw_hash, approve_Marshal (MkApprove jw_eid [x08] [x0a] [x0b]), 1%positive)].
Proof.
  destruct (join_exchange jw_request jw_A jw_B 1 1 jw_eid jw_entity (MkTs 2000 0) 2 (jw_router jw_idA) [x0a] [x0b]
    (replicate 16 x0f) (replicate 32 x10) (replicate 16 x0f) (replicate 32 x10) (replicate 16 x0f) (replicate 32 x10)
    (replicate 16 x0f) (replicate 32 x10) (replicate 16 x0f) (replicate 32 x10) (Ok (replicate 16 x0f)) (Ok (replicate 32 x10)))
    as (d1 & d2 & d3 & d4 & E1 & E2 & E3 & E4 & _ & _ & E5).
  1,2: vm_compute; reflexivity. 1,2: repeat constructor. 1-3: reflexivity. 1: vm_compute; reflexivity.
  - split; [apply lookup_insert_eq|]. split; [apply lookup_insert_eq|]. vm_compute. reflexivity.
  - reflexivity.
  - reflexivity.
  - vm_compute. reflexivity.
  - intros e' E. by destruct (lookup_empty_Some _ _ E).
  - reflexivity.
  - reflexivity.
  - reflexivity.
  - reflexivity.
  - vm_compute. reflexivity.
  - exists d1, d2, d3, d4. cbn zeta. split; [exact E1|]. split; [|exact E5]. rewrite E2 in E4. exact E4.
Defined.

Definition jw_asked : JNode := set_requests {[jw_hash := set_status JoinStatusRequested jw_request]} ∅ jw_A.
Definition jw_enc : bytes :=
  default [] match EncryptData JoinAckChallengeMsg (ack_Marshal (MkJoinAck (replicate 16 x07) (Some jw_eid) [x08] [x09])) jw_key (Ok (replicate 16 x0f)) with
             | Ok b => Some b | _ => None end.
Lemma request_progress_witness :
  let n := (handle_joinAck jw_hash jw_enc (Ok (replicate 16 x0f)) (Ok (replicate 32 x10)) 1 jw_asked).1 in
  ∃ r, GetJoinRequest jw_hash n = Ok r ∧ jr_Status r = JoinStatusWaitAccepted ∧ jr_ID r = Some jw_eid ∧ j_approved n = [].
Proof.
  cbn zeta. set (n := (handle_joinAck jw_hash jw_enc (Ok (replicate 16 x0f)) (Ok (replicate 32 x10)) 1 jw_asked).1).
  pose (r := accepted jw_request jw_eid jw_entity).
  assert (GetJoinRequest jw_hash n = Ok r) as Hr by (vm_compute; reflexivity).
  destruct (request_progress jw_hash jw_enc (Ok (replicate 16 x0f)) (Ok (replicate 32 x10)) 1 jw_asked n
    (handle_joinAck jw_hash jw_enc (Ok (replicate 16 x0f)) (Ok (replicate 32 x10)) 1 jw_asked).2
    (set_status JoinStatusRequested jw_request) r) as [Hp Ha].
  - apply surjective_pairing.
  - vm_compute. reflexivity.
  - reflexivity.
  - exact Hr.
  - exists r. split; [exact Hr|]. destruct Hp as [Hp|(_ & Hs & _)]; [discriminate Hp|]. split; [exact Hs|]. split; [reflexivity|].
    destruct Ha as [Ha|(Hw & _)]; [exact Ha|discriminate Hw].
Defined.
